(* ===== verification/_CoqProject ===== *)
-Q . S2P
Prelude.v
Bytes.v
Wire.v
Records.v
Table.v
WalFrame.v
Disk.v
Wal.v
WalRecovery.v
WalCompact.v
WalSpec.v
WalProgress.v
Store.v
Ring.v
Membership.v
StoreApi.v
NodeState.v
QueueNode.v
NodeCodec.v
NodeSteps.v
NodeRules.v
NodeSafety.v
Answers.v
DurableNode.v
Cluster.v
Executions.v
Demux.v
Rpc.v
RpcSafety.v
Stack.v
Text.v
Demo.v
Verify.v
Http.v
HttpClient.v
HttpFraming.v
HttpSocket.v
HttpSafety.v
Metrics.v
Api.v
Fence.v
Sink.v
Loop.v
HttpLoop.v
Args.v
Worker.v
Main.v
Waiting.v
Loadgen.v
Scrape.v
