(* ===== verification/Prelude.v ===== *)
(** * tautq: a replicated job queue, verified

    tautq is a cluster of nodes that keep jobs (a URL to call with a body, once) and
    lease them to workers.  A node is one process: a [QueueNode] (queue_node.cc) on
    top of a [JobStore] (store.cc) that keeps its table in a write-ahead log (wal.cc),
    an [RpcNode] (rpc.cc) that talks to the other nodes over datagrams routed by a
    [Demux] (demux.cc), a view of the membership (ring.h, swim_membership.h) and an
    HTTP server (http.cc, node_main.cc) for clients and workers.  Jobs are placed by
    consistent hashing (ring.cc), replicated to three pinned nodes, and owned by one
    of them; ownership moves by majority claims that raise the job's epoch, and leases
    and completions are fenced by (epoch, lease number).  worker_main.cc pulls jobs
    over HTTP, sink_main.cc receives them, verify_main.cc judges the logs afterwards,
    loadgen_main.cc loads a cluster and reads its metrics back; wasm/public.cc runs a
    store in a browser.

    ** Files, and the sources under src/src they model

    - Prelude: widths, bytes, decoder results, tactics, hint databases.
    - Bytes (bytes.h), Wire (wire.h, wire.cc), Records (job.h, records.h, records.cc):
      integers on the wire, HELLO and RPC frames, jobs, ids and log records.
    - Table (JobStore::apply and its indices), Store (JobStore::open, commit,
      compact): the job table as a fold of the log.
    - WalFrame, Disk, Wal, WalRecovery, WalCompact, WalSpec, WalProgress (wal.h,
      wal.cc): frames; a file system with synced prefixes, durable directory entries
      and crashes; class Wal over it, with every system call able to fail or be cut
      short; recovery; compaction; the specification; that compaction completes.
    - Ring, Membership (ring.h, ring.cc, swim_membership.h): placement and views.
    - StoreApi: the interface (a type class with laws) the node uses of its store.
    - NodeState, QueueNode (queue_node.h, queue_node.cc): the node's state, every
      request handler, RPC callback, client operation, timer and membership event.
      Callbacks are data ([Kont], [QDone]), effects are outputs ([Out]).
    - NodeCodec, NodeSteps, NodeRules, NodeSafety: message bodies; events and runs of
      a node; what each operation may commit; the theorems on all runs.
    - Answers, Stack: who waits for an answer of a node; the queue node composed with
      the RPC layer.
    - DurableNode: the queue node composed with the store, the log and the disk.
    - Cluster, Executions: several nodes with messages in flight, and executions of
      them that exhibit the findings.
    - Demux, Rpc, RpcSafety (demux.h, demux.cc, rpc.h, rpc.cc): datagram routing, the
      boot handshake, calls and their callbacks.
    - Text: the std::string operations the parsers use.
    - Verify (verify_main.cc): the history checker; Sink (sink_main.cc): receipts.
    - Demo (src/wasm/public.cc): the browser demonstration of the store.
    - Http, HttpFraming, HttpSafety (http.h, http.cc): the server's connections and
      parser, round trips, and the invariant of the server.
    - HttpClient, HttpSocket (http_client.cc): the client's text and its socket loops.
    - Loop (loop.h, loop.cc), HttpLoop: the event loop, and the server on it with its
      descriptors.
    - Metrics (metrics.h, metrics.cc), Api (node_main.cc): the metrics and the HTTP
      endpoints of a node.
    - Fence: the path of a lease from the node to the worker and back.
    - Args: the command lines of the programs and what a node makes of its own.
    - Worker (worker_main.cc), Main (node_main.cc, sink_main.cc): the processes.
    - Waiting: the node process as its clients see it, over Main, the HTTP server, the
      queue node and the calls of the RPC layer.
    - Loadgen, Scrape (loadgen_main.cc): the load generator, and what it reads off the
      metrics page of Api.

    ** How the code is modelled

    Unsigned integers are [Z] with their wrap-around ([u32], [u64], ...); byte strings
    are lists of [Byte.byte]; maps are [gmap]s; objects are records passed along.
    Reading outside a span is a value ([Oob]) of the decoders.  What comes from
    outside is an input: results of system calls, send queues that are full, datagrams
    and their contents, the clock, the membership view, which commits fail.  Theorems
    hold for all of these inputs.  A crash is one of the machine: what was not synced
    may be lost, what is left is durable.  A process may also restart alone, over the
    disk as it is, while its log is healthy; a restart alone after a failed sync is the
    subject of one of the findings.  Code that is not
    in the repository is a parameter: the CRC-32C and the sessions of the taut
    library, its failure detector, floating point in the histogram and the quantiles.

    ** What the theorems show

    - Log: class Wal refines a list of records with a durable prefix; acknowledged
      appends survive; compaction is atomic under crashes; damage before the last
      segment is refused.
    - Store: the table is the replay of the log after any crash; compaction does not
      change it; records move jobs along the lifecycle.
    - Node: in every run a node commits only what the protocol allows; epochs are
      monotone; a vote of an epoch is given once; a lease needs a quorum; a drain ends
      only when nothing is left; forwarded requests act like local ones.
    - Node and RPC together: whoever asks is answered once, and everybody has been when
      no call is under way.
    - Node and store together: a machine crash gives a node its table back, through
      any number of events, failures and restarts; epochs survive; a node whose log
      has failed changes nothing more.
    - RPC: every callback runs exactly once and no later than its deadline; no frame
      is sent before the handshake of this boot.
    - HTTP: requests are parsed as sent however they are cut; connections stay in
      order; the parser loop ends; an acknowledgement carries the granted fence; the
      event loop watches exactly the open connections, with the events they need.
    - Placement: replica sets do not depend on the order of the members; a departure
      moves only the departed node's keys.
    - Codecs: round trips, canonical encodings, no read out of range, size bounds.
    - Checker: what its exit code 0 proves about the logs.
    - Processes: a node process, whatever its clients, peers and system calls do, is a
      run of the queue node over the log it opened; no HTTP request is left behind by it
      (while fewer than 2^32-2 events keep its job numbers apart); nodes started with the same set of
      endpoints agree on the owner of every key; a delivery a worker reports as done
      has a receipt in the sink's log; the load generator accounts for every submit it
      offers, and its row counts the jobs of its run when no node restarts.
    - Findings: executions in which a completed job is leased again, two owners lease
      one job, a failed lease expires its successor, a resync is stuck for good, an
      acknowledged record is lost with a directory entry, a late response completes
      another call, the checker's verdict depends on the order of the logs, a URL
      forges the fence of a lease, a malformed number ends a node, an event of a closed
      connection closes the one that got its descriptor, and a restarted node makes the
      load generator print a wrong row that it does not mark as suspect.

    ** Fuel

    Loops that are not structural take fuel and are run with enough: the frame scan,
    the header, query and list loops with the length of their input, whose every round
    advances; [try_parse] with the buffered bytes (proved sufficient); the search for
    a free generation in compaction with one more than the generations present (proved
    sufficient in WalProgress).  The loops of the processes run over the list of what
    each round meets, and end where the code's do or where the list ends.

    ** Not modelled

    Pacing against the clock (the sleeps of the load generator and its rate; a sleep of
    the worker is an action with its length), the lines the programs print for people,
    signals but for the flag they set, the discovery of a bound port by getsockname, and
    what the taut library does inside (its failure detector and its session framing are
    parameters).  A callback runs after the operation that triggers it where the code
    runs it inside; the operations of the RPC layer are written so that this makes no
    difference to their own state, except for the invalidated iterator recorded among
    the findings. *)

From Stdlib Require Import ZArith Lia Strings.Byte.
From stdpp Require Import base tactics list gmap numbers countable sorting.

#[global] Open Scope Z_scope.

(** ** Scope and hint databases of the development *)

Declare Scope tautq_scope.
Delimit Scope tautq_scope with tq.
#[global] Open Scope tautq_scope.

Create HintDb tautq discriminated.
Create Rewrite HintDb tautq_put.
Create Rewrite HintDb tautq_len.

(** ** Machine integers

    A C++ unsigned integer of [w] bits is a [Z] in [0, 2^w); [wrap w] is the
    conversion C++ performs on assignment to that type. *)

Definition fits (w z : Z) : Prop := 0 <= z < 2 ^ w.

Definition wrap (w z : Z) : Z := z mod 2 ^ w.

Abbreviation u8 := (wrap 8).
Abbreviation u16 := (wrap 16).
Abbreviation u32 := (wrap 32).
Abbreviation u64 := (wrap 64).

#[global] Instance fits_dec w z : Decision (fits w z).
Proof. unfold fits. apply _. Defined.

Lemma wrap_id w z : fits w z -> wrap w z = z.
Proof. intros H. apply Z.mod_small, H. Qed.

Lemma wrap_fits w z : 0 <= w -> fits w (wrap w z).
Proof. intros H. apply Z.mod_pos_bound. lia. Qed.

Lemma wrap_wrap w z : wrap w (wrap w z) = wrap w z.
Proof. apply Zmod_mod. Qed.

Lemma fits_weaken w w' z : 0 <= w <= w' -> fits w z -> fits w' z.
Proof.
  unfold fits. intros Hw [H0 H1]. split; [done|].
  eapply Z.lt_le_trans; [exact H1|]. apply Z.pow_le_mono_r; lia.
Qed.

#[export] Hint Resolve wrap_fits : tautq.

(** ** Bytes

    [std::byte], [char] and [unsigned char] are the 256 values of [Byte.byte];
    [std::vector<std::byte>], [std::span<const std::byte>] and [std::string]
    are lists of them. *)

Abbreviation byte := Byte.byte.
Abbreviation bytes := (list Byte.byte).

Definition Z_of_byte (b : byte) : Z := Z.of_N (Byte.to_N b).

Definition byte_of_Z (z : Z) : byte :=
  match Byte.of_N (Z.to_N (wrap 8 z)) with
  | Some b => b
  | None => Byte.x00
  end.

Lemma Z_of_byte_fits b : fits 8 (Z_of_byte b).
Proof. unfold fits, Z_of_byte. pose proof (Byte.to_N_bounded b). lia. Qed.

Lemma Z_of_byte_of_Z z : Z_of_byte (byte_of_Z z) = wrap 8 z.
Proof.
  unfold Z_of_byte, byte_of_Z.
  assert (Hf : fits 8 (wrap 8 z)) by (apply wrap_fits; lia).
  unfold fits in Hf.
  destruct (Byte.of_N _) as [b|] eqn:E.
  - apply Byte.to_of_N in E. rewrite E. lia.
  - apply Byte.of_N_None_iff in E. lia.
Qed.

Lemma byte_of_Z_of_byte b : byte_of_Z (Z_of_byte b) = b.
Proof.
  unfold byte_of_Z. rewrite wrap_id by apply Z_of_byte_fits.
  unfold Z_of_byte. rewrite N2Z.id, Byte.of_to_N. done.
Qed.

Lemma byte_of_Z_wrap z : byte_of_Z (wrap 8 z) = byte_of_Z z.
Proof. unfold byte_of_Z. by rewrite wrap_wrap. Qed.

Lemma Z_of_byte_inj b c : Z_of_byte b = Z_of_byte c -> b = c.
Proof.
  intros H. rewrite <- (byte_of_Z_of_byte b), <- (byte_of_Z_of_byte c). by rewrite H.
Qed.

#[export] Hint Resolve Z_of_byte_fits : tautq.

#[global] Instance byte_eq_dec : EqDecision byte.
Proof. intros a b. apply Byte.byte_eq_dec. Defined.

#[global] Program Instance byte_countable : Countable byte :=
  inj_countable Z_of_byte (fun z => Some (byte_of_Z z)) _.
Next Obligation. intros b. simpl. by rewrite byte_of_Z_of_byte. Qed.

(** ** Reads of a span that may be rejected or go out of range

    A decoder ends in one of three ways: it yields a value, it rejects the
    input ([nullopt], [false] or a count of 0), or it subscripts the span at or
    beyond [size()], which C++ leaves undefined.  [Oob] keeps the last one
    apart, so that its absence is a theorem. *)

Inductive res (A : Type) : Type :=
  | Val (a : A)
  | Bad
  | Oob.
Arguments Val {A} a.
Arguments Bad {A}.
Arguments Oob {A}.

Definition res_bind {A B} (m : res A) (k : A -> res B) : res B :=
  match m with
  | Val a => k a
  | Bad => Bad
  | Oob => Oob
  end.

Notation "'let!' x ':=' m 'in' k" := (res_bind m (fun x => k))
  (at level 10, x pattern, m at level 100, k at level 200) : tautq_scope.

Notation "'reject_if' c ; k" := (if c then Bad else k)
  (at level 10, c at level 100, k at level 200) : tautq_scope.

(** The value of a decoder, [None] for both failures. *)
Definition res_value {A} (m : res A) : option A :=
  match m with Val a => Some a | _ => None end.

Lemma res_bind_Val {A B} (m : res A) (k : A -> res B) b :
  res_bind m k = Val b -> exists a, m = Val a /\ k a = Val b.
Proof. destruct m; simpl; naive_solver. Qed.

Lemma res_bind_safe {A B} (m : res A) (k : A -> res B) :
  m <> Oob -> (forall a, m = Val a -> k a <> Oob) -> res_bind m k <> Oob.
Proof. destruct m; simpl; naive_solver. Qed.

(** [b[off]] *)
Definition at_byte (b : bytes) (off : nat) : res byte :=
  match b !! off with
  | Some x => Val x
  | None => Oob
  end.

Lemma at_byte_safe b off : (off < length b)%nat -> at_byte b off <> Oob.
Proof.
  intros H. unfold at_byte.
  destruct (lookup_lt_is_Some_2 b off H) as [x ->]. done.
Qed.

Lemma at_byte_app_r p b off : at_byte (p ++ b) (length p + off) = at_byte b off.
Proof. unfold at_byte. by rewrite lookup_app_r, Nat.add_comm, Nat.add_sub by lia. Qed.

(** [in.subspan(off, n)]; out of range when fewer than [n] bytes remain. *)
Definition slice (b : bytes) (off n : nat) : res bytes :=
  if decide (off + n <= length b)%nat then Val (take n (drop off b)) else Oob.

Lemma slice_safe b off n : (off + n <= length b)%nat -> slice b off n <> Oob.
Proof. intros H. unfold slice. by rewrite decide_True. Qed.

Lemma slice_app_r p b off n : slice (p ++ b) (length p + off) n = slice b off n.
Proof.
  unfold slice. rewrite length_app.
  destruct (decide (off + n <= length b)%nat), (decide _); try lia; [|done].
  by rewrite drop_app_add.
Qed.

Lemma slice_prefix x s : slice (x ++ s) 0 (length x) = Val x.
Proof.
  unfold slice. rewrite decide_True by (rewrite length_app; lia).
  by rewrite drop_0, take_app_length.
Qed.

(** ** Tactics *)

(** Case analysis on the innermost [match] or [if] scrutinee of the goal. *)
Ltac destr_goal :=
  match goal with
  | |- context [match ?x with _ => _ end] =>
      lazymatch x with
      | context [match _ with _ => _ end] => fail
      | _ => destruct x eqn:?
      end
  end.

(** The same for a hypothesis. *)
Ltac destr_in H :=
  match type of H with
  | context [match ?x with _ => _ end] =>
      lazymatch x with
      | context [match _ with _ => _ end] => fail
      | _ => destruct x eqn:?
      end
  end.

(** Opens a chain of [let!] known to have produced a value. *)
Ltac inv_val H :=
  repeat match type of H with
  | res_bind _ _ = Val _ =>
      let a := fresh "v" in let E := fresh "E" in
      apply res_bind_Val in H as (a & E & H); cbn beta in H
  | (if ?c then Bad else _) = Val _ =>
      let E := fresh "G" in destruct c eqn:E; [discriminate H|]
  end.

(** ** Lexicographic order on byte strings, [std::string::operator<]

    [char_traits<char>] compares as unsigned char. *)

Fixpoint bytes_ltb (a b : bytes) : bool :=
  match a, b with
  | [], [] => false
  | [], _ :: _ => true
  | _ :: _, [] => false
  | x :: a', y :: b' =>
      if Z_of_byte x <? Z_of_byte y then true
      else if Z_of_byte y <? Z_of_byte x then false
      else bytes_ltb a' b'
  end.

Lemma bytes_ltb_irrefl a : bytes_ltb a a = false.
Proof. induction a as [|x a IH]; simpl; [done|]. by rewrite Z.ltb_irrefl. Qed.

Lemma bytes_ltb_trans a b c :
  bytes_ltb a b = true -> bytes_ltb b c = true -> bytes_ltb a c = true.
Proof.
  revert b c. induction a as [|x a IH]; intros [|y b] [|z c]; simpl; try done.
  intros H1 H2.
  repeat match goal with
  | H : context [?u <? ?v] |- _ => destruct (Z.ltb_spec u v)
  | |- context [?u <? ?v] => destruct (Z.ltb_spec u v)
  end; try done; try lia.
  eauto.
Qed.

Lemma bytes_ltb_total a b : bytes_ltb a b = false -> bytes_ltb b a = false -> a = b.
Proof.
  revert b. induction a as [|x a IH]; intros [|y b]; simpl; try done.
  intros H1 H2.
  repeat match goal with
  | H : context [?u <? ?v] |- _ => destruct (Z.ltb_spec u v)
  end; try done; try lia.
  f_equal; [apply Z_of_byte_inj; lia | eauto].
Qed.

Lemma bytes_ltb_app_same p a b : bytes_ltb (p ++ a) (p ++ b) = bytes_ltb a b.
Proof. induction p as [|x p IH]; simpl; [done|]. by rewrite Z.ltb_irrefl. Qed.

(** ** Generic list and option lemmas *)

Lemma take_drop_app_eq {A} (l p s : list A) :
  l = p ++ s -> take (length p) l = p /\ drop (length p) l = s.
Proof. intros ->. by rewrite take_app_length, drop_app_length. Qed.

Lemma drop_app_add' {A} (p s : list A) n : drop (length p + n) (p ++ s) = drop n s.
Proof. apply drop_app_add. Qed.

Lemma prefix_take_le {A} (l : list A) n m :
  (n <= m)%nat -> take n l `prefix_of` take m l.
Proof. intros H. rewrite <- (Nat.min_l n m H), <- take_take. apply prefix_take. Qed.
