(* ===== verification/Bytes.v ===== *)
(** * Bytes: the little-endian helpers of src/src/bytes.h

    [put_*] append to a buffer, [get_*] read a span at an offset.  Both are
    written the way the header writes them (shifts, masks, or-ing of bytes), and
    shown to compute the little-endian reference codec [le_bytes] / [le_val]. *)

From Stdlib Require Import ZArith Lia.
From stdpp Require Import base tactics list numbers.
From S2P Require Import Prelude.

(** ** Writers *)

Definition put_u8 (b : bytes) (v : Z) : bytes := b ++ [byte_of_Z v].

Definition put_u16 (b : bytes) (v : Z) : bytes :=
  let b := b ++ [byte_of_Z (Z.land v 255)] in
  b ++ [byte_of_Z (Z.land (Z.shiftr v 8) 255)].

Definition push_shifted (v : Z) (b : bytes) (i : Z) : bytes :=
  b ++ [byte_of_Z (Z.land (Z.shiftr v (8 * i)) 255)].

Definition put_u32 (b : bytes) (v : Z) : bytes :=
  foldl (push_shifted v) b [0; 1; 2; 3].

Definition put_u64 (b : bytes) (v : Z) : bytes :=
  foldl (push_shifted v) b [0; 1; 2; 3; 4; 5; 6; 7].

Definition put_bytes (b v : bytes) : bytes := b ++ v.

(** ** Readers *)

Definition get_u8 (b : bytes) (off : nat) : res Z :=
  let! x := at_byte b off in Val (Z_of_byte x).

Definition get_u16 (b : bytes) (off : nat) : res Z :=
  let! x0 := at_byte b off in
  let! x1 := at_byte b (off + 1) in
  Val (u16 (Z.lor (Z_of_byte x0) (u32 (Z.shiftl (Z_of_byte x1) 8)))).

Definition get_u32 (b : bytes) (off : nat) : res Z :=
  let! x0 := at_byte b off in
  let! x1 := at_byte b (off + 1) in
  let! x2 := at_byte b (off + 2) in
  let! x3 := at_byte b (off + 3) in
  Val (Z.lor (Z.lor (Z.lor (Z_of_byte x0) (u32 (Z.shiftl (Z_of_byte x1) 8)))
                    (u32 (Z.shiftl (Z_of_byte x2) 16)))
             (u32 (Z.shiftl (Z_of_byte x3) 24))).

(** The loop of [get_u64]: [i] bytes are left to read, the highest first. *)
Fixpoint get_u64_loop (b : bytes) (off i : nat) (v : Z) : res Z :=
  match i with
  | O => Val v
  | S i' =>
      let! x := at_byte b (off + i') in
      get_u64_loop b off i' (Z.lor (u64 (Z.shiftl v 8)) (Z_of_byte x))
  end.

Definition get_u64 (b : bytes) (off : nat) : res Z := get_u64_loop b off 8 0.

(** ** The reference codec *)

Fixpoint le_bytes (n : nat) (v : Z) : bytes :=
  match n with
  | O => []
  | S n' => byte_of_Z v :: le_bytes n' (Z.shiftr v 8)
  end.

Fixpoint le_val (b : bytes) : Z :=
  match b with
  | [] => 0
  | x :: b' => Z_of_byte x + 256 * le_val b'
  end.

Lemma length_le_bytes n v : length (le_bytes n v) = n.
Proof. revert v. induction n; intros v; simpl; auto. Qed.

Lemma le_val_fits b : fits (8 * Z.of_nat (length b)) (le_val b).
Proof.
  unfold fits. induction b as [|x b IH]; simpl le_val; simpl length; [done|].
  pose proof (Z_of_byte_fits x) as Hx. unfold fits in Hx.
  replace (8 * Z.of_nat (S (length b))) with (8 + 8 * Z.of_nat (length b)) by lia.
  rewrite Z.pow_add_r by lia. change (2 ^ 8) with 256 in *. lia.
Qed.

Lemma le_val_bytes n v : le_val (le_bytes n v) = wrap (8 * Z.of_nat n) v.
Proof.
  revert v. induction n as [|n IH]; intros v; simpl le_bytes; simpl le_val.
  - unfold wrap. by rewrite Z.mod_1_r.
  - rewrite IH, Z_of_byte_of_Z. unfold wrap.
    replace (8 * Z.of_nat (S n)) with (8 + 8 * Z.of_nat n) by lia.
    rewrite Z.pow_add_r, Z.rem_mul_r by (try apply Z.pow_nonzero; lia).
    by rewrite Z.shiftr_div_pow2 by lia.
Qed.

Lemma le_bytes_val b : le_bytes (length b) (le_val b) = b.
Proof.
  induction b as [|x b IH]; simpl; [done|].
  pose proof (Z_of_byte_fits x) as Hx. unfold fits in Hx.
  f_equal.
  - rewrite <- (byte_of_Z_of_byte x) at 2. rewrite <- byte_of_Z_wrap. f_equal.
    unfold wrap. change (2 ^ 8) with 256 in *.
    rewrite (Z.mul_comm 256), Z_mod_plus_full. by apply Z.mod_small.
  - rewrite Z.shiftr_div_pow2 by lia. change (2 ^ 8) with 256 in *.
    rewrite (Z.mul_comm 256), Z_div_plus_full, Z.div_small by lia. done.
Qed.

(** ** The writers append the reference encoding *)

Lemma byte_of_Z_land v : byte_of_Z (Z.land v 255) = byte_of_Z v.
Proof.
  change 255 with (Z.ones 8). rewrite Z.land_ones by lia. apply byte_of_Z_wrap.
Qed.

Lemma put_u8_app b v : put_u8 b v = b ++ le_bytes 1 v.
Proof. done. Qed.

Lemma put_u16_app b v : put_u16 b v = b ++ le_bytes 2 v.
Proof. unfold put_u16. rewrite !byte_of_Z_land. simpl. by rewrite <- app_assoc. Qed.

Lemma push_shifted_app v b (n k : nat) :
  foldl (push_shifted v) b (Z.of_nat <$> seq k n) =
  b ++ le_bytes n (Z.shiftr v (8 * Z.of_nat k)).
Proof.
  revert b k. induction n as [|n IH]; intros b k; simpl; [by rewrite app_nil_r|].
  unfold push_shifted at 2. rewrite IH, byte_of_Z_land, <- app_assoc. simpl.
  rewrite Z.shiftr_shiftr by lia.
  repeat f_equal. lia.
Qed.

Lemma put_u32_app b v : put_u32 b v = b ++ le_bytes 4 v.
Proof. apply (push_shifted_app v b 4 0). Qed.

Lemma put_u64_app b v : put_u64 b v = b ++ le_bytes 8 v.
Proof. apply (push_shifted_app v b 8 0). Qed.

#[export] Hint Rewrite put_u8_app put_u16_app put_u32_app put_u64_app : tautq_put.

(** ** The readers compute the reference value, and only read in range *)

Lemma lor_shiftl_add x y k :
  0 <= k -> fits k x -> 0 <= y -> Z.lor x (Z.shiftl y k) = x + 2 ^ k * y.
Proof.
  intros Hk Hx Hy. pose proof (Z.add_lor_land x (Z.shiftl y k)) as H.
  replace (Z.land x (Z.shiftl y k)) with 0 in H;
    [rewrite Z.shiftl_mul_pow2 in * by lia; lia|].
  symmetry. apply Z.bits_inj'. intros n Hn. rewrite Z.bits_0, Z.land_spec.
  destruct (Z.lt_ge_cases n k) as [Hlt|Hge].
  - by rewrite Z.shiftl_spec_low, andb_false_r.
  - apply andb_false_iff. left.
    destruct (Z.eq_dec x 0) as [->|]; [apply Z.bits_0|].
    unfold fits in Hx. apply Z.bits_above_log2; [lia|].
    assert (Z.log2 x < k) by (apply Z.log2_lt_pow2; lia). lia.
Qed.

Ltac fits_tac :=
  repeat match goal with
  | x : byte |- _ =>
      lazymatch goal with
      | _ : 0 <= Z_of_byte x < 256 |- _ => fail
      | _ => assert (0 <= Z_of_byte x < 256) by apply Z_of_byte_fits
      end
  end;
  unfold fits in *; change (2 ^ 8) with 256 in *; change (2 ^ 16) with 65536 in *;
  change (2 ^ 24) with 16777216 in *; change (2 ^ 32) with 4294967296 in *; lia.

Lemma lor_byte_shiftl (v : Z) (x : byte) k :
  0 <= k -> fits k v -> k + 8 <= 32 ->
  Z.lor v (u32 (Z.shiftl (Z_of_byte x) k)) = v + 2 ^ k * Z_of_byte x.
Proof.
  intros Hk Hv Hk'. pose proof (Z_of_byte_fits x) as Hx.
  rewrite wrap_id, lor_shiftl_add; unfold fits in *; try lia; [].
  rewrite Z.shiftl_mul_pow2 by lia. split; [nia|].
  replace (2 ^ 32) with (2 ^ (32 - k) * 2 ^ k) by (rewrite <- Z.pow_add_r by lia; f_equal; lia).
  apply Z.mul_lt_mono_pos_r; [lia|].
  eapply Z.lt_le_trans; [apply Hx|]. apply Z.pow_le_mono_r; lia.
Qed.

Lemma drop_lookup_cons (b : bytes) (off n : nat) :
  (off + S n <= length b)%nat ->
  exists x, b !! off = Some x /\ take (S n) (drop off b) = x :: take n (drop (off + 1) b).
Proof.
  intros H. destruct (lookup_lt_is_Some_2 b off ltac:(lia)) as [x Hx].
  exists x. split; [done|]. rewrite (drop_S b x off Hx). simpl.
  by rewrite Nat.add_1_r.
Qed.

(** Opens [n] in-range reads at [off]. *)
Ltac open_reads :=
  repeat match goal with
  | |- context [take (S ?n) (drop ?off ?b)] =>
      let x := fresh "x" in let Hx := fresh "Hx" in let Ht := fresh "Ht" in
      destruct (drop_lookup_cons b off n) as (x & Hx & Ht); [lia|]; rewrite Ht; clear Ht
  end.

Lemma get_u8_spec b off :
  get_u8 b off = if decide (off + 1 <= length b)%nat
                 then Val (le_val (take 1 (drop off b))) else Oob.
Proof.
  unfold get_u8, at_byte. case_decide.
  - open_reads. rewrite Hx. simpl. f_equal. lia.
  - by rewrite lookup_ge_None_2 by lia.
Qed.

Lemma get_u16_spec b off :
  get_u16 b off = if decide (off + 2 <= length b)%nat
                  then Val (le_val (take 2 (drop off b))) else Oob.
Proof.
  unfold get_u16, at_byte. case_decide.
  - open_reads. rewrite Hx, Hx0. simpl. f_equal.
    rewrite lor_byte_shiftl by fits_tac. rewrite wrap_id by fits_tac. fits_tac.
  - destruct (b !! off); simpl; [|done]. by rewrite lookup_ge_None_2 by lia.
Qed.

Lemma get_u32_spec b off :
  get_u32 b off = if decide (off + 4 <= length b)%nat
                  then Val (le_val (take 4 (drop off b))) else Oob.
Proof.
  unfold get_u32, at_byte. case_decide.
  - open_reads.
    replace (off + 1 + 1)%nat with (off + 2)%nat in * by lia.
    replace (off + 2 + 1)%nat with (off + 3)%nat in * by lia.
    rewrite Hx, Hx0, Hx1, Hx2. simpl. f_equal.
    rewrite (lor_byte_shiftl _ _ 8) by fits_tac. rewrite (lor_byte_shiftl _ _ 16) by fits_tac.
    rewrite (lor_byte_shiftl _ _ 24) by fits_tac. fits_tac.
  - repeat (case_match; simpl; [|done]).
    match goal with H : b !! (off + 3)%nat = Some _ |- _ => apply lookup_lt_Some in H end. lia.
Qed.

Lemma get_u64_loop_spec b off i v :
  (off + i <= length b)%nat -> (i <= 8)%nat -> fits (64 - 8 * Z.of_nat i) v ->
  get_u64_loop b off i v =
  Val (le_val (take i (drop off b)) + 2 ^ (8 * Z.of_nat i) * v).
Proof.
  revert v. induction i as [|i IH]; intros v Hl Hi Hv.
  { simpl. f_equal. destruct v; lia. }
  destruct (lookup_lt_is_Some_2 b (off + i) ltac:(lia)) as [x Hx].
  cbn [get_u64_loop]. unfold at_byte. rewrite Hx. cbn [res_bind].
  pose proof (Z_of_byte_fits x) as Hxf.
  assert (Hs : fits (64 - 8 * Z.of_nat i) (Z.shiftl v 8 + Z_of_byte x)).
  { unfold fits in *. rewrite Z.shiftl_mul_pow2 by lia.
    replace (64 - 8 * Z.of_nat i) with (64 - 8 * Z.of_nat (S i) + 8) by lia.
    rewrite Z.pow_add_r by lia. change (2 ^ 8) with 256 in *. lia. }
  assert (Hlor : Z.lor (u64 (Z.shiftl v 8)) (Z_of_byte x) = Z.shiftl v 8 + Z_of_byte x).
  { rewrite wrap_id.
    - rewrite Z.lor_comm, lor_shiftl_add, Z.shiftl_mul_pow2 by (unfold fits in *; lia). lia.
    - eapply (fits_weaken (64 - 8 * Z.of_nat i)); [lia|].
      unfold fits in *. rewrite Z.shiftl_mul_pow2 in * by lia. lia. }
  rewrite Hlor, IH by (try lia; done).
  f_equal. rewrite (take_S_r (drop off b) i x) by (by rewrite lookup_drop).
  assert (Hsnoc : forall l y, le_val (l ++ [y]) =
            le_val l + 2 ^ (8 * Z.of_nat (length l)) * Z_of_byte y).
  { clear. induction l as [|a l IHl]; intros y; simpl le_val; [simpl; lia|].
    rewrite IHl. simpl length.
    replace (8 * Z.of_nat (S (length l))) with (8 + 8 * Z.of_nat (length l)) by lia.
    rewrite Z.pow_add_r by lia. change (2 ^ 8) with 256. lia. }
  rewrite Hsnoc, length_take_le by (rewrite length_drop; lia).
  replace (8 * Z.of_nat (S i)) with (8 + 8 * Z.of_nat i) by lia.
  rewrite Z.pow_add_r, Z.shiftl_mul_pow2 by lia. change (2 ^ 8) with 256. lia.
Qed.

Lemma get_u64_spec b off :
  get_u64 b off = if decide (off + 8 <= length b)%nat
                  then Val (le_val (take 8 (drop off b))) else Oob.
Proof.
  unfold get_u64. case_decide.
  - rewrite get_u64_loop_spec by (try lia; done). f_equal. lia.
  - cbn [get_u64_loop]. unfold at_byte. by rewrite lookup_ge_None_2 by lia.
Qed.

(** ** Consequences used by every decoder: a read never leaves the span when the
    guard holds, it fits its width, and it inverts the writer. *)

Lemma get_u8_safe b off : (off + 1 <= length b)%nat -> get_u8 b off <> Oob.
Proof. intros H. rewrite get_u8_spec, decide_True by done. done. Qed.
Lemma get_u16_safe b off : (off + 2 <= length b)%nat -> get_u16 b off <> Oob.
Proof. intros H. rewrite get_u16_spec, decide_True by done. done. Qed.
Lemma get_u32_safe b off : (off + 4 <= length b)%nat -> get_u32 b off <> Oob.
Proof. intros H. rewrite get_u32_spec, decide_True by done. done. Qed.
Lemma get_u64_safe b off : (off + 8 <= length b)%nat -> get_u64 b off <> Oob.
Proof. intros H. rewrite get_u64_spec, decide_True by done. done. Qed.

#[export] Hint Resolve get_u8_safe get_u16_safe get_u32_safe get_u64_safe at_byte_safe
  slice_safe : tautq.

(** [in] holds [x] from offset [off] on, followed by [s]. *)
Definition holds_at (b : bytes) (off : nat) (x s : bytes) : Prop := drop off b = x ++ s.

Lemma holds_at_length b off x s :
  holds_at b off x s -> (0 < length x)%nat -> (off + length x + length s = length b)%nat.
Proof.
  intros H Hx. apply (f_equal length) in H. rewrite length_drop, length_app in H. lia.
Qed.

Lemma holds_at_app b off x y s :
  holds_at b off (x ++ y) s <-> holds_at b off x (y ++ s).
Proof. unfold holds_at. by rewrite <- app_assoc. Qed.

Lemma holds_at_next b off x s : holds_at b off x s -> drop (off + length x) b = s.
Proof. intros H. by rewrite <- drop_drop, H, drop_app_length. Qed.

Lemma holds_at_slice b off n :
  (off + n <= length b)%nat -> holds_at b off (take n (drop off b)) (drop (off + n) b).
Proof. intros H. unfold holds_at. by rewrite <- drop_drop, take_drop. Qed.

Section reads.
(** What the four readers share, for a reader of [n] bytes. *)
Context (n : nat) (get : bytes -> nat -> res Z).
Hypothesis n_pos : (0 < n)%nat.
Hypothesis get_spec : forall b off,
  get b off = if decide (off + n <= length b)%nat
              then Val (le_val (take n (drop off b))) else Oob.

Lemma get_inv b off v :
  get b off = Val v ->
  holds_at b off (le_bytes n v) (drop (off + n) b) /\ fits (8 * Z.of_nat n) v /\
  (off + n <= length b)%nat.
Proof.
  rewrite get_spec. case_decide as H; [|done]. intros [= <-].
  assert (Hl : length (take n (drop off b)) = n)
    by (rewrite length_take, length_drop; lia).
  pose proof (le_bytes_val (take n (drop off b))) as Hb.
  pose proof (le_val_fits (take n (drop off b))) as Hf.
  rewrite Hl in Hb, Hf. rewrite Hb. split; [by apply holds_at_slice|done].
Qed.

Lemma get_step b off v s :
  holds_at b off (le_bytes n v) s -> fits (8 * Z.of_nat n) v ->
  get b off = Val v /\ drop (off + n) b = s.
Proof.
  intros H Hv. pose proof (holds_at_length _ _ _ _ H) as Hl.
  pose proof (holds_at_next _ _ _ _ H) as Hn. rewrite length_le_bytes in Hl, Hn.
  split; [|done]. rewrite get_spec, decide_True by lia. rewrite H.
  rewrite <- (length_le_bytes n v) at 1. by rewrite take_app_length, le_val_bytes, wrap_id.
Qed.
End reads.

Definition get_u8_inv := get_inv 1 get_u8 ltac:(lia) get_u8_spec.
Definition get_u16_inv := get_inv 2 get_u16 ltac:(lia) get_u16_spec.
Definition get_u32_inv := get_inv 4 get_u32 ltac:(lia) get_u32_spec.
Definition get_u64_inv := get_inv 8 get_u64 ltac:(lia) get_u64_spec.
Definition get_u8_step := get_step 1 get_u8 ltac:(lia) get_u8_spec.
Definition get_u16_step := get_step 2 get_u16 ltac:(lia) get_u16_spec.
Definition get_u32_step := get_step 4 get_u32 ltac:(lia) get_u32_spec.
Definition get_u64_step := get_step 8 get_u64 ltac:(lia) get_u64_spec.

(** [slice] at a known position. *)
Lemma slice_step b off x s :
  holds_at b off x s -> (off <= length b)%nat ->
  slice b off (length x) = Val x /\ drop (off + length x) b = s.
Proof.
  intros H Ho. pose proof (f_equal length H) as Hl. rewrite length_drop, length_app in Hl.
  pose proof (holds_at_next _ _ _ _ H). split; [|done].
  unfold slice. rewrite decide_True by lia. by rewrite H, take_app_length.
Qed.

Lemma slice_inv b off n x :
  slice b off n = Val x ->
  holds_at b off x (drop (off + n) b) /\ length x = n /\ (off + n <= length b)%nat.
Proof.
  unfold slice. case_decide as H; [|done]. intros [= <-].
  split; [by apply holds_at_slice|]. rewrite length_take, length_drop. lia.
Qed.

#[global] Arguments le_bytes : simpl never.
