(* ===== verification/Wire.v ===== *)
(** * Wire: the datagram and RPC codecs of src/src/wire.h and src/src/wire.cc

    HELLO datagrams (the boot-id handshake below taut), the RPC envelope carried
    in taut class-1 payloads, and endpoints.  [taut::Endpoint] is a pair of a
    32-bit address and a 16-bit port, both kept in network byte order as opaque
    integers; [Endpoint{}] is the all-zero endpoint. *)

From Stdlib Require Import ZArith Lia.
From stdpp Require Import base tactics list numbers gmap countable.
From S2P Require Import Prelude Bytes.

(** ** Endpoints *)

Record Endpoint := mkEndpoint { addr_be : Z; port_be : Z }.

#[global] Instance Endpoint_eq_dec : EqDecision Endpoint.
Proof. solve_decision. Defined.

#[global] Program Instance Endpoint_countable : Countable Endpoint :=
  inj_countable' (fun e => (addr_be e, port_be e)) (fun '(a, p) => mkEndpoint a p) _.
Next Obligation. by intros []. Qed.

Definition no_endpoint : Endpoint := mkEndpoint 0 0.

Definition endpoint_wf (e : Endpoint) : Prop := fits 32 (addr_be e) /\ fits 16 (port_be e).

#[global] Instance endpoint_wf_dec e : Decision (endpoint_wf e).
Proof. unfold endpoint_wf. apply _. Defined.

Definition ekey (e : Endpoint) : Z := Z.lor (u64 (Z.shiftl (addr_be e) 16)) (port_be e).

Definition kEndpointSize : nat := 6.

Definition put_endpoint (b : bytes) (e : Endpoint) : bytes :=
  let b := put_u32 b (addr_be e) in
  put_u16 b (port_be e).

Definition get_endpoint (b : bytes) (off : nat) : res Endpoint :=
  let! a := get_u32 b off in
  let! p := get_u16 b (off + 4) in
  Val (mkEndpoint a p).

(** ** HELLO datagrams *)

Definition kHelloMagic0 : Z := 84.  (* 'T' *)
Definition kHelloMagic1 : Z := 81.  (* 'Q' *)
Definition kHelloMagic2 : Z := 72.  (* 'H' *)

Record Hello := mkHello { is_ack : bool; sender_boot : Z; echo_boot : Z }.

#[global] Instance Hello_eq_dec : EqDecision Hello.
Proof. solve_decision. Defined.

Definition encode_hello (h : Hello) : bytes :=
  let out := put_u8 [] kHelloMagic0 in
  let out := put_u8 out kHelloMagic1 in
  let out := put_u8 out kHelloMagic2 in
  let out := put_u8 out (if is_ack h then 2 else 1) in
  let out := put_u64 out (sender_boot h) in
  if is_ack h then put_u64 out (echo_boot h) else out.

(** [in.size() >= 4 && in[0] == .. && in[1] == .. && in[2] == ..]; the
    short-circuit keeps the reads behind the size test. *)
Definition is_hello (b : bytes) : res bool :=
  if decide (length b < 4)%nat then Val false else
  let! m0 := get_u8 b 0 in
  if negb (m0 =? kHelloMagic0) then Val false else
  let! m1 := get_u8 b 1 in
  if negb (m1 =? kHelloMagic1) then Val false else
  let! m2 := get_u8 b 2 in
  Val (m2 =? kHelloMagic2).

Definition decode_hello (b : bytes) : res Hello :=
  let! ok := is_hello b in
  reject_if negb ok;
  let! kind := get_u8 b 3 in
  if (kind =? 1) && bool_decide (12 <= length b)%nat then
    let! s := get_u64 b 4 in
    Val (mkHello false s 0)
  else if (kind =? 2) && bool_decide (20 <= length b)%nat then
    let! s := get_u64 b 4 in
    let! e := get_u64 b 12 in
    Val (mkHello true s e)
  else Bad.

(** ** RPC envelope *)

Inductive MsgKind := Request | Response.

Definition u8_of_kind (k : MsgKind) : Z := match k with Request => 1 | Response => 2 end.

(** [Method] has a fixed underlying type, so a decoded byte outside the named
    enumerators is a value of the enumeration too: [OtherMethod] holds it. *)
Inductive Method :=
  | Ping | FwdSubmit | Replicate | Claim | Resync | FwdAck | FwdStatus | Apply | DrainHandoff
  | OtherMethod (raw : Z).

#[global] Instance MsgKind_eq_dec : EqDecision MsgKind.
Proof. solve_decision. Defined.
#[global] Instance Method_eq_dec : EqDecision Method.
Proof. solve_decision. Defined.

Definition u8_of_method (m : Method) : Z :=
  match m with
  | Ping => 1 | FwdSubmit => 2 | Replicate => 3 | Claim => 4 | Resync => 5
  | FwdAck => 6 | FwdStatus => 7 | Apply => 8 | DrainHandoff => 9
  | OtherMethod raw => raw
  end.

Definition method_of_u8 (z : Z) : Method :=
  if z =? 1 then Ping else if z =? 2 then FwdSubmit else if z =? 3 then Replicate
  else if z =? 4 then Claim else if z =? 5 then Resync else if z =? 6 then FwdAck
  else if z =? 7 then FwdStatus else if z =? 8 then Apply
  else if z =? 9 then DrainHandoff else OtherMethod z.

Definition method_wf (m : Method) : Prop :=
  match m with OtherMethod raw => raw = 0 \/ 10 <= raw < 256 | _ => True end.

#[global] Instance method_wf_dec m : Decision (method_wf m).
Proof. destruct m; simpl; apply _. Defined.

Definition kRpcHeader : nat := 14.

Record RpcMsg := mkRpcMsg {
  m_kind : MsgKind; m_method : Method; m_req_id : Z; m_status : Z; m_body : bytes
}.

Definition encode_rpc (kind : MsgKind) (method : Method) (req_id status : Z) (body : bytes)
  : bytes :=
  let out := put_u8 [] (u8_of_kind kind) in
  let out := put_u8 out (u8_of_method method) in
  let out := put_u64 out req_id in
  let out := put_u32 out status in
  put_bytes out body.

Definition decode_rpc (b : bytes) : res RpcMsg :=
  reject_if bool_decide (length b < kRpcHeader)%nat;
  let! kind := get_u8 b 0 in
  reject_if negb (kind =? 1) && negb (kind =? 2);
  let! m := get_u8 b 1 in
  let! rid := get_u64 b 2 in
  let! st := get_u32 b 10 in
  let! body := slice b kRpcHeader (length b - kRpcHeader) in
  Val (mkRpcMsg (if kind =? 1 then Request else Response) (method_of_u8 m) rid st body).

(** ** Endpoint lemmas *)

Definition endpoint_bytes (e : Endpoint) : bytes :=
  le_bytes 4 (addr_be e) ++ le_bytes 2 (port_be e).

Lemma put_endpoint_app b e : put_endpoint b e = b ++ endpoint_bytes e.
Proof. unfold put_endpoint. autorewrite with tautq_put. by rewrite <- app_assoc. Qed.

#[export] Hint Rewrite put_endpoint_app : tautq_put.

Lemma length_endpoint_bytes e : length (endpoint_bytes e) = 6%nat.
Proof. done. Qed.

Lemma get_endpoint_step b off e s :
  holds_at b off (endpoint_bytes e) s -> endpoint_wf e ->
  get_endpoint b off = Val e /\ drop (off + 6) b = s.
Proof.
  intros H [Ha Hp]. pose proof (holds_at_next _ _ _ _ H) as Hn. split; [|exact Hn].
  apply holds_at_app in H. unfold get_endpoint.
  destruct (get_u32_step _ _ _ _ H Ha) as [-> H4].
  destruct (get_u16_step _ _ _ _ H4 Hp) as [Hr _]. simpl. rewrite Hr. by destruct e.
Qed.

Lemma get_endpoint_inv b off e :
  get_endpoint b off = Val e ->
  holds_at b off (endpoint_bytes e) (drop (off + 6) b) /\ endpoint_wf e /\
  (off + 6 <= length b)%nat.
Proof.
  unfold get_endpoint. intros H. inv_val H. injection H as <-.
  apply get_u32_inv in E as (H1 & ? & ?). apply get_u16_inv in E0 as (H2 & ? & ?).
  replace (off + 4 + 2)%nat with (off + 6)%nat in * by lia.
  split; [|done]. apply holds_at_app. simpl. unfold holds_at in *. by rewrite H1, H2.
Qed.

Lemma get_endpoint_safe b off :
  (off + 6 <= length b)%nat -> get_endpoint b off <> Oob.
Proof.
  intros H. unfold get_endpoint.
  apply res_bind_safe; [apply get_u32_safe; lia|]. intros a _.
  apply res_bind_safe; [apply get_u16_safe; lia|]. done.
Qed.

#[export] Hint Resolve get_endpoint_safe : tautq.

(** The identity key keeps address and port apart, so distinct endpoints never
    share a ring position, a session or a job origin; [QueueNode::status]
    recovers the endpoint from it. *)
Lemma ekey_arith e : endpoint_wf e -> ekey e = addr_be e * 65536 + port_be e.
Proof.
  intros [Ha Hp]. unfold ekey. unfold fits in *.
  assert (Hs : Z.shiftl (addr_be e) 16 = addr_be e * 65536)
    by (by rewrite Z.shiftl_mul_pow2 by lia).
  rewrite wrap_id by (unfold fits; rewrite Hs; lia).
  rewrite Z.lor_comm, lor_shiftl_add by (unfold fits; lia). lia.
Qed.

Definition endpoint_of_ekey (k : Z) : Endpoint :=
  mkEndpoint (u32 (Z.shiftr k 16)) (u16 k).

Lemma endpoint_of_ekey_ekey e : endpoint_wf e -> endpoint_of_ekey (ekey e) = e.
Proof.
  intros He. pose proof He as [Ha Hp]. unfold endpoint_of_ekey. rewrite ekey_arith by done.
  unfold fits in *. rewrite Z.shiftr_div_pow2 by lia.
  change (2 ^ 16) with 65536 in *. unfold wrap. change (2 ^ 16) with 65536.
  rewrite Z.div_add_l, Z.div_small, Z.add_0_r, (Z.mod_small (addr_be e)) by lia.
  rewrite Z.add_comm, Z_mod_plus_full, Z.mod_small by lia. by destruct e.
Qed.

Lemma ekey_inj e1 e2 : endpoint_wf e1 -> endpoint_wf e2 -> ekey e1 = ekey e2 -> e1 = e2.
Proof.
  intros H1 H2 H. rewrite <- (endpoint_of_ekey_ekey e1), <- (endpoint_of_ekey_ekey e2) by done.
  by rewrite H.
Qed.

(** ** HELLO lemmas *)

Definition hello_wf (h : Hello) : Prop :=
  fits 64 (sender_boot h) /\ fits 64 (echo_boot h) /\ (is_ack h = false -> echo_boot h = 0).

Lemma encode_hello_app h :
  encode_hello h =
  [byte_of_Z 84; byte_of_Z 81; byte_of_Z 72; byte_of_Z (if is_ack h then 2 else 1)] ++
  le_bytes 8 (sender_boot h) ++ (if is_ack h then le_bytes 8 (echo_boot h) else []).
Proof.
  unfold encode_hello. by destruct (is_ack h); autorewrite with tautq_put.
Qed.

Lemma is_hello_safe b : is_hello b <> Oob.
Proof.
  unfold is_hello. case_decide; [done|].
  repeat first [apply res_bind_safe; [apply get_u8_safe; lia|intros ? _] | case_match]; done.
Qed.

(** Only the first four bytes matter. *)
Lemma is_hello_magic k s :
  is_hello ([byte_of_Z 84; byte_of_Z 81; byte_of_Z 72; k] ++ s) = Val true.
Proof. unfold is_hello. rewrite decide_False by (simpl; lia). done. Qed.

Lemma decode_hello_safe b : decode_hello b <> Oob.
Proof.
  unfold decode_hello. apply res_bind_safe; [apply is_hello_safe|].
  intros ok Hok. destruct ok; simpl; [|done].
  assert (4 <= length b)%nat by (unfold is_hello in Hok; case_decide; [done|lia]).
  apply res_bind_safe; [apply get_u8_safe; lia|]. intros kind _.
  destruct (kind =? 1), (kind =? 2); simpl; repeat case_bool_decide; try done;
    repeat (apply res_bind_safe; [apply get_u64_safe; lia|intros ? _]); done.
Qed.

(** A decoded HELLO re-encodes to the bytes it was read from; what follows them
    is ignored. *)
Lemma decode_encode_hello h s :
  hello_wf h -> decode_hello (encode_hello h ++ s) = Val h.
Proof.
  intros (Hs & He & Hz). rewrite encode_hello_app, <- app_assoc. unfold decode_hello.
  rewrite is_hello_magic. cbn [res_bind negb].
  set (b := _ ++ _).
  assert (H4 : holds_at b 4 (le_bytes 8 (sender_boot h))
                 ((if is_ack h then le_bytes 8 (echo_boot h) else []) ++ s)).
  { unfold holds_at, b. by destruct (is_ack h). }
  assert (Hk : get_u8 b 3 = Val (if is_ack h then 2 else 1)) by (by destruct (is_ack h)).
  pose proof (holds_at_length _ _ _ _ H4 ltac:(rewrite length_le_bytes; lia)) as Hl.
  rewrite length_le_bytes, length_app in Hl. rewrite Hk. clearbody b. clear Hk.
  destruct (get_u64_step _ _ _ _ H4 Hs) as [Hg H12].
  destruct h as [[] sb eb]; cbn [is_ack sender_boot echo_boot] in *; simpl.
  - change (length (le_bytes 8 eb)) with 8%nat in Hl. rewrite (bool_decide_eq_true_2 (20 <= length b)%nat) by lia.
    destruct (get_u64_step b 12 _ _ H12 He) as [-> _]. by rewrite Hg.
  - rewrite bool_decide_eq_true_2 by lia. rewrite Hg. simpl. by rewrite Hz.
Qed.

(** taut packets start with the two bytes of its magic number 0x7A75; in either
    byte order the demultiplexer never takes one for a HELLO. *)
Lemma taut_packet_not_hello b0 b1 s :
  (Z_of_byte b0 = 122 /\ Z_of_byte b1 = 117) \/ (Z_of_byte b0 = 117 /\ Z_of_byte b1 = 122) ->
  is_hello (b0 :: b1 :: s) = Val false.
Proof.
  intros H. unfold is_hello. case_decide; [done|]. unfold get_u8, at_byte. simpl.
  destruct H as [[-> _]|[-> _]]; done.
Qed.

(** ** RPC envelope lemmas *)

Lemma u8_method_of_u8 z : u8_of_method (method_of_u8 z) = z.
Proof.
  unfold method_of_u8.
  repeat (match goal with |- context [?a =? ?b] => destruct (Z.eqb_spec a b) as [->|] end;
          [done|]). done.
Qed.

Lemma method_of_u8_of_method m : method_wf m -> method_of_u8 (u8_of_method m) = m.
Proof.
  destruct m as [| | | | | | | | |raw]; try done. simpl. intros Hw. unfold method_of_u8.
  repeat (match goal with |- context [?a =? ?b] => destruct (Z.eqb_spec a b); [lia|] end). done.
Qed.

Lemma u8_of_method_fits m : method_wf m -> fits 8 (u8_of_method m).
Proof. unfold fits. destruct m; simpl; lia. Qed.

Lemma u8_of_kind_fits k : fits 8 (u8_of_kind k).
Proof. unfold fits. destruct k; simpl; lia. Qed.

Lemma encode_rpc_app k m rid st body :
  encode_rpc k m rid st body =
  le_bytes 1 (u8_of_kind k) ++ le_bytes 1 (u8_of_method m) ++ le_bytes 8 rid ++
  le_bytes 4 st ++ body.
Proof. unfold encode_rpc, put_bytes. by autorewrite with tautq_put. Qed.

Lemma decode_rpc_safe b : decode_rpc b <> Oob.
Proof.
  unfold decode_rpc, kRpcHeader. case_bool_decide; [done|].
  apply res_bind_safe; [apply get_u8_safe; lia|]. intros kind _. case_match; [done|].
  apply res_bind_safe; [apply get_u8_safe; lia|]. intros ? _.
  apply res_bind_safe; [apply get_u64_safe; lia|]. intros ? _.
  apply res_bind_safe; [apply get_u32_safe; lia|]. intros ? _.
  apply res_bind_safe; [apply slice_safe; lia|]. done.
Qed.

Lemma decode_encode_rpc k m rid st body :
  method_wf m -> fits 64 rid -> fits 32 st ->
  decode_rpc (encode_rpc k m rid st body) = Val (mkRpcMsg k m rid st body).
Proof.
  intros Hm Hr Hs. set (b := encode_rpc _ _ _ _ _).
  assert (H0 : holds_at b 0 (le_bytes 1 (u8_of_kind k))
    (le_bytes 1 (u8_of_method m) ++ le_bytes 8 rid ++ le_bytes 4 st ++ body))
    by (unfold holds_at, b; by rewrite encode_rpc_app).
  assert (Hl : length b = (14 + length body)%nat)
    by (unfold b; by rewrite encode_rpc_app, !length_app, !length_le_bytes).
  clearbody b. unfold decode_rpc, kRpcHeader. rewrite bool_decide_eq_false_2 by lia.
  destruct (get_u8_step _ _ _ _ H0 (u8_of_kind_fits k)) as [-> H1].
  destruct (get_u8_step _ _ _ _ H1 (u8_of_method_fits m Hm)) as [E1 H2].
  destruct (get_u64_step _ _ _ _ H2 Hr) as [E2 H3].
  destruct (get_u32_step _ _ _ _ H3 Hs) as [E3 H4]. simpl in *.
  destruct (slice_step b 14 body []) as [E4 _];
    [unfold holds_at; by rewrite app_nil_r|lia|].
  replace (length b - 14)%nat with (length body) by lia.
  rewrite E1, E2, E3. simpl. rewrite E4, method_of_u8_of_method by done. by destruct k.
Qed.

(** ** Properties *)

(** A HELLO survives encoding and decoding, whatever bytes follow it in the
    datagram, and the demultiplexer recognises it. *)
Theorem hello_roundtrip h s :
  hello_wf h ->
  is_hello (encode_hello h ++ s) = Val true /\ decode_hello (encode_hello h ++ s) = Val h.
Proof.
  intros H. split; [|by apply decode_encode_hello].
  rewrite encode_hello_app, <- app_assoc. apply is_hello_magic.
Qed.

Lemma hello_roundtrip_witness :
  decode_hello (encode_hello (mkHello true 7 9) ++ []) = Val (mkHello true 7 9).
Proof.
  apply (hello_roundtrip (mkHello true 7 9) []). vm_compute. intuition congruence.
Defined.

(** An RPC frame decodes to the very message that was encoded, empty and full
    bodies alike. *)
Theorem rpc_roundtrip k m rid st body :
  method_wf m -> fits 64 rid -> fits 32 st ->
  decode_rpc (encode_rpc k m rid st body) = Val (mkRpcMsg k m rid st body).
Proof. apply decode_encode_rpc. Qed.

Lemma rpc_roundtrip_witness :
  decode_rpc (encode_rpc Response Claim 5 2 [Byte.x01]) = Val (mkRpcMsg Response Claim 5 2 [Byte.x01]).
Proof. apply rpc_roundtrip; vm_compute; intuition congruence. Defined.
