(* ===== verification/Records.v ===== *)
(** * Records: jobs, job ids and log records (src/src/job.h, records.h, records.cc)

    The job description and its replicated dynamic state, the identifier and its
    hexadecimal form, the merge order [job_advances], and the codec of the log
    records that the write-ahead log stores and the RPCs carry. *)

From Stdlib Require Import ZArith Lia.
From stdpp Require Import base tactics list numbers gmap countable.
From S2P Require Import Prelude Bytes Wire.

(** ** Job states

    [JobState] has the fixed underlying type [uint8_t] and [get_job] casts a raw
    byte to it without a check, so a byte that names no enumerator is a state as
    well: [OtherState] holds it. *)

Inductive JobState := Ready | Leased | Done | DeadLetter | OtherState (raw : Z).

#[global] Instance JobState_eq_dec : EqDecision JobState.
Proof. solve_decision. Defined.

Definition u8_of_state (s : JobState) : Z :=
  match s with Ready => 1 | Leased => 2 | Done => 3 | DeadLetter => 4 | OtherState raw => raw end.

Definition state_of_u8 (z : Z) : JobState :=
  if z =? 1 then Ready else if z =? 2 then Leased else if z =? 3 then Done
  else if z =? 4 then DeadLetter else OtherState z.

Definition state_wf (s : JobState) : Prop :=
  match s with OtherState raw => raw = 0 \/ 5 <= raw < 256 | _ => True end.

#[global] Instance state_wf_dec s : Decision (state_wf s).
Proof. destruct s; simpl; apply _. Defined.

(** ** Job identifiers *)

Record JobId := mkJobId { origin : Z; nonce : Z }.

#[global] Instance JobId_eq_dec : EqDecision JobId.
Proof. solve_decision. Defined.

#[global] Program Instance JobId_countable : Countable JobId :=
  inj_countable' (fun i => (origin i, nonce i)) (fun '(o, n) => mkJobId o n) _.
Next Obligation. by intros []. Qed.

Definition no_job_id : JobId := mkJobId 0 0.

Definition job_id_wf (i : JobId) : Prop := fits 64 (origin i) /\ fits 64 (nonce i).

#[global] Instance job_id_wf_dec i : Decision (job_id_wf i).
Proof. unfold job_id_wf. apply _. Defined.

(** ** Jobs *)

(** [std::array<taut::Endpoint, 3>] *)
Record Replicas := mkReplicas { rep0 : Endpoint; rep1 : Endpoint; rep2 : Endpoint }.

#[global] Instance Replicas_eq_dec : EqDecision Replicas.
Proof. solve_decision. Defined.

Definition replica_list (r : Replicas) : list Endpoint := [rep0 r; rep1 r; rep2 r].

Record Job := mkJob {
  j_id : JobId;
  j_idem_key : bytes;
  j_url : bytes;
  j_body : bytes;
  j_visibility_ms : Z;
  j_max_attempts : Z;
  j_replicas : Replicas;
  j_state : JobState;
  j_owner : Endpoint;
  j_epoch : Z;
  j_lease_seq : Z;
  j_attempts : Z
}.

#[global] Instance Job_eq_dec : EqDecision Job.
Proof. solve_decision. Defined.

(** [Job j;]: the default member initialisers. *)
Definition default_job : Job :=
  mkJob no_job_id [] [] [] 30000 5 (mkReplicas no_endpoint no_endpoint no_endpoint)
        Ready no_endpoint 1 0 0.

Definition set_state (s : JobState) (j : Job) : Job :=
  mkJob (j_id j) (j_idem_key j) (j_url j) (j_body j) (j_visibility_ms j) (j_max_attempts j)
        (j_replicas j) s (j_owner j) (j_epoch j) (j_lease_seq j) (j_attempts j).
Definition set_epoch (e : Z) (j : Job) : Job :=
  mkJob (j_id j) (j_idem_key j) (j_url j) (j_body j) (j_visibility_ms j) (j_max_attempts j)
        (j_replicas j) (j_state j) (j_owner j) e (j_lease_seq j) (j_attempts j).
Definition set_owner (o : Endpoint) (j : Job) : Job :=
  mkJob (j_id j) (j_idem_key j) (j_url j) (j_body j) (j_visibility_ms j) (j_max_attempts j)
        (j_replicas j) (j_state j) o (j_epoch j) (j_lease_seq j) (j_attempts j).
Definition set_lease_seq (q : Z) (j : Job) : Job :=
  mkJob (j_id j) (j_idem_key j) (j_url j) (j_body j) (j_visibility_ms j) (j_max_attempts j)
        (j_replicas j) (j_state j) (j_owner j) (j_epoch j) q (j_attempts j).
Definition set_attempts (a : Z) (j : Job) : Job :=
  mkJob (j_id j) (j_idem_key j) (j_url j) (j_body j) (j_visibility_ms j) (j_max_attempts j)
        (j_replicas j) (j_state j) (j_owner j) (j_epoch j) (j_lease_seq j) a.
Definition set_body (b : bytes) (j : Job) : Job :=
  mkJob (j_id j) (j_idem_key j) (j_url j) b (j_visibility_ms j) (j_max_attempts j)
        (j_replicas j) (j_state j) (j_owner j) (j_epoch j) (j_lease_seq j) (j_attempts j).

Definition kMaxIdemKey : nat := 64.
Definition kMaxUrl : nat := 256.
Definition kMaxJobBody : nat := 640.
Definition kJobIdSize : nat := 16.

(** What a job that travels must satisfy: every field in its C++ width, the three
    strings within the budgets [get_job] enforces. *)
Record job_wf (j : Job) : Prop := {
  wf_id : job_id_wf (j_id j);
  wf_key : (length (j_idem_key j) <= kMaxIdemKey)%nat;
  wf_url : (length (j_url j) <= kMaxUrl)%nat;
  wf_body : (length (j_body j) <= kMaxJobBody)%nat;
  wf_vis : fits 32 (j_visibility_ms j);
  wf_max : fits 32 (j_max_attempts j);
  wf_rep0 : endpoint_wf (rep0 (j_replicas j));
  wf_rep1 : endpoint_wf (rep1 (j_replicas j));
  wf_rep2 : endpoint_wf (rep2 (j_replicas j));
  wf_state : state_wf (j_state j);
  wf_owner : endpoint_wf (j_owner j);
  wf_epoch : fits 32 (j_epoch j);
  wf_seq : fits 32 (j_lease_seq j);
  wf_att : fits 32 (j_attempts j)
}.

(** ** Hexadecimal job ids *)

(** One digit of [%016llx]. *)
Definition hex_char (d : Z) : byte := byte_of_Z (if d <? 10 then 48 + d else 87 + d).

(** [n] digits of [v], most significant first. *)
Fixpoint hex_digits (n : nat) (v : Z) : bytes :=
  match n with
  | O => []
  | S n' => hex_digits n' (Z.shiftr v 4) ++ [hex_char (Z.land v 15)]
  end.

Definition to_hex (i : JobId) : bytes := hex_digits 16 (origin i) ++ hex_digits 16 (nonce i).

(** The digit value of a character; upper case is refused. *)
Definition hex_value (c : byte) : option Z :=
  let c := Z_of_byte c in
  if (48 <=? c) && (c <=? 57) then Some (c - 48)
  else if (97 <=? c) && (c <=? 102) then Some (c - 97 + 10)
  else None.

(** The inner loop of [from_hex] over the characters of one half. *)
Fixpoint hex_half (s : bytes) (v : Z) : option Z :=
  match s with
  | [] => Some v
  | c :: s' =>
      match hex_value c with
      | Some d => hex_half s' (Z.lor (u64 (Z.shiftl v 4)) d)
      | None => None
      end
  end.

Definition from_hex (s : bytes) : option JobId :=
  if negb (length s =? 32)%nat then None else
  match hex_half (take 16 s) 0 with
  | None => None
  | Some o =>
      match hex_half (drop 16 s) 0 with
      | None => None
      | Some n => Some (mkJobId o n)
      end
  end.

(** ** The merge order *)

Definition is_done (s : JobState) : bool := bool_decide (s = Done).
Definition is_dead (s : JobState) : bool := bool_decide (s = DeadLetter).

Definition job_advances (local remote : Job) : bool :=
  if negb (j_epoch remote =? j_epoch local) then j_epoch local <? j_epoch remote
  else if negb (Bool.eqb (is_done (j_state remote)) (is_done (j_state local)))
  then is_done (j_state remote)
  else if negb (Bool.eqb (is_dead (j_state remote)) (is_dead (j_state local)))
  then is_dead (j_state remote)
  else if negb (j_lease_seq remote =? j_lease_seq local)
  then j_lease_seq local <? j_lease_seq remote
  else bool_decide (j_state remote = Leased) && bool_decide (j_state local = Ready).

(** ** Job codec *)

Definition put_job_id (b : bytes) (i : JobId) : bytes :=
  let b := put_u64 b (origin i) in
  put_u64 b (nonce i).

Definition get_job_id (b : bytes) (off : nat) : res JobId :=
  let! o := get_u64 b off in
  let! n := get_u64 b (off + 8) in
  Val (mkJobId o n).

Definition put_str (b : bytes) (s : bytes) : bytes :=
  let b := put_u16 b (u16 (Z.of_nat (length s))) in
  b ++ s.

(** Returns the string and the advanced offset. *)
Definition get_str (b : bytes) (off max : nat) : res (bytes * nat) :=
  reject_if bool_decide (length b < off + 2)%nat;
  let! n := get_u16 b off in
  let n := Z.to_nat n in
  let off := (off + 2)%nat in
  reject_if bool_decide (max < n)%nat || bool_decide (length b < off + n)%nat;
  let! s := slice b off n in
  Val (s, (off + n)%nat).

Definition put_job (b : bytes) (j : Job) : bytes :=
  let b := put_job_id b (j_id j) in
  let b := put_str b (j_idem_key j) in
  let b := put_str b (j_url j) in
  let b := put_u16 b (u16 (Z.of_nat (length (j_body j)))) in
  let b := put_bytes b (j_body j) in
  let b := put_u32 b (j_visibility_ms j) in
  let b := put_u32 b (j_max_attempts j) in
  let b := foldl put_endpoint b (replica_list (j_replicas j)) in
  let b := put_u8 b (u8_of_state (j_state j)) in
  let b := put_endpoint b (j_owner j) in
  let b := put_u32 b (j_epoch j) in
  let b := put_u32 b (j_lease_seq j) in
  put_u32 b (j_attempts j).

(** The fixed-size fields that end a serialized job: what [get_job] reads behind
    its last guard. *)
Record JobFixed := mkJobFixed {
  f_visibility_ms : Z; f_max_attempts : Z; f_replicas : Replicas; f_state : JobState;
  f_owner : Endpoint; f_epoch : Z; f_lease_seq : Z; f_attempts : Z
}.

Definition get_job_fixed (b : bytes) (off : nat) : res JobFixed :=
  let! vis := get_u32 b off in
  let! maxa := get_u32 b (off + 4) in
  let! r0 := get_endpoint b (off + 8) in
  let! r1 := get_endpoint b (off + 14) in
  let! r2 := get_endpoint b (off + 20) in
  let! st := get_u8 b (off + 26) in
  let! own := get_endpoint b (off + 27) in
  let! ep := get_u32 b (off + 33) in
  let! seq := get_u32 b (off + 37) in
  let! att := get_u32 b (off + 41) in
  Val (mkJobFixed vis maxa (mkReplicas r0 r1 r2) (state_of_u8 st) own ep seq att).

(** Returns the job and the number of bytes consumed ([off - start]). *)
Definition get_job (b : bytes) (start : nat) : res (Job * nat) :=
  let off := start in
  reject_if bool_decide (length b < off + kJobIdSize)%nat;
  let! id := get_job_id b off in
  let off := (off + kJobIdSize)%nat in
  let! (key, off) := get_str b off kMaxIdemKey in
  let! (url, off) := get_str b off kMaxUrl in
  reject_if bool_decide (length b < off + 2)%nat;
  let! blen := get_u16 b off in
  let blen := Z.to_nat blen in
  let off := (off + 2)%nat in
  reject_if bool_decide (kMaxJobBody < blen)%nat || bool_decide (length b < off + blen)%nat;
  let! body := slice b off blen in
  let off := (off + blen)%nat in
  reject_if bool_decide (length b < off + 4 + 4 + 4 * kEndpointSize + 1 + 4 + 4 + 4)%nat;
  let! f := get_job_fixed b off in
  let off := (off + 45)%nat in
  Val (mkJob id key url body (f_visibility_ms f) (f_max_attempts f) (f_replicas f) (f_state f)
             (f_owner f) (f_epoch f) (f_lease_seq f) (f_attempts f),
       (off - start)%nat).

(** ** Log records *)

Module RecType.
Inductive t := Submit | Replicate | Lease | Done | Expire | DeadLetter | Takeover.

Definition to_u8 (t : t) : Z :=
  match t with
  | Submit => 1 | Replicate => 2 | Lease => 3 | Done => 4 | Expire => 5
  | DeadLetter => 6 | Takeover => 7
  end.

(** The cases of [decode_record]'s switch; any other byte falls through it. *)
Definition of_u8 (z : Z) : option t :=
  if z =? 1 then Some Submit else if z =? 2 then Some Replicate else if z =? 3 then Some Lease
  else if z =? 4 then Some Done else if z =? 5 then Some Expire
  else if z =? 6 then Some DeadLetter else if z =? 7 then Some Takeover else None.

Lemma of_to t : of_u8 (to_u8 t) = Some t.
Proof. by destruct t. Qed.

Lemma to_of z t : of_u8 z = Some t -> to_u8 t = z.
Proof.
  unfold of_u8. intros H.
  repeat (match type of H with context [?a =? ?b] => destruct (Z.eqb_spec a b) end;
          [by injection H as <-|]). done.
Qed.

Lemma to_u8_fits t : fits 8 (to_u8 t).
Proof. unfold fits. destruct t; simpl; lia. Qed.
End RecType.

Inductive Rec :=
  | SubmitRec (job : Job)
  | ReplicateRec (job : Job)
  | LeaseRec (id : JobId) (epoch lease_seq worker : Z)
  | DoneRec (id : JobId) (epoch lease_seq : Z)
  | ExpireRec (id : JobId) (epoch lease_seq : Z)
  | DeadLetterRec (id : JobId) (epoch : Z)
  | TakeoverRec (id : JobId) (new_epoch : Z) (new_owner : Endpoint).

#[global] Instance Rec_eq_dec : EqDecision Rec.
Proof. solve_decision. Defined.

Definition rec_type (r : Rec) : RecType.t :=
  match r with
  | SubmitRec _ => RecType.Submit
  | ReplicateRec _ => RecType.Replicate
  | LeaseRec _ _ _ _ => RecType.Lease
  | DoneRec _ _ _ => RecType.Done
  | ExpireRec _ _ _ => RecType.Expire
  | DeadLetterRec _ _ => RecType.DeadLetter
  | TakeoverRec _ _ _ => RecType.Takeover
  end.

Definition put_fence (b : bytes) (id : JobId) (epoch lease_seq : Z) : bytes :=
  let b := put_job_id b id in
  let b := put_u32 b epoch in
  put_u32 b lease_seq.

(** The lambda [tag]. *)
Definition put_tag (b : bytes) (t : RecType.t) (lsn : Z) : bytes :=
  let b := put_u8 b (RecType.to_u8 t) in
  put_u64 b lsn.

Definition encode_record (r : Rec) (lsn : Z) : bytes :=
  let out := put_tag [] (rec_type r) lsn in
  match r with
  | SubmitRec job => put_job out job
  | ReplicateRec job => put_job out job
  | LeaseRec id epoch seq worker => put_u64 (put_fence out id epoch seq) worker
  | DoneRec id epoch seq => put_fence out id epoch seq
  | ExpireRec id epoch seq => put_fence out id epoch seq
  | DeadLetterRec id epoch => put_u32 (put_job_id out id) epoch
  | TakeoverRec id e o => put_endpoint (put_u32 (put_job_id out id) e) o
  end.

(** Returns the record and the lsn ([*lsn_out]). *)
Definition decode_record (b : bytes) : res (Rec * Z) :=
  reject_if bool_decide (length b < 9)%nat;
  let! ty := get_u8 b 0 in
  let! lsn := get_u64 b 1 in
  let off := 9%nat in
  match RecType.of_u8 ty with
  | Some RecType.Submit =>
      let! (j, _) := get_job b off in Val (SubmitRec j, lsn)
  | Some RecType.Replicate =>
      let! (j, _) := get_job b off in Val (ReplicateRec j, lsn)
  | Some RecType.Lease =>
      reject_if bool_decide (length b < off + kJobIdSize + 4 + 4 + 8)%nat;
      let! id := get_job_id b off in
      let! e := get_u32 b (off + kJobIdSize) in
      let! q := get_u32 b (off + kJobIdSize + 4) in
      let! w := get_u64 b (off + kJobIdSize + 8) in
      Val (LeaseRec id e q w, lsn)
  | Some RecType.Done =>
      reject_if bool_decide (length b < off + kJobIdSize + 8)%nat;
      let! id := get_job_id b off in
      let! e := get_u32 b (off + kJobIdSize) in
      let! q := get_u32 b (off + kJobIdSize + 4) in
      Val (DoneRec id e q, lsn)
  | Some RecType.Expire =>
      reject_if bool_decide (length b < off + kJobIdSize + 8)%nat;
      let! id := get_job_id b off in
      let! e := get_u32 b (off + kJobIdSize) in
      let! q := get_u32 b (off + kJobIdSize + 4) in
      Val (ExpireRec id e q, lsn)
  | Some RecType.DeadLetter =>
      reject_if bool_decide (length b < off + kJobIdSize + 4)%nat;
      let! id := get_job_id b off in
      let! e := get_u32 b (off + kJobIdSize) in
      Val (DeadLetterRec id e, lsn)
  | Some RecType.Takeover =>
      reject_if bool_decide (length b < off + kJobIdSize + 4 + kEndpointSize)%nat;
      let! id := get_job_id b off in
      let! e := get_u32 b (off + kJobIdSize) in
      let! o := get_endpoint b (off + kJobIdSize + 4) in
      Val (TakeoverRec id e o, lsn)
  | None => Bad
  end.

Definition rec_wf (r : Rec) : Prop :=
  match r with
  | SubmitRec j | ReplicateRec j => job_wf j
  | LeaseRec id e q w => job_id_wf id /\ fits 32 e /\ fits 32 q /\ fits 64 w
  | DoneRec id e q | ExpireRec id e q => job_id_wf id /\ fits 32 e /\ fits 32 q
  | DeadLetterRec id e => job_id_wf id /\ fits 32 e
  | TakeoverRec id e o => job_id_wf id /\ fits 32 e /\ endpoint_wf o
  end.

(** ** State bytes *)

Lemma u8_state_of_u8 z : u8_of_state (state_of_u8 z) = z.
Proof.
  unfold state_of_u8.
  repeat (match goal with |- context [?a =? ?b] => destruct (Z.eqb_spec a b) as [->|] end;
          [done|]). done.
Qed.

Lemma state_of_u8_of_state s : state_wf s -> state_of_u8 (u8_of_state s) = s.
Proof.
  destruct s as [| | | |raw]; try done. simpl. intros Hw. unfold state_of_u8.
  repeat (match goal with |- context [?a =? ?b] => destruct (Z.eqb_spec a b); [lia|] end). done.
Qed.

Lemma u8_of_state_fits s : state_wf s -> fits 8 (u8_of_state s).
Proof. unfold fits. destruct s; simpl; lia. Qed.

Lemma state_of_u8_wf z : fits 8 z -> state_wf (state_of_u8 z).
Proof.
  unfold fits, state_of_u8. intros H.
  repeat (match goal with |- context [?a =? ?b] => destruct (Z.eqb_spec a b) end; [done|]).
  simpl. lia.
Qed.

(** ** The byte layout of the codecs *)

Definition job_id_bytes (i : JobId) : bytes := le_bytes 8 (origin i) ++ le_bytes 8 (nonce i).

Definition str_bytes (s : bytes) : bytes := le_bytes 2 (u16 (Z.of_nat (length s))) ++ s.

Definition job_fixed (j : Job) : JobFixed :=
  mkJobFixed (j_visibility_ms j) (j_max_attempts j) (j_replicas j) (j_state j) (j_owner j)
    (j_epoch j) (j_lease_seq j) (j_attempts j).

Definition fixed_bytes (f : JobFixed) : bytes :=
  le_bytes 4 (f_visibility_ms f) ++ le_bytes 4 (f_max_attempts f) ++
  endpoint_bytes (rep0 (f_replicas f)) ++ endpoint_bytes (rep1 (f_replicas f)) ++
  endpoint_bytes (rep2 (f_replicas f)) ++ le_bytes 1 (u8_of_state (f_state f)) ++
  endpoint_bytes (f_owner f) ++ le_bytes 4 (f_epoch f) ++ le_bytes 4 (f_lease_seq f) ++
  le_bytes 4 (f_attempts f).

Definition job_bytes (j : Job) : bytes :=
  job_id_bytes (j_id j) ++ str_bytes (j_idem_key j) ++ str_bytes (j_url j) ++
  str_bytes (j_body j) ++ fixed_bytes (job_fixed j).

Definition rec_body_bytes (r : Rec) : bytes :=
  match r with
  | SubmitRec j | ReplicateRec j => job_bytes j
  | LeaseRec id e q w => job_id_bytes id ++ le_bytes 4 e ++ le_bytes 4 q ++ le_bytes 8 w
  | DoneRec id e q | ExpireRec id e q => job_id_bytes id ++ le_bytes 4 e ++ le_bytes 4 q
  | DeadLetterRec id e => job_id_bytes id ++ le_bytes 4 e
  | TakeoverRec id e o => job_id_bytes id ++ le_bytes 4 e ++ endpoint_bytes o
  end.

Lemma put_job_id_app b i : put_job_id b i = b ++ job_id_bytes i.
Proof. unfold put_job_id. autorewrite with tautq_put. by rewrite <- app_assoc. Qed.

Lemma put_str_app b s : put_str b s = b ++ str_bytes s.
Proof. unfold put_str. autorewrite with tautq_put. by rewrite <- app_assoc. Qed.

#[export] Hint Rewrite put_job_id_app put_str_app : tautq_put.

Lemma put_job_app b j : put_job b j = b ++ job_bytes j.
Proof.
  unfold put_job, put_bytes, replica_list, foldl. autorewrite with tautq_put.
  unfold job_bytes, str_bytes, fixed_bytes. by rewrite <- !app_assoc.
Qed.

#[export] Hint Rewrite put_job_app : tautq_put.

Lemma encode_record_app r lsn :
  encode_record r lsn =
  le_bytes 1 (RecType.to_u8 (rec_type r)) ++ le_bytes 8 lsn ++ rec_body_bytes r.
Proof.
  unfold encode_record, put_tag, put_fence.
  destruct r; autorewrite with tautq_put; cbn [rec_body_bytes];
    by rewrite <- ?app_assoc.
Qed.

Lemma length_job_id_bytes i : length (job_id_bytes i) = 16%nat.
Proof. done. Qed.

Lemma length_str_bytes s : length (str_bytes s) = (2 + length s)%nat.
Proof. done. Qed.

Lemma length_job_bytes j :
  length (job_bytes j) =
  (67 + length (j_idem_key j) + length (j_url j) + length (j_body j))%nat.
Proof.
  unfold job_bytes, fixed_bytes.
  rewrite !length_app, !length_str_bytes, !length_le_bytes, !length_endpoint_bytes,
    length_job_id_bytes. lia.
Qed.

(** ** Identifiers and strings: reading what was written, and back *)

Lemma get_job_id_step b off i s :
  holds_at b off (job_id_bytes i) s -> job_id_wf i ->
  get_job_id b off = Val i /\ drop (off + 16) b = s.
Proof.
  intros H [Ho Hn]. pose proof (holds_at_next _ _ _ _ H) as Hx. split; [|exact Hx].
  apply holds_at_app in H. unfold get_job_id.
  destruct (get_u64_step _ _ _ _ H Ho) as [-> H8].
  destruct (get_u64_step _ _ _ _ H8 Hn) as [Hr _]. simpl. rewrite Hr. by destruct i.
Qed.

Lemma get_job_id_inv b off i :
  get_job_id b off = Val i ->
  holds_at b off (job_id_bytes i) (drop (off + 16) b) /\ job_id_wf i /\
  (off + 16 <= length b)%nat.
Proof.
  unfold get_job_id. intros H. inv_val H. injection H as <-.
  apply get_u64_inv in E as (H1 & ? & ?). apply get_u64_inv in E0 as (H2 & ? & ?).
  replace (off + 8 + 8)%nat with (off + 16)%nat in * by lia.
  split; [|done]. apply holds_at_app. simpl. unfold holds_at in *. by rewrite H1, H2.
Qed.

Lemma get_job_id_safe b off : (off + 16 <= length b)%nat -> get_job_id b off <> Oob.
Proof.
  intros H. unfold get_job_id.
  apply res_bind_safe; [apply get_u64_safe; lia|]. intros ? _.
  apply res_bind_safe; [apply get_u64_safe; lia|]. done.
Qed.

Lemma fits_16_length (s : bytes) m :
  (length s <= m)%nat -> (m <= 640)%nat -> fits 16 (Z.of_nat (length s)).
Proof. unfold fits. lia. Qed.

Lemma get_str_step b off max x s :
  holds_at b off (str_bytes x) s -> (length x <= max)%nat -> (max <= 640)%nat ->
  get_str b off max = Val (x, (off + 2 + length x)%nat) /\ drop (off + 2 + length x) b = s.
Proof.
  intros H Hx Hm.
  pose proof (holds_at_length _ _ _ _ H ltac:(rewrite length_str_bytes; lia)) as Hl.
  rewrite length_str_bytes in Hl. unfold str_bytes in H. apply holds_at_app in H.
  pose proof (fits_16_length _ _ Hx Hm) as Hf. rewrite wrap_id in H by done.
  destruct (get_u16_step _ _ _ _ H Hf) as [Hg H2].
  destruct (slice_step b (off + 2) x s H2) as [Hs H3]; [lia|].
  unfold get_str. rewrite bool_decide_eq_false_2 by lia. rewrite Hg. cbn [res_bind].
  rewrite Nat2Z.id, !bool_decide_eq_false_2 by lia. cbn [orb]. rewrite Hs.
  split; [done|exact H3].
Qed.

Lemma get_str_inv b off max x off' :
  get_str b off max = Val (x, off') ->
  holds_at b off (str_bytes x) (drop off' b) /\ (length x <= max)%nat /\
  off' = (off + 2 + length x)%nat /\ (off' <= length b)%nat.
Proof.
  unfold get_str. intros H. inv_val H. injection H as <- <-.
  apply get_u16_inv in E as (H1 & Hf & ?). apply slice_inv in E0 as (H2 & Hn & ?).
  apply orb_false_iff in G0 as [Gm%bool_decide_eq_false Gl%bool_decide_eq_false].
  unfold fits in Hf. rewrite Hn in *. repeat split; try lia.
  unfold str_bytes. apply holds_at_app. rewrite Hn, Z2Nat.id, wrap_id by (unfold fits; lia).
  unfold holds_at in *. by rewrite H1, H2.
Qed.

Lemma get_str_safe b off max : get_str b off max <> Oob.
Proof.
  unfold get_str. case_bool_decide; [done|].
  apply res_bind_safe; [apply get_u16_safe; lia|]. intros n _.
  destruct (bool_decide _ || _) eqn:G; [done|].
  apply orb_false_iff in G as [_ G%bool_decide_eq_false].
  apply res_bind_safe; [apply slice_safe; lia|]. done.
Qed.

#[export] Hint Resolve get_job_id_safe get_str_safe : tautq.

(** ** The fixed part *)

Record fixed_wf (f : JobFixed) : Prop := {
  fwf_vis : fits 32 (f_visibility_ms f);
  fwf_max : fits 32 (f_max_attempts f);
  fwf_rep0 : endpoint_wf (rep0 (f_replicas f));
  fwf_rep1 : endpoint_wf (rep1 (f_replicas f));
  fwf_rep2 : endpoint_wf (rep2 (f_replicas f));
  fwf_state : state_wf (f_state f);
  fwf_owner : endpoint_wf (f_owner f);
  fwf_epoch : fits 32 (f_epoch f);
  fwf_seq : fits 32 (f_lease_seq f);
  fwf_att : fits 32 (f_attempts f)
}.

Lemma job_fixed_wf j : job_wf j -> fixed_wf (job_fixed j).
Proof. intros []. by constructor. Qed.

Lemma length_fixed_bytes f : length (fixed_bytes f) = 45%nat.
Proof. done. Qed.

Lemma get_job_fixed_safe b off : (off + 45 <= length b)%nat -> get_job_fixed b off <> Oob.
Proof.
  intros H. unfold get_job_fixed.
  repeat (apply res_bind_safe;
    [first [apply get_u32_safe|apply get_endpoint_safe|apply get_u8_safe]; lia|intros ? _]).
  done.
Qed.

(** One read of a decoder: [H] says what the span holds at the offset of the next
    read; afterwards it says so for the offset behind it. *)
Ltac next_read H lem wf :=
  let E := fresh "E" in
  destruct (lem _ _ _ _ H wf) as [E H']; clear H; rename H' into H;
  rewrite <- ?Nat.add_assoc in H; cbn [Nat.add] in H;
  rewrite E; cbn [res_bind]; clear E.

Lemma get_job_fixed_step b off f s :
  holds_at b off (fixed_bytes f) s -> fixed_wf f -> get_job_fixed b off = Val f.
Proof.
  intros H []. unfold fixed_bytes, holds_at in H. rewrite <- !app_assoc in H.
  pose proof (u8_of_state_fits _ fwf_state0) as Hst. unfold get_job_fixed.
  next_read H get_u32_step fwf_vis0. next_read H get_u32_step fwf_max0.
  next_read H get_endpoint_step fwf_rep3. next_read H get_endpoint_step fwf_rep4.
  next_read H get_endpoint_step fwf_rep5. next_read H get_u8_step Hst.
  next_read H get_endpoint_step fwf_owner0. next_read H get_u32_step fwf_epoch0.
  next_read H get_u32_step fwf_seq0. next_read H get_u32_step fwf_att0.
  rewrite state_of_u8_of_state by done. by destruct f as [? ? [] ? ? ? ? ?].
Qed.

(** Follows facts about consecutive offsets of one span. *)
Ltac chain_reads :=
  repeat match goal with
  | H : drop ?o ?b = _ |- drop ?o ?b = _ => rewrite H; clear H; f_equal
  end.

Lemma get_job_fixed_inv b off f :
  get_job_fixed b off = Val f ->
  holds_at b off (fixed_bytes f) (drop (off + 45) b) /\ fixed_wf f /\
  (off + 45 <= length b)%nat.
Proof.
  unfold get_job_fixed. intros H. inv_val H. injection H as <-.
  repeat match goal with
  | E : get_u32 _ _ = Val _ |- _ => apply get_u32_inv in E as (? & ? & ?)
  | E : get_u8 _ _ = Val _ |- _ => apply get_u8_inv in E as (? & ? & ?)
  | E : get_endpoint _ _ = Val _ |- _ => apply get_endpoint_inv in E as (? & ? & ?)
  end.
  rewrite <- ?Nat.add_assoc in *. cbn [Nat.add] in *.
  split; [|split; [constructor; try done; by apply state_of_u8_wf|lia]].
  unfold fixed_bytes, holds_at in *. cbn. rewrite <- ?app_assoc, u8_state_of_u8. chain_reads.
Qed.

(** ** Jobs *)

Lemma get_job_safe b off : get_job b off <> Oob.
Proof.
  unfold get_job, kJobIdSize, kEndpointSize. case_bool_decide; [done|].
  apply res_bind_safe; [apply get_job_id_safe; lia|]. intros ? _.
  apply res_bind_safe; [apply get_str_safe|]. intros [? o1] _.
  apply res_bind_safe; [apply get_str_safe|]. intros [? o2] _.
  case_bool_decide; [done|].
  apply res_bind_safe; [apply get_u16_safe; lia|]. intros n _.
  destruct (bool_decide _ || _) eqn:G; [done|].
  apply orb_false_iff in G as [_ G%bool_decide_eq_false].
  apply res_bind_safe; [apply slice_safe; lia|]. intros ? _.
  case_bool_decide; [done|].
  apply res_bind_safe; [apply get_job_fixed_safe; lia|]. done.
Qed.

Lemma get_job_step b off j s :
  holds_at b off (job_bytes j) s -> job_wf j ->
  get_job b off = Val (j, length (job_bytes j)).
Proof.
  intros H Hw. pose proof (job_fixed_wf j Hw) as Hfw. destruct Hw.
  pose proof (holds_at_length _ _ _ _ H ltac:(rewrite length_job_bytes; lia)) as Hl.
  rewrite length_job_bytes in *. unfold job_bytes, holds_at in H.
  rewrite <- !app_assoc in H. unfold kMaxIdemKey, kMaxUrl, kMaxJobBody in *.
  destruct (get_job_id_step _ _ _ _ H wf_id0) as [E1 H1].
  destruct (get_str_step b _ kMaxIdemKey _ _ H1) as [E2 H2]; [done|unfold kMaxIdemKey; lia|].
  destruct (get_str_step b _ kMaxUrl _ _ H2) as [E3 H3]; [done|unfold kMaxUrl; lia|].
  unfold str_bytes in H3. rewrite <- app_assoc in H3.
  assert (Hf : fits 16 (Z.of_nat (length (j_body j)))) by (eapply fits_16_length; [done|lia]).
  rewrite wrap_id in H3 by done.
  destruct (get_u16_step _ _ _ _ H3 Hf) as [E4 H4].
  destruct (slice_step b _ _ _ H4) as [E5 H5]; [lia|].
  pose proof (get_job_fixed_step b _ _ _ H5 Hfw) as E6.
  unfold get_job, kJobIdSize, kEndpointSize, kMaxJobBody.
  rewrite bool_decide_eq_false_2 by lia. rewrite E1. cbn [res_bind].
  rewrite E2. cbn [res_bind]. rewrite E3. cbn [res_bind].
  rewrite bool_decide_eq_false_2 by lia. rewrite E4. cbn [res_bind].
  rewrite Nat2Z.id, !bool_decide_eq_false_2 by lia. cbn [orb].
  rewrite E5. cbn [res_bind]. rewrite E6. cbn [res_bind]. f_equal. f_equal; [by destruct j|lia].
Qed.

Lemma get_job_inv b off j n :
  get_job b off = Val (j, n) ->
  holds_at b off (job_bytes j) (drop (off + n) b) /\ job_wf j /\
  n = length (job_bytes j) /\ (off + n <= length b)%nat.
Proof.
  unfold get_job, kJobIdSize, kEndpointSize. intros H. inv_val H.
  destruct v0 as [key o1]. inv_val H. destruct v0 as [url o2]. inv_val H.
  injection H as <- <-. rewrite length_job_bytes.
  apply get_job_id_inv in E as (Hd & ? & ?). apply get_str_inv in E0 as (Hk & ? & -> & ?).
  apply get_str_inv in E1 as (Hu & ? & -> & ?). apply get_u16_inv in E2 as (Hb & Hf & ?).
  apply slice_inv in E3 as (Hs & Hn & ?). apply get_job_fixed_inv in E4 as (Hx & [] & ?).
  apply orb_false_iff in G1 as [Gm%bool_decide_eq_false Gl%bool_decide_eq_false].
  cbn [j_idem_key j_url j_body].
  split; [|split; [constructor; try done; simpl; lia|lia]].
  unfold holds_at, job_bytes, str_bytes in *. cbn [j_id j_idem_key j_url j_body].
  rewrite <- !app_assoc. unfold fits in Hf.
  rewrite Hn, Z2Nat.id by lia. rewrite (wrap_id 16 v0) by (unfold fits; lia).
  match goal with |- context [drop (off + ?m) b] =>
    replace (off + m)%nat with (off + 16 + 2 + length key + 2 + length url + 2 +
                                Z.to_nat v0 + 45)%nat by lia end.
  rewrite Hd. f_equal. rewrite Hk, <- app_assoc. do 2 f_equal. rewrite Hu, <- app_assoc.
  do 2 f_equal. rewrite Hb. f_equal. rewrite Hs. f_equal. by rewrite Hx.
Qed.

(** ** Log records *)

Lemma decode_record_safe b : decode_record b <> Oob.
Proof.
  unfold decode_record, kJobIdSize, kEndpointSize. case_bool_decide; [done|].
  apply res_bind_safe; [apply get_u8_safe; lia|]. intros ty _.
  apply res_bind_safe; [apply get_u64_safe; lia|]. intros lsn _.
  destruct (RecType.of_u8 ty) as [[]|]; try done; try case_bool_decide; try done;
    repeat (apply res_bind_safe;
      [first [apply get_job_safe|apply get_job_id_safe; lia|apply get_u32_safe; lia
             |apply get_u64_safe; lia|apply get_endpoint_safe; lia]|intros ? _]);
    try case_match; done.
Qed.

Lemma decode_encode_record r lsn s :
  rec_wf r -> fits 64 lsn -> decode_record (encode_record r lsn ++ s) = Val (r, lsn).
Proof.
  intros Hr Hlsn. rewrite encode_record_app. set (b := _ ++ s).
  assert (H : drop 0 b = le_bytes 1 (RecType.to_u8 (rec_type r)) ++ le_bytes 8 lsn ++
                         rec_body_bytes r ++ s)
    by (unfold b; by rewrite drop_0, <- !app_assoc).
  assert (Hl : length b = (9 + length (rec_body_bytes r) + length s)%nat)
    by (unfold b; rewrite !length_app, !length_le_bytes; lia).
  clearbody b. unfold decode_record, kJobIdSize, kEndpointSize.
  rewrite bool_decide_eq_false_2 by lia.
  next_read H get_u8_step (RecType.to_u8_fits (rec_type r)).
  next_read H get_u64_step Hlsn. rewrite RecType.of_to.
  destruct r; cbn [rec_type rec_body_bytes rec_wf] in *; destruct_and?;
    rewrite <- ?app_assoc in H; rewrite ?length_app, ?length_job_id_bytes,
      ?length_le_bytes, ?length_endpoint_bytes in Hl;
    rewrite ?bool_decide_eq_false_2 by lia; cbn [Nat.add];
    repeat match goal with
    | Hj : job_wf ?j, Hd : drop 9 b = job_bytes ?j ++ _ |- _ =>
        rewrite (get_job_step _ _ _ _ Hd Hj); clear Hd
    | Hw : job_id_wf ?i, Hd : drop _ b = job_id_bytes ?i ++ _ |- _ =>
        next_read Hd get_job_id_step Hw
    | Hw : fits 32 ?e, Hd : drop _ b = le_bytes 4 ?e ++ _ |- _ => next_read Hd get_u32_step Hw
    | Hw : fits 64 ?e, Hd : drop _ b = le_bytes 8 ?e ++ _ |- _ => next_read Hd get_u64_step Hw
    | Hw : endpoint_wf ?e, Hd : drop _ b = endpoint_bytes ?e ++ _ |- _ =>
        next_read Hd get_endpoint_step Hw
    end.
  all: done.
Qed.

(** Whatever [decode_record] accepts is well formed, and re-encodes to a prefix
    of the input: nothing is invented, and only trailing bytes are dropped. *)
Lemma decode_record_inv b r lsn :
  decode_record b = Val (r, lsn) ->
  rec_wf r /\ fits 64 lsn /\ exists s, b = encode_record r lsn ++ s.
Proof.
  unfold decode_record, kJobIdSize, kEndpointSize. intros H. inv_val H.
  apply get_u8_inv in E as (H0 & _ & _). apply get_u64_inv in E0 as (H1 & ? & _).
  unfold holds_at in H0, H1. rewrite drop_0 in H0. cbn [Nat.add] in *.
  destruct (RecType.of_u8 v) as [ty|] eqn:Ety; [|done].
  apply RecType.to_of in Ety. subst v.
  assert (Hfin : forall rest, drop 9 b = rec_body_bytes r ++ rest ->
            RecType.to_u8 ty = RecType.to_u8 (rec_type r) -> v0 = lsn ->
            exists s, b = encode_record r lsn ++ s).
  { intros rest Hd Ht ->. exists rest.
    rewrite encode_record_app, <- !app_assoc, <- Hd, <- Ht. by rewrite H0 at 1; rewrite H1. }
  destruct ty; inv_val H;
    repeat match goal with v : Job * nat |- _ => destruct v as [? ?] end;
    injection H as <- <-;
    repeat match goal with
    | E : get_job _ _ = Val _ |- _ => apply get_job_inv in E as (? & ? & _ & _)
    | E : get_job_id _ _ = Val _ |- _ => apply get_job_id_inv in E as (? & ? & ?)
    | E : get_u32 _ _ = Val _ |- _ => apply get_u32_inv in E as (? & ? & ?)
    | E : get_u64 _ _ = Val _ |- _ => apply get_u64_inv in E as (? & ? & ?)
    | E : get_endpoint _ _ = Val _ |- _ => apply get_endpoint_inv in E as (? & ? & ?)
    end; unfold holds_at in *; cbn [Nat.add] in *;
    (split; [by cbn [rec_wf]|split; [done|]]);
    eapply Hfin; try done; cbn [rec_body_bytes]; rewrite <- ?app_assoc;
    chain_reads; done.
Qed.

(** ** Hexadecimal ids *)

Lemma hex_value_char d : 0 <= d < 16 -> hex_value (hex_char d) = Some d.
Proof.
  intros H.
  assert (d = 0 \/ d = 1 \/ d = 2 \/ d = 3 \/ d = 4 \/ d = 5 \/ d = 6 \/ d = 7 \/ d = 8 \/
          d = 9 \/ d = 10 \/ d = 11 \/ d = 12 \/ d = 13 \/ d = 14 \/ d = 15) as Hd by lia.
  repeat destruct Hd as [->|Hd]; try reflexivity. by subst.
Qed.

Lemma hex_char_value c d : hex_value c = Some d -> hex_char d = c /\ 0 <= d < 16.
Proof.
  unfold hex_value, hex_char. intros H.
  destruct (Z.leb_spec 48 (Z_of_byte c)), (Z.leb_spec (Z_of_byte c) 57),
    (Z.leb_spec 97 (Z_of_byte c)), (Z.leb_spec (Z_of_byte c) 102); simpl in H; try lia;
    try discriminate H; injection H as <-;
    (split; [|lia]); 
    match goal with |- context [?x <? 10] => destruct (Z.ltb_spec x 10) end; try lia;
    rewrite <- (byte_of_Z_of_byte c) at 2; f_equal; lia.
Qed.

Lemma hex_half_app s t v :
  hex_half (s ++ t) v = match hex_half s v with Some a => hex_half t a | None => None end.
Proof.
  revert v. induction s as [|c s IH]; intros v; simpl; [done|].
  destruct (hex_value c); [apply IH|done].
Qed.

Lemma length_hex_digits n v : length (hex_digits n v) = n.
Proof. revert v. induction n; intros v; simpl; [done|]. rewrite length_app, IHn. simpl. lia. Qed.

(** Shifting a nibble in, and what the two operations of [hex_digits] take out. *)
Lemma nibble_join a d n :
  0 <= n <= 15 -> fits (4 * n) a -> 0 <= d < 16 ->
  Z.lor (u64 (Z.shiftl a 4)) d = a * 16 + d /\ fits (4 * (n + 1)) (a * 16 + d).
Proof.
  intros Hn Ha Hd.
  assert (Hf : fits (4 * (n + 1)) (a * 16 + d)).
  { unfold fits in *. replace (4 * (n + 1)) with (4 * n + 4) by lia.
    rewrite Z.pow_add_r by lia. change (2 ^ 4) with 16. lia. }
  split; [|done].
  pose proof (fits_weaken (4 * (n + 1)) 64 _ ltac:(lia) Hf) as Hw. unfold fits in *.
  assert (Hs : Z.shiftl a 4 = a * 16) by (by rewrite Z.shiftl_mul_pow2 by lia).
  rewrite wrap_id by (unfold fits; rewrite Hs; lia).
  rewrite Z.lor_comm, lor_shiftl_add by (unfold fits; lia). lia.
Qed.

Lemma nibble_split v :
  0 <= v -> v = Z.shiftr v 4 * 16 + Z.land v 15 /\ 0 <= Z.land v 15 < 16 /\ 0 <= Z.shiftr v 4.
Proof.
  intros Hv. rewrite Z.shiftr_div_pow2 by lia. change 15 with (Z.ones 4).
  rewrite Z.land_ones by lia. change (2 ^ 4) with 16.
  pose proof (Z.div_mod v 16). pose proof (Z.mod_pos_bound v 16).
  pose proof (Z.div_pos v 16). lia.
Qed.

Lemma nibble_unjoin a d :
  0 <= a -> 0 <= d < 16 -> Z.shiftr (a * 16 + d) 4 = a /\ Z.land (a * 16 + d) 15 = d.
Proof.
  intros Ha Hd. destruct (nibble_split (a * 16 + d)) as (H1 & H2 & H3); [lia|].
  assert (Z.shiftr (a * 16 + d) 4 = a) by lia. split; [done|lia].
Qed.

Lemma hex_half_digits n v :
  (n <= 16)%nat -> fits (4 * Z.of_nat n) v -> hex_half (hex_digits n v) 0 = Some v.
Proof.
  revert v. induction n as [|n IH]; intros v Hn Hv; simpl.
  { unfold fits in Hv. simpl in Hv. f_equal. lia. }
  pose proof (proj1 Hv) as H0. destruct (nibble_split v H0) as (Hj & Hd & Hs).
  assert (Hf : fits (4 * Z.of_nat n) (Z.shiftr v 4)).
  { unfold fits in *. replace (4 * Z.of_nat (S n)) with (4 * Z.of_nat n + 4) in Hv by lia.
    rewrite Z.pow_add_r in Hv by lia. change (2 ^ 4) with 16 in Hv. lia. }
  rewrite hex_half_app, IH by (try lia; done). simpl. rewrite hex_value_char by done.
  destruct (nibble_join (Z.shiftr v 4) (Z.land v 15) (Z.of_nat n)) as [-> _]; [lia|done|done|].
  by rewrite <- Hj.
Qed.

Lemma hex_half_inv s v :
  (length s <= 16)%nat -> hex_half s 0 = Some v ->
  hex_digits (length s) v = s /\ fits (4 * Z.of_nat (length s)) v.
Proof.
  revert v. induction s as [|c s IH] using rev_ind; intros v Hl H.
  { simpl in *. injection H as <-. done. }
  rewrite length_app in *. simpl in Hl. rewrite hex_half_app in H.
  destruct (hex_half s 0) as [a|] eqn:Ea; [|done]. simpl in H.
  destruct (hex_value c) as [d|] eqn:Ec; [|done]. injection H as <-.
  destruct (IH a) as [Hs Hf]; [lia|done|].
  apply hex_char_value in Ec as [Hc Hd].
  destruct (nibble_join a d (Z.of_nat (length s))) as [-> Hj]; [lia|done|done|].
  destruct (nibble_unjoin a d) as [E1 E2]; [apply Hf|done|].
  simpl length. rewrite Nat.add_1_r. split.
  - simpl. by rewrite E1, E2, Hs, Hc.
  - by replace (4 * Z.of_nat (S (length s))) with (4 * (Z.of_nat (length s) + 1)) by lia.
Qed.

Lemma length_to_hex i : length (to_hex i) = 32%nat.
Proof. unfold to_hex. by rewrite length_app, !length_hex_digits. Qed.

Lemma from_hex_to_hex i : job_id_wf i -> from_hex (to_hex i) = Some i.
Proof.
  intros [Ho Hn]. unfold from_hex. rewrite length_to_hex. simpl negb. cbv iota.
  unfold to_hex.
  destruct (take_drop_app_eq _ (hex_digits 16 (origin i)) (hex_digits 16 (nonce i)) eq_refl)
    as [Ht Hd].
  rewrite length_hex_digits in Ht, Hd. rewrite Ht, Hd.
  rewrite !hex_half_digits by (try lia; done). by destruct i.
Qed.

Lemma from_hex_inv s i : from_hex s = Some i -> to_hex i = s /\ job_id_wf i.
Proof.
  unfold from_hex. destruct (Nat.eqb_spec (length s) 32) as [Hl|]; [|done]. simpl.
  destruct (hex_half (take 16 s) 0) as [o|] eqn:Eo; [|done].
  destruct (hex_half (drop 16 s) 0) as [n|] eqn:En; [|done]. intros [= <-].
  apply hex_half_inv in Eo as [Ho Fo]; [|rewrite length_take; lia].
  apply hex_half_inv in En as [Hn Fn]; [|rewrite length_drop; lia].
  rewrite length_take in Ho, Fo. rewrite length_drop in Hn, Fn. rewrite Hl in *.
  split; [|done]. unfold to_hex. cbn [origin nonce].
  change (16 `min` 32)%nat with 16%nat in Ho. change (32 - 16)%nat with 16%nat in Hn.
  rewrite Ho, Hn. apply take_drop.
Qed.

(** ** The merge order is a strict partial order *)

(** Done over DeadLetter over everything else. *)
Definition state_prec (s : JobState) : Z :=
  match s with Done => 2 | DeadLetter => 1 | _ => 0 end.

Lemma job_advances_spec l r :
  job_advances l r = true <->
  j_epoch l < j_epoch r \/
  (j_epoch l = j_epoch r /\
   (state_prec (j_state l) < state_prec (j_state r) \/
    (state_prec (j_state l) = state_prec (j_state r) /\
     (j_lease_seq l < j_lease_seq r \/
      (j_lease_seq l = j_lease_seq r /\ j_state r = Leased /\ j_state l = Ready))))).
Proof.
  unfold job_advances, is_done, is_dead.
  destruct (Z.eqb_spec (j_epoch r) (j_epoch l)) as [->|]; simpl; [|rewrite Z.ltb_lt; lia].
  destruct (Z.eqb_spec (j_lease_seq r) (j_lease_seq l)) as [->|]; simpl;
    destruct (j_state l), (j_state r); simpl; rewrite ?Z.ltb_lt; intuition (try congruence; lia).
Qed.

Lemma job_advances_irrefl j : job_advances j j = false.
Proof.
  apply not_true_is_false. rewrite job_advances_spec.
  intuition (lia || congruence).
Qed.

Lemma job_advances_trans a b c :
  job_advances a b = true -> job_advances b c = true -> job_advances a c = true.
Proof.
  rewrite !job_advances_spec. intuition (lia || congruence).
Qed.

Lemma job_advances_asym a b : job_advances a b = true -> job_advances b a = false.
Proof.
  intros H. destruct (job_advances b a) eqn:E; [|done].
  by rewrite <- (job_advances_irrefl a), (job_advances_trans a b a).
Qed.

Lemma job_advances_epoch l r : job_advances l r = true -> j_epoch l <= j_epoch r.
Proof. rewrite job_advances_spec. lia. Qed.

(** ** Sample values, used to instantiate theorems at concrete inputs *)

Module Sample.
Definition node_a : Endpoint := mkEndpoint 16779786 10275.
Definition node_b : Endpoint := mkEndpoint 33557002 10275.
Definition node_c : Endpoint := mkEndpoint 50334218 10275.
Definition id1 : JobId := mkJobId (ekey node_a) 4294967297.
Definition id2 : JobId := mkJobId (ekey node_a) 4294967298.
Definition key1 : bytes := [Byte.x6b; Byte.x31].
Definition key2 : bytes := [Byte.x6b; Byte.x32].
Definition url1 : bytes := [Byte.x68; Byte.x74; Byte.x74; Byte.x70].
Definition job1 : Job :=
  mkJob id1 key1 url1 [Byte.x78] 30000 5 (mkReplicas node_a node_b node_c) Ready node_a 1 0 0.
Definition job2 : Job :=
  mkJob id2 key2 url1 [Byte.x79] 30000 5 (mkReplicas node_a node_b node_c) Ready node_a 1 0 0.

Lemma job1_wf : job_wf job1.
Proof. constructor; try (vm_compute; intuition congruence); simpl; unfold kMaxIdemKey,
  kMaxUrl, kMaxJobBody; lia. Qed.
Lemma job2_wf : job_wf job2.
Proof. constructor; try (vm_compute; intuition congruence); simpl; unfold kMaxIdemKey,
  kMaxUrl, kMaxJobBody; lia. Qed.
End Sample.

(** ** Properties *)

(** C31: a well-formed record, stamped with any lsn and followed by anything,
    decodes to itself: replicas and replays see exactly what was committed. *)
Theorem record_roundtrip r lsn s :
  rec_wf r -> fits 64 lsn -> decode_record (encode_record r lsn ++ s) = Val (r, lsn).
Proof. apply decode_encode_record. Qed.

Lemma record_roundtrip_witness :
  decode_record (encode_record (SubmitRec Sample.job1) 3 ++ []) = Val (SubmitRec Sample.job1, 3).
Proof.
  apply (record_roundtrip (SubmitRec Sample.job1) 3 []); [exact Sample.job1_wf|].
  vm_compute. intuition congruence.
Defined.

(** What the decoder accepts is well formed and is the encoding of the result
    up to ignored trailing bytes, so two nodes that decode the same bytes agree and
    no field is invented. *)
Theorem record_decode_canonical b r lsn :
  decode_record b = Val (r, lsn) ->
  rec_wf r /\ fits 64 lsn /\ exists s, b = encode_record r lsn ++ s.
Proof. apply decode_record_inv. Qed.

Lemma record_decode_canonical_witness :
  rec_wf (DoneRec Sample.id1 1 1).
Proof.
  exact (proj1 (record_decode_canonical (encode_record (DoneRec Sample.id1 1 1) 0)
    (DoneRec Sample.id1 1 1) 0 eq_refl)).
Defined.


(** C33: the job budgets do their work: a job within them serializes to at most
    1027 bytes, below the 1120-byte RPC body limit, so Replicate, Resync and status
    replies never fail as too large. *)
Theorem job_fits_rpc j :
  job_wf j -> (length (put_job [] j) <= 1027)%nat.
Proof.
  intros []. rewrite put_job_app, app_nil_l, length_job_bytes.
  unfold kMaxIdemKey, kMaxUrl, kMaxJobBody in *. lia.
Qed.

Lemma job_fits_rpc_witness : (length (put_job [] Sample.job1) <= 1027)%nat.
Proof. exact (job_fits_rpc Sample.job1 Sample.job1_wf). Defined.

(** Hexadecimal ids and job ids correspond one to one: printing then parsing
    returns the id, and any accepted string is the canonical print of its id. *)
Theorem hex_roundtrip i s :
  job_id_wf i ->
  from_hex (to_hex i) = Some i /\ (from_hex s = Some i -> s = to_hex i).
Proof.
  intros H. split; [by apply from_hex_to_hex|]. intros E. by apply from_hex_inv in E as [<- _].
Qed.

Lemma hex_roundtrip_witness : from_hex (to_hex Sample.id1) = Some Sample.id1.
Proof. apply (hex_roundtrip Sample.id1 []). vm_compute. intuition congruence. Defined.

(** The merge order is a strict partial order, so adopting a strictly advancing
    copy can never cycle between replicas, and an older copy never replaces a newer
    one through any chain of merges. *)
Theorem job_advances_strict_order a b c :
  job_advances a a = false /\
  (job_advances a b = true -> job_advances b a = false) /\
  (job_advances a b = true -> job_advances b c = true -> job_advances a c = true).
Proof.
  split; [apply job_advances_irrefl|]. split; [apply job_advances_asym|apply job_advances_trans].
Qed.
