(* ===== verification/Table.v ===== *)
(** * Table: the in-memory job table of src/src/store.h and store.cc

    [jobs_] and [by_idem_] of class JobStore, the lookups, and [apply], the one
    function through which both replay and live commits change them. *)

From Stdlib Require Import ZArith Lia.
From stdpp Require Import base tactics list numbers gmap.
From S2P Require Import Prelude Bytes Wire Records.

Record Table := mkTable { jobs : gmap JobId Job; by_idem : gmap bytes JobId }.

Definition empty_table : Table := mkTable ∅ ∅.

Definition find (t : Table) (id : JobId) : option Job := jobs t !! id.

Definition find_by_idem (t : Table) (key : bytes) : option Job :=
  match by_idem t !! key with
  | None => None
  | Some id => find t id
  end.

(** [*j = ...] through the pointer [find] returned. *)
Definition store_job (t : Table) (id : JobId) (j : Job) : Table :=
  mkTable (<[id := j]> (jobs t)) (by_idem t).

Definition index_key (t : Table) (j : Job) : Table :=
  mkTable (jobs t) (<[j_idem_key j := j_id j]> (by_idem t)).

Definition apply (t : Table) (r : Rec) : Table :=
  match r with
  | SubmitRec job => index_key (store_job t (j_id job) job) job
  | ReplicateRec job =>
      let t' := match find t (j_id job) with
                | None => store_job t (j_id job) job
                | Some local =>
                    if job_advances local job then store_job t (j_id job) job else t
                end in
      index_key t' job
  | LeaseRec id epoch lease_seq _ =>
      match find t id with
      | Some j =>
          if (j_epoch j <=? epoch) && bool_decide (j_state j <> Done) &&
             bool_decide (j_state j <> DeadLetter)
          then store_job t id
                 (set_attempts lease_seq (set_lease_seq lease_seq
                   (set_epoch epoch (set_state Leased j))))
          else t
      | None => t
      end
  | DoneRec id epoch _ =>
      match find t id with
      | Some j =>
          if (j_epoch j <=? epoch) && bool_decide (j_state j <> Done)
          then store_job t id (set_body [] (set_epoch epoch (set_state Done j)))
          else t
      | None => t
      end
  | ExpireRec id epoch lease_seq =>
      match find t id with
      | Some j =>
          if (j_epoch j <=? epoch) && bool_decide (j_state j = Leased) &&
             (j_lease_seq j =? lease_seq)
          then store_job t id (set_epoch epoch (set_state Ready j))
          else t
      | None => t
      end
  | DeadLetterRec id epoch =>
      match find t id with
      | Some j =>
          if (j_epoch j <=? epoch) && bool_decide (j_state j <> Done)
          then store_job t id (set_epoch epoch (set_state DeadLetter j))
          else t
      | None => t
      end
  | TakeoverRec id new_epoch new_owner =>
      match find t id with
      | Some j =>
          if j_epoch j <? new_epoch
          then store_job t id (set_owner new_owner (set_epoch new_epoch j))
          else t
      | None => t
      end
  end.

(** Replay: the fold of [apply] over a log. *)
Definition apply_all (t : Table) (rs : list Rec) : Table := foldl apply t rs.

(** The job a record is about. *)
Definition rec_job (r : Rec) : JobId :=
  match r with
  | SubmitRec j | ReplicateRec j => j_id j
  | LeaseRec id _ _ _ | DoneRec id _ _ | ExpireRec id _ _ | DeadLetterRec id _
  | TakeoverRec id _ _ => id
  end.

(** ** What [apply] does to one job

    [apply_job] is the effect of a transition record on the job it names; full
    copies are [SubmitRec] and [ReplicateRec]. *)

Definition apply_job (r : Rec) (j : Job) : Job :=
  match r with
  | SubmitRec job => job
  | ReplicateRec job => if job_advances j job then job else j
  | LeaseRec _ e q _ =>
      if (j_epoch j <=? e) && bool_decide (j_state j <> Done) &&
         bool_decide (j_state j <> DeadLetter)
      then set_attempts q (set_lease_seq q (set_epoch e (set_state Leased j))) else j
  | DoneRec _ e _ =>
      if (j_epoch j <=? e) && bool_decide (j_state j <> Done)
      then set_body [] (set_epoch e (set_state Done j)) else j
  | ExpireRec _ e q =>
      if (j_epoch j <=? e) && bool_decide (j_state j = Leased) && (j_lease_seq j =? q)
      then set_epoch e (set_state Ready j) else j
  | DeadLetterRec _ e =>
      if (j_epoch j <=? e) && bool_decide (j_state j <> Done)
      then set_epoch e (set_state DeadLetter j) else j
  | TakeoverRec _ e o => if j_epoch j <? e then set_owner o (set_epoch e j) else j
  end.

(** The full copy a record brings for a job the table does not hold. *)
Definition rec_copy (r : Rec) : option Job :=
  match r with SubmitRec j | ReplicateRec j => Some j | _ => None end.

Lemma insert_find_id t id j : find t id = Some j -> store_job t id j = t.
Proof. intros H. unfold store_job. rewrite insert_id by done. by destruct t. Qed.

(** The functional specification of [apply] on the map of jobs: only the named
    job changes, by [apply_job], or a full copy of an unknown job is inserted. *)
Lemma apply_find t r id :
  find (apply t r) id =
  if decide (id = rec_job r) then
    match find t id with
    | Some j => Some (apply_job r j)
    | None => rec_copy r
    end
  else find t id.
Proof.
  unfold find. case_decide as Hid.
  - subst id.
    destruct r as [j|j|id ? ? ?|id ? ?|id ? ?|id ?|id ? ?]; simpl;
      unfold store_job, find; simpl;
      repeat (case_match; simpl in *; simplify_map_eq); done.
  - destruct r as [j|j|id' ? ? ?|id' ? ?|id' ? ?|id' ?|id' ? ?]; simpl in *;
      unfold store_job, find; simpl;
      repeat (case_match; simpl in *); rewrite ?lookup_insert_ne by done; done.
Qed.

(** The index changes only for full copies. *)
Lemma apply_by_idem t r :
  by_idem (apply t r) =
  match rec_copy r with
  | Some j => <[j_idem_key j := j_id j]> (by_idem t)
  | None => by_idem t
  end.
Proof. destruct r; simpl; repeat (case_match; simpl); done. Qed.

Lemma apply_find_ne t r id : id <> rec_job r -> find (apply t r) id = find t id.
Proof. intros H. by rewrite apply_find, decide_False. Qed.

Lemma apply_find_Some t r id j :
  find t id = Some j ->
  find (apply t r) id = Some (if decide (id = rec_job r) then apply_job r j else j).
Proof. intros H. rewrite apply_find, H. by case_decide. Qed.

Lemma table_eq t1 t2 :
  (forall id, find t1 id = find t2 id) -> by_idem t1 = by_idem t2 -> t1 = t2.
Proof.
  intros H1 H2. destruct t1 as [m1 b1], t2 as [m2 b2]. simpl in *. subst. f_equal.
  by apply map_eq.
Qed.

(** Splits the guards of [apply_job] and reads them as propositions. *)
Ltac apply_cases :=
  repeat match goal with
  | |- context [?a <=? ?b] => destruct (Z.leb_spec a b)
  | |- context [?a <? ?b] => destruct (Z.ltb_spec a b)
  | |- context [?a =? ?b] => destruct (Z.eqb_spec a b)
  | |- context [bool_decide ?P] => destruct (bool_decide_reflect P)
  | |- context [job_advances ?a ?b] => destruct (job_advances a b) eqn:?
  end; cbn [andb] in *.

(** ** Invariant of the table *)

Record table_wf (t : Table) : Prop := {
  tw_id : forall id j, find t id = Some j -> j_id j = id;
  tw_job : forall id j, find t id = Some j -> job_wf j;
  tw_index : forall k id, by_idem t !! k = Some id -> is_Some (find t id)
}.

Lemma empty_table_wf : table_wf empty_table.
Proof. constructor; intros ? ?; unfold find; simpl; by rewrite lookup_empty. Qed.

Lemma apply_job_wf r j : rec_wf r -> job_wf j -> job_wf (apply_job r j).
Proof.
  intros Hr Hj. destruct r; simpl in *; destruct_and?; apply_cases; try done;
    destruct Hj; constructor; simpl; try done; lia.
Qed.

Lemma apply_job_id r j : j_id j = rec_job r -> j_id (apply_job r j) = rec_job r.
Proof. intros H. destruct r; simpl in *; apply_cases; done. Qed.

Lemma apply_table_wf t r : rec_wf r -> table_wf t -> table_wf (apply t r).
Proof.
  intros Hr [Hid Hjob Hidx]. constructor.
  - intros id j. rewrite apply_find. case_decide as E; [|apply Hid].
    destruct (find t id) as [j0|] eqn:Ef.
    + intros [= <-]. subst id. apply apply_job_id. eauto.
    + destruct r; simpl in *; try done; intros [= <-]; done.
  - intros id j. rewrite apply_find. case_decide as E; [|apply Hjob].
    destruct (find t id) as [j0|] eqn:Ef.
    + intros [= <-]. apply apply_job_wf; [done|]. eauto.
    + destruct r; simpl in *; try done; intros [= <-]; done.
  - intros k id. rewrite apply_by_idem. intros H.
    assert (Hk : is_Some (find t id) -> is_Some (find (apply t r) id)).
    { intros [j Hj]. rewrite (apply_find_Some _ _ _ _ Hj). eauto. }
    destruct (rec_copy r) as [j|] eqn:Er; [|eauto].
    apply lookup_insert_Some in H as [[_ <-]|[_ H]]; [|eauto].
    assert (Hj : rec_job r = j_id j) by (by destruct r; simplify_eq/=).
    rewrite apply_find, decide_True by done.
    destruct (find t (j_id j)); [eauto|]. rewrite Er. eauto.
Qed.

Lemma apply_all_table_wf t rs :
  Forall rec_wf rs -> table_wf t -> table_wf (apply_all t rs).
Proof.
  intros H. revert t. induction H as [|r rs Hr _ IH]; intros t Ht; [done|].
  simpl. apply IH. by apply apply_table_wf.
Qed.

#[export] Hint Resolve empty_table_wf apply_table_wf apply_all_table_wf : tautq.

(** ** Replay through transition records

    Lemmas on whole logs, by induction over the log. *)

(** [id] receives no full copy from the log. *)
Definition no_copy (id : JobId) (rs : list Rec) : Prop :=
  Forall (fun r => rec_job r = id -> rec_copy r = None) rs.

(** ... or only copies that obey the merge order, never a fresh submit. *)
Definition no_submit (id : JobId) (rs : list Rec) : Prop :=
  Forall (fun r => forall j, r = SubmitRec j -> j_id j <> id) rs.

(** The legal moves of a job's state: grants, expiries, parking, completion. *)
Inductive lifecycle : JobState -> JobState -> Prop :=
  | lc_grant s : s <> Done -> s <> DeadLetter -> lifecycle s Leased
  | lc_expire : lifecycle Leased Ready
  | lc_park s : s <> Done -> lifecycle s DeadLetter
  | lc_complete s : s <> Done -> lifecycle s Done.

Lemma apply_job_lifecycle r j :
  rec_copy r = None ->
  j_state (apply_job r j) = j_state j \/ lifecycle (j_state j) (j_state (apply_job r j)).
Proof.
  intros H. destruct r; simpl in *; try done; apply_cases; auto; right.
  - by apply lc_grant.
  - by apply lc_complete.
  - match goal with E : j_state j = Leased |- _ => rewrite E end. apply lc_expire.
  - by apply lc_park.
Qed.

Lemma lifecycle_done s : rtc lifecycle Done s -> s = Done.
Proof.
  intros H. remember Done as d eqn:E. induction H as [|a b c Hab Hbc IH]; [done|].
  subst a. inversion Hab; congruence.
Qed.

Lemma lifecycle_dead s : rtc lifecycle DeadLetter s -> s = DeadLetter \/ s = Done.
Proof.
  intros H. remember DeadLetter as d eqn:E. induction H as [|a b c Hab Hbc IH]; [auto|].
  subst a. inversion Hab; subst; try done; [auto|]. right. by apply lifecycle_done.
Qed.

Lemma apply_job_epoch r j :
  (forall j', r <> SubmitRec j') -> j_epoch j <= j_epoch (apply_job r j).
Proof.
  intros H. destruct r; simpl; apply_cases; simpl; try lia.
  - by destruct (H job).
  - by apply job_advances_epoch.
Qed.

Lemma apply_job_idem r j : apply_job r (apply_job r j) = apply_job r j.
Proof.
  destruct r; simpl; apply_cases; simpl in *; try done; try lia; try congruence;
    try (by rewrite job_advances_irrefl in *).
Qed.

(** The description fixed at submit time. *)
Definition same_pinned (a b : Job) : Prop :=
  j_id a = j_id b /\ j_idem_key a = j_idem_key b /\ j_url a = j_url b /\
  j_visibility_ms a = j_visibility_ms b /\ j_max_attempts a = j_max_attempts b /\
  j_replicas a = j_replicas b.

#[global] Instance same_pinned_equiv : Equivalence same_pinned.
Proof. unfold same_pinned. split; red; intuition congruence. Qed.

Lemma apply_job_pinned r j : rec_copy r = None -> same_pinned j (apply_job r j).
Proof. intros H. destruct r; simpl in *; try done; apply_cases; unfold same_pinned; done. Qed.

(** An induction principle for replay: a reflexive and transitive relation kept
    by every record of the log relates a job to its replayed version. *)
Lemma replay_rel (P : Rec -> Prop) (R : Job -> Job -> Prop) id rs t j :
  Reflexive R -> Transitive R ->
  (forall r x, P r -> rec_job r = id -> R x (apply_job r x)) ->
  Forall (fun r => rec_job r = id -> P r) rs ->
  find t id = Some j ->
  exists j', find (apply_all t rs) id = Some j' /\ R j j'.
Proof.
  intros Hrefl Htrans HR Hrs. revert t j.
  induction Hrs as [|r rs Hr _ IH]; intros t j Hj; [by exists j|].
  simpl. pose proof (apply_find_Some _ r _ _ Hj) as Hf.
  destruct (IH _ _ Hf) as (j' & Hj' & HRj). exists j'. split; [done|].
  etrans; [|exact HRj]. case_decide as E; [|done]. subst. auto.
Qed.

(** ** Properties *)

(** C23: replaying any log of transition records moves a job's state only along the
    documented lifecycle (grant, expiry, parking, completion); in particular a
    Done job stays Done whatever delayed records arrive, and a parked job leaves
    DeadLetter only for Done.  The pinned description never changes. *)
Theorem replay_lifecycle t rs id j :
  find t id = Some j -> no_copy id rs ->
  exists j', find (apply_all t rs) id = Some j' /\
    rtc lifecycle (j_state j) (j_state j') /\ same_pinned j j' /\
    (j_state j = Done -> j_state j' = Done) /\
    (j_state j = DeadLetter -> j_state j' = DeadLetter \/ j_state j' = Done).
Proof.
  intros Hj Hrs.
  destruct (replay_rel (fun r => rec_copy r = None)
    (fun a b => rtc lifecycle (j_state a) (j_state b) /\ same_pinned a b) id rs t j)
    as (j' & Hf & Hl & Hp); try done.
  - intros a b c [] []. split; etrans; eauto.
  - intros r x Hr _. split; [|by apply apply_job_pinned].
    destruct (apply_job_lifecycle r x Hr) as [->|]; [done|by apply rtc_once].
  - exists j'. split; [done|]. split; [done|]. split; [done|]. split; intros E; rewrite E in Hl.
    + by apply lifecycle_done.
    + by apply lifecycle_dead.
Qed.

Lemma replay_lifecycle_witness :
  exists j', find (apply_all (apply empty_table (SubmitRec Sample.job1))
      [LeaseRec Sample.id1 1 1 7; DoneRec Sample.id1 1 1; LeaseRec Sample.id1 1 2 8])
      Sample.id1 = Some j' /\ rtc lifecycle Ready (j_state j').
Proof.
  destruct (replay_lifecycle (apply empty_table (SubmitRec Sample.job1))
    [LeaseRec Sample.id1 1 1 7; DoneRec Sample.id1 1 1; LeaseRec Sample.id1 1 2 8]
    Sample.id1 Sample.job1) as (j' & Hf & Hl & _).
  - reflexivity.
  - repeat constructor.
  - exists j'. split; [exact Hf|exact Hl].
Defined.

(** No log without a fresh submit of the job, full copies included, ever lowers
    the fencing epoch a node holds for it. *)
Theorem replay_epoch_monotone t rs id j :
  find t id = Some j -> no_submit id rs ->
  exists j', find (apply_all t rs) id = Some j' /\ j_epoch j <= j_epoch j'.
Proof.
  intros Hj Hrs.
  apply (replay_rel (fun r => forall j', r <> SubmitRec j') (fun a b => j_epoch a <= j_epoch b));
    [intros ?; lia|intros ? ? ?; lia| |  |done].
  - intros r x Hr _. by apply apply_job_epoch.
  - eapply Forall_impl; [exact Hrs|]. intros r Hr E j' ->. by apply (Hr j').
Qed.

Lemma replay_epoch_monotone_witness :
  exists j', find (apply_all (apply empty_table (SubmitRec Sample.job1))
      [TakeoverRec Sample.id1 2 Sample.node_b; LeaseRec Sample.id1 1 1 7])
      Sample.id1 = Some j' /\ 1 <= j_epoch j'.
Proof.
  apply (replay_epoch_monotone (apply empty_table (SubmitRec Sample.job1))
    [TakeoverRec Sample.id1 2 Sample.node_b; LeaseRec Sample.id1 1 1 7] Sample.id1 Sample.job1).
  - reflexivity.
  - repeat constructor; intros j; discriminate.
Defined.

(** The epoch a transition record carries. *)
Definition rec_epoch (r : Rec) : option Z :=
  match r with
  | LeaseRec _ e _ _ | DoneRec _ e _ | ExpireRec _ e _ | DeadLetterRec _ e
  | TakeoverRec _ e _ => Some e
  | _ => None
  end.

(** Epoch fencing: a transition record that carries an epoch below the one the
    table holds for the job leaves the whole table as it is. *)
Theorem apply_stale_noop t r e j :
  rec_epoch r = Some e -> find t (rec_job r) = Some j -> e < j_epoch j -> apply t r = t.
Proof.
  intros He Hj Hlt. apply table_eq.
  - intros id. rewrite apply_find. case_decide as E; [|done]. subst id. rewrite Hj. f_equal.
    destruct r; simplify_eq/=; apply_cases; try done; lia.
  - rewrite apply_by_idem. by destruct r.
Qed.

Lemma apply_stale_noop_witness :
  let t := apply_all empty_table [SubmitRec Sample.job1; TakeoverRec Sample.id1 2 Sample.node_b] in
  apply t (LeaseRec Sample.id1 1 1 7) = t.
Proof.
  intros t.
  apply (apply_stale_noop t (LeaseRec Sample.id1 1 1 7) 1
    (set_owner Sample.node_b (set_epoch 2 Sample.job1))); [reflexivity|reflexivity|].
  vm_compute. reflexivity.
Defined.

(** Applying a record twice is applying it once, so retransmitted Apply and
    Replicate requests and re-sent repairs are harmless. *)
Theorem apply_idempotent t r : apply (apply t r) r = apply t r.
Proof.
  apply table_eq.
  - intros id. rewrite !apply_find. case_decide; [|done].
    destruct (find t id) as [j|]; [by rewrite apply_job_idem|].
    destruct (rec_copy r) as [j|] eqn:E; [|done]. f_equal.
    destruct r; simplify_eq/=; [done|]. by rewrite job_advances_irrefl.
  - rewrite !apply_by_idem. case_match; [|done]. by rewrite insert_insert_eq.
Qed.

(** Done is absolute only among transition records and among copies of one
    epoch: a full copy of the same epoch never undoes a completion, while one with
    a higher epoch replaces the completed job whatever its own state. *)
Theorem done_against_copies t c j :
  find t (j_id c) = Some j -> j_state j = Done -> j_state c <> Done ->
  find (apply t (ReplicateRec c)) (j_id c) =
  Some (if j_epoch j <? j_epoch c then c else j).
Proof.
  intros Hj Hd Hc. rewrite (apply_find_Some _ _ _ _ Hj), decide_True by done. simpl.
  destruct (Z.ltb_spec (j_epoch j) (j_epoch c)).
  - assert (job_advances j c = true) as -> by (apply job_advances_spec; lia). done.
  - destruct (job_advances j c) eqn:E; [|done]. apply job_advances_spec in E.
    rewrite Hd in E. exfalso. destruct (j_state c); simpl in E; try done; lia.
Qed.

Lemma done_against_copies_witness :
  let t := apply_all empty_table [SubmitRec Sample.job1; DoneRec Sample.id1 1 1] in
  find (apply t (ReplicateRec (set_epoch 2 Sample.job1))) Sample.id1 =
  Some (set_epoch 2 Sample.job1).
Proof.
  intros t.
  exact (done_against_copies t (set_epoch 2 Sample.job1)
    (set_body [] (set_state Done Sample.job1)) eq_refl eq_refl ltac:(discriminate)).
Defined.

(** [apply] takes any same-epoch lease of an active job at face value, so a
    lease record that arrives late sets the job's lease sequence number back. *)
Theorem late_lease_regresses t id j q w :
  find t id = Some j -> j_state j = Leased -> q < j_lease_seq j ->
  exists j', find (apply t (LeaseRec id (j_epoch j) q w)) id = Some j' /\
    j_lease_seq j' < j_lease_seq j /\ j_state j' = Leased /\ j_epoch j' = j_epoch j.
Proof.
  intros Hj Hs Hq. rewrite (apply_find_Some _ _ _ _ Hj), decide_True by done.
  eexists. split; [done|]. simpl. rewrite Z.leb_refl, !bool_decide_eq_true_2 by congruence.
  done.
Qed.

Lemma late_lease_regresses_witness :
  let t := apply_all empty_table [SubmitRec Sample.job1; LeaseRec Sample.id1 1 1 7;
             ExpireRec Sample.id1 1 1; LeaseRec Sample.id1 1 2 8] in
  exists j', find (apply t (LeaseRec Sample.id1 1 1 7)) Sample.id1 = Some j' /\
    j_lease_seq j' < 2.
Proof.
  intros t.
  destruct (late_lease_regresses t Sample.id1
    (set_attempts 2 (set_lease_seq 2 (set_state Leased Sample.job1))) 1 7)
    as (j' & Hf & Hlt & _); [reflexivity|reflexivity|simpl; lia|].
  exists j'. split; [exact Hf|exact Hlt].
Defined.

(** C24: every table reachable by replaying well-formed records keeps its indexes
    consistent: a job is stored under its own id, with every field in its width
    and budget, and the idempotency index never dangles. *)
Theorem replay_table_wf rs : Forall rec_wf rs -> table_wf (apply_all empty_table rs).
Proof. intros H. auto with tautq. Qed.

Lemma replay_table_wf_witness :
  table_wf (apply_all empty_table [SubmitRec Sample.job1; DoneRec Sample.id1 1 1]).
Proof.
  apply replay_table_wf. constructor; [exact Sample.job1_wf|]. constructor; [|constructor].
  vm_compute. intuition congruence.
Defined.
