(* ===== verification/WalFrame.v ===== *)
(** * WalFrame: the frame format of src/src/wal.cc

    A frame is [u32 body_len | u32 crc32c(body) | body].  [frame] is what
    [write_frame] and [append] put on disk, [scan_frames] is the loop that replay
    runs over a segment.  [taut::crc32c] is library code: it is a parameter, of
    which only the width of its result is used. *)

From Stdlib Require Import ZArith Lia.
From stdpp Require Import base tactics list numbers.
From S2P Require Import Prelude Bytes.

Definition kFrameHeader : nat := 8.
Definition kMaxBody : Z := 65536.

(** What a log record body must satisfy to be appended. *)
Definition body_ok (b : bytes) : Prop := 0 < Z.of_nat (length b) <= kMaxBody.

#[global] Instance body_ok_dec b : Decision (body_ok b).
Proof. unfold body_ok. apply _. Defined.

Section frames.
Context (crc32c : bytes -> Z).

Definition frame (body : bytes) : bytes :=
  let f := put_u32 [] (u32 (Z.of_nat (length body))) in
  let f := put_u32 f (crc32c body) in
  put_bytes f body.

(** The loop of [scan_frames].  It returns the offset of the first invalid or
    incomplete frame and the bodies handed to the replay function, in order (the
    caller's count grows by their number).  [fuel] bounds the iterations; each one
    advances by at least nine bytes. *)
Fixpoint scan_loop (fuel : nat) (data : bytes) (off : nat) (acc : list bytes)
  : res (nat * list bytes) :=
  match fuel with
  | O => Val (off, acc)
  | S fuel' =>
      if negb (off + kFrameHeader <=? length data)%nat then Val (off, acc) else
      let! len := get_u32 data off in
      let! crc := get_u32 data (off + 4) in
      if (len =? 0) || (kMaxBody <? len) ||
         (Z.of_nat (length data) <? Z.of_nat off + Z.of_nat kFrameHeader + len)
      then Val (off, acc) else
      let! body := slice data (off + kFrameHeader) (Z.to_nat len) in
      if negb (crc32c body =? crc) then Val (off, acc) else
      scan_loop fuel' data (off + kFrameHeader + Z.to_nat len) (acc ++ [body])
  end.

Definition scan_frames (data : bytes) : res (nat * list bytes) :=
  scan_loop (S (length data)) data 0 [].

(** The concatenation of the frames of some bodies. *)
Definition frames (bs : list bytes) : bytes := concat (frame <$> bs).

Context (crc_fits : forall b, fits 32 (crc32c b)).

Lemma frame_app body :
  frame body = le_bytes 4 (u32 (Z.of_nat (length body))) ++ le_bytes 4 (crc32c body) ++ body.
Proof. unfold frame, put_bytes. autorewrite with tautq_put. by rewrite <- app_assoc. Qed.

Lemma length_frame body : length (frame body) = (8 + length body)%nat.
Proof. rewrite frame_app, !length_app, !length_le_bytes. lia. Qed.

Lemma frames_cons b bs : frames (b :: bs) = frame b ++ frames bs.
Proof. done. Qed.

Lemma frames_app bs cs : frames (bs ++ cs) = frames bs ++ frames cs.
Proof. unfold frames. by rewrite fmap_app, concat_app. Qed.

Lemma body_ok_fits b : body_ok b -> fits 32 (Z.of_nat (length b)).
Proof. unfold body_ok, fits, kMaxBody. lia. Qed.

(** One successful iteration. *)
Lemma scan_step fuel data off body s acc :
  body_ok body -> holds_at data off (frame body) s ->
  scan_loop (S fuel) data off acc =
  scan_loop fuel data (off + length (frame body)) (acc ++ [body]).
Proof.
  intros Hb H. pose proof (body_ok_fits _ Hb) as Hf.
  pose proof (holds_at_length _ _ _ _ H ltac:(rewrite length_frame; lia)) as Hl.
  rewrite length_frame in *. unfold holds_at in H. rewrite frame_app, <- !app_assoc in H.
  rewrite wrap_id in H by done.
  destruct (get_u32_step _ _ _ _ H Hf) as [E1 H1].
  destruct (get_u32_step _ _ _ _ H1 (crc_fits body)) as [E2 H2].
  replace (off + 4 + 4)%nat with (off + 8)%nat in H2 by lia.
  destruct (slice_step _ _ _ _ H2) as [E3 _]; [lia|].
  cbn [scan_loop]. unfold kFrameHeader, body_ok, kMaxBody in *.
  rewrite (proj2 (Nat.leb_le _ _)) by lia. cbn [negb]. rewrite E1. cbn [res_bind].
  rewrite E2. cbn [res_bind].
  rewrite (proj2 (Z.eqb_neq _ _)), !(proj2 (Z.ltb_ge _ _)) by lia. cbn [orb].
  rewrite Nat2Z.id, E3. cbn [res_bind]. rewrite Z.eqb_refl. cbn [negb].
  f_equal. lia.
Qed.

(** A strict prefix of a frame at the end of the data stops the scan, by its
    length alone. *)
Lemma scan_torn fuel data off body torn acc :
  body_ok body -> torn `prefix_of` frame body -> length torn <> length (frame body) ->
  drop off data = torn -> (off <= length data)%nat ->
  scan_loop fuel data off acc = Val (off, acc).
Proof.
  intros Hb [rest Hp] Hne Hd Ho. destruct fuel as [|fuel]; [done|]. cbn [scan_loop].
  pose proof (body_ok_fits _ Hb) as Hf.
  assert (Hl : length torn = (length data - off)%nat) by (rewrite <- Hd; apply length_drop).
  assert (Hlt : (length torn < 8 + length body)%nat)
    by (apply (f_equal length) in Hp; rewrite length_app, length_frame in *; lia).
  unfold kFrameHeader.
  destruct (Nat.leb_spec (off + 8) (length data)) as [H8|]; [|done]. cbn [negb].
  assert (H4 : holds_at data off (le_bytes 4 (Z.of_nat (length body))) (drop (off + 4) data)).
  { pose proof (holds_at_slice data off 4 ltac:(lia)) as H4.
    assert (E : take 4 (drop off data) = le_bytes 4 (Z.of_nat (length body))); [|by rewrite E in H4].
    rewrite Hd. rewrite frame_app, wrap_id in Hp by done.
    apply (f_equal (take 4)) in Hp. rewrite take_app_le in Hp by (rewrite length_le_bytes; lia).
    rewrite take_ge in Hp by (rewrite length_le_bytes; lia).
    rewrite take_app_le in Hp by lia. done. }
  destruct (get_u32_step _ _ _ _ H4 Hf) as [-> _]. cbn [res_bind].
  rewrite get_u32_spec, decide_True by lia. cbn [res_bind].
  unfold body_ok, kMaxBody in *.
  match goal with |- context [Z.of_nat (length data) <? ?x] =>
    destruct (Z.ltb_spec (Z.of_nat (length data)) x); [|lia] end.
  by rewrite orb_true_r.
Qed.

(** Scanning complete frames followed by a torn one yields exactly the complete
    ones. *)
Lemma scan_frames_torn_at fuel p bs torn body acc :
  Forall body_ok bs -> body_ok body ->
  torn `prefix_of` frame body -> length torn <> length (frame body) ->
  (length bs < fuel)%nat ->
  scan_loop fuel (p ++ frames bs ++ torn) (length p) acc =
  Val (length (p ++ frames bs), acc ++ bs).
Proof.
  intros Hbs Hb Hp Hne. revert fuel p acc.
  induction Hbs as [|b bs Hbok _ IH]; intros fuel p acc Hfuel.
  - rewrite app_nil_r. change (frames []) with (@nil byte). rewrite app_nil_l, app_nil_r.
    apply (scan_torn _ _ _ body torn); auto.
    + by rewrite drop_app_length.
    + rewrite length_app. lia.
  - destruct fuel as [|fuel]; [simpl in Hfuel; lia|].
    rewrite (scan_step fuel _ _ b (frames bs ++ torn)); [|done|].
    + rewrite frames_cons. replace (p ++ (frame b ++ frames bs) ++ torn)
        with ((p ++ frame b) ++ frames bs ++ torn) by (by rewrite <- !app_assoc).
      rewrite <- length_app, IH by (simpl in Hfuel; lia).
      by rewrite <- !app_assoc.
    + unfold holds_at. rewrite drop_app_length, frames_cons. by rewrite <- app_assoc.
Qed.

Lemma length_frames_ge bs : Forall body_ok bs -> (length bs <= length (frames bs))%nat.
Proof.
  induction 1 as [|b bs Hb _ IH]; [done|].
  rewrite frames_cons, length_app, length_frame. simpl. lia.
Qed.

Lemma scan_frames_torn bs torn body :
  Forall body_ok bs -> body_ok body ->
  torn `prefix_of` frame body -> length torn <> length (frame body) ->
  scan_frames (frames bs ++ torn) = Val (length (frames bs), bs).
Proof.
  intros Hbs Hb Hp Hne. unfold scan_frames.
  apply (scan_frames_torn_at _ [] bs torn body []); auto.
  rewrite length_app. pose proof (length_frames_ge bs Hbs). lia.
Qed.

Lemma scan_frames_clean bs :
  Forall body_ok bs -> scan_frames (frames bs) = Val (length (frames bs), bs).
Proof.
  intros Hbs. rewrite <- (app_nil_r (frames bs)) at 1.
  apply (scan_frames_torn bs [] [Byte.x00]); [done|by vm_compute|apply prefix_nil|].
  rewrite length_frame. simpl. lia.
Qed.

(** ** Any data: the scan is safe, and what it accepts is a sequence of frames *)

Lemma scan_loop_sound fuel data off acc :
  (off <= length data)%nat ->
  exists bs off', scan_loop fuel data off acc = Val (off', acc ++ bs) /\
    (off' <= length data)%nat /\ Forall body_ok bs /\
    take off' data = take off data ++ frames bs.
Proof.
  revert off acc. induction fuel as [|fuel IH]; intros off acc Ho; cbn [scan_loop].
  { exists [], off. by rewrite !app_nil_r. }
  assert (Hstop : exists bs off', Val (off, acc) = Val (off', acc ++ bs) /\
    (off' <= length data)%nat /\ Forall body_ok bs /\
    take off' data = take off data ++ frames bs)
    by (exists [], off; by rewrite !app_nil_r).
  unfold kFrameHeader in *.
  destruct (Nat.leb_spec (off + 8) (length data)) as [H8|]; cbn [negb]; [|done].
  rewrite !get_u32_spec, !decide_True by lia. cbn [res_bind].
  set (len := le_val (take 4 (drop off data))).
  set (crc := le_val (take 4 (drop (off + 4) data))).
  destruct ((len =? 0) || (kMaxBody <? len) || _) eqn:G; [done|].
  rewrite !orb_false_iff, Z.eqb_neq, !Z.ltb_ge in G. destruct G as [[G1 G2] G3].
  assert (H1 : holds_at data off (le_bytes 4 len) (drop (off + 4) data) /\ fits 32 len).
  { pose proof (get_u32_inv data off len) as H1. rewrite get_u32_spec, decide_True in H1 by lia.
    by destruct (H1 eq_refl) as (? & ? & _). }
  assert (H2 : holds_at data (off + 4) (le_bytes 4 crc) (drop (off + 4 + 4) data)).
  { pose proof (get_u32_inv data (off + 4) crc) as H2.
    rewrite get_u32_spec, decide_True in H2 by lia. by destruct (H2 eq_refl) as (? & ? & _). }
  destruct H1 as [H1 Hlen]. unfold fits in Hlen.
  destruct (slice data (off + 8) (Z.to_nat len)) as [body| |] eqn:Es;
    [|by unfold slice in Es; case_decide|by apply slice_safe in Es; [|lia]].
  cbn [res_bind]. apply slice_inv in Es as (H3 & Hbl & _).
  destruct (Z.eqb_spec (crc32c body) crc) as [Hcrc|]; cbn [negb]; [|done].
  assert (Hbok : body_ok body) by (unfold body_ok; lia).
  assert (Hdrop : drop off data = frame body ++ drop (off + 8 + Z.to_nat len) data).
  { unfold holds_at in *. rewrite frame_app, wrap_id by (by apply body_ok_fits).
    rewrite Hbl, Z2Nat.id, Hcrc, <- !app_assoc by lia. rewrite H1, H2.
    replace (off + 4 + 4)%nat with (off + 8)%nat by lia. by rewrite H3. }
  assert (Htake : take (off + 8 + Z.to_nat len) data = take off data ++ frame body).
  { replace (off + 8 + Z.to_nat len)%nat with (off + length (frame body))%nat
      by (rewrite length_frame; lia).
    by rewrite <- take_take_drop, Hdrop, take_app_length. }
  destruct (IH (off + 8 + Z.to_nat len)%nat (acc ++ [body])) as (bs & off' & Hs & Ho' & Hbs & Ht);
    [lia|].
  exists (body :: bs), off'. split; [by rewrite Hs, <- app_assoc|].
  split; [done|]. split; [by constructor|].
  by rewrite Ht, Htake, <- app_assoc.
Qed.

(** The fuel of [scan_frames] never runs out: any two amounts above the bytes left
    give the same result, so the loop ends by one of its own exits. *)
Lemma scan_loop_fuel f1 f2 data off acc :
  (length data - off < f1)%nat -> (length data - off < f2)%nat ->
  scan_loop f1 data off acc = scan_loop f2 data off acc.
Proof.
  revert f2 off acc. induction f1 as [|f1 IH]; intros f2 off acc H1 H2; [lia|].
  destruct f2 as [|f2]; [lia|]. cbn [scan_loop]. unfold kFrameHeader.
  destruct (Nat.leb_spec (off + 8) (length data)); cbn [negb]; [|done].
  destruct (get_u32 data off) as [len| |]; cbn [res_bind]; try done.
  destruct (get_u32 data (off + 4)) as [crc| |]; cbn [res_bind]; try done.
  destruct (_ || _); [done|].
  destruct (slice _ _ _) as [body| |]; cbn [res_bind]; try done.
  destruct (negb _); [done|]. apply IH; lia.
Qed.

Lemma scan_frames_sound data :
  exists bs off, scan_frames data = Val (off, bs) /\ (off <= length data)%nat /\
    Forall body_ok bs /\ take off data = frames bs.
Proof.
  destruct (scan_loop_sound (S (length data)) data 0 []) as (bs & off & H & Ho & Hb & Ht); [lia|].
  exists bs, off. by rewrite take_0 in Ht.
Qed.
End frames.
