(* ===== verification/Disk.v ===== *)
(** * Disk: file names, directories and crashes

    The file names src/src/wal.cc builds and parses ([segment_name], [gen_name],
    the CURRENT pointer), and a model of what the log relies on from the file
    system: files are byte strings of which a prefix has been synced, a directory
    entry survives a crash once its directory has been synced, and CURRENT is
    replaced by a rename that becomes durable with the sync of the root
    directory. *)

From Stdlib Require Import ZArith Lia String.
From stdpp Require Import base tactics list numbers gmap.
From S2P Require Import Prelude Bytes.

(** String literals of the source, as bytes. *)
Definition lit (s : string) : bytes := String.list_byte_of_string s.

(** ** Decimal numbers in names *)

Definition dec_char (d : Z) : byte := byte_of_Z (48 + d).

(** [n] decimal digits, zero padded: [%0<n>llu]. *)
Fixpoint dec_digits (n : nat) (v : Z) : bytes :=
  match n with
  | O => []
  | S n' => dec_digits n' (v / 10) ++ [dec_char (v mod 10)]
  end.

Definition segment_name (start_lsn : Z) : bytes :=
  lit "wal-" ++ dec_digits 20 start_lsn ++ lit ".log".

Definition gen_name (generation : Z) : bytes := lit "wal-gen-" ++ dec_digits 20 generation.

Arguments segment_name : simpl never.
Arguments gen_name : simpl never.

(** [std::to_string]: no padding, at least one digit. *)
Fixpoint strip_zeros (s : bytes) : bytes :=
  match s with
  | c :: (_ :: _) as s' => if decide (c = Byte.x30) then strip_zeros s' else s
  | _ => s
  end.

Definition to_string (v : Z) : bytes := strip_zeros (dec_digits 20 v).

(** [name.rfind(p, 0) == 0] *)
Fixpoint starts_with (p s : bytes) : bool :=
  match p, s with
  | [], _ => true
  | _, [] => false
  | x :: p', y :: s' => bool_decide (x = y) && starts_with p' s'
  end.

(** [name.compare(name.size() - 4, 4, ".log") == 0] with [size() > 8]. *)
Definition is_segment (name : bytes) : bool :=
  starts_with (lit "wal-") name && (8 <? length name)%nat &&
  bool_decide (drop (length name - 4) name = lit ".log").

(** [stream >> uint64]: leading white space, a sign, then digits; fails without a
    digit or when the magnitude does not fit. *)
Definition is_space (c : byte) : bool :=
  let z := Z_of_byte c in (z =? 32) || ((9 <=? z) && (z <=? 13)).

Fixpoint skip_space (s : bytes) : bytes :=
  match s with c :: s' => if is_space c then skip_space s' else s | [] => [] end.

Fixpoint read_digits (s : bytes) (v : Z) (seen : bool) : option Z :=
  match s with
  | c :: s' =>
      let d := Z_of_byte c - 48 in
      if (0 <=? d) && (d <=? 9) then read_digits s' (v * 10 + d) true
      else if seen then Some v else None
  | [] => if seen then Some v else None
  end.

Definition read_u64 (s : bytes) : option Z :=
  let s := skip_space s in
  let '(neg, s) :=
    match s with
    | c :: s' => if decide (c = Byte.x2d) then (true, s')
                 else if decide (c = Byte.x2b) then (false, s') else (false, s)
    | [] => (false, s)
    end in
  match read_digits s 0 false with
  | Some v => if v <? 2 ^ 64 then Some (if neg : bool then u64 (- v) else v) else None
  | None => None
  end.

(** ** Names sort by number *)

Lemma length_dec_digits n v : length (dec_digits n v) = n.
Proof. revert v. induction n; intros v; simpl; [done|]. rewrite length_app, IHn. simpl. lia. Qed.

Lemma dec_char_value d : 0 <= d < 10 -> Z_of_byte (dec_char d) = 48 + d.
Proof. intros H. unfold dec_char. rewrite Z_of_byte_of_Z. apply wrap_id. unfold fits. lia. Qed.

Lemma bytes_ltb_snoc p q x y :
  length p = length q ->
  bytes_ltb (p ++ [x]) (q ++ [y]) =
  if bytes_ltb p q then true else if bytes_ltb q p then false else Z_of_byte x <? Z_of_byte y.
Proof.
  revert q. induction p as [|a p IH]; intros [|b q] Hl; try done; simpl in *.
  - destruct (Z.ltb_spec (Z_of_byte x) (Z_of_byte y)); [done|]. by case_match.
  - destruct (Z.ltb_spec (Z_of_byte a) (Z_of_byte b)); [done|].
    destruct (Z.ltb_spec (Z_of_byte b) (Z_of_byte a)); [done|].
    rewrite IH by lia. done.
Qed.

Lemma dec_digits_ltb n a b :
  0 <= a < 10 ^ Z.of_nat n -> 0 <= b < 10 ^ Z.of_nat n ->
  bytes_ltb (dec_digits n a) (dec_digits n b) = (a <? b).
Proof.
  revert a b. induction n as [|n IH]; intros a b Ha Hb.
  { simpl in *. assert (a = 0) as -> by lia. assert (b = 0) as -> by lia. done. }
  simpl. rewrite bytes_ltb_snoc by (by rewrite !length_dec_digits).
  assert (Hd : forall v, 0 <= v < 10 ^ Z.of_nat (S n) ->
    v = 10 * (v / 10) + v mod 10 /\ 0 <= v mod 10 < 10 /\ 0 <= v / 10 < 10 ^ Z.of_nat n).
  { intros v Hv. pose proof (Z.div_mod v 10). pose proof (Z.mod_pos_bound v 10).
    rewrite Nat2Z.inj_succ, Z.pow_succ_r in Hv by lia.
    pose proof (Z.div_pos v 10). pose proof (Z.div_lt_upper_bound v 10 (10 ^ Z.of_nat n)). lia. }
  destruct (Hd a Ha) as (Ea & Ra & Da). destruct (Hd b Hb) as (Eb & Rb & Db).
  rewrite !IH by done. rewrite !dec_char_value by done.
  destruct (Z.ltb_spec (a / 10) (b / 10)), (Z.ltb_spec (b / 10) (a / 10)),
    (Z.ltb_spec (48 + a mod 10) (48 + b mod 10)), (Z.ltb_spec a b); try done; lia.
Qed.

Lemma bytes_ltb_app_tail p q s :
  length p = length q -> bytes_ltb (p ++ s) (q ++ s) = bytes_ltb p q.
Proof.
  revert q. induction p as [|a p IH]; intros [|b q] Hl; try done; simpl in *.
  - apply bytes_ltb_irrefl.
  - by rewrite IH by lia.
Qed.

Lemma u64_20_digits a : fits 64 a -> 0 <= a < 10 ^ Z.of_nat 20.
Proof. unfold fits. intros H. change (10 ^ Z.of_nat 20) with 100000000000000000000. lia. Qed.

Lemma segment_name_ltb a b :
  fits 64 a -> fits 64 b -> bytes_ltb (segment_name a) (segment_name b) = (a <? b).
Proof.
  intros Ha Hb. unfold segment_name. rewrite bytes_ltb_app_same, bytes_ltb_app_tail
    by (by rewrite !length_dec_digits).
  by apply dec_digits_ltb; apply u64_20_digits.
Qed.

Lemma segment_name_inj a b :
  fits 64 a -> fits 64 b -> segment_name a = segment_name b -> a = b.
Proof.
  intros Ha Hb E. pose proof (segment_name_ltb a b Ha Hb) as H1.
  pose proof (segment_name_ltb b a Hb Ha) as H2.
  rewrite E, bytes_ltb_irrefl in *. lia.
Qed.

Lemma is_segment_name a : is_segment (segment_name a) = true.
Proof.
  unfold is_segment, segment_name. rewrite !length_app, length_dec_digits.
  change (length (lit "wal-")) with 4%nat. change (length (lit ".log")) with 4%nat.
  cbn [Nat.add Nat.ltb Nat.leb Nat.sub].
  rewrite app_assoc, drop_app_length' by (by rewrite length_app, length_dec_digits).
  rewrite bool_decide_eq_true_2 by done. by rewrite !andb_true_r.
Qed.

Lemma is_segment_inv_prefix name :
  is_segment name = true -> starts_with (lit "wal-") name = true.
Proof. unfold is_segment. by rewrite !andb_true_iff; intros [[? _] _]. Qed.

(** ** The generation number in CURRENT reads back *)

Definition is_digit (c : byte) : Prop := 48 <= Z_of_byte c <= 57.

Lemma dec_digits_digits n v : Forall is_digit (dec_digits n v).
Proof.
  revert v. induction n as [|n IH]; intros v; simpl; [constructor|].
  rewrite Forall_app, Forall_singleton. split; [apply IH|]. unfold is_digit.
  pose proof (Z.mod_pos_bound v 10). rewrite dec_char_value by lia. lia.
Qed.

Lemma read_digits_step c s v seen :
  is_digit c -> read_digits (c :: s) v seen = read_digits s (v * 10 + (Z_of_byte c - 48)) true.
Proof.
  intros H. unfold is_digit in H. cbn [read_digits].
  by rewrite !(proj2 (Z.leb_le _ _)) by lia.
Qed.

Lemma read_dec_digits n v r acc seen :
  0 <= v < 10 ^ Z.of_nat n ->
  read_digits (dec_digits n v ++ r) acc seen =
  read_digits r (acc * 10 ^ Z.of_nat n + v) (seen || (0 <? n)%nat).
Proof.
  revert v r acc seen. induction n as [|n IH]; intros v r acc seen Hv.
  { simpl in *. assert (v = 0) as -> by lia. rewrite orb_false_r. f_equal. lia. }
  rewrite Nat2Z.inj_succ, Z.pow_succ_r in * by lia.
  pose proof (Z.div_mod v 10). pose proof (Z.mod_pos_bound v 10).
  cbn [dec_digits]. rewrite <- app_assoc, IH.
  2: { pose proof (Z.div_pos v 10). pose proof (Z.div_lt_upper_bound v 10 (10 ^ Z.of_nat n)). lia. }
  simpl app. rewrite read_digits_step.
  - rewrite dec_char_value by lia. rewrite orb_true_r. f_equal. lia.
  - unfold is_digit. rewrite dec_char_value by lia. lia.
Qed.

Lemma strip_zeros_cons c c' s :
  strip_zeros (c :: c' :: s) = if decide (c = Byte.x30) then strip_zeros (c' :: s) else c :: c' :: s.
Proof. done. Qed.

Lemma strip_zeros_spec s :
  Forall is_digit s -> s <> [] ->
  Forall is_digit (strip_zeros s) /\ strip_zeros s <> [] /\
  forall r seen, read_digits (strip_zeros s ++ r) 0 seen = read_digits (s ++ r) 0 seen.
Proof.
  induction s as [|c s IH]; [done|]. intros Hd _. destruct s as [|c' s]; [done|].
  inversion_clear Hd as [|? ? Hc Hs]. rewrite strip_zeros_cons.
  destruct (decide (c = Byte.x30)) as [->|]; [|by split; [by constructor|]].
  destruct IH as (IH1 & IH2 & IH3); [done..|]. split; [done|]. split; [done|].
  intros r seen. rewrite IH3. change ((Byte.x30 :: c' :: s) ++ r) with (Byte.x30 :: c' :: (s ++ r)).
  rewrite (read_digits_step Byte.x30) by (by unfold is_digit).
  inversion_clear Hs. change ((c' :: s) ++ r) with (c' :: (s ++ r)).
  by rewrite !(read_digits_step c').
Qed.

Lemma read_to_string v : fits 64 v -> read_u64 (to_string v ++ [Byte.x0a]) = Some v.
Proof.
  intros Hv. pose proof (u64_20_digits v Hv) as H20. unfold to_string.
  pose proof (dec_digits_digits 20 v) as Hd.
  destruct (strip_zeros_spec (dec_digits 20 v)) as (Hs & Hne & Hr); [done| |].
  { intros E. by apply (f_equal length) in E; rewrite length_dec_digits in E. }
  specialize (Hr [Byte.x0a] false). rewrite read_dec_digits in Hr by done.
  destruct (strip_zeros (dec_digits 20 v)) as [|c s]; [done|].
  inversion_clear Hs as [|? ? Hc _]. unfold read_u64. unfold is_digit in Hc.
  assert (Hsp : skip_space ((c :: s) ++ [Byte.x0a]) = (c :: s) ++ [Byte.x0a]).
  { simpl. unfold is_space. rewrite (proj2 (Z.eqb_neq _ _)), (proj2 (Z.leb_gt _ 13)) by lia.
    by rewrite andb_false_r. }
  rewrite Hsp. simpl app in *. cbn beta iota delta [fst snd]. rewrite !decide_False by (intros ->; by vm_compute in Hc).
  rewrite Hr. cbn [read_digits orb]. change (0 <? 20)%nat with true. simpl.
  unfold fits in Hv. by rewrite (proj2 (Z.ltb_lt _ _)) by lia.
Qed.

(** ** Files, directories, the disk *)

Record File := mkFile { f_data : bytes; f_synced : nat }.

#[global] Instance File_eq_dec : EqDecision File.
Proof. solve_decision. Defined.

Record Dir := mkDir { d_files : gmap bytes File; d_durable : gset bytes }.

Definition empty_dir : Dir := mkDir ∅ ∅.

Definition current_name : bytes := lit "CURRENT".
Definition pointer_tmp : bytes := lit "CURRENT.tmp".

(** [k_root] is the data directory ([dir_]), [k_gens] its generation
    subdirectories with the set of those whose entry is durable; [k_current] is
    the file the last sync of the root left under the name CURRENT. *)
Record Disk := mkDisk {
  k_root : Dir; k_gens : gmap bytes Dir; k_gens_durable : gset bytes;
  k_current : option File
}.

Definition empty_disk : Disk := mkDisk empty_dir ∅ ∅ None.

(** A directory of the log: [None] is [dir_], [Some g] is [dir_/g]. *)
Definition get_dir (k : Disk) (d : option bytes) : option Dir :=
  match d with None => Some (k_root k) | Some g => k_gens k !! g end.

Definition set_dir (k : Disk) (d : option bytes) (x : Dir) : Disk :=
  match d with
  | None => mkDisk x (k_gens k) (k_gens_durable k) (k_current k)
  | Some g => mkDisk (k_root k) (<[g := x]> (k_gens k)) (k_gens_durable k) (k_current k)
  end.

Definition get_file (k : Disk) (d : option bytes) (name : bytes) : option File :=
  match get_dir k d with Some x => d_files x !! name | None => None end.

Definition set_file (k : Disk) (d : option bytes) (name : bytes) (f : File) : Disk :=
  match get_dir k d with
  | Some x => set_dir k d (mkDir (<[name := f]> (d_files x)) (d_durable x))
  | None => k
  end.

(** What [fsync] of a directory makes durable: its entries, and for the root the
    generation directories and CURRENT. *)
Definition sync_dir_entries (k : Disk) (d : option bytes) : Disk :=
  match get_dir k d with
  | None => k
  | Some x =>
      let k := set_dir k d (mkDir (d_files x) (dom (d_files x))) in
      match d with
      | Some _ => k
      | None => mkDisk (k_root k) (k_gens k) (dom (k_gens k)) (d_files (k_root k) !! current_name)
      end
  end.

(** [rename(dir_/CURRENT.tmp, dir_/CURRENT)] *)
Definition rename_current (k : Disk) : Disk :=
  match d_files (k_root k) !! pointer_tmp with
  | Some f =>
      set_dir k None (mkDir (<[current_name := f]> (delete pointer_tmp (d_files (k_root k))))
                        (d_durable (k_root k)))
  | None => k
  end.

(** [unlink] of a file of [dir_]: the entry may come back after a crash until the
    directory is synced, which [d_durable] remembers. *)
Definition unlink_root (k : Disk) (name : bytes) : Disk :=
  set_dir k None (mkDir (delete name (d_files (k_root k))) (d_durable (k_root k))).

Definition remove_gen (k : Disk) (g : bytes) : Disk :=
  mkDisk (k_root k) (delete g (k_gens k)) (k_gens_durable k) (k_current k).

Definition make_gen (k : Disk) (g : bytes) : Disk := set_dir k (Some g) empty_dir.

(** ** Crashes *)

(** A file keeps a prefix of its data that covers what was synced. *)
Definition crash_file (f f' : File) : Prop :=
  exists n, (f_synced f <= n <= length (f_data f))%nat /\
            f' = mkFile (take n (f_data f)) n.

(** A file survives, shortened, unless its entry was never synced; one that was
    removed may come back if the removal was not synced. *)
Definition crash_entry (x x' : Dir) (name : bytes) : Prop :=
  match d_files x !! name with
  | None => (name ∈ d_durable x) \/ d_files x' !! name = None
  | Some f =>
      (exists f', d_files x' !! name = Some f' /\ crash_file f f') \/
      ((name ∉ d_durable x) /\ d_files x' !! name = None)
  end.

(** Entries that survive a crash are durable from then on. *)
Definition crash_dir (x x' : Dir) : Prop :=
  (forall name, name <> current_name -> crash_entry x x' name) /\
  d_durable x' = dom (d_files x').

(** CURRENT is either the durable or the latest one; generations whose entry is
    not durable, or that were being removed, are in any state. *)
Definition crash_disk (k k' : Disk) : Prop :=
  crash_dir (k_root k) (k_root k') /\
  (exists c, (c = k_current k \/ c = d_files (k_root k) !! current_name) /\
     match c with
     | None => d_files (k_root k') !! current_name = None
     | Some f => exists f', d_files (k_root k') !! current_name = Some f' /\ crash_file f f'
     end) /\
  k_current k' = d_files (k_root k') !! current_name /\
  (forall g x, g ∈ k_gens_durable k -> k_gens k !! g = Some x ->
     exists x', k_gens k' !! g = Some x' /\ crash_dir x x') /\
  k_gens_durable k' = dom (k_gens k').
