(* ===== verification/Wal.v ===== *)
(** * Wal: class Wal of src/src/wal.h and wal.cc

    The append-only log as a state machine over the disk model: [open], [append],
    [sync], [rotate], [compact].  Every system call takes its outcome from a list
    supplied by the environment (the list running out means success), so all
    combinations of short writes, interrupted calls and failures are covered. *)

From Stdlib Require Import ZArith Lia String.
From stdpp Require Import base tactics list numbers gmap sorting.
From S2P Require Import Prelude Bytes WalFrame Disk.

(** The outcome of one system call: done, failed, interrupted, or a write that
    accepted only [n] bytes. *)
Inductive Io := IoOk | IoFail | IoEintr | IoShort (n : nat).

Record Wal := mkWal {
  w_disk : Disk;
  w_io : list Io;
  w_active : option bytes;                 (* active_dir_ *)
  w_generation : Z;
  w_fd : option (option bytes * bytes);    (* directory and name behind fd_ *)
  w_failed : bool;
  w_active_size : Z;
  w_segment_bytes : Z;
  w_next_lsn : Z
}.

(** A fresh [Wal] over a disk, after [set_segment_bytes]; the class's default is
    64 MiB. *)
Definition new_wal (k : Disk) (io : list Io) (segment_bytes : Z) : Wal :=
  mkWal k io None 0 None false 0 segment_bytes 0.

Definition default_segment_bytes : Z := Z.shiftl 64 20.

Definition set_disk (k : Disk) (w : Wal) : Wal :=
  mkWal k (w_io w) (w_active w) (w_generation w) (w_fd w) (w_failed w) (w_active_size w)
    (w_segment_bytes w) (w_next_lsn w).
Definition set_io (io : list Io) (w : Wal) : Wal :=
  mkWal (w_disk w) io (w_active w) (w_generation w) (w_fd w) (w_failed w) (w_active_size w)
    (w_segment_bytes w) (w_next_lsn w).
Definition set_active (d : option bytes) (g : Z) (w : Wal) : Wal :=
  mkWal (w_disk w) (w_io w) d g (w_fd w) (w_failed w) (w_active_size w)
    (w_segment_bytes w) (w_next_lsn w).
Definition set_fd (fd : option (option bytes * bytes)) (w : Wal) : Wal :=
  mkWal (w_disk w) (w_io w) (w_active w) (w_generation w) fd (w_failed w) (w_active_size w)
    (w_segment_bytes w) (w_next_lsn w).
Definition set_failed (b : bool) (w : Wal) : Wal :=
  mkWal (w_disk w) (w_io w) (w_active w) (w_generation w) (w_fd w) b (w_active_size w)
    (w_segment_bytes w) (w_next_lsn w).
Definition set_active_size (n : Z) (w : Wal) : Wal :=
  mkWal (w_disk w) (w_io w) (w_active w) (w_generation w) (w_fd w) (w_failed w) n
    (w_segment_bytes w) (w_next_lsn w).
Definition set_segment_bytes (n : Z) (w : Wal) : Wal :=
  mkWal (w_disk w) (w_io w) (w_active w) (w_generation w) (w_fd w) (w_failed w)
    (w_active_size w) n (w_next_lsn w).
Definition set_next_lsn (n : Z) (w : Wal) : Wal :=
  mkWal (w_disk w) (w_io w) (w_active w) (w_generation w) (w_fd w) (w_failed w)
    (w_active_size w) (w_segment_bytes w) n.

(** ** System calls *)

(** A call other than [write]: true when it succeeds. *)
Definition sys_ok (w : Wal) : bool * Wal :=
  match w_io w with
  | [] => (true, w)
  | o :: io => (match o with IoFail | IoEintr => false | _ => true end, set_io io w)
  end.

(** The write loop of [append] and [write_frame]: the bytes that reached the file,
    the outcomes left, and whether all were written. *)
Fixpoint write_loop (io : list Io) (pending : bytes) : bytes * list Io * bool :=
  match pending with
  | [] => ([], io, true)
  | _ :: _ =>
      match io with
      | [] => (pending, [], true)
      | IoOk :: io' => (pending, io', true)
      | IoFail :: io' => ([], io', false)
      | IoEintr :: io' => write_loop io' pending
      | IoShort O :: io' => ([], io', false)
      | IoShort n :: io' =>
          let '(done, io'', ok) := write_loop io' (drop n pending) in
          (take n pending ++ done, io'', ok)
      end
  end.

(** [write] on a descriptor opened with O_APPEND. *)
Definition append_file (k : Disk) (d : option bytes) (name data : bytes) : Disk :=
  match get_file k d name with
  | Some f => set_file k d name (mkFile (f_data f ++ data) (f_synced f))
  | None => k
  end.

Definition write_fd (d : option bytes) (name data : bytes) (w : Wal) : bool * Wal :=
  let '(written, io, ok) := write_loop (w_io w) data in
  (ok, set_disk (append_file (w_disk w) d name written) (set_io io w)).

(** fdatasync *)
Definition sync_file (k : Disk) (d : option bytes) (name : bytes) : Disk :=
  match get_file k d name with
  | Some f => set_file k d name (mkFile (f_data f) (length (f_data f)))
  | None => k
  end.

Definition sync_data_fd (d : option bytes) (name : bytes) (w : Wal) : bool * Wal :=
  let '(ok, w) := sys_ok w in
  if ok then (true, set_disk (sync_file (w_disk w) d name) w) else (false, w).

(** [sync_directory], including the test seam: its outcome is the environment's. *)
Definition sync_directory (d : option bytes) (w : Wal) : bool * Wal :=
  let '(ok, w) := sys_ok w in
  if ok then (true, set_disk (sync_dir_entries (w_disk w) d) w) else (false, w).

(** The names of a directory that pass the segment filter, sorted. *)
Definition bytes_le (a b : bytes) : Prop := bytes_ltb b a = false.

#[global] Instance bytes_le_dec a b : Decision (bytes_le a b).
Proof. unfold bytes_le. apply _. Defined.

Definition segment_files (x : Dir) : list bytes :=
  merge_sort bytes_le (filter (fun n => is_segment n = true) (elements (dom (d_files x)))).

(** ** The class *)

Inductive CompactStage := SnapshotDurable | Installed | BeforeOldLogDeletion.

Section wal.
Context (crc32c : bytes -> Z).

Definition open_active (d : option bytes) (name : bytes) (create : bool) (w : Wal) : bool * Wal :=
  let w := set_fd None w in
  let '(ok, w) := sys_ok w in
  if negb ok then (false, w) else
  match get_file (w_disk w) d name with
  | Some _ => (true, set_fd (Some (d, name)) w)
  | None =>
      if create
      then (true, set_fd (Some (d, name)) (set_disk (set_file (w_disk w) d name (mkFile [] 0)) w))
      else (false, w)
  end.

Definition rotate (w : Wal) : bool * Wal :=
  if w_failed w then (false, w) else
  match w_fd w with
  | None => (false, set_failed true w)
  | Some (d, name) =>
      let '(ok, w) := sync_data_fd d name w in
      if negb ok then (false, set_failed true w) else
      let '(ok, w) := open_active (w_active w) (segment_name (w_next_lsn w)) true w in
      if negb ok then (false, set_failed true w) else
      let w := set_active_size 0 w in
      let '(ok, w) := sync_directory (w_active w) w in
      if negb ok then (false, set_failed true w) else (true, w)
  end.

Definition sync (w : Wal) : bool * Wal :=
  match w_fd w with
  | None => (false, w)
  | Some (d, name) =>
      if w_failed w then (false, w) else
      let '(ok, w) := sync_data_fd d name w in
      if negb ok then (false, set_failed true w) else (true, w)
  end.

(** The part of [append] after the rotation decision. *)
Definition append_frame (body : bytes) (do_sync : bool) (w : Wal) : bool * Wal :=
  match w_fd w with
  | None => (false, set_failed true w)
  | Some (d, name) =>
      let f := frame crc32c body in
      let '(ok, w) := write_fd d name f w in
      if negb ok then (false, set_failed true w) else
      let w := set_active_size (w_active_size w + Z.of_nat (length f)) w in
      let w := set_next_lsn (u64 (w_next_lsn w + 1)) w in
      if do_sync then sync w else (true, w)
  end.

Definition append (body : bytes) (do_sync : bool) (w : Wal) : bool * Wal :=
  if bool_decide (w_fd w = None) || w_failed w || bool_decide (body = []) ||
     (kMaxBody <? Z.of_nat (length body))
  then (false, w) else
  let frame_size := Z.of_nat kFrameHeader + Z.of_nat (length body) in
  if (0 <? w_active_size w) && (w_segment_bytes w <? w_active_size w + frame_size) then
    let '(ok, w) := rotate w in
    if negb ok then (false, w) else append_frame body do_sync w
  else append_frame body do_sync w.

(** The replay loop of [open] over the sorted segment names: the bodies handed to
    the replay function so far are returned on failure too. *)
Fixpoint open_segments (d : option bytes) (segs : list bytes) (seen : list bytes) (w : Wal)
  : bool * list bytes * Wal :=
  match segs with
  | [] => (true, seen, w)
  | name :: rest =>
      let '(ok, w) := sys_ok w in
      match get_file (w_disk w) d name with
      | Some f =>
          if negb ok then (false, seen, w) else
          match scan_frames crc32c (f_data f) with
          | Val (clean, bodies) =>
              let seen := seen ++ bodies in
              let w := set_next_lsn (u64 (w_next_lsn w + Z.of_nat (length bodies))) w in
              let torn := negb (clean =? length (f_data f))%nat in
              if torn && negb (bool_decide (rest = [])) then (false, seen, w) else
              let '(ok, w) :=
                if torn then
                  let '(ok, w) := sys_ok w in
                  (ok, if ok then set_disk (set_file (w_disk w) d name
                         (mkFile (take clean (f_data f)) (Nat.min clean (f_synced f)))) w else w)
                else (true, w) in
              if negb ok then (false, seen, w) else
              if bool_decide (rest = []) then
                let '(ok, w) := open_active d name false w in
                if negb ok then (false, seen, w) else
                (true, seen, set_active_size (Z.of_nat clean) w)
              else open_segments d rest seen w
          | _ => (false, seen, w)
          end
      | None => (false, seen, w)
      end
  end.

(** The first segment of an empty directory. *)
Definition create_first (w : Wal) : bool * Wal :=
  let '(ok, w) := open_active (w_active w) (segment_name 0) true w in
  if negb ok then (false, w) else
  let w := set_active_size 0 w in
  let '(ok, w) := sync_directory (w_active w) w in
  if negb ok then (false, set_failed true w) else (true, w).

(** [open] once [active_dir_] is known: list, sort and replay the segments, or
    create the first one. *)
Definition open_directory (w : Wal) : bool * list bytes * Wal :=
  let '(ok, w) := sys_ok w in                       (* opendir *)
  match get_dir (w_disk w) (w_active w) with
  | None => (false, [], w)
  | Some x =>
      if negb ok then (false, [], w) else
      let w := set_next_lsn 0 w in
      let '(ok, seen, w) := open_segments (w_active w) (segment_files x) [] w in
      if negb ok then (false, seen, w) else
      match w_fd w with
      | Some _ => (true, seen, w)
      | None =>
          let '(ok, w) :=                           (* mkdir(active_dir_) *)
            match w_active w with None => (true, w) | Some _ => sys_ok w end in
          if negb ok then (false, seen, w) else
          let '(ok, w) := create_first w in (ok, seen, w)
      end
  end.

(** [open]: result, bodies replayed in order, new state. *)
Definition open (w : Wal) : bool * list bytes * Wal :=
  let w := set_failed false w in
  let '(ok, w) := sys_ok w in                       (* mkdir(dir) *)
  if negb ok then (false, [], w) else
  let w := set_active None 0 w in
  match get_file (w_disk w) None current_name with
  | None => open_directory w
  | Some f =>
      match read_u64 (f_data f) with
      | None => (false, [], w)
      | Some g => open_directory (set_active (Some (gen_name g)) g w)
      end
  end.

(** ** Compaction *)

(** The lambda [open_segment] of [compact]; [out] is the file being written. *)
Definition open_segment (d : option bytes) (start : Z) (out : option bytes) (w : Wal)
  : bool * option bytes * Wal :=
  let '(ok, w) := match out with None => (true, w) | Some name => sync_data_fd d name w end in
  if negb ok then (false, out, w) else
  let '(ok, w) := sys_ok w in
  let name := segment_name start in
  match get_file (w_disk w) d name with
  | Some _ => (false, None, w)                      (* O_EXCL *)
  | None =>
      if ok then (true, Some name, set_disk (set_file (w_disk w) d name (mkFile [] 0)) w)
      else (false, None, w)
  end.

(** The loop over the snapshot, stopping at the first failure. *)
Fixpoint write_snapshot (d : option bytes) (snapshot : list bytes) (out : option bytes)
  (size lsn : Z) (w : Wal) : bool * option bytes * Z * Wal :=
  match snapshot with
  | [] => (true, out, lsn, w)
  | body :: rest =>
      let frame_size := Z.of_nat kFrameHeader + Z.of_nat (length body) in
      let '(ok, out, size, w) :=
        if (0 <? size) && (w_segment_bytes w <? size + frame_size)
        then let '(ok, out, w) := open_segment d lsn out w in (ok, out, 0, w)
        else (true, out, size, w) in
      if negb ok then (false, out, lsn, w) else
      match out with
      | None => (false, out, lsn, w)
      | Some name =>
          let '(ok, w) := write_fd d name (frame crc32c body) w in
          if negb ok then (false, out, lsn, w) else
          write_snapshot d rest out (size + frame_size) (u64 (lsn + 1)) w
      end
  end.

(** Finds and creates the first unused generation directory; a generation left by
    an interrupted attempt is skipped.  [fuel] exceeds the number of them. *)
Fixpoint make_generation (fuel : nat) (g : Z) (w : Wal) : option Z * Wal :=
  match fuel with
  | O => (None, w)
  | S fuel' =>
      let '(ok, w) := sys_ok w in
      if negb ok then (None, w) else
      match k_gens (w_disk w) !! gen_name g with
      | None => (Some g, set_disk (make_gen (w_disk w) (gen_name g)) w)
      | Some _ => if g =? 2 ^ 64 - 1 then (None, w) else make_generation fuel' (u64 (g + 1)) w
      end
  end.

(** Writes and syncs the new generation; its number and record count. *)
Definition build_generation (snapshot : list bytes) (w : Wal) : option (Z * Z) * Wal :=
  let '(g, w) := make_generation (S (size (k_gens (w_disk w)))) (u64 (w_generation w + 1)) w in
  match g with
  | None => (None, w)
  | Some g =>
      let d := Some (gen_name g) in
      let '(ok, out, w) := open_segment d 0 None w in
      let '(ok, out, lsn, w) :=
        if ok then write_snapshot d snapshot out 0 0 w else (false, out, 0, w) in
      let '(ok, w) :=
        match out with
        | None => (ok, w)
        | Some name => let '(synced, w) := sync_data_fd d name w in (ok && synced, w)
        end in
      if negb ok then (None, w) else
      let '(ok, w) := sync_directory d w in
      if negb ok then (None, w) else
      let '(ok, w) := sync_directory None w in
      if negb ok then (None, w) else (Some (g, lsn), w)
  end.

(** Writes CURRENT.tmp, syncs it and renames it over CURRENT. *)
Definition install_pointer (g : Z) (w : Wal) : bool * Wal :=
  let '(ok, w) := sys_ok w in
  if negb ok then (false, w) else
  let w := set_disk (set_file (w_disk w) None pointer_tmp (mkFile [] 0)) w in
  let '(ok, w) := write_fd None pointer_tmp (to_string g ++ [Byte.x0a]) w in
  if negb ok then (false, w) else
  let '(ok, w) := sync_data_fd None pointer_tmp w in
  if negb ok then (false, w) else
  let '(ok, w) := sys_ok w in
  if negb ok then (false, w) else (true, set_disk (rename_current (w_disk w)) w).

(** Reopens the last segment of the generation just installed. *)
Definition adopt_generation (g lsn : Z) (w : Wal) : bool * Wal :=
  let w := set_active (Some (gen_name g)) g (set_fd None w) in
  let '(ok, w) := sys_ok w in                       (* opendir *)
  match get_dir (w_disk w) (w_active w) with
  | None => (false, w)
  | Some x =>
      if negb ok then (false, w) else
      let names := segment_files x in
      let selected := default (segment_name 0) (last names) in
      let '(ok, w) := open_active (w_active w) selected (bool_decide (names = [])) w in
      if negb ok then (false, w) else
      let '(ok, w) := sys_ok w in                   (* fstat *)
      if negb ok then (false, w) else
      let n := match get_file (w_disk w) (w_active w) selected with
               | Some f => Z.of_nat (length (f_data f)) | None => 0 end in
      (true, set_failed false (set_next_lsn lsn (set_active_size n w)))
  end.

(** Removal of the other generations and of the root's segments, stopping at the
    first failure.  The source meets them in directory order. *)
Fixpoint remove_gens (names : list bytes) (w : Wal) : bool * Wal :=
  match names with
  | [] => (true, w)
  | g :: rest =>
      if starts_with (lit "wal-gen-") g && negb (bool_decide (Some g = w_active w)) then
        let '(ok, w) := sys_ok w in
        if negb ok then (false, w) else remove_gens rest (set_disk (remove_gen (w_disk w) g) w)
      else remove_gens rest w
  end.

Fixpoint unlink_segments (names : list bytes) (w : Wal) : bool * Wal :=
  match names with
  | [] => (true, w)
  | n :: rest =>
      if is_segment n then
        let '(ok, w) := sys_ok w in
        if negb ok then (false, w) else
        unlink_segments rest (set_disk (unlink_root (w_disk w) n) w)
      else unlink_segments rest w
  end.

Definition cleanup (w : Wal) : bool * Wal :=
  let '(ok, w) := sys_ok w in                       (* opendir *)
  if negb ok then (false, w) else
  let '(ok, w) := remove_gens (elements (dom (k_gens (w_disk w)))) w in
  if negb ok then (false, w) else
  let '(ok, w) := unlink_segments (elements (dom (d_files (k_root (w_disk w))))) w in
  if negb ok then (false, w) else sync_directory None w.

Definition compact (snapshot : list bytes) (hook : CompactStage -> bool) (w : Wal) : bool * Wal :=
  if bool_decide (w_fd w = None) || w_failed w then (false, w) else
  if existsb (fun b => bool_decide (b = []) || (kMaxBody <? Z.of_nat (length b))) snapshot
  then (false, w) else
  let '(ok, w) := sync w in
  if negb ok then (false, w) else
  let '(built, w) := build_generation snapshot w in
  match built with
  | None => (false, w)
  | Some (g, lsn) =>
      if negb (hook SnapshotDurable) then (false, w) else
      let '(ok, w) := install_pointer g w in
      if negb ok then (false, w) else
      let w := set_failed true w in
      let '(ok, w) := sync_directory None w in
      if negb ok then (false, w) else
      let '(ok, w) := adopt_generation g lsn w in
      if negb ok then (false, w) else
      if negb (hook Installed) then (false, set_failed true w) else
      if negb (hook BeforeOldLogDeletion) then (false, set_failed true w) else
      cleanup w
  end.
End wal.
