(* ===== verification/WalRecovery.v ===== *)
(** * WalRecovery: what the log keeps across failures and crashes

    The invariant of a log directory (its segments in order, each but the last
    complete and synced), and the theorems that [append], [sync], [rotate] and
    [compact] keep it whatever the system calls answer, and that [open] after any
    crash replays a prefix of the log that contains every acknowledged record. *)

From Stdlib Require Import ZArith Lia.
From stdpp Require Import base tactics list numbers gmap sorting.
From S2P Require Import Prelude Bytes WalFrame Disk Wal.

#[local] Opaque segment_name gen_name to_string.

(** ** Directory listings *)

(** [L] lists the segments of [x], by start lsn, in increasing order. *)
Record listing (x : Dir) (L : list (Z * File)) : Prop := {
  li_sorted : StronglySorted (fun p q => fst p < fst q) L;
  li_fits : Forall (fun p => fits 64 (fst p)) L;
  li_files : forall name f, is_segment name = true ->
    d_files x !! name = Some f <-> exists s, (s, f) ∈ L /\ name = segment_name s;
  li_durable : forall name, is_segment name = true ->
    name ∈ d_durable x -> is_Some (d_files x !! name)
}.

Lemma bytes_le_total : Total bytes_le.
Proof.
  intros a b. unfold bytes_le. destruct (bytes_ltb b a) eqn:E1; [|by left].
  destruct (bytes_ltb a b) eqn:E2; [|by right].
  pose proof (bytes_ltb_trans _ _ _ E1 E2) as H. by rewrite bytes_ltb_irrefl in H.
Qed.

Lemma bytes_le_trans : Transitive bytes_le.
Proof.
  intros a b c. unfold bytes_le. intros H1 H2.
  destruct (bytes_ltb c a) eqn:E; [|done].
  destruct (bytes_ltb a b) eqn:E2.
  - pose proof (bytes_ltb_trans _ _ _ E E2). congruence.
  - pose proof (bytes_ltb_total _ _ E2 H1) as ->. congruence.
Qed.

Lemma bytes_le_antisymm : AntiSymm (=) bytes_le.
Proof. intros a b H1 H2. by apply bytes_ltb_total. Qed.

#[local] Existing Instances bytes_le_total bytes_le_trans bytes_le_antisymm.

Lemma listing_names_sorted x L :
  listing x L -> StronglySorted bytes_le ((fun p => segment_name (fst p)) <$> L).
Proof.
  intros [Hs Hf _ _]. induction Hs as [|p L _ IH Hp]; csimpl; constructor.
  - apply IH. by inversion Hf.
  - inversion_clear Hf as [|? ? Hp0 HL]. rewrite Forall_fmap.
    rewrite Forall_forall in Hp, HL |- *. intros q Hq. unfold bytes_le. simpl.
    rewrite segment_name_ltb by auto. apply Z.ltb_ge. specialize (Hp q Hq). lia.
Qed.

Lemma listing_names_NoDup x L :
  listing x L -> NoDup ((fun p => segment_name (fst p)) <$> L).
Proof.
  intros [Hs Hf _ _]. induction Hs as [|p L _ IH Hp]; csimpl; constructor.
  - inversion_clear Hf as [|? ? Hp0 HL]. rewrite list_elem_of_fmap. intros (q & E & Hq).
    rewrite Forall_forall in Hp, HL. specialize (Hp q Hq).
    apply segment_name_inj in E; auto. lia.
  - apply IH. by inversion Hf.
Qed.

(** The sorted names [open] and [compact] compute are the listing's. *)
Lemma segment_files_listing x L :
  listing x L -> segment_files x = (fun p => segment_name (fst p)) <$> L.
Proof.
  intros H. unfold segment_files.
  apply (StronglySorted_unique bytes_le).
  - apply StronglySorted_merge_sort; apply _.
  - by apply (listing_names_sorted x).
  - rewrite merge_sort_Permutation. apply NoDup_Permutation.
    + apply NoDup_filter, NoDup_elements.
    + by apply (listing_names_NoDup x).
    + intros name. rewrite list_elem_of_filter, elem_of_elements, elem_of_dom, list_elem_of_fmap.
      split.
      * intros [Hn [f Hf]]. apply (li_files _ _ H) in Hf as (s & Hin & ->); [|done].
        by exists (s, f).
      * intros ([s f] & -> & Hin). split; [apply is_segment_name|]. exists f.
        apply (li_files _ _ H); [apply is_segment_name|]. by exists s.
Qed.

Lemma listing_lookup x L s f :
  listing x L -> (s, f) ∈ L -> d_files x !! segment_name s = Some f.
Proof. intros H Hin. apply (li_files _ _ H); [apply is_segment_name|]. by exists s. Qed.

(** Only the segments of a directory matter. *)
Lemma listing_ext x y L :
  listing x L ->
  (forall name, is_segment name = true -> d_files y !! name = d_files x !! name) ->
  (forall name, is_segment name = true -> name ∈ d_durable y -> is_Some (d_files y !! name)) ->
  listing y L.
Proof.
  intros [H1 H2 H3 H4] Hf Hd. split; [done..| |done].
  intros name f Hn. rewrite Hf by done. by apply H3.
Qed.

Lemma sorted_snoc_lt (L : list (Z * File)) p :
  StronglySorted (fun p q => fst p < fst q) (L ++ [p]) -> Forall (fun q => fst q < fst p) L.
Proof.
  induction L as [|q L IH]; csimpl; intros H; constructor; inversion_clear H as [|? ? Hs Hq].
  - rewrite Forall_app, Forall_singleton in Hq. by destruct Hq.
  - by apply IH.
Qed.

Lemma sorted_snoc (L : list (Z * File)) p :
  StronglySorted (fun p q => fst p < fst q) L -> Forall (fun q => fst q < fst p) L ->
  StronglySorted (fun p q => fst p < fst q) (L ++ [p]).
Proof.
  induction 1 as [|q L Hs IH Hq]; csimpl; intros Hp.
  - by repeat constructor.
  - inversion_clear Hp as [|? ? Hqp HL]. constructor; [by apply IH|].
    rewrite Forall_app, Forall_singleton. by split.
Qed.

Lemma sorted_init (L : list (Z * File)) p :
  StronglySorted (fun p q => fst p < fst q) (L ++ [p]) ->
  StronglySorted (fun p q => fst p < fst q) L.
Proof.
  induction L as [|q L IH]; csimpl; intros H; [constructor|].
  inversion_clear H as [|? ? Hs Hq]. constructor; [by apply IH|].
  rewrite Forall_app in Hq. by destruct Hq.
Qed.

(** Writing the segment that follows [L], present before or not. *)
Lemma listing_put x L s f :
  listing x L \/ (exists f0, listing x (L ++ [(s, f0)])) ->
  fits 64 s -> Forall (fun q => fst q < s) L ->
  listing (mkDir (<[segment_name s := f]> (d_files x)) (d_durable x)) (L ++ [(s, f)]).
Proof.
  intros HL Hs Hlt.
  assert (Hold : forall name g, is_segment name = true -> name <> segment_name s ->
    d_files x !! name = Some g <-> exists s', (s', g) ∈ L /\ name = segment_name s').
  { intros name g Hn Hne. destruct HL as [H|[f0 H]]; rewrite (li_files _ _ H) by done; [done|].
    setoid_rewrite elem_of_app. setoid_rewrite list_elem_of_singleton. naive_solver. }
  assert (Hsort : StronglySorted (fun p q => fst p < fst q) L /\ Forall (fun p => fits 64 (fst p)) L).
  { destruct HL as [H|[f0 H]]; [by split; apply H|].
    pose proof (li_fits _ _ H) as Hf. rewrite Forall_app in Hf. destruct Hf as [Hf _].
    split; [|done]. by eapply sorted_init, H. }
  destruct Hsort as [Hss Hff]. split.
  - by apply sorted_snoc.
  - rewrite Forall_app, Forall_singleton. by split.
  - intros name g Hn. simpl. destruct (decide (name = segment_name s)) as [->|Hne].
    + rewrite lookup_insert_eq. split.
      * intros [= <-]. exists s. rewrite elem_of_app, list_elem_of_singleton. auto.
      * intros (s' & Hin & E). rewrite Forall_forall in Hff, Hlt.
        rewrite elem_of_app, list_elem_of_singleton in Hin. destruct Hin as [Hin|[= -> ->]]; [|done].
        specialize (Hff _ Hin). specialize (Hlt _ Hin). simpl in *.
        apply segment_name_inj in E; auto. lia.
    + rewrite lookup_insert_ne by done. rewrite Hold by done. setoid_rewrite elem_of_app. setoid_rewrite list_elem_of_singleton. naive_solver.
  - intros name Hn Hd. simpl in *. destruct (decide (name = segment_name s)) as [->|Hne].
    + by rewrite lookup_insert_eq.
    + rewrite lookup_insert_ne by done.
      destruct HL as [H|[f0 H]]; by apply (li_durable _ _ H).
Qed.

Lemma listing_sync x L : listing x L -> listing (mkDir (d_files x) (dom (d_files x))) L.
Proof.
  intros H. apply (listing_ext x); [done..|]. intros name _. simpl. by rewrite elem_of_dom.
Qed.

(** ** The contents of a log directory *)

Section recovery.
Context (crc32c : bytes -> Z) (crc_fits : forall b, fits 32 (crc32c b)).

(** A frame that a write did not complete. *)
Definition torn_ok (torn : bytes) : Prop :=
  exists body, body_ok body /\ torn `prefix_of` frame crc32c body /\
    length torn <> length (frame crc32c body).

(** The complete, synced segments holding [segs], the first one starting at [start]. *)
Fixpoint layout (start : Z) (segs : list (list bytes)) : list (Z * File) :=
  match segs with
  | [] => []
  | s :: r => (start, mkFile (frames crc32c s) (length (frames crc32c s)))
              :: layout (start + Z.of_nat (length s)) r
  end.

(** The segments of a directory: those already rotated out, the records of the last
    one, what an interrupted write left after them, and the synced length of the
    last file. *)
Record SegLog := mkSegLog {
  sl_init : list (list bytes); sl_last : list bytes; sl_torn : bytes; sl_synced : nat
}.

Definition sl_log (s : SegLog) : list bytes := concat (sl_init s) ++ sl_last s.
Definition sl_start (s : SegLog) : Z := Z.of_nat (length (concat (sl_init s))).
Definition sl_data (s : SegLog) : bytes := frames crc32c (sl_last s) ++ sl_torn s.
Definition sl_file (s : SegLog) : File := mkFile (sl_data s) (sl_synced s).

Record dir_log (x : Dir) (s : SegLog) : Prop := {
  dl_listing : listing x (layout 0 (sl_init s) ++ [(sl_start s, sl_file s)]);
  dl_nonempty : Forall (fun seg => seg <> []) (sl_init s);
  dl_bodies : Forall body_ok (sl_log s);
  dl_torn : torn_ok (sl_torn s);
  dl_synced : (sl_synced s <= length (sl_data s))%nat;
  dl_durable : forall p, p ∈ layout 0 (sl_init s) -> segment_name (fst p) ∈ d_durable x;
  dl_unborn : segment_name (sl_start s) ∉ d_durable x -> sl_data s = []
}.

(** The first [a] records of the log are safe from a crash. *)
Definition durable_upto (s : SegLog) (a : nat) : Prop :=
  (a <= length (sl_log s))%nat /\
  (length (frames crc32c (take (a - length (concat (sl_init s))) (sl_last s))) <= sl_synced s)%nat.

Lemma torn_nil : torn_ok [].
Proof.
  exists [Byte.x00]. split; [by vm_compute|]. split; [apply prefix_nil|].
  rewrite length_frame. simpl. lia.
Qed.

Lemma torn_prefix t t' : t `prefix_of` t' -> torn_ok t' -> torn_ok t.
Proof.
  intros Hp (body & Hb & Hp' & Hne). exists body. split; [done|].
  split; [by etrans|]. apply prefix_length in Hp as ?. apply prefix_length in Hp' as ?.
  intros E. lia.
Qed.

(** Scanning a last segment. *)
Lemma scan_last bs torn :
  Forall body_ok bs -> torn_ok torn ->
  scan_frames crc32c (frames crc32c bs ++ torn) = Val (length (frames crc32c bs), bs).
Proof.
  intros Hbs (body & Hb & Hp & Hne). by apply (scan_frames_torn crc32c crc_fits _ _ body).
Qed.

(** Any prefix of a last segment is a last segment again, and keeps every record
    that lies within it. *)
Lemma cut_last k bs torn :
  Forall body_ok bs -> torn_ok torn ->
  exists j torn', (j <= length bs)%nat /\
    take k (frames crc32c bs ++ torn) = frames crc32c (take j bs) ++ torn' /\ torn_ok torn' /\
    (forall m, (m <= length bs)%nat -> (length (frames crc32c (take m bs)) <= k)%nat -> (m <= j)%nat).
Proof.
  intros Hbs Ht. revert k. induction Hbs as [|b bs Hb _ IH]; intros k.
  { exists 0%nat, (take k torn). split; [done|]. split; [done|]. split.
    - apply (torn_prefix _ torn); [|done]. exists (drop k torn). by rewrite take_drop.
    - intros m Hm _. simpl in *. lia. }
  destruct (decide (length (frame crc32c b) <= k)%nat) as [Hk|Hk].
  - destruct (IH (k - length (frame crc32c b))%nat) as (j & t & Hj & E & Htt & Hm).
    exists (S j), t. split; [simpl; lia|]. repeat split; [|done|].
    + rewrite frames_cons, <- app_assoc, take_app_ge by done. rewrite E.
      cbn [take]. by rewrite frames_cons, <- app_assoc.
    + intros [|m] Hm1 Hm2; [lia|]. cbn [take] in Hm2. rewrite frames_cons, length_app in Hm2.
      simpl in Hm1. specialize (Hm m). lia.
  - exists 0%nat, (take k (frame crc32c b)). split; [lia|]. repeat split.
    + rewrite frames_cons, <- app_assoc, take_app_le by lia. done.
    + exists b. split; [done|]. split.
      * exists (drop k (frame crc32c b)). by rewrite take_drop.
      * rewrite length_take. lia.
    + intros [|m] _ Hm2; [lia|]. cbn [take] in Hm2. rewrite frames_cons, length_app in Hm2. lia.
Qed.

Lemma layout_app start s1 s2 :
  layout start (s1 ++ s2) =
  layout start s1 ++ layout (start + Z.of_nat (length (concat s1))) s2.
Proof.
  revert start. induction s1 as [|s s1 IH]; intros start; csimpl.
  - by rewrite Z.add_0_r.
  - rewrite IH, length_app. do 3 f_equal. lia.
Qed.

Lemma layout_starts start segs p :
  Forall (fun seg => seg <> []) segs -> p ∈ layout start segs ->
  start <= fst p < start + Z.of_nat (length (concat segs)).
Proof.
  intros H. revert start. induction H as [|s segs Hs _ IH]; intros start; csimpl.
  - by intros ?%elem_of_nil.
  - rewrite elem_of_cons, length_app. destruct s as [|b s]; [done|]. cbn [length].
    intros [-> | Hin]; simpl; [lia|]. apply IH in Hin. simpl in *. lia.
Qed.

Lemma layout_lt segs :
  Forall (fun seg => seg <> []) segs ->
  Forall (fun q => fst q < Z.of_nat (length (concat segs))) (layout 0 segs).
Proof. intros H. apply Forall_forall. intros p Hp. apply layout_starts in Hp; [lia|done]. Qed.

Lemma layout_synced start segs p :
  p ∈ layout start segs -> f_synced (snd p) = length (f_data (snd p)).
Proof.
  revert start. induction segs as [|s segs IH]; intros start; csimpl.
  - by intros ?%elem_of_nil.
  - rewrite elem_of_cons. intros [-> | Hin]; [done|]. by apply IH in Hin.
Qed.

Lemma frames_take_le m bs :
  (length (frames crc32c (take m bs)) <= length (frames crc32c bs))%nat.
Proof. rewrite <- (take_drop m bs) at 2. rewrite frames_app, length_app. lia. Qed.

(** ** Crash of a directory *)

(** All entries of the directory are durable. *)
Definition settled (x : Dir) : Prop := d_durable x = dom (d_files x).

(** A directory that never got its first segment, or one with a log. *)
Definition dir_good (x : Dir) (log : list bytes) (a : nat) : Prop :=
  (listing x [] /\ log = [] /\ a = 0%nat) \/
  (exists s, dir_log x s /\ log = sl_log s /\ durable_upto s a).

Lemma crash_file_synced f f' :
  f_synced f = length (f_data f) -> crash_file f f' -> f' = f.
Proof.
  intros H (n & Hn & ->). assert (n = length (f_data f)) as -> by lia.
  rewrite take_ge by lia. destruct f; simpl in *. congruence.
Qed.

Lemma segment_not_current name : is_segment name = true -> name <> current_name.
Proof. by intros H ->. Qed.

(** What a crash does to the segments of a directory; the other entries do not
    matter. *)
Definition crash_segs (x x' : Dir) : Prop :=
  (forall name, is_segment name = true -> crash_entry x x' name) /\ settled x'.

Lemma crash_dir_segs x x' : crash_dir x x' -> crash_segs x x'.
Proof. intros [H Hd]. split; [|done]. intros name Hn. by apply H, segment_not_current. Qed.

(** How a listing fares: the durable synced part stays, the last file may be cut or
    lost. *)
Lemma crash_listing x x' L s f :
  listing x (L ++ [(s, f)]) -> crash_segs x x' ->
  (forall p, p ∈ L -> segment_name (fst p) ∈ d_durable x) ->
  (forall p, p ∈ L -> f_synced (snd p) = length (f_data (snd p))) ->
  (exists f', crash_file f f' /\ listing x' (L ++ [(s, f')])) \/
  ((segment_name s ∉ d_durable x) /\ listing x' L).
Proof.
  intros H [Hc Hd] Hdur Hsy. pose proof (li_sorted _ _ H) as Hs. pose proof (li_fits _ _ H) as Hf.
  rewrite Forall_app, Forall_singleton in Hf. destruct Hf as [HfL Hfs].
  assert (HL : forall s0 g, (s0, g) ∈ L -> d_files x' !! segment_name s0 = Some g).
  { intros s0 g Hin. pose proof (Hc (segment_name s0)) as E.
    unfold crash_entry in E. rewrite (listing_lookup x (L ++ [(s, f)]) s0 g) in E;
      [|done|rewrite elem_of_app; auto].
    destruct E as [(g' & E & Hg)|[E _]]; [apply is_segment_name| |by destruct (E (Hdur _ Hin))].
    apply crash_file_synced in Hg as ->; [done|]. by apply (Hsy (s0, g)). }
  assert (Hother : forall name g, is_segment name = true -> name <> segment_name s ->
    d_files x' !! name = Some g <-> exists s0, (s0, g) ∈ L /\ name = segment_name s0).
  { intros name g Hn Hne. split; [|by intros (s0 & Hin & ->); auto].
    intros E. specialize (Hc name Hn). unfold crash_entry in Hc.
    destruct (d_files x !! name) as [g0|] eqn:E0.
    - apply (li_files _ _ H) in E0 as (s0 & Hin & ->); [|done].
      rewrite elem_of_app, list_elem_of_singleton in Hin.
      destruct Hin as [Hin|[= -> ->]]; [|done]. rewrite (HL _ _ Hin) in E.
      injection E as ->. eauto.
    - destruct Hc as [Hc|Hc]; [|congruence].
      apply (li_durable _ _ H) in Hc as [? ?]; [congruence|done]. }
  assert (Hdx : forall name, name ∈ d_durable x' -> is_Some (d_files x' !! name))
    by (intros name; rewrite Hd; by rewrite elem_of_dom).
  pose proof (Hc (segment_name s)) as E. unfold crash_entry in E.
  rewrite (listing_lookup x (L ++ [(s, f)]) s f) in E;
    [|done|rewrite elem_of_app, list_elem_of_singleton; auto].
  destruct E as [(f' & E & Hcf)|[E1 E2]]; [apply is_segment_name|left|right].
  - exists f'. split; [done|]. split; [| |intros name g Hn|by intros; apply Hdx].
    + apply sorted_snoc; [by eapply sorted_init|]. by eapply sorted_snoc_lt in Hs.
    + rewrite Forall_app, Forall_singleton. split; [exact HfL|exact Hfs].
    + setoid_rewrite elem_of_app. setoid_rewrite list_elem_of_singleton.
      destruct (decide (name = segment_name s)) as [->|Hne].
      * rewrite E. split; [intros [= ->]; eauto|].
        intros (s0 & [Hin|[= -> ->]] & Es); [|done]. rewrite Es in E.
        rewrite (HL _ _ Hin) in E. done.
      * rewrite Hother by done. naive_solver.
  - split; [done|]. split; [by eapply sorted_init|done|intros name g Hn|by intros; apply Hdx].
    destruct (decide (name = segment_name s)) as [->|Hne]; [|by apply Hother].
    rewrite E2. split; [done|]. intros (s0 & Hin & Es).
    rewrite Es in E2. by rewrite (HL _ _ Hin) in E2.
Qed.

Lemma sl_snoc_log segs seg :
  sl_log (mkSegLog segs seg [] (length (frames crc32c seg))) = concat (segs ++ [seg]).
Proof. unfold sl_log. simpl. by rewrite concat_app, concat_cons, concat_nil, app_nil_r. Qed.

(** A directory that lists only complete segments. *)
Lemma dir_good_layout x segs a :
  listing x (layout 0 segs) -> Forall (fun seg => seg <> []) segs ->
  Forall body_ok (concat segs) -> d_durable x = dom (d_files x) ->
  (a <= length (concat segs))%nat -> dir_good x (concat segs) a.
Proof.
  intros HL Hne Hb Hd Ha.
  destruct segs as [|seg segs _] using rev_ind; [left; simpl in *; split_and!; [done|done|lia]|right].
  exists (mkSegLog segs seg [] (length (frames crc32c seg))).
  rewrite layout_app in HL. cbn [layout] in HL. rewrite <- sl_snoc_log in *.
  split; [split; simpl; unfold sl_data; simpl|split; [done|split; simpl]].
  - unfold sl_file, sl_data, sl_start. simpl. by rewrite app_nil_r.
  - by rewrite Forall_app in Hne; destruct Hne.
  - done.
  - apply torn_nil.
  - rewrite length_app. lia.
  - intros [s f] Hin. rewrite Hd, elem_of_dom. exists f.
    apply (listing_lookup _ _ _ _ HL). rewrite elem_of_app. by left.
  - intros Hn. exfalso. apply Hn. rewrite Hd, elem_of_dom. eexists.
    apply (listing_lookup _ _ _ _ HL). rewrite elem_of_app, list_elem_of_singleton. by right.
  - done.
  - apply frames_take_le.
Qed.

(** A last segment cut by a crash. *)
Lemma dir_good_cut x x' s n :
  dir_log x s -> d_durable x' = dom (d_files x') -> (sl_synced s <= n <= length (sl_data s))%nat ->
  listing x' (layout 0 (sl_init s) ++ [(sl_start s, mkFile (take n (sl_data s)) n)]) ->
  exists j, dir_good x' (concat (sl_init s) ++ take j (sl_last s))
              (length (concat (sl_init s) ++ take j (sl_last s))) /\
    (forall m, (m <= length (sl_last s))%nat ->
       (length (frames crc32c (take m (sl_last s))) <= n)%nat -> (m <= j)%nat).
Proof.
  intros [_ Hne Hb Ht Hsy _ _] Hd Hn HL. unfold sl_log in Hb. rewrite Forall_app in Hb.
  destruct Hb as [Hbi Hbl]. destruct (cut_last n _ _ Hbl Ht) as (j & t & Hj & E & Htt & Hm).
  unfold sl_data in HL, Hn. rewrite E in HL. exists j. split; [right|done].
  set (s' := mkSegLog (sl_init s) (take j (sl_last s)) t n).
  assert (Hlen : length (sl_data s') = n).
  { unfold sl_data, s'. simpl. rewrite <- E. rewrite length_take. lia. }
  assert (HL2 : listing x' (layout 0 (sl_init s') ++ [(sl_start s', sl_file s')])) by done.
  exists s'. split; [split|split; [done|split; [done|]]]; simpl in *; try done.
  - unfold sl_log. simpl. rewrite Forall_app. split; [done|]. by apply Forall_take.
  - lia.
  - intros [s0 f] Hin. rewrite Hd, elem_of_dom. exists f.
    apply (listing_lookup _ _ _ _ HL2). rewrite elem_of_app. by left.
  - intros Hx. exfalso. apply Hx. rewrite Hd, elem_of_dom. eexists.
    apply (listing_lookup _ _ _ _ HL2). rewrite elem_of_app, list_elem_of_singleton. by right.
  - rewrite take_ge by (rewrite length_app; lia).
    rewrite <- Hlen. unfold sl_data. simpl. rewrite length_app. simpl. lia.
Qed.

Lemma listing_nil_crash x x' : listing x [] -> crash_segs x x' -> listing x' [].
Proof.
  intros HL [Hc Hd]. split; [constructor|constructor| |].
  - intros name f Hn. split; [|by intros (s & ?%elem_of_nil & _)]. intros E.
    specialize (Hc name Hn). unfold crash_entry in Hc.
    destruct (d_files x !! name) as [g|] eqn:Eg.
    { by apply (li_files _ _ HL) in Eg as (s & ?%elem_of_nil & _). }
    destruct Hc as [Hc|Hc]; [|congruence].
    apply (li_durable _ _ HL) in Hc as [? ?]; [congruence|done].
  - intros name Hn. by rewrite Hd, elem_of_dom.
Qed.

(** Every crash leaves a log that is a prefix and keeps the durable records. *)
Lemma crash_dir_good x x' log a :
  dir_good x log a -> crash_segs x x' ->
  exists log', dir_good x' log' (length log') /\ log' `prefix_of` log /\ take a log `prefix_of` log'.
Proof.
  intros [(HL & -> & ->)|(s & Hdl & -> & Ha & Hs)] Hc.
  { exists []. rewrite take_nil. repeat split; try apply prefix_nil.
    left. by split_and!; [apply (listing_nil_crash x)|..]. }
  pose proof Hdl as [HL Hne Hb Ht Hsy Hdur Hun].
  destruct (crash_listing _ _ _ _ _ HL Hc Hdur (layout_synced 0 (sl_init s)))
    as [(f' & (n & Hn & ->) & HL')|[Hnd HL']].
  - destruct (dir_good_cut _ x' _ n Hdl) as (j & Hg & Hm); [apply Hc|done|done|].
    eexists. split; [exact Hg|]. split.
    + exists (drop j (sl_last s)). unfold sl_log. by rewrite <- app_assoc, take_drop.
    + unfold sl_log in *. rewrite length_app in Ha.
      assert (Hmj : (a - length (concat (sl_init s)) <= j)%nat)
        by (apply Hm; simpl in Hn; lia).
      replace (concat (sl_init s) ++ take j (sl_last s))
        with (take (length (concat (sl_init s)) + j) (concat (sl_init s) ++ sl_last s))
        by (by rewrite take_app_add).
      apply prefix_take_le. lia.
  - assert (Hl : sl_log s = concat (sl_init s)).
    { apply Hun in Hnd. unfold sl_data in Hnd. apply app_eq_nil in Hnd as [Hnd _].
      unfold sl_log. destruct (sl_last s) as [|b bs]; [by rewrite app_nil_r|].
      apply (f_equal length) in Hnd. rewrite frames_cons, length_app, length_frame in Hnd.
      simpl in Hnd. lia. }
    rewrite Hl in *. eexists. split; [|split; [done|apply prefix_take]].
    apply dir_good_layout; [done..|apply Hc|done].
Qed.

(** ** Replay *)

(** With no failing call in front, every call so far has succeeded. *)
Ltac io_chain :=
  let E := fresh "E" in intros E; simpl in E;
  repeat match goal with
  | H : ?P -> _ = true /\ _ |- _ =>
      let E1 := fresh "E" in let E2 := fresh "E" in
      destruct H as [E1 E2]; [assumption|try discriminate E1]
  end; split; first [done|assumption].

Lemma sys_ok_cases w :
  exists ok io, sys_ok w = (ok, set_io io w) /\ (w_io w = [] -> ok = true /\ io = []).
Proof.
  unfold sys_ok. destruct (w_io w) as [|o io] eqn:E.
  - exists true, []. split; [|done]. destruct w; simpl in *. by subst.
  - by eexists _, io.
Qed.

Lemma get_file_dir k d name x :
  get_dir k d = Some x -> get_file k d name = d_files x !! name.
Proof. unfold get_file. by intros ->. Qed.

(** [open_active] on a file that exists. *)
Lemma open_active_existing d name create f w :
  get_file (w_disk w) d name = Some f ->
  exists (ok : bool) io, open_active d name create w =
      (ok, set_io io (set_fd (if ok then Some (d, name) else None) w)) /\
    (w_io w = [] -> ok = true /\ io = []).
Proof.
  intros Hf. unfold open_active.
  destruct (sys_ok_cases (set_fd None w)) as (ok & io & E & Hio). rewrite E.
  exists ok, io. destruct ok; simpl; [|done]. by rewrite Hf.
Qed.

(** What the replay of the last segment leaves: the torn bytes are cut off, the
    segment is the one appended to. *)
Definition reopened (d : option bytes) (s : SegLog) (next : Z) (w w' : Wal) : Prop :=
  exists io n, (n <= length (frames crc32c (sl_last s)))%nat /\
    (sl_torn s = [] -> n = sl_synced s) /\ (Nat.min (sl_synced s) (length (frames crc32c (sl_last s))) <= n)%nat /\
  w' = set_io io (set_next_lsn next (set_active_size (Z.of_nat (length (frames crc32c (sl_last s))))
         (set_fd (Some (d, segment_name (sl_start s)))
           (set_disk (match sl_torn s with
                      | [] => w_disk w
                      | _ => set_file (w_disk w) d (segment_name (sl_start s))
                               (mkFile (frames crc32c (sl_last s)) n)
                      end) w)))).

Lemma get_set_file k d name f x :
  get_dir k d = Some x -> get_file (set_file k d name f) d name = Some f.
Proof.
  intros H. unfold get_file, set_file. rewrite H.
  destruct d; simpl; [rewrite lookup_insert_eq; simpl|]; by rewrite lookup_insert_eq.
Qed.

Lemma replay_last d s seen w x :
  get_dir (w_disk w) d = Some x -> dir_log x s ->
  exists ok seen' w',
    open_segments crc32c d [segment_name (sl_start s)] seen w = (ok, seen', w') /\
    (w_io w = [] -> ok = true /\ w_io w' = []) /\
    (ok = true -> seen' = seen ++ sl_last s /\
       reopened d s (u64 (w_next_lsn w + Z.of_nat (length (sl_last s)))) w w').
Proof.
  intros Hx [HL Hne Hb Ht Hsy _ _]. unfold sl_log in Hb. rewrite Forall_app in Hb.
  destruct Hb as [_ Hb]. cbn [open_segments].
  assert (Hf : get_file (w_disk w) d (segment_name (sl_start s)) = Some (sl_file s)).
  { rewrite (get_file_dir _ _ _ _ Hx). apply (listing_lookup _ _ _ _ HL).
    rewrite elem_of_app, list_elem_of_singleton. by right. }
  destruct (sys_ok_cases w) as (ok & io & -> & Hio). simpl. rewrite Hf.
  destruct ok; simpl; [|by eexists _, _, _; split; [done|]; split; [io_chain|done]].
  unfold sl_data. rewrite scan_last by done.
  destruct (sl_torn s) as [|t0 torn] eqn:Et.
  - rewrite app_nil_r, Nat.eqb_refl. cbn [negb andb].
    edestruct (open_active_existing d (segment_name (sl_start s)) false (sl_file s)
      (set_next_lsn (u64 (w_next_lsn w + Z.of_nat (length (sl_last s)))) (set_io io w)))
      as (ok & io' & -> & Hio'); [done|].
    destruct ok; simpl; eexists _, _, _; (split; [done|]); (split; [io_chain|]); [|done].
    intros _. split; [done|]. exists io', (sl_synced s).
    unfold sl_data in Hsy. rewrite Et, app_nil_r in *. split; [lia|]. split; [done|]. split; [lia|done].
  - rewrite length_app. cbn [length].
    rewrite (proj2 (Nat.eqb_neq _ _)) by lia. cbn [negb andb].
    edestruct sys_ok_cases as (ok & io' & -> & Hio').
    destruct ok; simpl; [|by eexists _, _, _; split; [done|]; split; [io_chain|]].
    rewrite take_app_length.
    edestruct (open_active_existing d (segment_name (sl_start s)) false) as (ok & io2 & -> & Hio2);
      [simpl; eapply get_set_file; exact Hx|].
    destruct ok; simpl; eexists _, _, _; (split; [done|]); (split; [io_chain|]); [|done].
    intros _. split; [done|].
    exists io2, (Nat.min (length (frames crc32c (sl_last s))) (sl_synced s)).
    split; [lia|]. split; [by rewrite Et|]. split; [lia|]. by rewrite Et.
Qed.

Lemma reopened_weaken d s n io m w w' :
  reopened d s n (set_next_lsn m (set_io io w)) w' -> reopened d s n w w'.
Proof. done. Qed.

Lemma replay_all d s segs start seen w x :
  get_dir (w_disk w) d = Some x -> dir_log x s ->
  Forall (fun p => d_files x !! segment_name (fst p) = Some (snd p)) (layout start segs) ->
  Forall body_ok (concat segs) ->
  exists ok seen' w',
    open_segments crc32c d (((fun p => segment_name (fst p)) <$> layout start segs) ++
                            [segment_name (sl_start s)]) seen w = (ok, seen', w') /\
    (w_io w = [] -> ok = true /\ w_io w' = []) /\
    (ok = true -> seen' = seen ++ concat segs ++ sl_last s /\
       reopened d s (u64 (w_next_lsn w + Z.of_nat (length (concat segs ++ sl_last s)))) w w').
Proof.
  intros Hx Hs. revert start seen w Hx. induction segs as [|seg segs IH]; intros start seen w Hx HL Hb.
  { by apply (replay_last d s seen w x). }
  cbn [layout] in HL |- *. inversion_clear HL as [|? ? Hf HL']. csimpl in *.
  rewrite Forall_app in Hb. destruct Hb as [Hb1 Hb2].
  destruct (sys_ok_cases w) as (ok & io & -> & Hio). simpl.
  rewrite (get_file_dir _ _ _ _ Hx), Hf.
  destruct ok; simpl; [|by eexists _, _, _; split; [done|]; split; [io_chain|done]].
  rewrite (scan_frames_clean crc32c crc_fits) by done. rewrite Nat.eqb_refl. cbn [negb andb].
  rewrite bool_decide_eq_false_2 by (by intros [_ [=]]%app_eq_nil). cbn [negb].
  destruct (IH (start + Z.of_nat (length seg)) (seen ++ seg)
    (set_next_lsn (u64 (w_next_lsn w + Z.of_nat (length seg))) (set_io io w)))
    as (ok & seen' & w' & E & Hio' & Hok); [done..|].
  rewrite E. exists ok, seen', w'. split; [done|]. split.
  - intros H0. apply Hio'. simpl. by apply Hio.
  - intros ->. destruct Hok as [-> Hr]; [done|]. rewrite <- !app_assoc. split; [done|].
    apply reopened_weaken in Hr. simpl in Hr.
    unfold wrap in *. rewrite Zplus_mod_idemp_l in Hr.
    rewrite length_app, Nat2Z.inj_add, Z.add_assoc. exact Hr.
Qed.

(** ** The invariant of an open log *)

(** CURRENT, on disk and in the file system's view, names the active directory. *)
Definition pointer_ok (k : Disk) (act : option bytes) (gen : Z) : Prop :=
  match act with
  | None => d_files (k_root k) !! current_name = None /\ k_current k = None /\ gen = 0
  | Some g => g = gen_name gen /\ fits 64 gen /\ g ∈ k_gens_durable k /\
      exists f, d_files (k_root k) !! current_name = Some f /\ k_current k = Some f /\
        f_data f = to_string gen ++ [Byte.x0a] /\ f_synced f = length (f_data f)
  end.

(** The log accepts records. *)
Definition ready (w : Wal) (x : Dir) (s : SegLog) : Prop :=
  w_fd w = Some (w_active w, segment_name (sl_start s)) /\ sl_torn s = [] /\
  segment_name (sl_start s) ∈ d_durable x /\
  w_next_lsn w = Z.of_nat (length (sl_log s)) /\
  w_active_size w = Z.of_nat (length (frames crc32c (sl_last s))).

Definition wal_at (w : Wal) (x : Dir) (s : SegLog) (a : nat) : Prop :=
  get_dir (w_disk w) (w_active w) = Some x /\ dir_log x s /\ durable_upto s a /\
  pointer_ok (w_disk w) (w_active w) (w_generation w) /\ (w_failed w = false -> ready w x s).

(** The log holds exactly [log], of which the first [a] records are durable. *)
Definition wal_ok (w : Wal) (log : list bytes) (a : nat) : Prop :=
  exists x s, wal_at w x s a /\ sl_log s = log.

(** ** How the invariant moves *)

Lemma segment_name_not_current z : segment_name z <> current_name.
Proof. apply segment_not_current, is_segment_name. Qed.

Definition put_file (x : Dir) (name : bytes) (f : File) : Dir :=
  mkDir (<[name := f]> (d_files x)) (d_durable x).

Lemma get_dir_set_dir k d x : get_dir (set_dir k d x) d = Some x.
Proof. destruct d; simpl; [by rewrite lookup_insert_eq|done]. Qed.

Lemma get_dir_set_file k d x name f :
  get_dir k d = Some x -> get_dir (set_file k d name f) d = Some (put_file x name f).
Proof. intros H. unfold set_file. rewrite H. apply get_dir_set_dir. Qed.

Lemma pointer_ok_ext k k' act gen :
  pointer_ok k act gen ->
  d_files (k_root k') !! current_name = d_files (k_root k) !! current_name ->
  k_current k' = k_current k ->
  (forall g, act = Some g -> g ∈ k_gens_durable k -> g ∈ k_gens_durable k') ->
  pointer_ok k' act gen.
Proof.
  unfold pointer_ok. intros H -> -> Hg. destruct act as [g|]; [|exact H].
  destruct H as (-> & Hf & Hd & H). eauto.
Qed.

Lemma pointer_ok_set_file k act gen d name f :
  pointer_ok k act gen -> name <> current_name -> pointer_ok (set_file k d name f) act gen.
Proof.
  intros H Hn. apply (pointer_ok_ext k); [exact H|..]; unfold set_file;
    destruct (get_dir k d) as [x|] eqn:E; try reflexivity; destruct d as [g|]; try reflexivity; auto.
  injection E as <-. simpl. by rewrite lookup_insert_ne.
Qed.

Lemma pointer_ok_sync_dir k act gen d :
  pointer_ok k act gen -> (forall g, act = Some g -> is_Some (k_gens k !! g)) ->
  pointer_ok (sync_dir_entries k d) act gen.
Proof.
  intros H Hg. apply (pointer_ok_ext k); [exact H|..]; unfold sync_dir_entries;
    destruct (get_dir k d) as [x|] eqn:E; try reflexivity; destruct d as [g|]; try reflexivity; auto.
  - injection E as <-. reflexivity.
  - injection E as <-. simpl. unfold pointer_ok in H. destruct act; [|by destruct H as (-> & -> & _)].
    destruct H as (_ & _ & _ & f & -> & -> & _). reflexivity.
  - intros g Ea _. simpl. rewrite elem_of_dom. auto.
Qed.

Lemma dir_log_put x s s' :
  dir_log x s -> sl_init s' = sl_init s -> Forall body_ok (sl_last s') -> torn_ok (sl_torn s') ->
  (sl_synced s' <= length (sl_data s'))%nat ->
  (segment_name (sl_start s) ∈ d_durable x \/ sl_data s' = []) ->
  dir_log (put_file x (segment_name (sl_start s)) (sl_file s')) s'.
Proof.
  intros [HL Hne Hb Ht Hsy Hdur Hun] Ei Hb' Ht' Hs' Hd'.
  unfold sl_log in Hb. rewrite Forall_app in Hb. destruct Hb as [Hbi _].
  assert (Es : sl_start s' = sl_start s) by (unfold sl_start; by rewrite Ei).
  pose proof (li_fits _ _ HL) as Hf. rewrite Forall_app, Forall_singleton in Hf.
  split; rewrite ?Ei, ?Es; try done.
  - apply (listing_put x (layout 0 (sl_init s)) (sl_start s)); [eauto|apply Hf|].
    by apply layout_lt.
  - unfold sl_log. rewrite Forall_app, Ei. by split.
  - destruct Hd' as [Hd'|Hd']; [|done]. by intros Hn.
Qed.

Lemma dir_log_sync_dir x s : dir_log x s -> dir_log (mkDir (d_files x) (dom (d_files x))) s.
Proof.
  intros [HL Hne Hb Ht Hsy Hdur Hun]. pose proof (listing_sync _ _ HL) as HL'.
  split; try done.
  - intros [s0 f] Hin. simpl. rewrite elem_of_dom. exists f.
    apply (listing_lookup _ _ _ _ HL). rewrite elem_of_app. by left.
  - intros Hx. exfalso. apply Hx. simpl. rewrite elem_of_dom. eexists.
    apply (listing_lookup _ _ _ _ HL). rewrite elem_of_app, list_elem_of_singleton. by right.
Qed.

(** A new, empty segment after the last one. *)
Lemma dir_log_new x s :
  dir_log x s -> sl_torn s = [] -> sl_last s <> [] -> sl_synced s = length (sl_data s) ->
  segment_name (sl_start s) ∈ d_durable x -> Z.of_nat (length (sl_log s)) < 2 ^ 64 ->
  dir_log (put_file x (segment_name (Z.of_nat (length (sl_log s)))) (mkFile [] 0))
    (mkSegLog (sl_init s ++ [sl_last s]) [] [] 0).
Proof.
  intros [HL Hne Hb Ht Hsy Hdur Hun] Et Hl Es Hd Hlen.
  assert (Ec : concat (sl_init s ++ [sl_last s]) = sl_log s)
    by (rewrite concat_app; unfold sl_log; simpl; by rewrite app_nil_r).
  assert (Ef : layout 0 (sl_init s ++ [sl_last s]) =
               layout 0 (sl_init s) ++ [(sl_start s, sl_file s)]).
  { rewrite layout_app. unfold sl_file, sl_start. rewrite Es. unfold sl_data.
    by rewrite Et, app_nil_r. }
  assert (Hne' : Forall (fun seg => seg <> []) (sl_init s ++ [sl_last s]))
    by (rewrite Forall_app, Forall_singleton; by split).
  split; simpl; try done.
  - unfold sl_start, sl_file, sl_data. simpl. rewrite Ec, Ef.
    apply listing_put; [by left|by unfold fits; lia|]. rewrite <- Ef.
    rewrite <- Ec. by apply layout_lt.
  - unfold sl_log. simpl. by rewrite app_nil_r, Ec.
  - apply torn_nil.
  - rewrite Ef. intros p. rewrite elem_of_app, list_elem_of_singleton. intros [Hp| ->]; [|done].
    by apply Hdur.
Qed.

Lemma dir_log_first x :
  listing x [] -> dir_log (put_file x (segment_name 0) (mkFile [] 0)) (mkSegLog [] [] [] 0).
Proof.
  intros HL. split; simpl;
    [|apply Forall_nil_2|apply Forall_nil_2|apply torn_nil|lia|by intros p ?%elem_of_nil|done].
  apply (listing_put x []); [by left|done|constructor].
Qed.

(** ** [open] *)

(** A directory whose last segment, if it has one, has a durable entry. *)
Definition dir_ready (x : Dir) (log : list bytes) (a : nat) : Prop :=
  (listing x [] /\ log = [] /\ a = 0%nat) \/
  (exists s, dir_log x s /\ log = sl_log s /\ durable_upto s a /\
     segment_name (sl_start s) ∈ d_durable x).

Lemma settled_ready x log a : settled x -> dir_good x log a -> dir_ready x log a.
Proof.
  intros Hset [?|(s & Hs & -> & Ha)]; [by left|right]. exists s. split_and!; try done.
  rewrite Hset, elem_of_dom. eexists. pose proof Hs as [HL _ _ _ _ _ _].
  apply (listing_lookup _ _ _ _ HL). rewrite elem_of_app, list_elem_of_singleton. by right.
Qed.

(** [open] of a directory with such a last segment finds the log: with no failing call it
    succeeds, and whenever it succeeds it replays the log and leaves it ready. *)
Lemma reopened_ok x s w w' a :
  get_dir (w_disk w) (w_active w) = Some x -> dir_log x s ->
  segment_name (sl_start s) ∈ d_durable x -> durable_upto s a ->
  pointer_ok (w_disk w) (w_active w) (w_generation w) ->
  reopened (w_active w) s (Z.of_nat (length (sl_log s))) w w' ->
  wal_ok w' (sl_log s) a.
Proof.
  intros Hx Hs Hdur [Ha Hd] Hp (io & n & Hn & Hn0 & Hmin & ->).
  pose proof Hs as [HL _ Hb _ Hsy _ _].
  unfold sl_log in Hb. rewrite Forall_app in Hb. destruct Hb as [_ Hb].
  set (s' := mkSegLog (sl_init s) (sl_last s) [] n).
  assert (Hda : durable_upto s' a).
  { split; [done|]. unfold s'. simpl. etrans; [|exact Hmin].
    pose proof (frames_take_le (a - length (concat (sl_init s))) (sl_last s)). lia. }
  destruct (sl_torn s) as [|t0 t] eqn:Et.
  - exists x, s. unfold wal_at, ready. rewrite Et. by split_and!.
  - exists (put_file x (segment_name (sl_start s)) (sl_file s')), s'. simpl.
    split; [|done]. split; [|split; [|split; [done|split]]]; simpl.
    + unfold sl_file, sl_data. simpl. rewrite app_nil_r. by apply get_dir_set_file.
    + apply (dir_log_put x s s'); unfold s', sl_data; simpl; auto using torn_nil.
      by rewrite app_nil_r.
    + apply pointer_ok_set_file; [done|]. apply segment_name_not_current.
    + intros _. by split_and!.
Qed.

(** The first segment of an empty directory. *)
Lemma create_first_ok w x :
  w_fd w = None -> w_failed w = false -> w_next_lsn w = 0 ->
  get_dir (w_disk w) (w_active w) = Some x -> listing x [] ->
  pointer_ok (w_disk w) (w_active w) (w_generation w) ->
  exists ok w', create_first w = (ok, w') /\
    (w_io w = [] -> ok = true /\ w_io w' = []) /\ (ok = true -> wal_ok w' [] 0).
Proof.
  intros Hfd Hfail Hn Hx HL Hp. unfold create_first, open_active.
  destruct (sys_ok_cases (set_fd None w)) as (ok & io & -> & Hio). simpl in *.
  destruct ok; simpl; [|by eexists _, _; split; [done|]; split; [io_chain|done]].
  rewrite (get_file_dir _ _ _ _ Hx).
  destruct (d_files x !! segment_name 0) as [f|] eqn:E.
  { apply (li_files _ _ HL) in E as (? & ?%elem_of_nil & _); [done|apply is_segment_name]. }
  simpl. unfold sync_directory.
  edestruct sys_ok_cases as (ok & io' & -> & Hio').
  destruct ok; simpl in *; (eexists _, _; split; [done|]; split; [io_chain|]); [|done].
  intros _. pose proof (dir_log_first _ HL) as Hs. apply dir_log_sync_dir in Hs.
  eexists _, (mkSegLog [] [] [] 0). split; [|done]. split; [|split; [exact Hs|split; [by split; simpl; lia|split]]]; simpl.
  - unfold sync_dir_entries. erewrite get_dir_set_file by done.
    destruct (w_active w) as [g|]; simpl; [by rewrite lookup_insert_eq|done].
  - apply pointer_ok_sync_dir.
    + apply pointer_ok_set_file; [done|apply segment_name_not_current].
    + intros g Hg. rewrite Hg in *. unfold set_file. rewrite Hx. simpl. by rewrite lookup_insert_eq.
  - intros _. unfold ready. simpl. split_and!; try done. rewrite elem_of_dom.
    by rewrite lookup_insert_eq.
Qed.

(** [open] of a disk with such a directory: with no failing call it succeeds,
    and whenever it succeeds it has replayed the log and left it ready. *)
Lemma open_directory_ok w x log a :
  w_fd w = None -> w_failed w = false ->
  pointer_ok (w_disk w) (w_active w) (w_generation w) ->
  get_dir (w_disk w) (w_active w) = Some x -> dir_ready x log a ->
  Z.of_nat (length log) < 2 ^ 64 ->
  exists ok seen w', open_directory crc32c w = (ok, seen, w') /\
    (w_io w = [] -> ok = true /\ w_io w' = []) /\
    (ok = true -> seen = log /\ wal_ok w' log a).
Proof.
  intros Hfd Hfail Hp Hx Hg Hlen. unfold open_directory.
  destruct (sys_ok_cases w) as (ok & io & -> & Hio). simpl. rewrite Hx.
  destruct ok; simpl; [|by eexists _, _, _; split; [done|]; split; [io_chain|done]].
  destruct Hg as [(HL & -> & ->)|(s & Hs & -> & Ha & Hdur)].
  - rewrite (segment_files_listing _ _ HL). simpl. rewrite Hfd.
    assert (exists ok' io', match w_active w with
        | Some _ => sys_ok (set_next_lsn 0 (set_io io w))
        | None => (true, set_next_lsn 0 (set_io io w)) end =
        (ok', set_io io' (set_next_lsn 0 w)) /\ (w_io w = [] -> ok' = true /\ io' = []))
      as (ok' & io' & -> & Hio').
    { destruct (w_active w); [|exists true, io; split; [done|io_chain]].
      destruct (sys_ok_cases (set_next_lsn 0 (set_io io w))) as (ok' & io' & -> & H).
      exists ok', io'. split; [done|]. intros E. apply H. by apply Hio. }
    destruct ok'; simpl; [|by eexists _, _, _; split; [done|]; split; [io_chain|done]].
    destruct (create_first_ok (set_io io' (set_next_lsn 0 w)) x) as (ok & w' & -> & H1 & H2);
      [done..|]. eexists _, _, _. split; [done|]. split; [|by auto].
    intros E. apply H1. by apply Hio'.
  - pose proof Hs as [HL Hne Hb _ _ _ _]. rewrite (segment_files_listing _ _ HL), fmap_app.
    destruct (replay_all (w_active w) s (sl_init s) 0 [] (set_next_lsn 0 (set_io io w)) x)
      as (ok & seen & w' & E & H1 & H2); [done|done| | |].
    { apply Forall_forall. intros [s0 f] Hin. apply (listing_lookup _ _ _ _ HL).
      rewrite elem_of_app. by left. }
    { unfold sl_log in Hb. rewrite Forall_app in Hb. by destruct Hb. }
    cbn [fmap list_fmap fst w_active set_next_lsn set_io] in E |- *. rewrite E. destruct ok.
    + destruct H2 as [-> Hr]; [done|]. change (concat (sl_init s) ++ sl_last s) with (sl_log s) in *.
      simpl in Hr. rewrite wrap_id in Hr by (unfold fits; lia).
      apply reopened_weaken in Hr.
      assert (Hfd' : w_fd w' = Some (w_active w, segment_name (sl_start s)))
        by (destruct Hr as (? & ? & _ & _ & _ & ->); done).
      simpl. rewrite Hfd'. eexists _, _, _. split; [done|]. split; [|intros _; split; [done|]].
      * intros E0. split; [done|]. apply H1. by apply Hio.
      * by apply (reopened_ok x s w w').
    + simpl. eexists _, _, _. split; [done|]. split; [|done].
      intros E0. apply H1. by apply Hio.
Qed.

Lemma open_ok k io sb x act gen log a :
  pointer_ok k act gen -> get_dir k act = Some x -> dir_ready x log a ->
  Z.of_nat (length log) < 2 ^ 64 ->
  exists ok seen w', open crc32c (new_wal k io sb) = (ok, seen, w') /\
    (io = [] -> ok = true /\ w_io w' = []) /\
    (ok = true -> seen = log /\ wal_ok w' log a).
Proof.
  intros Hp Hx Hg Hlen. unfold open.
  destruct (sys_ok_cases (set_failed false (new_wal k io sb))) as (ok & io1 & -> & Hio1).
  simpl in Hio1. destruct ok;
    [|by eexists _, _, _; split; [done|]; split; [intros E; destruct (Hio1 E)|]].
  cbn [negb]. unfold get_file, get_dir at 1. simpl. unfold pointer_ok in Hp.
  destruct act as [g|].
  - destruct Hp as (-> & Hf & Hd & f & H1 & H2 & H3 & H4). rewrite H1, H3, read_to_string by done.
    edestruct (open_directory_ok (set_active (Some (gen_name gen)) gen
      (set_active None 0 (set_io io1 (set_failed false (new_wal k io sb)))))) as (ok & seen & w' & E & Ha & Hb);
      [done|done|simpl; eauto 10|exact Hx|exact Hg|done|].
    rewrite E. eexists _, _, _. split; [done|]. split; [|done]. intros E0. apply Ha. by apply Hio1.
  - destruct Hp as (H1 & H2 & ->). rewrite H1.
    edestruct (open_directory_ok (set_active None 0 (set_io io1 (set_failed false (new_wal k io sb)))))
      as (ok & seen & w' & E & Ha & Hb); [done|done|done|exact Hx|exact Hg|done|].
    rewrite E. eexists _, _, _. split; [done|]. split; [|done]. intros E0. apply Ha. by apply Hio1.
Qed.

(** ** Crash and recovery *)

(** A crash after which CURRENT is the durable one. *)
Definition crash_from (k k' : Disk) : Prop :=
  crash_segs (k_root k) (k_root k') /\
  match k_current k with
  | None => d_files (k_root k') !! current_name = None
  | Some f => exists f', d_files (k_root k') !! current_name = Some f' /\ crash_file f f'
  end /\
  k_current k' = d_files (k_root k') !! current_name /\
  (forall g x, g ∈ k_gens_durable k -> k_gens k !! g = Some x ->
     exists x', k_gens k' !! g = Some x' /\ crash_segs x x') /\
  k_gens_durable k' = dom (k_gens k').

Lemma crash_disk_from k k' act gen :
  pointer_ok k act gen -> crash_disk k k' -> crash_from k k'.
Proof.
  intros Hp (Hr & (c & Hc & Hc') & Hcur & Hg & Hgd).
  assert (c = k_current k) as ->.
  { unfold pointer_ok in Hp. destruct act; [|destruct Hc; naive_solver congruence].
    destruct Hp as (_ & _ & _ & f & H1 & H2 & _). destruct Hc; congruence. }
  split; [by apply crash_dir_segs|]. split_and!; try done.
  intros g x Hd Hx. destruct (Hg g x Hd Hx) as (x' & ? & ?). eauto using crash_dir_segs.
Qed.

(** A disk that holds a settled log; [open] finds it. *)
Definition disk_holds (k : Disk) (log : list bytes) : Prop :=
  exists act gen x, pointer_ok k act gen /\ get_dir k act = Some x /\ settled x /\
    dir_good x log (length log).

Lemma crash_from_holds k k' act gen x log a :
  pointer_ok k act gen -> get_dir k act = Some x -> dir_good x log a -> crash_from k k' ->
  exists log', disk_holds k' log' /\ log' `prefix_of` log /\ take a log `prefix_of` log'.
Proof.
  intros Hp Hx Hgood (Hr & Hc & Hcur & Hg & Hgd).
  unfold pointer_ok in Hp. destruct act as [g|]; simpl in Hx.
  - destruct Hp as (-> & Hf & Hd & f & H1 & H2 & H3 & H4). rewrite H2 in Hc.
    destruct (Hg _ _ Hd Hx) as (x' & Hx' & Hcr).
    destruct (crash_dir_good _ _ _ _ Hgood Hcr) as (log' & Hg' & Hp1 & Hp2).
    exists log'. split; [|done]. exists (Some (gen_name gen)), gen, x'.
    split; [|by split_and!; try done; apply Hcr].
    destruct Hc as (f' & E & Hcf). apply crash_file_synced in Hcf as ->; [|done].
    split_and!; try done.
    + rewrite Hgd, elem_of_dom. eauto.
    + exists f. by rewrite Hcur, E.
  - injection Hx as <-. destruct Hp as (H1 & H2 & H3). rewrite H2 in Hc.
    destruct (crash_dir_good _ _ _ _ Hgood Hr) as (log' & Hg' & Hp1 & Hp2).
    exists log'. split; [|done]. exists None, 0, (k_root k').
    split_and!; try done; [|by apply Hr]. split_and!; try done. congruence.
Qed.

Lemma crash_wal_ok w log a k' :
  wal_ok w log a -> crash_disk (w_disk w) k' ->
  exists log', disk_holds k' log' /\ log' `prefix_of` log /\ take a log `prefix_of` log'.
Proof.
  intros (x & s & (Hx & Hs & Ha & Hp & _) & <-) Hc.
  apply (crash_from_holds (w_disk w) k' (w_active w) (w_generation w) x); try done.
  - right. eauto.
  - by eapply crash_disk_from.
Qed.

Lemma disk_holds_open k log io sb :
  disk_holds k log -> Z.of_nat (length log) < 2 ^ 64 ->
  exists ok seen w', open crc32c (new_wal k io sb) = (ok, seen, w') /\ (io = [] -> ok = true) /\
    (ok = true -> seen = log /\ wal_ok w' log (length log)).
Proof.
  intros (act & gen & x & Hp & Hx & Hset & Hg) Hlen.
  destruct (open_ok k io sb x _ _ log (length log) Hp Hx (settled_ready _ _ _ Hset Hg) Hlen) as (ok & seen & w' & E & H1 & H2).
  exists ok, seen, w'. split_and!; try done. intros E0. by apply H1.
Qed.

(** A process that ends while its log is healthy leaves a disk that [open] reads
    back as it is; what was not durable still is not. *)
Lemma wal_ok_reopen w log a io sb :
  wal_ok w log a -> w_failed w = false -> Z.of_nat (length log) < 2 ^ 64 ->
  exists ok seen w', open crc32c (new_wal (w_disk w) io sb) = (ok, seen, w') /\
    (io = [] -> ok = true) /\ (ok = true -> seen = log /\ wal_ok w' log a).
Proof.
  intros (x & s & (Hx & Hs & Ha & Hp & Hr) & <-) Hf Hlen. destruct (Hr Hf) as (_ & _ & Hdur & _).
  destruct (open_ok (w_disk w) io sb x _ _ (sl_log s) a Hp Hx) as (ok & seen & w' & E & H1 & H2);
    [right; by exists s|done|].
  exists ok, seen, w'. split_and!; try done. intros E0. by apply H1.
Qed.

(** ** [sync], [rotate], [append] *)

Lemma wal_ok_weaken w log a b : wal_ok w log b -> (a <= b)%nat -> wal_ok w log a.
Proof.
  intros (x & s & (Hx & Hs & [Ha Hd] & Hr) & E) Hab. exists x, s. split; [|done].
  split; [done|]. split; [done|]. split; [|done]. split; [lia|]. etrans; [|exact Hd].
  rewrite <- (Nat.min_l (a - length (concat (sl_init s))) (b - length (concat (sl_init s)))) by lia.
  rewrite <- take_take. apply frames_take_le.
Qed.

Definition synced (s : SegLog) : SegLog :=
  mkSegLog (sl_init s) (sl_last s) (sl_torn s) (length (sl_data s)).

Lemma durable_synced s : durable_upto (synced s) (length (sl_log s)).
Proof.
  split; [done|]. simpl. unfold sl_data. rewrite length_app.
  pose proof (frames_take_le (length (sl_log s) - length (concat (sl_init s))) (sl_last s)). lia.
Qed.

Lemma wal_at_file w x s a : wal_at w x s a ->
  get_file (w_disk w) (w_active w) (segment_name (sl_start s)) = Some (sl_file s).
Proof.
  intros (Hx & Hs & _). rewrite (get_file_dir _ _ _ _ Hx).
  apply (listing_lookup _ _ _ _ (dl_listing _ _ Hs)). rewrite elem_of_app, list_elem_of_singleton.
  by right.
Qed.

(** Rewriting the last segment of a ready log. *)
Lemma wal_at_put w x s a s' a' :
  wal_at w x s a -> w_failed w = false ->
  sl_init s' = sl_init s -> Forall body_ok (sl_last s') -> torn_ok (sl_torn s') ->
  (sl_synced s' <= length (sl_data s'))%nat -> durable_upto s' a' ->
  forall w',
  w_disk w' = set_file (w_disk w) (w_active w) (segment_name (sl_start s)) (sl_file s') ->
  w_active w' = w_active w -> w_generation w' = w_generation w ->
  (w_failed w' = false -> w_fd w' = w_fd w /\ sl_torn s' = [] /\
     w_next_lsn w' = Z.of_nat (length (sl_log s')) /\
     w_active_size w' = Z.of_nat (length (frames crc32c (sl_last s')))) ->
  wal_at w' (put_file x (segment_name (sl_start s)) (sl_file s')) s' a'.
Proof.
  intros (Hx & Hs & Ha & Hp & Hr) Hf Ei Hb Ht Hsy Ha' w' Ek Eact Eg Hfl.
  destruct (Hr Hf) as (Hfd & _ & Hd & _ & _). unfold wal_at. rewrite Ek, Eact, Eg.
  split; [|split; [|split; [done|split]]].
  - by apply get_dir_set_file.
  - apply dir_log_put; auto.
  - apply pointer_ok_set_file; [done|apply segment_name_not_current].
  - intros E. destruct (Hfl E) as (? & ? & ? & ?).
    assert (Es : sl_start s' = sl_start s) by (unfold sl_start; by rewrite Ei).
    unfold ready. rewrite Es, Eact. split_and!; try done. congruence.
Qed.

Lemma dir_log_last x s : dir_log x s -> Forall body_ok (sl_last s).
Proof. intros [_ _ Hb _ _ _ _]. unfold sl_log in Hb. rewrite Forall_app in Hb. by destruct Hb. Qed.

Lemma sync_data_ok w x s a :
  wal_at w x s a -> w_failed w = false ->
  exists ok w', sync_data_fd (w_active w) (segment_name (sl_start s)) w = (ok, w') /\
    (w_io w = [] -> ok = true /\ w_io w' = []) /\
    (ok = false -> exists io, w' = set_io io w) /\
    (ok = true ->
       wal_at w' (put_file x (segment_name (sl_start s)) (sl_file (synced s))) (synced s)
         (length (sl_log s)) /\
       exists io k, w' = set_disk k (set_io io w)).
Proof.
  intros H Hf. unfold sync_data_fd.
  destruct (sys_ok_cases w) as (ok & io & -> & Hio). destruct ok; simpl.
  2: { eexists _, _. split; [done|]. split_and!; [by intros E; destruct (Hio E)|by eauto|done]. }
  eexists _, _. split; [done|]. split_and!; [by intros E; destruct (Hio E)|done|].
  intros _. split; [|eauto]. pose proof H as (_ & Hs & _ & _ & Hr).
  destruct (Hr Hf) as (Hfd & Ht & Hd & Hn & Hsz).
  apply (wal_at_put w x s a); try done.
  - exact (dir_log_last x s Hs).
  - exact (dl_torn _ _ Hs).
  - apply durable_synced.
  - simpl. unfold sync_file. by rewrite (wal_at_file _ _ _ _ H).
Qed.

(** [sync] makes the whole log durable, or stops the log. *)
Lemma sync_ok w log a :
  wal_ok w log a ->
  exists ok w' a', sync w = (ok, w') /\ wal_ok w' log a' /\
    (if ok then a' = length log else a' = a) /\
    (w_failed w = false -> if ok then w_failed w' = false else w_failed w' = true) /\
    (w_io w = [] -> w_failed w = false -> ok = true /\ w_io w' = []).
Proof.
  intros (x & s & H & <-). unfold sync. destruct (w_fd w) as [[d name]|] eqn:Efd.
  2: { exists false, w, a. split; [done|]. split; [by exists x, s|]. split; [done|].
       pose proof H as (_ & _ & _ & _ & Hr). split; intros; destruct Hr as [? _]; congruence. }
  destruct (w_failed w) eqn:Ef.
  { exists false, w, a. split; [done|]. split; [by exists x, s|]. by split_and!. }
  pose proof H as (_ & _ & _ & _ & Hr). destruct (Hr Ef) as (Hfd & _). rewrite Efd in Hfd.
  injection Hfd as -> ->.
  destruct (sync_data_ok w x s a H Ef) as (ok & w' & -> & Hio & H0 & H1).
  destruct ok; simpl.
  - destruct (H1 eq_refl) as (Hw & io & k & ->). eexists true, _, (length (sl_log s)).
    split; [done|]. split; [eexists _, (synced s); by split|]. split; [done|]. split; [done|]. intros E _. by apply Hio.
  - destruct (H0 eq_refl) as (io & ->). eexists false, _, a. split; [done|].
    split; [|split; [done|split; [done|by intros E _; destruct (Hio E)]]].
    exists x, s. split; [|done]. destruct H as (? & ? & ? & ? & ?). by split_and!.
Qed.

Lemma next_segment_absent x s :
  dir_log x s -> sl_last s <> [] -> Z.of_nat (length (sl_log s)) < 2 ^ 64 ->
  d_files x !! segment_name (Z.of_nat (length (sl_log s))) = None.
Proof.
  intros Hs Hl Hlen. destruct (_ !! _) as [f|] eqn:E; [|done]. exfalso.
  pose proof Hs as [HL Hne _ _ _ _ _].
  apply (li_files _ _ HL) in E as (z & Hin & E); [|apply is_segment_name].
  pose proof (li_fits _ _ HL) as Hf. rewrite Forall_forall in Hf. specialize (Hf _ Hin).
  apply segment_name_inj in E; [|by unfold fits; lia|done].
  rewrite elem_of_app, list_elem_of_singleton in Hin. unfold sl_log in E. rewrite length_app in E.
  destruct (sl_last s); [done|]. cbn [length] in E. destruct Hin as [Hin|[= -> ->]].
  - apply layout_starts in Hin; [|done]. simpl in Hin. lia.
  - unfold sl_start in E. lia.
Qed.

(** The new segment a rotation creates, before and after its entry is durable. *)
Definition rotated (s : SegLog) : SegLog := mkSegLog (sl_init s ++ [sl_last s]) [] [] 0.

Lemma rotated_log s : sl_log (rotated s) = sl_log s.
Proof. unfold sl_log, rotated. simpl. rewrite concat_app. simpl. by rewrite !app_nil_r. Qed.

Lemma rotated_durable s : durable_upto (rotated s) (length (sl_log s)).
Proof. split; [by rewrite rotated_log|]. simpl. rewrite take_nil. simpl. lia. Qed.

Lemma rotate_create_at w x s a :
  wal_at w x s a -> ready w x s -> sl_last s <> [] -> sl_synced s = length (sl_data s) ->
  Z.of_nat (length (sl_log s)) < 2 ^ 64 ->
  let name := segment_name (Z.of_nat (length (sl_log s))) in
  let y := put_file x name (mkFile [] 0) in
  let k := set_file (w_disk w) (w_active w) name (mkFile [] 0) in
  get_dir k (w_active w) = Some y /\ dir_log y (rotated s) /\
  pointer_ok k (w_active w) (w_generation w) /\
  get_dir (sync_dir_entries k (w_active w)) (w_active w) =
    Some (mkDir (d_files y) (dom (d_files y))) /\
  pointer_ok (sync_dir_entries k (w_active w)) (w_active w) (w_generation w).
Proof.
  intros (Hx & Hs & Ha & Hp & _) (Hfd & Ht & Hd & Hn & Hsz) Hl Hsy Hlen name y k.
  assert (Hy : get_dir k (w_active w) = Some y) by (by apply get_dir_set_file).
  assert (Hpk : pointer_ok k (w_active w) (w_generation w))
    by (apply pointer_ok_set_file; [done|apply segment_name_not_current]).
  split; [done|]. split; [by apply dir_log_new|]. split; [done|]. split.
  - unfold sync_dir_entries. rewrite Hy. destruct (w_active w); simpl; [by rewrite lookup_insert_eq|done].
  - apply pointer_ok_sync_dir; [done|]. intros g Hg. rewrite Hg in Hy. simpl in Hy. by rewrite Hy.
Qed.

(** A rotation keeps the log and leaves an empty active segment, or stops the log. *)
Lemma rotate_ok w log a :
  wal_ok w log a -> w_failed w = false -> 0 < w_active_size w ->
  Z.of_nat (length log) < 2 ^ 64 ->
  exists ok w' a', rotate w = (ok, w') /\ wal_ok w' log a' /\ (a <= a')%nat /\
    w_failed w' = negb ok /\ (w_io w = [] -> ok = true /\ w_io w' = []).
Proof.
  intros (x & s & H & <-) Hf Hpos Hlen. unfold rotate. rewrite Hf.
  pose proof H as (_ & Hs & [Ha _] & _ & Hr). destruct (Hr Hf) as (Hfd & Ht & Hd & Hn & Hsz).
  rewrite Hfd. destruct (sync_data_ok w x s a H Hf) as (ok & w1 & -> & Hio & H0 & H1).
  destruct ok; cbn [negb].
  2: { destruct (H0 eq_refl) as (io & ->). eexists false, _, a. split; [done|].
       split; [|split; [done|split; [done|]]]; [|by intros E; destruct (Hio E)].
       exists x, s. split; [|done]. destruct H as (? & ? & ? & ? & ?). by split_and!. }
  destruct (H1 eq_refl) as (Hw1 & io & k1 & ->). clear H0 H1.
  assert (Hl : sl_last s <> []).
  { intros E. rewrite Hsz, E in Hpos. by vm_compute in Hpos. }
  pose proof Hw1 as (Hx1 & Hs1 & Ha1 & Hp1 & Hr1). specialize (Hr1 Hf).
  unfold open_active. simpl in *.
  edestruct sys_ok_cases as (ok & io2 & -> & Hio2). simpl in *. destruct ok; cbn [negb].
  2: { eexists false, _, _. split; [done|]. split; [eexists _, (synced s); split; [|done]|].
       - split; [exact Hx1|]. split; [exact Hs1|]. split; [exact Ha1|]. by split.
       - split; [done|]. split; [done|]. intros E. destruct (Hio E) as [_ E']. by destruct (Hio2 E'). }
  rewrite (get_file_dir _ _ _ _ Hx1), Hn.
  pose proof (next_segment_absent _ _ Hs1 Hl Hlen) as Habs.
  change (sl_log (synced s)) with (sl_log s) in Habs. rewrite Habs. cbn [negb].
  destruct (rotate_create_at _ _ _ _ Hw1 Hr1 Hl) as (Hy & Hsy & Hpy & Hy' & Hpy'); [done|done|].
  simpl in Hy, Hpy, Hy', Hpy'. unfold sync_directory. simpl.
  edestruct sys_ok_cases as (ok & io3 & -> & Hio3). simpl in *. destruct ok; cbn [negb].
  2: { eexists false, _, _. split; [done|]. split; [eexists _, (rotated s); split; [|apply rotated_log]|].
       - split; [exact Hy|]. split; [exact Hsy|]. split; [apply rotated_durable|]. by split.
       - split; [done|]. split; [done|]. intros E. destruct (Hio E) as [_ E'].
         destruct (Hio2 E') as [_ E2]. by destruct (Hio3 E2). }
  eexists true, _, _. split; [done|]. split; [eexists _, (rotated s); split; [|apply rotated_log]|].
  - split; [exact Hy'|]. split; [exact (dir_log_sync_dir _ _ Hsy)|]. split; [apply rotated_durable|].
    split; [done|]. intros _. unfold ready. simpl.
    unfold sl_start, rotated. simpl. rewrite concat_app. simpl. rewrite app_nil_r.
    split_and!; [done|done| |by fold (rotated s); rewrite rotated_log|done].
    by rewrite elem_of_dom, lookup_insert_eq.
  - split; [done|]. split; [done|]. intros E. destruct (Hio E) as [_ E'].
    destruct (Hio2 E') as [_ E2]. by destruct (Hio3 E2).
Qed.

Lemma write_loop_spec io p d io' ok :
  write_loop io p = (d, io', ok) ->
  if ok then d = p else d `prefix_of` p /\ (length d < length p)%nat.
Proof.
  revert p d io' ok. induction io as [|o io IH]; intros p d io' ok; destruct p as [|b p];
    try (simpl; intros [= <- <- <-]; done).
  destruct o as [| | |n]; cbn [write_loop]; intros H.
  - by injection H as <- <- <-.
  - injection H as <- <- <-. split; [apply prefix_nil|simpl; lia].
  - by apply IH in H.
  - destruct n as [|n]; [injection H as <- <- <-; split; [apply prefix_nil|simpl; lia]|].
    destruct (write_loop io (drop (S n) (b :: p))) as [[d1 i] o] eqn:E. injection H as <- <- <-.
    apply IH in E. destruct o.
    + rewrite E. exact (take_drop (S n) (b :: p)).
    + destruct E as [Hp Hlt]. split.
      * pose proof (prefix_app (take (S n) (b :: p)) _ _ Hp) as Hq. by rewrite take_drop in Hq.
      * change (length (take (S n) (b :: p) ++ d1) < length (b :: p))%nat.
        rewrite length_drop in Hlt. rewrite length_app, length_take. lia.
Qed.

Lemma write_loop_ok p : write_loop [] p = (p, [], true).
Proof. by destruct p. Qed.

Lemma frames_snoc bs b : frames crc32c (bs ++ [b]) = frames crc32c bs ++ frame crc32c b.
Proof. rewrite frames_app. unfold frames. simpl. by rewrite app_nil_r. Qed.

(** The segment after writing [data] at its end. *)
Lemma write_fd_at w x s a data :
  wal_at w x s a ->
  write_fd (w_active w) (segment_name (sl_start s)) data w =
  let '(written, io, ok) := write_loop (w_io w) data in
  (ok, set_disk (set_file (w_disk w) (w_active w) (segment_name (sl_start s))
                   (mkFile (sl_data s ++ written) (sl_synced s))) (set_io io w)).
Proof.
  intros H. unfold write_fd. destruct (write_loop _ _) as [[written io] ok].
  unfold append_file. by rewrite (wal_at_file _ _ _ _ H).
Qed.

(** The outcomes of an [append] that reaches the write. *)
Lemma append_frame_ok w log a b do_sync :
  wal_ok w log a -> w_failed w = false -> body_ok b -> Z.of_nat (length log) < 2 ^ 64 - 1 ->
  exists ok w' log' a', append_frame crc32c b do_sync w = (ok, w') /\ wal_ok w' log' a' /\
    (if ok then log' = log ++ [b] /\ w_failed w' = false /\
                a' = (if do_sync then length log' else a)
     else a' = a /\ (log' = log \/ log' = log ++ [b]) /\ w_failed w' = true) /\
    (w_io w = [] -> ok = true /\ w_io w' = []).
Proof.
  intros (x & s & H & <-) Hf Hb Hlen. unfold append_frame.
  pose proof H as (_ & Hs & Ha & _ & Hr). destruct (Hr Hf) as (Hfd & Ht & Hd & Hn & Hsz).
  rewrite Hfd, (write_fd_at _ _ _ _ _ H).
  assert (Hdat : sl_data s = frames crc32c (sl_last s)) by (unfold sl_data; by rewrite Ht, app_nil_r).
  pose proof (dl_synced _ _ Hs) as Hsy. rewrite Hdat in Hsy.
  destruct (write_loop (w_io w) (frame crc32c b)) as [[written io] ok] eqn:Ew.
  assert (Hio : w_io w = [] -> ok = true /\ io = [])
    by (intros E; rewrite E, write_loop_ok in Ew; by injection Ew as <- <- <-).
  apply write_loop_spec in Ew. destruct ok; cbn [negb].
  - subst written. set (s' := mkSegLog (sl_init s) (sl_last s ++ [b]) [] (sl_synced s)).
    assert (Hl' : sl_log s' = sl_log s ++ [b]) by (unfold sl_log, s'; simpl; by rewrite app_assoc).
    set (w1 := set_next_lsn _ _).
    assert (Hw1 : wal_ok w1 (sl_log s ++ [b]) a).
    { eexists _, s'. split; [|done].
      eapply (wal_at_put w x s a s' a); try done.
      - simpl. rewrite Forall_app, Forall_singleton. split; [by apply (dir_log_last x)|done].
      - apply torn_nil.
      - unfold s', sl_data. simpl. rewrite frames_snoc, app_nil_r, length_app. lia.
      - destruct Ha as [Ha1 Ha2]. split; [rewrite Hl', length_app; lia|]. unfold s'. simpl.
        etrans; [|exact Ha2]. unfold sl_log in Ha1. rewrite length_app in Ha1.
        by rewrite take_app_le by lia.
      - unfold w1. simpl. unfold sl_file. rewrite Hdat. unfold sl_data. simpl.
        by rewrite frames_snoc, app_nil_r.
      - intros _. split; [done|]. split; [done|]. unfold w1. simpl. rewrite Hl', Hn, Hsz.
        rewrite frames_snoc, !length_app. simpl. rewrite wrap_id by (unfold fits; lia). split; lia. }
    destruct do_sync.
    + destruct (sync_ok w1 _ _ Hw1) as (ok & w' & a' & -> & Hw' & Ha' & Hfl & Hp).
      eexists ok, w', _, a'. split; [done|]. split; [exact Hw'|].
      specialize (Hfl Hf). split.
      * destruct ok; [by subst|]. split_and!; auto.
      * intros E. destruct (Hio E) as [_ ->]. by apply Hp.
    + eexists true, w1, _, a. split; [done|]. split; [exact Hw1|]. split; [done|].
      intros E. by destruct (Hio E).
  - destruct Ew as [Hpre Hlt]. eexists false, _, (sl_log s), a. split; [done|]. split; [|split; [by auto|]].
    + set (s' := mkSegLog (sl_init s) (sl_last s) written (sl_synced s)).
      eexists _, s'. split; [|done]. eapply (wal_at_put w x s a s' a); try done.
      * exact (dir_log_last x s Hs).
      * exists b. split; [done|]. split; [done|]. cbn [sl_torn s']. lia.
      * unfold s', sl_data. simpl. rewrite length_app. lia.
      * unfold s', sl_file, sl_data. simpl. unfold sl_data. by rewrite Ht, app_nil_r.
    + intros E. by destruct (Hio E).
Qed.

Lemma append_guard_body b :
  bool_decide (b = []) || (kMaxBody <? Z.of_nat (length b)) = false <-> body_ok b.
Proof.
  rewrite orb_false_iff, bool_decide_eq_false, Z.ltb_ge. unfold body_ok.
  destruct b; simpl; split; intros; split; try lia; try done; naive_solver.
Qed.

(** [append]: every outcome. *)
Lemma append_ok w log a b do_sync :
  wal_ok w log a -> Z.of_nat (length log) < 2 ^ 64 - 1 ->
  exists ok w' log' a', append crc32c b do_sync w = (ok, w') /\ wal_ok w' log' a' /\ (a <= a')%nat /\
    (if ok then body_ok b /\ log' = log ++ [b] /\ w_failed w = false /\ w_failed w' = false /\
                (do_sync = true -> a' = length log')
     else (log' = log \/ log' = log ++ [b]) /\
          ((w' = w /\ ~ (w_failed w = false /\ body_ok b)) \/ w_failed w' = true)) /\
    (w_io w = [] -> w_failed w = false -> body_ok b -> ok = true /\ w_io w' = []).
Proof.
  intros Hw Hlen. unfold append.
  destruct (bool_decide (w_fd w = None) || _ || _ || _) eqn:G.
  { assert (Hno : ~ (w_failed w = false /\ body_ok b)).
    { intros [Hf Hb%append_guard_body]. destruct Hw as (x & s & (_ & _ & _ & _ & Hr) & _).
      destruct (Hr Hf) as (Hfd & _). rewrite <- orb_assoc, Hb, Hf, Hfd in G. done. }
    exists false, w, log, a. split; [done|]. split; [done|]. split; [done|]. split; [by auto|].
    intros _ Hf Hb. by destruct Hno. }
  rewrite <- orb_assoc, !orb_false_iff in G. destruct G as [[_ Hf] Hb].
  rewrite <- orb_false_iff, append_guard_body in Hb.
  assert (Hgo : forall w1 a1, wal_ok w1 log a1 -> w_failed w1 = false -> (a <= a1)%nat ->
    (w_io w = [] -> w_io w1 = []) ->
    exists ok w' log' a', append_frame crc32c b do_sync w1 = (ok, w') /\ wal_ok w' log' a' /\
      (a <= a')%nat /\
      (if ok then body_ok b /\ log' = log ++ [b] /\ w_failed w = false /\ w_failed w' = false /\
                  (do_sync = true -> a' = length log')
       else (log' = log \/ log' = log ++ [b]) /\
            ((w' = w /\ ~ (w_failed w = false /\ body_ok b)) \/ w_failed w' = true)) /\
      (w_io w = [] -> w_failed w = false -> body_ok b -> ok = true /\ w_io w' = [])).
  { intros w1 a1 Hw1 Hf1 Ha1 Hio1.
    destruct (append_frame_ok w1 log a1 b do_sync Hw1 Hf1 Hb Hlen)
      as (ok & w' & log' & a' & -> & Hw' & Hok & Hio).
    assert (Hlog : (a1 <= length log)%nat).
    { destruct Hw1 as (? & ? & (_ & _ & [? _] & _) & <-). done. }
    exists ok, w', log', a'. split; [done|]. split; [done|].
    split; [|split; [|by intros E _ _; apply Hio, Hio1]].
    - destruct ok; [|by destruct Hok as [-> _]]. destruct Hok as (-> & _ & ->).
      destruct do_sync; [|done]. rewrite length_app. lia.
    - destruct ok; [|by destruct Hok as (-> & ? & ?); auto].
      destruct Hok as (-> & ? & ->). split_and!; try done. by intros ->. }
  destruct ((0 <? w_active_size w) && _) eqn:R; [|by apply (Hgo w a)].
  apply andb_true_iff in R as [R%Z.ltb_lt _].
  destruct (rotate_ok w log a Hw Hf R) as (ok & w1 & a1 & -> & Hw1 & Ha1 & Hf1 & Hio1); [lia|].
  destruct ok; cbn [negb].
  - apply (Hgo w1 a1); try done. intros E. by apply Hio1.
  - exists false, w1, log, a1. split; [done|]. split; [done|]. split; [done|]. split; [by auto|].
    intros E. by destruct (Hio1 E).
Qed.
End recovery.
