(* ===== verification/WalCompact.v ===== *)
(** * WalCompact: compaction of the log

    [compact] of src/src/wal.cc either leaves the running log as it was or installs
    the snapshot, and a crash at any of its system calls recovers one or the
    other. *)

From Stdlib Require Import ZArith Lia.
From stdpp Require Import base tactics list numbers gmap sorting.
From S2P Require Import Prelude Bytes WalFrame Disk Wal WalRecovery.

#[local] Opaque segment_name gen_name to_string.

Section compaction.
Context (crc32c : bytes -> Z) (crc_fits : forall b, fits 32 (crc32c b)).

#[local] Abbreviation wal_ok := (wal_ok crc32c).
#[local] Abbreviation dir_log := (dir_log crc32c).
#[local] Abbreviation sl_data := (sl_data crc32c).
#[local] Abbreviation sl_file := (sl_file crc32c).

(** ** Steps that leave the running log alone *)

(** [w'] differs from [w] in the disk and the calls consumed, and holds the same log. *)
Definition quiet (w w' : Wal) : Prop :=
  w' = set_disk (w_disk w') (set_io (w_io w') w) /\
  forall log a, wal_ok w log a -> wal_ok w' log a.

Lemma quiet_refl w : quiet w w.
Proof. split; [by destruct w|done]. Qed.

Lemma quiet_trans w1 w2 w3 : quiet w1 w2 -> quiet w2 w3 -> quiet w1 w3.
Proof. intros [E1 H1] [E2 H2]. split; [|auto]. rewrite E2, E1. done. Qed.

Lemma quiet_active w w' : quiet w w' -> w_active w' = w_active w.
Proof. intros [-> _]. done. Qed.

Lemma quiet_io w io : quiet w (set_io io w).
Proof. split; [by destruct w|done]. Qed.

Lemma sys_ok_quiet w ok w' : sys_ok w = (ok, w') -> quiet w w' /\ w_disk w' = w_disk w.
Proof.
  destruct (sys_ok_cases w) as (ok' & io & -> & _). intros [= <- <-].
  split; [apply quiet_io|done].
Qed.

Lemma quiet_disk w k :
  (forall x s, get_dir (w_disk w) (w_active w) = Some x -> dir_log x s ->
     pointer_ok (w_disk w) (w_active w) (w_generation w) ->
     exists y, get_dir k (w_active w) = Some y /\ dir_log y s /\
       (forall name, is_segment name = true -> name ∈ d_durable x -> name ∈ d_durable y) /\
       pointer_ok k (w_active w) (w_generation w)) ->
  quiet w (set_disk k w).
Proof.
  intros H. split; [by destruct w|]. intros log a (x & s & (Hx & Hs & Ha & Hp & Hr) & E).
  destruct (H x s Hx Hs Hp) as (y & Hy & Hys & Hd & Hpk). exists y, s. split; [|done].
  split; [done|]. split; [done|]. split; [done|]. split; [done|]. intros Hf.
  destruct (Hr Hf) as (? & ? & ? & ? & ?). unfold ready. split_and!; try done.
  apply Hd; [apply is_segment_name|done].
Qed.

Lemma get_dir_set_other k d d' x : d <> d' -> get_dir (set_dir k d x) d' = get_dir k d'.
Proof.
  intros Hne. destruct d as [g|], d' as [g'|]; simpl; try done.
  rewrite lookup_insert_ne; [done|congruence].
Qed.

(** Anything done to another generation directory. *)
Lemma quiet_set_gen w g x :
  Some g <> w_active w -> quiet w (set_disk (set_dir (w_disk w) (Some g) x) w).
Proof.
  intros Hne. apply quiet_disk. intros y s Hy Hs Hp. exists y.
  rewrite get_dir_set_other by done. by split_and!.
Qed.

Lemma quiet_set_file_gen w g name f :
  Some g <> w_active w -> quiet w (set_disk (set_file (w_disk w) (Some g) name f) w).
Proof.
  intros Hne. unfold set_file. destruct (get_dir _ _); [by apply quiet_set_gen|].
  split; [by destruct w|]. by destruct w.
Qed.

(** Syncing any directory. *)
Lemma quiet_sync_dir w d : quiet w (set_disk (sync_dir_entries (w_disk w) d) w).
Proof.
  apply quiet_disk. intros x s Hx Hs Hp.
  assert (Hpk : pointer_ok (sync_dir_entries (w_disk w) d) (w_active w) (w_generation w)).
  { apply pointer_ok_sync_dir; [done|]. intros g Hg. rewrite Hg in Hx. by eexists. }
  unfold sync_dir_entries in *. destruct (get_dir (w_disk w) d) as [y|] eqn:Hy; [|by exists x].
  destruct (decide (d = w_active w)) as [->|Hne].
  - rewrite Hx in Hy. injection Hy as <-. exists (mkDir (d_files x) (dom (d_files x))).
    split_and!; [|by apply dir_log_sync_dir| |done].
    + destruct (w_active w); simpl; [by rewrite lookup_insert_eq|done].
    + intros name Hn Hd. simpl. rewrite elem_of_dom. by apply (li_durable _ _ (dl_listing _ _ _ Hs)).
  - exists x. split_and!; try done. destruct d as [g|]; [by rewrite get_dir_set_other|].
    destruct (w_active w) as [g|]; [|done]. exact Hx.
Qed.

(** Writing a file of the root that is neither a segment nor CURRENT. *)
Lemma quiet_set_file_root w name f :
  is_segment name = false -> name <> current_name ->
  quiet w (set_disk (set_file (w_disk w) None name f) w).
Proof.
  intros Hseg Hcur. apply quiet_disk. intros x s Hx Hs Hp.
  assert (Hpk : pointer_ok (set_file (w_disk w) None name f) (w_active w) (w_generation w))
    by (by apply pointer_ok_set_file).
  destruct (w_active w) as [g|]; [by exists x|]. injection Hx as <-.
  exists (put_file (k_root (w_disk w)) name f). split_and!; try done.
  destruct Hs as [HL ? ? ? ? ? ?]. split; try done.
  apply (listing_ext _ _ _ HL).
  - intros n Hn. simpl. rewrite lookup_insert_ne; [done|]. intros ->. congruence.
  - intros n Hn Hd. simpl. rewrite lookup_insert_ne; [by apply (li_durable _ _ HL)|].
    intros ->. congruence.
Qed.

Lemma sync_directory_quiet w d ok w' : sync_directory d w = (ok, w') -> quiet w w'.
Proof.
  unfold sync_directory. destruct (sys_ok w) as [o w1] eqn:E.
  apply sys_ok_quiet in E as [Hq _]. destruct o; intros [= <- <-]; [|done].
  eapply quiet_trans; [exact Hq|]. apply quiet_sync_dir.
Qed.

Lemma sync_data_gen_quiet w g name ok w' :
  Some g <> w_active w -> sync_data_fd (Some g) name w = (ok, w') -> quiet w w'.
Proof.
  intros Hne. unfold sync_data_fd. destruct (sys_ok w) as [o w1] eqn:E.
  apply sys_ok_quiet in E as [Hq _]. destruct o; intros [= <- <-]; [|done].
  eapply quiet_trans; [exact Hq|]. unfold sync_file.
  destruct (get_file _ _ _); [|by destruct w1; apply quiet_refl].
  apply quiet_set_file_gen. by rewrite (quiet_active _ _ Hq).
Qed.

Lemma write_fd_gen_quiet w g name data ok w' :
  Some g <> w_active w -> write_fd (Some g) name data w = (ok, w') -> quiet w w'.
Proof.
  intros Hne. unfold write_fd. destruct (write_loop _ _) as [[wr io] o]. intros [= <- <-].
  eapply quiet_trans; [apply (quiet_io w io)|]. unfold append_file.
  destruct (get_file _ _ _); [by apply (quiet_set_file_gen (set_io io w))|by apply quiet_refl].
Qed.

(** ** The new generation *)

Definition synced_dir (y : Dir) : Dir := mkDir (d_files y) (dom (d_files y)).

(** A directory that would hold [s] if its entries were synced. *)
Definition gen_at (k : Disk) (g : bytes) (s : SegLog) : Prop :=
  exists y, k_gens k !! g = Some y /\ dir_log (synced_dir y) s.

Lemma gen_at_put k g s s' :
  gen_at k g s -> sl_init s' = sl_init s -> Forall body_ok (sl_last s') ->
  torn_ok crc32c (sl_torn s') -> (sl_synced s' <= length (sl_data s'))%nat ->
  gen_at (set_file k (Some g) (segment_name (sl_start s)) (sl_file s')) g s'.
Proof.
  intros (y & Hy & Hs) Ei Hb Ht Hsy.
  exists (put_file y (segment_name (sl_start s)) (sl_file s')).
  unfold set_file. simpl. rewrite Hy. simpl. rewrite lookup_insert_eq. split; [done|].
  apply (dir_log_sync_dir crc32c (put_file (synced_dir y) _ _)).
  apply dir_log_put; try done. left. simpl. rewrite elem_of_dom. eexists.
  apply (listing_lookup _ _ _ _ (dl_listing _ _ _ Hs)). rewrite elem_of_app, list_elem_of_singleton.
  by right.
Qed.

Lemma gen_at_file k g s :
  gen_at k g s -> get_file k (Some g) (segment_name (sl_start s)) = Some (sl_file s).
Proof.
  intros (y & Hy & Hs). unfold get_file. simpl. rewrite Hy.
  apply (listing_lookup _ _ _ _ (dl_listing _ _ _ Hs)). rewrite elem_of_app, list_elem_of_singleton.
  by right.
Qed.

Lemma gen_at_new k g s :
  gen_at k g s -> sl_torn s = [] -> sl_last s <> [] -> sl_synced s = length (sl_data s) ->
  Z.of_nat (length (sl_log s)) < 2 ^ 64 ->
  let name := segment_name (Z.of_nat (length (sl_log s))) in
  get_file k (Some g) name = None /\
  gen_at (set_file k (Some g) name (mkFile [] 0)) g (rotated s).
Proof.
  intros (y & Hy & Hs) Ht Hl Hsy Hlen name. split.
  - unfold get_file. simpl. rewrite Hy. by apply (next_segment_absent crc32c (synced_dir y) s).
  - exists (put_file y name (mkFile [] 0)). unfold set_file. simpl. rewrite Hy. simpl.
    rewrite lookup_insert_eq. split; [done|].
    apply (dir_log_sync_dir crc32c (put_file (synced_dir y) _ _)). apply dir_log_new; try done.
    simpl. rewrite elem_of_dom. eexists. apply (listing_lookup _ _ _ _ (dl_listing _ _ _ Hs)).
    rewrite elem_of_app, list_elem_of_singleton. by right.
Qed.

Lemma gen_at_first k g :
  k_gens k !! g = Some empty_dir ->
  gen_at (set_file k (Some g) (segment_name 0) (mkFile [] 0)) g (mkSegLog [] [] [] 0).
Proof.
  intros Hy. exists (put_file empty_dir (segment_name 0) (mkFile [] 0)).
  unfold set_file. simpl. rewrite Hy. simpl. rewrite lookup_insert_eq. split; [done|].
  apply (dir_log_sync_dir crc32c (put_file empty_dir _ _)). apply dir_log_first.
  split; [constructor|apply Forall_nil_2| |].
  - intros name f _. split; [by intros ?|by intros (? & ?%elem_of_nil & _)].
  - intros name _ Hd. by apply elem_of_empty in Hd.
Qed.

Lemma sync_data_gen w g s ok w' :
  gen_at (w_disk w) g s -> sync_data_fd (Some g) (segment_name (sl_start s)) w = (ok, w') ->
  ok = true -> gen_at (w_disk w') g (synced crc32c s).
Proof.
  intros Hg. unfold sync_data_fd. destruct (sys_ok w) as [o w1] eqn:E.
  apply sys_ok_quiet in E as [_ Ek]. destruct o; intros [= <- <-]; [|done]. intros _. simpl.
  rewrite Ek. unfold sync_file. rewrite (gen_at_file _ _ _ Hg).
  apply (gen_at_put _ _ s (synced crc32c s)); try done; destruct Hg as (y & _ & Hs).
  - exact (dir_log_last _ _ _ Hs).
  - exact (dl_torn _ _ _ Hs).
Qed.

(** The segment being written: complete frames only. *)
Definition writing (w : Wal) (g : bytes) (s : SegLog) (out : option bytes) (sz lsn : Z) : Prop :=
  gen_at (w_disk w) g s /\ sl_torn s = [] /\ out = Some (segment_name (sl_start s)) /\
  sz = Z.of_nat (length (frames crc32c (sl_last s))) /\ lsn = Z.of_nat (length (sl_log s)).

Lemma open_segment_quiet w g start out ok out' w' :
  Some g <> w_active w -> open_segment (Some g) start out w = (ok, out', w') -> quiet w w'.
Proof.
  intros Hne. unfold open_segment.
  destruct (match out with None => _ | Some _ => _ end) as [o w1] eqn:E1.
  assert (Hq1 : quiet w w1).
  { destruct out; [by apply sync_data_gen_quiet in E1|]. injection E1 as <- <-. apply quiet_refl. }
  destruct o; cbn [negb]; [|by intros [= <- <- <-]].
  destruct (sys_ok w1) as [o w2] eqn:E2. apply sys_ok_quiet in E2 as [Hq2 _].
  pose proof (quiet_trans _ _ _ Hq1 Hq2) as Hq.
  destruct (get_file _ _ _); [by intros [= <- <- <-]|]. destruct o; intros [= <- <- <-]; [|done].
  eapply quiet_trans; [exact Hq|]. apply quiet_set_file_gen. by rewrite (quiet_active _ _ Hq).
Qed.

Lemma open_segment_next w g s out sz lsn ok out' w' :
  writing w g s out sz lsn -> 0 < sz -> lsn < 2 ^ 64 ->
  open_segment (Some g) lsn out w = (ok, out', w') -> ok = true ->
  writing w' g (rotated s) out' 0 lsn.
Proof.
  intros (Hg & Ht & -> & -> & ->) Hpos Hlen. unfold open_segment.
  destruct (sync_data_fd _ _ w) as [o w1] eqn:E1.
  pose proof (sync_data_gen _ _ _ _ _ Hg E1) as Hs1. destruct o; cbn [negb]; [|by intros [= <- <- <-]].
  specialize (Hs1 eq_refl). destruct (sys_ok w1) as [o w2] eqn:E2.
  apply sys_ok_quiet in E2 as [_ Ek].
  assert (Hl : sl_last s <> []) by (intros E; rewrite E in Hpos; by vm_compute in Hpos).
  destruct (gen_at_new _ _ _ Hs1 Ht Hl eq_refl Hlen) as [Hnone Hnew].
  change (sl_log (synced crc32c s)) with (sl_log s) in *. rewrite Ek, Hnone.
  destruct o; intros [= <- <- <-]; [|done]. intros _.
  split_and!; try done; simpl.
  - unfold sl_start. simpl. rewrite concat_app. simpl. by rewrite app_nil_r.
  - by rewrite rotated_log.
Qed.

Lemma write_fd_gen w g s b ok w' :
  gen_at (w_disk w) g s -> sl_torn s = [] -> body_ok b ->
  write_fd (Some g) (segment_name (sl_start s)) (frame crc32c b) w = (ok, w') -> ok = true ->
  gen_at (w_disk w') g (mkSegLog (sl_init s) (sl_last s ++ [b]) [] (sl_synced s)).
Proof.
  intros Hg Ht Hb. unfold write_fd.
  destruct (write_loop _ _) as [[wr io] o] eqn:Ew. apply write_loop_spec in Ew.
  intros [= <- <-] ->. subst wr. simpl. unfold append_file. rewrite (gen_at_file _ _ _ Hg). simpl.
  set (s' := mkSegLog _ _ _ _).
  assert (Ef : sl_data s ++ frame crc32c b = sl_data s').
  { unfold WalRecovery.sl_data, s'. simpl. by rewrite Ht, !app_nil_r, frames_snoc. }
  rewrite Ef. destruct Hg as (y & Hy & Hs). apply (gen_at_put _ _ s s'); try done.
  - by exists y.
  - simpl. rewrite Forall_app, Forall_singleton. split; [exact (dir_log_last _ _ _ Hs)|done].
  - apply torn_nil.
  - rewrite <- Ef, length_app. simpl. pose proof (dl_synced _ _ _ Hs). lia.
Qed.

(** One more frame in the segment being written. *)
Lemma writing_frame w g s name sz lsn b w' :
  writing w g s (Some name) sz lsn -> body_ok b -> lsn + 1 < 2 ^ 64 ->
  write_fd (Some g) name (frame crc32c b) w = (true, w') ->
  exists s', writing w' g s' (Some name) (sz + (Z.of_nat kFrameHeader + Z.of_nat (length b)))
    (u64 (lsn + 1)) /\ sl_log s' = sl_log s ++ [b].
Proof.
  intros (Hg & Ht & Ho & Hz & Hl) Hb Hlen E. injection Ho as ->.
  pose proof (write_fd_gen _ _ _ _ _ _ Hg Ht Hb E eq_refl) as Hg2.
  set (s2 := mkSegLog _ _ _ _) in Hg2. exists s2.
  assert (El2 : sl_log s2 = sl_log s ++ [b]) by (unfold sl_log, s2; simpl; by rewrite app_assoc).
  split; [|done]. split; [exact Hg2|]. split; [done|]. split; [done|]. split.
  - unfold s2. cbn [sl_last]. rewrite frames_snoc, length_app, length_frame, Hz.
    unfold kFrameHeader. lia.
  - rewrite wrap_id by (unfold fits; lia). rewrite El2, length_app. simpl. lia.
Qed.

Lemma write_snapshot_quiet snap w g out sz lsn ok out' lsn' w' :
  Some g <> w_active w ->
  write_snapshot crc32c (Some g) snap out sz lsn w = (ok, out', lsn', w') -> quiet w w'.
Proof.
  revert w out sz lsn. induction snap as [|b snap IH]; intros w out sz lsn Hne; cbn [write_snapshot].
  { intros [= <- <- <- <-]. apply quiet_refl. }
  destruct (if _ && _ then _ else _) as [[[o out1] sz1] w1] eqn:E1.
  assert (Hq1 : quiet w w1).
  { destruct (_ && _); [|by injection E1 as <- <- <- <-; apply quiet_refl].
    destruct (open_segment _ _ _ _) as [[o' out''] w''] eqn:E2. injection E1 as <- <- <- <-.
    by apply open_segment_quiet in E2. }
  destruct o; cbn [negb]; [|by intros [= <- <- <- <-]].
  destruct out1 as [name|]; [|by intros [= <- <- <- <-]].
  destruct (write_fd _ _ _ w1) as [o w2] eqn:E2.
  assert (Hne1 : Some g <> w_active w1) by (by rewrite (quiet_active _ _ Hq1)).
  apply write_fd_gen_quiet in E2; [|done]. pose proof (quiet_trans _ _ _ Hq1 E2) as Hq2.
  destruct o; cbn [negb]; [|by intros [= <- <- <- <-]]. intros E3.
  eapply quiet_trans; [exact Hq2|]. eapply IH; [|exact E3]. by rewrite (quiet_active _ _ Hq2).
Qed.

Lemma write_snapshot_spec snap w g s out sz lsn out' lsn' w' :
  write_snapshot crc32c (Some g) snap out sz lsn w = (true, out', lsn', w') ->
  writing w g s out sz lsn -> Forall body_ok snap ->
  lsn + Z.of_nat (length snap) < 2 ^ 64 ->
  exists s' sz', writing w' g s' out' sz' lsn' /\ sl_log s' = sl_log s ++ snap.
Proof.
  revert w s out sz lsn. induction snap as [|b snap IH]; intros w s out sz lsn; cbn [write_snapshot].
  { intros [= <- <- <-] Hw _ _. exists s, sz. by rewrite app_nil_r. }
  destruct (if _ && _ then _ else _) as [[[o out1] sz1] w1] eqn:E1.
  destruct o; cbn [negb]; [|done]. destruct out1 as [name|]; [|done].
  destruct (write_fd _ _ _ w1) as [o w2] eqn:E2. destruct o; cbn [negb]; [|done].
  intros E3 Hw Hb Hlen. inversion_clear Hb as [|? ? Hb1 Hb2].
  assert (H1 : exists s1, writing w1 g s1 (Some name) sz1 lsn /\ sl_log s1 = sl_log s).
  { destruct (_ && _) eqn:R; [|injection E1 as <- <- <-; by exists s].
    destruct (open_segment _ _ _ _) as [[o' out''] w''] eqn:E4. injection E1 as -> -> <- <-.
    apply andb_true_iff in R as [R%Z.ltb_lt _]. exists (rotated s). split; [|apply rotated_log].
    eapply open_segment_next; [exact Hw|lia| |exact E4|done]. simpl in Hlen. lia. }
  destruct H1 as (s1 & Hw1 & Elog). simpl in Hlen.
  destruct (writing_frame _ _ _ _ _ _ _ _ Hw1 Hb1 ltac:(lia) E2) as (s2 & Hw2 & El2).
  destruct (IH w2 s2 _ _ _ E3 Hw2) as (s' & sz' & Hw' & E'); [done| |].
  - rewrite wrap_id; [lia|]. destruct Hw1 as (_ & _ & _ & _ & ->). unfold fits. lia.
  - exists s', sz'. split; [done|]. rewrite E', El2, Elog, <- app_assoc. done.
Qed.

(** ** Creating the directory *)

Lemma make_generation_spec fuel z w r w' :
  fits 64 z ->
  (forall g, w_active w = Some g -> is_Some (k_gens (w_disk w) !! g)) ->
  make_generation fuel z w = (r, w') ->
  quiet w w' /\
  (forall g, r = Some g -> fits 64 g /\ k_gens (w_disk w') !! gen_name g = Some empty_dir /\
     Some (gen_name g) <> w_active w).
Proof.
  revert z w. induction fuel as [|fuel IH]; intros z w Hz Hact; cbn [make_generation].
  { intros [= <- <-]. split; [apply quiet_refl|done]. }
  destruct (sys_ok w) as [o w1] eqn:E1. apply sys_ok_quiet in E1 as [Hq1 Ek].
  destruct o; cbn [negb]; [|by intros [= <- <-]]. rewrite Ek.
  destruct (k_gens (w_disk w) !! gen_name z) as [x|] eqn:Eg.
  - destruct (Z.eqb_spec z (2 ^ 64 - 1)); [by intros [= <- <-]|]. intros E2.
    apply IH in E2 as [Hq2 H2].
    + split; [by eapply quiet_trans|]. intros g Hr. rewrite <- (quiet_active _ _ Hq1). auto.
    + apply wrap_fits. lia.
    + intros g. rewrite (quiet_active _ _ Hq1), Ek. apply Hact.
  - intros [= <- <-].
    assert (Hne : Some (gen_name z) <> w_active w).
    { intros E. destruct (Hact (gen_name z)); [done|]. congruence. }
    split.
    + eapply quiet_trans; [exact Hq1|]. rewrite <- Ek. apply quiet_set_gen.
      by rewrite (quiet_active _ _ Hq1).
    + intros g [= <-]. split_and!; try done. unfold make_gen. simpl. by rewrite lookup_insert_eq.
Qed.

Lemma wal_ok_active w log a :
  wal_ok w log a -> forall g, w_active w = Some g -> is_Some (k_gens (w_disk w) !! g).
Proof. intros (x & s & (Hx & _) & _) g Hg. rewrite Hg in Hx. by exists x. Qed.

(** A generation that holds exactly [snap], complete and durable. *)
Definition gen_complete (k : Disk) (g : Z) (snap : list bytes) : Prop :=
  exists y s, k_gens k !! gen_name g = Some y /\ dir_log y s /\ settled y /\
    sl_log s = snap /\ sl_torn s = [] /\ sl_synced s = length (sl_data s) /\
    gen_name g ∈ k_gens_durable k /\ fits 64 g.

Lemma sync_gen_dir w g s ok w' :
  gen_at (w_disk w) g s -> sync_directory (Some g) w = (ok, w') -> ok = true ->
  exists y, k_gens (w_disk w') !! g = Some y /\ dir_log y s /\ settled y.
Proof.
  intros (y & Hy & Hs). unfold sync_directory. destruct (sys_ok w) as [o w1] eqn:E1.
  apply sys_ok_quiet in E1 as [_ Ek]. destruct o; intros [= <- <-]; [|done]. intros _.
  exists (synced_dir y). unfold sync_dir_entries. simpl. rewrite Ek, Hy. simpl.
  by rewrite lookup_insert_eq.
Qed.

Lemma sync_root_dir w ok w' :
  sync_directory None w = (ok, w') -> ok = true ->
  k_gens (w_disk w') = k_gens (w_disk w) /\ k_gens_durable (w_disk w') = dom (k_gens (w_disk w)) /\
  d_files (k_root (w_disk w')) = d_files (k_root (w_disk w)) /\
  k_current (w_disk w') = d_files (k_root (w_disk w)) !! current_name.
Proof.
  unfold sync_directory. destruct (sys_ok w) as [o w1] eqn:E1.
  apply sys_ok_quiet in E1 as [_ Ek]. destruct o; intros [= <- <-]; [|done]. intros _.
  simpl. by rewrite Ek.
Qed.

Lemma build_generation_spec snap w log a r w' :
  wal_ok w log a -> Forall body_ok snap -> Z.of_nat (length snap) < 2 ^ 64 ->
  build_generation crc32c snap w = (r, w') ->
  quiet w w' /\
  (forall g lsn, r = Some (g, lsn) -> gen_complete (w_disk w') g snap /\
     lsn = Z.of_nat (length snap) /\ Some (gen_name g) <> w_active w).
Proof.
  intros Hok Hb Hlen. unfold build_generation.
  destruct (make_generation _ _ w) as [g w1] eqn:E1.
  apply make_generation_spec in E1 as [Hq1 H1]; [|apply wrap_fits; lia|by eapply wal_ok_active].
  destruct g as [g|]; [|by intros [= <- <-]]. destruct (H1 g eq_refl) as (Hf & Hg & Hne). clear H1.
  destruct (open_segment _ _ _ w1) as [[o2 out2] w2] eqn:E2.
  pose proof (quiet_active _ _ Hq1) as Ha1.
  assert (Hq2 : quiet w w2).
  { eapply quiet_trans; [exact Hq1|]. eapply open_segment_quiet; [|exact E2]. by rewrite Ha1. }
  assert (H2 : o2 = true -> writing w2 (gen_name g) (mkSegLog [] [] [] 0) out2 0 0).
  { intros ->. unfold open_segment in E2. cbn [negb] in E2.
    destruct (sys_ok w1) as [o w1'] eqn:Es. apply sys_ok_quiet in Es as [_ Ek].
    destruct (get_file _ _ _); [done|]. destruct o; [|done]. injection E2 as <- <-.
    split_and!; try done. simpl. rewrite Ek. by apply gen_at_first. }
  destruct (if o2 then _ else _) as [[[o3 out3] lsn] w3] eqn:E3.
  assert (Hq3 : quiet w w3).
  { destruct o2; [|by injection E3 as <- <- <- <-]. eapply quiet_trans; [exact Hq2|].
    eapply write_snapshot_quiet; [|exact E3]. by rewrite (quiet_active _ _ Hq2). }
  assert (H3 : o3 = true -> exists s sz, writing w3 (gen_name g) s out3 sz lsn /\ sl_log s = snap).
  { intros ->. destruct o2; [|done]. 
    destruct (write_snapshot_spec _ _ _ _ _ _ _ _ _ _ E3 (H2 eq_refl) Hb) as (s & sz & ? & ?);
      [lia|by exists s, sz]. }
  destruct (match out3 with None => _ | Some _ => _ end) as [o4 w4] eqn:E4.
  assert (Hq4 : quiet w w4).
  { destruct out3; [|by injection E4 as <- <-].
    destruct (sync_data_fd _ _ w3) as [o w4'] eqn:Es. injection E4 as <- <-.
    eapply quiet_trans; [exact Hq3|]. eapply sync_data_gen_quiet; [|exact Es].
    by rewrite (quiet_active _ _ Hq3). }
  destruct o4; cbn [negb]; [|by intros [= <- <-]].
  destruct (sync_directory (Some (gen_name g)) w4) as [o5 w5] eqn:E5.
  pose proof (sync_directory_quiet _ _ _ _ E5) as Hq5. pose proof (quiet_trans _ _ _ Hq4 Hq5) as Hq5'.
  destruct o5; cbn [negb]; [|by intros [= <- <-]].
  destruct (sync_directory None w5) as [o6 w6] eqn:E6.
  pose proof (sync_directory_quiet _ _ _ _ E6) as Hq6. pose proof (quiet_trans _ _ _ Hq5' Hq6) as Hq6'.
  destruct o6; cbn [negb]; [|by intros [= <- <-]].
  intros [= <- <-]. split; [done|]. intros g' lsn' [= <- <-].
  assert (o3 = true) as Ho3.
  { destruct out3; [|by injection E4]. destruct (sync_data_fd _ _ w3). injection E4 as E4 _.
    by apply andb_true_iff in E4 as [? _]. }
  destruct (H3 Ho3) as (s & sz & (Hgs & Ht & -> & _ & ->) & El). rewrite El.
  split; [|by split].
  destruct (sync_data_fd _ _ w3) as [o w4'] eqn:Es. injection E4 as Eo ->.
  apply andb_true_iff in Eo as [_ Eo].
  pose proof (sync_data_gen _ _ _ _ _ Hgs Es Eo) as Hgs4.
  destruct (sync_gen_dir _ _ _ _ _ Hgs4 E5 eq_refl) as (y & Hy & Hs & Hset).
  destruct (sync_root_dir _ _ _ E6 eq_refl) as (Ek & Ed & _ & _).
  exists y, (synced crc32c s). rewrite Ek, Ed, elem_of_dom. by split_and!.
Qed.

(** ** Installing the pointer *)

Definition pointer_file (g : Z) : File :=
  mkFile (to_string g ++ [Byte.x0a]) (length (to_string g ++ [Byte.x0a])).

Lemma pointer_tmp_plain : is_segment pointer_tmp = false /\ pointer_tmp <> current_name.
Proof. by vm_compute. Qed.

Lemma get_set_root k name f : get_file (set_file k None name f) None name = Some f.
Proof. unfold get_file, set_file. simpl. by rewrite lookup_insert_eq. Qed.

(** Until the rename the running log is untouched; the rename moves a complete,
    synced pointer over CURRENT. *)
Lemma install_pointer_spec g w ok w' :
  install_pointer g w = (ok, w') ->
  (ok = false /\ quiet w w') \/
  (ok = true /\ exists w2, quiet w w2 /\ w' = set_disk (rename_current (w_disk w2)) w2 /\
     d_files (k_root (w_disk w2)) !! pointer_tmp = Some (pointer_file g) /\
     k_gens (w_disk w2) = k_gens (w_disk w) /\
     k_gens_durable (w_disk w2) = k_gens_durable (w_disk w)).
Proof.
  destruct pointer_tmp_plain as [Hseg Hcur].
  unfold install_pointer. destruct (sys_ok w) as [o w1] eqn:E1.
  apply sys_ok_quiet in E1 as [Hq1 Ek1].
  destruct o; cbn [negb]; [|by intros [= <- <-]; left].
  set (w2 := set_disk _ w1).
  assert (Hg2 : k_gens (w_disk w2) = k_gens (w_disk w) /\
                k_gens_durable (w_disk w2) = k_gens_durable (w_disk w)) by (simpl; by rewrite Ek1).
  assert (Hq2 : quiet w w2) by (eapply quiet_trans; [exact Hq1|]; by apply quiet_set_file_root).
  unfold write_fd. destruct (write_loop _ _) as [[wr io] o] eqn:Ew.
  assert (Hf2 : get_file (w_disk w2) None pointer_tmp = Some (mkFile [] 0)) by apply get_set_root.
  clearbody w2. unfold append_file. cbn [w_disk set_io]. rewrite Hf2.
  cbn [f_data f_synced app]. set (w3 := set_disk _ (set_io io w2)).
  assert (Hq3 : quiet w w3).
  { eapply quiet_trans; [exact Hq2|]. eapply quiet_trans; [apply (quiet_io w2 io)|].
    apply (quiet_set_file_root (set_io io w2)); done. }
  apply write_loop_spec in Ew. destruct o; cbn [negb]; [|by intros [= <- <-]; left].
  unfold sync_data_fd. destruct (sys_ok w3) as [o w4] eqn:E4.
  apply sys_ok_quiet in E4 as [Hq4 Ek4]. pose proof (quiet_trans _ _ _ Hq3 Hq4) as Hq4'.
  destruct o; cbn beta iota delta [negb]; [|by intros [= <- <-]; left].
  unfold sync_file. rewrite Ek4. subst wr.
  assert (Hf3 : get_file (w_disk w3) None pointer_tmp = Some (mkFile (to_string g ++ [Byte.x0a]) 0))
    by apply get_set_root.
  rewrite Hf3. cbn [f_data]. fold (pointer_file g). set (w5 := set_disk _ w4).
  assert (Hq5 : quiet w w5).
  { eapply quiet_trans; [exact Hq4'|]. unfold w5. rewrite <- Ek4. by apply quiet_set_file_root. }
  destruct (sys_ok w5) as [o w6] eqn:E6.
  apply sys_ok_quiet in E6 as [Hq6 Ek6]. pose proof (quiet_trans _ _ _ Hq5 Hq6) as Hq6'.
  destruct o; cbn [negb]; intros [= <- <-]; [right|by left].
  split; [done|]. exists w6. rewrite Ek6. split_and!; try done.
  - unfold w5. cbn [w_disk set_disk]. unfold set_file. simpl. by rewrite lookup_insert_eq.
  - apply Hg2.
  - apply Hg2.
Qed.

(** The new pointer in place and durable. *)
Definition installed (k : Disk) (g : Z) : Prop :=
  d_files (k_root k) !! current_name = Some (pointer_file g) /\
  k_current k = Some (pointer_file g).

Lemma installed_pointer_ok k g snap :
  installed k g -> gen_complete k g snap -> pointer_ok k (Some (gen_name g)) g.
Proof.
  intros [H1 H2] (y & s & _ & _ & _ & _ & _ & _ & Hd & Hf). split_and!; try done.
  by exists (pointer_file g).
Qed.

Lemma gen_complete_ext k k' g snap :
  gen_complete k g snap -> k_gens k' !! gen_name g = k_gens k !! gen_name g ->
  (gen_name g ∈ k_gens_durable k -> gen_name g ∈ k_gens_durable k') -> gen_complete k' g snap.
Proof.
  intros (y & s & ? & ? & ? & ? & ? & ? & ? & ?) E Hd. exists y, s. rewrite E. by split_and!; auto.
Qed.

Lemma gen_complete_good k g snap :
  gen_complete k g snap ->
  exists y, k_gens k !! gen_name g = Some y /\ dir_good crc32c y snap (length snap).
Proof.
  intros (y & s & Hy & Hs & _ & <- & Ht & Hsy & _). exists y. split; [done|].
  right. exists s. split; [done|]. split; [done|].
  destruct (durable_synced crc32c s) as [H1 H2]. split; [done|]. rewrite Hsy. exact H2.
Qed.

(** A crash while the rename is not durable: one log or the other. *)
Lemma pending_crash w log a g snap k' :
  wal_ok w log a -> gen_complete (w_disk w) g snap ->
  d_files (k_root (w_disk w)) !! pointer_tmp = Some (pointer_file g) ->
  crash_disk (rename_current (w_disk w)) k' ->
  exists log', disk_holds crc32c k' log' /\
    (log' = snap \/ (log' `prefix_of` log /\ take a log `prefix_of` log')).
Proof.
  intros (x & s & (Hx & Hs & Ha & Hp & _) & <-) Hgen Htmp Hc. unfold rename_current in Hc.
  rewrite Htmp in Hc. destruct Hc as ([Hr Hrd] & (c & Hc & Hc') & Hcur & Hg & Hgd). simpl in *.
  destruct pointer_tmp_plain as [Hseg Htc].
  assert (Hsegs : crash_segs (k_root (w_disk w)) (k_root k')).
  { split; [|done]. intros name Hn. specialize (Hr name (segment_not_current _ Hn)).
    unfold crash_entry in *. simpl in Hr.
    rewrite lookup_insert_ne in Hr by (by intros <-; apply segment_not_current in Hn).
    rewrite lookup_delete_ne in Hr by (intros <-; congruence). exact Hr. }
  assert (Hgens : forall g x, g ∈ k_gens_durable (w_disk w) -> k_gens (w_disk w) !! g = Some x ->
     exists x', k_gens k' !! g = Some x' /\ crash_segs x x').
  { intros g0 x0 H1 H2. destruct (Hg g0 x0 H1 H2) as (x' & ? & ?). eauto using crash_dir_segs. }
  destruct Hc as [->| ->].
  - destruct (crash_from_holds crc32c (w_disk w) k' (w_active w) (w_generation w) x (sl_log s) a)
      as (log' & ? & ? & ?); [done|done|right; eauto|exact (conj Hsegs (conj Hc' (conj Hcur (conj Hgens Hgd))))|].
    exists log'. auto.
  - rewrite lookup_insert_eq in Hc'. destruct Hc' as (f' & E & Hcf).
    apply crash_file_synced in Hcf as ->; [|done].
    destruct (gen_complete_good _ _ _ Hgen) as (y & Hy & Hgood).
    destruct Hgen as (_ & _ & _ & _ & _ & _ & _ & _ & Hd & Hf).
    destruct (Hgens _ _ Hd Hy) as (y' & Hy' & Hcr).
    destruct (crash_dir_good crc32c _ _ _ _ Hgood Hcr) as (log' & Hg' & Hp1 & Hp2).
    assert (log' = snap) as ->.
    { rewrite firstn_all in Hp2. apply prefix_length_eq; [done|]. by apply prefix_length in Hp2. }
    exists snap. split; [|by left]. exists (Some (gen_name g)), g, y'.
    split_and!; try done; [|by apply Hcr]. split_and!; try done.
    + rewrite Hgd, elem_of_dom. by eexists.
    + exists (pointer_file g). by rewrite Hcur, E.
Qed.

(** ** Switching to the new generation *)

Lemma adopt_generation_spec g snap w ok w' :
  installed (w_disk w) g -> gen_complete (w_disk w) g snap -> w_failed w = true ->
  adopt_generation g (Z.of_nat (length snap)) w = (ok, w') ->
  wal_ok w' snap (length snap) /\ w_failed w' = negb ok /\ w_active w' = Some (gen_name g).
Proof.
  intros Hi Hgen Hf. pose proof (installed_pointer_ok _ _ _ Hi Hgen) as Hp.
  destruct Hgen as (y & s & Hy & Hs & Hset & <- & Ht & Hsy & Hd & Hfits).
  pose proof (dl_listing _ _ _ Hs) as HL.
  assert (Hlook : d_files y !! segment_name (sl_start s) = Some (sl_file s)).
  { apply (listing_lookup _ _ _ _ HL). rewrite elem_of_app, list_elem_of_singleton. by right. }
  assert (Hbase : forall w1, w_disk w1 = w_disk w -> w_active w1 = Some (gen_name g) ->
    w_generation w1 = g -> (w_failed w1 = false -> ready crc32c w1 y s) ->
    wal_ok w1 (sl_log s) (length (sl_log s))).
  { intros w1 E1 E2 E3 E4. exists y, s. split; [|done]. unfold wal_at. rewrite E1, E2, E3.
    split; [done|]. split; [done|]. split; [|by split].
    destruct (durable_synced crc32c s) as [H1 H2]. split; [done|]. rewrite Hsy. exact H2. }
  unfold adopt_generation. edestruct sys_ok_cases as (o1 & io1 & E1 & _). rewrite E1.
  cbn [w_disk w_active set_io set_active set_fd get_dir]. rewrite Hy.
  destruct o1; cbn [negb]; [|by intros [= <- <-]; split; [apply Hbase; simpl; congruence|]].
  rewrite (segment_files_listing _ _ HL), fmap_app. cbn [fmap list_fmap fst].
  rewrite last_snoc. cbn [default]. rewrite bool_decide_eq_false_2 by (by intros [_ [=]]%app_eq_nil).
  edestruct (open_active_existing (Some (gen_name g)) (segment_name (sl_start s)) false)
    as (o2 & io2 & E2 & _); [|rewrite E2]; [unfold get_file; simpl; by rewrite Hy|].
  destruct o2; cbn [negb]; [|by intros [= <- <-]; split; [apply Hbase; simpl; congruence|]].
  edestruct sys_ok_cases as (o3 & io3 & E3 & _). rewrite E3.
  destruct o3; cbn [negb]; [|by intros [= <- <-]; split; [apply Hbase; simpl; congruence|]].
  intros [= <- <-]. split; [|done]. apply Hbase; try done. intros _.
  assert (Hgf : get_file (w_disk w) (Some (gen_name g)) (segment_name (sl_start s)) = Some (sl_file s))
    by (unfold get_file; simpl; by rewrite Hy).
  unfold ready. simpl. rewrite Hgf. split_and!; try done.
  - rewrite Hset, elem_of_dom. by eexists.
  - unfold WalRecovery.sl_file, WalRecovery.sl_data. simpl. by rewrite Ht, app_nil_r.
Qed.

(** ** Cleaning up *)

Lemma remove_gens_quiet names w ok w' : remove_gens names w = (ok, w') -> quiet w w'.
Proof.
  revert w. induction names as [|g names IH]; intros w; cbn [remove_gens].
  { intros [= <- <-]. apply quiet_refl. }
  destruct (_ && _) eqn:G; [|apply IH]. apply andb_true_iff in G as [_ G].
  apply negb_true_iff, bool_decide_eq_false in G.
  destruct (sys_ok w) as [o w1] eqn:E1. apply sys_ok_quiet in E1 as [Hq1 Ek].
  destruct o; cbn [negb]; [|by intros [= <- <-]]. intros E2. apply IH in E2.
  eapply quiet_trans; [exact Hq1|]. eapply quiet_trans; [|exact E2].
  apply quiet_disk. intros x s Hx Hs Hp. exists x. split_and!; try done.
  rewrite (quiet_active _ _ Hq1) in *. destruct (w_active w) as [g'|]; [|done].
  simpl in *. rewrite lookup_delete_ne by congruence. done.
Qed.

Lemma unlink_segments_quiet names w ok w' g :
  w_active w = Some g -> unlink_segments names w = (ok, w') -> quiet w w'.
Proof.
  revert w. induction names as [|n names IH]; intros w Ha; cbn [unlink_segments].
  { intros [= <- <-]. apply quiet_refl. }
  destruct (is_segment n) eqn:G; [|by apply IH].
  destruct (sys_ok w) as [o w1] eqn:E1. apply sys_ok_quiet in E1 as [Hq1 Ek].
  destruct o; cbn [negb]; [|by intros [= <- <-]]. intros E2.
  pose proof (quiet_active _ _ Hq1) as Ea. apply IH in E2; [|simpl; congruence].
  eapply quiet_trans; [exact Hq1|]. eapply quiet_trans; [|exact E2].
  apply quiet_disk. rewrite Ea, Ha. intros x s Hx Hs Hp. exists x. split_and!; try done.
  apply (pointer_ok_ext (w_disk w1)); try done. simpl. rewrite lookup_delete_ne; [done|].
  by apply segment_not_current.
Qed.

Lemma cleanup_quiet w ok w' g : w_active w = Some g -> cleanup w = (ok, w') -> quiet w w'.
Proof.
  intros Ha. unfold cleanup. destruct (sys_ok w) as [o w1] eqn:E1.
  apply sys_ok_quiet in E1 as [Hq1 Ek]. destruct o; cbn [negb]; [|by intros [= <- <-]].
  destruct (remove_gens _ w1) as [o w2] eqn:E2. apply remove_gens_quiet in E2.
  pose proof (quiet_trans _ _ _ Hq1 E2) as Hq2. destruct o; cbn [negb]; [|by intros [= <- <-]].
  destruct (unlink_segments _ w2) as [o w3] eqn:E3.
  apply (unlink_segments_quiet _ _ _ _ g) in E3; [|by rewrite (quiet_active _ _ Hq2)].
  pose proof (quiet_trans _ _ _ Hq2 E3) as Hq3. destruct o; cbn [negb]; [|by intros [= <- <-]].
  intros E4. apply sync_directory_quiet in E4. by eapply quiet_trans.
Qed.

(** ** [compact] *)

(** What [compact] leaves: the old log, the snapshot, or, with the log stopped, a
    disk from which a crash recovers one of the two. *)
Inductive compacted (log snap : list bytes) (a : nat) (ok : bool) (w : Wal) : Prop :=
  | Kept : ok = false -> wal_ok w log a -> compacted log snap a ok w
  | Replaced : wal_ok w snap (length snap) -> (ok = true -> w_failed w = false) ->
      compacted log snap a ok w
  | Pending : ok = false -> w_failed w = true ->
      (forall k', crash_disk (w_disk w) k' -> exists log', disk_holds crc32c k' log' /\
         (log' = snap \/ (log' `prefix_of` log /\ take a log `prefix_of` log'))) ->
      compacted log snap a ok w.

Lemma quiet_failed w w' : quiet w w' -> w_failed w' = w_failed w.
Proof. intros [-> _]. done. Qed.

Lemma guard_bodies snap :
  existsb (fun b => bool_decide (b = []) || (kMaxBody <? Z.of_nat (length b))) snap = false ->
  Forall body_ok snap.
Proof.
  induction snap as [|b snap IH]; [by constructor|]. cbn [existsb].
  rewrite orb_false_iff, append_guard_body. intros [H1 H2]. constructor; auto.
Qed.

(** After the root directory is synced the new generation is the log. *)
Lemma compact_installed w2 g snap w3 hook ok w' :
  gen_complete (w_disk w2) g snap ->
  d_files (k_root (w_disk w2)) !! pointer_tmp = Some (pointer_file g) ->
  sync_directory None (set_failed true (set_disk (rename_current (w_disk w2)) w2)) = (true, w3) ->
  (let '(ok, w) := adopt_generation g (Z.of_nat (length snap)) w3 in
   if negb ok then (false, w) else
   if negb (hook Installed) then (false, set_failed true w) else
   if negb (hook BeforeOldLogDeletion) then (false, set_failed true w) else cleanup w) = (ok, w') ->
  wal_ok w' snap (length snap) /\ (ok = true -> w_failed w' = false).
Proof.
  intros Hgen Htmp E3 E4. pose proof (sync_directory_quiet _ _ _ _ E3) as Hq3.
  destruct (sync_root_dir _ _ _ E3 eq_refl) as (Eg & Ed & Ef & Ec). simpl in *.
  unfold rename_current in *. rewrite Htmp in *. simpl in *.
  assert (Hinst : installed (w_disk w3) g).
  { split; [rewrite Ef|rewrite Ec]; by rewrite lookup_insert_eq. }
  assert (Hgen3 : gen_complete (w_disk w3) g snap).
  { apply (gen_complete_ext (w_disk w2)); [done|by rewrite Eg|]. intros _. rewrite Ed, elem_of_dom.
    destruct Hgen as (y & s & Hy & _). by exists y. }
  destruct (adopt_generation _ _ w3) as [o w4] eqn:Ea.
  apply (adopt_generation_spec _ snap) in Ea as (Hok & Hfl & Hact); [|done|done|].
  2: { rewrite (quiet_failed _ _ Hq3). done. }
  assert (Hstop : wal_ok (set_failed true w4) snap (length snap)).
  { destruct Hok as (x & s & (? & ? & ? & ? & _) & ?). exists x, s. split; [|done]. by split_and!. }
  destruct o; cbn [negb] in E4; [|by injection E4 as <- <-].
  destruct (hook Installed); cbn [negb] in E4; [|by injection E4 as <- <-].
  destruct (hook BeforeOldLogDeletion); cbn [negb] in E4; [|by injection E4 as <- <-].
  pose proof (cleanup_quiet _ _ _ _ Hact E4) as Hq. split; [by apply Hq|].
  intros _. by rewrite (quiet_failed _ _ Hq).
Qed.

Lemma compact_ok w log a snap hook ok w' :
  wal_ok w log a -> Z.of_nat (length snap) < 2 ^ 64 ->
  compact crc32c snap hook w = (ok, w') -> compacted log snap a ok w'.
Proof.
  intros Hw Hlen. unfold compact.
  destruct (_ || _); [by intros [= <- <-]; apply Kept|].
  destruct (existsb _ snap) eqn:Eb; [by intros [= <- <-]; apply Kept|].
  apply guard_bodies in Eb.
  destruct (sync_ok crc32c w log a Hw) as (o1 & w1 & a1 & -> & Hw1 & Ha1 & _).
  assert (Hw1a : wal_ok w1 log a).
  { apply (wal_ok_weaken crc32c _ _ _ a1); [done|]. destruct o1; [|by subst].
    destruct Hw as (? & ? & (_ & _ & [? _] & _) & <-). by subst. }
  destruct o1; cbn [negb]; [|by intros [= <- <-]; apply Kept].
  destruct (build_generation _ _ w1) as [r w2] eqn:E2.
  destruct (build_generation_spec _ _ _ _ _ _ Hw1a Eb Hlen E2) as [[Hq2e Hq2] H2].
  destruct r as [[g lsn]|]; [|by intros [= <- <-]; apply Kept; auto].
  destruct (H2 g lsn eq_refl) as (Hgen & -> & Hne).
  destruct (hook SnapshotDurable); cbn [negb]; [|by intros [= <- <-]; apply Kept; auto].
  destruct (install_pointer g w2) as [o3 w3] eqn:E3.
  apply install_pointer_spec in E3 as [[-> Hq3]|[-> (w2' & Hq3 & -> & Htmp & Eg & Ed)]]; cbn [negb].
  { intros [= <- <-]. apply Kept; [done|]. by apply Hq3, Hq2. }
  assert (Hgen' : gen_complete (w_disk w2') g snap)
    by (apply (gen_complete_ext (w_disk w2)); [done|by rewrite Eg|by rewrite Ed]).
  destruct (sync_directory None _) as [o4 w4] eqn:E4.
  pose proof (sync_directory_quiet _ _ _ _ E4) as Hq4. destruct o4; cbn [negb].
  - intros E5. apply (compact_installed w2' g snap w4 hook) in E5 as [H5 H6]; [|done..].
    by apply Replaced.
  - intros [= <- <-]. apply Pending; [done|by rewrite (quiet_failed _ _ Hq4)|].
    unfold sync_directory in E4. destruct (sys_ok _) as [o w5] eqn:E5.
    apply sys_ok_quiet in E5 as [_ Ek]. destruct o; [done|]. injection E4 as <-. rewrite Ek. simpl.
    intros k' Hc. apply (pending_crash w2' log a g snap); try done. by apply Hq3, Hq2.
Qed.
End compaction.
