(* ===== verification/WalSpec.v ===== *)
(** * WalSpec: what the log promises, and that class Wal keeps it

    The specification is a list of records with a durable prefix.  Executions of
    the class (appends, syncs, compactions, restarts after a crash of the machine and
    restarts of the process alone, each under any outcomes of its system calls) refine
    it. *)

From Stdlib Require Import ZArith Lia.
From stdpp Require Import base tactics list numbers gmap sorting.
From S2P Require Import Prelude Bytes WalFrame Disk Wal WalRecovery WalCompact.

(** What a caller of the log observes. *)
Inductive LogEvent :=
  | EAppend (b : bytes) (do_sync ok : bool)
  | ESync (ok : bool)
  | ECompact (snap : list bytes) (ok : bool)
  | ERestart (replayed : list bytes)
  | EReopen (replayed : list bytes).

(** ** Specification *)

(** A log with a durable prefix, or one whose replacement by a snapshot is
    undecided until the next restart. *)
Inductive LogSpec :=
  | Live (log : list bytes) (durable : nat)
  | Undecided (log : list bytes) (durable : nat) (snap : list bytes).

(** What may be found after a crash. *)
Definition survives (log : list bytes) (d : nat) (log' : list bytes) : Prop :=
  log' `prefix_of` log /\ take d log `prefix_of` log'.

Inductive log_step : LogSpec -> LogEvent -> LogSpec -> Prop :=
  | AppendOk log d d' b s : (d <= d')%nat -> (s = true -> d' = length (log ++ [b])) ->
      log_step (Live log d) (EAppend b s true) (Live (log ++ [b]) d')
  | AppendFail log d d' log' b s : (d <= d')%nat -> log' = log \/ log' = log ++ [b] ->
      log_step (Live log d) (EAppend b s false) (Live log' d')
  | SyncOk log d : log_step (Live log d) (ESync true) (Live log (length log))
  | SyncFail log d : log_step (Live log d) (ESync false) (Live log d)
  | CompactOk log d snap :
      log_step (Live log d) (ECompact snap true) (Live snap (length snap))
  | CompactFail log d snap : log_step (Live log d) (ECompact snap false) (Live log d)
  | CompactLate log d snap :
      log_step (Live log d) (ECompact snap false) (Live snap (length snap))
  | CompactCut log d snap :
      log_step (Live log d) (ECompact snap false) (Undecided log d snap)
  | StuckAppend log d snap b s :
      log_step (Undecided log d snap) (EAppend b s false) (Undecided log d snap)
  | StuckSync log d snap : log_step (Undecided log d snap) (ESync false) (Undecided log d snap)
  | StuckCompact log d snap s' :
      log_step (Undecided log d snap) (ECompact s' false) (Undecided log d snap)
  | Restart log d log' : survives log d log' ->
      log_step (Live log d) (ERestart log') (Live log' (length log'))
  | RestartCut log d snap log' : log' = snap \/ survives log d log' ->
      log_step (Undecided log d snap) (ERestart log') (Live log' (length log'))
  | Reopen log d : log_step (Live log d) (EReopen log) (Live log d).

Inductive log_run : LogSpec -> list LogEvent -> LogSpec -> Prop :=
  | run_nil l : log_run l [] l
  | run_snoc l tr l1 e l2 : log_run l tr l1 -> log_step l1 e l2 -> log_run l (tr ++ [e]) l2.

(** ** Implementation *)

Section refinement.
Context (crc32c : bytes -> Z) (crc_fits : forall b, fits 32 (crc32c b)).

Inductive wal_step : Wal -> LogEvent -> Wal -> Prop :=
  | step_append w io b s ok w' :
      append crc32c b s (set_io io w) = (ok, w') -> wal_step w (EAppend b s ok) w'
  | step_sync w io ok w' : sync (set_io io w) = (ok, w') -> wal_step w (ESync ok) w'
  | step_compact w io snap hook ok w' :
      compact crc32c snap hook (set_io io w) = (ok, w') -> wal_step w (ECompact snap ok) w'
  | step_restart w k io sb seen w' :
      crash_disk (w_disk w) k -> open crc32c (new_wal k io sb) = (true, seen, w') ->
      wal_step w (ERestart seen) w'
  | step_reopen w io sb seen w' :
      w_failed w = false -> open crc32c (new_wal (w_disk w) io sb) = (true, seen, w') ->
      wal_step w (EReopen seen) w'.

(** From a first [open] of an empty directory. *)
Inductive wal_run : list LogEvent -> Wal -> Prop :=
  | wal_start io sb seen w :
      open crc32c (new_wal empty_disk io sb) = (true, seen, w) -> wal_run [] w
  | wal_next tr w e w' : wal_run tr w -> wal_step w e w' -> wal_run (tr ++ [e]) w'.

(** Records an event may add. *)
Definition event_size (e : LogEvent) : nat :=
  match e with EAppend _ _ _ => 1 | ECompact snap _ => length snap | _ => 0 end.

Definition run_size (tr : list LogEvent) : nat :=
  foldr (fun e n => event_size e + n)%nat 0%nat tr.

Lemma run_size_snoc tr e : run_size (tr ++ [e]) = (run_size tr + event_size e)%nat.
Proof. induction tr as [|e' tr IH]; simpl in *; lia. Qed.

(** The simulation relation. *)
Definition implements (w : Wal) (l : LogSpec) (n : nat) : Prop :=
  match l with
  | Live log d => wal_ok crc32c w log d /\ (length log <= n)%nat
  | Undecided log d snap =>
      w_failed w = true /\ (length log <= n)%nat /\ (length snap <= n)%nat /\
      forall k', crash_disk (w_disk w) k' -> exists log', disk_holds crc32c k' log' /\
        (log' = snap \/ survives log d log')
  end.

Lemma failed_stuck w :
  w_failed w = true ->
  (forall b s, append crc32c b s w = (false, w)) /\ sync w = (false, w) /\
  (forall snap hook, compact crc32c snap hook w = (false, w)).
Proof.
  intros Hf. split_and!.
  - intros b s. unfold append. by rewrite Hf, orb_true_r.
  - unfold sync. rewrite Hf. by destruct (w_fd w) as [[]|].
  - intros snap hook. unfold compact. by rewrite Hf, orb_true_r.
Qed.

Lemma survives_length log d log' : survives log d log' -> (length log' <= length log)%nat.
Proof. intros [H _]. by apply prefix_length. Qed.

(** Every step of the class is a step of the specification. *)
Lemma step_simulates w l n e w' :
  implements w l n -> wal_step w e w' -> Z.of_nat (n + event_size e) < 2 ^ 64 - 1 ->
  exists l', log_step l e l' /\ implements w' l' (n + event_size e).
Proof.
  intros Hi Hs Hn. destruct l as [log d|log d snap]; simpl in Hi.
  - destruct Hi as [Hw Hl].
    assert (Hio : forall io, wal_ok crc32c (set_io io w) log d) by done.
    destruct Hs as [w io b s ok w' E|w io ok w' E|w io snap hook ok w' E|w k io sb seen w' Hc E|
        w io sb seen w' Hf E]; simpl in Hn.
    + destruct (append_ok crc32c (set_io io w) log d b s (Hio io)) as (ok' & w1 & log' & d' & E' & Hw' & Hd & Hok & _);
        [lia|]. rewrite E in E'. injection E' as <- <-. exists (Live log' d'). destruct ok.
      * destruct Hok as (_ & -> & _ & _ & Hs). split; [by apply AppendOk|].
        split; [done|]. rewrite length_app. simpl. lia.
      * destruct Hok as [Hlog _]. split; [by apply AppendFail|]. split; [done|].
        destruct Hlog as [-> | ->]; rewrite ?length_app; simpl; lia.
    + destruct (sync_ok crc32c (set_io io w) log d (Hio io)) as (ok' & w1 & d' & E' & Hw' & Hd & _).
      rewrite E in E'. injection E' as <- <-. rewrite Nat.add_0_r. destruct ok; subst d'.
      * exists (Live log (length log)). split; [apply SyncOk|done].
      * exists (Live log d). split; [apply SyncFail|done].
    + apply (compact_ok crc32c (set_io io w) log d) in E; [|done|lia].
      destruct E as [-> Hk|Hk Hf| -> Hf Hcr].
      * exists (Live log d). split; [apply CompactFail|]. split; [done|]. simpl. lia.
      * exists (Live snap (length snap)). split; [by destruct ok; constructor|].
        split; [done|]. simpl. lia.
      * exists (Undecided log d snap). split; [apply CompactCut|]. simpl. split_and!; try done; lia.
    + destruct (crash_wal_ok crc32c w log d k Hw Hc) as (log' & Hh & Hp1 & Hp2).
      destruct (disk_holds_open crc32c crc_fits k log' io sb Hh) as (ok & seen' & w1 & E' & _ & Hok).
      { apply prefix_length in Hp1. lia. }
      rewrite E in E'. injection E' as <- <- <-. destruct (Hok eq_refl) as [-> Hw'].
      exists (Live log' (length log')). split; [by apply Restart|]. split; [done|].
      apply prefix_length in Hp1. simpl. lia.
    + destruct (wal_ok_reopen crc32c crc_fits w log d io sb Hw Hf) as (ok & seen' & w1 & E' & _ & Hok); [lia|].
      rewrite E in E'. injection E' as <- <- <-. destruct (Hok eq_refl) as [-> Hw'].
      exists (Live log d). split; [apply Reopen|]. split; [done|]. simpl. lia.
  - destruct Hi as (Hf & Hl & Hsn & Hcr).
    destruct Hs as [w io b s ok w' E|w io ok w' E|w io s' hook ok w' E|w k io sb seen w' Hc E|
        w io sb seen w' Hf' E]; [..|congruence]; simpl in Hn.
    1-3: destruct (failed_stuck (set_io io w) Hf) as (F1 & F2 & F3);
      rewrite ?F1, ?F2, ?F3 in E; injection E as <- <-; exists (Undecided log d snap);
      (split; [constructor|]); simpl; split_and!; try done; lia.
    destruct (Hcr k Hc) as (log' & Hh & Hlog).
    assert (Hlen : (length log' <= n)%nat).
    { destruct Hlog as [->|?%survives_length]; lia. }
    destruct (disk_holds_open crc32c crc_fits k log' io sb Hh) as (ok & seen' & w1 & E' & _ & Hok);
      [lia|]. rewrite E in E'. injection E' as <- <- <-. destruct (Hok eq_refl) as [-> Hw'].
    exists (Live log' (length log')). split; [by apply RestartCut|]. split; [done|]. simpl. lia.
Qed.

Lemma empty_disk_holds : disk_holds crc32c empty_disk [].
Proof.
  exists None, 0, empty_dir. split_and!; try done. left. split_and!; try done.
  split; [constructor|apply Forall_nil_2| |].
  - intros name f _. split; [by intros ?|by intros (? & ?%elem_of_nil & _)].
  - intros name _ Hd. by apply elem_of_empty in Hd.
Qed.

Lemma run_implements tr w :
  wal_run tr w -> Z.of_nat (run_size tr) < 2 ^ 64 - 1 ->
  exists l, log_run (Live [] 0) tr l /\ implements w l (run_size tr).
Proof.
  induction 1 as [io sb seen w E|tr w e w' _ IH Hs]; intros Hn.
  - destruct (disk_holds_open crc32c crc_fits empty_disk [] io sb empty_disk_holds)
      as (ok & seen' & w1 & E' & _ & Hok); [done|].
    rewrite E in E'. injection E' as <- <- <-. destruct (Hok eq_refl) as [_ Hw].
    exists (Live [] 0). split; [constructor|]. by split.
  - rewrite run_size_snoc in *. destruct IH as (l & Hr & Hi); [lia|].
    destruct (step_simulates _ _ _ _ _ Hi Hs) as (l' & Hs' & Hi'); [done|].
    exists l'. split; [by eapply run_snoc|done].
Qed.
End refinement.

(** ** Consequences at the level of the specification *)

Definition is_compact (e : LogEvent) : bool :=
  match e with ECompact _ _ => true | _ => false end.

(** [b] is in the durable part of a log that is not undecided. *)
Definition kept (b : bytes) (l : LogSpec) : Prop :=
  match l with Live log d => (d <= length log)%nat /\ b ∈ take d log | Undecided _ _ _ => False end.

Lemma kept_mono (b : bytes) (log log' : list bytes) d d' :
  log `prefix_of` log' -> (d <= d')%nat -> (d' <= length log')%nat -> (d <= length log)%nat ->
  b ∈ take d log -> (d' <= length log')%nat /\ b ∈ take d' log'.
Proof.
  intros [r ->] Hd Hd' Hl Hb. split; [done|].
  assert (Hp : take d log `prefix_of` take d' (log ++ r)).
  { rewrite <- (take_app_le log r d) by done. by apply prefix_take_le. }
  destruct Hp as [t ->]. rewrite elem_of_app. by left.
Qed.

(** The durable part never exceeds the log. *)
Definition spec_wf (l : LogSpec) : Prop :=
  match l with Live log d | Undecided log d _ => (d <= length log)%nat end.

Lemma implements_wf crc32c w l n : implements crc32c w l n ->
  match l with Live _ _ => spec_wf l | _ => True end.
Proof.
  destruct l as [log d|]; [|done]. intros [(x & s & (_ & _ & [? _] & _) & <-) _]. done.
Qed.

Lemma kept_step b l e l' :
  kept b l -> log_step l e l' -> is_compact e = false -> spec_wf l' -> kept b l'.
Proof.
  intros Hk Hs Hc Hwf. destruct Hs; simpl in *; try done; destruct Hk as [Hd Hb].
  - apply (kept_mono b log _ d); try done. by exists [b0].
  - apply (kept_mono b log _ d); try done. destruct H0 as [-> | ->]; [done|by exists [b0]].
  - by apply (kept_mono b log _ d).
  - split; [done|]. rewrite take_ge by lia. destruct H as [_ [t ->]]. rewrite elem_of_app. by left.
Qed.

(** ** Sample: a concrete checksum and disks without pending writes *)

Module WalSample.
Definition sum32 (b : bytes) : Z := u32 (foldr (fun x z => Z_of_byte x + z) 0 b).

Lemma sum32_fits b : fits 32 (sum32 b).
Proof. apply wrap_fits. lia. Qed.

Definition clean_dir (x : Dir) : Prop :=
  map_Forall (fun _ f => f_synced f = length (f_data f)) (d_files x) /\ d_durable x = dom (d_files x).

#[global] Instance clean_dir_dec x : Decision (clean_dir x).
Proof. unfold clean_dir. apply _. Defined.

(** A disk with nothing pending may come through a crash unchanged. *)
Lemma crash_clean k :
  clean_dir (k_root k) -> map_Forall (fun _ x => clean_dir x) (k_gens k) ->
  k_current k = d_files (k_root k) !! current_name -> k_gens_durable k = dom (k_gens k) ->
  crash_disk k k.
Proof.
  assert (Hf : forall f, f_synced f = length (f_data f) -> crash_file f f).
  { intros f Hf. exists (length (f_data f)). split; [lia|]. rewrite take_ge by lia.
    destruct f; simpl in *. by rewrite Hf. }
  assert (Hd : forall x, clean_dir x -> crash_dir x x).
  { intros x [H1 H2]. split; [|done]. intros name _. unfold crash_entry.
    destruct (d_files x !! name) as [f|] eqn:E; [|by right]. left. exists f. split; [done|].
    apply Hf. by apply (H1 name). }
  intros Hr Hg Hc Hgd. split; [by apply Hd|]. split; [|split_and!; try done].
  - exists (k_current k). split; [by left|]. destruct (k_current k) as [f|] eqn:E; [|done].
    exists f. split; [done|]. apply Hf. destruct Hr as [Hr _]. by apply (Hr current_name).
  - intros g x _ Hx. exists x. split; [done|]. apply Hd. by apply (Hg g).
Qed.

Definition b1 : bytes := [Byte.x61; Byte.x62].
Definition b2 : bytes := [Byte.x63].

(** Segments of sixteen bytes: two records do not fit in one. *)
Definition w0 : Wal := snd (open sum32 (new_wal empty_disk [] 16)).
Definition w1 : Wal := snd (append sum32 b1 true w0).
Definition w2 : Wal := snd (open sum32 (new_wal (w_disk w1) [] 16)).

Definition run1 : list LogEvent := [EAppend b1 true true].

Lemma pair_eta {A B} (p : A * B) a : fst p = a -> p = (a, snd p).
Proof. by destruct p; intros <-. Qed.

Lemma open_w0 : open sum32 (new_wal empty_disk [] 16) = (true, [], w0).
Proof. apply pair_eta. vm_compute. reflexivity. Qed.

Lemma run1_ok : wal_run sum32 run1 w1.
Proof.
  apply (wal_next _ [] w0); [apply (wal_start _ [] 16 []), open_w0|].
  apply (step_append _ w0 []). apply (pair_eta (append sum32 b1 true (set_io [] w0))).
  vm_compute. reflexivity.
Qed.

Lemma crash1 : crash_disk (w_disk w1) (w_disk w1).
Proof.
  apply crash_clean; [..|vm_compute; reflexivity|]; apply (bool_decide_unpack _); vm_compute; exact I.
Qed.

Lemma run2_ok : wal_run sum32 (run1 ++ [ERestart [b1]]) w2.
Proof.
  apply (wal_next _ _ w1); [apply run1_ok|].
  apply (step_restart _ w1 (w_disk w1) [] 16); [apply crash1|].
  unfold w2. refine (pair_eta (open sum32 (new_wal (w_disk w1) [] 16)) (true, [b1]) _).
  vm_compute. reflexivity.
Qed.

Lemma w0_ok : wal_ok sum32 w0 [] 0.
Proof.
  destruct (disk_holds_open sum32 sum32_fits empty_disk [] [] 16 (empty_disk_holds _))
    as (ok & seen & w & E & Hok & H); [done|].
  destruct (H (Hok eq_refl)) as [_ Hw]. rewrite open_w0 in E. injection E as <- <- <-. exact Hw.
Qed.

Definition w3 : Wal := snd (compact sum32 [b1; b2] (fun _ => true) w0).

Lemma compact_w3 : compact sum32 [b1; b2] (fun _ => true) w0 = (true, w3).
Proof.
  unfold w3. refine (pair_eta (compact sum32 [b1; b2] (fun _ => true) w0) true _).
  vm_compute. reflexivity.
Qed.

Lemma crash3 : crash_disk (w_disk w3) (w_disk w3).
Proof.
  apply crash_clean; [..|vm_compute; reflexivity|]; apply (bool_decide_unpack _); vm_compute; exact I.
Qed.
End WalSample.

(** ** Theorems *)



Lemma wal_run_app crc32c tr1 tr2 w :
  wal_run crc32c (tr1 ++ tr2) w -> exists w1, wal_run crc32c tr1 w1.
Proof.
  revert w. induction tr2 as [|e tr2 IH] using rev_ind; intros w.
  - rewrite app_nil_r. eauto.
  - rewrite app_assoc. intros H. inversion H as [|tr w1 e' w' Hr Hs E].
    + by destruct (tr1 ++ tr2).
    + apply app_inj_tail in E as [-> ->]. by apply IH in Hr.
Qed.

(** Runs of the specification that the implementation follows, step by step. *)
Lemma run_kept crc32c (crc_fits : forall b, fits 32 (crc32c b)) b tr tr2 w :
  wal_run crc32c (tr ++ EAppend b true true :: tr2) w ->
  Forall (fun e => is_compact e = false) tr2 ->
  Z.of_nat (run_size (tr ++ EAppend b true true :: tr2)) < 2 ^ 64 - 1 ->
  exists l, implements crc32c w l (run_size (tr ++ EAppend b true true :: tr2)) /\ kept b l.
Proof.
  revert w. induction tr2 as [|e tr2 IH] using rev_ind; intros w Hr Hc Hn.
  - inversion Hr as [|tr' w1 e w' Hr1 Hs E]; [by destruct tr|].
    apply app_inj_tail in E as [-> ->]. rewrite run_size_snoc in *.
    destruct (run_implements crc32c crc_fits tr w1 Hr1) as (l & _ & Hi); [lia|].
    destruct (step_simulates crc32c crc_fits _ _ _ _ _ Hi Hs) as (l' & Hs' & Hi'); [done|].
    exists l'. split; [done|]. inversion Hs'; subst. simpl.
    match goal with H : true = true -> _ |- _ => rewrite (H eq_refl) end.
    split; [done|]. rewrite take_ge by done. rewrite elem_of_app, list_elem_of_singleton. by right.
  - rewrite Forall_app, Forall_singleton in Hc. destruct Hc as [Hc He].
    change (EAppend b true true :: tr2 ++ [e]) with ((EAppend b true true :: tr2) ++ [e]) in *.
    rewrite app_assoc in *. inversion Hr as [|tr' w1 e' w' Hr1 Hs E].
    { by destruct (tr ++ _). }
    apply app_inj_tail in E as [-> ->]. rewrite run_size_snoc in *.
    destruct (IH w1 Hr1 Hc) as (l & Hi & Hk); [lia|].
    destruct (step_simulates crc32c crc_fits _ _ _ _ _ Hi Hs) as (l' & Hs' & Hi'); [done|].
    exists l'. split; [done|]. eapply kept_step; [exact Hk|exact Hs'|done|].
    apply implements_wf in Hi'. destruct l'; [done|]. exfalso.
    destruct l; [|done]. by inversion Hs'; subst.
Qed.



(** After any execution and any crash, [open] with no failing system call
    succeeds: recovery never meets a log it refuses. *)
Theorem recovery_succeeds (crc32c : bytes -> Z) tr w k sb :
  (forall b, fits 32 (crc32c b)) -> wal_run crc32c tr w -> crash_disk (w_disk w) k ->
  Z.of_nat (run_size tr) < 2 ^ 64 - 1 ->
  exists seen w', open crc32c (new_wal k [] sb) = (true, seen, w').
Proof.
  intros Hf Hr Hc Hn. destruct (run_implements crc32c Hf tr w Hr Hn) as (l & _ & Hi).
  assert (Hh : exists log, disk_holds crc32c k log /\ (length log <= run_size tr)%nat).
  { destruct l as [log d|log d snap]; simpl in Hi.
    - destruct Hi as [Hw Hl]. destruct (crash_wal_ok crc32c w log d k Hw Hc) as (log' & ? & Hp & _).
      exists log'. split; [done|]. apply prefix_length in Hp. lia.
    - destruct Hi as (_ & Hl & Hs & H). destruct (H k Hc) as (log' & ? & Hlog). exists log'.
      split; [done|]. destruct Hlog as [-> | ?%survives_length]; lia. }
  destruct Hh as (log & Hh & Hlen).
  destruct (disk_holds_open crc32c Hf k log [] sb Hh) as (ok & seen & w' & E & Hok & _); [lia|].
  rewrite (Hok eq_refl) in E. eauto.
Qed.

Lemma recovery_succeeds_witness :
  exists seen w', open WalSample.sum32 (new_wal (w_disk WalSample.w1) [] 16) = (true, seen, w').
Proof.
  apply (recovery_succeeds WalSample.sum32 WalSample.run1 WalSample.w1 _ 16 WalSample.sum32_fits
    WalSample.run1_ok WalSample.crash1). reflexivity.
Defined.

(** A log that has not stopped accepts every body of legal size when the system
    calls succeed, rotating to a new segment as needed. *)
Theorem append_accepts (crc32c : bytes -> Z) tr w b do_sync :
  (forall b, fits 32 (crc32c b)) -> wal_run crc32c tr w -> w_failed w = false -> body_ok b ->
  Z.of_nat (run_size tr) < 2 ^ 64 - 1 ->
  exists w', append crc32c b do_sync (set_io [] w) = (true, w') /\ w_failed w' = false.
Proof.
  intros Hf Hr Hnf Hb Hn. destruct (run_implements crc32c Hf tr w Hr Hn) as (l & _ & Hi).
  destruct l as [log d|log d snap]; [|destruct Hi; congruence]. destruct Hi as [Hw Hl].
  destruct (append_ok crc32c (set_io [] w) log d b do_sync Hw)
    as (ok & w' & log' & d' & E & _ & _ & Hok & Hprog); [lia|].
  destruct (Hprog eq_refl Hnf Hb) as [-> _]. exists w'. split; [done|]. apply Hok.
Qed.

Lemma append_accepts_witness :
  exists w', append WalSample.sum32 WalSample.b2 true (set_io [] WalSample.w1) = (true, w') /\
    w_failed w' = false.
Proof.
  apply (append_accepts WalSample.sum32 WalSample.run1 WalSample.w1 WalSample.b2 true
    WalSample.sum32_fits WalSample.run1_ok); vm_compute; try reflexivity. by split.
Defined.

(** C12: a compaction is atomic.  Cut at any of its system calls and followed by a
    crash, it leaves either the log as it was, down to what was not yet durable, or
    exactly the snapshot; once it has returned true, the snapshot. *)
Theorem compact_crash_atomic (crc32c : bytes -> Z) w log d snap hook ok w' k sb :
  (forall b, fits 32 (crc32c b)) -> wal_ok crc32c w log d ->
  Z.of_nat (length log) < 2 ^ 64 -> Z.of_nat (length snap) < 2 ^ 64 ->
  compact crc32c snap hook w = (ok, w') -> crash_disk (w_disk w') k ->
  exists seen, fst (open crc32c (new_wal k [] sb)) = (true, seen) /\
    (seen = snap \/ (ok = false /\ survives log d seen)).
Proof.
  intros Hf Hw Hl Hs Hc Hk.
  assert (Hh : exists log', disk_holds crc32c k log' /\
    (log' = snap \/ (ok = false /\ survives log d log'))).
  { destruct (compact_ok crc32c w log d snap hook ok w' Hw Hs Hc) as [-> Hw'|Hw' _| -> _ H].
    - destruct (crash_wal_ok crc32c w' log d k Hw' Hk) as (log' & ? & ?). exists log'. auto.
    - destruct (crash_wal_ok crc32c w' _ _ k Hw' Hk) as (log' & Hd & Hp1 & Hp2). exists log'.
      split; [done|]. left. rewrite firstn_all in Hp2. apply prefix_length_eq; [done|].
      by apply prefix_length in Hp2.
    - destruct (H k Hk) as (log' & Hd & [?|?]); exists log'; auto. }
  destruct Hh as (log' & Hh & Hlog).
  destruct (disk_holds_open crc32c Hf k log' [] sb Hh) as (ok' & seen & w1 & E & Hok & H1).
  { destruct Hlog as [->|[_ ?%survives_length]]; lia. }
  rewrite E. rewrite (Hok eq_refl) in *. destruct (H1 eq_refl) as [-> _]. by exists log'.
Qed.

Lemma compact_crash_atomic_witness :
  exists seen, fst (open WalSample.sum32 (new_wal (w_disk WalSample.w3) [] 16)) = (true, seen) /\
    (seen = [WalSample.b1; WalSample.b2] \/ (true = false /\ survives [] 0 seen)).
Proof.
  apply (compact_crash_atomic WalSample.sum32 WalSample.w0 [] 0 [WalSample.b1; WalSample.b2]
    (fun _ => true) true WalSample.w3 (w_disk WalSample.w3) 16 WalSample.sum32_fits WalSample.w0_ok);
    [reflexivity|reflexivity|apply WalSample.compact_w3|apply WalSample.crash3].
Defined.

(** C38: damage before the last segment is never skipped over: if any segment but the
    last holds bytes that do not scan to its end, [open] fails. *)
Theorem damaged_segment_refused (crc32c : bytes -> Z) d pre name rest seen w f clean bs :
  get_file (w_disk w) d name = Some f -> scan_frames crc32c (f_data f) = Val (clean, bs) ->
  clean <> length (f_data f) -> rest <> [] ->
  fst (fst (open_segments crc32c d (pre ++ name :: rest) seen w)) = false.
Proof.
  intros Hf Hs Hne Hrest. revert seen w Hf. induction pre as [|n pre IH]; intros seen w Hf;
    cbn [app open_segments]; destruct (sys_ok_cases w) as (ok & io & -> & _); simpl.
  - rewrite Hf. destruct ok; simpl; [|done]. rewrite Hs, (proj2 (Nat.eqb_neq _ _)) by done.
    by rewrite bool_decide_eq_false_2.
  - destruct (get_file _ d n) as [g|]; [|done]. destruct ok; simpl; [|done].
    destruct (scan_frames crc32c (f_data g)) as [[c l]| |]; [|done..].
    rewrite bool_decide_eq_false_2 by (by destruct pre). cbn [negb].
    destruct (negb _); [done|]. cbn [andb negb]. by apply IH.
Qed.

Lemma damaged_segment_refused_witness :
  let bad := mkFile [Byte.x01] 1 in
  let k := set_file (set_file empty_disk None (segment_name 0) bad) None (segment_name 1) bad in
  fst (fst (open_segments WalSample.sum32 None [segment_name 0; segment_name 1] []
    (new_wal k [] 16))) = false.
Proof.
  intros bad k.
  apply (damaged_segment_refused WalSample.sum32 None [] (segment_name 0) [segment_name 1] []
    (new_wal k [] 16) bad 0 []); [vm_compute; reflexivity|
    vm_compute; reflexivity|vm_compute; discriminate|discriminate].
Defined.

(** ** A gap in the restart path

    The directory entry of a new segment is made durable by [rotate].  If that sync
    fails, or the process dies before it, the next [open] adopts the segment without
    syncing the directory again. *)

Module RestartGap.
Import WalSample.

(** The rotation for [b2] creates the segment; syncing the directory fails. *)
Definition v1 : Wal := snd (append sum32 b2 true (set_io [IoOk; IoOk; IoFail] w1)).

(** The process restarts (no crash of the machine) and appends [b2] again. *)
Definition v2 : Wal := snd (open sum32 (new_wal (w_disk v1) [] 16)).
Definition v3 : Wal := snd (append sum32 b2 true v2).

(** The machine crashes; the entry that was never synced is gone. *)
Definition lost : Disk :=
  let files := delete (segment_name 1) (d_files (k_root (w_disk v3))) in
  mkDisk (mkDir files (dom files)) ∅ ∅ None.

Lemma crash_lost : crash_disk (w_disk v3) lost.
Proof.
  assert (E : d_files (k_root (w_disk v3)) =
    {[ segment_name 0 := mkFile (frame sum32 b1) 10; segment_name 1 := mkFile (frame sum32 b2) 9 ]})
    by (apply (bool_decide_unpack _); vm_compute; exact I).
  assert (D : d_durable (k_root (w_disk v3)) = {[ segment_name 0 ]})
    by (apply (bool_decide_unpack _); vm_compute; exact I).
  assert (N : segment_name 0 <> segment_name 1) by (by vm_compute).
  split; [split|split; [|split; [|split]]].
  - intros name _. unfold crash_entry, lost. rewrite E, D. simpl.
    destruct (decide (name = segment_name 1)) as [->|N1].
    + rewrite lookup_insert_ne, lookup_singleton_eq by done. right. rewrite elem_of_singleton.
      split; [done|]. apply lookup_delete_eq.
    + rewrite lookup_delete_ne by done. destruct (decide (name = segment_name 0)) as [->|N0].
      * rewrite lookup_insert_eq. left. eexists. split; [done|]. exists 10%nat.
        split; [by vm_compute; lia|]. by vm_compute.
      * rewrite lookup_insert_ne, lookup_singleton_ne by done. by right.
  - done.
  - exists None. split; [left; vm_compute; reflexivity|]. vm_compute. reflexivity.
  - vm_compute. reflexivity.
  - intros g x Hg. assert (Hz : k_gens_durable (w_disk v3) = ∅) by (vm_compute; reflexivity).
    rewrite Hz in Hg. destruct (not_elem_of_empty g Hg).
  - apply (bool_decide_unpack _). vm_compute. exact I.
Qed.
End RestartGap.

(** The gap is real.  There is an execution in which an [append] with sync
    returned true and a crash afterwards loses the record: a rotation whose
    directory sync failed, a restart of the process, the append, the crash. *)
Theorem restart_may_lose_acked_record :
  fst (append WalSample.sum32 WalSample.b2 true (set_io [IoOk; IoOk; IoFail] WalSample.w1)) = false /\
  fst (open WalSample.sum32 (new_wal (w_disk RestartGap.v1) [] 16)) = (true, [WalSample.b1]) /\
  fst (append WalSample.sum32 WalSample.b2 true RestartGap.v2) = true /\
  exists k, crash_disk (w_disk RestartGap.v3) k /\
    fst (open WalSample.sum32 (new_wal k [] 16)) = (true, [WalSample.b1]).
Proof.
  split; [vm_compute; reflexivity|]. split; [vm_compute; reflexivity|].
  split; [vm_compute; reflexivity|]. exists RestartGap.lost.
  split; [exact RestartGap.crash_lost|]. vm_compute. reflexivity.
Qed.
