(* ===== verification/WalProgress.v ===== *)
(** * WalProgress: compaction completes

    When no system call fails, [compact] of src/src/wal.cc installs the snapshot:
    the search for an unused generation ends, no segment of the new generation
    collides with another, and the log stays open. *)

From Stdlib Require Import ZArith Lia.
From stdpp Require Import base tactics list numbers gmap sorting.
From S2P Require Import Prelude Bytes WalFrame Disk Wal WalRecovery WalCompact WalSpec.

#[local] Opaque segment_name to_string.

(** ** System calls that succeed *)

Definition calm (w : Wal) : Prop := w_io w = [].

Lemma sys_ok_calm w : calm w -> sys_ok w = (true, w).
Proof. unfold calm, sys_ok. by intros ->. Qed.

Lemma sync_data_calm d name w :
  calm w -> sync_data_fd d name w = (true, set_disk (sync_file (w_disk w) d name) w).
Proof. intros H. unfold sync_data_fd. by rewrite sys_ok_calm. Qed.

Lemma sync_directory_calm d w :
  calm w -> sync_directory d w = (true, set_disk (sync_dir_entries (w_disk w) d) w).
Proof. intros H. unfold sync_directory. by rewrite sys_ok_calm. Qed.

Lemma write_fd_calm d name data w :
  calm w -> exists w', write_fd d name data w = (true, w') /\ calm w'.
Proof.
  intros H. unfold write_fd. rewrite H. destruct data; simpl; eexists; done.
Qed.

Ltac calm :=
  repeat first
    [ rewrite sys_ok_calm by done | rewrite sync_data_calm by done
    | rewrite sync_directory_calm by done ]; cbn [negb].

(** ** What leaves the generations alone *)

Definition same_gens (w w' : Wal) : Prop :=
  w_generation w' = w_generation w /\ size (k_gens (w_disk w')) = size (k_gens (w_disk w)).

#[global] Instance same_gens_preorder : PreOrder same_gens.
Proof. split; [done|]. intros w1 w2 w3 [? ?] [? ?]. split; congruence. Qed.

Lemma set_dir_gens k d x y : get_dir k d = Some y -> size (k_gens (set_dir k d x)) = size (k_gens k).
Proof. destruct d as [g|]; [|done]. simpl. intros H. by rewrite map_size_insert_Some by (by exists y). Qed.

Lemma set_file_gens k d name f : size (k_gens (set_file k d name f)) = size (k_gens k).
Proof. unfold set_file. destruct (get_dir k d) eqn:E; [by eapply set_dir_gens|done]. Qed.

Lemma sync_file_gens k d name : size (k_gens (sync_file k d name)) = size (k_gens k).
Proof. unfold sync_file. destruct (get_file k d name); [apply set_file_gens|done]. Qed.

Lemma append_file_gens k d name data : size (k_gens (append_file k d name data)) = size (k_gens k).
Proof. unfold append_file. destruct (get_file k d name); [apply set_file_gens|done]. Qed.

Lemma sync_dir_entries_gens k d : size (k_gens (sync_dir_entries k d)) = size (k_gens k).
Proof.
  unfold sync_dir_entries. destruct (get_dir k d) eqn:E; [|done]. destruct d; [by eapply set_dir_gens|done].
Qed.

Lemma sys_ok_gens w ok w' : sys_ok w = (ok, w') -> same_gens w w'.
Proof. unfold sys_ok. destruct (w_io w) as [|[] ?]; intros [= <- <-]; done. Qed.

Lemma sync_data_gens d name w ok w' : sync_data_fd d name w = (ok, w') -> same_gens w w'.
Proof.
  unfold sync_data_fd. destruct (sys_ok w) as [o w1] eqn:E. apply sys_ok_gens in E.
  destruct o; intros [= <- <-]; [|done]. etrans; [exact E|]. split; [done|apply sync_file_gens].
Qed.

Lemma sync_directory_gens d w ok w' : sync_directory d w = (ok, w') -> same_gens w w'.
Proof.
  unfold sync_directory. destruct (sys_ok w) as [o w1] eqn:E. apply sys_ok_gens in E.
  destruct o; intros [= <- <-]; [|done]. etrans; [exact E|]. split; [done|apply sync_dir_entries_gens].
Qed.

Lemma open_active_gens d name create w ok w' : open_active d name create w = (ok, w') -> same_gens w w'.
Proof.
  unfold open_active. destruct (sys_ok _) as [o w1] eqn:E. apply sys_ok_gens in E.
  destruct o; cbn [negb]; [|by intros [= <- <-]].
  destruct (get_file _ _ _); [by intros [= <- <-]|]. destruct create; intros [= <- <-]; [|done].
  etrans; [exact E|]. split; [done|apply set_file_gens].
Qed.

Lemma rotate_gens w ok w' : rotate w = (ok, w') -> same_gens w w'.
Proof.
  unfold rotate. destruct (w_failed w); [by intros [= <- <-]|].
  destruct (w_fd w) as [[d name]|]; [|by intros [= <- <-]].
  destruct (sync_data_fd d name w) as [o1 w1] eqn:E1. apply sync_data_gens in E1.
  destruct o1; cbn [negb]; [|by intros [= <- <-]].
  destruct (open_active _ _ _ w1) as [o2 w2] eqn:E2. apply open_active_gens in E2.
  destruct o2; cbn [negb]; [|by intros [= <- <-]; etrans; [exact E1|]; destruct E2].
  destruct (sync_directory _ _) as [o3 w3] eqn:E3. apply sync_directory_gens in E3.
  pose proof (transitivity E1 E2) as H12.
  destruct o3; cbn [negb]; intros [= <- <-]; (etrans; [exact H12|]); destruct E3; done.
Qed.

Lemma append_gens crc32c b s w ok w' : append crc32c b s w = (ok, w') -> same_gens w w'.
Proof.
  assert (Hframe : forall w1 ok1 w1', append_frame crc32c b s w1 = (ok1, w1') -> same_gens w1 w1').
  { intros w1 ok1 w1'. unfold append_frame. destruct (w_fd w1) as [[d name]|]; [|by intros [= <- <-]].
    unfold write_fd. destruct (write_loop _ _) as [[wr io] o].
    assert (Hw : same_gens w1 (set_disk (append_file (w_disk w1) d name wr) (set_io io w1)))
      by (split; [done|apply append_file_gens]).
    destruct o; cbn [negb]; [|by intros [= <- <-]]. destruct s; [|by intros [= <- <-]].
    unfold sync. simpl. destruct (w_fd w1) as [[d' n']|]; [|by intros [= <- <-]].
    destruct (w_failed w1); [by intros [= <- <-]|].
    destruct (sync_data_fd _ _ _) as [o2 w2] eqn:E2. apply sync_data_gens in E2.
    destruct o2; cbn [negb]; intros [= <- <-]; (etrans; [exact Hw|]); destruct E2; done. }
  unfold append. destruct (_ || _); [by intros [= <- <-]|].
  destruct (_ && _); [|apply Hframe]. destruct (rotate w) as [o w1] eqn:E. apply rotate_gens in E.
  destruct o; cbn [negb]; [|by intros [= <- <-]]. intros H%Hframe. by etrans.
Qed.

(** ** An unused generation is found *)

Lemma gen_name_inj a b : fits 64 a -> fits 64 b -> gen_name a = gen_name b -> a = b.
Proof.
  intros Ha Hb E. unfold gen_name in E. apply app_inv_head in E.
  pose proof (dec_digits_ltb 20 a b (u64_20_digits a Ha) (u64_20_digits b Hb)) as H1.
  pose proof (dec_digits_ltb 20 b a (u64_20_digits b Hb) (u64_20_digits a Ha)) as H2.
  rewrite E, bytes_ltb_irrefl in *. lia.
Qed.

(** Among one more name than a map has keys, one is not a key. *)
Lemma pigeonhole {A} (m : gmap bytes A) (f : nat -> bytes) :
  (forall i j, (i <= size m)%nat -> (j <= size m)%nat -> f i = f j -> i = j) ->
  exists i, (i <= size m)%nat /\ m !! f i = None.
Proof.
  intros Hinj.
  destruct (decide (Forall (fun i => is_Some (m !! f i)) (seq 0 (S (size m))))) as [HF|HF].
  - exfalso.
    assert (Hnd : NoDup (f <$> seq 0 (S (size m)))).
    { apply (NoDup_fmap_2_strong f); [|apply NoDup_seq].
      intros i j Hi%elem_of_seq Hj%elem_of_seq E. apply Hinj; [lia|lia|done]. }
    assert (Hsub : f <$> seq 0 (S (size m)) ⊆+ elements (dom m)).
    { apply NoDup_submseteq; [done|]. intros k (i & -> & Hi)%list_elem_of_fmap.
      rewrite elem_of_elements, elem_of_dom. rewrite Forall_forall in HF. by apply HF. }
    apply submseteq_length in Hsub. rewrite length_fmap, length_seq in Hsub.
    change (length (elements (dom m))) with (size (dom m)) in Hsub. rewrite size_dom in Hsub. lia.
  - apply (not_Forall_Exists _) in HF.
    apply Exists_exists in HF as (i & Hi%elem_of_seq & HN). exists i. split; [lia|].
    by apply eq_None_not_Some.
Qed.

Lemma make_generation_progress fuel g w i :
  calm w -> (i < fuel)%nat -> 0 <= g -> g + Z.of_nat i < 2 ^ 64 - 1 ->
  k_gens (w_disk w) !! gen_name (g + Z.of_nat i) = None ->
  exists g' w', make_generation fuel g w = (Some g', w') /\ calm w'.
Proof.
  intros Hc. revert g i. induction fuel as [|fuel IH]; intros g i Hi Hg Hlim Hfree; [lia|].
  cbn [make_generation]. calm. destruct (k_gens (w_disk w) !! gen_name g) eqn:E; [|by eexists _, _].
  destruct i as [|i]; [rewrite Z.add_0_r in Hfree; congruence|].
  rewrite (proj2 (Z.eqb_neq _ _)) by lia. rewrite wrap_id by (unfold fits; lia).
  apply (IH (g + 1) i); [lia..|]. by replace (g + 1 + Z.of_nat i) with (g + Z.of_nat (S i)) by lia.
Qed.

Lemma make_generation_found w g :
  calm w -> 0 <= g -> g + Z.of_nat (size (k_gens (w_disk w))) < 2 ^ 64 - 1 ->
  exists g' w', make_generation (S (size (k_gens (w_disk w)))) g w = (Some g', w') /\ calm w'.
Proof.
  intros Hc Hg Hlim.
  destruct (pigeonhole (k_gens (w_disk w)) (fun i => gen_name (g + Z.of_nat i))) as (i & Hi & Hfree).
  - intros i j Hi Hj E. apply gen_name_inj in E; unfold fits; lia.
  - apply (make_generation_progress _ g w i); try done; lia.
Qed.

(** ** The snapshot is written *)

Section progress.
Context (crc32c : bytes -> Z) (crc_fits : forall b, fits 32 (crc32c b)).

Lemma open_segment_progress w g s out sz lsn :
  calm w -> writing crc32c w g s out sz lsn -> 0 < sz -> lsn < 2 ^ 64 ->
  exists out' w', open_segment (Some g) lsn out w = (true, out', w') /\ calm w'.
Proof.
  intros Hc (Hg & Ht & -> & -> & ->) Hpos Hlen. unfold open_segment. calm.
  assert (Hl : sl_last s <> []) by (intros E; rewrite E in Hpos; by vm_compute in Hpos).
  pose proof (sync_data_gen _ _ _ _ _ _ Hg (sync_data_calm _ _ _ Hc) eq_refl) as Hs1.
  destruct (gen_at_new _ _ _ _ Hs1 Ht Hl eq_refl Hlen) as [Hnone _].
  change (sl_log (synced crc32c s)) with (sl_log s) in Hnone. cbn [w_disk set_disk] in *.
  rewrite Hnone. by eexists _, _.
Qed.

Lemma write_snapshot_progress snap w g s out sz lsn :
  calm w -> writing crc32c w g s out sz lsn -> Forall body_ok snap ->
  lsn + Z.of_nat (length snap) < 2 ^ 64 ->
  exists name lsn' w', write_snapshot crc32c (Some g) snap out sz lsn w = (true, Some name, lsn', w') /\ calm w'.
Proof.
  revert w s out sz lsn. induction snap as [|b snap IH]; intros w s out sz lsn Hc Hw Hb Hlen; cbn [write_snapshot].
  { destruct Hw as (_ & _ & -> & _). by eexists _, _, _. }
  inversion_clear Hb as [|? ? Hb1 Hb2]. simpl in Hlen.
  assert (H1 : exists out1 sz1 w1 s1,
    (if (0 <? sz) && (w_segment_bytes w <? sz + (Z.of_nat kFrameHeader + Z.of_nat (length b)))
     then let '(ok, out, w) := open_segment (Some g) lsn out w in (ok, out, 0, w)
     else (true, out, sz, w)) = (true, out1, sz1, w1) /\ calm w1 /\ writing crc32c w1 g s1 out1 sz1 lsn).
  { destruct (_ && _) eqn:R; [|by exists out, sz, w, s]. apply andb_true_iff in R as [R%Z.ltb_lt _].
    destruct (open_segment_progress w g s out sz lsn Hc Hw) as (out1 & w1 & E & Hc1); [lia|lia|].
    rewrite E. exists out1, 0, w1, (rotated s). split_and!; [done|done|].
    eapply open_segment_next; [exact Hw|lia|lia|exact E|done]. }
  destruct H1 as (out1 & sz1 & w1 & s1 & E1 & Hc1 & Hw1). rewrite E1. cbn [negb].
  pose proof Hw1 as (_ & _ & -> & _ & Elsn).
  destruct (write_fd_calm (Some g) (segment_name (sl_start s1)) (frame crc32c b) w1 Hc1) as (w2 & E2 & Hc2).
  rewrite E2. cbn [negb].
  destruct (writing_frame _ _ _ _ _ _ _ _ _ Hw1 Hb1 ltac:(lia) E2) as (s2 & Hw2 & _).
  eapply (IH w2 s2); try done. rewrite wrap_id by (unfold fits; lia). lia.
Qed.

Lemma build_generation_progress snap w log a :
  calm w -> wal_ok crc32c w log a -> Forall body_ok snap -> Z.of_nat (length snap) < 2 ^ 64 ->
  0 <= w_generation w -> w_generation w + 1 + Z.of_nat (size (k_gens (w_disk w))) < 2 ^ 64 - 1 ->
  exists g lsn w', build_generation crc32c snap w = (Some (g, lsn), w') /\ calm w'.
Proof.
  intros Hc Hw Hb Hlen Hg0 Hlim. unfold build_generation.
  assert (Hfit : fits 64 (w_generation w + 1)) by (unfold fits; lia). rewrite (wrap_id 64) by exact Hfit.
  destruct (make_generation_found w (w_generation w + 1) Hc) as (g & w1 & E1 & Hc1); [lia..|].
  rewrite E1.
  destruct (make_generation_spec crc32c _ _ _ _ _ Hfit (wal_ok_active _ _ _ _ Hw) E1) as [_ H1].
  destruct (H1 g eq_refl) as (_ & Hgen & _).
  unfold open_segment. calm. unfold get_file at 1. simpl. rewrite Hgen. simpl. rewrite lookup_empty.
  set (w2 := set_disk _ w1).
  assert (Hw2 : writing crc32c w2 (gen_name g) (mkSegLog [] [] [] 0) (Some (segment_name 0)) 0 0).
  { split_and!; try done. by apply gen_at_first. }
  destruct (write_snapshot_progress snap w2 _ _ _ _ _ Hc1 Hw2 Hb) as (name & lsn & w3 & E3 & Hc3); [lia|].
  rewrite E3. calm. cbn [andb negb]. calm. by eexists _, _, _.
Qed.

Lemma install_pointer_progress g w : calm w -> exists w', install_pointer g w = (true, w') /\ calm w'.
Proof.
  intros Hc. unfold install_pointer. calm.
  match goal with |- context [write_fd ?d ?n ?x ?w2] =>
    destruct (write_fd_calm d n x w2 Hc) as (w3 & -> & Hc3) end.
  calm. by eexists.
Qed.

Lemma adopt_generation_progress g snap lsn w :
  calm w -> gen_complete crc32c (w_disk w) g snap ->
  exists w', adopt_generation g lsn w = (true, w') /\ calm w'.
Proof.
  intros Hc (y & s & Hy & Hs & _). pose proof (dl_listing _ _ _ Hs) as HL.
  assert (Hlook : d_files y !! segment_name (sl_start s) = Some (sl_file crc32c s)).
  { apply (listing_lookup _ _ _ _ HL). rewrite elem_of_app, list_elem_of_singleton. by right. }
  unfold adopt_generation. calm. cbn [w_disk w_active set_active set_fd get_dir]. rewrite Hy.
  rewrite (segment_files_listing _ _ HL), fmap_app. cbn [fmap list_fmap fst].
  rewrite last_snoc. cbn [default]. rewrite bool_decide_eq_false_2 by (by intros [_ [=]]%app_eq_nil).
  edestruct (open_active_existing (Some (gen_name g)) (segment_name (sl_start s)) false)
    as (o2 & io2 & E2 & Hio); [|rewrite E2]; [unfold get_file; simpl; by rewrite Hy|].
  destruct (Hio Hc) as [-> ->]. calm. by eexists.
Qed.

Lemma remove_gens_progress names w : calm w -> exists w', remove_gens names w = (true, w') /\ calm w'.
Proof.
  revert w. induction names as [|g names IH]; intros w Hc; cbn [remove_gens]; [by eexists|].
  case_match; [|by apply IH]. calm. by apply IH.
Qed.

Lemma unlink_segments_progress names w : calm w -> exists w', unlink_segments names w = (true, w') /\ calm w'.
Proof.
  revert w. induction names as [|n names IH]; intros w Hc; cbn [unlink_segments]; [by eexists|].
  case_match; [|by apply IH]. calm. by apply IH.
Qed.

Lemma cleanup_progress w : calm w -> exists w', cleanup w = (true, w').
Proof.
  intros Hc. unfold cleanup. calm.
  destruct (remove_gens_progress (elements (dom (k_gens (w_disk w)))) w Hc) as (w1 & -> & Hc1). cbn [negb].
  destruct (unlink_segments_progress (elements (dom (d_files (k_root (w_disk w1))))) w1 Hc1) as (w2 & -> & Hc2).
  calm. by eexists.
Qed.

(** The number of a generation is a uint64_t. *)
Lemma wal_ok_generation w log a : wal_ok crc32c w log a -> 0 <= w_generation w.
Proof.
  intros (x & s & (_ & _ & _ & Hp & _) & _). unfold pointer_ok in Hp.
  destruct (w_active w); [destruct Hp as (_ & [? _] & _)|destruct Hp as (_ & _ & ->)]; lia.
Qed.

Lemma sync_calm w log a :
  calm w -> wal_ok crc32c w log a -> w_failed w = false ->
  exists w', sync w = (true, w') /\ calm w' /\ w_generation w' = w_generation w /\
    size (k_gens (w_disk w')) = size (k_gens (w_disk w)).
Proof.
  intros Hc (x & s & (_ & _ & _ & _ & Hr) & _) Hf. destruct (Hr Hf) as (Efd & _).
  unfold sync. rewrite Efd, Hf. calm. eexists. split; [done|]. split_and!; [done|done|].
  apply sync_file_gens.
Qed.

Lemma compact_progress w log a snap :
  calm w -> wal_ok crc32c w log a -> w_failed w = false -> Forall body_ok snap ->
  Z.of_nat (length snap) < 2 ^ 64 ->
  w_generation w + 1 + Z.of_nat (size (k_gens (w_disk w))) < 2 ^ 64 - 1 ->
  exists w', compact crc32c snap (fun _ => true) w = (true, w').
Proof.
  intros Hc Hw Hf Hb Hlen Hlim. unfold compact.
  assert (Hfd : w_fd w <> None).
  { destruct Hw as (x & s & (_ & _ & _ & _ & Hr) & _). destruct (Hr Hf) as (-> & _). done. }
  rewrite bool_decide_eq_false_2 by done. rewrite Hf. cbn [orb].
  assert (Eb : existsb (fun b => bool_decide (b = []) || (kMaxBody <? Z.of_nat (length b))) snap = false).
  { clear -Hb. induction Hb as [|b snap H _ IH]; [done|]. cbn [existsb].
    rewrite IH, orb_false_r. by apply append_guard_body. }
  rewrite Eb.
  destruct (sync_calm w log a Hc Hw Hf) as (w1 & E1 & Hc1 & Eg1 & Es1).
  destruct (sync_ok crc32c w log a Hw) as (o1 & w1' & a1 & E1' & Hw1 & _). rewrite E1 in E1'.
  injection E1' as <- <-. rewrite E1. cbn [negb].
  destruct (build_generation_progress snap w1 log a1 Hc1 Hw1 Hb Hlen) as (g & lsn & w2 & E2 & Hc2);
    [by eapply wal_ok_generation|rewrite Eg1, Es1; lia|]. rewrite E2. cbn [negb].
  destruct (build_generation_spec _ _ _ _ _ _ _ Hw1 Hb Hlen E2) as [_ H2].
  destruct (H2 g lsn eq_refl) as (Hgen & -> & _).
  destruct (install_pointer_progress g w2 Hc2) as (w3 & E3 & Hc3). rewrite E3. calm.
  apply (install_pointer_spec crc32c) in E3 as [[[=] _]|[_ (w2' & _ & -> & _ & Eg & Ed)]].
  match goal with |- context [adopt_generation g ?l ?x] =>
    destruct (adopt_generation_progress g snap l x) as (w4 & -> & Hc4); [done| |] end.
  - assert (Ek : k_gens (rename_current (w_disk w2')) = k_gens (w_disk w2))
      by (unfold rename_current; by destruct (_ !! pointer_tmp)).
    apply (gen_complete_ext crc32c (w_disk w2)); [done|simpl; by rewrite Ek|]. intros _. simpl.
    rewrite Ek, elem_of_dom. destruct Hgen as (y & s & Hy & _). by exists y.
  - cbn [negb]. by apply cleanup_progress.
Qed.
End progress.

(** ** Property *)

(** C21: a compaction completes.  Over a log that has not stopped, when the system
    calls succeed and the generation numbers are not used up, [compact] of a snapshot
    of legal bodies returns true: an unused generation is found among one more than
    there are, the log holds the snapshot, durable, and accepts records. *)
Theorem compaction_completes (crc32c : bytes -> Z) tr w snap :
  (forall b, fits 32 (crc32c b)) -> wal_run crc32c tr w -> Z.of_nat (run_size tr) < 2 ^ 64 - 1 ->
  w_failed w = false -> Forall body_ok snap -> Z.of_nat (length snap) < 2 ^ 64 ->
  w_generation w + 1 + Z.of_nat (size (k_gens (w_disk w))) < 2 ^ 64 - 1 ->
  exists w', compact crc32c snap (fun _ => true) (set_io [] w) = (true, w') /\
    wal_ok crc32c w' snap (length snap) /\ w_failed w' = false.
Proof.
  intros Hcrc Hr Hn Hf Hb Hlen Hlim. destruct (run_implements crc32c Hcrc tr w Hr Hn) as (l & _ & Hi).
  destruct l as [log d|log d s0]; [|destruct Hi; congruence]. destruct Hi as [Hw _].
  destruct (compact_progress crc32c (set_io [] w) log d snap) as (w' & E); try done.
  exists w'. split; [done|].
  destruct (compact_ok crc32c (set_io [] w) log d snap _ _ _ Hw Hlen E) as [[=]|Hok Hfl|[=]]. auto.
Qed.

Lemma compaction_completes_witness :
  exists w', compact WalSample.sum32 [WalSample.b2; WalSample.b1] (fun _ => true)
      (set_io [] WalSample.w1) = (true, w') /\
    wal_ok WalSample.sum32 w' [WalSample.b2; WalSample.b1] 2 /\ w_failed w' = false.
Proof.
  apply (compaction_completes WalSample.sum32 WalSample.run1 WalSample.w1
    [WalSample.b2; WalSample.b1] WalSample.sum32_fits WalSample.run1_ok);
    try (vm_compute; reflexivity).
  repeat constructor; by vm_compute.
Defined.
