(* ===== verification/Store.v ===== *)
(** * Store: class JobStore of src/src/store.h and store.cc

    The job table together with its log: [open] replays, [commit] appends and then
    applies, [compact] replaces the log by one full record per job.  The theorems
    say that a restart rebuilds exactly the table the node had. *)

From Stdlib Require Import ZArith Lia.
From stdpp Require Import base tactics list numbers gmap sorting.
From S2P Require Import Prelude Bytes Wire Records Table WalFrame Disk Wal WalRecovery.
From S2P Require Import WalCompact WalSpec.

Record JobStore := mkStore { s_wal : Wal; s_table : Table }.

(** The replay lambda of [open]: an undecodable body is skipped. *)
Definition replay_one (t : Table) (body : bytes) : Table :=
  match decode_record body with
  | Val (r, _) => apply t r
  | _ => t
  end.

Definition replay (bodies : list bytes) : Table := foldl replay_one empty_table bodies.

(** The comparator of [compact]. *)
Definition id_ltb (a b : JobId) : bool :=
  (origin a <? origin b) || ((origin a =? origin b) && (nonce a <? nonce b)).

Definition job_before (t : Table) (a b : Job) : bool :=
  if bool_decide (j_idem_key a <> j_idem_key b) then bytes_ltb (j_idem_key a) (j_idem_key b) else
  let selected := by_idem t !! j_idem_key a in
  let a_selected := bool_decide (selected = Some (j_id a)) in
  let b_selected := bool_decide (selected = Some (j_id b)) in
  if negb (Bool.eqb a_selected b_selected) then negb a_selected else id_ltb (j_id a) (j_id b).

Definition job_le (t : Table) (a b : Job) : Prop := job_before t b a = false.

#[global] Instance job_le_dec t a b : Decision (job_le t a b).
Proof. unfold job_le. apply _. Defined.

Definition retained (t : Table) : list Job :=
  merge_sort (job_le t) (snd <$> map_to_list (jobs t)).

(** [snapshot.push_back(encode_record(Record{ReplicateRec{retained[i]}}, i))] *)
Definition snapshot (t : Table) : list bytes :=
  imap (fun i j => encode_record (ReplicateRec j) (Z.of_nat i)) (retained t).

(** The default of [segment_bytes_]. *)
Definition kSegmentBytes : Z := Z.shiftl 64 20.

Section store.
Context (crc32c : bytes -> Z).

Definition store_open (k : Disk) (io : list Io) (segment_bytes : Z) : bool * JobStore :=
  let '(ok, seen, w) := open crc32c (new_wal k io segment_bytes) in
  (ok, mkStore w (replay seen)).

Definition commit (r : Rec) (do_sync : bool) (st : JobStore) : bool * JobStore :=
  let body := encode_record r (w_next_lsn (s_wal st)) in
  let '(ok, w) := append crc32c body do_sync (s_wal st) in
  if negb ok then (false, mkStore w (s_table st))
  else (true, mkStore w (apply (s_table st) r)).

Definition store_compact (hook : CompactStage -> bool) (st : JobStore) : bool * JobStore :=
  let '(ok, w) := compact crc32c (snapshot (s_table st)) hook (s_wal st) in
  (ok, mkStore w (s_table st)).
End store.

Lemma commit_table crc32c r sync st ok st' :
  commit crc32c r sync st = (ok, st') ->
  s_table st' = if ok then apply (s_table st) r else s_table st.
Proof.
  unfold commit. destruct (append _ _ _ _) as [ok' w]. by destruct ok'; cbn [negb]; intros [= <- <-].
Qed.

(** ** The comparator is a total order on jobs with distinct ids *)

Lemma id_ltb_irrefl a : id_ltb a a = false.
Proof. unfold id_ltb. rewrite !Z.ltb_irrefl. by rewrite andb_false_r. Qed.

Lemma id_ltb_total a b : id_ltb a b = false -> id_ltb b a = false -> a = b.
Proof.
  unfold id_ltb. destruct a as [ao an], b as [bo bn]. simpl. intros H1 H2.
  repeat match goal with
  | H : context [?u <? ?v] |- _ => destruct (Z.ltb_spec u v)
  | H : context [?u =? ?v] |- _ => destruct (Z.eqb_spec u v)
  end; try done; try lia. f_equal; lia.
Qed.

Lemma id_ltb_trans a b c : id_ltb a b = true -> id_ltb b c = true -> id_ltb a c = true.
Proof.
  unfold id_ltb. destruct a as [ao an], b as [bo bn], c as [co cn]. simpl. intros H1 H2.
  repeat match goal with
  | H : context [?u <? ?v] |- _ => destruct (Z.ltb_spec u v)
  | H : context [?u =? ?v] |- _ => destruct (Z.eqb_spec u v)
  | |- context [?u <? ?v] => destruct (Z.ltb_spec u v)
  | |- context [?u =? ?v] => destruct (Z.eqb_spec u v)
  end; try done; lia.
Qed.

(** [job_before] compares lexicographically: key, not selected, id. *)
Definition job_rank (t : Table) (j : Job) : bool :=
  bool_decide (by_idem t !! j_idem_key j = Some (j_id j)).

Lemma job_before_same_key t a b :
  j_idem_key a = j_idem_key b ->
  job_before t a b =
  if negb (Bool.eqb (job_rank t a) (job_rank t b)) then negb (job_rank t a)
  else id_ltb (j_id a) (j_id b).
Proof.
  intros E. unfold job_before, job_rank. rewrite bool_decide_eq_false_2 by naive_solver.
  by rewrite E.
Qed.

Lemma job_before_other_key t a b :
  j_idem_key a <> j_idem_key b -> job_before t a b = bytes_ltb (j_idem_key a) (j_idem_key b).
Proof. intros E. unfold job_before. by rewrite bool_decide_eq_true_2. Qed.

Lemma job_before_asym t a b : job_before t a b = true -> job_before t b a = false.
Proof.
  destruct (decide (j_idem_key a = j_idem_key b)) as [E|E].
  - rewrite !job_before_same_key by done.
    destruct (job_rank t a), (job_rank t b); simpl; try done;
      destruct (id_ltb (j_id b) (j_id a)) eqn:E2; try done; intros E1;
      pose proof (id_ltb_trans _ _ _ E1 E2) as H; by rewrite id_ltb_irrefl in H.
  - rewrite !job_before_other_key by done. intros H.
    destruct (bytes_ltb (j_idem_key b) (j_idem_key a)) eqn:E2; [|done].
    pose proof (bytes_ltb_trans _ _ _ H E2) as H3. by rewrite bytes_ltb_irrefl in H3.
Qed.

Lemma job_le_total t : Total (job_le t).
Proof.
  intros a b. unfold job_le. destruct (job_before t b a) eqn:E; [right|by left].
  by apply job_before_asym.
Qed.

Lemma job_le_antisym t a b : job_le t a b -> job_le t b a -> j_id a = j_id b.
Proof.
  unfold job_le. destruct (decide (j_idem_key a = j_idem_key b)) as [E|E].
  - rewrite !job_before_same_key by done.
    destruct (job_rank t a), (job_rank t b); simpl; try done; intros; by apply id_ltb_total.
  - rewrite !job_before_other_key by done. intros H1 H2. by destruct (E (bytes_ltb_total _ _ H2 H1)).
Qed.

Lemma bytes_ltb_neg a b : a <> b -> bytes_ltb a b = negb (bytes_ltb b a).
Proof.
  intros Hne. destruct (bytes_ltb a b) eqn:E1, (bytes_ltb b a) eqn:E2; try done.
  - pose proof (bytes_ltb_trans _ _ _ E1 E2) as H. by rewrite bytes_ltb_irrefl in H.
  - by destruct (Hne (bytes_ltb_total _ _ E1 E2)).
Qed.

Lemma id_ltb_not_trans a b c :
  id_ltb b a = false -> id_ltb c b = false -> id_ltb c a = false.
Proof.
  unfold id_ltb. destruct a as [ao an], b as [bo bn], c as [co cn]. simpl. intros H1 H2.
  repeat match goal with
  | H : context [?u <? ?v] |- _ => destruct (Z.ltb_spec u v)
  | H : context [?u =? ?v] |- _ => destruct (Z.eqb_spec u v)
  | |- context [?u <? ?v] => destruct (Z.ltb_spec u v)
  | |- context [?u =? ?v] => destruct (Z.eqb_spec u v)
  end; try done; lia.
Qed.

Lemma job_le_trans t : Transitive (job_le t).
Proof.
  intros a b c. unfold job_le.
  destruct (decide (j_idem_key a = j_idem_key b)) as [E1|E1],
    (decide (j_idem_key b = j_idem_key c)) as [E2|E2].
  - assert (E3 : j_idem_key a = j_idem_key c) by congruence.
    rewrite !job_before_same_key by done.
    destruct (job_rank t a), (job_rank t b), (job_rank t c); simpl; try done;
      apply id_ltb_not_trans.
  - rewrite !(job_before_other_key t c) by congruence. rewrite E1. done.
  - intros H1 _. rewrite job_before_other_key in H1 |- * by congruence. congruence.
  - destruct (decide (j_idem_key a = j_idem_key c)) as [E3|E3].
    + rewrite !(job_before_other_key _ _ b), (job_before_other_key _ b) by congruence.
      rewrite E3. rewrite (bytes_ltb_neg (j_idem_key b)) by congruence.
      intros ?%negb_false_iff. congruence.
    + rewrite !job_before_other_key by congruence. intros H1 H2.
      rewrite bytes_ltb_neg in H1, H2 |- * by congruence.
      rewrite negb_false_iff in H1, H2 |- *. by eapply bytes_ltb_trans.
Qed.

#[local] Existing Instances job_le_total job_le_trans.

(** ** Rebuilding a table from its snapshot *)

(** The index points at jobs that carry the key, and every job's key is indexed. *)
Record indexed (t : Table) : Prop := {
  ix_key : forall k id, by_idem t !! k = Some id ->
    exists j, find t id = Some j /\ j_idem_key j = k;
  ix_job : forall id j, find t id = Some j -> is_Some (by_idem t !! j_idem_key j)
}.

Lemma elem_of_retained t j :
  table_wf t -> j ∈ retained t <-> find t (j_id j) = Some j.
Proof.
  intros Hw. unfold retained. rewrite merge_sort_Permutation, list_elem_of_fmap. unfold find. split.
  - intros ([id j'] & -> & Hin). apply elem_of_map_to_list in Hin. simpl in *.
    by rewrite (tw_id _ Hw _ _ Hin).
  - intros H. exists (j_id j, j). split; [done|]. by apply elem_of_map_to_list.
Qed.

Lemma retained_NoDup t : table_wf t -> NoDup (j_id <$> retained t).
Proof.
  intros Hw. unfold retained. rewrite merge_sort_Permutation, <- list_fmap_compose.
  rewrite (list_fmap_ext _ fst).
  - apply NoDup_fst_map_to_list.
  - intros i [id j] Hin. simpl. apply (tw_id _ Hw). apply list_elem_of_lookup_2 in Hin.
    by apply elem_of_map_to_list in Hin.
Qed.

Lemma retained_sorted t : StronglySorted (job_le t) (retained t).
Proof. apply StronglySorted_merge_sort; apply _. Qed.

(** Applying full copies of distinct unknown jobs inserts them. *)
Lemma apply_copies_find l t id :
  NoDup (j_id <$> l) -> (forall j, j ∈ l -> find t (j_id j) = None) ->
  find (apply_all t (ReplicateRec <$> l)) id =
  match list_find (fun j => j_id j = id) l with Some (_, j) => Some j | None => find t id end.
Proof.
  revert t. induction l as [|j l IH]; intros t Hnd Hnone; [done|]. csimpl in *.
  apply NoDup_cons in Hnd as [Hj Hnd].
  assert (Hf : forall i, find (apply t (ReplicateRec j)) i = if decide (i = j_id j) then Some j else find t i).
  { intros i. rewrite apply_find. simpl. case_decide as E; [|done]. subst i.
    rewrite Hnone; [done|]. rewrite elem_of_cons. by left. }
  change (apply_all t (ReplicateRec j :: (ReplicateRec <$> l)))
    with (apply_all (apply t (ReplicateRec j)) (ReplicateRec <$> l)).
  rewrite IH; [|done|].
  - rewrite Hf. case_decide as E.
    + subst id. rewrite decide_True by done.
      rewrite (proj2 (list_find_None _ _)); [done|]. apply Forall_forall. intros x Hx E.
      apply Hj. rewrite list_elem_of_fmap. by exists x.
    + rewrite (decide_False (P := j_id j = id)) by congruence.
      by destruct (list_find _ l) as [[]|].
  - intros x Hx. rewrite Hf, decide_False.
    + apply Hnone. rewrite elem_of_cons. by right.
    + intros E. apply Hj. rewrite list_elem_of_fmap. by exists x.
Qed.

(** The index keeps, for each key, the last copy that carries it. *)
Lemma apply_copies_index l t k :
  by_idem (apply_all t (ReplicateRec <$> l)) !! k =
  match last (filter (fun j => j_idem_key j = k) l) with
  | Some j => Some (j_id j)
  | None => by_idem t !! k
  end.
Proof.
  induction l as [|j l IH] using rev_ind; [done|].
  rewrite fmap_app, filter_app. unfold apply_all in *. rewrite foldl_app.
  cbn [foldl fmap list_fmap]. rewrite apply_by_idem. cbn [rec_copy].
  cbn [filter list_filter]. case_decide as E.
  - subst k. rewrite lookup_insert_eq. by rewrite last_snoc.
  - rewrite lookup_insert_ne by done. by rewrite app_nil_r, IH.
Qed.

Lemma sorted_last_key t l j :
  StronglySorted (job_le t) l -> NoDup (j_id <$> l) -> j ∈ l ->
  by_idem t !! j_idem_key j = Some (j_id j) ->
  last (filter (fun x => j_idem_key x = j_idem_key j) l) = Some j.
Proof.
  intros Hs Hnd Hin Hsel. induction Hs as [|x l Hs IH Hx]; [by apply elem_of_nil in Hin|].
  rewrite fmap_cons in Hnd. apply NoDup_cons in Hnd as [Hxl Hnd]. rewrite filter_cons.
  apply elem_of_cons in Hin as [->|Hin].
  - rewrite decide_True by done. rewrite last_cons.
    destruct (last _) as [y|] eqn:Ey; [|done]. exfalso.
    apply last_Some_elem_of, list_elem_of_filter in Ey as [Hk Hy].
    rewrite Forall_forall in Hx. specialize (Hx y Hy). unfold job_le in Hx.
    rewrite job_before_same_key in Hx by done.
    assert (R1 : job_rank t x = true) by (unfold job_rank; by rewrite bool_decide_eq_true_2).
    assert (R2 : job_rank t y = false).
    { unfold job_rank. rewrite Hk, Hsel. apply bool_decide_eq_false_2. intros [= E]. apply Hxl.
      rewrite E, list_elem_of_fmap. by exists y. }
    by rewrite R1, R2 in Hx.
  - specialize (IH Hnd Hin). case_decide; [|done]. by rewrite last_cons, IH.
Qed.

(** Replaying the snapshot gives back the jobs and the index. *)
Lemma apply_retained t :
  table_wf t -> indexed t -> apply_all empty_table (ReplicateRec <$> retained t) = t.
Proof.
  intros Hw Hi. pose proof (retained_NoDup t Hw) as Hnd. apply table_eq.
  - intros id. rewrite apply_copies_find; [|done|intros; unfold find; simpl; apply lookup_empty].
    destruct (list_find _ _) as [[n j]|] eqn:E.
    + apply list_find_Some in E as (Hn & <- & _). apply list_elem_of_lookup_2 in Hn.
      by apply elem_of_retained in Hn.
    + unfold find at 1. simpl. rewrite lookup_empty.
      destruct (find t id) as [j|] eqn:Ef; [|done]. exfalso.
      apply list_find_None in E. rewrite Forall_forall in E. pose proof (tw_id _ Hw _ _ Ef) as Ej.
      apply (E j); [|done]. apply elem_of_retained; [done|]. by rewrite Ej.
  - apply map_eq. intros k. rewrite apply_copies_index.
    destruct (by_idem t !! k) as [id|] eqn:Ek.
    + destruct (ix_key _ Hi _ _ Ek) as (j & Hf & <-). pose proof (tw_id _ Hw _ _ Hf) as <-.
      rewrite (sorted_last_key t _ j); auto using retained_sorted.
      by apply elem_of_retained.
    + destruct (last _) as [j|] eqn:El; [exfalso|apply lookup_empty].
      apply last_Some_elem_of, list_elem_of_filter in El as [<- Hj].
      apply elem_of_retained in Hj; [|done]. destruct (ix_job _ Hi _ _ Hj). congruence.
Qed.

(** ** Replay of encoded records *)

Lemma replay_one_encode t r lsn :
  rec_wf r -> fits 64 lsn -> replay_one t (encode_record r lsn) = apply t r.
Proof.
  intros Hr Hl. unfold replay_one. rewrite <- (app_nil_r (encode_record r lsn)).
  by rewrite decode_encode_record.
Qed.

Lemma replay_snoc log b : replay (log ++ [b]) = replay_one (replay log) b.
Proof. unfold replay. by rewrite foldl_app. Qed.

Lemma snapshot_body_ok r lsn : rec_wf r -> body_ok (encode_record r lsn).
Proof.
  intros Hr. unfold body_ok, kMaxBody. rewrite encode_record_app, !length_app, !length_le_bytes.
  assert (length (rec_body_bytes r) <= 1027)%nat; [|lia].
  assert (Hj : forall j, job_wf j -> (length (job_bytes j) <= 1027)%nat).
  { intros j []. rewrite length_job_bytes. unfold kMaxIdemKey, kMaxUrl, kMaxJobBody in *. lia. }
  destruct r; simpl in *; auto; unfold rec_body_bytes;
    rewrite ?length_app, ?length_job_id_bytes, ?length_le_bytes, ?length_endpoint_bytes; lia.
Qed.

Lemma replay_copies l t n :
  Forall job_wf l -> Z.of_nat (n + length l) < 2 ^ 64 ->
  foldl replay_one t (imap (fun i j => encode_record (ReplicateRec j) (Z.of_nat (n + i))) l) =
  apply_all t (ReplicateRec <$> l).
Proof.
  intros H. revert t n. induction H as [|j l Hj _ IH]; intros t n Hn; [done|].
  rewrite imap_cons, fmap_cons. cbn [foldl length] in *.
  rewrite replay_one_encode; [|done|unfold fits; lia].
  change (apply_all t (ReplicateRec j :: (ReplicateRec <$> l)))
    with (apply_all (apply t (ReplicateRec j)) (ReplicateRec <$> l)).
  rewrite <- (IH (apply t (ReplicateRec j)) (S n)) by lia. f_equal.
  apply imap_ext. intros i x _. simpl. do 2 f_equal. lia.
Qed.

(** Replaying the compaction snapshot of a table gives the table back. *)
Lemma replay_snapshot t :
  table_wf t -> indexed t -> Z.of_nat (length (retained t)) < 2 ^ 64 ->
  replay (snapshot t) = t.
Proof.
  intros Hw Hi Hl. unfold replay, snapshot. rewrite <- (apply_retained t Hw Hi) at 2.
  rewrite <- (replay_copies (retained t) empty_table 0); [done| |done].
  apply Forall_forall. intros j Hj. apply elem_of_retained in Hj; [|done]. by apply (tw_job _ Hw) in Hj.
Qed.

(** ** The index along a log *)

(** A full copy of a job the table holds carries the key the table has for it; keys
    are pinned at submission. *)
Definition key_agrees (t : Table) (r : Rec) : Prop :=
  forall c j, rec_copy r = Some c -> find t (j_id c) = Some j -> j_idem_key j = j_idem_key c.

Lemma apply_job_key t r j :
  key_agrees t r -> find t (rec_job r) = Some j -> j_idem_key (apply_job r j) = j_idem_key j.
Proof.
  intros Ha Hf. destruct (rec_copy r) as [c|] eqn:Ec.
  - assert (Eid : rec_job r = j_id c) by (destruct r; naive_solver).
    assert (Hkc : j_idem_key j = j_idem_key c) by (apply Ha; [done|congruence]).
    destruct r; simplify_eq/=; repeat case_match; congruence.
  - by destruct (apply_job_pinned r j Ec) as (_ & ? & _).
Qed.

Lemma apply_indexed t r : table_wf t -> indexed t -> key_agrees t r -> indexed (apply t r).
Proof.
  intros Hw [Hk Hj] Ha.
  assert (Hkey : forall id j, find t id = Some j -> exists j',
    find (apply t r) id = Some j' /\ j_idem_key j' = j_idem_key j).
  { intros id j Hf. rewrite (apply_find_Some _ _ _ _ Hf). eexists. split; [done|].
    case_decide as E; [|done]. subst id. by eapply apply_job_key. }
  split.
  - intros k id. rewrite apply_by_idem. destruct (rec_copy r) as [c|] eqn:Ec.
    + rewrite lookup_insert_Some. intros [[<- <-]|[_ H]].
      * destruct (find t (j_id c)) as [j|] eqn:Ef.
        { destruct (Hkey _ _ Ef) as (j' & Hf' & E). exists j'. split; [done|]. rewrite E.
          by apply Ha. }
        exists c. split; [|done]. rewrite apply_find, Ef.
        rewrite decide_True by (destruct r; naive_solver). done.
      * destruct (Hk _ _ H) as (j & Hf & <-). destruct (Hkey _ _ Hf) as (j' & ? & ?). eauto.
    + intros H. destruct (Hk _ _ H) as (j & Hf & <-). destruct (Hkey _ _ Hf) as (j' & ? & ?). eauto.
  - intros id j Hf. rewrite apply_by_idem.
    destruct (find t id) as [j0|] eqn:E0.
    + destruct (Hkey _ _ E0) as (j' & Hf' & E). assert (j' = j) as -> by congruence. rewrite E.
      specialize (Hj _ _ E0). destruct (rec_copy r); [|done]. by apply lookup_insert_is_Some'; right.
    + rewrite apply_find, E0 in Hf. case_decide; [|congruence]. rewrite Hf.
      rewrite lookup_insert_eq. done.
Qed.

(** ** Executions of the store *)

Inductive StoreEvent :=
  | Committed (r : Rec) (ok : bool)
  | Compacted (ok : bool)
  | Restarted.

(** The records that count, and the one in doubt: a commit that returned true counts
    at once; one that returned false leaves the table alone until a restart, which
    finds its record on disk or not. *)
Inductive accounts : list StoreEvent -> list Rec -> option Rec -> Prop :=
  | acc_nil : accounts [] [] None
  | acc_ok tr rs r : accounts tr rs None -> accounts (tr ++ [Committed r true]) (rs ++ [r]) None
  | acc_fail tr rs doubt r : accounts tr rs doubt ->
      accounts (tr ++ [Committed r false]) rs (Some (default r doubt))
  | acc_compact tr rs doubt ok : accounts tr rs doubt -> accounts (tr ++ [Compacted ok]) rs doubt
  | acc_restart tr rs doubt : accounts tr rs doubt -> accounts (tr ++ [Restarted]) rs None
  | acc_found tr rs r : accounts tr rs (Some r) -> accounts (tr ++ [Restarted]) (rs ++ [r]) None.

Section runs.
Context (crc32c : bytes -> Z) (crc_fits : forall b, fits 32 (crc32c b)).

Definition with_io (io : list Io) (st : JobStore) : JobStore :=
  mkStore (set_io io (s_wal st)) (s_table st).

(** [n] bounds the records on disk.  A restart follows a crash of the machine, or the
    end of a process whose log was healthy. *)
Inductive store_run : list StoreEvent -> nat -> JobStore -> Prop :=
  | run_open io sb st : store_open crc32c empty_disk io sb = (true, st) -> store_run [] 0 st
  | run_commit tr n st io r ok st' :
      store_run tr n st -> rec_wf r -> key_agrees (s_table st) r ->
      commit crc32c r true (with_io io st) = (ok, st') ->
      store_run (tr ++ [Committed r ok]) (S n) st'
  | run_compact tr n st io hook ok st' :
      store_run tr n st -> store_compact crc32c hook (with_io io st) = (ok, st') ->
      store_run (tr ++ [Compacted ok]) (n + size (jobs (s_table st))) st'
  | run_restart tr n st k io sb st' :
      store_run tr n st -> crash_disk (w_disk (s_wal st)) k ->
      store_open crc32c k io sb = (true, st') -> store_run (tr ++ [Restarted]) n st'
  | run_reopen tr n st io sb st' :
      store_run tr n st -> w_failed (s_wal st) = false ->
      store_open crc32c (w_disk (s_wal st)) io sb = (true, st') -> store_run (tr ++ [Restarted]) n st'.

(** What a crash can leave of the log, in terms of the table. *)
Definition crash_tables (w : Wal) (n : nat) (P : Table -> Prop) : Prop :=
  forall k, crash_disk (w_disk w) k ->
    exists log, disk_holds crc32c k log /\ (length log <= n)%nat /\ P (replay log).

Record store_inv (rs : list Rec) (doubt : option Rec) (n : nat) (st : JobStore) : Prop := {
  si_table : s_table st = apply_all empty_table rs;
  si_wf : table_wf (s_table st);
  si_indexed : indexed (s_table st);
  si_doubt : forall r, doubt = Some r ->
    rec_wf r /\ key_agrees (s_table st) r /\ w_failed (s_wal st) = true;
  si_live : w_failed (s_wal st) = false -> exists log,
    wal_ok crc32c (s_wal st) log (length log) /\ (length log <= n)%nat /\ replay log = s_table st;
  si_crash : crash_tables (s_wal st) n (fun t => t = s_table st \/
    exists r, doubt = Some r /\ t = apply (s_table st) r)
}.

Lemma wal_ok_crash w log a n (P : Table -> Prop) :
  wal_ok crc32c w log a -> (length log <= n)%nat ->
  (forall log', survives log a log' -> P (replay log')) -> crash_tables w n P.
Proof.
  intros Hw Hn HP k Hk. destruct (crash_wal_ok crc32c w log a k Hw Hk) as (log' & Hh & Hp1 & Hp2).
  exists log'. split; [done|]. split; [apply prefix_length in Hp1; lia|]. by apply HP.
Qed.

Lemma survives_all log log' : survives log (length log) log' -> log' = log.
Proof.
  intros [H1 H2]. rewrite firstn_all in H2. apply prefix_length_eq; [done|].
  by apply prefix_length in H2.
Qed.

Lemma survives_snoc log b log' :
  survives (log ++ [b]) (length log) log' -> log' = log \/ log' = log ++ [b].
Proof.
  intros [[t1 H1] [t2 H2]]. rewrite take_app_length in H2. subst log'.
  rewrite <- app_assoc in H1. apply app_inv_head in H1.
  destruct t2 as [|x t2]; [left; by rewrite app_nil_r|right].
  destruct t2; simplify_eq/=. done.
Qed.

Lemma empty_indexed : indexed empty_table.
Proof. split; intros ? ?; unfold find; simpl; by rewrite lookup_empty. Qed.

Lemma store_open_inv k io sb log rs n st :
  disk_holds crc32c k log -> (length log <= n)%nat -> Z.of_nat n < 2 ^ 64 ->
  store_open crc32c k io sb = (true, st) -> replay log = apply_all empty_table rs ->
  table_wf (apply_all empty_table rs) -> indexed (apply_all empty_table rs) ->
  store_inv rs None n st.
Proof.
  intros Hh Hlog Hn E Er Hwf Hix. unfold store_open in E.
  destruct (disk_holds_open crc32c crc_fits k log io sb Hh) as (ok & seen & w & Eo & _ & Hok); [lia|].
  rewrite Eo in E. injection E as -> <-. destruct (Hok eq_refl) as [-> Hw].
  split; simpl; [done|by rewrite Er|by rewrite Er|done| |].
  - intros _. exists log. done.
  - eapply wal_ok_crash; [exact Hw|done|]. intros log' ->%survives_all. by left.
Qed.

(** A commit: acknowledged, or refused with the log stopped. *)
Lemma commit_inv rs doubt n st io r ok st' :
  store_inv rs doubt n st -> rec_wf r -> key_agrees (s_table st) r ->
  Z.of_nat n < 2 ^ 64 - 1 -> commit crc32c r true (with_io io st) = (ok, st') ->
  if ok then doubt = None /\ store_inv (rs ++ [r]) None (S n) st'
  else store_inv rs (Some (default r doubt)) (S n) st'.
Proof.
  intros [Ht Hwf Hix Hd Hl Hc] Hr Hk Hn. unfold commit. simpl.
  destruct (w_failed (s_wal st)) eqn:Hf.
  - rewrite (proj1 (failed_stuck crc32c (set_io io (s_wal st)) Hf)). intros [= <- <-].
    split; simpl; try done.
    + intros r' [= <-]. destruct doubt as [r0|]; simpl; [by destruct (Hd r0 eq_refl) as (? & ? & _)|done].
    + intros Hf'. simpl in Hf'. congruence.
    + intros k Hk'. destruct (Hc k Hk') as (log & ? & ? & Ht'). exists log. split_and!; [done|lia|].
      destruct Ht' as [?|(r' & -> & ?)]; [by left|right]. by exists r'.
  - destruct (Hl eq_refl) as (log & Hw & Hlog & Er).
    assert (doubt = None) as -> by (destruct doubt as [r0|]; [|done]; by destruct (Hd r0 eq_refl) as (_ & _ & ?)).
    set (body := encode_record r _).
    assert (Hlsn : w_next_lsn (s_wal st) = Z.of_nat (length log)).
    { destruct Hw as (x & s & (_ & _ & _ & _ & Hr') & <-). by destruct (Hr' Hf) as (_ & _ & _ & ? & _). }
    assert (Hone : replay (log ++ [body]) = apply (s_table st) r).
    { rewrite replay_snoc, Er. apply replay_one_encode; [done|]. rewrite Hlsn. unfold fits. lia. }
    destruct (append_ok crc32c (set_io io (s_wal st)) log (length log) body true Hw)
      as (ok' & w' & log' & a' & -> & Hw' & Ha' & Hok & Hprog); [lia|].
    destruct ok'; cbn [negb]; intros [= <- <-].
    + destruct Hok as (_ & -> & _ & Hf' & Ea). rewrite (Ea eq_refl) in Hw'.
      split; [done|]. split; simpl; try done.
      * unfold apply_all. rewrite foldl_app. simpl. unfold apply_all in Ht. by rewrite <- Ht.
      * by apply apply_table_wf.
      * by apply apply_indexed.
      * intros _. exists (log ++ [body]). split_and!; [done| |done]. rewrite length_app. simpl. lia.
      * eapply wal_ok_crash; [exact Hw'| |].
        { rewrite length_app. simpl. lia. }
        intros l ->%survives_all. by left.
    + destruct Hok as [Hlog' Hfl].
      assert (Hf' : w_failed w' = true).
      { destruct Hfl as [[_ []]|?]; [|done]. split; [done|]. by apply snapshot_body_ok. }
      split; simpl; try done.
      * intros r' [= <-]. done.
      * intros Hf''. congruence.
      * eapply wal_ok_crash; [eapply wal_ok_weaken; [exact Hw'|exact Ha']| |].
        { destruct Hlog' as [-> | ->]; rewrite ?length_app; simpl; lia. }
        intros l Hsv. destruct Hlog' as [-> | ->]; [apply survives_all in Hsv as ->; by left|].
        apply survives_snoc in Hsv as [-> | ->]; [by left|right]. by exists r.
Qed.

Lemma length_snapshot t : length (snapshot t) = size (jobs t).
Proof.
  unfold snapshot, retained. rewrite length_imap, merge_sort_Permutation, length_fmap.
  apply length_map_to_list.
Qed.

(** A compaction changes neither the table nor what a crash leaves of it. *)
Lemma compact_inv rs doubt n st io hook ok st' :
  store_inv rs doubt n st -> Z.of_nat (n + size (jobs (s_table st))) < 2 ^ 64 ->
  store_compact crc32c hook (with_io io st) = (ok, st') ->
  store_inv rs doubt (n + size (jobs (s_table st))) st'.
Proof.
  intros [Ht Hwf Hix Hd Hl Hc] Hn. unfold store_compact. simpl.
  destruct (compact crc32c _ hook _) as [ok' w'] eqn:E. intros [= <- <-].
  destruct (w_failed (s_wal st)) eqn:Hf.
  - destruct (failed_stuck crc32c (set_io io (s_wal st)) Hf) as (_ & _ & Hst).
    rewrite Hst in E. injection E as <- <-. split; simpl; try done; [by rewrite Hf|intros Hf'; congruence|].
    intros k Hk. destruct (Hc k Hk) as (log & ? & ? & ?). exists log. split_and!; [done|lia|done].
  - destruct (Hl eq_refl) as (log & Hw & Hlog & Er).
    assert (doubt = None) as -> by (destruct doubt as [r0|]; [|done]; by destruct (Hd r0 eq_refl) as (_ & _ & ?)).
    pose proof (length_snapshot (s_table st)) as Hsz.
    assert (Hsnap : replay (snapshot (s_table st)) = s_table st).
    { apply replay_snapshot; [done|done|]. unfold snapshot in Hsz. rewrite length_imap in Hsz. lia. }
    apply (compact_ok crc32c (set_io io (s_wal st)) log (length log)) in E; [|done|lia].
    destruct E as [-> Hw'|Hw' Hfl| -> Hf' Hcr]; split; simpl; try done.
    + intros _. exists log. split_and!; [done|lia|done].
    + eapply wal_ok_crash; [exact Hw'|lia|]. intros l ->%survives_all. by left.
    + intros _. exists (snapshot (s_table st)). split_and!; [done|lia|done].
    + eapply wal_ok_crash; [exact Hw'|lia|]. intros l ->%survives_all. by left.
    + intros Hx. congruence.
    + intros k Hk. destruct (Hcr k Hk) as (l & Hh & [->|Hsv]).
      * exists (snapshot (s_table st)). split_and!; [done|lia|by left].
      * apply survives_all in Hsv as ->. exists log. split_and!; [done|lia|by left].
Qed.

Lemma apply_all_snoc t rs r : apply_all t (rs ++ [r]) = apply (apply_all t rs) r.
Proof. unfold apply_all. by rewrite foldl_app. Qed.

(** A process restarts over the disk its healthy log left. *)
Lemma store_reopen_inv rs doubt n st io sb st' :
  store_inv rs doubt n st -> w_failed (s_wal st) = false -> Z.of_nat n < 2 ^ 64 ->
  store_open crc32c (w_disk (s_wal st)) io sb = (true, st') -> store_inv rs None n st'.
Proof.
  intros [Ht Hwf Hix _ Hl _] Hf Hn E. destruct (Hl Hf) as (log & Hw & Hlen & Er).
  destruct (wal_ok_reopen crc32c crc_fits (s_wal st) log (length log) io sb Hw Hf)
    as (ok & seen & w & Eo & _ & Hok); [lia|].
  unfold store_open in E. rewrite Eo in E. injection E as -> <-. destruct (Hok eq_refl) as [-> Hw'].
  rewrite <- Er in Ht, Hwf, Hix. split; simpl; try done.
  - intros _. by exists log.
  - eapply wal_ok_crash; [exact Hw'|done|]. intros log' ->%survives_all. by left.
Qed.

Lemma store_run_inv tr n st :
  store_run tr n st -> Z.of_nat n < 2 ^ 64 - 1 ->
  exists rs doubt, accounts tr rs doubt /\ store_inv rs doubt n st.
Proof.
  induction 1 as [io sb st E|tr n st io r ok st' _ IH Hr Hk E|tr n st io hook ok st' _ IH E|
    tr n st k io sb st' _ IH Hc E|tr n st io sb st' _ IH Hf E]; intros Hn.
  - exists [], None. split; [constructor|].
    apply (store_open_inv empty_disk io sb []); auto using empty_disk_holds, empty_table_wf, empty_indexed.
  - destruct IH as (rs & doubt & Ha & Hi); [lia|].
    apply (commit_inv rs doubt n st io r ok st') in E; [|done|done|done|lia]. destruct ok.
    + destruct E as [-> Hi']. eexists _, _. split; [by apply acc_ok|done].
    + eexists _, _. split; [by apply acc_fail|done].
  - destruct IH as (rs & doubt & Ha & Hi); [lia|]. exists rs, doubt.
    split; [by apply acc_compact|]. eapply compact_inv; [done|lia|exact E].
  - destruct IH as (rs & doubt & Ha & Hi); [lia|].
    destruct Hi as [Ht Hwf Hix Hd _ Hcr]. destruct (Hcr k Hc) as (log & Hh & Hl & [Et|(r & -> & Et)]).
    + exists rs, None. split; [by eapply acc_restart|].
      apply (store_open_inv k io sb log); try done; [lia|congruence|by rewrite <- Ht|by rewrite <- Ht].
    + destruct (Hd r eq_refl) as (Hr & Hk & _). exists (rs ++ [r]), None. split; [by apply acc_found|].
      apply (store_open_inv k io sb log); try done; [lia|..]; rewrite apply_all_snoc, <- Ht;
        [done|by apply apply_table_wf|by apply apply_indexed].
  - destruct IH as (rs & doubt & Ha & Hi); [lia|].
    exists rs, None. split; [by eapply acc_restart|]. eapply store_reopen_inv; [exact Hi|done|lia|exact E].
Qed.
End runs.

(** ** Theorems *)

Module StoreSample.
Import WalSample Sample.

Definition st0 : JobStore := snd (store_open sum32 empty_disk [] 512).
Definition st1 : JobStore := snd (commit sum32 (SubmitRec job1) true (with_io [] st0)).
Definition st2 : JobStore := snd (store_compact sum32 (fun _ => true) (with_io [] st1)).
Definition st3 : JobStore := snd (store_open sum32 (w_disk (s_wal st2)) [] 512).

Definition events : list StoreEvent :=
  [Committed (SubmitRec job1) true; Compacted true; Restarted].

Lemma run_st1 : store_run sum32 [Committed (SubmitRec job1) true] 1 st1.
Proof.
  apply (run_commit _ [] 0 st0 [] (SubmitRec job1) true st1).
  - apply (run_open _ [] 512). unfold st0.
    refine (pair_eta (store_open sum32 empty_disk [] 512) true _). vm_compute. reflexivity.
  - exact job1_wf.
  - intros c j _ Hf. vm_compute in Hf. discriminate Hf.
  - unfold st1. refine (pair_eta (commit sum32 (SubmitRec job1) true (with_io [] st0)) true _).
    vm_compute. reflexivity.
Qed.

Lemma compact_st2 : store_compact sum32 (fun _ => true) (with_io [] st1) = (true, st2).
Proof.
  unfold st2. refine (pair_eta (store_compact sum32 _ (with_io [] st1)) true _).
  vm_compute. reflexivity.
Qed.

Lemma crash_st2 : crash_disk (w_disk (s_wal st2)) (w_disk (s_wal st2)).
Proof.
  apply crash_clean; [..|vm_compute; reflexivity|]; apply (bool_decide_unpack _); vm_compute; exact I.
Qed.

Lemma run_st3 : store_run sum32 events 2 st3.
Proof.
  apply (run_restart _ [Committed (SubmitRec job1) true; Compacted true] 2 st2
    (w_disk (s_wal st2)) [] 512); [|exact crash_st2|].
  - apply (run_compact _ [Committed (SubmitRec job1) true] 1 st1 [] (fun _ => true) true st2).
    + exact run_st1.
    + exact compact_st2.
  - unfold st3. refine (pair_eta (store_open sum32 (w_disk (s_wal st2)) [] 512) true _).
    vm_compute. reflexivity.
Qed.
End StoreSample.



(** C22: the compaction snapshot keeps everything: replaying it rebuilds the same
    jobs, leases and epochs included, and the same idempotency index, whichever of
    two jobs sharing a key the index had selected. *)
Theorem snapshot_rebuilds_table t :
  table_wf t -> indexed t -> Z.of_nat (size (jobs t)) < 2 ^ 64 ->
  replay (snapshot t) = t.
Proof.
  intros Hw Hi Hn. apply replay_snapshot; [done|done|].
  pose proof (length_snapshot t) as H. unfold snapshot in H. rewrite length_imap in H. lia.
Qed.

Definition sample_table : Table := apply_all empty_table [SubmitRec Sample.job1].

Lemma snapshot_rebuilds_table_witness : replay (snapshot sample_table) = sample_table.
Proof.
  assert (Hw : table_wf sample_table)
    by (apply apply_table_wf; [exact Sample.job1_wf|apply empty_table_wf]).
  apply snapshot_rebuilds_table; [exact Hw| |reflexivity].
  apply apply_indexed; [apply empty_table_wf|apply empty_indexed|].
  intros c j _ Hf. unfold find in Hf. simpl in Hf. by rewrite lookup_empty in Hf.
Defined.

(** A compaction is invisible.  Whatever its system calls answer and wherever a
    crash cuts it, the restarted store holds the table it had before. *)
Theorem compact_transparent (crc32c : bytes -> Z) tr n st io hook ok st' k sb :
  (forall b, fits 32 (crc32c b)) -> store_run crc32c tr n st -> w_failed (s_wal st) = false ->
  Z.of_nat (n + size (jobs (s_table st))) < 2 ^ 64 - 1 ->
  store_compact crc32c hook (with_io io st) = (ok, st') ->
  crash_disk (w_disk (s_wal st')) k ->
  exists st'', store_open crc32c k [] sb = (true, st'') /\ s_table st'' = s_table st.
Proof.
  intros Hf Hr Hnf Hn E Hk.
  destruct (store_run_inv crc32c Hf tr n st Hr) as (rs & doubt & Ha & Hi); [lia|].
  assert (doubt = None) as ->.
  { destruct doubt as [r|]; [|done]. destruct (si_doubt _ _ _ _ _ Hi r eq_refl) as (_ & _ & ?). congruence. }
  assert (Et : s_table st' = s_table st).
  { unfold store_compact in E. simpl in E. destruct (compact _ _ _ _). by injection E as <- <-. }
  apply (compact_inv crc32c rs None n st io hook ok st') in E; [|done|lia].
  destruct (si_crash _ _ _ _ _ E k Hk) as (log & Hh & Hl & [Er|(r & [=] & _)]).
  destruct (disk_holds_open crc32c Hf k log [] sb Hh) as (ok' & seen & w & Eo & Hok & Hs); [lia|].
  unfold store_open. rewrite Eo. rewrite (Hok eq_refl) in *. destruct (Hs eq_refl) as [-> _].
  eexists. split; [done|]. simpl. congruence.
Qed.

Lemma compact_transparent_witness :
  exists st'', store_open WalSample.sum32 (w_disk (s_wal StoreSample.st2)) [] 512 = (true, st'') /\
    s_table st'' = s_table StoreSample.st1.
Proof.
  apply (compact_transparent WalSample.sum32 _ 1 StoreSample.st1 [] (fun _ => true) true
    StoreSample.st2 (w_disk (s_wal StoreSample.st2)) 512 WalSample.sum32_fits StoreSample.run_st1);
    [vm_compute; reflexivity|vm_compute; reflexivity|exact StoreSample.compact_st2|
     exact StoreSample.crash_st2].
Defined.
