(* ===== verification/Ring.v ===== *)
(** * Ring: the consistent-hash ring of src/src/ring.h and ring.cc

    Node positions, the key hash, the successor walk and the replica set; and the
    reading of the walk as a clockwise order, from which its independence of the
    order of the member list and its stability under departures follow. *)

From Stdlib Require Import ZArith Lia.
From stdpp Require Import base tactics list numbers sorting.
From S2P Require Import Prelude Bytes Wire Records.

Definition mix (x : Z) : Z :=
  let x := u64 (x + 0x9E3779B97F4A7C15) in
  let x := u64 (Z.lxor x (Z.shiftr x 30) * 0xBF58476D1CE4E5B9) in
  let x := u64 (Z.lxor x (Z.shiftr x 27) * 0x94D049BB133111EB) in
  Z.lxor x (Z.shiftr x 31).

Record Pos := mkPos { pos : Z; node : Endpoint }.

Definition pos_before (a b : Pos) : bool :=
  if negb (pos a =? pos b) then pos a <? pos b else ekey (node a) <? ekey (node b).

Definition pos_le (a b : Pos) : Prop := pos_before b a = false.

#[global] Instance pos_le_dec a b : Decision (pos_le a b).
Proof. unfold pos_le. apply _. Defined.

Definition positions (alive : list Endpoint) : list Pos :=
  merge_sort pos_le ((fun n => mkPos (mix (ekey n)) n) <$> alive).

(** FNV-1a, 64 bits *)
Definition hash_key (idem_key : bytes) : Z :=
  foldl (fun h c => u64 (Z.lxor h (Z_of_byte c) * 0x100000001B3)) 0xCBF29CE484222325 idem_key.

(** [while (start < ps.size() && ps[start].pos < kh) ++start;] *)
Fixpoint find_start (ps : list Pos) (kh : Z) : nat :=
  match ps with
  | p :: ps' => if pos p <? kh then S (find_start ps' kh) else 0%nat
  | [] => 0%nat
  end.

(** [out[i] = ps[(start + i) % ps.size()].node] for [i < ps.size() && i < 3], over
    an array of three default endpoints. *)
Definition ring_slot (ps : list Pos) (start i : nat) : Endpoint :=
  if (i <? length ps)%nat then
    match ps !! ((start + i) mod length ps)%nat with Some p => node p | None => no_endpoint end
  else no_endpoint.

Definition replica_set (idem_key : bytes) (alive : list Endpoint) : Replicas :=
  match alive with
  | [] => mkReplicas no_endpoint no_endpoint no_endpoint
  | _ =>
      let ps := positions alive in
      let kh := hash_key idem_key in
      let start := find_start ps kh in
      let start := if (start =? length ps)%nat then 0%nat else start in
      mkReplicas (ring_slot ps start 0) (ring_slot ps start 1) (ring_slot ps start 2)
  end.

Definition owner_for (idem_key : bytes) (alive : list Endpoint) : Endpoint :=
  rep0 (replica_set idem_key alive).

(** ** Membership *)

(** The liveness view the queue consults. *)
Class Membership (M : Type) := {
  alive : M -> list Endpoint;
  members : M -> list Endpoint;
  is_alive : M -> Endpoint -> bool
}.

Record StaticMembership := mkStatic { nodes_ : list Endpoint; members_ : list Endpoint }.

Definition static_membership (nodes : list Endpoint) : StaticMembership := mkStatic nodes nodes.

#[global] Instance static_is_membership : Membership StaticMembership := {
  alive m := nodes_ m;
  members m := members_ m;
  is_alive m e := existsb (fun n => bool_decide (n = e)) (nodes_ m)
}.

(** [if (std::find(l.begin(), l.end(), n) == l.end()) l.push_back(n);] *)
Definition push_new (l : list Endpoint) (n : Endpoint) : list Endpoint :=
  if decide (n ∈ l) then l else l ++ [n].

Definition static_set (nodes : list Endpoint) (m : StaticMembership) : StaticMembership :=
  mkStatic nodes (foldl push_new (members_ m) nodes).

(** ** The clockwise order

    A node at or after the key's hash precedes one before it; otherwise position,
    then endpoint key, decide. *)

Definition ring_before (kh : Z) (a b : Pos) : bool :=
  if Bool.eqb (pos a <? kh) (pos b <? kh) then pos_before a b else pos b <? kh.

Definition ring_le (kh : Z) (a b : Pos) : Prop := ring_before kh b a = false.

Definition clockwise (kh : Z) (ps : list Pos) : list Pos :=
  drop (find_start ps kh) ps ++ take (find_start ps kh) ps.

(** Cases on every comparison of integers in sight. *)
Ltac cmp :=
  repeat match goal with
  | H : context [?u <? ?v] |- _ => destruct (Z.ltb_spec u v)
  | H : context [?u =? ?v] |- _ => destruct (Z.eqb_spec u v)
  | |- context [?u <? ?v] => destruct (Z.ltb_spec u v)
  | |- context [?u =? ?v] => destruct (Z.eqb_spec u v)
  end; simpl in *; try done; try lia.

Lemma pos_le_total : Total pos_le.
Proof. intros a b. unfold pos_le, pos_before. cmp; auto. Qed.

Lemma pos_le_trans : Transitive pos_le.
Proof. intros a b c. unfold pos_le, pos_before. intros. cmp. Qed.

Lemma ring_le_trans kh : Transitive (ring_le kh).
Proof. intros a b c. unfold ring_le, ring_before, pos_before. intros. cmp. Qed.

Lemma ring_le_key kh a b :
  ring_le kh a b -> ring_le kh b a -> ekey (node a) = ekey (node b).
Proof. unfold ring_le, ring_before, pos_before. intros. cmp. Qed.

#[local] Existing Instances pos_le_total pos_le_trans ring_le_trans.

Lemma find_start_le ps kh : (find_start ps kh <= length ps)%nat.
Proof. induction ps as [|p ps IH]; simpl; [done|]. case_match; simpl; lia. Qed.

Lemma find_start_before ps kh : Forall (fun p => pos p < kh) (take (find_start ps kh) ps).
Proof.
  induction ps as [|p ps IH]; simpl; [constructor|].
  destruct (Z.ltb_spec (pos p) kh); simpl; constructor; auto.
Qed.

Lemma find_start_after ps kh :
  StronglySorted pos_le ps -> Forall (fun p => kh <= pos p) (drop (find_start ps kh) ps).
Proof.
  induction 1 as [|p ps Hs IH Hp]; simpl; [constructor|].
  destruct (Z.ltb_spec (pos p) kh); simpl; [done|]. constructor; [done|].
  eapply Forall_impl; [exact Hp|]. unfold pos_le, pos_before. intros q Hq. simpl in Hq. cmp.
Qed.

Lemma sorted_app {A} (R : A -> A -> Prop) l1 l2 :
  StronglySorted R l1 -> StronglySorted R l2 -> (forall a b, a ∈ l1 -> b ∈ l2 -> R a b) ->
  StronglySorted R (l1 ++ l2).
Proof.
  induction 1 as [|a l1 Hs IH Ha]; intros H2 H; [done|]. simpl. constructor.
  - apply IH; [done|]. intros x y Hx Hy. apply H; [by apply elem_of_cons; right|done].
  - rewrite Forall_app. split; [done|]. apply Forall_forall. intros b Hb.
    apply H; [by apply elem_of_cons; left|done].
Qed.

Lemma sorted_mono {A} (R S : A -> A -> Prop) l :
  StronglySorted R l -> (forall a b, a ∈ l -> b ∈ l -> R a b -> S a b) -> StronglySorted S l.
Proof.
  induction 1 as [|a l Hs IH Ha]; intros H; constructor.
  - apply IH. intros x y Hx Hy. apply H; by apply elem_of_cons; right.
  - rewrite Forall_forall in Ha |- *. intros b Hb.
    apply H; [by apply elem_of_cons; left|by apply elem_of_cons; right|auto].
Qed.

Lemma sorted_split {A} (R : A -> A -> Prop) l n :
  StronglySorted R l -> StronglySorted R (take n l) /\ StronglySorted R (drop n l).
Proof.
  intros H. revert n. induction H as [|a l Hs IH Ha]; intros [|n]; simpl;
    try (split; constructor; done).
  destruct (IH n) as [H1 H2]. split; [|done]. constructor; [done|]. by apply Forall_take.
Qed.

(** The walk visits the nodes in clockwise order. *)
Lemma clockwise_sorted kh ps : StronglySorted pos_le ps -> StronglySorted (ring_le kh) (clockwise kh ps).
Proof.
  intros Hs. destruct (sorted_split _ _ (find_start ps kh) Hs) as [H1 H2].
  pose proof (find_start_before ps kh) as Hb. pose proof (find_start_after ps kh Hs) as Ha.
  rewrite Forall_forall in Hb, Ha. unfold clockwise. apply sorted_app.
  - eapply sorted_mono; [exact H2|]. intros a b Hpa Hpb Hab. apply Ha in Hpa, Hpb.
    unfold ring_le, ring_before, pos_le in *. cmp.
  - eapply sorted_mono; [exact H1|]. intros a b Hpa Hpb Hab. apply Hb in Hpa, Hpb.
    unfold ring_le, ring_before, pos_le in *. cmp.
  - intros a b Hpa Hpb. apply Ha in Hpa. apply Hb in Hpb. unfold ring_le, ring_before. cmp.
Qed.

Lemma clockwise_perm kh ps : clockwise kh ps ≡ₚ ps.
Proof. unfold clockwise. by rewrite (comm (++)), take_drop. Qed.

(** The nodes met from the key's hash onwards. *)
Definition walk (idem_key : bytes) (alive : list Endpoint) : list Endpoint :=
  node <$> clockwise (hash_key idem_key) (positions alive).

Lemma positions_sorted alive : StronglySorted pos_le (positions alive).
Proof. apply StronglySorted_merge_sort; apply _. Qed.

Lemma walk_perm k alive : walk k alive ≡ₚ alive.
Proof.
  unfold walk, positions. rewrite clockwise_perm, merge_sort_Permutation, <- list_fmap_compose.
  by rewrite list_fmap_id.
Qed.

Lemma slot_walk ps kh i :
  let start := find_start ps kh in
  let start := if (start =? length ps)%nat then 0%nat else start in
  ring_slot ps start i = default no_endpoint ((node <$> clockwise kh ps) !! i).
Proof.
  simpl. unfold ring_slot. rewrite list_lookup_fmap. pose proof (find_start_le ps kh) as Hle.
  assert (Hlen : length (clockwise kh ps) = length ps) by (by rewrite clockwise_perm).
  destruct (Nat.ltb_spec i (length ps)) as [Hi|Hi].
  2: { rewrite lookup_ge_None_2 by lia. done. }
  assert (E : clockwise kh ps !! i =
    ps !! (((if (find_start ps kh =? length ps)%nat then 0 else find_start ps kh) + i) mod length ps)%nat).
  { unfold clockwise. set (s := find_start ps kh) in *. clearbody s.
    destruct (Nat.eqb_spec s (length ps)) as [->|Hne].
    - rewrite drop_all, app_nil_l, firstn_all. simpl. by rewrite Nat.mod_small.
    - destruct (decide (i < length ps - s)%nat).
      + rewrite lookup_app_l by (rewrite length_drop; lia). rewrite lookup_drop.
        by rewrite Nat.mod_small by lia.
      + rewrite lookup_app_r by (rewrite length_drop; lia). rewrite length_drop.
        rewrite lookup_take_lt by lia. f_equal.
        replace (s + i)%nat with ((i - (length ps - s)) + 1 * length ps)%nat by lia.
        rewrite Nat.Div0.mod_add, Nat.mod_small by lia. done. }
  rewrite E. by destruct (ps !! _).
Qed.

(** The replica set is the first three nodes of the walk. *)
Lemma replica_set_walk k alive :
  replica_list (replica_set k alive) =
  (fun i => default no_endpoint (walk k alive !! i)) <$> [0%nat; 1%nat; 2%nat].
Proof.
  unfold replica_set. destruct alive as [|e l]; [done|]. unfold replica_list, walk.
  cbn [rep0 rep1 rep2]. by rewrite !slot_walk.
Qed.

Lemma walk_unique kh l1 l2 :
  StronglySorted (ring_le kh) l1 -> StronglySorted (ring_le kh) l2 -> l1 ≡ₚ l2 ->
  Forall (fun p => endpoint_wf (node p) /\ pos p = mix (ekey (node p))) l1 -> l1 = l2.
Proof.
  intros H1 H2 Hp Hf. apply (StronglySorted_unique_strong (ring_le kh)); try done.
  intros [p a] [q b] Ha Hb H3 H4. rewrite <- Hp in Hb. rewrite Forall_forall in Hf.
  destruct (Hf _ Ha) as [Wa Ea]. destruct (Hf _ Hb) as [Wb Eb]. simpl in *.
  pose proof (ring_le_key _ _ _ H3 H4) as E. simpl in E.
  apply ekey_inj in E as ->; [|done|done]. congruence.
Qed.

Lemma clockwise_good k alive :
  Forall endpoint_wf alive ->
  Forall (fun p => endpoint_wf (node p) /\ pos p = mix (ekey (node p)))
    (clockwise (hash_key k) (positions alive)).
Proof.
  intros H. unfold positions. rewrite clockwise_perm, merge_sort_Permutation, Forall_fmap.
  eapply Forall_impl; [exact H|]. done.
Qed.

Lemma sorted_filter {A} (R : A -> A -> Prop) (P : A -> Prop) `{forall x, Decision (P x)} l :
  StronglySorted R l -> StronglySorted R (filter P l).
Proof.
  induction 1 as [|a l Hs IH Ha]; [constructor|]. rewrite filter_cons. case_decide; [|done].
  constructor; [done|]. rewrite Forall_forall in Ha |- *. intros b [_ Hb]%list_elem_of_filter. auto.
Qed.

Lemma filter_walk (P : Endpoint -> Prop) `{forall x, Decision (P x)} k alive :
  Forall endpoint_wf alive -> walk k (filter P alive) = filter P (walk k alive).
Proof.
  intros Hw. unfold walk.
  assert (Hc : clockwise (hash_key k) (positions (filter P alive)) =
    filter (fun p => P (node p)) (clockwise (hash_key k) (positions alive))).
  { apply (walk_unique (hash_key k)).
    - apply clockwise_sorted, positions_sorted.
    - apply sorted_filter, clockwise_sorted, positions_sorted.
    - unfold positions. rewrite !clockwise_perm, !merge_sort_Permutation.
      clear. induction alive as [|e l IH]; [done|]. rewrite fmap_cons, !filter_cons. simpl.
      case_decide; csimpl; by rewrite IH.
    - apply clockwise_good. apply Forall_forall.
      intros e [_ He]%list_elem_of_filter. rewrite Forall_forall in Hw. auto. }
  rewrite Hc. generalize (clockwise (hash_key k) (positions alive)). clear.
  induction l as [|p l IH]; [done|]. rewrite fmap_cons, !filter_cons. case_decide; csimpl; by rewrite IH.
Qed.

Lemma replica_list_inj a b : replica_list a = replica_list b -> a = b.
Proof. destruct a, b. unfold replica_list. simpl. by intros [= -> -> ->]. Qed.

Lemma owner_walk k alive : owner_for k alive = default no_endpoint (walk k alive !! 0%nat).
Proof.
  unfold owner_for. pose proof (replica_set_walk k alive) as E. unfold replica_list in E.
  by injection E.
Qed.

(** ** Theorems *)

Module RingSample.
Import Sample.
Definition nodes3 : list Endpoint := [node_a; node_b; node_c].

Lemma nodes3_wf : Forall endpoint_wf nodes3.
Proof. apply (bool_decide_unpack _). vm_compute. exact I. Qed.
End RingSample.

(** The replica set does not depend on the order in which the alive nodes are
    listed, so nodes that agree on who is alive agree on the owner and the replicas
    of every key. *)
Theorem replica_set_order_independent k alive alive' :
  Forall endpoint_wf alive -> alive ≡ₚ alive' -> replica_set k alive = replica_set k alive'.
Proof.
  intros Hw Hp.
  assert (E : walk k alive = walk k alive').
  { unfold walk. f_equal. apply (walk_unique (hash_key k)); [| | |by apply clockwise_good].
    - apply clockwise_sorted, positions_sorted.
    - apply clockwise_sorted, positions_sorted.
    - unfold positions. rewrite !clockwise_perm, !merge_sort_Permutation. by rewrite Hp. }
  apply replica_list_inj. by rewrite !replica_set_walk, E.
Qed.

Lemma replica_set_order_independent_witness :
  replica_set Sample.key1 RingSample.nodes3 = replica_set Sample.key1 (rev RingSample.nodes3).
Proof.
  apply (replica_set_order_independent Sample.key1 _ _ RingSample.nodes3_wf).
  apply Permutation_rev.
Defined.

(** C30: consistent hashing.  When a node leaves, every key keeps its clockwise list
    of nodes minus the one that left: its replica set changes only if that node was
    in it, and its owner only if that node was the owner. *)
Theorem departure_moves_only_its_keys k alive x :
  Forall endpoint_wf alive -> x <> owner_for k alive ->
  let rest := filter (fun e => e <> x) alive in
  owner_for k rest = owner_for k alive /\
  (x ∉ replica_list (replica_set k alive) -> x <> no_endpoint ->
   replica_set k rest = replica_set k alive).
Proof.
  intros Hw Hx rest. pose proof (filter_walk (fun e => e <> x) k alive Hw) as E.
  fold rest in E. rewrite owner_walk in Hx |- *. rewrite owner_walk, E.
  assert (Hl : x ∉ replica_list (replica_set k alive) -> x <> no_endpoint ->
    replica_list (replica_set k rest) = replica_list (replica_set k alive)).
  { rewrite !replica_set_walk, E. csimpl. rewrite !not_elem_of_cons. intros (H0 & H1 & H2 & _) _.
    destruct (walk k alive) as [|a w]; [done|]. simpl in H0, H1, H2.
    rewrite filter_cons, decide_True by congruence. destruct w as [|b w]; [done|]. simpl in H1, H2.
    rewrite filter_cons, decide_True by congruence. destruct w as [|c w]; [done|]. simpl in H2.
    rewrite filter_cons, decide_True by congruence. done. }
  split; [|intros H1 H2; by apply replica_list_inj, Hl].
  destruct (walk k alive) as [|o w]; [done|]. simpl in Hx.
  by rewrite filter_cons, decide_True by congruence.
Qed.

Lemma departure_moves_only_its_keys_witness :
  owner_for Sample.key1 (filter (fun e => e <> Sample.node_b) RingSample.nodes3) =
  owner_for Sample.key1 RingSample.nodes3.
Proof.
  apply (departure_moves_only_its_keys Sample.key1 RingSample.nodes3 Sample.node_b RingSample.nodes3_wf).
  vm_compute. discriminate.
Defined.

(** The replica set names distinct alive nodes, as many as there are up to
    three, the owner first, and pads the rest with the null endpoint. *)
Theorem replica_set_distinct_alive k alive :
  NoDup alive -> no_endpoint ∉ alive ->
  let real := filter (fun e => e <> no_endpoint) (replica_list (replica_set k alive)) in
  real = take 3 (walk k alive) /\ NoDup real /\ (forall e, e ∈ real -> e ∈ alive) /\
  length real = Nat.min 3 (length alive).
Proof.
  intros Hnd Hno real.
  assert (Hp := walk_perm k alive).
  assert (Hno' : forall e, e ∈ walk k alive -> e <> no_endpoint)
    by (intros e He ->; rewrite Hp in He; done).
  assert (E : real = take 3 (walk k alive)).
  { unfold real. rewrite replica_set_walk. csimpl.
    destruct (walk k alive) as [|a [|b [|c w]]]; rewrite !filter_cons; simpl;
      repeat first [rewrite decide_False by (by intros []) | rewrite decide_True by
        (apply Hno'; rewrite !elem_of_cons; auto)]; done. }
  rewrite E. split; [done|]. split; [|split].
  - assert (Hn : NoDup (walk k alive)) by (by rewrite Hp).
    rewrite <- (take_drop 3 (walk k alive)) in Hn. by apply NoDup_app in Hn as [? _].
  - intros e He. rewrite <- Hp. rewrite <- (take_drop 3 (walk k alive)), elem_of_app. by left.
  - rewrite length_take, Hp. done.
Qed.

Lemma replica_set_distinct_alive_witness :
  let real := filter (fun e => e <> no_endpoint)
                (replica_list (replica_set Sample.key1 RingSample.nodes3)) in
  real = take 3 (walk Sample.key1 RingSample.nodes3) /\ NoDup real /\
  (forall e, e ∈ real -> e ∈ RingSample.nodes3) /\ length real = 3%nat.
Proof.
  apply (replica_set_distinct_alive Sample.key1 RingSample.nodes3);
    apply (bool_decide_unpack _); vm_compute; exact I.
Defined.
