(* ===== verification/Membership.v ===== *)
(** * Membership: class SwimMembership of src/src/swim_membership.h

    The membership view of a running node: ownership uses the configured peers,
    liveness comes from SWIM.  [taut::Swim] is library code; what is used of it is
    its snapshot of members and its answer to whether an endpoint is alive. *)

From Stdlib Require Import ZArith Lia.
From stdpp Require Import base tactics list numbers sorting.
From S2P Require Import Prelude Bytes Wire Records Ring.

(** The view of SWIM at one moment; the flag is [state == MemberState::Alive]. *)
Record SwimView := mkSwimView {
  snapshot_ : list (Endpoint * bool);
  state_alive : Endpoint -> bool
}.

(** ntohs and htons on the little-endian hosts the program targets. *)
Definition bswap16 (x : Z) : Z := Z.lor (u16 (Z.shiftl x 8)) (Z.shiftr x 8).

Definition swim_endpoint (data : Endpoint) : Endpoint :=
  mkEndpoint (addr_be data) (bswap16 (u16 (bswap16 (port_be data) + 1))).

Definition data_endpoint (swim : Endpoint) : Endpoint :=
  mkEndpoint (addr_be swim) (bswap16 (u16 (bswap16 (port_be swim) - 1))).

Record SwimMembership := mkSwimMembership {
  swim_ : SwimView; self_ : Endpoint; configured_ : list Endpoint
}.

Definition swim_membership (swim : SwimView) (self_data : Endpoint) (configured : list Endpoint)
  : SwimMembership :=
  mkSwimMembership swim self_data (foldl push_new [self_data] configured).

Definition swim_alive (m : SwimMembership) : list Endpoint :=
  foldl (fun out '(ep, up) => if up : bool then push_new out (data_endpoint ep) else out)
    [self_ m] (snapshot_ (swim_ m)).

#[global] Instance swim_is_membership : Membership SwimMembership := {
  alive := swim_alive;
  members := configured_;
  is_alive m e := bool_decide (e = self_ m) || state_alive (swim_ m) (swim_endpoint e)
}.

(** ** Ports *)

Lemma bswap16_arith x : fits 16 x -> bswap16 x = 256 * (x mod 256) + x / 256.
Proof.
  unfold fits. intros H. unfold bswap16, wrap.
  rewrite Z.shiftl_mul_pow2, Z.shiftr_div_pow2 by lia.
  change (2 ^ 8) with 256. change (2 ^ 16) with 65536 in *.
  assert (E : x * 256 mod 65536 = 256 * (x mod 256)).
  { change 65536 with (256 * 256). rewrite (Z.mul_comm x), Z.mul_mod_distr_l by lia. done. }
  pose proof (Z.mod_pos_bound x 256). assert (Hd : fits 8 (x / 256)).
  { unfold fits. change (2 ^ 8) with 256. split; [apply Z.div_pos; lia|apply Z.div_lt_upper_bound; lia]. }
  replace (x * 256 mod 65536) with (Z.shiftl (x mod 256) 8)
    by (rewrite Z.shiftl_mul_pow2, E by lia; lia).
  rewrite Z.lor_comm, lor_shiftl_add by (done || lia). change (2 ^ 8) with 256. lia.
Qed.

Lemma bswap16_fits x : fits 16 x -> fits 16 (bswap16 x).
Proof.
  intros H. rewrite bswap16_arith by done. unfold fits in *. change (2 ^ 16) with 65536 in *.
  pose proof (Z.mod_pos_bound x 256). pose proof (Z.div_pos x 256).
  pose proof (Z.div_lt_upper_bound x 256 256). lia.
Qed.

Lemma bswap16_inv x : fits 16 x -> bswap16 (bswap16 x) = x.
Proof.
  intros H. pose proof (bswap16_fits x H) as H2. rewrite bswap16_arith by done.
  rewrite (bswap16_arith x H). unfold fits in H. change (2 ^ 16) with 65536 in H.
  pose proof (Z.mod_pos_bound x 256). pose proof (Z.div_mod x 256).
  assert (Hd : 0 <= x / 256 < 256) by (split; [apply Z.div_pos; lia|apply Z.div_lt_upper_bound; lia]).
  replace (256 * (x mod 256) + x / 256) with (x / 256 + x mod 256 * 256) by lia.
  rewrite Z.mod_add, Z.div_add, (Z.mod_small (x / 256)), (Z.div_small (x / 256)) by lia. lia.
Qed.

Lemma u16_succ_pred p d : fits 16 p -> u16 (u16 (p + d) + - d) = p.
Proof.
  intros H. unfold wrap. rewrite Zplus_mod_idemp_l. replace (p + d + - d) with p by lia.
  by apply (wrap_id 16).
Qed.

Lemma data_swim_endpoint e : endpoint_wf e -> data_endpoint (swim_endpoint e) = e.
Proof.
  intros [_ Hp]. unfold data_endpoint, swim_endpoint. simpl.
  rewrite bswap16_inv by (apply wrap_fits; lia).
  pose proof (u16_succ_pred (bswap16 (port_be e)) 1 (bswap16_fits _ Hp)) as E.
  unfold Z.sub. rewrite E, bswap16_inv by done. by destruct e.
Qed.

Lemma swim_data_endpoint e : endpoint_wf e -> swim_endpoint (data_endpoint e) = e.
Proof.
  intros [_ Hp]. unfold data_endpoint, swim_endpoint. simpl.
  rewrite bswap16_inv by (apply wrap_fits; lia).
  pose proof (u16_succ_pred (bswap16 (port_be e)) (- (1)) (bswap16_fits _ Hp)) as E.
  rewrite Z.opp_involutive in E. unfold Z.sub. rewrite E, bswap16_inv by done. by destruct e.
Qed.

(** ** Lists without duplicates *)

Lemma push_new_NoDup l n : NoDup l -> NoDup (push_new l n).
Proof.
  intros H. unfold push_new. case_decide; [done|]. apply NoDup_app. split; [done|].
  split; [|apply NoDup_singleton]. intros x Hx. rewrite list_elem_of_singleton. by intros ->.
Qed.

Lemma elem_of_push_new l n x : x ∈ push_new l n <-> x ∈ l \/ x = n.
Proof.
  unfold push_new. case_decide; [naive_solver|]. by rewrite elem_of_app, list_elem_of_singleton.
Qed.

Lemma foldl_push_new l ns :
  NoDup l -> NoDup (foldl push_new l ns) /\ forall x, x ∈ foldl push_new l ns <-> x ∈ l \/ x ∈ ns.
Proof.
  revert l. induction ns as [|n ns IH]; intros l Hl; simpl.
  - split; [done|]. intros x. split; [by left|]. by intros [?|?%elem_of_nil].
  - destruct (IH (push_new l n) (push_new_NoDup l n Hl)) as [H1 H2]. split; [done|].
    intros x. rewrite H2, elem_of_push_new, elem_of_cons. naive_solver.
Qed.

Lemma swim_alive_spec m :
  NoDup (swim_alive m) /\
  forall x, x ∈ swim_alive m <-> x = self_ m \/ exists ep, (ep, true) ∈ snapshot_ (swim_ m) /\
    x = data_endpoint ep.
Proof.
  unfold swim_alive.
  assert (H : forall l out, NoDup out ->
    NoDup (foldl (fun out '(ep, up) => if up : bool then push_new out (data_endpoint ep) else out) out l) /\
    forall x, x ∈ foldl (fun out '(ep, up) => if up : bool then push_new out (data_endpoint ep) else out) out l
      <-> x ∈ out \/ exists ep, (ep, true) ∈ l /\ x = data_endpoint ep).
  { induction l as [|[ep up] l IH]; intros out Ho; simpl.
    - split; [done|]. intros x. split; [by left|]. by intros [?|(? & ?%elem_of_nil & _)].
    - destruct up.
      + destruct (IH _ (push_new_NoDup out (data_endpoint ep) Ho)) as [H1 H2]. split; [done|].
        intros x. rewrite H2, elem_of_push_new. setoid_rewrite elem_of_cons. naive_solver.
      + destruct (IH _ Ho) as [H1 H2]. split; [done|]. intros x. rewrite H2.
        setoid_rewrite elem_of_cons. naive_solver. }
  destruct (H (snapshot_ (swim_ m)) [self_ m] (NoDup_singleton _)) as [H1 H2]. split; [done|].
  intros x. by rewrite H2, list_elem_of_singleton.
Qed.

(** ** Theorems *)

(** The membership view a node routes by.  Owners are chosen among the
    configured peers, which include the node itself, are free of duplicates and do
    not move with SWIM; the alive list includes the node, has no duplicates, and
    names exactly the nodes [is_alive] accepts, through the mapping between data
    and SWIM ports. *)
Theorem swim_membership_view swim self conf :
  endpoint_wf self ->
  (forall ep, (ep, true) ∈ snapshot_ swim <-> state_alive swim ep = true) ->
  (forall ep up, (ep, up) ∈ snapshot_ swim -> endpoint_wf ep) ->
  let m := swim_membership swim self conf in
  NoDup (members m) /\ (forall e, e ∈ members m <-> e = self \/ e ∈ conf) /\
  NoDup (alive m) /\ self ∈ alive m /\
  (forall e, endpoint_wf e -> e ∈ alive m <-> is_alive m e = true).
Proof.
  intros Hself Hst Hwf m. destruct (foldl_push_new [self] conf (NoDup_singleton _)) as [H1 H2].
  destruct (swim_alive_spec m) as [H3 H4]. split; [done|]. split.
  { intros e. unfold m. simpl. by rewrite H2, list_elem_of_singleton. }
  split; [done|]. split; [by apply H4; left|]. intros e He. simpl.
  rewrite H4, orb_true_iff, bool_decide_eq_true. simpl. rewrite <- Hst. split.
  - intros [?|(ep & Hin & ->)]; [by left|right]. rewrite swim_data_endpoint; [done|].
    by apply (Hwf ep true).
  - intros [?|Hin]; [by left|right]. exists (swim_endpoint e). by rewrite data_swim_endpoint.
Qed.

Lemma swim_membership_view_witness :
  let swim := mkSwimView [(swim_endpoint Sample.node_b, true); (swim_endpoint Sample.node_c, false)]
                (fun e => bool_decide (e = swim_endpoint Sample.node_b)) in
  let m := swim_membership swim Sample.node_a [Sample.node_b; Sample.node_a; Sample.node_c] in
  NoDup (members m) /\ self_ m ∈ alive m.
Proof.
  intros swim m.
  destruct (swim_membership_view swim Sample.node_a [Sample.node_b; Sample.node_a; Sample.node_c])
    as (H1 & _ & _ & H4 & _).
  - by vm_compute.
  - intros ep. cbn [snapshot_ state_alive swim]. rewrite bool_decide_eq_true, !elem_of_cons.
    split; [|intros ->; by left]. intros [E|[E|?%elem_of_nil]]; [|by apply (f_equal snd) in E|done].
    by apply (f_equal fst) in E.
  - intros ep up. cbn [snapshot_ swim]. rewrite !elem_of_cons.
    intros [E|[E|?%elem_of_nil]]; [| |done]; apply (f_equal fst) in E; cbn [fst] in E; subst ep;
      apply (bool_decide_unpack _); vm_compute; exact I.
  - by split.
Defined.
