(* ===== verification/StoreApi.v ===== *)
(** * StoreApi: what the queue node relies on from its store

    The node of src/src/queue_node.cc reads the job table and writes it only through
    [JobStore::commit].  The interface states what a commit does to the table; the
    durable store over the log discharges it, and so does a store in memory whose
    commits fail on demand, which the concrete executions use. *)

From Stdlib Require Import ZArith Lia.
From stdpp Require Import base tactics list numbers gmap.
From S2P Require Import Prelude Bytes Wire Records Table.

Class StoreOps (S : Type) := {
  st_table : S -> Table;
  st_commit : Rec -> S -> bool * S
}.

Class StoreLaws (S : Type) `{StoreOps S} := {
  commit_applies : forall r s s', st_commit r s = (true, s') -> st_table s' = apply (st_table s) r;
  commit_refused : forall r s s', st_commit r s = (false, s') -> st_table s' = st_table s
}.

(** A table in memory; the list says which of the next commits fail. *)
Record MemStore := mkMem { mem_table : Table; mem_fail : list bool }.

#[global] Instance mem_ops : StoreOps MemStore := {
  st_table := mem_table;
  st_commit r s :=
    match mem_fail s with
    | true :: fs => (false, mkMem (mem_table s) fs)
    | false :: fs => (true, mkMem (apply (mem_table s) r) fs)
    | [] => (true, mkMem (apply (mem_table s) r) [])
    end
}.

#[global] Instance mem_laws : StoreLaws MemStore.
Proof.
  split; intros r [t [|[] fs]] s'; simpl; intros [= <-]; done.
Qed.
