(* ===== verification/NodeState.v ===== *)
(** * NodeState: the state of class QueueNode (src/src/queue_node.h)

    The members of the node, its configuration and counters, the continuations it
    leaves with the RPC layer, and what it emits.  Callbacks are data: [Kont] has
    one constructor per lambda the source passes to [rpc_.call], [QDone] one per
    lambda passed to [quorum_commit].  The node is generic in its store and its
    membership view, through their interfaces. *)

From Stdlib Require Import ZArith Lia.
From stdpp Require Import base tactics list numbers gmap.
From S2P Require Import Prelude Bytes Wire Records Table StoreApi Ring.

(** ** Statuses *)

Module qstatus.
Definition kCreated : Z := 0.
Definition kDuplicate : Z := 1.
Definition kStaleEpoch : Z := 2.
Definition kNoQuorum : Z := 3.
Definition kInvalid : Z := 4.
Definition kUnknownJob : Z := 5.
Definition kNotOwner : Z := 6.
Definition kNotLeased : Z := 7.
Definition kNoJob : Z := 8.
End qstatus.

Module rpcstatus.
Definition kTimeout : Z := 0xFFFF0001.
Definition kPeerDown : Z := 0xFFFF0002.
Definition kTooLarge : Z := 0xFFFF0003.
Definition kBusy : Z := 0xFFFF0004.
End rpcstatus.

(** Codes from here on are synthesized by the local RPC layer. *)
Definition kTransport : Z := 0xFFFF0000.

Definition kMaxRpcBody : nat := 1120.

(** ** Configuration and parameters *)

(** Times and durations are in milliseconds of the transport's clock. *)
Record NodeConfig := mkConfig {
  self : Endpoint;
  default_visibility_ms : Z;
  default_max_attempts : Z;
  rpc_timeout : Z;
  repair_interval : Z
}.

Definition default_config (e : Endpoint) : NodeConfig := mkConfig e 30000 5 1000 2000.

Record SubmitParams := mkParams {
  p_idem_key : bytes; p_url : bytes; p_body : bytes; p_visibility_ms : Z; p_max_attempts : Z
}.

Record LeaseGrant := mkGrant {
  g_id : JobId; g_url : bytes; g_body : bytes; g_idem_key : bytes;
  g_epoch : Z; g_lease_seq : Z; g_visibility_ms : Z; g_attempt : Z
}.

Definition no_grant : LeaseGrant := mkGrant no_job_id [] [] [] 0 0 0 0.

Record Counters := mkCounters {
  c_submits : Z; c_duplicates : Z; c_leases_granted : Z; c_completions_ok : Z;
  c_completions_failed : Z; c_expirations : Z; c_deadletters : Z; c_takeovers : Z;
  c_fenced_stale : Z
}.

Definition no_counters : Counters := mkCounters 0 0 0 0 0 0 0 0 0.

Definition inc (x : Z) : Z := u64 (x + 1).

Definition add_submits (c : Counters) : Counters :=
  mkCounters (inc (c_submits c)) (c_duplicates c) (c_leases_granted c) (c_completions_ok c)
    (c_completions_failed c) (c_expirations c) (c_deadletters c) (c_takeovers c) (c_fenced_stale c).
Definition add_duplicates (c : Counters) : Counters :=
  mkCounters (c_submits c) (inc (c_duplicates c)) (c_leases_granted c) (c_completions_ok c)
    (c_completions_failed c) (c_expirations c) (c_deadletters c) (c_takeovers c) (c_fenced_stale c).
Definition add_leases_granted (c : Counters) : Counters :=
  mkCounters (c_submits c) (c_duplicates c) (inc (c_leases_granted c)) (c_completions_ok c)
    (c_completions_failed c) (c_expirations c) (c_deadletters c) (c_takeovers c) (c_fenced_stale c).
Definition add_completions_ok (c : Counters) : Counters :=
  mkCounters (c_submits c) (c_duplicates c) (c_leases_granted c) (inc (c_completions_ok c))
    (c_completions_failed c) (c_expirations c) (c_deadletters c) (c_takeovers c) (c_fenced_stale c).
Definition add_completions_failed (c : Counters) : Counters :=
  mkCounters (c_submits c) (c_duplicates c) (c_leases_granted c) (c_completions_ok c)
    (inc (c_completions_failed c)) (c_expirations c) (c_deadletters c) (c_takeovers c) (c_fenced_stale c).
Definition add_expirations (c : Counters) : Counters :=
  mkCounters (c_submits c) (c_duplicates c) (c_leases_granted c) (c_completions_ok c)
    (c_completions_failed c) (inc (c_expirations c)) (c_deadletters c) (c_takeovers c) (c_fenced_stale c).
Definition add_deadletters (c : Counters) : Counters :=
  mkCounters (c_submits c) (c_duplicates c) (c_leases_granted c) (c_completions_ok c)
    (c_completions_failed c) (c_expirations c) (inc (c_deadletters c)) (c_takeovers c) (c_fenced_stale c).
Definition add_takeovers (c : Counters) : Counters :=
  mkCounters (c_submits c) (c_duplicates c) (c_leases_granted c) (c_completions_ok c)
    (c_completions_failed c) (c_expirations c) (c_deadletters c) (inc (c_takeovers c)) (c_fenced_stale c).
Definition add_fenced_stale (c : Counters) : Counters :=
  mkCounters (c_submits c) (c_duplicates c) (c_leases_granted c) (c_completions_ok c)
    (c_completions_failed c) (c_expirations c) (c_deadletters c) (c_takeovers c) (inc (c_fenced_stale c)).

(** ** Callbacks as data *)

(** [RpcNode::ReqCtx] *)
Record ReqCtx := mkCtx { from : Endpoint; req_id : Z; method : Method }.

(** A submit is answered to a local client, named by a tag, or over RPC. *)
Inductive SubmitCb := SubmitClient (tag : Z) | SubmitRespond (ctx : ReqCtx).
Inductive AckCb := AckClient (tag : Z) | AckRespond (ctx : ReqCtx).

(** The lambdas given to [quorum_commit]. *)
Inductive QDone :=
  | QIgnore
  | QLease (id : JobId) (tag : Z)
  | QComplete (id : JobId) (cb : AckCb).

(** The lambdas given to [rpc_.call]. *)
Inductive Kont :=
  | KFwdSubmit (cb : SubmitCb)
  | KStatus (id : JobId) (targets : list Endpoint) (best : option Job) (tag : Z)
  | KReplicate (id : JobId) (slot : nat)
  | KApply (id : JobId) (slot : nat) (q : nat)
  | KFwdAck (cb : AckCb)
  | KClaim (id : JobId) (to : Endpoint)
  | KResync (id : JobId)
  | KDrain.

#[global] Instance ReqCtx_eq_dec : EqDecision ReqCtx.
Proof. solve_decision. Defined.
#[global] Instance SubmitCb_eq_dec : EqDecision SubmitCb.
Proof. solve_decision. Defined.
#[global] Instance AckCb_eq_dec : EqDecision AckCb.
Proof. solve_decision. Defined.
#[global] Instance Kont_eq_dec : EqDecision Kont.
Proof. solve_decision. Defined.

(** What a node does to the outside. *)
Inductive Out :=
  | OCall (to : Endpoint) (m : Method) (body : bytes) (k : Kont)
  | ORespond (ctx : ReqCtx) (st : Z) (body : bytes)
  | OSubmit (tag : Z) (st : Z) (id : JobId)
  | OStatus (tag : Z) (st : Z) (job : option Job)
  | OLease (tag : Z) (st : Z) (g : LeaseGrant)
  | OAck (tag : Z) (st : Z)
  | OLatency (ms : Z)
  | ODrained.

Record PendingSubmit := mkPending { ps_cb : SubmitCb; ps_needed : Z; ps_outstanding : Z }.

(** The shared state of one [quorum_commit]. *)
Record QState := mkQState {
  q_done : QDone; q_needed : Z; q_outstanding : Z; q_fired : bool
}.

Record ClaimState := mkClaim {
  proposed : Z; acks : Z; needed : Z; best_state : Z; best_seq : Z; acked_mask : Z; next_retry : Z
}.

(** ** The node *)

Section node.
Context {S M : Type}.

(** The last four fields are the shared quorum states, the clock, the outcomes of
    the next sends ([true]: the session's queue is full), and what was emitted. *)
Record Node := mkNode {
  n_mem : M;
  n_cfg : NodeConfig;
  n_store : S;
  n_boot : Z;
  n_next_job_seq : Z;
  n_pending_submits : gmap JobId PendingSubmit;
  n_repair : gmap JobId Z;
  n_next_repair : Z;
  n_ready : list JobId;
  n_lease_deadline : gmap JobId Z;
  n_not_before : gmap JobId Z;
  n_counters : Counters;
  n_submit_time : gmap JobId Z;
  n_claims : gmap JobId ClaimState;
  n_resync_inflight : gmap JobId Z;
  n_draining : bool;
  n_drain_cb : bool;
  n_next_claim_tick : Z;
  n_next_drain_tick : Z;
  n_quorums : list QState;
  n_now : Z;
  n_busy : list bool;
  n_out : list Out
}.

Definition set_store (x : S) (n : Node) : Node :=
  mkNode (n_mem n) (n_cfg n) x (n_boot n) (n_next_job_seq n) (n_pending_submits n) (n_repair n)
    (n_next_repair n) (n_ready n) (n_lease_deadline n) (n_not_before n) (n_counters n)
    (n_submit_time n) (n_claims n) (n_resync_inflight n) (n_draining n) (n_drain_cb n)
    (n_next_claim_tick n) (n_next_drain_tick n) (n_quorums n) (n_now n) (n_busy n) (n_out n).
Definition set_next_job_seq (x : Z) (n : Node) : Node :=
  mkNode (n_mem n) (n_cfg n) (n_store n) (n_boot n) x (n_pending_submits n) (n_repair n)
    (n_next_repair n) (n_ready n) (n_lease_deadline n) (n_not_before n) (n_counters n)
    (n_submit_time n) (n_claims n) (n_resync_inflight n) (n_draining n) (n_drain_cb n)
    (n_next_claim_tick n) (n_next_drain_tick n) (n_quorums n) (n_now n) (n_busy n) (n_out n).
Definition set_pending_submits (x : gmap JobId PendingSubmit) (n : Node) : Node :=
  mkNode (n_mem n) (n_cfg n) (n_store n) (n_boot n) (n_next_job_seq n) x (n_repair n)
    (n_next_repair n) (n_ready n) (n_lease_deadline n) (n_not_before n) (n_counters n)
    (n_submit_time n) (n_claims n) (n_resync_inflight n) (n_draining n) (n_drain_cb n)
    (n_next_claim_tick n) (n_next_drain_tick n) (n_quorums n) (n_now n) (n_busy n) (n_out n).
Definition set_repair (x : gmap JobId Z) (n : Node) : Node :=
  mkNode (n_mem n) (n_cfg n) (n_store n) (n_boot n) (n_next_job_seq n) (n_pending_submits n) x
    (n_next_repair n) (n_ready n) (n_lease_deadline n) (n_not_before n) (n_counters n)
    (n_submit_time n) (n_claims n) (n_resync_inflight n) (n_draining n) (n_drain_cb n)
    (n_next_claim_tick n) (n_next_drain_tick n) (n_quorums n) (n_now n) (n_busy n) (n_out n).
Definition set_next_repair (x : Z) (n : Node) : Node :=
  mkNode (n_mem n) (n_cfg n) (n_store n) (n_boot n) (n_next_job_seq n) (n_pending_submits n)
    (n_repair n) x (n_ready n) (n_lease_deadline n) (n_not_before n) (n_counters n)
    (n_submit_time n) (n_claims n) (n_resync_inflight n) (n_draining n) (n_drain_cb n)
    (n_next_claim_tick n) (n_next_drain_tick n) (n_quorums n) (n_now n) (n_busy n) (n_out n).
Definition set_ready (x : list JobId) (n : Node) : Node :=
  mkNode (n_mem n) (n_cfg n) (n_store n) (n_boot n) (n_next_job_seq n) (n_pending_submits n)
    (n_repair n) (n_next_repair n) x (n_lease_deadline n) (n_not_before n) (n_counters n)
    (n_submit_time n) (n_claims n) (n_resync_inflight n) (n_draining n) (n_drain_cb n)
    (n_next_claim_tick n) (n_next_drain_tick n) (n_quorums n) (n_now n) (n_busy n) (n_out n).
Definition set_lease_deadline (x : gmap JobId Z) (n : Node) : Node :=
  mkNode (n_mem n) (n_cfg n) (n_store n) (n_boot n) (n_next_job_seq n) (n_pending_submits n)
    (n_repair n) (n_next_repair n) (n_ready n) x (n_not_before n) (n_counters n) (n_submit_time n)
    (n_claims n) (n_resync_inflight n) (n_draining n) (n_drain_cb n) (n_next_claim_tick n)
    (n_next_drain_tick n) (n_quorums n) (n_now n) (n_busy n) (n_out n).
Definition set_not_before (x : gmap JobId Z) (n : Node) : Node :=
  mkNode (n_mem n) (n_cfg n) (n_store n) (n_boot n) (n_next_job_seq n) (n_pending_submits n)
    (n_repair n) (n_next_repair n) (n_ready n) (n_lease_deadline n) x (n_counters n)
    (n_submit_time n) (n_claims n) (n_resync_inflight n) (n_draining n) (n_drain_cb n)
    (n_next_claim_tick n) (n_next_drain_tick n) (n_quorums n) (n_now n) (n_busy n) (n_out n).
Definition set_counters (x : Counters) (n : Node) : Node :=
  mkNode (n_mem n) (n_cfg n) (n_store n) (n_boot n) (n_next_job_seq n) (n_pending_submits n)
    (n_repair n) (n_next_repair n) (n_ready n) (n_lease_deadline n) (n_not_before n) x
    (n_submit_time n) (n_claims n) (n_resync_inflight n) (n_draining n) (n_drain_cb n)
    (n_next_claim_tick n) (n_next_drain_tick n) (n_quorums n) (n_now n) (n_busy n) (n_out n).
Definition set_submit_time (x : gmap JobId Z) (n : Node) : Node :=
  mkNode (n_mem n) (n_cfg n) (n_store n) (n_boot n) (n_next_job_seq n) (n_pending_submits n)
    (n_repair n) (n_next_repair n) (n_ready n) (n_lease_deadline n) (n_not_before n)
    (n_counters n) x (n_claims n) (n_resync_inflight n) (n_draining n) (n_drain_cb n)
    (n_next_claim_tick n) (n_next_drain_tick n) (n_quorums n) (n_now n) (n_busy n) (n_out n).
Definition set_claims (x : gmap JobId ClaimState) (n : Node) : Node :=
  mkNode (n_mem n) (n_cfg n) (n_store n) (n_boot n) (n_next_job_seq n) (n_pending_submits n)
    (n_repair n) (n_next_repair n) (n_ready n) (n_lease_deadline n) (n_not_before n)
    (n_counters n) (n_submit_time n) x (n_resync_inflight n) (n_draining n) (n_drain_cb n)
    (n_next_claim_tick n) (n_next_drain_tick n) (n_quorums n) (n_now n) (n_busy n) (n_out n).
Definition set_resync_inflight (x : gmap JobId Z) (n : Node) : Node :=
  mkNode (n_mem n) (n_cfg n) (n_store n) (n_boot n) (n_next_job_seq n) (n_pending_submits n)
    (n_repair n) (n_next_repair n) (n_ready n) (n_lease_deadline n) (n_not_before n)
    (n_counters n) (n_submit_time n) (n_claims n) x (n_draining n) (n_drain_cb n)
    (n_next_claim_tick n) (n_next_drain_tick n) (n_quorums n) (n_now n) (n_busy n) (n_out n).
Definition set_draining (x : bool) (n : Node) : Node :=
  mkNode (n_mem n) (n_cfg n) (n_store n) (n_boot n) (n_next_job_seq n) (n_pending_submits n)
    (n_repair n) (n_next_repair n) (n_ready n) (n_lease_deadline n) (n_not_before n)
    (n_counters n) (n_submit_time n) (n_claims n) (n_resync_inflight n) x (n_drain_cb n)
    (n_next_claim_tick n) (n_next_drain_tick n) (n_quorums n) (n_now n) (n_busy n) (n_out n).
Definition set_drain_cb (x : bool) (n : Node) : Node :=
  mkNode (n_mem n) (n_cfg n) (n_store n) (n_boot n) (n_next_job_seq n) (n_pending_submits n)
    (n_repair n) (n_next_repair n) (n_ready n) (n_lease_deadline n) (n_not_before n)
    (n_counters n) (n_submit_time n) (n_claims n) (n_resync_inflight n) (n_draining n) x
    (n_next_claim_tick n) (n_next_drain_tick n) (n_quorums n) (n_now n) (n_busy n) (n_out n).
Definition set_next_claim_tick (x : Z) (n : Node) : Node :=
  mkNode (n_mem n) (n_cfg n) (n_store n) (n_boot n) (n_next_job_seq n) (n_pending_submits n)
    (n_repair n) (n_next_repair n) (n_ready n) (n_lease_deadline n) (n_not_before n)
    (n_counters n) (n_submit_time n) (n_claims n) (n_resync_inflight n) (n_draining n)
    (n_drain_cb n) x (n_next_drain_tick n) (n_quorums n) (n_now n) (n_busy n) (n_out n).
Definition set_next_drain_tick (x : Z) (n : Node) : Node :=
  mkNode (n_mem n) (n_cfg n) (n_store n) (n_boot n) (n_next_job_seq n) (n_pending_submits n)
    (n_repair n) (n_next_repair n) (n_ready n) (n_lease_deadline n) (n_not_before n)
    (n_counters n) (n_submit_time n) (n_claims n) (n_resync_inflight n) (n_draining n)
    (n_drain_cb n) (n_next_claim_tick n) x (n_quorums n) (n_now n) (n_busy n) (n_out n).
Definition set_quorums (x : list QState) (n : Node) : Node :=
  mkNode (n_mem n) (n_cfg n) (n_store n) (n_boot n) (n_next_job_seq n) (n_pending_submits n)
    (n_repair n) (n_next_repair n) (n_ready n) (n_lease_deadline n) (n_not_before n)
    (n_counters n) (n_submit_time n) (n_claims n) (n_resync_inflight n) (n_draining n)
    (n_drain_cb n) (n_next_claim_tick n) (n_next_drain_tick n) x (n_now n) (n_busy n) (n_out n).
Definition set_now (x : Z) (n : Node) : Node :=
  mkNode (n_mem n) (n_cfg n) (n_store n) (n_boot n) (n_next_job_seq n) (n_pending_submits n)
    (n_repair n) (n_next_repair n) (n_ready n) (n_lease_deadline n) (n_not_before n)
    (n_counters n) (n_submit_time n) (n_claims n) (n_resync_inflight n) (n_draining n)
    (n_drain_cb n) (n_next_claim_tick n) (n_next_drain_tick n) (n_quorums n) x (n_busy n)
    (n_out n).
Definition set_busy (x : list bool) (n : Node) : Node :=
  mkNode (n_mem n) (n_cfg n) (n_store n) (n_boot n) (n_next_job_seq n) (n_pending_submits n)
    (n_repair n) (n_next_repair n) (n_ready n) (n_lease_deadline n) (n_not_before n)
    (n_counters n) (n_submit_time n) (n_claims n) (n_resync_inflight n) (n_draining n)
    (n_drain_cb n) (n_next_claim_tick n) (n_next_drain_tick n) (n_quorums n) (n_now n) x (n_out n).
Definition set_out (x : list Out) (n : Node) : Node :=
  mkNode (n_mem n) (n_cfg n) (n_store n) (n_boot n) (n_next_job_seq n) (n_pending_submits n)
    (n_repair n) (n_next_repair n) (n_ready n) (n_lease_deadline n) (n_not_before n)
    (n_counters n) (n_submit_time n) (n_claims n) (n_resync_inflight n) (n_draining n)
    (n_drain_cb n) (n_next_claim_tick n) (n_next_drain_tick n) (n_quorums n) (n_now n) (n_busy n)
    x.
End node.
Arguments Node : clear implicits.

(** A node that has just been constructed. *)
Definition new_node {S M} (mem : M) (cfg : NodeConfig) (store : S) (boot : Z) : Node S M :=
  mkNode mem cfg store boot 1 ∅ ∅ 0 [] ∅ ∅ no_counters ∅ ∅ ∅ false false 0 0 [] 0 [] [].
