(* ===== verification/QueueNode.v ===== *)
(** * QueueNode: the operations of class QueueNode (src/src/queue_node.cc)

    Every handler, timer and client entry point, as a function on the node state.
    A call of [rpc_.call] either leaves its continuation with the RPC layer
    ([OCall]) or fails at once, in which case the continuation runs synchronously,
    as in the source. *)

From Stdlib Require Import ZArith Lia.
From stdpp Require Import base tactics list numbers gmap.
From S2P Require Import Prelude Bytes Wire Records Table StoreApi Ring NodeState.

(** ** Pure helpers *)

(** The slots of a job's replica set that are neither empty nor this node. *)
Definition peer_slots (me : Endpoint) (j : Job) : list (nat * Endpoint) :=
  filter (fun p => snd p <> no_endpoint /\ snd p <> me)
    [(0%nat, rep0 (j_replicas j)); (1%nat, rep1 (j_replicas j)); (2%nat, rep2 (j_replicas j))].

Definition replica_slot (j : Job) (s : nat) : Endpoint :=
  default no_endpoint (replica_list (j_replicas j) !! s).

Definition encode_params (p : SubmitParams) : bytes :=
  let out := put_u16 [] (u16 (Z.of_nat (length (p_idem_key p)))) in
  let out := put_bytes out (p_idem_key p) in
  let out := put_u16 out (u16 (Z.of_nat (length (p_url p)))) in
  let out := put_bytes out (p_url p) in
  let out := put_u16 out (u16 (Z.of_nat (length (p_body p)))) in
  let out := put_bytes out (p_body p) in
  let out := put_u32 out (p_visibility_ms p) in
  put_u32 out (p_max_attempts p).

Definition decode_params (b : bytes) : res SubmitParams :=
  let! (key, off) := get_str b 0 kMaxIdemKey in
  let! (url, off) := get_str b off kMaxUrl in
  reject_if (length b <? off + 2)%nat;
  let! blen := get_u16 b off in
  let off := (off + 2)%nat in
  reject_if (kMaxJobBody <? Z.to_nat blen)%nat || (length b <? off + Z.to_nat blen)%nat;
  let! body := slice b off (Z.to_nat blen) in
  let off := (off + Z.to_nat blen)%nat in
  reject_if (length b <? off + 8)%nat;
  let! vis := get_u32 b off in
  let! att := get_u32 b (off + 4) in
  Val (mkParams key url body vis att).

(** [rec_meta]: job and epoch of a transition record. *)
Definition rec_meta (r : Rec) : option (JobId * Z) :=
  match r with
  | LeaseRec id e _ _ | DoneRec id e _ | ExpireRec id e _ | DeadLetterRec id e
  | TakeoverRec id e _ => Some (id, e)
  | SubmitRec _ | ReplicateRec _ => None
  end.

Definition is_takeover (r : Rec) : bool :=
  match r with TakeoverRec _ _ _ => true | _ => false end.

Definition nack_backoff (attempt : Z) : Z :=
  let shift := if 6 <? attempt then 6 else if 0 <? attempt then attempt - 1 else 0 in
  Z.min (u64 (Z.shiftl 1000 shift)) 60000.

(** Merged-state precedence for claim responses. *)
Definition state_rank (s : JobState) : Z :=
  match s with Done => 3 | DeadLetter => 2 | Leased => 1 | Ready => 0 | OtherState _ => 0 end.

Definition terminal (s : JobState) : bool := is_done s || is_dead s.

Section queue_node.
Context {S M : Type} `{StoreOps S} `{Membership M}.
Implicit Types n : Node S M.

(** ** Primitives *)

Definition me n : Endpoint := self (n_cfg n).

Definition find_job n (id : JobId) : option Job := find (st_table (n_store n)) id.

Definition owned_by_me n (j : Job) : bool := bool_decide (j_owner j = me n).

(** [store_.commit(rec)] *)
Definition commit_rec (r : Rec) n : bool * Node S M :=
  let '(ok, s) := st_commit r (n_store n) in (ok, set_store s n).

Definition emit (o : Out) n : Node S M := set_out (n_out n ++ [o]) n.

Definition count (f : Counters -> Counters) n : Node S M := set_counters (f (n_counters n)) n.

Definition respond (ctx : ReqCtx) (st : Z) (body : bytes) n : Node S M := emit (ORespond ctx st body) n.

Definition submit_cb (cb : SubmitCb) (st : Z) (id : JobId) n : Node S M :=
  match cb with
  | SubmitClient tag => emit (OSubmit tag st id) n
  | SubmitRespond ctx => respond ctx st (put_job_id [] id) n
  end.

Definition ack_cb (cb : AckCb) (st : Z) n : Node S M :=
  match cb with
  | AckClient tag => emit (OAck tag st) n
  | AckRespond ctx => respond ctx st [] n
  end.

(** The local outcome of [rpc_.call]: the code of an immediate failure, or the
    continuation is with the RPC layer. *)
Definition rpc_try (to : Endpoint) (m : Method) (body : bytes) (k : Kont) n : option Z * Node S M :=
  if (kMaxRpcBody <? length body)%nat then (Some rpcstatus.kTooLarge, n) else
  match n_busy n with
  | true :: bs => (Some rpcstatus.kBusy, set_busy bs n)
  | false :: bs => (None, emit (OCall to m body k) (set_busy bs n))
  | [] => (None, emit (OCall to m body k) n)
  end.

(** ** Shared pieces *)

Definition requeue_ready (id : JobId) (not_before : Z) n : Node S M :=
  set_not_before (<[id := not_before]> (n_not_before n)) (set_ready (n_ready n ++ [id]) n).

Definition replicas_reachable n (j : Job) : bool :=
  let slots := peer_slots (me n) j in
  existsb (fun p => is_alive (n_mem n) (snd p)) slots || bool_decide (slots = []).

Definition slot_bit (s : nat) : Z := Z.shiftl 1 (Z.of_nat s).

Definition mark_replica_ok (id : JobId) (slot : nat) n : Node S M :=
  match n_repair n !! id with
  | None => n
  | Some mask =>
      let mask := Z.lor mask (u8 (slot_bit slot)) in
      let want := match find_job n id with
                  | Some j => foldl (fun w p => Z.lor w (u8 (slot_bit (fst p)))) 0 (peer_slots (me n) j)
                  | None => 0
                  end in
      if Z.land mask want =? want then set_repair (delete id (n_repair n)) n
      else set_repair (<[id := mask]> (n_repair n)) n
  end.

Definition submit_result (id : JobId) (st : Z) n : Node S M :=
  match n_pending_submits n !! id with
  | None => n
  | Some ps =>
      submit_cb (ps_cb ps) st id (set_pending_submits (delete id (n_pending_submits n)) n)
  end.

(** The lambda of [lease]. *)
Definition lease_done (id : JobId) (tag : Z) (ok : bool) n : Node S M :=
  match find_job n id with
  | None => emit (OLease tag qstatus.kUnknownJob no_grant) n
  | Some j =>
      if negb ok then
        let '(_, n) := commit_rec (ExpireRec id (j_epoch j) (j_lease_seq j)) n in
        let att := match find_job n id with Some j => j_attempts j | None => 0 end in
        let n := requeue_ready id (n_now n + nack_backoff att) n in
        emit (OLease tag qstatus.kNoQuorum no_grant) n
      else
        let n := count add_leases_granted n in
        let n := set_lease_deadline (<[id := n_now n + j_visibility_ms j]> (n_lease_deadline n)) n in
        emit (OLease tag qstatus.kCreated
                (mkGrant id (j_url j) (j_body j) (j_idem_key j) (j_epoch j) (j_lease_seq j)
                   (j_visibility_ms j) (j_attempts j))) n
  end.

(** The lambda of [owner_ack]. *)
Definition complete_done (id : JobId) (cb : AckCb) (ok : bool) n : Node S M :=
  let n := match n_submit_time n !! id with
           | Some ts => set_submit_time (delete id (n_submit_time n))
                          (emit (OLatency (n_now n - ts)) n)
           | None => n
           end in
  let n := if ok then count add_completions_ok n else n in
  ack_cb cb (if ok then qstatus.kCreated else qstatus.kNoQuorum) n.

Definition quorum_done (d : QDone) (ok : bool) n : Node S M :=
  match d with
  | QIgnore => n
  | QLease id tag => lease_done id tag ok n
  | QComplete id cb => complete_done id cb ok n
  end.

(** The part of the Apply lambda after the status has been looked at: [acked] when
    the replica answered kCreated. *)
Definition quorum_reply (q : nat) (acked : bool) n : Node S M :=
  match n_quorums n !! q with
  | None => n
  | Some st =>
      let outstanding := q_outstanding st - 1 in
      let nd := if acked then q_needed st - 1 else q_needed st in
      let put st := set_quorums (<[q := st]> (n_quorums n)) n in
      if negb (q_fired st) && (nd <=? 0) then
        quorum_done (q_done st) true (put (mkQState (q_done st) nd outstanding true))
      else if negb (q_fired st) && (outstanding =? 0) then
        quorum_done (q_done st) false (put (mkQState (q_done st) nd outstanding true))
      else put (mkQState (q_done st) nd outstanding (q_fired st))
  end.

(** The part of the Replicate lambda after the status has been looked at. *)
Definition replicate_reply (id : JobId) (ok : bool) n : Node S M :=
  match n_pending_submits n !! id with
  | None => n
  | Some ps =>
      let ps := mkPending (ps_cb ps) (if ok then ps_needed ps - 1 else ps_needed ps)
                  (ps_outstanding ps - 1) in
      let n := set_pending_submits (<[id := ps]> (n_pending_submits n)) n in
      if ps_needed ps <=? 0 then submit_result id qstatus.kCreated n
      else if ps_outstanding ps =? 0 then submit_result id qstatus.kNoQuorum n
      else n
  end.

Definition resync_countdown (id : JobId) n : Node S M :=
  match n_resync_inflight n !! id with
  | Some c => if c - 1 <=? 0 then set_resync_inflight (delete id (n_resync_inflight n)) n
              else set_resync_inflight (<[id := c - 1]> (n_resync_inflight n)) n
  | None => n
  end.

(** The copy kept of the best so far and a candidate. *)
Definition better (best : option Job) (j : Job) : option Job :=
  match best with
  | None => Some j
  | Some b => if job_advances b j then Some j else best
  end.

(** [query_status_target] over the targets that remain. *)
Fixpoint query_status (id : JobId) (targets : list Endpoint) (best : option Job) (tag : Z) n
  : Node S M :=
  match targets with
  | [] => emit (OStatus tag (if best is Some _ then qstatus.kCreated else qstatus.kUnknownJob) best) n
  | target :: rest =>
      if decide (target = me n) then
        let best := match find_job n id with Some local => better best local | None => best end in
        query_status id rest best tag n
      else
        let '(r, n) := rpc_try target FwdStatus (put_job_id [] id) (KStatus id rest best tag) n in
        match r with
        | None => n
        | Some _ => query_status id rest best tag n
        end
  end.

(** A continuation that the RPC layer runs with one of its own codes. *)
Definition transport_failure (k : Kont) (code : Z) n : Node S M :=
  match k with
  | KFwdSubmit cb => submit_cb cb qstatus.kNoQuorum no_job_id n
  | KStatus id rest best tag => query_status id rest best tag n
  | KReplicate id _ => replicate_reply id false n
  | KApply _ _ q => quorum_reply q false n
  | KFwdAck cb => ack_cb cb code n
  | KClaim _ _ => n
  | KResync id => resync_countdown id n
  | KDrain => n
  end.

Definition rpc_call (to : Endpoint) (m : Method) (body : bytes) (k : Kont) n : Node S M :=
  let '(r, n) := rpc_try to m body k n in
  match r with None => n | Some code => transport_failure k code n end.

(** ** Replication, quorum commits, resync *)

Definition resync_job (id : JobId) n : Node S M :=
  if bool_decide (is_Some (n_resync_inflight n !! id)) then n else
  match find_job n id with
  | None => n
  | Some j =>
      let alive_slots := filter (fun p => is_alive (n_mem n) (snd p) = true) (peer_slots (me n) j) in
      let n := foldl (fun n p => rpc_call (snd p) Resync (put_job_id [] id) (KResync id) n)
                 n alive_slots in
      let sent := Z.of_nat (length alive_slots) in
      if 0 <? sent then set_resync_inflight (<[id := sent]> (n_resync_inflight n)) n else n
  end.

Definition send_replicate (id : JobId) (slot : nat) n : Node S M :=
  match find_job n id with
  | None => n
  | Some j => rpc_call (replica_slot j slot) Replicate (put_job [] j) (KReplicate id slot) n
  end.

Definition start_replication (id : JobId) (track_quorum : bool) (cb : SubmitCb) n : Node S M :=
  match find_job n id with
  | None => n
  | Some j =>
      let slots := peer_slots (me n) j in
      let replica_count := Z.of_nat (length slots) in
      let n := set_repair (<[id := 0]> (n_repair n)) n in
      let n :=
        if track_quorum then
          let ps := mkPending cb (if 0 <? replica_count then 1 else 0) replica_count in
          let n := set_pending_submits (<[id := ps]> (n_pending_submits n)) n in
          if replica_count =? 0 then submit_result id qstatus.kCreated n else n
        else n in
      foldl (fun n p => send_replicate id (fst p) n) n slots
  end.

Definition quorum_commit (id : JobId) (rec : Rec) (done : QDone) n : Node S M :=
  let '(ok, n) := commit_rec rec n in
  if negb ok then quorum_done done false n else
  match find_job n id with
  | None => n
  | Some j =>
      let n := set_repair (<[id := 0]> (n_repair n)) n in
      let slots := peer_slots (me n) j in
      if bool_decide (slots = []) then quorum_done done true n else
      let q := length (n_quorums n) in
      let n := set_quorums (n_quorums n ++ [mkQState done 1 (Z.of_nat (length slots)) false]) n in
      let body := encode_record rec 0 in
      foldl (fun n p => rpc_call (snd p) Apply body (KApply id (fst p) q) n) n slots
  end.

(** ** Ownership *)

Definition after_ownership_change (id : JobId) n : Node S M :=
  match find_job n id with
  | None => n
  | Some j =>
      if negb (owned_by_me n j) then
        let n := set_lease_deadline (delete id (n_lease_deadline n)) n in
        let n := set_not_before (delete id (n_not_before n)) n in
        let n := set_repair (delete id (n_repair n)) n in
        set_claims (delete id (n_claims n)) n
      else if bool_decide (j_state j = Ready) then set_ready (n_ready n ++ [id]) n
      else n
  end.

Definition finalize_takeover (id : JobId) n : Node S M :=
  match n_claims n !! id with
  | None => n
  | Some st =>
      let n := set_claims (delete id (n_claims n)) n in
      match find_job n id with
      | None => n
      | Some j =>
          if negb (owned_by_me n j) then n else
          let n := count add_takeovers n in
          let merged := state_of_u8 (best_state st) in
          let best := u32 (best_seq st) in                  (* a uint32_t *)
          let n :=
            if bool_decide (merged = Done) && negb (is_done (j_state j)) then
              snd (commit_rec (DoneRec id (j_epoch j) best) n)
            else if bool_decide (merged = DeadLetter) && negb (is_done (j_state j)) &&
                    negb (is_dead (j_state j)) then
              snd (commit_rec (DeadLetterRec id (j_epoch j)) n)
            else if bool_decide (merged = Leased) || (j_lease_seq j <? best) then
              let n :=
                if negb (bool_decide (j_state j = Leased)) || (j_lease_seq j <? best) then
                  let seq := if j_lease_seq j <? best then best else j_lease_seq j in
                  snd (commit_rec (LeaseRec id (j_epoch j) seq 0) n)
                else n in
              set_lease_deadline (<[id := n_now n + j_visibility_ms j]> (n_lease_deadline n)) n
            else n in
          let n :=
            match find_job n id with
            | Some j =>
                if bool_decide (j_state j = Ready) then set_ready (n_ready n ++ [id]) n
                else if bool_decide (j_state j = Leased) &&
                        bool_decide (n_lease_deadline n !! id = None) then
                  set_lease_deadline (<[id := n_now n + j_visibility_ms j]> (n_lease_deadline n)) n
                else n
            | None => n
            end in
          set_repair (<[id := 0]> (n_repair n)) n
      end
  end.

Definition claim_body n (id : JobId) (proposed : Z) : bytes :=
  put_endpoint (put_u32 (put_job_id [] id) proposed) (me n).

Definition claim_send (id : JobId) (to : Endpoint) n : Node S M :=
  match n_claims n !! id with
  | None => n
  | Some st => rpc_call to Claim (claim_body n id (proposed st)) (KClaim id to) n
  end.

Definition start_takeover (id : JobId) n : Node S M :=
  if n_draining n || bool_decide (is_Some (n_claims n !! id)) then n else
  match find_job n id with
  | None => n
  | Some j =>
      if owned_by_me n j || terminal (j_state j) then n else
      let prop := u32 (j_epoch j + 1) in
      let '(ok, n) := commit_rec (TakeoverRec id prop (me n)) n in
      if negb ok then n else
      match find_job n id with
      | None => n
      | Some j =>
          let set_size :=
            Z.of_nat (length (filter (fun e => e <> no_endpoint) (replica_list (j_replicas j)))) in
          let need := set_size / 2 + 1 - 1 in
          let st := mkClaim prop 0 need (u8_of_state (j_state j)) (j_lease_seq j) 0 (n_now n + 1000) in
          let n := set_claims (<[id := st]> (n_claims n)) n in
          if need <=? 0 then finalize_takeover id n else
          foldl (fun n p => if is_alive (n_mem n) (snd p) then claim_send id (snd p) n else n)
            n (peer_slots (me n) j)
      end
  end.

(** The kCreated branch of the Claim lambda. *)
Definition claim_granted (id : JobId) (to : Endpoint) (resp : bytes) (st : ClaimState) n : Node S M :=
  let bit := match find_job n id with
             | Some j => foldl (fun b s => if decide (replica_slot j s = to) then slot_bit s else b)
                           0 [0%nat; 1%nat; 2%nat]
             | None => 0
             end in
  let fresh := (bit =? 0) || (Z.land (acked_mask st) bit =? 0) in
  let mask := if fresh then Z.lor (acked_mask st) bit else acked_mask st in
  let got := if fresh then acks st + 1 else acks st in
  let '(bs, bq) :=
    if (length resp <? 5)%nat then (best_state st, best_seq st) else
    match get_u8 resp 0, get_u32 resp 1 with
    | Val rstate, Val rseq =>
        (if state_rank (state_of_u8 (best_state st)) <? state_rank (state_of_u8 rstate)
         then rstate else best_state st,
         if best_seq st <? rseq then rseq else best_seq st)
    | _, _ => (best_state st, best_seq st)
    end in
  let n := set_claims (<[id := mkClaim (proposed st) got (needed st) bs bq mask (next_retry st)]>
                         (n_claims n)) n in
  if needed st <=? got then finalize_takeover id n else n.

(** ** Replies *)

Definition is_created (code : Z) : bool := code =? qstatus.kCreated.

(** The lambdas given to [rpc_.call], each with the code and body of a response. *)

(** [submit]'s: a transport failure is ambiguous and reported as kNoQuorum. *)
Definition fwd_submit_reply (cb : SubmitCb) (code : Z) (resp : bytes) n : Node S M :=
  if code <? kTransport then
    let id := if (length resp <? kJobIdSize)%nat then no_job_id
              else match get_job_id resp 0 with Val i => i | _ => no_job_id end in
    submit_cb cb code id n
  else submit_cb cb qstatus.kNoQuorum no_job_id n.

(** [query_status_target]'s. *)
Definition status_reply (id : JobId) (rest : list Endpoint) (best : option Job) (tag : Z)
    (code : Z) (resp : bytes) n : Node S M :=
  let best :=
    if is_created code then
      match get_job resp 0 with
      | Val (remote, _) => if decide (j_id remote = id) then better best remote else best
      | _ => best
      end
    else best in
  query_status id rest best tag n.

(** [send_replicate]'s. *)
Definition replicate_lambda (id : JobId) (slot : nat) (code : Z) n : Node S M :=
  let ok := is_created code || (code =? qstatus.kDuplicate) in
  let n := if ok then mark_replica_ok id slot n
           else if code =? qstatus.kStaleEpoch then resync_job id n else n in
  replicate_reply id ok n.

(** [quorum_commit]'s. *)
Definition apply_lambda (id : JobId) (slot q : nat) (code : Z) n : Node S M :=
  let n := if is_created code then mark_replica_ok id slot n
           else if code =? qstatus.kStaleEpoch then resync_job id n else n in
  quorum_reply q (is_created code) n.

(** [claim_send]'s. *)
Definition claim_lambda (id : JobId) (to : Endpoint) (code : Z) (resp : bytes) n : Node S M :=
  match n_claims n !! id with
  | None => n
  | Some st =>
      if is_created code then claim_granted id to resp st n
      else if code =? qstatus.kStaleEpoch then
        resync_job id (set_claims (delete id (n_claims n)) n)
      else if code =? qstatus.kUnknownJob then
        match find_job n id with
        | Some j => foldl (fun n p => if decide (snd p = to) then send_replicate id (fst p) n else n)
                      n (peer_slots (me n) j)
        | None => n
        end
      else n
  end.

(** [resync_job]'s. *)
Definition resync_lambda (id : JobId) (code : Z) (resp : bytes) n : Node S M :=
  let n := resync_countdown id n in
  if negb (is_created code) then n else
  match get_job resp 0 with
  | Val (remote, _) =>
      if decide (j_id remote = id) then
        match find_job n id with
        | Some local =>
            if job_advances local remote then
              after_ownership_change id (snd (commit_rec (ReplicateRec remote) n))
            else n
        | None => n
        end
      else n
  | _ => n
  end.

(** The continuation [k] runs. *)
Definition on_response (k : Kont) (code : Z) (resp : bytes) n : Node S M :=
  match k with
  | KFwdSubmit cb => fwd_submit_reply cb code resp n
  | KStatus id rest best tag => status_reply id rest best tag code resp n
  | KReplicate id slot => replicate_lambda id slot code n
  | KApply id slot q => apply_lambda id slot q code n
  | KFwdAck cb => ack_cb cb code n
  | KClaim id to => claim_lambda id to code resp n
  | KResync id => resync_lambda id code resp n
  | KDrain => n
  end.

(** ** Client entry points *)

(** Replica set of a fresh job: this node first, whatever the live ring says. *)
Definition choose_replicas n (key : bytes) : Replicas :=
  let set := replica_set key (alive (n_mem n)) in
  if decide (rep0 set = me n) then set else
  let others := take 2 (filter (fun e => e <> me n) (alive (n_mem n))) in
  mkReplicas (me n) (default no_endpoint (others !! 0%nat)) (default no_endpoint (others !! 1%nat)).

Definition fresh_job n (p : SubmitParams) : Job :=
  mkJob (mkJobId (ekey (me n))
           (Z.lor (u64 (Z.shiftl (Z.land (n_boot n) 0xFFFFFFFF) 32)) (n_next_job_seq n)))
    (p_idem_key p) (p_url p) (p_body p)
    (if p_visibility_ms p =? 0 then default_visibility_ms (n_cfg n) else p_visibility_ms p)
    (if p_max_attempts p =? 0 then default_max_attempts (n_cfg n) else p_max_attempts p)
    (choose_replicas n (p_idem_key p)) Ready (me n) 1 0 0.

Definition owner_submit (p : SubmitParams) (cb : SubmitCb) n : Node S M :=
  match find_by_idem (st_table (n_store n)) (p_idem_key p) with
  | Some existing => submit_cb cb qstatus.kDuplicate (j_id existing) (count add_duplicates n)
  | None =>
      if n_draining n then submit_cb cb qstatus.kNoQuorum no_job_id n else
      let n := count add_submits n in
      let j := fresh_job n p in
      let n := set_next_job_seq (u32 (n_next_job_seq n + 1)) n in
      let '(ok, n) := commit_rec (SubmitRec j) n in
      if negb ok then submit_cb cb qstatus.kNoQuorum no_job_id n else
      let n := set_ready (n_ready n ++ [j_id j]) n in
      let n := set_submit_time (<[j_id j := n_now n]> (n_submit_time n)) n in
      start_replication (j_id j) true cb n
  end.

Definition params_invalid (p : SubmitParams) : bool :=
  bool_decide (p_idem_key p = []) || (kMaxIdemKey <? length (p_idem_key p))%nat ||
  bool_decide (p_url p = []) || (kMaxUrl <? length (p_url p))%nat ||
  (kMaxJobBody <? length (p_body p))%nat.

Definition submit (p : SubmitParams) (cb : SubmitCb) n : Node S M :=
  if params_invalid p then submit_cb cb qstatus.kInvalid no_job_id n else
  let owner := owner_for (p_idem_key p) (members (n_mem n)) in
  if decide (owner = me n) then owner_submit p cb n else
  if bool_decide (owner = no_endpoint) || negb (is_alive (n_mem n) owner) then
    submit_cb cb qstatus.kNoQuorum no_job_id n
  else rpc_call owner FwdSubmit (encode_params p) (KFwdSubmit cb) n.

Definition status_targets n (id : JobId) : list Endpoint :=
  foldl push_new [endpoint_of_ekey (origin id)] (alive (n_mem n)).

Definition status (id : JobId) (tag : Z) n : Node S M :=
  query_status id (status_targets n id) None tag n.

(** The scan of [ready_] in [lease]: the job picked and the queue left.  [scan]
    entries are examined; one that is backing off goes to the back. *)
Fixpoint pick_ready (scan : nat) (ready : list JobId) n : option Job * list JobId :=
  match scan, ready with
  | Datatypes.S scan', id :: rest =>
      match find_job n id with
      | Some j =>
          if bool_decide (j_state j = Ready) && owned_by_me n j then
            match n_not_before n !! id with
            | Some t => if n_now n <? t then pick_ready scan' (rest ++ [id]) n else (Some j, rest)
            | None => (Some j, rest)
            end
          else pick_ready scan' rest n
      | None => pick_ready scan' rest n
      end
  | _, _ => (None, ready)
  end.

Definition lease (worker_id tag : Z) n : Node S M :=
  if n_draining n then emit (OLease tag qstatus.kNoJob no_grant) n else
  let '(pick, ready) := pick_ready (length (n_ready n)) (n_ready n) n in
  let n := set_ready ready n in
  match pick with
  | None => emit (OLease tag qstatus.kNoJob no_grant) n
  | Some j =>
      let id := j_id j in
      if negb (replicas_reachable n j) then
        emit (OLease tag qstatus.kNoQuorum no_grant) (set_ready (id :: n_ready n) n)
      else
        let new_seq := u32 (j_lease_seq j + 1) in
        if j_max_attempts j <? new_seq then
          let n := count add_deadletters n in
          let n := quorum_commit id (DeadLetterRec id (j_epoch j)) QIgnore n in
          emit (OLease tag qstatus.kNoJob no_grant) n
        else
          let n := set_not_before (delete id (n_not_before n)) n in
          quorum_commit id (LeaseRec id (j_epoch j) new_seq (u64 worker_id)) (QLease id tag) n
  end.

Definition owner_ack (id : JobId) (epoch lease_seq : Z) (success : bool) (cb : AckCb) n : Node S M :=
  match find_job n id with
  | None => ack_cb cb qstatus.kUnknownJob n
  | Some j =>
      if is_done (j_state j) then
        ack_cb cb (if bool_decide (is_Some (n_repair n !! id)) then qstatus.kNoQuorum
                   else qstatus.kCreated) n
      else
      let current_lease := bool_decide (j_state j = Leased) && (epoch <=? j_epoch j) &&
                           (j_lease_seq j =? lease_seq) in
      if negb success then
        if negb current_lease then ack_cb cb qstatus.kNotLeased n else
        let n := count add_completions_failed n in
        let n := set_lease_deadline (delete id (n_lease_deadline n)) n in
        let n := quorum_commit id (ExpireRec id (j_epoch j) (j_lease_seq j)) QIgnore n in
        let att := match find_job n id with Some j => j_attempts j | None => 0 end in
        let n := requeue_ready id (n_now n + nack_backoff att) n in
        ack_cb cb qstatus.kCreated n
      else
      let amnesty := bool_decide (j_state j = Ready) &&
        ((epoch <? j_epoch j) || ((epoch =? j_epoch j) && (lease_seq <=? j_lease_seq j))) in
      let late_after_park := is_dead (j_state j) && (epoch <=? j_epoch j) in
      if negb current_lease && negb amnesty && negb late_after_park then
        ack_cb cb qstatus.kNotLeased n
      else
        let n := set_lease_deadline (delete id (n_lease_deadline n)) n in
        let n := set_not_before (delete id (n_not_before n)) n in
        quorum_commit id (DoneRec id (j_epoch j) (j_lease_seq j)) (QComplete id cb) n
  end.

Definition ack_body (id : JobId) (epoch lease_seq : Z) (success : bool) : bytes :=
  put_u8 (put_u32 (put_u32 (put_job_id [] id) epoch) lease_seq) (if success then 1 else 0).

Definition ack (id : JobId) (epoch lease_seq : Z) (success : bool) (cb : AckCb) n : Node S M :=
  match find_job n id with
  | None => ack_cb cb qstatus.kUnknownJob n
  | Some j =>
      if owned_by_me n j then owner_ack id epoch lease_seq success cb n
      else rpc_call (j_owner j) FwdAck (ack_body id epoch lease_seq success) (KFwdAck cb) n
  end.

Definition drain n : Node S M :=
  set_next_drain_tick 0 (set_drain_cb true (set_draining true n)).

(** ** Request handlers *)

Definition handle_fwd_submit (ctx : ReqCtx) (body : bytes) n : Node S M :=
  match decode_params body with
  | Val p => owner_submit p (SubmitRespond ctx) n
  | _ => respond ctx qstatus.kInvalid [] n
  end.

Definition handle_replicate (ctx : ReqCtx) (body : bytes) n : Node S M :=
  match get_job body 0 with
  | Val (j, _) =>
      let stale := match find_job n (j_id j) with
                   | Some known => j_epoch j <? j_epoch known
                   | None => false
                   end in
      if stale then respond ctx qstatus.kStaleEpoch [] n else
      let '(ok, n) := commit_rec (ReplicateRec j) n in
      respond ctx (if ok then qstatus.kCreated else qstatus.kNoQuorum) [] n
  | _ => respond ctx qstatus.kInvalid [] n
  end.

Definition handle_apply (ctx : ReqCtx) (body : bytes) n : Node S M :=
  match decode_record body with
  | Val (rec, _) =>
      match rec_meta rec with
      | None => respond ctx qstatus.kInvalid [] n
      | Some (id, epoch) =>
          match find_job n id with
          | None => respond ctx qstatus.kUnknownJob [] n
          | Some j =>
              if epoch <? j_epoch j then
                respond ctx qstatus.kStaleEpoch [] (count add_fenced_stale n)
              else if negb (bool_decide (from ctx = j_owner j)) && negb (is_takeover rec) then
                respond ctx qstatus.kNotOwner [] n
              else
                let '(ok, n) := commit_rec rec n in
                respond ctx (if ok then qstatus.kCreated else qstatus.kNoQuorum) [] n
          end
      end
  | _ => respond ctx qstatus.kInvalid [] n
  end.

Definition handle_fwd_ack (ctx : ReqCtx) (body : bytes) n : Node S M :=
  if (length body <? kJobIdSize + 9)%nat then respond ctx qstatus.kInvalid [] n else
  match get_job_id body 0, get_u32 body kJobIdSize, get_u32 body (kJobIdSize + 4),
        get_u8 body (kJobIdSize + 8) with
  | Val id, Val epoch, Val seq, Val flag =>
      match find_job n id with
      | None => respond ctx qstatus.kUnknownJob [] n
      | Some j =>
          if negb (owned_by_me n j) then respond ctx qstatus.kNotOwner [] n
          else owner_ack id epoch seq (negb (flag =? 0)) (AckRespond ctx) n
      end
  | _, _, _, _ => n
  end.

Definition handle_fwd_status (ctx : ReqCtx) (body : bytes) n : Node S M :=
  if (length body <? kJobIdSize)%nat then respond ctx qstatus.kInvalid [] n else
  match get_job_id body 0 with
  | Val id =>
      match find_job n id with
      | None => respond ctx qstatus.kUnknownJob [] n
      | Some j => respond ctx qstatus.kCreated (put_job [] j) n
      end
  | _ => n
  end.

Definition handle_claim (ctx : ReqCtx) (body : bytes) n : Node S M :=
  if (length body <? kJobIdSize + 4 + kEndpointSize)%nat then respond ctx qstatus.kInvalid [] n else
  match get_job_id body 0, get_u32 body kJobIdSize, get_endpoint body (kJobIdSize + 4) with
  | Val id, Val proposed, Val new_owner =>
      if negb (bool_decide (from ctx = new_owner)) then respond ctx qstatus.kInvalid [] n else
      match find_job n id with
      | None => respond ctx qstatus.kUnknownJob [] n
      | Some j =>
          if negb (bool_decide (new_owner ∈ replica_list (j_replicas j))) then
            respond ctx qstatus.kNotOwner [] n
          else
          let resp := put_u32 (put_u8 [] (u8_of_state (j_state j))) (j_lease_seq j) in
          if (proposed <? j_epoch j) ||
             ((proposed =? j_epoch j) && negb (bool_decide (j_owner j = new_owner))) then
            respond ctx qstatus.kStaleEpoch [] n
          else if proposed =? j_epoch j then respond ctx qstatus.kCreated resp n
          else
            let '(ok, n) := commit_rec (TakeoverRec id proposed new_owner) n in
            if negb ok then respond ctx qstatus.kNoQuorum [] n
            else respond ctx qstatus.kCreated resp (after_ownership_change id n)
      end
  | _, _, _ => n
  end.

Definition handle_resync (ctx : ReqCtx) (body : bytes) n : Node S M :=
  if (length body <? kJobIdSize)%nat then respond ctx qstatus.kInvalid [] n else
  match get_job_id body 0 with
  | Val id =>
      match find_job n id with
      | None => respond ctx qstatus.kUnknownJob [] n
      | Some j => respond ctx qstatus.kCreated (put_job [] j) n
      end
  | _ => n
  end.

Definition handle_drain_handoff (ctx : ReqCtx) (body : bytes) n : Node S M :=
  if (length body <? kJobIdSize)%nat then respond ctx qstatus.kInvalid [] n else
  match get_job_id body 0 with
  | Val id =>
      match find_job n id with
      | None => respond ctx qstatus.kUnknownJob [] n
      | Some j =>
          let n := if bool_decide (from ctx = j_owner j) && negb (owned_by_me n j)
                   then start_takeover id n else n in
          respond ctx qstatus.kCreated [] n
      end
  | _ => n
  end.

(** The handler table built by the constructor; other methods have none. *)
Definition on_request (ctx : ReqCtx) (body : bytes) n : option (Node S M) :=
  match method ctx with
  | FwdSubmit => Some (handle_fwd_submit ctx body n)
  | Replicate => Some (handle_replicate ctx body n)
  | Apply => Some (handle_apply ctx body n)
  | FwdAck => Some (handle_fwd_ack ctx body n)
  | FwdStatus => Some (handle_fwd_status ctx body n)
  | Claim => Some (handle_claim ctx body n)
  | Resync => Some (handle_resync ctx body n)
  | DrainHandoff => Some (handle_drain_handoff ctx body n)
  | _ => None
  end.

(** ** Timers and membership events *)

Definition expire_one (now : Z) (id : JobId) n : Node S M :=
  let n := set_lease_deadline (delete id (n_lease_deadline n)) n in
  match find_job n id with
  | None => n
  | Some j =>
      if negb (bool_decide (j_state j = Leased)) || negb (owned_by_me n j) then n else
      if j_max_attempts j <=? j_lease_seq j then
        quorum_commit id (DeadLetterRec id (j_epoch j)) QIgnore (count add_deadletters n)
      else
        requeue_ready id now
          (quorum_commit id (ExpireRec id (j_epoch j) (j_lease_seq j)) QIgnore
             (count add_expirations n))
  end.

Definition expiry_tick (now : Z) n : Node S M :=
  let due := fst <$> filter (fun p => snd p <= now) (map_to_list (n_lease_deadline n)) in
  foldl (fun n id => expire_one now id n) n due.

Definition repair_one (id : JobId) (mask : Z) n : Node S M :=
  match find_job n id with
  | None => n
  | Some j =>
      if negb (owned_by_me n j) then n else
      foldl (fun n p =>
               if (Z.land mask (slot_bit (fst p)) =? 0) && is_alive (n_mem n) (snd p)
               then send_replicate id (fst p) n else n)
        n (peer_slots (me n) j)
  end.

Definition repair_tick (now : Z) n : Node S M :=
  if now <? n_next_repair n then n else
  let n := set_next_repair (now + repair_interval (n_cfg n)) n in
  foldl (fun n p => repair_one (fst p) (snd p) n) n (map_to_list (n_repair n)).

Definition set_retry (t : Z) (st : ClaimState) : ClaimState :=
  mkClaim (proposed st) (acks st) (needed st) (best_state st) (best_seq st) (acked_mask st) t.

Definition claim_one (now : Z) (id : JobId) n : Node S M :=
  match n_claims n !! id with
  | None => n
  | Some st =>
      let n := set_claims (<[id := set_retry (now + 1000) st]> (n_claims n)) n in
      match find_job n id with
      | None => n
      | Some j =>
          foldl (fun n p =>
                   if (Z.land (acked_mask st) (slot_bit (fst p)) =? 0) && is_alive (n_mem n) (snd p)
                   then claim_send id (snd p) n else n)
            n (peer_slots (me n) j)
      end
  end.

Definition claim_tick (now : Z) n : Node S M :=
  if now <? n_next_claim_tick n then n else
  let n := set_next_claim_tick (now + 500) n in
  let due := fst <$> filter (fun p => next_retry (snd p) <= now) (map_to_list (n_claims n)) in
  foldl (fun n id => claim_one now id n) n due.

(** The owned jobs a draining node still has to hand over. *)
Definition undrained n : list (JobId * Job) :=
  filter (fun p => owned_by_me n (snd p) = true /\ terminal (j_state (snd p)) = false)
    (map_to_list (jobs (st_table (n_store n)))).

Definition handoff_one (id : JobId) (j : Job) n : Node S M :=
  match filter (fun e => e <> no_endpoint /\ e <> me n /\ is_alive (n_mem n) e = true)
          (replica_list (j_replicas j)) with
  | r :: _ => rpc_call r DrainHandoff (put_job_id [] id) KDrain n
  | [] => n
  end.

Definition drain_tick (now : Z) n : Node S M :=
  if negb (n_draining n) || (now <? n_next_drain_tick n) then n else
  let n := set_next_drain_tick (now + 500) n in
  let left := undrained n in
  let n := foldl (fun n p => handoff_one (fst p) (snd p) n) n left in
  if bool_decide (left = []) && n_drain_cb n then emit ODrained (set_drain_cb false n) else n.

(** [tick]; [timeouts] are the continuations [rpc_.tick] times out. *)
Definition tick (timeouts : list Kont) n : Node S M :=
  let n := foldl (fun n k => on_response k rpcstatus.kTimeout [] n) n timeouts in
  let now := n_now n in
  drain_tick now (claim_tick now (repair_tick now (expiry_tick now n))).

(** The first alive member of the pinned replica set. *)
Definition successor n (j : Job) : Endpoint :=
  default no_endpoint
    (head (filter (fun e => e <> no_endpoint /\ is_alive (n_mem n) e = true)
             (replica_list (j_replicas j)))).

Definition orphans n : list JobId :=
  fst <$> filter (fun p =>
      owned_by_me n (snd p) = false /\ is_alive (n_mem n) (j_owner (snd p)) = false /\
      terminal (j_state (snd p)) = false /\ successor n (snd p) = me n)
    (map_to_list (jobs (st_table (n_store n)))).

(** [on_peer_dead]; [failed] are the calls to the peer that [rpc_.peer_dead] fails. *)
Definition on_peer_dead (failed : list Kont) n : Node S M :=
  let n := foldl (fun n k => on_response k rpcstatus.kPeerDown [] n) n failed in
  foldl (fun n id => start_takeover id n) n (orphans n).

Definition on_peer_alive (peer : Endpoint) n : Node S M :=
  let ids := fst <$> filter (fun p => owned_by_me n (snd p) = true /\
                                       peer ∈ replica_list (j_replicas (snd p)))
               (map_to_list (jobs (st_table (n_store n)))) in
  foldl (fun n id => set_repair (<[id := 0]> (n_repair n)) n) n ids.

(** [open], after the store has replayed its log. *)
Definition open_one (id : JobId) (j : Job) n : Node S M :=
  if negb (owned_by_me n j) then n else
  let n := set_repair (<[id := 0]> (n_repair n)) n in
  let n := if bool_decide (j_state j = Ready) then set_ready (n_ready n ++ [id]) n
           else if bool_decide (j_state j = Leased) then
             set_lease_deadline (<[id := n_now n + j_visibility_ms j]> (n_lease_deadline n)) n
           else n in
  if bool_decide (j_state j = Ready) || bool_decide (j_state j = Leased) then resync_job id n else n.

Definition node_open n : Node S M :=
  foldl (fun n p => open_one (fst p) (snd p) n) n (map_to_list (jobs (st_table (n_store n)))).
End queue_node.

(** ** Concrete nodes for the witnesses and the executions below *)
Module NodeSample.
Import Sample.
Definition members3 : StaticMembership := static_membership [node_a; node_b; node_c].
Definition node_at (e : Endpoint) (t : Table) : Node MemStore StaticMembership :=
  new_node members3 (default_config e) (mkMem t []) 1.
Definition table1 : Table := apply empty_table (SubmitRec job1).
End NodeSample.
