(* ===== verification/NodeCodec.v ===== *)
(** * NodeCodec: the bodies nodes exchange

    Submit parameters, completions and claims travel as RPC bodies; what one node
    encodes the other decodes to the same call. *)

From Stdlib Require Import ZArith Lia.
From stdpp Require Import base tactics list numbers gmap.
From S2P Require Import Prelude Bytes Wire Records Table StoreApi Ring NodeState QueueNode.

(** What [submit] lets through, at its machine widths. *)
Definition params_wf (p : SubmitParams) : Prop :=
  params_invalid p = false /\ fits 32 (p_visibility_ms p) /\ fits 32 (p_max_attempts p).

#[global] Instance params_wf_dec p : Decision (params_wf p).
Proof. unfold params_wf. apply _. Defined.

Lemma params_budgets p :
  params_invalid p = false ->
  (length (p_idem_key p) <= kMaxIdemKey)%nat /\ (length (p_url p) <= kMaxUrl)%nat /\
  (length (p_body p) <= kMaxJobBody)%nat.
Proof.
  unfold params_invalid. intros H.
  repeat (apply orb_false_elim in H as [H ?]).
  repeat match goal with X : (_ <? _)%nat = false |- _ => apply Nat.ltb_ge in X end. done.
Qed.

Definition params_bytes (p : SubmitParams) : bytes :=
  str_bytes (p_idem_key p) ++ str_bytes (p_url p) ++ str_bytes (p_body p) ++
  le_bytes 4 (p_visibility_ms p) ++ le_bytes 4 (p_max_attempts p).

Lemma encode_params_bytes p : encode_params p = params_bytes p.
Proof.
  unfold encode_params, params_bytes, str_bytes, put_bytes.
  autorewrite with tautq_put. by rewrite <- !(assoc_L (++)).
Qed.

Lemma decode_encode_params p s :
  params_wf p -> decode_params (encode_params p ++ s) = Val p.
Proof.
  intros (Hp & Hv & Ha). destruct (params_budgets p Hp) as (Hk & Hu & Hb).
  rewrite encode_params_bytes.
  remember (params_bytes p ++ s) as b eqn:Eb.
  assert (H0 : holds_at b 0 (str_bytes (p_idem_key p)) (str_bytes (p_url p) ++
    str_bytes (p_body p) ++ le_bytes 4 (p_visibility_ms p) ++ le_bytes 4 (p_max_attempts p) ++ s)).
  { unfold holds_at, params_bytes in *. by rewrite Eb, drop_0, <- !(assoc_L (++)). }
  clear Eb. destruct (get_str_step b 0 kMaxIdemKey _ _ H0 Hk) as [G0 H1];
    [unfold kMaxIdemKey; lia|].
  destruct (get_str_step b _ kMaxUrl _ _ H1 Hu) as [G1 H2]; [unfold kMaxUrl; lia|].
  pose proof (holds_at_length b _ _ _ H2 ltac:(rewrite length_str_bytes; lia)) as L2.
  unfold str_bytes in H2. rewrite <- (assoc_L (++)) in H2.
  assert (Hf : fits 16 (Z.of_nat (length (p_body p)))) by (unfold fits, kMaxJobBody in *; lia).
  rewrite wrap_id in H2 by done.
  destruct (get_u16_step b _ _ _ H2 Hf) as [G2 H3].
  destruct (slice_step b _ (p_body p) _ H3) as [G3 H4];
    [rewrite length_str_bytes in L2; lia|].
  destruct (get_u32_step b _ _ _ H4 Hv) as [G4 H5].
  destruct (get_u32_step b _ _ _ H5 Ha) as [G5 H6].
  rewrite !length_app, length_str_bytes, !length_le_bytes in L2.
  unfold decode_params. rewrite G0. cbn [res_bind]. rewrite G1. cbn [res_bind].
  rewrite (proj2 (Nat.ltb_ge _ _)) by lia. rewrite G2. cbn [res_bind]. rewrite Nat2Z.id.
  rewrite (proj2 (Nat.ltb_ge kMaxJobBody _)) by lia.
  rewrite (proj2 (Nat.ltb_ge (length b) _)) by lia. cbn [orb].
  rewrite G3. cbn [res_bind]. rewrite (proj2 (Nat.ltb_ge (length b) _)) by lia.
  rewrite G4. cbn [res_bind]. rewrite G5. by destruct p.
Qed.

Lemma decode_params_safe b : decode_params b <> Oob.
Proof.
  unfold decode_params. apply res_bind_safe; [apply get_str_safe|]. intros [k o1] _.
  apply res_bind_safe; [apply get_str_safe|]. intros [u o2] _.
  destruct (Nat.ltb_spec (length b) (o2 + 2)); [done|].
  apply res_bind_safe; [apply get_u16_safe; lia|]. intros bl _.
  destruct (Nat.ltb_spec kMaxJobBody (Z.to_nat bl)); [done|].
  destruct (Nat.ltb_spec (length b) (o2 + 2 + Z.to_nat bl)); [done|]. cbn [orb].
  apply res_bind_safe; [apply slice_safe; lia|]. intros bd _.
  destruct (Nat.ltb_spec (length b) (o2 + 2 + Z.to_nat bl + 8)); [done|].
  apply res_bind_safe; [apply get_u32_safe; lia|]. intros v _.
  apply res_bind_safe; [apply get_u32_safe; lia|]. done.
Qed.

(** A claim as [claim_send] writes it. *)
Definition claim_msg (id : JobId) (e : Z) (o : Endpoint) : bytes :=
  put_endpoint (put_u32 (put_job_id [] id) e) o.

Lemma claim_msg_fields id e o :
  job_id_wf id -> fits 32 e -> endpoint_wf o ->
  length (claim_msg id e o) = 26%nat /\ get_job_id (claim_msg id e o) 0 = Val id /\
  get_u32 (claim_msg id e o) 16 = Val e /\ get_endpoint (claim_msg id e o) 20 = Val o.
Proof.
  intros Hi He Ho. set (b := claim_msg id e o).
  assert (Eb : b = job_id_bytes id ++ le_bytes 4 e ++ endpoint_bytes o).
  { unfold b, claim_msg. autorewrite with tautq_put. by rewrite <- !(assoc_L (++)). }
  assert (H0 : holds_at b 0 (job_id_bytes id) (le_bytes 4 e ++ endpoint_bytes o)) by done.
  destruct (get_job_id_step _ _ _ _ H0 Hi) as [G0 H1].
  destruct (get_u32_step _ _ _ _ H1 He) as [G1 H2].
  destruct (get_endpoint_step b 20 o [] ltac:(rewrite <- (app_nil_r (endpoint_bytes o)) in H2; exact H2) Ho) as [G2 _].
  split; [|done].
  by rewrite Eb, !length_app, length_job_id_bytes, length_le_bytes, length_endpoint_bytes.
Qed.

Lemma ack_body_fields id e q (ok : bool) :
  job_id_wf id -> fits 32 e -> fits 32 q ->
  length (ack_body id e q ok) = 25%nat /\ get_job_id (ack_body id e q ok) 0 = Val id /\
  get_u32 (ack_body id e q ok) 16 = Val e /\ get_u32 (ack_body id e q ok) 20 = Val q /\
  get_u8 (ack_body id e q ok) 24 = Val (if ok then 1 else 0).
Proof.
  intros Hi He Hq. set (b := ack_body id e q ok). set (f := if ok then 1 else 0).
  assert (Hf : fits 8 f) by (unfold f, fits; destruct ok; lia).
  assert (Eb : b = job_id_bytes id ++ le_bytes 4 e ++ le_bytes 4 q ++ le_bytes 1 f).
  { unfold b, ack_body. autorewrite with tautq_put. by rewrite <- !(assoc_L (++)). }
  assert (H0 : holds_at b 0 (job_id_bytes id) (le_bytes 4 e ++ le_bytes 4 q ++ le_bytes 1 f)) by done.
  destruct (get_job_id_step _ _ _ _ H0 Hi) as [G0 H1].
  destruct (get_u32_step _ _ _ _ H1 He) as [G1 H2].
  destruct (get_u32_step _ _ _ _ H2 Hq) as [G2 H3].
  destruct (get_u8_step b 24 f [] ltac:(rewrite <- (app_nil_r (le_bytes 1 f)) in H3; exact H3) Hf) as [G3 _].
  split_and!; try done.
Qed.

(** ** Properties *)

(** Submit parameters survive the forward to the owner whatever trails them, and
    no body makes the decoder read out of range. *)
Theorem params_roundtrip p s b :
  params_wf p -> decode_params (encode_params p ++ s) = Val p /\ decode_params b <> Oob.
Proof. intros H. split; [by apply decode_encode_params|apply decode_params_safe]. Qed.

Definition sample_params : SubmitParams := mkParams Sample.key1 Sample.url1 [Byte.x78] 0 0.

Lemma params_roundtrip_witness :
  decode_params (encode_params sample_params ++ []) = Val sample_params /\
  decode_params [] <> Oob.
Proof.
  apply (params_roundtrip sample_params [] []).
  apply (bool_decide_unpack _). vm_compute. exact I.
Defined.

(** C29: forwarding is transparent: the owner that receives a forwarded submit,
    completion or status query runs exactly its local operation, answering over
    RPC instead of a callback. *)
Theorem forwarding_transparent {S M} `{!StoreOps S} `{!Membership M}
    (n : Node S M) (ctx : ReqCtx) p id e q ok j :
  params_wf p -> job_id_wf id -> fits 32 e -> fits 32 q ->
  find_job n id = Some j -> j_owner j = me n ->
  handle_fwd_submit ctx (encode_params p) n = owner_submit p (SubmitRespond ctx) n /\
  handle_fwd_ack ctx (ack_body id e q ok) n = ack id e q ok (AckRespond ctx) n /\
  handle_fwd_status ctx (put_job_id [] id) n = respond ctx qstatus.kCreated (put_job [] j) n.
Proof.
  intros Hp Hi He Hq Hj Ho.
  assert (Hme : owned_by_me n j = true) by (unfold owned_by_me; by apply bool_decide_eq_true).
  split_and!.
  - unfold handle_fwd_submit. rewrite <- (app_nil_r (encode_params p)).
    by rewrite decode_encode_params.
  - destruct (ack_body_fields id e q ok Hi He Hq) as (El & G0 & G1 & G2 & G3).
    unfold handle_fwd_ack. rewrite El. change (25 <? kJobIdSize + 9)%nat with false.
    change kJobIdSize with 16%nat. change (16 + 4)%nat with 20%nat.
    change (16 + 8)%nat with 24%nat. cbv iota. rewrite G0, G1, G2, G3. unfold ack.
    rewrite Hj, Hme. by destruct ok.
  - unfold handle_fwd_status.
    assert (H0 : holds_at (put_job_id [] id) 0 (job_id_bytes id) []).
    { unfold holds_at. autorewrite with tautq_put. by rewrite app_nil_r. }
    destruct (get_job_id_step _ _ _ _ H0 Hi) as [-> _].
    assert (El : length (put_job_id [] id) = 16%nat) by (by autorewrite with tautq_put).
    rewrite El. change (16 <? kJobIdSize)%nat with false. cbv iota. by rewrite Hj.
Qed.

Lemma forwarding_transparent_witness :
  let n := NodeSample.node_at Sample.node_a NodeSample.table1 in
  let ctx := mkCtx Sample.node_b 9 FwdAck in
  handle_fwd_submit ctx (encode_params sample_params) n =
    owner_submit sample_params (SubmitRespond ctx) n /\
  handle_fwd_ack ctx (ack_body Sample.id1 1 1 true) n =
    ack Sample.id1 1 1 true (AckRespond ctx) n /\
  handle_fwd_status ctx (put_job_id [] Sample.id1) n =
    respond ctx qstatus.kCreated (put_job [] Sample.job1) n.
Proof.
  intros n ctx.
  apply (forwarding_transparent n ctx sample_params Sample.id1 1 1 true Sample.job1);
    [apply (bool_decide_unpack _); vm_compute; exact I..|reflexivity|reflexivity].
Defined.
