(* ===== verification/NodeSteps.v ===== *)
(** * NodeSteps: the node as a state machine

    One event is a request, a response, a client call, a timer or a membership
    notification; [node_step] runs the code that handles it.  Every step is
    decomposed into guarded micro-steps ([evolves]): commits of records that obey
    the protocol's rules, emissions, and changes of local bookkeeping.  The
    safety theorems of NodeSafety are read off this decomposition. *)

From Stdlib Require Import ZArith Lia.
From stdpp Require Import base tactics list numbers gmap relations.
From S2P Require Import Prelude Bytes Wire Records Table StoreApi Ring NodeState QueueNode.

(** ** Events *)

Inductive Event {M : Type} :=
  | EvRequest (ctx : ReqCtx) (body : bytes)
  | EvResponse (k : Kont) (code : Z) (resp : bytes)
  | EvSubmit (p : SubmitParams) (cb : SubmitCb)
  | EvStatus (id : JobId) (tag : Z)
  | EvLease (worker tag : Z)
  | EvAck (id : JobId) (epoch seq : Z) (success : bool) (cb : AckCb)
  | EvDrain
  | EvTick (timeouts : list Kont)
  | EvPeerDead (failed : list Kont)
  | EvPeerAlive (peer : Endpoint)
  | EvEnv (mem : M) (now : Z) (busy : list bool).
Arguments Event : clear implicits.

Section steps.
Context {S M : Type} `{!StoreOps S} `{!StoreLaws S} `{!Membership M}.
Implicit Types n : Node S M.

(** The environment moves the membership view, the clock and the send queues. *)
Definition set_env (mem : M) (now : Z) (busy : list bool) n : Node S M :=
  mkNode mem (n_cfg n) (n_store n) (n_boot n) (n_next_job_seq n) (n_pending_submits n) (n_repair n)
    (n_next_repair n) (n_ready n) (n_lease_deadline n) (n_not_before n) (n_counters n)
    (n_submit_time n) (n_claims n) (n_resync_inflight n) (n_draining n) (n_drain_cb n)
    (n_next_claim_tick n) (n_next_drain_tick n) (n_quorums n) now busy (n_out n).

Definition node_step (e : Event M) n : Node S M :=
  match e with
  | EvRequest ctx body => default n (on_request ctx body n)
  | EvResponse k code resp => on_response k code resp n
  | EvSubmit p cb => submit p cb n
  | EvStatus id tag => status id tag n
  | EvLease w tag => lease w tag n
  | EvAck id e q ok cb => ack id e q ok cb n
  | EvDrain => drain n
  | EvTick ks => tick ks n
  | EvPeerDead ks => on_peer_dead ks n
  | EvPeerAlive p => on_peer_alive p n
  | EvEnv mem now busy => set_env mem now busy n
  end.

Definition node_run (es : list (Event M)) n : Node S M := foldl (fun n e => node_step e n) n es.

Definition table n : Table := st_table (n_store n).

(** A quorum whose callback has not run still waits for an acknowledgement. *)
Definition quorum_waits (q : QState) : Prop := q_fired q = false -> 0 < q_needed q.

Definition quorums_wf n : Prop := Forall quorum_waits (n_quorums n).

(** Jobs are stored under their own ids. *)
Definition ids_ok (t : Table) : Prop := forall id j, find t id = Some j -> j_id j = id.

Lemma apply_ids_ok t r : ids_ok t -> ids_ok (apply t r).
Proof.
  intros Ht id j. rewrite apply_find. case_decide as E; [|apply Ht]. subst id.
  destruct (find t (rec_job r)) as [j0|] eqn:Ef.
  - intros [= <-]. apply apply_job_id. by apply Ht.
  - destruct r; simpl; try done; by intros [= <-].
Qed.

(** The job counter is a uint32_t. *)
Definition seq_wf n : Prop := fits 32 (n_next_job_seq n).

Record node_wf n : Prop := {
  nw_quorums : quorums_wf n; nw_ids : ids_ok (table n); nw_seq : seq_wf n
}.

(** ** Micro-steps *)

Record local_step n n' : Prop := {
  ls_cfg : n_cfg n' = n_cfg n;
  ls_mem : n_mem n' = n_mem n;
  ls_now : n_now n' = n_now n;
  ls_boot : n_boot n' = n_boot n;
  ls_store : n_store n' = n_store n;
  ls_out : n_out n' = n_out n;
  ls_quorums : quorums_wf n -> quorums_wf n';
  ls_seq : seq_wf n -> seq_wf n'
}.

Section evolves.
Context (C : Endpoint -> Table -> Rec -> Prop) (O : Endpoint -> Table -> Out -> Prop).

Inductive evolves : Node S M -> Node S M -> Prop :=
  | ev_local n n' : local_step n n' -> evolves n n'
  | ev_commit r ok n n' : C (me n) (table n) r -> commit_rec r n = (ok, n') -> evolves n n'
  | ev_emit o n : O (me n) (table n) o -> evolves n (emit o n)
  | ev_trans n1 n2 n3 : evolves n1 n2 -> evolves n2 n3 -> evolves n1 n3.

(** What a decomposition says of the fields the theorems are about. *)
Record evolution n n' : Prop := {
  evo_cfg : n_cfg n' = n_cfg n;
  evo_mem : n_mem n' = n_mem n;
  evo_now : n_now n' = n_now n;
  evo_table : rtc (fun t t' => exists r, C (me n) t r /\ t' = apply t r) (table n) (table n');
  evo_out : exists os, n_out n' = n_out n ++ os /\
    Forall (fun o => exists t, O (me n) t o /\
      rtc (fun t t' => exists r, C (me n) t r /\ t' = apply t r) (table n) t) os;
  evo_quorums : quorums_wf n -> quorums_wf n';
  evo_seq : seq_wf n -> seq_wf n'
}.

Lemma commit_rec_spec r ok n n' :
  commit_rec r n = (ok, n') ->
  n' = set_store (n_store n') n /\ table n' = (if ok then apply (table n) r else table n).
Proof.
  unfold commit_rec, table. destruct (st_commit r (n_store n)) as [ok' s] eqn:E.
  intros [= <- <-]. split; [by destruct n|]. simpl.
  destruct ok'; [by apply commit_applies|by eapply commit_refused].
Qed.

Lemma evolution_trans n1 n2 n3 : evolution n1 n2 -> evolution n2 n3 -> evolution n1 n3.
Proof.
  intros [C1 M1 N1 T1 (o1 & O1 & F1) Q1 S1] [C2 M2 N2 T2 (o2 & O2 & F2) Q2 S2].
  assert (E : me n2 = me n1) by (unfold me; by rewrite C1). rewrite E in *.
  constructor; try congruence; auto.
  - by etrans.
  - exists (o1 ++ o2). split; [by rewrite O2, O1, (assoc_L (++))|].
    apply Forall_app. split; [done|]. eapply Forall_impl; [exact F2|].
    intros o (t & Ht & Hr). exists t. split; [done|]. by etrans.
Qed.

Lemma evolves_evolution n n' : evolves n n' -> evolution n n'.
Proof.
  induction 1 as [n n' []|r ok n n' HC HE|o n HO|n1 n2 n3 _ IH1 _ IH2].
  - constructor; try done; [unfold table; by rewrite ls_store0|].
    exists []. by rewrite ls_out0, (right_id_L [] (++)).
  - destruct (commit_rec_spec _ _ _ _ HE) as [E T]. rewrite E.
    constructor; try done; [|exists []; by rewrite (right_id_L [] (++))].
    change (table (set_store (n_store n') n)) with (table n'). rewrite T.
    destruct ok; [|done]. apply rtc_once. eauto.
  - constructor; try done. exists [o]. split; [done|]. constructor; [|constructor]. by exists (table n).
  - by eapply evolution_trans.
Qed.
End evolves.

(** [steps]: the decomposition of an operation on well-formed nodes. *)
Definition steps (C : Endpoint -> Table -> Rec -> Prop) (O : Endpoint -> Table -> Out -> Prop) n n' : Prop :=
  node_wf n -> evolves C O n n'.

Lemma evolves_wf C O n n' : evolves C O n n' -> node_wf n -> node_wf n'.
Proof.
  intros H [Hq Hi Hs]. destruct (evolves_evolution _ _ _ _ H) as [_ _ _ Ht _ Hq' Hs'].
  split; [auto| |auto]. clear Hq Hs. induction Ht as [|t t1 t2 (r & _ & ->) _ IH]; [done|].
  apply IH. by apply apply_ids_ok.
Qed.

Section steps_rules.
Context (C : Endpoint -> Table -> Rec -> Prop) (O : Endpoint -> Table -> Out -> Prop).

Lemma steps_refl n : steps C O n n.
Proof. intros _. apply ev_local. by constructor. Qed.

Lemma steps_wf n n' : (node_wf n -> steps C O n n') -> steps C O n n'.
Proof. intros H Hw. by apply H. Qed.

Lemma steps_trans n1 n2 n3 : steps C O n1 n2 -> steps C O n2 n3 -> steps C O n1 n3.
Proof.
  intros H1 H2 Hw. specialize (H1 Hw). eapply ev_trans; [exact H1|].
  apply H2. by eapply evolves_wf.
Qed.

Lemma steps_set n n1 n2 : steps C O n n1 -> local_step n1 n2 -> steps C O n n2.
Proof. intros H1 H2. eapply steps_trans; [exact H1|]. intros _. by apply ev_local. Qed.

Lemma steps_emit o n n1 :
  steps C O n n1 -> (node_wf n1 -> O (me n1) (table n1) o) -> steps C O n (emit o n1).
Proof. intros H1 H2. eapply steps_trans; [exact H1|]. intros Hw. apply ev_emit. auto. Qed.

Lemma steps_commit r ok n n1 n2 :
  commit_rec r n1 = (ok, n2) -> steps C O n n1 -> (node_wf n1 -> C (me n1) (table n1) r) ->
  steps C O n n2.
Proof.
  intros H1 H2 H3. eapply steps_trans; [exact H2|]. intros Hw. eapply ev_commit; [|exact H1]. auto.
Qed.

Lemma steps_foldl {A} (f : Node S M -> A -> Node S M) (l : list A) n n1 :
  steps C O n n1 -> (forall x n2, steps C O n2 (f n2 x)) -> steps C O n (foldl f n1 l).
Proof.
  intros H Hf. revert n1 H. induction l as [|x l IH]; intros n1 H; [done|].
  simpl. apply IH. by eapply steps_trans.
Qed.
End steps_rules.

Lemma evolves_impl (C C' : Endpoint -> Table -> Rec -> Prop) (O O' : Endpoint -> Table -> Out -> Prop) n n' :
  (forall e t r, C e t r -> C' e t r) -> (forall e t o, O e t o -> O' e t o) ->
  evolves C O n n' -> evolves C' O' n n'.
Proof.
  intros HC HO. induction 1; [by apply ev_local|by eapply ev_commit; eauto|by apply ev_emit; auto|].
  by eapply ev_trans.
Qed.

Lemma steps_impl (C C' : Endpoint -> Table -> Rec -> Prop) (O O' : Endpoint -> Table -> Out -> Prop) n n' :
  (forall e t r, C e t r -> C' e t r) -> (forall e t o, O e t o -> O' e t o) ->
  steps C O n n' -> steps C' O' n n'.
Proof. intros HC HO H Hw. eapply evolves_impl; eauto. Qed.
End steps.

(** ** Automation

    [evolve] walks a handler from its result inwards. *)

Ltac local_step_tac := constructor; try done; intros Hq; first [exact Hq|apply wrap_fits; lia].

Create HintDb evolve discriminated.

Ltac evolve1 :=
  lazymatch goal with
  | |- steps _ _ ?n ?n => apply steps_refl
  | |- steps _ _ _ (emit _ _) => apply steps_emit
  | |- steps _ _ _ (set_pending_submits _ ?x) => apply (steps_set _ _ _ x); [|local_step_tac]
  | |- steps _ _ _ (set_next_job_seq _ ?x) => apply (steps_set _ _ _ x); [|local_step_tac]
  | |- steps _ _ _ (set_repair _ ?x) => apply (steps_set _ _ _ x); [|local_step_tac]
  | |- steps _ _ _ (set_next_repair _ ?x) => apply (steps_set _ _ _ x); [|local_step_tac]
  | |- steps _ _ _ (set_ready _ ?x) => apply (steps_set _ _ _ x); [|local_step_tac]
  | |- steps _ _ _ (set_lease_deadline _ ?x) => apply (steps_set _ _ _ x); [|local_step_tac]
  | |- steps _ _ _ (set_not_before _ ?x) => apply (steps_set _ _ _ x); [|local_step_tac]
  | |- steps _ _ _ (set_counters _ ?x) => apply (steps_set _ _ _ x); [|local_step_tac]
  | |- steps _ _ _ (set_submit_time _ ?x) => apply (steps_set _ _ _ x); [|local_step_tac]
  | |- steps _ _ _ (set_claims _ ?x) => apply (steps_set _ _ _ x); [|local_step_tac]
  | |- steps _ _ _ (set_resync_inflight _ ?x) => apply (steps_set _ _ _ x); [|local_step_tac]
  | |- steps _ _ _ (set_draining _ ?x) => apply (steps_set _ _ _ x); [|local_step_tac]
  | |- steps _ _ _ (set_drain_cb _ ?x) => apply (steps_set _ _ _ x); [|local_step_tac]
  | |- steps _ _ _ (set_next_claim_tick _ ?x) => apply (steps_set _ _ _ x); [|local_step_tac]
  | |- steps _ _ _ (set_next_drain_tick _ ?x) => apply (steps_set _ _ _ x); [|local_step_tac]
  | |- steps _ _ _ (set_busy _ ?x) => apply (steps_set _ _ _ x); [|local_step_tac]
  | |- steps _ _ _ (count _ ?x) => apply (steps_set _ _ _ x); [|local_step_tac]
  | |- steps _ _ _ (requeue_ready _ _ ?x) => apply (steps_set _ _ _ x); [|local_step_tac]
  | |- steps _ _ _ (foldl _ _ _) => apply steps_foldl; [|intros ? ?]
  | |- steps _ _ _ (snd (commit_rec ?r ?x)) =>
      let E := fresh "Ecommit" in destruct (commit_rec r x) eqn:E; cbn [snd]
  | |- steps _ _ _ (match ?x with _ => _ end) => destruct x eqn:?; simpl
  | E : commit_rec _ _ = (_, ?n2) |- steps _ _ _ ?n2 => eapply (steps_commit _ _ _ _ _ _ _ E)
  | |- steps _ _ _ _ => eapply steps_trans; [|solve [eauto with evolve]]
  end.
Ltac evolve := repeat evolve1.
