(* ===== verification/NodeRules.v ===== *)
(** * NodeRules: the protocol's rules, and that every operation keeps them

    [authored] lists the records a node may write on its own account, [received]
    those it may write for a peer, [grant_rule] what a granted lease must say.
    One lemma per operation of QueueNode decomposes it into steps under these
    rules. *)

From Stdlib Require Import ZArith Lia.
From stdpp Require Import base tactics list numbers gmap relations.
From S2P Require Import Prelude Bytes Wire Records Table StoreApi Ring NodeState QueueNode NodeSteps.

(** Records node [m] writes on its own account; [mint] says which jobs the current
    event may create, [copy] which full copies it delivers. *)
Inductive authored (mint copy : Job -> Prop) (m : Endpoint) (t : Table) : Rec -> Prop :=
  | au_submit j :
      mint j -> find_by_idem t (j_idem_key j) = None -> j_owner j = m -> origin (j_id j) = ekey m ->
      rep0 (j_replicas j) = m -> j_epoch j = 1 -> j_state j = Ready -> j_lease_seq j = 0 ->
      authored mint copy m t (SubmitRec j)
  | au_grant id j w :
      find t id = Some j -> j_owner j = m -> j_state j = Ready ->
      u32 (j_lease_seq j + 1) <= j_max_attempts j -> fits 64 w ->
      authored mint copy m t (LeaseRec id (j_epoch j) (u32 (j_lease_seq j + 1)) w)
  | au_inherit id j q :
      find t id = Some j -> j_owner j = m -> j_lease_seq j <= q -> q = j_lease_seq j \/ fits 32 q ->
      authored mint copy m t (LeaseRec id (j_epoch j) q 0)
  | au_done id j q :
      find t id = Some j -> j_owner j = m -> q = j_lease_seq j \/ fits 32 q ->
      authored mint copy m t (DoneRec id (j_epoch j) q)
  | au_expire id j :
      find t id = Some j -> authored mint copy m t (ExpireRec id (j_epoch j) (j_lease_seq j))
  | au_dead id j :
      find t id = Some j -> j_owner j = m -> authored mint copy m t (DeadLetterRec id (j_epoch j))
  | au_takeover id j :
      find t id = Some j -> j_owner j <> m -> terminal (j_state j) = false ->
      authored mint copy m t (TakeoverRec id (u32 (j_epoch j + 1)) m)
  | au_adopt c j :
      copy c -> find t (j_id c) = Some j -> job_advances j c = true -> authored mint copy m t (ReplicateRec c).

(** Records a node writes because [f] asked it to. *)
Inductive received (copy : Job -> Prop) (f : Endpoint) (t : Table) : Rec -> Prop :=
  | rc_apply r id e j :
      rec_meta r = Some (id, e) -> find t id = Some j -> j_epoch j <= e ->
      f = j_owner j \/ is_takeover r = true -> rec_wf r -> received copy f t r
  | rc_copy c :
      copy c -> (forall j, find t (j_id c) = Some j -> j_epoch j <= j_epoch c) ->
      received copy f t (ReplicateRec c)
  | rc_claim id e j :
      find t id = Some j -> f ∈ replica_list (j_replicas j) -> j_epoch j < e -> fits 32 e ->
      received copy f t (TakeoverRec id e f).

Definition commit_rule (mint copy : Job -> Prop) (src : option Endpoint) (m : Endpoint) (t : Table) (r : Rec) : Prop :=
  authored mint copy m t r \/ exists f, src = Some f /\ received copy f t r.

(** The fencing token and payload of the job as it stands. *)
Definition grant_of (j : Job) (id : JobId) : LeaseGrant :=
  mkGrant id (j_url j) (j_body j) (j_idem_key j) (j_epoch j) (j_lease_seq j)
    (j_visibility_ms j) (j_attempts j).

(** A granted lease, when [allow]ed at all, carries the current job; the end of a
    drain is announced, when [drained] lets it, while no active job is owned. *)
Definition grant_rule (allow drained : Prop) (m : Endpoint) (t : Table) (o : Out) : Prop :=
  match o with
  | OLease _ st g =>
      st = qstatus.kCreated ->
      allow /\ exists id j, find t id = Some j /\ g = grant_of j id
  | ODrained => drained /\ forall id j, find t id = Some j -> j_owner j = m -> terminal (j_state j) = true
  | _ => True
  end.

(** Emissions that grant nothing. *)
Ltac plain_out := first [intros _; exact I | intros _ Hst; discriminate Hst].
Ltac evolve_out := evolve; try plain_out.

Section rules.
Context {S M : Type} `{!StoreOps S} `{!StoreLaws S} `{!Membership M}.
Context (mint copy : Job -> Prop) (C : Endpoint -> Table -> Rec -> Prop) (allow drained : Prop).
Hypothesis HC : forall m t r, authored mint copy m t r -> C m t r.
Implicit Types n : Node S M.

Local Abbreviation steps := (steps (M := M) C (grant_rule allow drained)).

Lemma owned_spec n j : owned_by_me n j = true <-> j_owner j = me n.
Proof. unfold owned_by_me. apply bool_decide_eq_true. Qed.

Lemma submit_cb_steps cb st id n : steps n (submit_cb cb st id n).
Proof. destruct cb; unfold submit_cb, respond; evolve_out. Qed.
Lemma ack_cb_steps cb st n : steps n (ack_cb cb st n).
Proof. destruct cb; unfold ack_cb, respond; evolve_out. Qed.
Lemma respond_steps ctx st b n : steps n (respond ctx st b n).
Proof. unfold respond; evolve_out. Qed.
Local Hint Resolve submit_cb_steps ack_cb_steps respond_steps : evolve.

Lemma rpc_try_steps to m b k n r n' : rpc_try to m b k n = (r, n') -> steps n n'.
Proof.
  unfold rpc_try. case_match; [intros [= <- <-]; evolve|].
  destruct (n_busy n) as [|[] bs]; intros [= <- <-]; evolve_out.
Qed.

Lemma mark_replica_ok_steps id s n : steps n (mark_replica_ok id s n).
Proof. unfold mark_replica_ok. evolve. Qed.
Lemma submit_result_steps id st n : steps n (submit_result id st n).
Proof. unfold submit_result. evolve. Qed.
Lemma resync_countdown_steps id n : steps n (resync_countdown id n).
Proof. unfold resync_countdown. evolve. Qed.
Lemma after_ownership_change_steps id n : steps n (after_ownership_change id n).
Proof. unfold after_ownership_change. evolve. Qed.
Lemma complete_done_steps id cb ok n : steps n (complete_done id cb ok n).
Proof. unfold complete_done. evolve_out. Qed.
Local Hint Resolve mark_replica_ok_steps submit_result_steps resync_countdown_steps
  after_ownership_change_steps complete_done_steps : evolve.

Lemma replicate_reply_steps id ok n : steps n (replicate_reply id ok n).
Proof. unfold replicate_reply. evolve. Qed.
Local Hint Resolve replicate_reply_steps : evolve.

Lemma query_status_steps id ts best tag n : steps n (query_status id ts best tag n).
Proof.
  revert best n. induction ts as [|t ts IH]; intros best n; simpl; [evolve_out|].
  case_decide; [apply IH|].
  destruct (rpc_try _ _ _ _ n) as [[code|] n1] eqn:E; [|by eapply rpc_try_steps].
  eapply steps_trans; [by eapply rpc_try_steps|apply IH].
Qed.
Local Hint Resolve query_status_steps : evolve.

Lemma lease_done_false_steps id tag n : steps n (lease_done id tag false n).
Proof.
  unfold lease_done, find_job. destruct (find _ id) as [j|] eqn:Ej; simpl; evolve_out.
  intros _. apply HC. by apply au_expire.
Qed.

Lemma lease_done_true_steps id tag n : allow -> steps n (lease_done id tag true n).
Proof.
  intros Ha. unfold lease_done, find_job. destruct (find _ id) as [j|] eqn:Ej; simpl; evolve_out.
  intros _ _. split; [done|]. exists id, j. done.
Qed.

(** A quorum's callback, and the callback of a failure. *)
Definition lease_allowed (d : QDone) : Prop :=
  match d with QLease _ _ => allow | _ => True end.

Lemma quorum_done_false_steps d n : steps n (quorum_done d false n).
Proof. destruct d; simpl; [apply steps_refl|apply lease_done_false_steps|apply complete_done_steps]. Qed.
Lemma quorum_done_true_steps d n : lease_allowed d -> steps n (quorum_done d true n).
Proof.
  destruct d; simpl; intros H; [apply steps_refl|by apply lease_done_true_steps|apply complete_done_steps].
Qed.
Local Hint Resolve quorum_done_false_steps : evolve.

Lemma set_quorum_local n q st :
  quorum_waits st -> local_step n (set_quorums (<[q := st]> (n_quorums n)) n).
Proof.
  intros H. constructor; try done. unfold quorums_wf. simpl. intros Hq.
  by apply Forall_insert.
Qed.

(** A reply that is no acknowledgement never completes a quorum; one that is does
    so only through a callback that may run. *)
Lemma quorum_reply_steps q acked n :
  (acked = true -> forall st, n_quorums n !! q = Some st -> q_fired st = false ->
     lease_allowed (q_done st)) ->
  steps n (quorum_reply q acked n).
Proof.
  intros Ha Hw. unfold quorum_reply. destruct (n_quorums n !! q) as [st|] eqn:Eq; [|by apply steps_refl].
  assert (Hst : quorum_waits st) by (eapply Forall_lookup_1; [apply (nw_quorums _ Hw)|exact Eq]).
  revert Hw. set (nd := if acked then _ else _).
  destruct (q_fired st) eqn:Ef; simpl.
  { eapply steps_set; [apply steps_refl|]. apply set_quorum_local. done. }
  destruct (Z.leb_spec nd 0); simpl.
  - destruct acked; [|unfold quorum_waits in Hst; specialize (Hst Ef); lia].
    eapply steps_trans; [|apply quorum_done_true_steps; eauto].
    eapply steps_set; [apply steps_refl|]. by apply set_quorum_local.
  - case_match.
    + eapply steps_trans; [|apply quorum_done_false_steps].
      eapply steps_set; [apply steps_refl|]. by apply set_quorum_local.
    + eapply steps_set; [apply steps_refl|]. apply set_quorum_local. intros _. simpl. lia.
Qed.

Lemma quorum_nack_steps q n : steps n (quorum_reply q false n).
Proof. by apply quorum_reply_steps. Qed.
Local Hint Resolve quorum_nack_steps : evolve.

Lemma transport_failure_steps k code n : steps n (transport_failure k code n).
Proof. destruct k; simpl; evolve. Qed.

Lemma rpc_call_steps to m b k n : steps n (rpc_call to m b k n).
Proof.
  unfold rpc_call. destruct (rpc_try to m b k n) as [[code|] n1] eqn:E.
  - eapply steps_trans; [by eapply rpc_try_steps|apply transport_failure_steps].
  - by eapply rpc_try_steps.
Qed.
Local Hint Resolve rpc_call_steps : evolve.

Lemma resync_job_steps id n : steps n (resync_job id n).
Proof. unfold resync_job. evolve. Qed.
Lemma send_replicate_steps id s n : steps n (send_replicate id s n).
Proof. unfold send_replicate. evolve. Qed.
Local Hint Resolve resync_job_steps send_replicate_steps : evolve.

Lemma start_replication_steps id tr cb n : steps n (start_replication id tr cb n).
Proof. unfold start_replication. evolve. Qed.
Local Hint Resolve start_replication_steps : evolve.

(** A commit that reaches a quorum at once has no peers to wait for. *)
Lemma quorum_commit_steps id rec d n :
  (node_wf n -> C (me n) (table n) rec) ->
  (forall j, find (apply (table n) rec) id = Some j -> peer_slots (me n) j = [] ->
     lease_allowed d) ->
  steps n (quorum_commit id rec d n).
Proof.
  intros Hc Hd. unfold quorum_commit. destruct (commit_rec rec n) as [ok n1] eqn:E.
  assert (H1 : steps n n1) by (eapply steps_commit; [exact E|apply steps_refl|exact Hc]).
  destruct (commit_rec_spec _ _ _ _ E) as [En Et].
  destruct ok; simpl; [|by eapply steps_trans; [exact H1|apply quorum_done_false_steps]].
  unfold find_job. fold (table n1). rewrite Et.
  destruct (find (apply (table n) rec) id) as [j|] eqn:Ej; [|done].
  assert (Em : me n1 = me n) by (by rewrite En).
  change (me (set_repair _ n1)) with (me n1). rewrite Em.
  case_bool_decide as Hs.
  - eapply steps_trans; [|apply quorum_done_true_steps; eauto]. evolve. done.
  - apply steps_foldl; [|intros; apply rpc_call_steps].
    eapply steps_set; [eapply steps_set; [exact H1|]|].
    + instantiate (1 := set_repair (<[id := 0]> (n_repair n1)) n1). local_step_tac.
    + constructor; try done. intros Hq. unfold quorums_wf in *. simpl in *.
      apply Forall_app. split; [done|]. repeat constructor.
Qed.

Lemma finalize_takeover_steps id n : steps n (finalize_takeover id n).
Proof.
  unfold finalize_takeover. destruct (n_claims n !! id) as [st|]; [|apply steps_refl].
  unfold find_job at 1. simpl. destruct (find _ id) as [j|] eqn:Ej; [|evolve].
  destruct (owned_by_me _ j) eqn:Eo; [|evolve]. apply owned_spec in Eo. cbn [negb].
  assert (Hf : fits 32 (u32 (best_seq st))) by (apply wrap_fits; lia).
  cbv zeta. evolve; try done; intros _; apply HC;
    first [by apply au_done; auto | by apply au_dead | apply au_inherit; try done].
  all: destruct (Z.ltb_spec (j_lease_seq j) (u32 (best_seq st))); try lia; auto.
Qed.
Local Hint Resolve finalize_takeover_steps : evolve.

Lemma claim_send_steps id to n : steps n (claim_send id to n).
Proof. unfold claim_send. evolve. Qed.
Local Hint Resolve claim_send_steps : evolve.

Lemma start_takeover_steps id n : steps n (start_takeover id n).
Proof.
  unfold start_takeover. case_match; [apply steps_refl|].
  unfold find_job at 1. destruct (find _ id) as [j|] eqn:Ej; [|apply steps_refl].
  destruct (owned_by_me n j) eqn:Eo; [apply steps_refl|].
  destruct (terminal (j_state j)) eqn:Et; [apply steps_refl|]. cbn [orb].
  evolve; intros _; apply HC, au_takeover; try done;
    (intros Hme; apply owned_spec in Hme; congruence).
Qed.
Local Hint Resolve start_takeover_steps : evolve.

Lemma claim_granted_steps id to resp st n : steps n (claim_granted id to resp st n).
Proof. unfold claim_granted. evolve. Qed.
Local Hint Resolve claim_granted_steps : evolve.

Lemma fwd_submit_reply_steps cb code resp n : steps n (fwd_submit_reply cb code resp n).
Proof. unfold fwd_submit_reply. evolve. Qed.
Lemma status_reply_steps id ts best tag code resp n :
  steps n (status_reply id ts best tag code resp n).
Proof. unfold status_reply. evolve. Qed.
Lemma replicate_lambda_steps id s code n : steps n (replicate_lambda id s code n).
Proof. unfold replicate_lambda. evolve. Qed.
Lemma claim_lambda_steps id to code resp n : steps n (claim_lambda id to code resp n).
Proof. unfold claim_lambda. evolve. Qed.
Lemma resync_lambda_steps id code resp n :
  (forall c off, code = qstatus.kCreated -> get_job resp 0 = Val (c, off) -> copy c) ->
  steps n (resync_lambda id code resp n).
Proof.
  intros Hcp. unfold resync_lambda. destruct (is_created code) eqn:Ec; simpl; [|evolve].
  apply Z.eqb_eq in Ec. destruct (get_job resp 0) as [[remote off]| |] eqn:Eg; [|evolve..].
  case_decide; [|evolve]. subst id. evolve; try done.
  intros _. apply HC. eapply au_adopt; eauto.
Qed.

(** When the response may complete the quorum of a lease. *)
Definition grant_response (k : Kont) (code : Z) n : Prop :=
  exists id slot q st lid tag, k = KApply id slot q /\ code = qstatus.kCreated /\
    n_quorums n !! q = Some st /\ q_fired st = false /\ q_done st = QLease lid tag.

Lemma apply_lambda_steps id s q code n :
  (grant_response (KApply id s q) code n -> allow) -> steps n (apply_lambda id s q code n).
Proof.
  intros Ha. unfold apply_lambda. destruct (is_created code) eqn:Ec.
  - eapply steps_trans; [apply mark_replica_ok_steps|]. apply quorum_reply_steps.
    assert (Eq : n_quorums (mark_replica_ok id s n) = n_quorums n)
      by (unfold mark_replica_ok; by repeat case_match).
    rewrite Eq. intros _ st Hst Hf. unfold lease_allowed.
    destruct (q_done st) as [|lid tag|] eqn:Ed; try done.
    apply Ha. exists id, s, q, st, lid, tag. split; [done|]. apply Z.eqb_eq in Ec. done.
  - evolve.
Qed.

(** The full copy a response delivers. *)
Definition response_copy (k : Kont) (code : Z) (resp : bytes) (c : Job) : Prop :=
  exists id off, k = KResync id /\ code = qstatus.kCreated /\ get_job resp 0 = Val (c, off).

Lemma on_response_steps k code resp n :
  (forall c, response_copy k code resp c -> copy c) ->
  (grant_response k code n -> allow) -> steps n (on_response k code resp n).
Proof.
  intros Hcp Ha. destruct k; simpl; eauto using fwd_submit_reply_steps, status_reply_steps,
    replicate_lambda_steps, apply_lambda_steps, claim_lambda_steps, ack_cb_steps, steps_refl.
  apply resync_lambda_steps. intros c off E1 E2. apply Hcp. by exists id, off.
Qed.

Lemma on_failure_steps k code n : kTransport <= code -> steps n (on_response k code [] n).
Proof.
  intros Hc. apply on_response_steps.
  - intros c (? & ? & _ & -> & _). done.
  - intros (? & ? & ? & ? & ? & ? & _ & -> & _). done.
Qed.

Lemma choose_replicas_first n key : rep0 (choose_replicas n key) = me n.
Proof. unfold choose_replicas. by case_decide. Qed.

Lemma owner_submit_steps p cb n : mint (fresh_job n p) -> steps n (owner_submit p cb n).
Proof.
  intros Hm. unfold owner_submit. destruct (find_by_idem _ _) as [e|] eqn:Ei; [evolve|].
  case_match; [evolve|]. cbv zeta. evolve; intros _; apply HC, au_submit; try done;
    exact (choose_replicas_first (count add_submits n) _).
Qed.
Local Hint Resolve owner_submit_steps : evolve.

Lemma submit_steps p cb n :
  (params_invalid p = false -> mint (fresh_job n p)) -> steps n (submit p cb n).
Proof. intros Hm. unfold submit. destruct (params_invalid p) eqn:Ep; evolve. Qed.
Lemma status_steps id tag n : steps n (status id tag n).
Proof. unfold status. evolve. Qed.

(** The scan returns an owned Ready job that is not backing off. *)
Lemma pick_ready_spec k ready n j rest :
  pick_ready k ready n = (Some j, rest) ->
  exists id, find_job n id = Some j /\ j_state j = Ready /\ j_owner j = me n /\
    (forall t, n_not_before n !! id = Some t -> t <= n_now n).
Proof.
  revert ready. induction k as [|k IH]; intros [|id ready]; simpl; try done.
  destruct (find_job n id) as [j'|] eqn:Ej; [|apply IH].
  destruct (bool_decide_reflect (j_state j' = Ready)) as [Hs|]; simpl; [|apply IH].
  destruct (owned_by_me n j') eqn:Eo; [|apply IH]. apply owned_spec in Eo.
  destruct (n_not_before n !! id) as [t|] eqn:Et; [destruct (Z.ltb_spec (n_now n) t); [apply IH|]|];
    intros [= -> ->]; exists id; split_and!; try done.
  - intros t' ?. simplify_eq. lia.
  - intros t' ?. simplify_eq.
Qed.

(** A lease granted at once: the picked job has no peer replicas. *)
Definition solitary n : Prop :=
  exists id j, find_job n id = Some j /\ j_state j = Ready /\ j_owner j = me n /\
    peer_slots (me n) j = [].

Lemma lease_steps w tag n : (solitary n -> allow) -> steps n (lease w tag n).
Proof.
  intros Ha. unfold lease. case_match; [evolve_out|].
  destruct (pick_ready _ _ n) as [[j|] rest] eqn:Ep; [|evolve_out].
  apply pick_ready_spec in Ep as (id & Ej & Hs & Ho & _).
  case_match; [evolve_out|]. apply steps_wf. intros Hw.
  pose proof (nw_ids _ Hw _ _ Ej) as Hid. rewrite Hid. clear Hw.
  case_match.
  - evolve_out. eapply steps_trans; [|apply quorum_commit_steps]; [evolve|..]; [|done].
    intros _. apply HC. by apply au_dead.
  - match goal with H : (_ <? _) = false |- _ => apply Z.ltb_ge in H end.
    eapply steps_trans; [|apply quorum_commit_steps]; [evolve|..].
    + intros _. apply HC. apply au_grant; try done. apply wrap_fits. lia.
    + intros j'. erewrite apply_find_Some by exact Ej. intros [= <-] Hp. simpl. apply Ha.
      exists id, j. split_and!; try done. rewrite decide_True in Hp by done.
      revert Hp. apply (eq_trans (y := peer_slots (me n) (apply_job (LeaseRec id (j_epoch j)
        (u32 (j_lease_seq j + 1)) w) j))).
      unfold peer_slots. by rewrite (proj2 (proj2 (proj2 (proj2 (proj2 (apply_job_pinned
        (LeaseRec id (j_epoch j) (u32 (j_lease_seq j + 1)) w) j eq_refl)))))).
Qed.

Lemma owner_ack_steps id e q ok cb n :
  (forall j, find_job n id = Some j -> j_owner j = me n) -> steps n (owner_ack id e q ok cb n).
Proof.
  intros Ho. unfold owner_ack. destruct (find_job n id) as [j|] eqn:Ej; [|evolve].
  specialize (Ho j eq_refl). case_match; [evolve|]. case_match.
  - case_match; [evolve|]. evolve.
    eapply steps_trans; [|apply quorum_commit_steps]; [evolve|..]; [|done].
    intros _. apply HC. by apply au_expire.
  - case_match; [evolve|].
    eapply steps_trans; [|apply quorum_commit_steps]; [evolve|..]; [|done].
    intros _. apply HC. apply au_done; auto.
Qed.

Lemma ack_steps id e q ok cb n : steps n (ack id e q ok cb n).
Proof.
  unfold ack. destruct (find_job n id) as [j|] eqn:Ej; [|evolve].
  destruct (owned_by_me n j) eqn:Eo; [|evolve]. apply owned_spec in Eo.
  apply owner_ack_steps. intros j' ?. by simplify_eq.
Qed.

Lemma drain_steps n : steps n (drain n).
Proof. unfold drain. evolve. Qed.

(** ** Timers and membership events *)

Lemma expire_one_steps now id n : steps n (expire_one now id n).
Proof.
  unfold expire_one. cbv zeta. unfold find_job at 1. simpl.
  destruct (find _ id) as [j|] eqn:Ej; [|evolve].
  destruct (bool_decide_reflect (j_state j = Leased)); simpl; [|evolve].
  destruct (owned_by_me _ j) eqn:Eo; simpl; [|evolve]. apply owned_spec in Eo.
  case_match; [|evolve]; (eapply steps_trans; [|apply quorum_commit_steps]; [evolve|..]; [|done]);
    intros _; apply HC; [by apply au_dead|by apply au_expire].
Qed.

Lemma repair_one_steps id mask n : steps n (repair_one id mask n).
Proof. unfold repair_one. evolve. Qed.
Lemma claim_one_steps now id n : steps n (claim_one now id n).
Proof. unfold claim_one. evolve. Qed.
Lemma handoff_one_steps id j n : steps n (handoff_one id j n).
Proof. unfold handoff_one. evolve. Qed.
Local Hint Resolve expire_one_steps repair_one_steps claim_one_steps handoff_one_steps : evolve.

Lemma expiry_tick_steps now n : steps n (expiry_tick now n).
Proof. unfold expiry_tick. evolve. Qed.
Lemma repair_tick_steps now n : steps n (repair_tick now n).
Proof. unfold repair_tick. evolve. Qed.
Lemma claim_tick_steps now n : steps n (claim_tick now n).
Proof. unfold claim_tick. evolve. Qed.
Lemma drain_tick_steps now n : drained -> steps n (drain_tick now n).
Proof.
  intros Hd. unfold drain_tick. case_match; [apply steps_refl|].
  set (n1 := set_next_drain_tick _ n). destruct (undrained n1) as [|p left] eqn:Eu; simpl.
  - unfold n1. evolve. intros _. split; [done|]. intros id j Hj Ho. simpl in *.
    destruct (terminal (j_state j)) eqn:Et; [done|]. exfalso.
    apply (elem_of_nil (id, j)). rewrite <- Eu. unfold undrained. apply list_elem_of_filter.
    split; [split; [by apply owned_spec|done]|]. by apply elem_of_map_to_list.
  - unfold n1. evolve.
Qed.
Local Hint Resolve expiry_tick_steps repair_tick_steps claim_tick_steps drain_tick_steps : evolve.

(** [tick] up to the drain. *)
Definition tick_work (ks : list Kont) n : Node S M :=
  let n := foldl (fun n k => on_response k rpcstatus.kTimeout [] n) n ks in
  let now := n_now n in
  claim_tick now (repair_tick now (expiry_tick now n)).

Lemma tick_work_steps ks n : steps n (tick_work ks n).
Proof. unfold tick_work. evolve. by apply on_failure_steps. Qed.

Lemma tick_steps ks n : drained -> steps n (tick ks n).
Proof.
  intros Hd. unfold tick. eapply steps_trans; [apply (tick_work_steps ks)|].
  by apply drain_tick_steps.
Qed.

Lemma on_peer_dead_steps ks n : steps n (on_peer_dead ks n).
Proof. unfold on_peer_dead. evolve. by apply on_failure_steps. Qed.

Lemma on_peer_alive_steps p n : steps n (on_peer_alive p n).
Proof. unfold on_peer_alive. evolve. Qed.

Lemma open_one_steps id j n : steps n (open_one id j n).
Proof. unfold open_one. evolve. Qed.
Local Hint Resolve open_one_steps : evolve.

Lemma node_open_steps n : steps n (node_open n).
Proof. unfold node_open. evolve. Qed.

(** ** Requests *)

Section requests.
Context (f : Endpoint).
Hypothesis HR : forall m t r, received copy f t r -> C m t r.

Lemma handle_replicate_steps ctx body n :
  (forall c off, get_job body 0 = Val (c, off) -> copy c) -> steps n (handle_replicate ctx body n).
Proof.
  intros Hcp. unfold handle_replicate. destruct (get_job body 0) as [[j off]| |]; [|evolve..].
  case_match eqn:Est; [evolve|]. evolve. intros _. apply HR, rc_copy; [by eapply Hcp|]. intros k Hk.
  unfold find_job in Est. unfold table in Hk. rewrite Hk in Est. by apply Z.ltb_ge in Est.
Qed.

Lemma handle_apply_steps ctx body n : from ctx = f -> steps n (handle_apply ctx body n).
Proof.
  intros Hf. unfold handle_apply. destruct (decode_record body) as [[r lsn]| |] eqn:Ed; [|evolve..].
  destruct (decode_record_inv _ _ _ Ed) as [Hwf _].
  destruct (rec_meta r) as [[id e]|] eqn:Er; [|evolve].
  destruct (find_job n id) as [j|] eqn:Ej; [|evolve].
  destruct (Z.ltb_spec e (j_epoch j)); [evolve|].
  destruct (bool_decide_reflect (from ctx = j_owner j)) as [Ho|Ho]; simpl;
    [|destruct (is_takeover r) eqn:Ek; simpl; [|evolve]]; evolve; intros _; apply HR;
    eapply rc_apply; eauto. left. congruence.
Qed.

Lemma handle_fwd_ack_steps ctx body n : steps n (handle_fwd_ack ctx body n).
Proof.
  unfold handle_fwd_ack. case_match; [evolve|].
  destruct (get_job_id body 0) as [id| |]; [|evolve..].
  destruct (get_u32 body kJobIdSize), (get_u32 body (kJobIdSize + 4)),
    (get_u8 body (kJobIdSize + 8)); try apply steps_refl.
  destruct (find_job n id) as [j|] eqn:Ej; [|evolve].
  destruct (owned_by_me n j) eqn:Eo; simpl; [|evolve]. apply owned_spec in Eo.
  apply owner_ack_steps. congruence.
Qed.

Lemma handle_claim_steps ctx body n : from ctx = f -> steps n (handle_claim ctx body n).
Proof.
  intros Hf. unfold handle_claim. case_match; [evolve|].
  destruct (get_job_id body 0) as [id| |]; [|evolve..].
  destruct (get_u32 body kJobIdSize) as [e| |] eqn:Ee; [|evolve..].
  apply get_u32_inv in Ee as (_ & He & _).
  destruct (get_endpoint body _) as [o| |]; [|evolve..].
  destruct (bool_decide_reflect (from ctx = o)) as [Ho|]; simpl; [|evolve].
  destruct (find_job n id) as [j|] eqn:Ej; [|evolve].
  destruct (bool_decide_reflect (o ∈ replica_list (j_replicas j))); simpl; [|evolve].
  destruct (Z.ltb_spec e (j_epoch j)); simpl; [evolve|].
  destruct (Z.eqb_spec e (j_epoch j)); simpl; [evolve|].
  evolve; intros _; apply HR; rewrite <- Ho, Hf; eapply rc_claim; eauto; try lia; congruence.
Qed.

Lemma request_steps ctx body n :
  (forall p, method ctx = FwdSubmit -> decode_params body = Val p -> mint (fresh_job n p)) ->
  (forall c off, method ctx = Replicate -> get_job body 0 = Val (c, off) -> copy c) ->
  from ctx = f -> steps n (default n (on_request ctx body n)).
Proof.
  intros Hm Hcp Hf. unfold on_request.
  destruct (method ctx); simpl; eauto using steps_refl, handle_replicate_steps,
    handle_apply_steps, handle_claim_steps, handle_fwd_ack_steps.
  all: unfold handle_fwd_submit, handle_resync, handle_drain_handoff, handle_fwd_status; evolve.
Qed.
End requests.
End rules.

(** ** Properties *)

(** A call that fails on the spot behaves like one the RPC layer fails later:
    running the continuation synchronously, from inside the call, has the effect of
    delivering the transport code as a response. *)
Theorem transport_failure_is_response {S M} `{!StoreOps S} `{!Membership M}
    (k : Kont) code (n : Node S M) :
  kTransport <= code -> transport_failure k code n = on_response k code [] n.
Proof.
  intros Hc. assert (Hne : forall c, c < kTransport -> (code =? c) = false)
    by (intros c ?; apply Z.eqb_neq; lia).
  destruct k; simpl; try done.
  - unfold fwd_submit_reply. rewrite (proj2 (Z.ltb_ge _ _)) by done. done.
  - unfold status_reply, is_created. by rewrite Hne.
  - unfold replicate_lambda, is_created. rewrite !Hne by done. done.
  - unfold apply_lambda, is_created. rewrite !Hne by done. done.
  - unfold claim_lambda, is_created. case_match; [|done]. rewrite !Hne by done. done.
  - unfold resync_lambda, is_created. rewrite Hne by done. done.
Qed.

Lemma transport_failure_is_response_witness :
  transport_failure (KClaim Sample.id1 Sample.node_c) rpcstatus.kBusy
    (NodeSample.node_at Sample.node_b NodeSample.table1) =
  on_response (KClaim Sample.id1 Sample.node_c) rpcstatus.kBusy []
    (NodeSample.node_at Sample.node_b NodeSample.table1).
Proof. apply transport_failure_is_response. vm_compute. discriminate. Defined.

(** The retry backoff doubles from one second with every attempt and is capped
    at one minute, which the seventh attempt reaches; it never decreases. *)
Theorem nack_backoff_bounds a b :
  0 <= a <= b ->
  1000 <= nack_backoff a <= nack_backoff b /\ nack_backoff b <= 60000 /\
  (1 <= a <= 6 -> nack_backoff a = 1000 * 2 ^ (a - 1)) /\ (7 <= a -> nack_backoff a = 60000).
Proof.
  intros Hab.
  assert (Hexact : forall x, 0 <= x -> nack_backoff x =
    if decide (x = 0) then 1000 else if decide (x <= 6) then 1000 * 2 ^ (x - 1) else 60000).
  { intros x Hx. unfold nack_backoff. destruct (Z.ltb_spec 6 x).
    - rewrite !decide_False by lia. reflexivity.
    - assert (x = 0 \/ x = 1 \/ x = 2 \/ x = 3 \/ x = 4 \/ x = 5 \/ x = 6)
        as [->|[->|[->|[->|[->|[->| ->]]]]]] by lia; reflexivity. }
  assert (Hpow : forall x, 0 < x <= 6 -> 1 <= 2 ^ (x - 1) <= 32).
  { intros x Hx. split; [pose proof (Z.pow_pos_nonneg 2 (x - 1)); lia|].
    change 32 with (2 ^ 5). apply Z.pow_le_mono_r; lia. }
  rewrite !Hexact by lia.
  assert (Hmono : 0 < a -> b <= 6 -> 2 ^ (a - 1) <= 2 ^ (b - 1))
    by (intros; apply Z.pow_le_mono_r; lia).
  pose proof (Hpow a). pose proof (Hpow b).
  repeat case_decide; repeat split; try lia.
Qed.

Lemma nack_backoff_bounds_witness :
  1000 <= nack_backoff 3 <= nack_backoff 9 /\ nack_backoff 9 <= 60000 /\
  (1 <= 3 <= 6 -> nack_backoff 3 = 1000 * 2 ^ (3 - 1)) /\ (7 <= 3 -> nack_backoff 3 = 60000).
Proof. apply (nack_backoff_bounds 3 9). lia. Defined.
