(* ===== verification/NodeSafety.v ===== *)
(** * NodeSafety: what every execution of a queue node guarantees

    The theorems quantify over all events, all contents of messages, all outcomes
    of commits and sends, and all membership views: peers and network are
    adversarial unless a hypothesis says otherwise. *)

From Stdlib Require Import ZArith Lia.
From stdpp Require Import base tactics list numbers gmap relations.
From S2P Require Import Prelude Bytes Wire Records Table StoreApi Ring NodeState QueueNode.
From S2P Require Import NodeCodec NodeSteps NodeRules.

Section safety.
Context {S M : Type} `{!StoreOps S} `{!StoreLaws S} `{!Membership M}.
Implicit Types (n : Node S M) (e : Event M) (es : list (Event M)).

(** ** What an event brings *)

Definition event_source e : option Endpoint :=
  match e with EvRequest ctx _ => Some (from ctx) | _ => None end.

(** The jobs the event may create. *)
Definition mints e n (j : Job) : Prop :=
  match e with
  | EvSubmit p _ => params_invalid p = false /\ j = fresh_job n p
  | EvRequest ctx body =>
      method ctx = FwdSubmit /\ exists p, decode_params body = Val p /\ j = fresh_job n p
  | _ => False
  end.

(** The full copies it delivers. *)
Definition delivers e (c : Job) : Prop :=
  match e with
  | EvRequest ctx body => method ctx = Replicate /\ exists off, get_job body 0 = Val (c, off)
  | EvResponse k code resp => response_copy k code resp c
  | _ => False
  end.

(** When the event may hand a lease to a worker. *)
Definition may_grant e n : Prop :=
  match e with
  | EvLease _ _ => solitary n
  | EvResponse k code _ => grant_response k code n
  | _ => False
  end.

(** When it may end a drain. *)
Definition may_drain e : Prop := match e with EvTick _ => True | _ => False end.

Definition rule e n : Endpoint -> Table -> Rec -> Prop :=
  commit_rule (mints e n) (delivers e) (event_source e).

(** One commit under the rules of event [e]. *)
Definition protocol_step e n (t t' : Table) : Prop :=
  exists r, rule e n (me n) t r /\ t' = apply t r.

Lemma node_step_steps e n :
  (forall mem now busy, e <> EvEnv mem now busy) ->
  steps (rule e n) (grant_rule (may_grant e n) (may_drain e)) n (node_step e n).
Proof.
  intros He. assert (HC : forall m t r, authored (mints e n) (delivers e) m t r -> rule e n m t r)
    by (intros; by left).
  destruct e; simpl.
  - eapply request_steps; try done.
    + intros m t r Hr. right. by exists (from ctx).
    + intros p Hm Hp. simpl. eauto.
    + intros c off Hm Hc. simpl. eauto.
  - by apply (on_response_steps (mints (EvResponse k code resp) n) _ _ _ _ HC).
  - by apply (submit_steps (mints (EvSubmit p cb) n) _ _ _ _ HC).
  - by eapply status_steps.
  - by eapply lease_steps.
  - by eapply ack_steps.
  - apply drain_steps.
  - by eapply tick_steps.
  - by eapply on_peer_dead_steps.
  - apply on_peer_alive_steps.
  - by destruct (He mem now busy).
Qed.

Lemma node_step_evolution e n :
  node_wf n -> (forall mem now busy, e <> EvEnv mem now busy) ->
  evolution (rule e n) (grant_rule (may_grant e n) (may_drain e)) n (node_step e n).
Proof. intros Hw He. apply evolves_evolution. by apply node_step_steps. Qed.

Lemma env_or_not e :
  (exists mem now busy, e = EvEnv mem now busy) \/ (forall mem now busy, e <> EvEnv mem now busy).
Proof. destruct e; eauto; right; done. Qed.

Lemma node_step_wf e n : node_wf n -> node_wf (node_step e n).
Proof.
  intros Hw. destruct (env_or_not e) as [(? & ? & ? & ->)|He]; [by destruct Hw|].
  eapply evolves_wf; [by apply node_step_steps|exact Hw].
Qed.

Lemma node_run_wf es n : node_wf n -> node_wf (node_run es n).
Proof. revert n. induction es as [|e es IH]; intros n Hw; simpl; auto using node_step_wf. Qed.

Lemma protocol_steps e n :
  node_wf n -> rtc (protocol_step e n) (table n) (table (node_step e n)).
Proof.
  intros Hw. destruct (env_or_not e) as [(? & ? & ? & ->)|He]; [apply rtc_refl|].
  apply (evo_table _ _ _ _ (node_step_evolution _ _ Hw He)).
Qed.

Lemma node_step_me e n : node_wf n -> me (node_step e n) = me n.
Proof.
  intros Hw. destruct (env_or_not e) as [(? & ? & ? & ->)|He]; [done|].
  unfold me. by rewrite (evo_cfg _ _ _ _ (node_step_evolution _ _ Hw He)).
Qed.

(** ** Jobs through one event *)

(** The id the next submit would use. *)
Definition next_id n : JobId := j_id (fresh_job n (mkParams [] [] [] 0 0)).

Lemma mints_id e n j : mints e n j -> j_id j = next_id n.
Proof. destruct e; simpl; try done; [intros (_ & p & _ & ->)|intros [_ ->]]; done. Qed.

(** A property of a job kept by every record the rules allow is kept by the event. *)
Lemma job_through_event (Q : Job -> Prop) e n id j :
  node_wf n -> id <> next_id n -> find_job n id = Some j -> Q j ->
  (forall t r x, rule e n (me n) t r -> find t id = Some x -> rec_job r = id ->
     (forall s, r <> SubmitRec s) -> Q x -> Q (apply_job r x)) ->
  exists j', find_job (node_step e n) id = Some j' /\ Q j'.
Proof.
  intros Hw Hid Hj HQ Hstep. unfold find_job in *. fold (table n) in Hj.
  fold (table (node_step e n)). revert j Hj HQ.
  induction (protocol_steps e n Hw) as [t|t t1 t2 (r & Hrule & ->) _ IH]; [eauto|].
  intros j Hj HQ. apply (IH _ (apply_find_Some _ r _ _ Hj)).
  case_decide as E; [|done]. subst id. apply (Hstep t); try done.
  intros s ->. destruct Hrule as [Ha|(f & _ & Hrc)].
  - inversion Ha; subst. apply Hid. simpl. by apply (mints_id e).
  - inversion Hrc; subst; simpl in *; simplify_eq.
Qed.

(** ** Runs *)

(** [P] holds of every event and the state it meets. *)
Fixpoint all_steps (P : Event M -> Node S M -> Prop) es n : Prop :=
  match es with
  | [] => True
  | e :: es => P e n /\ all_steps P es (node_step e n)
  end.

(** Job ids are not reused: the id the next submit would take is unknown here. *)
Definition ids_fresh (e : Event M) n : Prop := find_job n (next_id n) = None.

Lemma all_steps_impl (P Q : Event M -> Node S M -> Prop) es n :
  (forall e n, P e n -> Q e n) -> all_steps P es n -> all_steps Q es n.
Proof. intros H. revert n. induction es; simpl; naive_solver. Qed.

Lemma run_rel (R : Job -> Job -> Prop) (P : Event M -> Node S M -> Prop) id :
  Reflexive R -> Transitive R ->
  (forall e n j, node_wf n -> P e n -> id <> next_id n -> find_job n id = Some j ->
     exists j', find_job (node_step e n) id = Some j' /\ R j j') ->
  forall es n j, node_wf n -> all_steps (fun e n => ids_fresh e n /\ P e n) es n ->
  find_job n id = Some j ->
  exists j', find_job (node_run es n) id = Some j' /\ R j j'.
Proof.
  intros Hr Ht Hstep es. induction es as [|e es IH]; intros n j Hw HP Hj; [by exists j|].
  destruct HP as [[Hf HP] HPs].
  destruct (Hstep e n j) as (j1 & Hj1 & HR1); try done; [intros ->; unfold ids_fresh in Hf; congruence|].
  destruct (IH _ j1 (node_step_wf e n Hw) HPs Hj1) as (j' & Hj' & HR').
  exists j'. split; [done|]. by etrans.
Qed.

(** ** Epochs *)

Lemma event_epoch e n id j :
  node_wf n -> id <> next_id n -> find_job n id = Some j ->
  exists j', find_job (node_step e n) id = Some j' /\ j_epoch j <= j_epoch j'.
Proof.
  intros Hw Hid Hj. apply (job_through_event (fun x => j_epoch j <= j_epoch x) e n id j); try done.
  intros t r x _ _ _ Hs Hx. pose proof (apply_job_epoch r x Hs). lia.
Qed.

Lemma run_epoch es n id j :
  node_wf n -> all_steps ids_fresh es n -> find_job n id = Some j ->
  exists j', find_job (node_run es n) id = Some j' /\ j_epoch j <= j_epoch j'.
Proof.
  intros Hw Hf Hj.
  eapply (run_rel (fun a b => j_epoch a <= j_epoch b) (fun _ _ => True)); try done.
  - intros ?; lia.
  - intros ? ? ?; lia.
  - intros e n' j' Hw' _ Hid. by apply event_epoch.
  - eapply all_steps_impl; [|exact Hf]. done.
Qed.

(** ** Ownership *)

(** [a] before [b]: a higher epoch, or the same epoch and owner. *)
Definition owner_succ (a b : Job) : Prop :=
  j_epoch a < j_epoch b \/ (j_epoch b = j_epoch a /\ j_owner b = j_owner a).

#[local] Instance owner_succ_preorder : PreOrder owner_succ.
Proof. unfold owner_succ. split; red; [auto|]. intuition (lia || congruence). Qed.

(** No delivered copy of [id] disagrees about the owner of the epoch held here. *)
Definition copies_agree id (e : Event M) n : Prop :=
  forall c j, delivers e c -> j_id c = id -> find_job n id = Some j ->
  j_epoch c = j_epoch j -> j_owner c = j_owner j.

Lemma apply_job_owner r x :
  rec_copy r = None -> owner_succ x (apply_job r x).
Proof.
  unfold owner_succ. intros Hr. destruct r; simpl in *; try done; apply_cases; simpl; try lia; auto;
    destruct (Z.eq_dec (j_epoch x) epoch); auto; lia.
Qed.

Lemma event_owner e n id j :
  node_wf n -> copies_agree id e n -> id <> next_id n -> find_job n id = Some j ->
  exists j', find_job (node_step e n) id = Some j' /\ owner_succ j j'.
Proof.
  intros Hw Hc Hid Hj. apply (job_through_event (owner_succ j) e n id j); try done.
  intros t r x Hrule Hx Hr Hs Hjx.
  destruct (rec_copy r) as [c|] eqn:Ec; [|etrans; [exact Hjx|by apply apply_job_owner]].
  destruct r as [s|c'| | | | | ]; simplify_eq/=; [by destruct (Hs c)|].
  destruct (job_advances x c) eqn:Ea; [|done].
  assert (Hd : delivers e c).
  { destruct Hrule as [Ha|(f & _ & Hrc)]; [by inversion Ha|]. inversion Hrc; subst; simplify_eq/=; done. }
  apply job_advances_epoch in Ea. unfold owner_succ in *.
  destruct (Z.eq_dec (j_epoch c) (j_epoch j)) as [E|]; [|lia].
  right. split; [done|]. by apply (Hc c j Hd).
Qed.

Lemma run_owner es n id j :
  node_wf n -> all_steps (fun e n => ids_fresh e n /\ copies_agree id e n) es n ->
  find_job n id = Some j ->
  exists j', find_job (node_run es n) id = Some j' /\ owner_succ j j'.
Proof.
  intros Hw Hf Hj. eapply run_rel; try done; try apply _. intros e n' j' Hw' Hc Hid.
  by apply event_owner.
Qed.

(** ** Claims *)

Section claims.
Context (id : JobId) (ep : Z) (ctx : ReqCtx).
Hypothesis id_wf : job_id_wf id.
Hypothesis ep_wf : fits 32 ep.
Hypothesis from_wf : endpoint_wf (from ctx).

Local Abbreviation msg := (claim_msg id ep (from ctx)).

Lemma handle_claim_msg n :
  handle_claim ctx msg n =
  match find_job n id with
  | None => respond ctx qstatus.kUnknownJob [] n
  | Some j =>
      if decide (from ctx ∈ replica_list (j_replicas j)) then
        if decide (ep < j_epoch j \/ (ep = j_epoch j /\ j_owner j <> from ctx))
        then respond ctx qstatus.kStaleEpoch [] n
        else
          let resp := put_u32 (put_u8 [] (u8_of_state (j_state j))) (j_lease_seq j) in
          if decide (ep = j_epoch j) then respond ctx qstatus.kCreated resp n
          else let '(ok, n) := commit_rec (TakeoverRec id ep (from ctx)) n in
               if negb ok then respond ctx qstatus.kNoQuorum [] n
               else respond ctx qstatus.kCreated resp (after_ownership_change id n)
      else respond ctx qstatus.kNotOwner [] n
  end.
Proof.
  destruct (claim_msg_fields id ep (from ctx) id_wf ep_wf from_wf) as (El & G0 & G1 & G2).
  unfold handle_claim. rewrite El. change (26 <? kJobIdSize + 4 + kEndpointSize)%nat with false.
  change kJobIdSize with 16%nat. change (16 + 4)%nat with 20%nat. cbv iota.
  rewrite G0, G1, G2, bool_decide_eq_true_2 by done. cbn [negb].
  destruct (find_job n id) as [j|]; [|done].
  case_decide; [rewrite bool_decide_eq_true_2 by done|by rewrite bool_decide_eq_false_2].
  cbn [negb]. destruct (Z.ltb_spec ep (j_epoch j)), (Z.eqb_spec ep (j_epoch j)); cbn [orb andb];
    try lia; try (rewrite decide_True by lia; done).
  - case_bool_decide; cbn [negb].
    + rewrite decide_False by (intros [|[_ ?]]; [lia|done]). by rewrite decide_True.
    + by rewrite decide_True by auto.
  - rewrite decide_False by lia. by rewrite decide_False.
Qed.

(** The table after the ownership bookkeeping. *)
Lemma after_ownership_change_frame n :
  table (after_ownership_change id n) = table n /\ n_out (after_ownership_change id n) = n_out n.
Proof. unfold after_ownership_change. by repeat case_match. Qed.

Lemma claim_grant_recorded n b :
  n_out (handle_claim ctx msg n) = n_out n ++ [ORespond ctx qstatus.kCreated b] ->
  exists j, find_job (handle_claim ctx msg n) id = Some j /\ j_epoch j = ep /\ j_owner j = from ctx.
Proof.
  rewrite handle_claim_msg. destruct (find_job n id) as [j|] eqn:Ej; [|by intros ?%app_inv_head].
  case_decide; [|by intros ?%app_inv_head]. case_decide as Hs; [by intros ?%app_inv_head|].
  cbv zeta. case_decide as He.
  { intros _. exists j. split_and!; try done.
    destruct (decide (j_owner j = from ctx)); [done|]. destruct Hs. auto. }
  destruct (commit_rec _ n) as [ok n1] eqn:Ec.
  destruct (commit_rec_spec _ _ _ _ Ec) as [En Et]. destruct ok; cbn [negb].
  - intros _. exists (apply_job (TakeoverRec id ep (from ctx)) j).
    assert (Ej' : find_job (respond ctx qstatus.kCreated
      (put_u32 (put_u8 [] (u8_of_state (j_state j))) (j_lease_seq j)) (after_ownership_change id n1)) id
      = Some (apply_job (TakeoverRec id ep (from ctx)) j)).
    { change (find (table (after_ownership_change id n1)) id = Some (apply_job (TakeoverRec id ep (from ctx)) j)).
      rewrite (proj1 (after_ownership_change_frame n1)), Et, (apply_find_Some _ _ _ _ Ej).
      by rewrite decide_True. }
    split; [exact Ej'|]. simpl. destruct (Z.ltb_spec (j_epoch j) ep); [done|]. exfalso. apply Hs. lia.
  - rewrite En. by intros ?%app_inv_head.
Qed.

Lemma claim_refused n j :
  find_job n id = Some j -> ep <= j_epoch j -> j_owner j <> from ctx ->
  exists st, st <> qstatus.kCreated /\ handle_claim ctx msg n = respond ctx st [] n.
Proof.
  intros Hj He Ho. rewrite handle_claim_msg, Hj. case_decide; [|by eexists; split; [|done]].
  rewrite decide_True by (destruct (Z.eq_dec ep (j_epoch j)); [by right|left; lia]).
  by eexists; split; [|done].
Qed.
End claims.

(** ** What is emitted *)

Lemma emitted_rule e n os :
  node_wf n -> n_out (node_step e n) = n_out n ++ os ->
  Forall (fun o => exists t, grant_rule (may_grant e n) (may_drain e) (me n) t o /\
            rtc (protocol_step e n) (table n) t) os.
Proof.
  intros Hw Hos. destruct (env_or_not e) as [(? & ? & ? & ->)|He].
  - simpl in Hos. rewrite <- (app_nil_r (n_out n)) in Hos at 1. apply app_inv_head in Hos. subst. constructor.
  - destruct (evo_out _ _ _ _ (node_step_evolution _ _ Hw He)) as (os' & E & HF).
    rewrite E in Hos. apply app_inv_head in Hos. by subst.
Qed.

Lemma silent_steps C allow n n' os :
  steps C (grant_rule allow False) n n' -> node_wf n -> n_out n' = n_out n ++ os -> ODrained ∉ os.
Proof.
  intros Hs Hw Hos Hin. destruct (evo_out _ _ _ _ (evolves_evolution _ _ _ _ (Hs Hw))) as (os' & E & HF).
  rewrite E in Hos. apply app_inv_head in Hos. subst os'.
  rewrite Forall_forall in HF. by destruct (HF _ Hin) as (t & [[] _] & _).
Qed.

Lemma out_grows C O n n' :
  steps C O n n' -> node_wf n -> exists os, n_out n' = n_out n ++ os.
Proof.
  intros Hs Hw. destruct (evo_out _ _ _ _ (evolves_evolution _ _ _ _ (Hs Hw))) as (os & E & _). eauto.
Qed.

Lemma undrained_nil n id j :
  undrained n = [] -> find_job n id = Some j -> j_owner j = me n -> terminal (j_state j) = true.
Proof.
  intros Eu Hj Ho. destruct (terminal (j_state j)) eqn:Et; [done|]. exfalso.
  apply (elem_of_nil (id, j)). rewrite <- Eu. unfold undrained. apply list_elem_of_filter.
  split; [split; [by apply owned_spec|done]|]. by apply elem_of_map_to_list.
Qed.

Lemma drain_tick_out now n os :
  node_wf n -> n_out (drain_tick now n) = n_out n ++ os -> ODrained ∈ os ->
  undrained n = [] /\ table (drain_tick now n) = table n.
Proof.
  intros Hw. unfold drain_tick. case_match.
  { intros Hos. rewrite <- (app_nil_r (n_out n)) in Hos at 1. apply app_inv_head in Hos.
    subst. by intros ?%elem_of_nil. }
  cbv zeta. change (undrained (set_next_drain_tick (now + 500) n)) with (undrained n).
  destruct (undrained n) as [|p left] eqn:Eu; simpl.
  - intros _ _. split; [done|]. by case_match.
  - intros Hos Hin. exfalso. revert Hos Hin.
    apply (silent_steps (fun _ _ _ => True) False); [|done].
    apply (steps_foldl _ _ (fun n p => handoff_one p.1 p.2 n) (p :: left)); [evolve|].
    intros x n2. by eapply (handoff_one_steps (fun _ => True) (fun _ => True)).
Qed.
End safety.

(** ** Properties *)

(** C1: every event makes a node commit only what the protocol allows: leases,
    completions and parkings at the current epoch of jobs it owns, takeovers that
    raise the epoch of jobs it does not own, copies that strictly advance its own,
    and for a peer only records that pass the epoch fence and come from the owner
    on record, copies that are not stale, and claims of pinned members.  The
    node's invariant is kept. *)
Theorem commits_follow_protocol {S M} `{!StoreOps S} `{!StoreLaws S} `{!Membership M}
    (e : Event M) (n : Node S M) :
  node_wf n ->
  rtc (protocol_step e n) (table n) (table (node_step e n)) /\ node_wf (node_step e n).
Proof. intros Hw. split; [by apply protocol_steps|by apply node_step_wf]. Qed.

(** Whatever messages, clients, timers and membership do, the fencing epoch a
    node holds for a job never decreases and the job is never dropped, as long as
    job ids are not reused. *)
Theorem node_epochs_monotone {S M} `{!StoreOps S} `{!StoreLaws S} `{!Membership M}
    (es : list (Event M)) (n : Node S M) id j :
  node_wf n -> all_steps ids_fresh es n -> find_job n id = Some j ->
  exists j', find_job (node_run es n) id = Some j' /\ j_epoch j <= j_epoch j'.
Proof. apply run_epoch. Qed.

(** C9: votes are unique: a node that has granted a claim of epoch [ep] for a job
    refuses every later claim of that or a lower epoch by another claimant, and
    leaves its table alone, provided no full copy delivered in between names
    another owner for the epoch on record. *)
Theorem claim_votes_unique {S M} `{!StoreOps S} `{!StoreLaws S} `{!Membership M}
    (n : Node S M) (es : list (Event M)) id ep ep' ctx ctx' b :
  node_wf n -> job_id_wf id -> fits 32 ep -> fits 32 ep' ->
  endpoint_wf (from ctx) -> endpoint_wf (from ctx') ->
  let n1 := handle_claim ctx (claim_msg id ep (from ctx)) n in
  n_out n1 = n_out n ++ [ORespond ctx qstatus.kCreated b] ->
  method ctx = Claim ->
  all_steps (fun e n => ids_fresh e n /\ copies_agree id e n) es n1 ->
  from ctx' <> from ctx -> ep' <= ep ->
  exists st, st <> qstatus.kCreated /\
    handle_claim ctx' (claim_msg id ep' (from ctx')) (node_run es n1) =
    respond ctx' st [] (node_run es n1).
Proof.
  intros Hw Hi He He' Hf Hf' n1 Hout Hm Hall Hne Hle.
  destruct (claim_grant_recorded id ep ctx Hi He Hf n b Hout) as (j & Hj & Ej & Oj).
  assert (Hw1 : node_wf n1).
  { apply (node_step_wf (EvRequest ctx (claim_msg id ep (from ctx)))) in Hw. simpl in Hw.
    unfold on_request in Hw. by rewrite Hm in Hw. }
  destruct (run_owner es n1 id j Hw1 Hall Hj) as (j' & Hj' & Hs).
  destruct (decide (ep' <= j_epoch j' /\ j_owner j' <> from ctx')) as [[H1 H2]|Hx].
  - by eapply claim_refused.
  - unfold owner_succ in Hs. rewrite Ej in Hs. destruct Hs as [Hlt|[Heq Ho]].
    + destruct (decide (ep' < j_epoch j')) as [Hl|]; [|lia].
      rewrite handle_claim_msg by done. rewrite Hj'.
      case_decide; [|by eexists; split; [|done]]. rewrite decide_True by auto.
      by eexists; split; [|done].
    + destruct Hx. split; [lia|]. congruence.
Qed.


(** C28: the end of a drain is announced only when the node owns no active job. *)
Theorem drained_only_when_empty {S M} `{!StoreOps S} `{!StoreLaws S} `{!Membership M}
    (e : Event M) (n : Node S M) os :
  node_wf n -> n_out (node_step e n) = n_out n ++ os -> ODrained ∈ os ->
  forall id j, find_job (node_step e n) id = Some j -> j_owner j = me n ->
  terminal (j_state j) = true.
Proof.
  intros Hw Hos Hin.
  assert (Hd : may_drain e).
  { pose proof (emitted_rule e n os Hw Hos) as HF. rewrite Forall_forall in HF.
    by destruct (HF _ Hin) as (t & [Hd _] & _). }
  destruct e; try done. simpl in *.
  pose proof (tick_work_steps (fun _ => True) (fun _ => True) (fun _ _ _ => True) False False
    ltac:(done) timeouts n) as Hs.
  destruct (out_grows _ _ _ _ Hs Hw) as (os1 & E1).
  pose proof (silent_steps _ _ _ _ _ Hs Hw E1) as Hn1.
  pose proof (evolves_wf _ _ _ _ (Hs Hw) Hw) as Hw1.
  set (X := tick_work timeouts n) in *.
  set (now := n_now (foldl (fun n k => on_response k rpcstatus.kTimeout [] n) n timeouts)).
  assert (Et : tick timeouts n = drain_tick now X) by done.
  destruct (out_grows (fun _ _ _ => True) (grant_rule False True) X (drain_tick now X)) as (os2 & E2);
    [by apply (drain_tick_steps (fun _ => True) (fun _ => True))|done|].
  rewrite Et, E2, E1, <- (assoc_L (++)) in Hos. apply app_inv_head in Hos. subst os.
  apply elem_of_app in Hin as [?|Hin]; [done|].
  destruct (drain_tick_out now X os2 Hw1 E2 Hin) as [Hu Htab].
  intros id j. rewrite Et. unfold find_job. fold (table (drain_tick now X)). rewrite Htab.
  intros Hj Ho. apply (undrained_nil X id j Hu Hj).
  rewrite Ho. unfold me. by rewrite (evo_cfg _ _ _ _ (evolves_evolution _ _ _ _ (Hs Hw))).
Qed.

(** ** Witnesses *)
Module SafetySample.
Import Sample NodeSample.

Lemma node_at_wf e rs : node_wf (node_at e (apply_all empty_table rs)).
Proof.
  split; [constructor| |by apply (bool_decide_unpack _); vm_compute]. change (ids_ok (apply_all empty_table rs)).
  assert (H : ids_ok empty_table) by (intros id j Hj; unfold find in Hj; simpl in Hj; by rewrite lookup_empty in Hj).
  revert H. generalize empty_table. induction rs as [|r rs IH]; intros t Ht; [done|].
  simpl. apply IH. by apply apply_ids_ok.
Qed.

Definition owner : Node MemStore StaticMembership :=
  set_ready [id1] (node_at node_a table1).
Definition replica : Node MemStore StaticMembership := node_at node_c table1.

Lemma owner_wf : node_wf owner.
Proof. destruct (node_at_wf node_a [SubmitRec job1]). by split. Qed.
Lemma replica_wf : node_wf replica.
Proof. exact (node_at_wf node_c [SubmitRec job1]). Qed.

(** The owner after the worker's request, waiting for a replica. *)
Definition waiting : Node MemStore StaticMembership := node_run [EvLease 7 1] owner.
Definition leased1 : Job := apply_job (LeaseRec id1 1 1 7) job1.
Definition claim_b : ReqCtx := mkCtx node_b 4 Claim.
Definition claim_a : ReqCtx := mkCtx node_a 5 Claim.
Definition finished : Node MemStore StaticMembership :=
  drain (node_at node_a (apply_all empty_table [SubmitRec job1; DoneRec id1 1 1])).
Definition done1 : Job := apply_job (DoneRec id1 1 1) job1.
End SafetySample.

Lemma commits_follow_protocol_witness :
  rtc (protocol_step (EvLease 7 1) SafetySample.owner) (table SafetySample.owner)
    (table (node_step (EvLease 7 1) SafetySample.owner)) /\
  node_wf (node_step (EvLease 7 1) SafetySample.owner).
Proof. apply (commits_follow_protocol (EvLease 7 1) SafetySample.owner SafetySample.owner_wf). Defined.

Lemma node_epochs_monotone_witness :
  exists j', find_job (node_run [EvRequest SafetySample.claim_b (claim_msg Sample.id1 2 Sample.node_b);
                                 EvTick []] SafetySample.replica) Sample.id1 = Some j' /\
    1 <= j_epoch j'.
Proof.
  apply (node_epochs_monotone [EvRequest SafetySample.claim_b (claim_msg Sample.id1 2 Sample.node_b);
    EvTick []] SafetySample.replica Sample.id1 Sample.job1 SafetySample.replica_wf).
  - split; [vm_compute; reflexivity|]. split; [vm_compute; reflexivity|exact I].
  - vm_compute. reflexivity.
Defined.

Lemma claim_votes_unique_witness :
  let n1 := handle_claim SafetySample.claim_b (claim_msg Sample.id1 2 Sample.node_b)
              SafetySample.replica in
  exists st, st <> qstatus.kCreated /\
    handle_claim SafetySample.claim_a (claim_msg Sample.id1 2 Sample.node_a) (node_run [EvTick []] n1) =
    respond SafetySample.claim_a st [] (node_run [EvTick []] n1).
Proof.
  intros n1.
  apply (claim_votes_unique SafetySample.replica [EvTick []] Sample.id1 2 2 SafetySample.claim_b
    SafetySample.claim_a (put_u32 (put_u8 [] (u8_of_state Ready)) 0) SafetySample.replica_wf);
    [apply (bool_decide_unpack _); vm_compute; exact I..|vm_compute; reflexivity|reflexivity| |
     discriminate|lia].
  split; [|exact I]. split; [vm_compute; reflexivity|]. intros c j [].
Defined.


Lemma drained_only_when_empty_witness :
  find_job (node_step (EvTick []) SafetySample.finished) Sample.id1 = Some SafetySample.done1 /\
  terminal (j_state SafetySample.done1) = true.
Proof.
  split; [vm_compute; reflexivity|].
  apply (drained_only_when_empty (EvTick []) SafetySample.finished [ODrained]) with (id := Sample.id1).
  - destruct (SafetySample.node_at_wf Sample.node_a
      [SubmitRec Sample.job1; DoneRec Sample.id1 1 1]). by split.
  - vm_compute. reflexivity.
  - left.
  - vm_compute. reflexivity.
  - reflexivity.
Defined.
