(* ===== verification/Answers.v ===== *)
(** * Answers: who waits for an answer of a node, and what keeps them waiting

    A client call or a request of a peer is answered through a callback that passes from
    one owner to the next: a pending submit, the shared state of a quorum, a
    continuation with the RPC layer.  The waiters of a node are counted here through
    every operation of queue_node.cc: none is dropped, none is answered twice, and one
    that the node itself holds has a call under way that will release it. *)

From Stdlib Require Import ZArith Lia.
From stdpp Require Import base tactics list numbers gmap.
From S2P Require Import Prelude Bytes Wire Records Table StoreApi Ring NodeState QueueNode NodeSteps NodeRules NodeSafety.

(** ** Waiters *)

Inductive Waiter :=
  | WSubmit (tag : Z) | WStatus (tag : Z) | WLease (tag : Z) | WAck (tag : Z)
  | WPeer (ctx : ReqCtx).

Definition submit_waiter (cb : SubmitCb) : Waiter :=
  match cb with SubmitClient tag => WSubmit tag | SubmitRespond ctx => WPeer ctx end.
Definition ack_waiter (cb : AckCb) : Waiter :=
  match cb with AckClient tag => WAck tag | AckRespond ctx => WPeer ctx end.

(** Who an output answers. *)
Definition answer (o : Out) : option Waiter :=
  match o with
  | ORespond ctx _ _ => Some (WPeer ctx)
  | OSubmit tag _ _ => Some (WSubmit tag)
  | OStatus tag _ _ => Some (WStatus tag)
  | OLease tag _ _ => Some (WLease tag)
  | OAck tag _ => Some (WAck tag)
  | OCall _ _ _ _ | OLatency _ | ODrained => None
  end.
Definition answers : list Out -> list Waiter := omap answer.

(** The continuations handed to the RPC layer, and who waits behind one. *)
Definition call_of (o : Out) : option Kont := match o with OCall _ _ _ k => Some k | _ => None end.
Definition calls : list Out -> list Kont := omap call_of.

Definition kont_waiter (k : Kont) : option Waiter :=
  match k with
  | KFwdSubmit cb => Some (submit_waiter cb)
  | KStatus _ _ _ tag => Some (WStatus tag)
  | KFwdAck cb => Some (ack_waiter cb)
  | _ => None
  end.
Definition kept : list Kont -> list Waiter := omap kont_waiter.

Definition done_waiter (d : QDone) : option Waiter :=
  match d with
  | QIgnore => None
  | QLease _ tag => Some (WLease tag)
  | QComplete _ cb => Some (ack_waiter cb)
  end.
Definition quorum_waiter (st : QState) : option Waiter := if q_fired st then None else done_waiter (q_done st).

Definition pending_waiters (m : gmap JobId PendingSubmit) : list Waiter :=
  (fun p => submit_waiter (ps_cb (snd p))) <$> map_to_list m.
Definition quorum_waiters : list QState -> list Waiter := omap quorum_waiter.

(** How many continuations of a kind there are. *)
Definition number (f : Kont -> bool) (ks : list Kont) : Z := Z.of_nat (length (filter (fun k => f k = true) ks)).

Definition replicates (id : JobId) (k : Kont) : bool :=
  match k with KReplicate i _ => bool_decide (i = id) | _ => false end.
Definition applies (q : nat) (k : Kont) : bool :=
  match k with KApply _ _ i => bool_decide (i = q) | _ => false end.

Lemma number_cons f k ks : number f (k :: ks) = (if f k then 1 else 0) + number f ks.
Proof. unfold number. rewrite filter_cons. destruct (f k); case_decide; simpl; try done; lia. Qed.

Lemma number_one f k ks : number f ([k] ++ ks) = (if f k then 1 else 0) + number f ks.
Proof. apply number_cons. Qed.

Lemma number_nonneg f ks : 0 <= number f ks.
Proof. unfold number. lia. Qed.

#[global] Instance number_proper f : Proper ((≡ₚ) ==> (=)) (number f).
Proof. intros a b H. unfold number. by rewrite H. Qed.

Lemma number_app f ks ks' : number f (ks ++ ks') = number f ks + number f ks'.
Proof. unfold number. rewrite filter_app, length_app. lia. Qed.

Lemma number_all f {A} (g : A -> Kont) l : (forall x, f (g x) = true) -> number f (g <$> l) = Z.of_nat (length l).
Proof.
  intros H. induction l as [|x l IH]; [done|]. rewrite fmap_cons, number_cons, IH, H. simpl. lia.
Qed.

(** ** The two ledgers *)

Section ledger.
Context {S M : Type} `{!StoreOps S} `{!StoreLaws S} `{!Membership M}.
Implicit Types n : Node S M.

Definition waits n : list Waiter := pending_waiters (n_pending_submits n) ++ quorum_waiters (n_quorums n).

(** The id the node gives to its job number [s]. *)
Definition job_id_at n (s : Z) : JobId :=
  mkJobId (ekey (me n)) (Z.lor (u64 (Z.shiftl (Z.land (n_boot n) 0xFFFFFFFF) 32)) s).

(** What the node holds is backed by continuations in [fl]. *)
Record backed (fl : list Kont) n : Prop := {
  bk_pending : forall id ps, n_pending_submits n !! id = Some ps ->
    0 < ps_outstanding ps <= number (replicates id) fl /\
    exists s, 0 <= s < n_next_job_seq n /\ id = job_id_at n s;
  bk_quorum : forall q st, n_quorums n !! q = Some st -> q_fired st = false ->
    0 < q_outstanding st <= number (applies q) fl
}.

#[global] Instance backed_proper : Proper ((≡ₚ) ==> (=) ==> iff) backed.
Proof.
  intros a b H n ? <-. split; intros [P Q]; split; intros; [rewrite <- H|rewrite <- H|rewrite H|rewrite H]; eauto.
Qed.

Lemma backed_more ks fl n : backed fl n -> backed (ks ++ fl) n.
Proof.
  intros [P Q]. split; intros.
  - destruct (P _ _ H) as [? ?]. split; [|done]. rewrite number_app.
    pose proof (number_nonneg (replicates id) ks). lia.
  - specialize (Q _ _ H H0). rewrite number_app. pose proof (number_nonneg (applies q) ks). lia.
Qed.

(** The outputs [os] have been added; no job number has been taken. *)
Definition adds n (os : list Out) n' : Prop :=
  n_out n' = n_out n ++ os /\ n_next_job_seq n' = n_next_job_seq n.

(** The node goes from [n] to [n'] with [ws] as new waiters: it consumes the
    continuations [rs], leaves its new calls with the RPC layer, and counts on [ps] to
    be called still. *)
Definition moves (ws : list Waiter) (rs ps : list Kont) n n' : Prop :=
  exists os, adds n os n' /\
    answers os ++ waits n' ++ kept (calls os) ++ kept ps ≡ₚ ws ++ kept rs ++ waits n /\
    forall fl, backed (rs ++ fl) n -> backed (calls os ++ ps ++ fl) n'.

(** Steps that touch none of this. *)
Record idle n n' : Prop := {
  id_pending : n_pending_submits n' = n_pending_submits n;
  id_quorums : n_quorums n' = n_quorums n;
  id_out : n_out n' = n_out n;
  id_cfg : n_cfg n' = n_cfg n;
  id_boot : n_boot n' = n_boot n;
  id_seq : n_next_job_seq n' = n_next_job_seq n
}.

Lemma idle_backed n n' fl : idle n n' -> backed fl n -> backed fl n'.
Proof.
  intros [Ep Eq _ Ec Eb Es] [P Q]. split; intros.
  - rewrite Ep in H. destruct (P _ _ H) as (Hb & s & Hs & ->). split; [done|]. exists s.
    rewrite Es. split; [done|]. unfold job_id_at, me. by rewrite Ec, Eb.
  - rewrite Eq in H. eauto.
Qed.

Lemma moves_idle n n' : idle n n' -> moves [] [] [] n n'.
Proof.
  intros H. exists []. destruct H as [Ep Eq Eo Ec Eb Es] eqn:E. split_and!.
  - split; [by rewrite Eo, app_nil_r|done].
  - unfold waits. rewrite Ep, Eq. simpl. by rewrite app_nil_r.
  - intros fl. simpl. by apply idle_backed.
Qed.

Lemma moves_nothing n : moves [] [] [] n n.
Proof. by apply moves_idle. Qed.

Lemma calls_app os os' : calls (os ++ os') = calls os ++ calls os'.
Proof. apply omap_app. Qed.
Lemma answers_of_app os os' : answers (os ++ os') = answers os ++ answers os'.
Proof. apply omap_app. Qed.
Lemma kept_app ks ks' : kept (ks ++ ks') = kept ks ++ kept ks'.
Proof. apply omap_app. Qed.

(** The second step may consume what the first counts on. *)
Lemma moves_cut ws1 ws2 rs1 rs2 ps n1 n2 n3 :
  moves ws1 rs1 ps n1 n2 -> moves ws2 (ps ++ rs2) [] n2 n3 -> moves (ws1 ++ ws2) (rs1 ++ rs2) [] n1 n3.
Proof.
  intros (o1 & [O1 S1] & A1 & B1) (o2 & [O2 S2] & A2 & B2). exists (o1 ++ o2). split_and!.
  - split; [by rewrite O2, O1, (assoc_L (++))|congruence].
  - rewrite answers_of_app, calls_app, !kept_app in *. cbn [kept omap list_omap] in *. rewrite app_nil_r in *.
    trans (answers o1 ++ kept (calls o1) ++ (answers o2 ++ waits n3 ++ kept (calls o2))); [solve_Permutation|].
    rewrite A2. trans ((answers o1 ++ waits n2 ++ kept (calls o1) ++ kept ps) ++ ws2 ++ kept rs2); [solve_Permutation|].
    rewrite A1. solve_Permutation.
  - intros fl Hb. rewrite <- app_assoc in Hb. specialize (B1 _ Hb).
    assert (B1' : backed ((ps ++ rs2) ++ calls o1 ++ fl) n2).
    { revert B1. apply backed_proper; [solve_Permutation|done]. }
    specialize (B2 _ B1'). revert B2. rewrite calls_app. apply backed_proper; [solve_Permutation|done].
Qed.

Lemma moves_then ws1 ws2 rs1 rs2 n1 n2 n3 :
  moves ws1 rs1 [] n1 n2 -> moves ws2 rs2 [] n2 n3 -> moves (ws1 ++ ws2) (rs1 ++ rs2) [] n1 n3.
Proof. apply (moves_cut ws1 ws2 rs1 rs2 []). Qed.

(** A continuation may be run at any time, with its waiter. *)
Lemma moves_spawn ws ks n n' : moves ws ks [] n n' -> moves (ws ++ kept ks) [] [] n n'.
Proof.
  intros (os & O & A & B). exists os. split_and!; [done|rewrite A; solve_Permutation|].
  intros fl Hb. apply B. by apply backed_more.
Qed.

Lemma moves_before ws rs n n1 n' : idle n n1 -> moves ws rs [] n1 n' -> moves ws rs [] n n'.
Proof. intros H1 H2. exact (moves_then [] ws [] rs _ _ _ (moves_idle _ _ H1) H2). Qed.

Lemma moves_after ws rs n n1 n' : moves ws rs [] n n1 -> idle n1 n' -> moves ws rs [] n n'.
Proof.
  intros H1 H2. pose proof (moves_then ws [] rs [] _ _ _ H1 (moves_idle _ _ H2)) as H.
  by rewrite !app_nil_r in H.
Qed.

Lemma moves_foldl {A} (f : Node S M -> A -> Node S M) l : (forall x n, moves [] [] [] n (f n x)) ->
  forall n, moves [] [] [] n (foldl f n l).
Proof.
  intros Hf. induction l as [|x l IH]; intros n; [apply moves_nothing|]. simpl.
  exact (moves_then [] [] [] [] _ _ _ (Hf x n) (IH _)).
Qed.

Lemma moves_foldl_spend {A} (f : Node S M -> A -> Node S M) (g : A -> Kont) l :
  (forall x n, moves [] [g x] [] n (f n x)) -> forall n, moves [] (g <$> l) [] n (foldl f n l).
Proof.
  intros Hf. induction l as [|x l IH]; intros n; [apply moves_nothing|]. simpl.
  exact (moves_then [] [] [g x] (g <$> l) _ _ _ (Hf x n) (IH _)).
Qed.

(** ** Emissions, pending submits and quorums *)

Lemma emit_backed o fl n : backed fl n -> backed fl (emit o n).
Proof. intros [P Q]. by split. Qed.
Local Hint Resolve emit_backed : core.

Lemma moves_answer o w n : answer o = Some w -> call_of o = None -> moves [w] [] [] n (emit o n).
Proof.
  intros Ha Hc. exists [o]. unfold answers, calls, kept. simpl. rewrite Ha, Hc. simpl. split_and!; [done| |auto].
  by rewrite app_nil_r.
Qed.

Lemma moves_note o n : answer o = None -> call_of o = None -> moves [] [] [] n (emit o n).
Proof.
  intros Ha Hc. exists [o]. unfold answers, calls, kept. simpl. rewrite Ha, Hc. simpl. split_and!; [done| |auto].
  by rewrite app_nil_r.
Qed.

Lemma moves_call to m b k n : moves [] [k] [] n (emit (OCall to m b k) n).
Proof. exists [OCall to m b k]. split_and!; [done| |intros fl; apply emit_backed]. simpl. rewrite app_nil_r. solve_Permutation. Qed.

Lemma moves_submit_cb cb st id n : moves [submit_waiter cb] [] [] n (submit_cb cb st id n).
Proof. destruct cb; by apply moves_answer. Qed.
Lemma moves_ack_cb cb st n : moves [ack_waiter cb] [] [] n (ack_cb cb st n).
Proof. destruct cb; by apply moves_answer. Qed.
Lemma moves_respond ctx st b n : moves [WPeer ctx] [] [] n (respond ctx st b n).
Proof. by apply moves_answer. Qed.

Lemma idle_commit r ok n n' : commit_rec r n = (ok, n') -> idle n n'.
Proof. unfold commit_rec. destruct (st_commit _ _). by intros [= _ <-]. Qed.

Lemma pending_waiters_delete (m : gmap JobId PendingSubmit) id ps :
  m !! id = Some ps -> pending_waiters m ≡ₚ submit_waiter (ps_cb ps) :: pending_waiters (delete id m).
Proof. intros H. unfold pending_waiters. by rewrite <- (map_to_list_delete m id ps H). Qed.

Lemma pending_waiters_insert (m : gmap JobId PendingSubmit) id ps :
  m !! id = None -> pending_waiters (<[id := ps]> m) ≡ₚ submit_waiter (ps_cb ps) :: pending_waiters m.
Proof. intros H. unfold pending_waiters. by rewrite map_to_list_insert. Qed.

Lemma pending_waiters_update (m : gmap JobId PendingSubmit) id ps ps' :
  m !! id = Some ps -> ps_cb ps' = ps_cb ps -> pending_waiters (<[id := ps']> m) ≡ₚ pending_waiters m.
Proof.
  intros H E. rewrite <- insert_delete_eq, pending_waiters_insert by apply lookup_delete_eq.
  by rewrite E, (pending_waiters_delete m id ps H).
Qed.

(** Answering a pending submit. *)
Lemma moves_finish_pending id ps st slot n :
  n_pending_submits n !! id = Some ps ->
  moves [] [KReplicate id slot] []
    n (submit_cb (ps_cb ps) st id (set_pending_submits (delete id (n_pending_submits n)) n)).
Proof.
  intros Hp. set (n1 := set_pending_submits _ n).
  destruct (moves_submit_cb (ps_cb ps) st id n1) as (os & O & A & B). exists os. split_and!; [done| |].
  - rewrite A. unfold waits. simpl. rewrite (pending_waiters_delete _ _ _ Hp). solve_Permutation.
  - intros fl [P Q]. apply B. split; simpl.
    + intros i p Hi. apply lookup_delete_Some in Hi as [Hne Hi]. destruct (P _ _ Hi) as [Hb Hs].
      split; [|done]. rewrite number_one in Hb. cbn [replicates applies] in Hb. by rewrite bool_decide_eq_false_2 in Hb.
    + intros q s Hq Hf. exact (Q _ _ Hq Hf).
Qed.

Lemma moves_replicate_reply id slot ok n : moves [] [KReplicate id slot] [] n (replicate_reply id ok n).
Proof.
  unfold replicate_reply. destruct (n_pending_submits n !! id) as [ps|] eqn:Hp.
  - cbn [ps_needed ps_outstanding ps_cb]. set (nd := if ok then _ else _).
    assert (Hf : forall st, moves [] [KReplicate id slot] [] n
      (submit_result id st (set_pending_submits (<[id := mkPending (ps_cb ps) nd (ps_outstanding ps - 1)]>
         (n_pending_submits n)) n))).
    { intros st. unfold submit_result. simpl. rewrite lookup_insert_eq. simpl.
      rewrite delete_insert_eq. exact (moves_finish_pending id ps st slot n Hp). }
    case_match; [apply Hf|]. destruct (Z.eqb_spec (ps_outstanding ps - 1) 0); [apply Hf|].
    exists []. split_and!; [split; [by rewrite app_nil_r|done]| |].
    + unfold waits. simpl. by rewrite (pending_waiters_update _ _ ps), app_nil_r.
    + intros fl [P Q]. split; simpl.
      * intros i p. destruct (decide (i = id)) as [->|Hne].
        -- rewrite lookup_insert_eq. intros [= <-]. simpl. destruct (P _ _ Hp) as [Hb Hs].
           split; [|done]. rewrite number_one in Hb. cbn [replicates applies] in Hb.
           rewrite bool_decide_eq_true_2 in Hb by done. lia.
        -- rewrite lookup_insert_ne by done. intros Hi. destruct (P _ _ Hi) as [Hb Hs]. split; [|done].
           rewrite number_one in Hb. cbn [replicates applies] in Hb. by rewrite bool_decide_eq_false_2 in Hb.
      * intros q s Hq Hf'. exact (Q _ _ Hq Hf').
  - exists []. split_and!; [split; [by rewrite app_nil_r|done]|simpl; by rewrite app_nil_r|].
    intros fl [P Q]. split; simpl.
    + intros i p Hi. destruct (P _ _ Hi) as [Hb Hs]. split; [|done]. rewrite number_one in Hb. cbn [replicates applies] in Hb. rewrite bool_decide_eq_false_2 in Hb by congruence. done.
    + intros q s Hq Hf. exact (Q _ _ Hq Hf).
Qed.

Lemma moves_lease_done id tag ok n : moves [WLease tag] [] [] n (lease_done id tag ok n).
Proof.
  unfold lease_done. destruct (find_job n id) as [j|]; [|by apply moves_answer]. destruct ok; simpl.
  - eapply moves_before; [|by apply moves_answer]. done.
  - destruct (commit_rec _ n) as [b n1] eqn:E. apply idle_commit in E.
    eapply moves_before; [exact E|]. eapply moves_before; [|by apply moves_answer]. done.
Qed.

Lemma moves_complete_done id cb ok n : moves [ack_waiter cb] [] [] n (complete_done id cb ok n).
Proof.
  unfold complete_done. set (n1 := match _ with Some _ => _ | None => _ end).
  assert (H1 : moves [] [] [] n n1).
  { unfold n1. destruct (n_submit_time n !! id) as [ts|]; [|apply moves_nothing].
    apply (moves_after _ _ _ (emit (OLatency (n_now n - ts)) n)); [by apply moves_note|done]. }
  apply (moves_then [] [ack_waiter cb] [] [] _ _ _ H1).
  eapply moves_before; [|apply moves_ack_cb]. by destruct ok.
Qed.

Lemma moves_quorum_done d ok n : moves (option_list (done_waiter d)) [] [] n (quorum_done d ok n).
Proof. destruct d; simpl; [apply moves_nothing|apply moves_lease_done|apply moves_complete_done]. Qed.

Lemma quorum_waiters_insert l q st st' : l !! q = Some st ->
  option_list (quorum_waiter st) ++ quorum_waiters (<[q := st']> l) ≡ₚ
    option_list (quorum_waiter st') ++ quorum_waiters l.
Proof.
  intros H. rewrite <- (take_drop_middle l q st H) at 2. rewrite insert_take_drop by (eapply lookup_lt_Some; eauto).
  unfold quorum_waiters. rewrite !omap_app. csimpl.
  destruct (quorum_waiter st), (quorum_waiter st'); simpl; solve_Permutation.
Qed.

(** The state of quorum [q] after a reply that does not run its callback. *)
Lemma backed_reply id slot q st st' fl n :
  n_quorums n !! q = Some st -> (q_fired st' = false -> q_fired st = false /\ q_outstanding st' = q_outstanding st - 1 /\
    q_outstanding st' <> 0) ->
  backed ([KApply id slot q] ++ fl) n -> backed fl (set_quorums (<[q := st']> (n_quorums n)) n).
Proof.
  intros Hq H [P Q]. split; simpl; [intros i p Hi; exact (P _ _ Hi)|].
  intros i s. destruct (decide (i = q)) as [->|Hne].
  - rewrite list_lookup_insert_eq by (by eapply lookup_lt_Some). intros [= <-] Hf. destruct (H Hf) as (Hf0 & E & Hz).
    pose proof (Q _ _ Hq Hf0) as Hb. rewrite number_one in Hb. cbn [applies] in Hb.
    rewrite bool_decide_eq_true_2 in Hb by done. lia.
  - rewrite list_lookup_insert_ne by done. intros Hi Hf. pose proof (Q _ _ Hi Hf) as Hb.
    rewrite number_one in Hb. cbn [applies] in Hb. by rewrite bool_decide_eq_false_2 in Hb.
Qed.

Lemma moves_quorum_reply id slot q acked n : moves [] [KApply id slot q] [] n (quorum_reply q acked n).
Proof.
  unfold quorum_reply. destruct (n_quorums n !! q) as [st|] eqn:Hq.
  2:{ exists []. split_and!; [split; [by rewrite app_nil_r|done]|simpl; by rewrite app_nil_r|].
      intros fl [P Q]. split; [intros i p Hi; exact (P _ _ Hi)|]. simpl. intros i s Hi Hf.
      pose proof (Q _ _ Hi Hf) as Hb. rewrite number_one in Hb. cbn [applies] in Hb.
      rewrite bool_decide_eq_false_2 in Hb by congruence. done. }
  set (nd := if acked then _ else _). cbv zeta.
  assert (Hfire : forall ok, q_fired st = false -> moves [] [KApply id slot q] [] n (quorum_done (q_done st) ok
    (set_quorums (<[q := mkQState (q_done st) nd (q_outstanding st - 1) true]> (n_quorums n)) n))).
  { intros ok Hf. destruct (moves_quorum_done (q_done st) ok
      (set_quorums (<[q := mkQState (q_done st) nd (q_outstanding st - 1) true]> (n_quorums n)) n))
      as (os & O & A & B).
    exists os. split_and!; [done| |].
    - rewrite A. unfold waits. simpl.
      pose proof (quorum_waiters_insert _ q st (mkQState (q_done st) nd (q_outstanding st - 1) true) Hq) as E.
      unfold quorum_waiter in E. rewrite Hf in E. simpl in E. rewrite <- E. solve_Permutation.
    - intros fl Hb. apply B. simpl. by eapply backed_reply. }
  destruct (q_fired st) eqn:Hf; simpl.
  - exists []. split_and!; [split; [by rewrite app_nil_r|done]| |].
    + unfold waits. simpl.
      pose proof (quorum_waiters_insert _ q st (mkQState (q_done st) nd (q_outstanding st - 1) true) Hq) as E.
      unfold quorum_waiter in E. rewrite Hf in E. simpl in E. by rewrite E, app_nil_r.
    + intros fl. by apply (backed_reply id slot q st).
  - destruct (nd <=? 0); simpl; [by apply Hfire|].
    destruct (Z.eqb_spec (q_outstanding st - 1) 0); simpl; [by apply Hfire|].
    exists []. split_and!; [split; [by rewrite app_nil_r|done]| |].
    + unfold waits. simpl.
      pose proof (quorum_waiters_insert _ q st (mkQState (q_done st) nd (q_outstanding st - 1) false) Hq) as E.
      unfold quorum_waiter in E. rewrite Hf in E. simpl in E.
      apply (Permutation_app_inv_l) in E. by rewrite E, app_nil_r.
    + intros fl. by apply (backed_reply id slot q st).
Qed.

(** ** Calls *)

Lemma moves_rpc_try to m b k n r n' :
  rpc_try to m b k n = (r, n') -> moves [] (if r is None then [k] else []) [] n n'.
Proof.
  unfold rpc_try. case_match; [intros [= <- <-]; apply moves_nothing|].
  destruct (n_busy n) as [|[] bs]; intros [= <- <-].
  - apply moves_call.
  - by apply moves_idle.
  - eapply moves_before; [|apply moves_call]. done.
Qed.

Lemma moves_query_status id ts best tag n : moves [WStatus tag] [] [] n (query_status id ts best tag n).
Proof.
  revert best n. induction ts as [|t ts IH]; intros best n; simpl; [by apply moves_answer|].
  case_decide; [apply IH|].
  destruct (rpc_try _ _ _ _ n) as [[code|] n1] eqn:E; apply moves_rpc_try in E; simpl in E.
  - exact (moves_then [] [_] [] [] _ _ _ E (IH _ _)).
  - destruct E as (os & O & A & B). exists os. split_and!; [done|done|].
    intros fl Hb. by apply B, backed_more.
Qed.

Lemma moves_idle_spend k n : kept [k] = [] -> (forall id, replicates id k = false) -> (forall q, applies q k = false) ->
  moves [] [k] [] n n.
Proof.
  intros Hk Hr Ha. exists []. rewrite Hk. split_and!; [split; [by rewrite app_nil_r|done]|simpl; by rewrite app_nil_r|].
  intros fl [P Q]. split.
  - intros id p Hp. destruct (P _ _ Hp) as [Hb ?]. rewrite number_one, Hr in Hb. done.
  - intros q s Hq Hf. pose proof (Q _ _ Hq Hf) as Hb. rewrite number_one, Ha in Hb. done.
Qed.

(** A waiter behind the continuation [k] becomes the waiter of what runs. *)
Lemma moves_resume k w n n' :
  kont_waiter k = Some w -> moves [w] [] [] n n' -> moves [] [k] [] n n'.
Proof.
  intros Hk (os & O & A & B). exists os. unfold kept at 3. simpl. rewrite Hk. split_and!; [done|exact A|].
  intros fl [P Q]. apply B. destruct k; try done; split.
  all: intros; [destruct (P _ _ H) as [Hb ?]; by rewrite number_one in Hb|].
  all: pose proof (Q _ _ H H0) as Hb; by rewrite number_one in Hb.
Qed.

Lemma idle_resync_countdown id n : idle n (resync_countdown id n).
Proof. unfold resync_countdown. by repeat case_match. Qed.

Lemma moves_transport_failure k code n : moves [] [k] [] n (transport_failure k code n).
Proof.
  destruct k; simpl.
  - eapply moves_resume; [done|apply moves_submit_cb].
  - eapply moves_resume; [done|apply moves_query_status].
  - apply moves_replicate_reply.
  - apply moves_quorum_reply.
  - eapply moves_resume; [done|apply moves_ack_cb].
  - by apply moves_idle_spend.
  - eapply moves_after; [by apply moves_idle_spend|apply idle_resync_countdown].
  - by apply moves_idle_spend.
Qed.

Lemma moves_rpc_call to m b k n : moves [] [k] [] n (rpc_call to m b k n).
Proof.
  unfold rpc_call. destruct (rpc_try to m b k n) as [[code|] n1] eqn:E; apply moves_rpc_try in E; [|done].
  exact (moves_then [] [] [] [k] _ _ _ E (moves_transport_failure k code n1)).
Qed.

Lemma moves_rpc_spawn to m b k n : kont_waiter k = None -> moves [] [] [] n (rpc_call to m b k n).
Proof.
  intros H. pose proof (moves_spawn [] [k] _ _ (moves_rpc_call to m b k n)) as Hm.
  unfold kept in Hm. simpl in Hm. by rewrite H in Hm.
Qed.

(** ** Operations that leave the ledgers alone, or only place calls *)

Lemma idle_trans n1 n2 n3 : idle n1 n2 -> idle n2 n3 -> idle n1 n3.
Proof. intros [] []. constructor; congruence. Qed.

Lemma idle_snd r n : idle n (snd (commit_rec r n)).
Proof. destruct (commit_rec r n) as [ok n1] eqn:E. by apply idle_commit in E. Qed.

Ltac idle_tac :=
  cbv zeta;
  repeat first
    [ progress cbn [snd]
    | match goal with
      | |- idle ?n ?n => done
      | |- idle ?n (snd (commit_rec ?r ?m)) => apply (idle_trans n m); [|apply idle_snd]
      | |- idle _ (match ?x with _ => _ end) => destruct x
      | |- idle ?n (?f ?x ?m) => apply (idle_trans n m); [|by constructor]
      end ].

Lemma idle_mark_replica_ok id s n : idle n (mark_replica_ok id s n).
Proof. unfold mark_replica_ok. idle_tac. Qed.
Lemma idle_after_ownership_change id n : idle n (after_ownership_change id n).
Proof. unfold after_ownership_change. idle_tac. Qed.
Lemma idle_finalize_takeover id n : idle n (finalize_takeover id n).
Proof. unfold finalize_takeover. idle_tac. Qed.

Lemma moves_resync_job id n : moves [] [] [] n (resync_job id n).
Proof.
  unfold resync_job. case_bool_decide; [apply moves_nothing|]. destruct (find_job n id) as [j|]; [|apply moves_nothing].
  cbv zeta. match goal with |- context [foldl ?f n ?l] => assert (H1 : moves [] [] [] n (foldl f n l)) end.
  { apply moves_foldl. intros p n1. by apply moves_rpc_spawn. }
  case_match; [|exact H1]. eapply moves_after; [exact H1|done].
Qed.

Lemma moves_send_replicate id s n : moves [] [] [] n (send_replicate id s n).
Proof. unfold send_replicate. destruct (find_job n id); [by apply moves_rpc_spawn|apply moves_nothing]. Qed.

Lemma moves_claim_send id to n : moves [] [] [] n (claim_send id to n).
Proof. unfold claim_send. destruct (n_claims n !! id); [by apply moves_rpc_spawn|apply moves_nothing]. Qed.

Lemma moves_start_takeover id n : moves [] [] [] n (start_takeover id n).
Proof.
  unfold start_takeover. case_match; [apply moves_nothing|]. destruct (find_job n id) as [j|]; [|apply moves_nothing].
  case_match; [apply moves_nothing|]. destruct (commit_rec _ n) as [ok n1] eqn:E. apply idle_commit in E.
  eapply moves_before; [exact E|]. destruct ok; simpl; [|apply moves_nothing].
  destruct (find_job n1 id) as [j1|]; [|apply moves_nothing].
  set (n2 := set_claims _ n1). apply (moves_before _ _ _ n2); [done|].
  case_match; [apply moves_idle, idle_finalize_takeover|]. apply moves_foldl.
  intros p n3. case_match; [apply moves_claim_send|apply moves_nothing].
Qed.

Lemma moves_claim_lambda id to code resp n : moves [] [KClaim id to] [] n (claim_lambda id to code resp n).
Proof.
  assert (H : moves [] [] [] n (claim_lambda id to code resp n)).
  { unfold claim_lambda. destruct (n_claims n !! id) as [st|]; [|apply moves_nothing].
    destruct (is_created code).
    { apply moves_idle. unfold claim_granted. cbv zeta.
      set (b := if (length resp <? 5)%nat then _ else _). destruct b as [bs bq].
      case_match; [eapply idle_trans; [|apply idle_finalize_takeover]|]; done. }
    case_match; [eapply moves_before; [|apply moves_resync_job]; done|].
    case_match; [|apply moves_nothing]. destruct (find_job n id) as [j|]; [|apply moves_nothing].
    apply moves_foldl. intros p n1. case_decide; [apply moves_send_replicate|apply moves_nothing]. }
  exact (moves_then [] [] [KClaim id to] [] _ _ _ (moves_idle_spend (KClaim id to) n eq_refl (fun _ => eq_refl) (fun _ => eq_refl)) H).
Qed.

Lemma moves_resync_lambda id code resp n : moves [] [KResync id] [] n (resync_lambda id code resp n).
Proof.
  eapply moves_after; [by apply (moves_idle_spend (KResync id))|].
  unfold resync_lambda. apply (idle_trans _ (resync_countdown id n)); [apply idle_resync_countdown|].
  cbv zeta. case_match; [done|]. destruct (get_job resp 0) as [[remote off]| |]; [|done..].
  case_decide; [|done]. destruct (find_job _ id); [|done]. case_match; [|done].
  eapply idle_trans; [apply idle_snd|apply idle_after_ownership_change].
Qed.

Lemma moves_on_response k code resp n : moves [] [k] [] n (on_response k code resp n).
Proof.
  destruct k; simpl.
  - eapply moves_resume; [done|]. unfold fwd_submit_reply. case_match; apply moves_submit_cb.
  - eapply moves_resume; [done|apply moves_query_status].
  - unfold replicate_lambda. eapply (moves_then [] [] []); [|apply moves_replicate_reply].
    case_match; [apply moves_idle, idle_mark_replica_ok|]. case_match; [apply moves_resync_job|apply moves_nothing].
  - unfold apply_lambda. eapply (moves_then [] [] []); [|apply moves_quorum_reply].
    case_match; [apply moves_idle, idle_mark_replica_ok|]. case_match; [apply moves_resync_job|apply moves_nothing].
  - eapply moves_resume; [done|apply moves_ack_cb].
  - apply moves_claim_lambda.
  - apply moves_resync_lambda.
  - by apply moves_idle_spend.
Qed.

(** ** Quorum commits and submits *)

Lemma find_commit r n n' id : commit_rec r n = (true, n') -> is_Some (find_job n id) -> is_Some (find_job n' id).
Proof.
  intros E [j Hj]. apply commit_rec_spec in E as [_ E]. unfold find_job in *. fold (table n') (table n) in *.
  rewrite E. rewrite (apply_find_Some _ _ _ _ Hj). eauto.
Qed.

(** A quorum that waits for the calls to its peers. *)
Lemma moves_new_quorum id d nd (slots : list (nat * Endpoint)) n :
  slots <> [] ->
  moves (option_list (done_waiter d)) [] ((fun p => KApply id (fst p) (length (n_quorums n))) <$> slots) n
    (set_quorums (n_quorums n ++ [mkQState d nd (Z.of_nat (length slots)) false]) n).
Proof.
  intros Hs. set (g := fun p : nat * Endpoint => KApply id (fst p) (length (n_quorums n))). exists [].
  assert (Hk : kept (g <$> slots) = []).
  { unfold kept. clear Hs. induction slots; [done|]. done. }
  split_and!; [split; [by rewrite app_nil_r|done]| |].
  - rewrite Hk. unfold waits, quorum_waiters. simpl. rewrite omap_app. unfold quorum_waiter. simpl.
    destruct (done_waiter d); simpl; rewrite ?app_nil_r; [solve_Permutation|done].
  - intros fl [P Q]. split; simpl.
    + intros i p Hi. destruct (P _ _ Hi) as [Hb Hs']. split; [|done]. rewrite number_app.
      pose proof (number_nonneg (replicates i) (g <$> slots)). simpl in Hb. lia.
    + intros q st Hq Hf. rewrite number_app. apply lookup_app_Some in Hq as [Hq|[Hl Hq]].
      * pose proof (Q _ _ Hq Hf). pose proof (number_nonneg (applies q) (g <$> slots)). simpl in *. lia.
      * apply list_lookup_singleton_Some in Hq as [Hl' <-]. simpl.
        assert (q = length (n_quorums n)) as -> by lia.
        rewrite number_all by (intros p; apply bool_decide_eq_true_2; done).
        pose proof (number_nonneg (applies (length (n_quorums n))) fl). destruct slots; [done|]. simpl. lia.
Qed.

Lemma moves_quorum_commit id rec d n :
  is_Some (find_job n id) \/ done_waiter d = None ->
  moves (option_list (done_waiter d)) [] [] n (quorum_commit id rec d n).
Proof.
  intros Hj. unfold quorum_commit. destruct (commit_rec rec n) as [ok n1] eqn:E. pose proof (idle_commit _ _ _ _ E) as Hi.
  eapply moves_before; [exact Hi|]. destruct ok; simpl; [|apply moves_quorum_done].
  destruct (find_job n1 id) as [j|] eqn:Ej.
  2:{ destruct Hj as [Hj|Hd]; [|rewrite Hd; apply moves_nothing].
      apply (find_commit _ _ _ _ E) in Hj. rewrite Ej in Hj. by destruct Hj. }
  set (n2 := set_repair _ n1). apply (moves_before _ _ _ n2); [done|].
  case_bool_decide as Hs; [apply moves_quorum_done|].
  pose proof (moves_new_quorum id d 1 _ n2 Hs) as H1.
  rewrite <- (app_nil_r (option_list _)). apply (moves_cut _ [] [] [] _ _ _ _ H1). rewrite app_nil_r.
  apply (moves_foldl_spend _ (fun p => KApply id (fst p) (length (n_quorums n2)))). intros p n3. apply moves_rpc_call.
Qed.

Lemma moves_quorum_ignore id rec n : moves [] [] [] n (quorum_commit id rec QIgnore n).
Proof. apply (moves_quorum_commit id rec QIgnore). by right. Qed.

Lemma submit_cb_store cb st id n : n_store (submit_cb cb st id n) = n_store n.
Proof. by destruct cb. Qed.

Lemma replicate_reply_store id ok n : n_store (replicate_reply id ok n) = n_store n.
Proof.
  unfold replicate_reply, submit_result. by repeat (case_match || rewrite submit_cb_store).
Qed.

(** Replication of a job that is there: one call for each slot. *)
Lemma moves_replicate_all id (slots : list (nat * Endpoint)) n :
  is_Some (find_job n id) ->
  moves [] ((fun p => KReplicate id (fst p)) <$> slots) [] n (foldl (fun n p => send_replicate id (fst p) n) n slots).
Proof.
  revert n. induction slots as [|p slots IH]; intros n Hj; [apply moves_nothing|]. simpl.
  assert (H1 : moves [] [KReplicate id (fst p)] [] n (send_replicate id (fst p) n)).
  { unfold send_replicate. destruct Hj as [j ->]. apply moves_rpc_call. }
  eapply (moves_then [] [] [_] _ _ _ _ H1), IH. unfold find_job.
  assert (E : n_store (send_replicate id (fst p) n) = n_store n); [|by rewrite E].
  unfold send_replicate, rpc_call, rpc_try. destruct (find_job n id); [|done].
  case_match; case_match; simpl; rewrite ?replicate_reply_store; repeat case_match; simplify_eq; rewrite ?replicate_reply_store; done.
Qed.

(** A submit that waits for the calls to its replicas. *)
Lemma moves_new_pending id cb nd s (slots : list (nat * Endpoint)) n :
  slots <> [] -> n_pending_submits n !! id = None -> 0 <= s < n_next_job_seq n -> id = job_id_at n s ->
  moves [submit_waiter cb] [] ((fun p => KReplicate id (fst p)) <$> slots) n
    (set_pending_submits (<[id := mkPending cb nd (Z.of_nat (length slots))]> (n_pending_submits n)) n).
Proof.
  intros Hne Hp Hs Hid. set (g := fun p : nat * Endpoint => KReplicate id (fst p)). exists [].
  assert (Hk : kept (g <$> slots) = []) by (unfold kept; clear Hne; by induction slots).
  split_and!; [split; [by rewrite app_nil_r|done]| |].
  - rewrite Hk. unfold waits. simpl. rewrite pending_waiters_insert by done. simpl. by rewrite app_nil_r.
  - intros fl [P Q]. split; simpl.
    + intros i p. rewrite number_app. pose proof (number_nonneg (replicates i) fl).
      destruct (decide (i = id)) as [->|Hi].
      * rewrite lookup_insert_eq. intros [= <-]. simpl. split; [|by exists s].
        rewrite number_all by (intros x; by apply bool_decide_eq_true_2). destruct slots; [done|]. simpl. lia.
      * rewrite lookup_insert_ne by done. intros Hl. destruct (P _ _ Hl) as [Hb Hs']. split; [|done].
        pose proof (number_nonneg (replicates i) (g <$> slots)). simpl in Hb. lia.
    + intros q st Hq Hf. pose proof (Q _ _ Hq Hf). rewrite number_app.
      pose proof (number_nonneg (applies q) (g <$> slots)). simpl in *. lia.
Qed.

Lemma moves_start_replication id cb s n :
  is_Some (find_job n id) -> n_pending_submits n !! id = None -> 0 <= s < n_next_job_seq n -> id = job_id_at n s ->
  moves [submit_waiter cb] [] [] n (start_replication id true cb n).
Proof.
  intros Hj Hp Hs Hid. unfold start_replication. destruct (find_job n id) as [j|] eqn:Ej; [|by destruct Hj].
  set (n1 := set_repair _ n). cbv zeta. apply (moves_before _ _ _ n1); [done|].
  destruct (decide (peer_slots (me n) j = [])) as [E|E].
  - rewrite E. simpl. unfold submit_result. simpl. rewrite lookup_insert_eq. simpl.
    eapply moves_before; [|apply moves_submit_cb]. split; try done. simpl. by rewrite delete_insert_id.
  - assert (Hl : (Z.of_nat (length (peer_slots (me n) j)) =? 0) = false).
    { apply Z.eqb_neq. destruct (peer_slots (me n) j); [done|]. simpl. lia. }
    rewrite Hl. eapply (moves_cut [_] [] [] []); [by apply (moves_new_pending id cb (if 0 <? Z.of_nat (length (peer_slots (me n) j)) then 1 else 0) s)|].
    rewrite app_nil_r. apply moves_replicate_all. unfold find_job in *. simpl. rewrite Ej. eauto.
Qed.

(** Ids of different job numbers differ. *)
Lemma job_id_at_inj n s s' : fits 32 s -> fits 32 s' -> job_id_at n s = job_id_at n s' -> s = s'.
Proof.
  unfold fits, job_id_at. intros Hs Hs' [= E]. apply (f_equal (fun z => Z.land z (Z.ones 32))) in E.
  set (b := u64 _) in E. assert (Hb : b mod 2 ^ 32 = 0).
  { unfold b, wrap. rewrite Z.mod_mod_divide by (by exists (2 ^ 32)).
    rewrite Z.shiftl_mul_pow2 by lia. by apply Z.mod_mul. }
  rewrite !Z.land_lor_distr_l, !Z.land_ones, Hb, !Z.lor_0_l, (Z.mod_small s), (Z.mod_small s') in E by lia.
  exact E.
Qed.

Lemma next_id_free fl n : backed fl n -> seq_wf n -> n_pending_submits n !! job_id_at n (n_next_job_seq n) = None.
Proof.
  intros [P _] Hs. destruct (_ !! _) as [ps|] eqn:E; [|done]. destruct (P _ _ E) as (_ & s & Hs' & Ei).
  apply job_id_at_inj in Ei; unfold seq_wf, fits in *; lia.
Qed.

(** The counter has a number left, and its id is free. *)
Record can_submit n : Prop := {
  cs_seq : 0 <= n_next_job_seq n < 2 ^ 32 - 1;
  cs_free : n_pending_submits n !! job_id_at n (n_next_job_seq n) = None
}.

(** An operation may begin with taking a job number. *)
Definition count_up n : Node S M := set_next_job_seq (n_next_job_seq n + 1) n.
Definition may_mint (ws : list Waiter) (rs : list Kont) n n' : Prop :=
  moves ws rs [] n n' \/ moves ws rs [] (count_up n) n'.

Lemma owner_submit_mints p cb n : can_submit n -> may_mint [submit_waiter cb] [] n (owner_submit p cb n).
Proof.
  intros [Hs Hf]. unfold owner_submit.
  destruct (find_by_idem _ _); [left; eapply moves_before; [|apply moves_submit_cb]; done|].
  destruct (n_draining n); [left; apply moves_submit_cb|]. right. cbv zeta. set (n1 := count add_submits n).
  change (n_next_job_seq n1) with (n_next_job_seq n). rewrite wrap_id by (unfold fits; lia).
  set (n2 := set_next_job_seq _ n1). set (j := fresh_job n1 p). apply (moves_before _ _ _ n2); [done|].
  destruct (commit_rec (SubmitRec j) n2) as [ok n3] eqn:E.
  pose proof (idle_commit _ _ _ _ E) as Hi. eapply moves_before; [exact Hi|].
  destruct ok; simpl; [|apply moves_submit_cb].
  set (n4 := set_submit_time _ _). apply (moves_before _ _ _ n4); [done|].
  assert (Ep : n_pending_submits n4 = n_pending_submits n) by (by destruct Hi).
  assert (Es : n_next_job_seq n4 = n_next_job_seq n + 1) by (by destruct Hi).
  assert (Ei : job_id_at n4 = job_id_at n).
  { unfold job_id_at, me. replace (n_cfg n4) with (n_cfg n) by (by destruct Hi).
    by replace (n_boot n4) with (n_boot n) by (by destruct Hi). }
  apply (moves_start_replication _ cb (n_next_job_seq n)).
  - change (is_Some (find_job n3 (j_id j))). apply commit_rec_spec in E as [_ E]. unfold find_job.
    fold (table n3). rewrite E, apply_find, decide_True by done. destruct (find (table n2) _); simpl; eauto.
  - rewrite Ep. exact Hf.
  - rewrite Es. lia.
  - by rewrite Ei.
Qed.

(** ** Client calls *)

Lemma submit_mints p cb n : can_submit n -> may_mint [submit_waiter cb] [] n (submit p cb n).
Proof.
  intros H. unfold submit. case_match; [left; apply moves_submit_cb|]. cbv zeta.
  case_decide; [by apply owner_submit_mints|]. left. case_match; [apply moves_submit_cb|].
  apply (moves_spawn [] [KFwdSubmit cb]), moves_rpc_call.
Qed.

Lemma moves_lease w tag n : ids_ok (table n) -> moves [WLease tag] [] [] n (lease w tag n).
Proof.
  intros Hids. unfold lease. case_match; [by apply moves_answer|].
  destruct (pick_ready _ _ n) as [[j|] rest] eqn:Ep; [|eapply moves_before; [|by apply moves_answer]; done].
  apply pick_ready_spec in Ep as (id & Ej & _). pose proof (Hids _ _ Ej) as Hid. subst id.
  set (n1 := set_ready rest n). apply (moves_before _ _ _ n1); [done|]. cbv zeta.
  case_match; [eapply moves_before; [|by apply moves_answer]; done|].
  case_match.
  - apply (moves_before _ _ _ (count add_deadletters n1)); [done|].
    eapply (moves_then [] [_] [] []); [apply moves_quorum_ignore|by apply moves_answer].
  - set (n2 := set_not_before _ n1). apply (moves_before _ _ _ n2); [done|].
    apply (moves_quorum_commit _ _ (QLease (j_id j) tag)). left. exists j. exact Ej.
Qed.

Lemma moves_owner_ack id e q ok cb n : moves [ack_waiter cb] [] [] n (owner_ack id e q ok cb n).
Proof.
  unfold owner_ack. destruct (find_job n id) as [j|] eqn:Ej; [|apply moves_ack_cb].
  case_match; [apply moves_ack_cb|]. cbv zeta. destruct ok; simpl.
  - case_match; [apply moves_ack_cb|]. set (n1 := set_not_before _ _). apply (moves_before _ _ _ n1); [done|].
    apply (moves_quorum_commit _ _ (QComplete id cb)). left. exists j. exact Ej.
  - case_match; [apply moves_ack_cb|]. set (n1 := set_lease_deadline _ _). apply (moves_before _ _ _ n1); [done|].
    eapply (moves_then [] [_] [] []); [apply moves_quorum_ignore|].
    eapply moves_before; [|apply moves_ack_cb]. done.
Qed.

Lemma moves_ack id e q ok cb n : moves [ack_waiter cb] [] [] n (ack id e q ok cb n).
Proof.
  unfold ack. destruct (find_job n id) as [j|]; [|apply moves_ack_cb].
  case_match; [apply moves_owner_ack|]. apply (moves_spawn [] [KFwdAck cb]), moves_rpc_call.
Qed.

(** ** Requests of peers *)

Lemma moves_commit_respond r ctx n (f : bool -> Z) (b : bytes) :
  moves [WPeer ctx] [] [] n (let '(ok, n) := commit_rec r n in respond ctx (f ok) b n).
Proof.
  destruct (commit_rec r n) as [ok n1] eqn:E. apply idle_commit in E.
  eapply moves_before; [exact E|apply moves_respond].
Qed.

Lemma get_job_id_found b : (kJobIdSize <= length b)%nat -> exists id, get_job_id b 0 = Val id.
Proof.
  intros H. unfold kJobIdSize in H. unfold get_job_id. rewrite !get_u64_spec, !decide_True by lia. simpl. eauto.
Qed.

Lemma moves_handle_fwd_ack ctx body n : moves [WPeer ctx] [] [] n (handle_fwd_ack ctx body n).
Proof.
  unfold handle_fwd_ack. destruct (Nat.ltb_spec (length body) (kJobIdSize + 9)); [apply moves_respond|].
  destruct (get_job_id_found body) as [id ->]; [lia|]. unfold kJobIdSize in *.
  rewrite !get_u32_spec, get_u8_spec, !decide_True by lia.
  destruct (find_job n id); [|apply moves_respond]. case_match; [apply moves_respond|]. apply moves_owner_ack.
Qed.

Lemma moves_handle_claim ctx body n : moves [WPeer ctx] [] [] n (handle_claim ctx body n).
Proof.
  unfold handle_claim. destruct (Nat.ltb_spec (length body) (kJobIdSize + 4 + kEndpointSize)); [apply moves_respond|].
  destruct (get_job_id_found body) as [id ->]; [lia|]. unfold kJobIdSize, kEndpointSize, get_endpoint in *.
  rewrite !get_u32_spec, get_u16_spec, !decide_True by lia. cbn [res_bind].
  case_match; [apply moves_respond|]. destruct (find_job n id) as [j|]; [|apply moves_respond].
  case_match; [apply moves_respond|]. cbv zeta. case_match; [apply moves_respond|]. case_match; [apply moves_respond|].
  destruct (commit_rec _ n) as [ok n1] eqn:E. apply idle_commit in E. eapply moves_before; [exact E|].
  destruct ok; simpl; [|apply moves_respond].
  eapply moves_before; [apply idle_after_ownership_change|apply moves_respond].
Qed.

Lemma moves_handle_handoff ctx body n : moves [WPeer ctx] [] [] n (handle_drain_handoff ctx body n).
Proof.
  unfold handle_drain_handoff. destruct (Nat.ltb_spec (length body) kJobIdSize); [apply moves_respond|].
  destruct (get_job_id_found body) as [id ->]; [lia|]. destruct (find_job n id) as [j|]; [|apply moves_respond].
  eapply (moves_then [] [_] [] []); [|apply moves_respond].
  case_match; [apply moves_start_takeover|apply moves_nothing].
Qed.

Lemma moves_handle_replicate ctx body n : moves [WPeer ctx] [] [] n (handle_replicate ctx body n).
Proof.
  unfold handle_replicate. destruct (get_job body 0) as [[j ?]| |]; [|apply moves_respond..].
  cbv zeta. case_match; [apply moves_respond|].
  apply (moves_commit_respond _ ctx n (fun ok => if ok then qstatus.kCreated else qstatus.kNoQuorum)).
Qed.

Lemma moves_handle_apply ctx body n : moves [WPeer ctx] [] [] n (handle_apply ctx body n).
Proof.
  unfold handle_apply. destruct (decode_record body) as [[r ?]| |]; [|apply moves_respond..].
  destruct (rec_meta r) as [[id e]|]; [|apply moves_respond]. destruct (find_job n id); [|apply moves_respond].
  case_match; [eapply moves_before; [|apply moves_respond]; done|]. case_match; [apply moves_respond|].
  apply (moves_commit_respond _ ctx n (fun ok => if ok then qstatus.kCreated else qstatus.kNoQuorum)).
Qed.

Lemma moves_handle_fwd_status ctx body n : moves [WPeer ctx] [] [] n (handle_fwd_status ctx body n).
Proof.
  unfold handle_fwd_status. destruct (Nat.ltb_spec (length body) kJobIdSize); [apply moves_respond|].
  destruct (get_job_id_found body) as [id ->]; [lia|]. case_match; apply moves_respond.
Qed.

Lemma moves_handle_resync ctx body n : moves [WPeer ctx] [] [] n (handle_resync ctx body n).
Proof. exact (moves_handle_fwd_status ctx body n). Qed.

Lemma on_request_mints ctx body n n' :
  can_submit n -> on_request ctx body n = Some n' -> may_mint [WPeer ctx] [] n n'.
Proof.
  intros Hc. unfold on_request. destruct (method ctx); intros [= <-]; try (left; solve [
    auto using moves_handle_replicate, moves_handle_apply, moves_handle_fwd_ack, moves_handle_claim,
      moves_handle_handoff, moves_handle_fwd_status, moves_handle_resync]).
  unfold handle_fwd_submit. destruct (decode_params body); [|left; apply moves_respond..].
  by apply (owner_submit_mints _ (SubmitRespond ctx)).
Qed.

(** ** Timers and membership *)

Lemma moves_resume_all code ks n :
  moves [] ks [] n (foldl (fun n k => on_response k code [] n) n ks).
Proof.
  rewrite <- (list_fmap_id ks) at 1. apply (moves_foldl_spend _ id). intros k m. apply moves_on_response.
Qed.

Lemma moves_expiry_tick now n : moves [] [] [] n (expiry_tick now n).
Proof.
  unfold expiry_tick. apply moves_foldl. intros id m. unfold expire_one. cbv zeta.
  set (m1 := set_lease_deadline _ m). apply (moves_before _ _ _ m1); [done|].
  destruct (find_job m1 id) as [j|]; [|apply moves_nothing]. case_match; [apply moves_nothing|].
  case_match; [eapply moves_before; [|apply moves_quorum_ignore]; done|].
  match goal with |- moves _ _ _ _ (requeue_ready _ _ ?x) => apply (moves_after _ _ _ x); [|done] end.
  eapply moves_before; [|apply moves_quorum_ignore]. done.
Qed.

Lemma moves_repair_tick now n : moves [] [] [] n (repair_tick now n).
Proof.
  unfold repair_tick. case_match; [apply moves_nothing|]. cbv zeta. eapply moves_before; [|apply moves_foldl]; [done|].
  intros p m. unfold repair_one. destruct (find_job m _) as [j|]; [|apply moves_nothing].
  case_match; [apply moves_nothing|]. apply moves_foldl. intros q m'.
  case_match; [apply moves_send_replicate|apply moves_nothing].
Qed.

Lemma moves_claim_tick now n : moves [] [] [] n (claim_tick now n).
Proof.
  unfold claim_tick. case_match; [apply moves_nothing|]. cbv zeta. eapply moves_before; [|apply moves_foldl]; [done|].
  intros id m. unfold claim_one. destruct (n_claims m !! id) as [st|]; [|apply moves_nothing]. cbv zeta.
  set (m1 := set_claims _ m). apply (moves_before _ _ _ m1); [done|].
  destruct (find_job m1 id) as [j|]; [|apply moves_nothing]. apply moves_foldl. intros q m'.
  case_match; [apply moves_claim_send|apply moves_nothing].
Qed.

Lemma moves_drain_tick now n : moves [] [] [] n (drain_tick now n).
Proof.
  unfold drain_tick. case_match; [apply moves_nothing|]. cbv zeta. set (n1 := set_next_drain_tick _ n).
  apply (moves_before _ _ _ n1); [done|].
  match goal with |- context [foldl ?f n1 ?l] => assert (H1 : moves [] [] [] n1 (foldl f n1 l)) end.
  { apply moves_foldl. intros p m. unfold handoff_one. case_match; [apply moves_nothing|by apply moves_rpc_spawn]. }
  case_match; [|exact H1]. eapply (moves_then [] [] [] [] _ _ _ H1).
  eapply moves_before; [|by apply moves_note]. done.
Qed.

Lemma moves_tick ks n : moves [] ks [] n (tick ks n).
Proof.
  unfold tick. cbv zeta. set (n1 := foldl _ n ks).
  rewrite <- (app_nil_r ks). apply (moves_then [] [] ks [] _ n1); [apply moves_resume_all|].
  eapply (moves_then [] [] [] []); [|apply moves_drain_tick].
  eapply (moves_then [] [] [] []); [|apply moves_claim_tick].
  eapply (moves_then [] [] [] []); [apply moves_expiry_tick|apply moves_repair_tick].
Qed.

Lemma moves_on_peer_dead ks n : moves [] ks [] n (on_peer_dead ks n).
Proof.
  unfold on_peer_dead. cbv zeta. set (n1 := foldl _ n ks).
  rewrite <- (app_nil_r ks). apply (moves_then [] [] ks [] _ n1); [apply moves_resume_all|].
  apply moves_foldl. intros id m. apply moves_start_takeover.
Qed.

Lemma moves_open n : moves [] [] [] n (node_open n).
Proof.
  unfold node_open. apply moves_foldl. intros p m. unfold open_one. case_match; [apply moves_nothing|]. cbv zeta.
  set (m1 := if bool_decide (_ = Ready) then _ else _).
  assert (H1 : idle m m1) by (unfold m1; by repeat case_match).
  case_match; [|by apply moves_idle]. eapply moves_before; [exact H1|apply moves_resync_job].
Qed.

(** ** Runs *)

(** Who an event asks an answer for, and the continuations it runs. *)
Definition asked (e : Event M) : list Waiter :=
  match e with
  | EvRequest ctx body =>
      match method ctx with
      | FwdSubmit | Replicate | Apply | FwdAck | FwdStatus | Claim | Resync | DrainHandoff => [WPeer ctx]
      | _ => []
      end
  | EvSubmit _ cb => [submit_waiter cb]
  | EvStatus _ tag => [WStatus tag]
  | EvLease _ tag => [WLease tag]
  | EvAck _ _ _ _ cb => [ack_waiter cb]
  | _ => []
  end.

Definition resumed (e : Event M) : list Kont :=
  match e with EvResponse k _ _ => [k] | EvTick ks | EvPeerDead ks => ks | _ => [] end.

Lemma step_moves e n : can_submit n -> ids_ok (table n) -> may_mint (asked e) (resumed e) n (node_step e n).
Proof.
  intros Hc Hi. destruct e; simpl; try (left; solve [eauto using moves_on_response, moves_lease,
    moves_ack, moves_tick, moves_on_peer_dead]).
  - destruct (on_request ctx body n) as [n'|] eqn:E.
    + pose proof (on_request_mints ctx body n n' Hc E) as Hm. revert E. unfold on_request.
      destruct (method ctx); intros [= <-]; exact Hm.
    + revert E. unfold on_request. destruct (method ctx); intros [=]; left; apply moves_nothing.
  - by apply submit_mints.
  - left. apply moves_query_status.
  - left. by apply moves_idle.
  - left. apply moves_idle. unfold on_peer_alive.
    match goal with |- context [foldl ?f n ?l] => generalize l end. intros l.
    revert n Hc Hi. induction l as [|x l IH]; intros n Hc Hi; [done|]. simpl.
    eapply idle_trans; [|apply IH]; try done. by destruct Hc.
  - left. by apply moves_idle.
Qed.

(** An event keeps the ledgers. *)
Lemma step_ledger e fl n :
  backed (resumed e ++ fl) n -> node_wf n -> 0 <= n_next_job_seq n < 2 ^ 32 - 1 ->
  exists os, n_out (node_step e n) = n_out n ++ os /\
    answers os ++ waits (node_step e n) ++ kept (calls os) ≡ₚ asked e ++ kept (resumed e) ++ waits n /\
    backed (calls os ++ fl) (node_step e n) /\
    n_next_job_seq n <= n_next_job_seq (node_step e n) <= n_next_job_seq n + 1.
Proof.
  intros Hb Hw Hs. assert (Hc : can_submit n).
  { split; [done|]. eapply next_id_free; [exact Hb|apply Hw]. }
  destruct (step_moves e n Hc (nw_ids _ Hw)) as [(os & [O Q] & A & B)|(os & [O Q] & A & B)]; exists os.
  - cbn [kept omap list_omap] in A. rewrite app_nil_r in A.
    split_and!; [exact O|exact A|exact (B fl Hb)|lia|lia].
  - cbn [kept omap list_omap] in A. rewrite app_nil_r in A. simpl in Q.
    split_and!; [exact O|exact A| |lia|lia]. apply (B fl). destruct Hb as [P R]. split; simpl; [|exact R].
    intros id ps Hp. destruct (P _ _ Hp) as (Hn & s & Hs' & ->). split; [exact Hn|]. exists s. split; [lia|done].
Qed.

(** The calls an event leaves with the RPC layer. *)
Definition placed (e : Event M) n : list Kont := calls (drop (length (n_out n)) (n_out (node_step e n))).

(** A run in which the RPC layer runs each continuation it holds at most once, and no
    other; [fl] are the ones it holds. *)
Inductive exchange : list (Event M) -> Node S M -> list Kont -> Node S M -> list Kont -> Prop :=
  | ex_nil n fl fl' : fl ≡ₚ fl' -> exchange [] n fl n fl'
  | ex_step e es n fl fl1 n' fl' :
      fl ≡ₚ resumed e ++ fl1 -> exchange es (node_step e n) (placed e n ++ fl1) n' fl' ->
      exchange (e :: es) n fl n' fl'.

Lemma exchange_perm es n fl fl2 n' fl' : fl ≡ₚ fl2 -> exchange es n fl n' fl' -> exchange es n fl2 n' fl'.
Proof.
  intros Hp H. revert fl2 Hp. destruct H as [n fl fl' Hfl|e es n fl fl1 n' fl' Hfl Hx]; intros fl2 Hp.
  - constructor. by rewrite <- Hp.
  - eapply ex_step; [|exact Hx]. by rewrite <- Hp.
Qed.

Lemma exchange_app es1 es2 n fl n1 fl1 n2 fl2 :
  exchange es1 n fl n1 fl1 -> exchange es2 n1 fl1 n2 fl2 -> exchange (es1 ++ es2) n fl n2 fl2.
Proof.
  induction 1 as [n fl fl' Hfl|e es n fl fl0 n' fl' Hfl Hx IH]; intros H2; simpl.
  - eapply exchange_perm; [|exact H2]. by symmetry.
  - eapply ex_step; [exact Hfl|]. by apply IH.
Qed.

Lemma exchange_ledger es n fl n' fl' :
  exchange es n fl n' fl' -> backed fl n -> node_wf n ->
  0 <= n_next_job_seq n -> n_next_job_seq n + Z.of_nat (length es) < 2 ^ 32 ->
  exists os, n_out n' = n_out n ++ os /\
    answers os ++ waits n' ++ kept fl' ≡ₚ mbind asked es ++ waits n ++ kept fl /\ backed fl' n'.
Proof.
  intros H. induction H as [n fl fl' Hfl|e es n fl fl1 n' fl' Hfl Hx IH]; intros Hb Hw H0 Hn.
  { exists []. rewrite <- Hfl. split_and!; [by rewrite app_nil_r|done|done]. }
  rewrite Hfl in Hb. cbn [length] in Hn.
  destruct (step_ledger e fl1 n Hb Hw ltac:(lia)) as (o1 & O1 & A1 & B1 & S1).
  assert (Ep : placed e n = calls o1).
  { unfold placed. rewrite O1, drop_app_length. done. }
  rewrite Ep in IH. destruct IH as (o2 & O2 & A2 & B2); [done|by apply node_step_wf|lia|lia|].
  exists (o1 ++ o2). split_and!; [by rewrite O2, O1, (assoc_L (++))| |done].
  rewrite answers_of_app, <- app_assoc, A2, kept_app. cbn [mbind list_bind].
  trans ((answers o1 ++ waits (node_step e n) ++ kept (calls o1)) ++ mbind asked es ++ kept fl1); [solve_Permutation|].
  rewrite A1, Hfl, kept_app. solve_Permutation.
Qed.

(** What is still kept once nothing is under way. *)
Lemma backed_nothing n : backed [] n -> waits n = [].
Proof.
  intros [P Q]. unfold waits.
  assert (E : n_pending_submits n = ∅).
  { apply map_eq. intros id. rewrite lookup_empty. destruct (_ !! id) as [ps|] eqn:E; [|done].
    destruct (P _ _ E) as [H _]. change (number _ []) with 0 in H. lia. }
  rewrite E. unfold pending_waiters. rewrite map_to_list_empty. simpl.
  assert (HF : Forall (fun st => quorum_waiter st = None) (n_quorums n)).
  { apply Forall_lookup. intros q st Hq. unfold quorum_waiter. destruct (q_fired st) eqn:Hf; [done|].
    pose proof (Q _ _ Hq Hf) as H. change (number _ []) with 0 in H. lia. }
  revert HF. generalize (n_quorums n). intros l HF. unfold quorum_waiters.
  induction HF as [|st l H _ IH]; [done|]. csimpl. rewrite H. exact IH.
Qed.
(** ** The first state *)

Definition nothing_waits n : Prop := n_pending_submits n = ∅ /\ n_quorums n = [].

Lemma open_ledger n :
  nothing_waits n -> n_out n = [] -> answers (n_out (node_open n)) ++ waits (node_open n) = [] /\
    kept (calls (n_out (node_open n))) = [] /\ backed (calls (n_out (node_open n))) (node_open n) /\
    n_next_job_seq (node_open n) = n_next_job_seq n.
Proof.
  intros [Ep Eq] Eo. destruct (moves_open n) as (os & [O Q] & A & B). rewrite Eo in O. simpl in O. rewrite O.
  assert (Hw : waits n = []) by (unfold waits; rewrite Ep, Eq; unfold pending_waiters; by rewrite map_to_list_empty).
  rewrite Hw in A. simpl in A. rewrite app_nil_r in A. apply Permutation_nil_r in A.
  apply app_eq_nil in A as [Ha A]. apply app_eq_nil in A as [Hn Hk]. rewrite Ha, Hn. split_and!; [done|done| |done].
  specialize (B []). rewrite !app_nil_r in B. apply B. split.
  - intros id ps. by rewrite Ep, lookup_empty.
  - intros q st. by rewrite Eq.
Qed.
End ledger.
