(* ===== verification/DurableNode.v ===== *)
(** * DurableNode: the queue node over its durable store

    Composition of QueueNode with Store: the node of src/src/queue_node.cc whose
    [store_] is the JobStore of src/src/store.cc over the log of src/src/wal.cc on
    a disk that may crash.  Every record a node commits is well formed and keeps
    the keys of jobs pinned, which is what the store's recovery theorem asks; so a
    crash of the machine at any point and a reopening give the node its table back. *)

From Stdlib Require Import ZArith Lia.
From stdpp Require Import base tactics list numbers gmap relations.
From S2P Require Import Prelude Bytes Wire Records Table Disk Wal WalRecovery WalSpec Store StoreApi Ring.
From S2P Require Import NodeState QueueNode NodeCodec NodeSteps NodeRules NodeSafety.

(** ** The store a node is opened with *)

(** The store, the answers of the system calls of its next commits (none: they all
    succeed), and, for the theorems, the history of what was asked of it. *)
Record DurableStore (crc32c : bytes -> Z) := mkDurable {
  d_store : JobStore; d_io : list (list Io); d_trace : list StoreEvent
}.
Arguments mkDurable {crc32c} _ _ _.
Arguments d_store {crc32c} _.
Arguments d_io {crc32c} _.
Arguments d_trace {crc32c} _.

(** [commit] with its default argument, [sync = true]: how the node calls it. *)
Definition synced_commit crc32c (r : Rec) (d : DurableStore crc32c) : bool * DurableStore crc32c :=
  let '(ok, st) := commit crc32c r true (with_io (default [] (head (d_io d))) (d_store d)) in
  (ok, mkDurable st (tail (d_io d)) (d_trace d ++ [Committed r ok])).

#[global] Instance durable_ops crc32c : StoreOps (DurableStore crc32c) := {
  st_table d := s_table (d_store d);
  st_commit := synced_commit crc32c
}.

#[global] Instance durable_laws crc32c : StoreLaws (DurableStore crc32c).
Proof.
  split; intros r d d'; simpl; unfold synced_commit; destruct (commit _ _ _ _) as [ok st] eqn:E; intros [= -> <-];
    apply commit_table in E; exact E.
Qed.

(** ** Committed records are well formed *)

(** Widths of what a node is configured with and sees. *)
Record config_wf (c : NodeConfig) : Prop := {
  cw_self : endpoint_wf (self c);
  cw_vis : fits 32 (default_visibility_ms c);
  cw_att : fits 32 (default_max_attempts c)
}.

Lemma no_endpoint_wf : endpoint_wf no_endpoint.
Proof. by apply (bool_decide_unpack _). Qed.

Lemma default_endpoint_wf l i : Forall endpoint_wf l -> endpoint_wf (default no_endpoint (l !! i)).
Proof.
  intros H. destruct (l !! i) as [e|] eqn:E; simpl; [|exact no_endpoint_wf].
  by eapply Forall_lookup_1.
Qed.

Lemma lor_fits w a b : 0 <= w -> fits w a -> fits w b -> fits w (Z.lor a b).
Proof.
  unfold fits. intros Hw [Ha Ha'] [Hb Hb'].
  destruct (Z.eq_dec a 0) as [->|Hza]; [by rewrite Z.lor_0_l|].
  destruct (Z.eq_dec b 0) as [->|Hzb]; [by rewrite Z.lor_0_r|].
  split; [by apply Z.lor_nonneg|]. apply Z.log2_lt_cancel. rewrite Z.log2_lor, Z.log2_pow2 by done.
  apply Z.max_lub_lt; apply Z.log2_lt_pow2; lia.
Qed.

Section widths.
Context {S M : Type} `{!StoreOps S} `{!StoreLaws S} `{!Membership M}.
Implicit Types n : Node S M.

(** What a node must have been given. *)
Record env_wf n : Prop := {
  ew_cfg : config_wf (n_cfg n);
  ew_alive : Forall endpoint_wf (alive (n_mem n))
}.

Lemma choose_replicas_wf n key : env_wf n -> Forall endpoint_wf (replica_list (choose_replicas n key)).
Proof.
  intros [[Hs _ _] Ha]. unfold choose_replicas. case_decide.
  - rewrite replica_set_walk.
    assert (Hw : Forall endpoint_wf (walk key (alive (n_mem n)))) by (by rewrite walk_perm).
    cbn [fmap list_fmap]. rewrite !Forall_cons.
    split_and!; [by apply default_endpoint_wf..|constructor].
  - assert (Ho : Forall endpoint_wf (take 2 (filter (fun e => e <> me n) (alive (n_mem n)))))
      by (apply Forall_take; rewrite Forall_forall in Ha |- *; intros e [_ ?]%list_elem_of_filter; auto).
    unfold replica_list. cbn [rep0 rep1 rep2]. rewrite !Forall_cons.
    split_and!; [exact Hs|by apply default_endpoint_wf..|constructor].
Qed.

Definition params_fit (p : SubmitParams) : Prop :=
  ((length (p_idem_key p) <= kMaxIdemKey)%nat /\ (length (p_url p) <= kMaxUrl)%nat /\
   (length (p_body p) <= kMaxJobBody)%nat) /\
  fits 32 (p_visibility_ms p) /\ fits 32 (p_max_attempts p).

Lemma fresh_job_wf n p : node_wf n -> env_wf n -> params_fit p -> job_wf (fresh_job n p).
Proof.
  intros [_ _ Hq] He ((Hk & Hu & Hb) & Hv & Ha). pose proof (choose_replicas_wf n (p_idem_key p) He) as Hr.
  destruct He as [[Hs Hdv Hda] _].
  unfold replica_list in Hr. rewrite !Forall_cons in Hr. destruct Hr as (R0 & R1 & R2 & _).
  assert (H32 : fits 32 1) by (unfold fits; lia). assert (H0 : fits 32 0) by (unfold fits; lia).
  unfold fresh_job. constructor; simpl; try done; try (case_match; done).
  split; simpl.
  - change (me n) with (self (n_cfg n)). rewrite ekey_arith by exact Hs.
    destruct Hs as [Hs1 Hs2]. unfold fits in *. lia.
  - apply lor_fits; [lia|apply wrap_fits; lia|]. by apply (fits_weaken 32).
Qed.
End widths.

Lemma decode_params_fit b p : decode_params b = Val p -> params_fit p.
Proof.
  unfold decode_params. intros H. inv_val H. destruct v as [key o1]. inv_val H.
  destruct v as [url o2]. inv_val H. injection H as <-.
  apply get_str_inv in E as (_ & ? & _). apply get_str_inv in E0 as (_ & ? & _).
  apply orb_false_iff in G0 as [Gm%Nat.ltb_ge _]. apply slice_inv in E2 as (_ & Hn & _).
  apply get_u32_inv in E3 as (_ & ? & _). apply get_u32_inv in E4 as (_ & ? & _).
  unfold params_fit. simpl. split_and!; try done. lia.
Qed.

(** What the jobs brought by one event must satisfy. *)
Section records.
Context (mint copy : Job -> Prop) (src : option Endpoint).

Definition brought (c : Job) : Prop := mint c \/ copy c.

Record bringing : Prop := {
  br_wf : forall c, brought c -> job_wf c;
  br_key : forall c c', brought c -> brought c' -> j_id c = j_id c' -> j_idem_key c = j_idem_key c';
  br_src : forall f, src = Some f -> endpoint_wf f
}.

Lemma rule_rec_wf m t r :
  bringing -> table_wf t -> endpoint_wf m -> commit_rule mint copy src m t r -> rec_wf r.
Proof.
  intros [Hb _ Hs] Ht Hm. unfold brought in Hb.
  assert (Hid : forall id j, find t id = Some j -> job_id_wf id /\ fits 32 (j_epoch j) /\ fits 32 (j_lease_seq j)).
  { intros id j Hj. pose proof (tw_job _ Ht _ _ Hj) as Hw. rewrite <- (tw_id _ Ht _ _ Hj) at 1.
    split_and!; apply Hw. }
  assert (H0 : fits 64 0) by (unfold fits; lia).
  assert (H32 : forall z, fits 32 (u32 z)) by (intros; apply wrap_fits; lia).
  intros [Ha|(f & Ef & Hr)].
  - destruct Ha as [j Hj|id j w Hj|id j q Hj _ _ Hq|id j q Hj _ Hq|id j Hj|id j Hj|id j Hj|c j Hj];
      simpl; auto; destruct (Hid _ _ Hj) as (? & ? & ?); split_and!; auto; destruct Hq; subst; done.
  - specialize (Hs f Ef). destruct Hr as [r id e j _ _ _ _ Hr|c Hc|id e j Hj]; simpl; auto.
    destruct (Hid _ _ Hj) as (? & ? & ?). by split_and!.
Qed.

(** Where the jobs of a table reached within the event come from. *)
Definition sourced (t0 t : Table) : Prop := forall id j, find t id = Some j ->
  (exists j0, find t0 id = Some j0 /\ j_idem_key j0 = j_idem_key j) \/
  (exists c, brought c /\ j_id c = id /\ j_idem_key c = j_idem_key j).

(** Keys are pinned at submission: a job brought under a known id has its key. *)
Definition keys_pinned (t0 : Table) : Prop := forall c j,
  brought c -> find t0 (j_id c) = Some j -> j_idem_key j = j_idem_key c.

Lemma rule_copy m t r c : commit_rule mint copy src m t r -> rec_copy r = Some c -> brought c.
Proof.
  intros [Ha|(f & _ & Hr)]; [destruct Ha|destruct Hr]; simpl; intros E; simplify_eq;
    try (by left); try (by right). destruct r; simplify_eq/=.
Qed.

Lemma rule_key_agrees m t0 t r :
  bringing -> keys_pinned t0 -> sourced t0 t -> commit_rule mint copy src m t r -> key_agrees t r.
Proof.
  intros Hb Hp Hs Hr c j Hc Hj. pose proof (rule_copy _ _ _ _ Hr Hc) as Hbc.
  destruct (Hs _ _ Hj) as [(j0 & Hj0 & <-)|(c' & Hc' & E & <-)]; [by apply Hp|].
  by apply (br_key Hb).
Qed.

Lemma sourced_apply m t0 t r :
  sourced t0 t -> commit_rule mint copy src m t r -> key_agrees t r -> sourced t0 (apply t r).
Proof.
  intros Hs Hr Hk id j'. rewrite apply_find. case_decide as E; [|apply Hs]. subst id.
  destruct (find t (rec_job r)) as [j|] eqn:Ej.
  - intros [= <-]. specialize (Hs _ _ Ej).
    rewrite (apply_job_key t) by done. exact Hs.
  - intros Hc. right. exists j'. split; [by eapply rule_copy|]. split; [|done]. destruct r; naive_solver.
Qed.

(** A submission is of an id the table does not have. *)
Lemma submit_is_new m t s :
  table_wf t -> indexed t -> key_agrees t (SubmitRec s) ->
  commit_rule mint copy src m t (SubmitRec s) -> find t (j_id s) = None.
Proof.
  intros Ht Hi Hk Hr. destruct (find t (j_id s)) as [j|] eqn:Ej; [|done]. exfalso.
  assert (Hn : find_by_idem t (j_idem_key s) = None).
  { destruct Hr as [Ha|(f & _ & Hr)]; [by inversion Ha|]. inversion Hr; simplify_eq/=. }
  destruct (ix_job _ Hi _ _ Ej) as [id Hid]. rewrite (Hk s j eq_refl Ej) in Hid.
  unfold find_by_idem in Hn. rewrite Hid in Hn. destruct (tw_index _ Ht _ _ Hid). congruence.
Qed.
End records.

(** ** The durable node *)

(** The record a restart may find although its commit was refused: the first
    refused one since the store was opened, for the log stops there. *)
Definition doubt_step (d : option Rec) (ev : StoreEvent) : option Rec :=
  match ev with
  | Committed r false => Some (default r d)
  | Restarted => None
  | _ => d
  end.

Definition in_doubt (tr : list StoreEvent) : option Rec := foldl doubt_step None tr.

Lemma in_doubt_snoc tr ev : in_doubt (tr ++ [ev]) = doubt_step (in_doubt tr) ev.
Proof. unfold in_doubt. by rewrite foldl_app. Qed.

Lemma accounts_doubt tr rs d : accounts tr rs d -> d = in_doubt tr.
Proof.
  induction 1; rewrite ?in_doubt_snoc; simpl; try done;
    repeat match goal with H : _ = in_doubt _ |- _ => rewrite <- H end; done.
Qed.

Definition epochs_le (t t' : Table) : Prop := forall id j, find t id = Some j ->
  exists j', find t' id = Some j' /\ j_epoch j <= j_epoch j'.

#[global] Instance epochs_le_preorder : PreOrder epochs_le.
Proof.
  split.
  - intros t id j Hj. by exists j.
  - intros t1 t2 t3 H1 H2 id j Hj. destruct (H1 _ _ Hj) as (j2 & Hj2 & ?).
    destruct (H2 _ _ Hj2) as (j3 & ? & ?). exists j3. split; [done|lia].
Qed.

Lemma apply_epochs_le t r :
  (forall s, r = SubmitRec s -> find t (j_id s) = None) -> epochs_le t (apply t r).
Proof.
  intros Hs id j Hj. rewrite (apply_find_Some _ _ _ _ Hj). eexists. split; [done|].
  case_decide as E; [|done]. apply apply_job_epoch. intros s ->. simpl in E. subst id.
  specialize (Hs s eq_refl). congruence.
Qed.

Section durable.
Context (crc32c : bytes -> Z) (crc_fits : forall b, fits 32 (crc32c b)).
Context {M : Type} `{!Membership M}.
Local Abbreviation DNode := (Node (DurableStore crc32c) M).
Implicit Types (n : DNode) (e : Event M).

Definition trace n : list StoreEvent := d_trace (n_store n).
Definition store_of n : JobStore := d_store (n_store n).
Definition disk_of n : Disk := w_disk (s_wal (store_of n)).

(** The log numbers its records with 64 bits. *)
Definition small n : Prop := Z.of_nat (length (trace n)) < 2 ^ 64 - 1.

Record durable_inv n : Prop := {
  di_run : exists k, store_run crc32c (trace n) k (store_of n) /\ (k <= length (trace n))%nat;
  di_node : node_wf n;
  di_env : env_wf n;
  di_wf : table_wf (table n);
  di_doubt : forall s, in_doubt (trace n) = Some (SubmitRec s) -> find (table n) (j_id s) = None
}.

Lemma durable_store_inv n :
  durable_inv n -> small n -> exists rs, accounts (trace n) rs (in_doubt (trace n)) /\
    store_inv crc32c rs (in_doubt (trace n)) (length (trace n)) (store_of n).
Proof.
  intros [(k & Hr & Hk) _ _ _ _] Hn. unfold small in Hn.
  destruct (store_run_inv crc32c crc_fits _ _ _ Hr) as (rs & d & Ha & Hi); [lia|].
  exists rs. rewrite <- (accounts_doubt _ _ _ Ha). split; [done|].
  destruct Hi as [Ht Hw Hx Hd Hl Hc]. constructor; try done.
  - intros Hf. destruct (Hl Hf) as (log & ? & ? & ?). exists log. split_and!; [done|lia|done].
  - intros kd Hk'. destruct (Hc kd Hk') as (log & ? & ? & ?). exists log. split_and!; [done|lia|done].
Qed.

Section event.
Context (mint copy : Job -> Prop) (src : option Endpoint) (O : Endpoint -> Table -> Out -> Prop) (t0 : Table).
Hypothesis Hbring : bringing mint copy src.
Hypothesis Hpinned : keys_pinned mint copy t0.

Lemma durable_commit r ok n n' :
  durable_inv n -> small n' -> sourced mint copy t0 (table n) ->
  commit_rule mint copy src (me n) (table n) r -> commit_rec r n = (ok, n') ->
  durable_inv n' /\ sourced mint copy t0 (table n') /\ epochs_le (table n) (table n').
Proof.
  intros Hi Hn Hs Hr E. destruct (commit_rec_spec _ _ _ _ E) as [En Et].
  unfold commit_rec in E. simpl in E. unfold synced_commit in E. set (io := default [] (head (d_io (n_store n)))) in E.
  destruct (commit crc32c r true (with_io io (d_store (n_store n)))) as [ok' st] eqn:Ec.
  injection E as -> E. assert (Etr : trace n' = trace n ++ [Committed r ok]) by (by rewrite <- E).
  assert (Est : store_of n' = st) by (by rewrite <- E).
  assert (Hn0 : small n) by (unfold small in *; rewrite Etr, length_app in Hn; simpl in Hn; lia).
  destruct (durable_store_inv n Hi Hn0) as (rs & _ & Hsi). destruct Hi as [(k & Hrun & Hk) Hw He Hwf Hd].
  pose proof (rule_key_agrees _ _ _ _ _ _ _ Hbring Hpinned Hs Hr) as Hka.
  assert (Hrw : rec_wf r) by (eapply rule_rec_wf; [exact Hbring|exact Hwf|apply He|exact Hr]).
  assert (Hnew : forall s, r = SubmitRec s -> find (table n) (j_id s) = None).
  { intros s ->. eapply submit_is_new; [exact Hwf|apply Hsi|exact Hka|exact Hr]. }
  assert (Hcase : if ok then in_doubt (trace n) = None else True).
  { destruct ok; [|done].
    apply (commit_inv crc32c _ _ _ _ _ _ _ _ Hsi Hrw Hka) in Ec; [by destruct Ec|].
    unfold small in *. rewrite Etr, length_app in Hn. simpl in Hn. lia. }
  split; [|split].
  - constructor.
    + exists (Datatypes.S k). rewrite Etr, Est, length_app. split; [|simpl; lia].
      eapply run_commit; [exact Hrun|done|exact Hka|]. exact Ec.
    + eapply (evolves_wf (fun _ _ _ => True) (fun _ _ _ => True)); [|exact Hw].
      eapply (ev_commit _ _ r ok); [done|]. unfold commit_rec. simpl. unfold synced_commit. fold io. rewrite Ec. by rewrite <- E.
    + rewrite En. by destruct He.
    + rewrite Et. destruct ok; [by apply apply_table_wf|done].
    + intros s. rewrite Etr, in_doubt_snoc, Et. destruct ok; simpl; [by rewrite Hcase|].
      destruct (in_doubt (trace n)) as [r0|] eqn:Ed; simpl; [auto|]. intros [= ->]. by apply Hnew.
  - rewrite Et. destruct ok; [by eapply sourced_apply|done].
  - rewrite Et. destruct ok; [by apply apply_epochs_le|reflexivity].
Qed.

Lemma evolves_trace C n n' : evolves C O n n' -> (length (trace n) <= length (trace n'))%nat.
Proof.
  induction 1 as [n n' []|r ok n n' _ E|o n _|n1 n2 n3 _ IH1 _ IH2]; [|..|done|lia].
  - unfold trace. by rewrite ls_store.
  - unfold commit_rec in E. simpl in E. unfold synced_commit in E. destruct (commit _ _ _ _) as [? ?]. injection E as <- <-.
    unfold trace. simpl. rewrite length_app. lia.
Qed.

Lemma durable_evolves n n' :
  evolves (commit_rule mint copy src) O n n' -> small n' ->
  durable_inv n -> sourced mint copy t0 (table n) ->
  durable_inv n' /\ sourced mint copy t0 (table n') /\ epochs_le (table n) (table n').
Proof.
  induction 1 as [n n' Hl|r ok n n' HC HE|o n _|n1 n2 n3 H1 IH1 H2 IH2]; intros Hn Hi Hs.
  - assert (Hw : node_wf n') by (eapply (evolves_wf (fun _ _ _ => True) (fun _ _ _ => True)); [|apply Hi]; by apply ev_local).
    destruct Hl as [Hc Hm _ _ Hst _ _ _]. destruct Hi as [Hr _ [He Ha] Hwf Hd].
    unfold trace, store_of, table in *. rewrite <- Hst in Hr, Hwf, Hd, Hs. split; [|split; [exact Hs|]].
    + constructor; try done. constructor; [by rewrite Hc|by rewrite Hm].
    + unfold table. by rewrite Hst.
  - by eapply durable_commit.
  - split; [|done]. destruct Hi as [Hr [? ? ?] [? ?] Hwf Hd]. done.
  - assert (Hn2 : small n2) by (apply evolves_trace in H2; unfold small in *; lia).
    destruct (IH1 Hn2 Hi Hs) as (Hi2 & Hs2 & He2). destruct (IH2 Hn Hi2 Hs2) as (Hi3 & Hs3 & He3).
    split_and!; [done|done|]. by etrans.
Qed.
End event.

(** ** Events, system calls that fail, crashes and restarts *)

(** Widths of what an event carries: the addresses of peers, the integers of a
    submission, which the HTTP and RPC layers read at their C++ widths. *)
Definition event_widths e : Prop :=
  match e with
  | EvRequest ctx _ => endpoint_wf (from ctx)
  | EvSubmit p _ => fits 32 (p_visibility_ms p) /\ fits 32 (p_max_attempts p)
  | EvEnv mem _ _ => Forall endpoint_wf (alive mem)
  | _ => True
  end.

Definition event_wf e n : Prop :=
  event_widths e /\ keys_pinned (mints e n) (delivers e) (table n).

Lemma mints_fit e n c : event_widths e -> mints e n c -> exists p, params_fit p /\ c = fresh_job n p.
Proof.
  destruct e as [ctx body| |p cb| | | | | | | | ]; simpl; try done.
  - intros _ (_ & p & Hp & ->). exists p. split; [by eapply decode_params_fit|done].
  - intros [Hv Ha] [Hp ->]. exists p. split; [|done]. split; [by apply params_budgets|done].
Qed.

Lemma delivers_job e c : delivers e c -> exists b off, get_job b 0 = Val (c, off).
Proof.
  destruct e; simpl; try done; [intros (_ & off & H)|intros (id & off & _ & _ & H)]; eauto.
Qed.

Lemma event_bringing e n :
  node_wf n -> env_wf n -> event_widths e -> bringing (mints e n) (delivers e) (event_source e).
Proof.
  intros Hw He Hf. constructor.
  - intros c [Hm|Hd].
    + destruct (mints_fit e n c Hf Hm) as (p & Hp & ->). by apply fresh_job_wf.
    + destruct (delivers_job e c Hd) as (b & off & H). by apply get_job_inv in H as (_ & ? & _).
  - intros c c' Hc Hc' _. destruct e as [ctx body|k code resp|p cb| | | | | | | | ]; simpl in *;
      destruct Hc as [Hc|Hc], Hc' as [Hc'|Hc']; try done.
    + destruct Hc as (_ & p & Hp & ->), Hc' as (_ & p' & Hp' & ->). congruence.
    + destruct Hc as (? & _), Hc' as (? & _). congruence.
    + destruct Hc as (? & _), Hc' as (? & _). congruence.
    + destruct Hc as (_ & o & H), Hc' as (_ & o' & H'). congruence.
    + destruct Hc as (? & ? & _ & _ & H), Hc' as (? & ? & _ & _ & H'). congruence.
    + destruct Hc as (_ & ->), Hc' as (_ & ->). done.
  - destruct e; simpl; try done. intros f [= <-]. exact Hf.
Qed.

Lemma sourced_refl mint copy t : sourced mint copy t t.
Proof. intros id j Hj. left. eauto. Qed.

Lemma durable_event e n :
  durable_inv n -> event_wf e n -> small (node_step e n) ->
  durable_inv (node_step e n) /\ epochs_le (table n) (table (node_step e n)).
Proof.
  intros Hi [Hf Hp] Hn. destruct (env_or_not e) as [(mem & now & busy & ->)|He].
  - split; [|reflexivity]. destruct Hi as [Hr [? ? ?] [? ?] Hwf Hd]. done.
  - pose proof (event_bringing e n (di_node _ Hi) (di_env _ Hi) Hf) as Hb.
    destruct (durable_evolves _ _ _ (grant_rule (may_grant e n) (may_drain e)) (table n) Hb Hp n (node_step e n))
      as (? & _ & ?); auto using sourced_refl.
    apply node_step_steps; [exact He|apply Hi].
Qed.

(** [open] of the node: a fresh node over the reopened store. *)
Definition opened (mem : M) (cfg : NodeConfig) (now boot : Z) (busy : list bool)
    (d : DurableStore crc32c) : DNode :=
  node_open (set_env mem now busy (new_node mem cfg d boot)).

Inductive durable_start : DNode -> Prop :=
  | start_node io sb st mem cfg now boot busy ios :
      store_open crc32c empty_disk io sb = (true, st) ->
      config_wf cfg -> Forall endpoint_wf (alive mem) ->
      durable_start (opened mem cfg now boot busy (mkDurable st ios [])).

(** A crash of the machine strikes between events, or inside one: then the rest of its
    system calls fail first.  A process may also end, killed or not, while its log is
    healthy, and start again over the disk as it is. *)
Inductive durable_step : DNode -> DNode -> Prop :=
  | ds_event e n : event_wf e n -> durable_step n (node_step e n)
  | ds_io ios n : durable_step n (set_store (mkDurable (store_of n) ios (trace n)) n)
  | ds_restart k io sb st mem now boot busy ios n :
      crash_disk (disk_of n) k -> store_open crc32c k io sb = (true, st) ->
      Forall endpoint_wf (alive mem) ->
      durable_step n (opened mem (n_cfg n) now boot busy (mkDurable st ios (trace n ++ [Restarted])))
  | ds_reopen io sb st mem now boot busy ios n :
      w_failed (s_wal (store_of n)) = false -> store_open crc32c (disk_of n) io sb = (true, st) ->
      Forall endpoint_wf (alive mem) ->
      durable_step n (opened mem (n_cfg n) now boot busy (mkDurable st ios (trace n ++ [Restarted]))).

Lemma opened_inv mem cfg now boot busy st ios tr k :
  store_run crc32c tr k st -> (k <= length tr)%nat -> in_doubt tr = None -> table_wf (s_table st) ->
  config_wf cfg -> Forall endpoint_wf (alive mem) ->
  small (opened mem cfg now boot busy (mkDurable st ios tr)) ->
  durable_inv (opened mem cfg now boot busy (mkDurable st ios tr)) /\
  epochs_le (s_table st) (table (opened mem cfg now boot busy (mkDurable st ios tr))).
Proof.
  intros Hr Hk Hd Ht Hc Hm Hn. unfold opened in *.
  set (n := set_env mem now busy (new_node mem cfg (mkDurable st ios tr) boot)) in *.
  assert (Hw : node_wf n).
  { split; [constructor| |by apply (bool_decide_unpack _)]. intros id j. apply (tw_id _ Ht). }
  assert (Hi : durable_inv n).
  { constructor; try done; [by exists k|]. intros s Hs. unfold trace in Hs. simpl in Hs. congruence. }
  destruct (durable_evolves (fun _ => False) (fun _ => False) None (grant_rule False False) (table n))
    with (n := n) (n' := node_open n) as (? & _ & ?); auto using sourced_refl.
  - constructor; [by intros c [[]|[]]|by intros c c' [[]|[]]|done].
  - by intros c j [[]|[]].
  - apply (node_open_steps (fun _ => False) (fun _ => False)); [intros; by left|exact Hw].
Qed.

Lemma start_inv n : durable_start n -> small n -> durable_inv n.
Proof.
  intros [io sb st mem cfg now boot busy ios E Hc Hm] Hn.
  apply (opened_inv mem cfg now boot busy st ios [] 0); try done; [by eapply run_open|].
  destruct (store_run_inv crc32c crc_fits [] 0 st) as (rs & d & _ & Hi); [by eapply run_open|lia|].
  apply Hi.
Qed.

Lemma store_reopens n k sb io st :
  durable_inv n -> small n -> crash_disk (disk_of n) k -> store_open crc32c k io sb = (true, st) ->
  s_table st = table n \/ exists r, in_doubt (trace n) = Some r /\ s_table st = apply (table n) r.
Proof.
  intros Hi Hn Hk E. destruct (durable_store_inv n Hi Hn) as (rs & _ & Hs).
  destruct (si_crash _ _ _ _ _ Hs k Hk) as (log & Hh & Hl & Ht).
  destruct (disk_holds_open crc32c crc_fits k log io sb Hh) as (ok & seen & w & Eo & _ & Hok);
    [unfold small in Hn; lia|].
  unfold store_open in E. rewrite Eo in E. injection E as -> <-. destruct (Hok eq_refl) as [-> _].
  exact Ht.
Qed.

(** A process that ends with a healthy log finds its table again. *)
Lemma process_restart_table n io sb st :
  durable_inv n -> small n -> w_failed (s_wal (store_of n)) = false ->
  store_open crc32c (disk_of n) io sb = (true, st) -> s_table st = table n.
Proof.
  intros Hi Hn Hf E. destruct (durable_store_inv n Hi Hn) as (rs & _ & Hs).
  pose proof (si_table _ _ _ _ _ Hs) as Ht. unfold table. simpl. fold (store_of n). rewrite Ht.
  apply (store_reopen_inv crc32c crc_fits _ _ _ _ _ _ _ Hs Hf) in E; [apply E|].
  unfold small in Hn. lia.
Qed.

Lemma process_restart_succeeds n sb :
  durable_inv n -> small n -> w_failed (s_wal (store_of n)) = false ->
  exists st, store_open crc32c (disk_of n) [] sb = (true, st).
Proof.
  intros Hi Hn Hf. destruct (durable_store_inv n Hi Hn) as (rs & _ & Hs).
  destruct (si_live _ _ _ _ _ Hs Hf) as (log & Hw & Hlen & _).
  destruct (wal_ok_reopen crc32c crc_fits (s_wal (store_of n)) log (length log) [] sb Hw Hf)
    as (ok & seen & w & Eo & Hok & _); [unfold small in Hn; lia|].
  unfold store_open, disk_of. rewrite Eo, (Hok eq_refl). eauto.
Qed.

Lemma store_reopen_succeeds n k sb :
  durable_inv n -> small n -> crash_disk (disk_of n) k -> exists st, store_open crc32c k [] sb = (true, st).
Proof.
  intros Hi Hn Hk. destruct (durable_store_inv n Hi Hn) as (rs & _ & Hs).
  destruct (si_crash _ _ _ _ _ Hs k Hk) as (log & Hh & Hl & Ht).
  destruct (disk_holds_open crc32c crc_fits k log [] sb Hh) as (ok & seen & w & Eo & Hok & _);
    [unfold small in Hn; lia|].
  unfold store_open. rewrite Eo, (Hok eq_refl). eauto.
Qed.

Lemma doubt_epochs_le n r : durable_inv n -> in_doubt (trace n) = Some r -> epochs_le (table n) (apply (table n) r).
Proof. intros Hi Hd. apply apply_epochs_le. intros s ->. by apply (di_doubt _ Hi). Qed.

(** ** Runs *)

Lemma replay_ids_ok bodies : ids_ok (replay bodies).
Proof.
  unfold replay. assert (H : ids_ok empty_table)
    by (intros id j Hj; unfold find in Hj; simpl in Hj; by rewrite lookup_empty in Hj).
  revert H. generalize empty_table. induction bodies as [|b bodies IH]; intros t Ht; [done|].
  simpl. apply IH. unfold replay_one. repeat case_match; [|done..]. by apply apply_ids_ok.
Qed.

Lemma store_open_ids_ok k io sb ok st : store_open crc32c k io sb = (ok, st) -> ids_ok (s_table st).
Proof.
  unfold store_open. destruct (open _ _) as [[ok' seen] w]. intros [= <- <-]. apply replay_ids_ok.
Qed.

Lemma opened_wf mem cfg now boot busy d :
  ids_ok (s_table (d_store d)) ->
  node_wf (opened mem cfg now boot busy d) /\
  (length (d_trace d) <= length (trace (opened mem cfg now boot busy d)))%nat.
Proof.
  intros Hid. unfold opened. set (n := set_env _ _ _ _).
  assert (Hw : node_wf n) by (split; [constructor|exact Hid|by apply (bool_decide_unpack _)]).
  assert (He : evolves (fun _ _ _ => True) (grant_rule False False) n (node_open n))
    by (by apply (node_open_steps (fun _ => False) (fun _ => False))).
  split; [by eapply evolves_wf|]. by apply evolves_trace in He.
Qed.

Lemma restarted_wf k io sb ok st mem cfg now boot busy ios tr :
  store_open crc32c k io sb = (ok, st) ->
  node_wf (opened mem cfg now boot busy (mkDurable st ios (tr ++ [Restarted]))) /\
  (length tr <= length (trace (opened mem cfg now boot busy (mkDurable st ios (tr ++ [Restarted])))))%nat.
Proof.
  intros E. apply store_open_ids_ok in E.
  destruct (opened_wf mem cfg now boot busy (mkDurable st ios (tr ++ [Restarted])) E) as [? Hl].
  split; [done|]. simpl in Hl. rewrite length_app in Hl. lia.
Qed.

Lemma durable_step_wf n n' :
  durable_step n n' -> node_wf n -> node_wf n' /\ (length (trace n) <= length (trace n'))%nat.
Proof.
  intros [e n0 He|ios n0|k io sb st mem now boot busy ios n0 _ E _|io sb st mem now boot busy ios n0 _ E _] Hw.
  - split; [by apply node_step_wf|]. destruct (env_or_not e) as [(? & ? & ? & ->)|Hne]; [done|].
    eapply evolves_trace. by apply node_step_steps.
  - split; [|done]. by destruct Hw.
  - by apply restarted_wf with (1 := E).
  - by apply restarted_wf with (1 := E).
Qed.

Lemma restarted_inv n k st mem now boot busy ios :
  let n' := opened mem (n_cfg n) now boot busy (mkDurable st ios (trace n ++ [Restarted])) in
  durable_inv n -> small n -> store_run crc32c (trace n ++ [Restarted]) k st ->
  (k <= length (trace n))%nat -> Forall endpoint_wf (alive mem) -> small n' ->
  epochs_le (table n) (s_table st) -> durable_inv n' /\ epochs_le (table n) (table n').
Proof.
  intros n' Hi Hn0 Hr Hk Hm Hn He.
  assert (Hwf : table_wf (s_table st)).
  { destruct (store_run_inv crc32c crc_fits _ _ _ Hr) as (rs & d & _ & Hs); [unfold small in Hn0; lia|].
    apply Hs. }
  destruct (opened_inv mem (n_cfg n) now boot busy st ios (trace n ++ [Restarted]) k) as [? He'];
    try done; [rewrite length_app; lia|by rewrite in_doubt_snoc|apply (di_env _ Hi)|].
  split; [done|]. by etrans.
Qed.

Lemma durable_step_inv n n' :
  durable_step n n' -> durable_inv n -> small n' -> durable_inv n' /\ epochs_le (table n) (table n').
Proof.
  intros Hstep Hi Hn. pose proof (durable_step_wf _ _ Hstep (di_node _ Hi)) as [_ Hl].
  assert (Hn0 : small n) by (unfold small in *; lia). clear Hl.
  destruct Hstep as [e n He|ios n|k io sb st mem now boot busy ios n Hk E Hm|
    io sb st mem now boot busy ios n Hf E Hm]; destruct (di_run _ Hi) as (kn & Hr & Hkn).
  - by apply durable_event.
  - split; [|reflexivity]. destruct Hi as [_ [? ? ?] [? ?] Hwf Hd]. constructor; try done. by exists kn.
  - eapply restarted_inv; try done; [by eapply run_restart|].
    destruct (store_reopens _ _ _ _ _ Hi Hn0 Hk E) as [->|(r & Hd & ->)]; [reflexivity|].
    by apply doubt_epochs_le.
  - eapply restarted_inv; try done; [by eapply run_reopen|].
    rewrite (process_restart_table n _ _ _ Hi Hn0 Hf E). reflexivity.
Qed.

Lemma durable_run_inv n n' :
  rtc durable_step n n' -> node_wf n -> (small n -> durable_inv n) -> small n' ->
  durable_inv n' /\ epochs_le (table n) (table n').
Proof.
  intros Hr Hw Hi. assert (H : node_wf n' /\ (length (trace n) <= length (trace n'))%nat /\
    (small n' -> durable_inv n' /\ epochs_le (table n) (table n'))); [|naive_solver].
  revert n' Hr. apply (rtc_ind_r (fun x => node_wf x /\ (length (trace n) <= length (trace x))%nat /\
    (small x -> durable_inv x /\ epochs_le (table n) (table x))));
    [split_and!; [done|done|]; split; [auto|reflexivity]|].
  intros n1 n2 _ Hs IH. destruct IH as (Hw1 & Hl1 & IH). destruct (durable_step_wf _ _ Hs Hw1) as [Hw2 Hl2].
  split_and!; [done|lia|]. intros Hn. destruct IH as [Hi1 He1]; [unfold small in *; lia|].
  destruct (durable_step_inv _ _ Hs Hi1 Hn) as [? He2]. split; [done|]. by etrans.
Qed.

Lemma start_wf n : durable_start n -> node_wf n.
Proof.
  intros [io sb st mem cfg now boot busy ios E _ _]. apply store_open_ids_ok in E.
  by apply (opened_wf mem cfg now boot busy (mkDurable st ios [])).
Qed.

Definition durable n : Prop := exists n0, durable_start n0 /\ rtc durable_step n0 n.

Lemma durable_holds n : durable n -> small n -> durable_inv n.
Proof.
  intros (n0 & H0 & Hr) Hn.
  by destruct (durable_run_inv n0 n Hr (start_wf _ H0) (start_inv _ H0) Hn).
Qed.

Lemma durable_node_wf n : durable n -> node_wf n.
Proof.
  intros (n0 & H0 & Hr). apply start_wf in H0. induction Hr as [|n1 n2 n3 Hs _ IH]; [done|].
  apply IH. by apply (durable_step_wf _ _ Hs).
Qed.

(** ** A refused commit stops the node *)

Lemma evolves_stopped C O n n' :
  evolves C O n n' -> w_failed (s_wal (store_of n)) = true ->
  w_failed (s_wal (store_of n')) = true /\ table n' = table n.
Proof.
  induction 1 as [n n' []|r ok n n' _ E|o n _|n1 n2 n3 _ IH1 _ IH2]; intros Hf.
  - unfold store_of, table in *. by rewrite ls_store.
  - unfold commit_rec in E. simpl in E. unfold synced_commit in E. unfold commit in E.
    set (w := s_wal (with_io _ _)) in E.
    rewrite (proj1 (failed_stuck crc32c w Hf)) in E. simpl in E. injection E as <- <-. done.
  - done.
  - destruct (IH1 Hf) as [Hf2 Et2]. destruct (IH2 Hf2) as [? Et3]. split; [done|congruence].
Qed.
End durable.

(** ** Properties *)



(** C25: a node stops with its log: once a commit has been refused, no event changes
    the table until the store is reopened. *)
Theorem node_stops_with_its_log (crc32c : bytes -> Z) {M} `{!Membership M}
    (n : Node (DurableStore crc32c) M) (e : Event M) r :
  (forall b, fits 32 (crc32c b)) -> durable crc32c n -> small crc32c n ->
  in_doubt (trace crc32c n) = Some r -> table (node_step e n) = table n.
Proof.
  intros Hf Hd Hn Hr. pose proof (durable_holds crc32c Hf n Hd Hn) as Hi.
  destruct (durable_store_inv crc32c Hf n Hi Hn) as (rs & _ & Hs).
  destruct (si_doubt _ _ _ _ _ Hs r Hr) as (_ & _ & Hfail).
  destruct (env_or_not e) as [(? & ? & ? & ->)|He]; [done|].
  eapply evolves_stopped; [|exact Hfail]. apply node_step_steps; [exact He|apply Hi].
Qed.

(** ** Witnesses *)
Module DurableSample.
Import Sample NodeSample WalSample.

Abbreviation DNode := (Node (DurableStore sum32) StaticMembership).

Definition fresh_store : JobStore := snd (store_open sum32 empty_disk [] 512).
Definition n0 : DNode :=
  opened sum32 members3 (default_config node_a) 0 1 [] (mkDurable fresh_store [] []).
(** A submission, then one whose commit meets a failing sync, then a crash. *)
Definition submit_event (p : SubmitParams) : Event StaticMembership :=
  EvRequest (mkCtx node_b 1 FwdSubmit) (encode_params p).
Definition p1 : SubmitParams := mkParams key1 url1 [Byte.x78] 0 0.
Definition p2 : SubmitParams := mkParams [Byte.x6b] url1 [Byte.x79] 0 0.
Definition n1 : DNode := node_step (submit_event p1) n0.
Definition n2 : DNode :=
  set_store (mkDurable (store_of sum32 n1) [[IoOk; IoFail]] (trace sum32 n1)) n1.
Definition n3 : DNode := node_step (submit_event p2) n2.
Definition st4 : JobStore := snd (store_open sum32 (disk_of sum32 n1) [] 512).
Definition n4 : DNode :=
  opened sum32 members3 (default_config node_a) 5 2 []
    (mkDurable st4 [] (trace sum32 n1 ++ [Restarted])).

Lemma submit_event_wf (n : DNode) p : find_job n (next_id n) = None -> event_wf sum32 (submit_event p) n.
Proof.
  intros Hn. split; [by apply (bool_decide_unpack _); vm_compute|].
  intros c j [(_ & q & _ & ->)|[Hm _]]; [|discriminate Hm].
  change (j_id (fresh_job n q)) with (next_id n). unfold find_job in Hn. unfold table. congruence.
Qed.

Lemma durable_n0 : durable_start sum32 n0.
Proof.
  apply (start_node sum32 [] 512 fresh_store).
  - refine (pair_eta (store_open sum32 empty_disk [] 512) true _). vm_compute. reflexivity.
  - split; by apply (bool_decide_unpack _); vm_compute.
  - by apply (bool_decide_unpack _); vm_compute.
Qed.

Lemma durable_n1 : durable sum32 n1.
Proof.
  exists n0. split; [exact durable_n0|]. apply rtc_once, (ds_event sum32).
  apply submit_event_wf. vm_compute. reflexivity.
Qed.

Lemma durable_n3 : durable sum32 n3.
Proof.
  destruct durable_n1 as (x & Hx & Hr). exists x. split; [exact Hx|].
  eapply rtc_r; [eapply rtc_r; [exact Hr|apply (ds_io sum32 [[IoOk; IoFail]])]|].
  apply (ds_event sum32). apply submit_event_wf. vm_compute. reflexivity.
Qed.

Lemma crash_n1 : crash_disk (disk_of sum32 n1) (disk_of sum32 n1).
Proof.
  apply crash_clean; [..|vm_compute; reflexivity|]; apply (bool_decide_unpack _); vm_compute; exact I.
Qed.

Lemma restart_n4 : durable_step sum32 n1 n4.
Proof.
  apply (ds_restart sum32 (disk_of sum32 n1) [] 512 st4 members3 5 2 [] [] n1).
  - exact crash_n1.
  - unfold st4. refine (pair_eta (store_open sum32 (disk_of sum32 n1) [] 512) true _).
    vm_compute. reflexivity.
  - by apply (bool_decide_unpack _); vm_compute.
Qed.
End DurableSample.



Lemma node_stops_with_its_log_witness :
  table (node_step (EvRequest (mkCtx Sample.node_b 9 FwdSubmit)
    (encode_params (mkParams [Byte.x7a] Sample.url1 [] 0 0))) DurableSample.n3) = table DurableSample.n3.
Proof.
  destruct (in_doubt (trace WalSample.sum32 DurableSample.n3)) as [r|] eqn:E;
    [|vm_compute in E; discriminate E].
  apply (node_stops_with_its_log WalSample.sum32 DurableSample.n3 _ r).
  - exact WalSample.sum32_fits.
  - exact DurableSample.durable_n3.
  - vm_compute. reflexivity.
  - exact E.
Defined.
