(* ===== verification/Cluster.v ===== *)
(** * Cluster: several queue nodes and a network

    Nodes exchange RPC calls: a request is delivered at most once, its response at
    most once, in any order and with any delay; a call may instead time out, after
    which a late response is ignored.  This is the service of src/src/rpc.cc to
    the node.  Nodes restart from what their store holds.  [cluster_step] is
    executable, so executions of the protocol are evaluated. *)

From Stdlib Require Import ZArith Lia.
From stdpp Require Import base tactics list numbers gmap.
From S2P Require Import Prelude Bytes Wire Records Table StoreApi Ring NodeState QueueNode.
From S2P Require Import NodeCodec NodeSteps NodeRules NodeSafety.

Abbreviation QNode := (Node MemStore StaticMembership).

Record Call := mkCall {
  c_from : Endpoint; c_to : Endpoint; c_method : Method; c_body : bytes; c_kont : Kont
}.

Inductive Packet :=
  | PReq (rid : Z) (k : Call)
  | PResp (rid : Z) (st : Z) (body : bytes).

Record Cluster := mkCluster {
  cl_nodes : gmap Endpoint QNode;
  cl_calls : gmap Z Call;        (* calls whose callback has not run *)
  cl_net : list Packet;
  cl_next : Z
}.

(** What a node has emitted becomes packets. *)
Definition post (x : Endpoint) (c : Cluster) (o : Out) : Cluster :=
  match o with
  | OCall to m body k =>
      let rid := cl_next c in
      let call := mkCall x to m body k in
      mkCluster (cl_nodes c) (<[rid := call]> (cl_calls c)) (cl_net c ++ [PReq rid call]) (rid + 1)
  | ORespond ctx st body =>
      mkCluster (cl_nodes c) (cl_calls c) (cl_net c ++ [PResp (req_id ctx) st body]) (cl_next c)
  | _ => c
  end.

(** Node [x] handles an event; [n_out] keeps the history of its outputs. *)
Definition run_at (x : Endpoint) (e : Event StaticMembership) (c : Cluster) : option Cluster :=
  match cl_nodes c !! x with
  | None => None
  | Some n =>
      let n' := node_step e n in
      Some (foldl (post x) (mkCluster (<[x := n']> (cl_nodes c)) (cl_calls c) (cl_net c) (cl_next c))
              (drop (length (n_out n)) (n_out n')))
  end.

Definition take_packet (i : nat) (c : Cluster) : option (Packet * Cluster) :=
  match cl_net c !! i with
  | None => None
  | Some p => Some (p, mkCluster (cl_nodes c) (cl_calls c) (delete i (cl_net c)) (cl_next c))
  end.

Definition end_call (rid : Z) (c : Cluster) : Cluster :=
  mkCluster (cl_nodes c) (delete rid (cl_calls c)) (cl_net c) (cl_next c).

Inductive Action :=
  | Local (x : Endpoint) (e : Event StaticMembership)   (* client, timer, membership *)
  | Deliver (i : nat)                                    (* the i-th packet in flight *)
  | TimeOut (rid : Z)
  | Restart (x : Endpoint) (boot now : Z).

Definition restarted (n : QNode) (boot now : Z) : QNode :=
  node_open (set_env (n_mem n) now [] (set_out (n_out n)
    (new_node (n_mem n) (n_cfg n) (n_store n) boot))).

Definition cluster_step (a : Action) (c : Cluster) : option Cluster :=
  match a with
  | Local x e =>
      match e with EvRequest _ _ | EvResponse _ _ _ => None | _ => run_at x e c end
  | Deliver i =>
      match take_packet i c with
      | Some (PReq rid k, c) =>
          run_at (c_to k) (EvRequest (mkCtx (c_from k) rid (c_method k)) (c_body k)) c
      | Some (PResp rid st body, c) =>
          match cl_calls c !! rid with
          | Some k => run_at (c_from k) (EvResponse (c_kont k) st body) (end_call rid c)
          | None => Some c
          end
      | None => None
      end
  | TimeOut rid =>
      match cl_calls c !! rid with
      | Some k => run_at (c_from k) (EvResponse (c_kont k) rpcstatus.kTimeout []) (end_call rid c)
      | None => None
      end
  | Restart x boot now =>
      match cl_nodes c !! x with
      | Some n =>
          let n' := restarted n boot now in
          Some (foldl (post x) (mkCluster (<[x := n']> (cl_nodes c))
                  (filter (fun p => c_from (snd p) <> x) (cl_calls c)) (cl_net c) (cl_next c))
                  (drop (length (n_out n)) (n_out n')))
      | None => None
      end
  end.

Fixpoint cluster_run (acts : list Action) (c : Cluster) : option Cluster :=
  match acts with
  | [] => Some c
  | a :: acts => match cluster_step a c with Some c => cluster_run acts c | None => None end
  end.
