(* ===== verification/Executions.v ===== *)
(** * Executions: concrete executions of the protocol

    Scripts run by the executable cluster, and node-level executions, that show
    what the protocol does in its corner cases. *)

From Stdlib Require Import ZArith Lia.
From stdpp Require Import base tactics list numbers gmap.
From S2P Require Import Prelude Bytes Wire Records Table StoreApi Ring NodeState QueueNode.
From S2P Require Import NodeCodec NodeSteps NodeRules NodeSafety Cluster.

(** ** Three nodes that hold [job1], owned by node a *)
Module ClusterSample.
Import Sample NodeSample.

Definition node0 (x : Endpoint) : QNode := node_at x table1.
Definition start : Cluster :=
  mkCluster (<[node_a := set_ready [id1] (node0 node_a)]>
              (<[node_b := node0 node_b]> {[node_c := node0 node_c]})) ∅ [] 1.

Definition alive_view (nodes : list Endpoint) : StaticMembership := static_set nodes members3.
Definition view (x : Endpoint) (nodes : list Endpoint) (now : Z) : Action :=
  Local x (EvEnv (alive_view nodes) now []).
Definition everyone : list Endpoint := [node_a; node_b; node_c].

Definition job_at (c : option Cluster) (x : Endpoint) : option (JobState * Endpoint * Z * Z) :=
  match c with
  | Some c => match cl_nodes c !! x with
              | Some n => match find_job n id1 with
                          | Some j => Some (j_state j, j_owner j, j_epoch j, j_lease_seq j)
                          | None => None
                          end
              | None => None
              end
  | None => None
  end.

Definition run_from (c : option Cluster) (acts : list Action) : option Cluster :=
  match c with Some c => cluster_run acts c | None => None end.

(** What a node told its own clients. *)
Definition client_out (o : Out) : bool :=
  match o with OCall _ _ _ _ | ORespond _ _ _ => false | _ => true end.
Definition told (c : option Cluster) (x : Endpoint) : list Out :=
  match c with
  | Some c => match cl_nodes c !! x with
              | Some n => filter (fun o => client_out o = true) (n_out n)
              | None => []
              end
  | None => []
  end.

(** The [k] packets in flight are delivered in order, with what they cause. *)
Definition settle (k : nat) : list Action := repeat (Deliver 0) k.

(** ** A completion is lost *)

(** Node c is cut off and believes the others dead, so it records a takeover of its
    own that nobody has granted; meanwhile the job is leased, delivered and completed
    at the owner and node b. *)
Definition complete_script : list Action :=
  [view node_c [node_c] 1000; Local node_c (EvPeerDead []);
   Local node_a (EvLease 7 1); Deliver 0; Deliver 1; TimeOut 2;
   Local node_a (EvAck id1 1 1 true (AckClient 2)); Deliver 1; Deliver 2; TimeOut 4].

(** The partition heals: c's repair pass runs before its claim does. *)
Definition heal_script : list Action :=
  [view node_c everyone 5000; Local node_c (EvPeerAlive node_a); Local node_c (EvTick []);
   Deliver 2; Deliver 2; Deliver 2; Deliver 5;
   Local node_c (EvLease 8 3); Deliver 5; Deliver 6].

Definition completed : option Cluster := cluster_run complete_script start.
Definition healed : option Cluster := run_from completed heal_script.

(** ** Two owners of one epoch *)

(** Nodes b and c both record a takeover of epoch 2; the old owner grants b's claim
    and refuses c's, and every message is delivered. *)
Definition duel_script : list Action :=
  [view node_b [node_b; node_c] 1000; Local node_b (EvPeerDead []);
   view node_c [node_c] 1000; Local node_c (EvPeerDead []);
   view node_b everyone 3000; Local node_b (EvTick []); Deliver 1; Deliver 2;
   view node_c everyone 3000; Local node_c (EvTick [])] ++ settle 12.

(** c restarts, b leases the job to worker 7 at time 3000, c tries to lease it twice
    in vain, its repair pass runs, and it leases the job to worker 8 at time 10000. *)
Definition rival_script : list Action :=
  [Restart node_c 2 4000] ++ settle 4 ++
  [Local node_b (EvLease 7 1)] ++ settle 4 ++
  [view node_c everyone 5000; Local node_c (EvLease 8 2)] ++ settle 4 ++
  [view node_c everyone 7000; Local node_c (EvLease 8 3)] ++ settle 4 ++
  [view node_c everyone 9000; Local node_c (EvTick [])] ++ settle 4 ++
  [view node_c everyone 10000; Local node_c (EvLease 8 4)] ++ settle 4.

Definition duelled : option Cluster := cluster_run duel_script start.
Definition rivals : option Cluster := run_from duelled rival_script.

Definition lease_of (epoch seq : Z) : LeaseGrant :=
  mkGrant id1 url1 [Byte.x78] key1 epoch seq 30000 seq.

(** ** A failed lease commit outlives its owner *)

(** The owner waits for the replicas of lease 1 of epoch 1; b claims the job and
    leases it as number 2 of epoch 2, which the old owner replicates. *)
Definition overtaken : QNode :=
  node_run [EvLease 7 1;
            EvRequest (mkCtx node_b 1 Claim) (claim_msg id1 2 node_b);
            EvRequest (mkCtx node_b 2 Apply) (encode_record (LeaseRec id1 2 2 9) 0)]
    SafetySample.owner.
Definition gave_up : QNode :=
  node_run [EvResponse (KApply id1 1 0) rpcstatus.kTimeout [];
            EvResponse (KApply id1 2 0) rpcstatus.kTimeout []] overtaken.
End ClusterSample.
Import ClusterSample Sample.

(** ** Full send queues during a resync *)

Section resync.
Context {S M : Type} `{!StoreOps S} `{!Membership M}.
Implicit Types n : Node S M.

(** The peers a resync asks. *)
Definition resync_peers n (j : Job) : list (nat * Endpoint) :=
  filter (fun p => is_alive (n_mem n) (snd p) = true) (peer_slots (me n) j).

Lemma set_busy_set_busy b b' n : set_busy b (set_busy b' n) = set_busy b n.
Proof. by destruct n. Qed.

Lemma rpc_busy_resync id to n bs :
  n_resync_inflight n !! id = None -> n_busy n = true :: bs ->
  rpc_call to Resync (put_job_id [] id) (KResync id) n = set_busy bs n.
Proof.
  intros Hi Hb. unfold rpc_call, rpc_try.
  assert (El : length (put_job_id [] id) = 16%nat) by (by autorewrite with tautq_put).
  rewrite El, Hb. change (kMaxRpcBody <? 16)%nat with false. cbv iota beta.
  simpl. unfold resync_countdown. simpl. by rewrite Hi.
Qed.

Lemma resync_all_busy id ps n bs :
  n_resync_inflight n !! id = None -> n_busy n = repeat true (length ps) ++ bs ->
  foldl (fun n (p : nat * Endpoint) =>
           rpc_call (snd p) Resync (put_job_id [] id) (KResync id) n) n ps = set_busy bs n.
Proof.
  revert n. induction ps as [|p ps IH]; intros n Hi Hb; simpl in *.
  { rewrite <- Hb. by destruct n. }
  rewrite (rpc_busy_resync id _ n _ Hi Hb). rewrite IH; [|done|done]. apply set_busy_set_busy.
Qed.
End resync.

(** ** Properties *)



(** The failure callback of a lease expires whatever lease the job has by then:
    the old owner of this execution gives up on its own lease 1 of epoch 1 and
    thereby expires, in its copy, the lease 2 of epoch 2 that its successor
    committed on it. *)
Theorem failed_lease_expires_successors_lease :
  (j_state <$> find_job overtaken id1) = Some Leased /\
  (j_owner <$> find_job overtaken id1) = Some node_b /\
  find_job gave_up id1 = set_state Ready <$> find_job overtaken id1.
Proof. vm_compute. done. Qed.

(** A resync whose sends all fail at once is never retried.  The failures run
    before the in-flight counter exists, then the counter is set to the number of
    failed sends: no call is outstanding that could clear it, and every later
    resync of the job returns at once while it stands. *)
Theorem resync_wedged_by_full_queues {S M} `{!StoreOps S} `{!Membership M}
    (n : Node S M) id j bs :
  find_job n id = Some j -> n_resync_inflight n !! id = None -> resync_peers n j <> [] ->
  n_busy n = repeat true (length (resync_peers n j)) ++ bs ->
  let n1 := resync_job id n in
  n_out n1 = n_out n /\
  n_resync_inflight n1 !! id = Some (Z.of_nat (length (resync_peers n j))) /\
  forall n2, n_resync_inflight n2 !! id = n_resync_inflight n1 !! id -> resync_job id n2 = n2.
Proof.
  intros Hj Hi Hne Hb. cbv zeta.
  assert (E : resync_job id n = set_resync_inflight
    (<[id := Z.of_nat (length (resync_peers n j))]> (n_resync_inflight n)) (set_busy bs n)).
  { unfold resync_job. rewrite Hi, bool_decide_eq_false_2 by (by intros [? [=]]). rewrite Hj.
    fold (resync_peers n j). rewrite (resync_all_busy id _ n bs Hi Hb).
    destruct (resync_peers n j); [done|]. done. }
  rewrite E. split; [done|]. simpl. rewrite lookup_insert_eq. split; [done|].
  intros n2 H2. unfold resync_job. by rewrite H2, bool_decide_eq_true_2 by eauto.
Qed.

Lemma resync_wedged_by_full_queues_witness :
  let n := set_busy [true; true] (NodeSample.node_at node_b NodeSample.table1) in
  n_out (resync_job id1 n) = [] /\ n_resync_inflight (resync_job id1 n) !! id1 = Some 2 /\
  forall n2, n_resync_inflight n2 !! id1 = n_resync_inflight (resync_job id1 n) !! id1 ->
    resync_job id1 n2 = n2.
Proof.
  intros n.
  destruct (resync_wedged_by_full_queues n id1 job1 []) as (H1 & H2 & H3);
    [vm_compute; reflexivity|vm_compute; reflexivity|vm_compute; discriminate|vm_compute; reflexivity|].
  split; [exact H1|]. split; [|exact H3]. rewrite H2. vm_compute. reflexivity.
Defined.
