(* ===== verification/Demux.v ===== *)
(** * Demux: one socket, one queue per peer (src/src/demux.h, demux.cc)

    [pump] drains the socket: HELLO datagrams go to the handshake, datagrams of a
    peer with a view go to that view's inbox, others are reported as strangers.
    The two callbacks may create and drop views while the socket is drained, so
    they are parameters that act on the owner's whole state. *)

From Stdlib Require Import ZArith Lia.
From stdpp Require Import base tactics list numbers gmap.
From S2P Require Import Prelude Bytes Wire.

Definition kMaxQueued : nat := 1024.

Record PeerView := mkView { pv_peer : Endpoint; inbox : list bytes }.

(** [views_], keyed by [ekey]. *)
Abbreviation Views := (gmap Z PeerView).

(** [Demux::view]: created on first use. *)
Definition view (peer : Endpoint) (vs : Views) : Views :=
  match vs !! ekey peer with
  | Some _ => vs
  | None => <[ekey peer := mkView peer []]> vs
  end.

Definition has_view (peer : Endpoint) (vs : Views) : bool := bool_decide (is_Some (vs !! ekey peer)).

Definition drop_view (peer : Endpoint) (vs : Views) : Views := delete (ekey peer) vs.

(** [PeerView::recv] into a buffer of [size] bytes. *)
Definition view_recv (size : nat) (v : PeerView) : option (bytes * Endpoint) * PeerView :=
  match inbox v with
  | [] => (None, v)
  | d :: rest => (Some (take size d, pv_peer v), mkView (pv_peer v) rest)
  end.

Section pump.
Context {X : Type} (views : X -> Views) (set_views : Views -> X -> X).
Context (on_hello : Endpoint -> Hello -> X -> X) (on_stranger : Endpoint -> X -> X).

(** One datagram of the loop in [Demux::pump]. *)
Definition pump_one (x : X) (r : Endpoint * bytes) : X :=
  let '(from, data) := r in
  match is_hello data with
  | Val true => match decode_hello data with Val h => on_hello from h x | _ => x end
  | _ =>
      match views x !! ekey from with
      | None => on_stranger from x
      | Some v =>
          if (length (inbox v) <? kMaxQueued)%nat
          then set_views (<[ekey from := mkView (pv_peer v) (inbox v ++ [data])]> (views x)) x
          else x
      end
  end.

Definition pump (received : list (Endpoint * bytes)) (x : X) : X := foldl pump_one x received.
End pump.

(** ** Invariant of the views *)

Definition plain (d : bytes) : Prop := is_hello d = Val false.

#[global] Instance plain_dec d : Decision (plain d).
Proof. unfold plain. solve_decision. Defined.

Record view_ok (key : Z) (v : PeerView) : Prop := {
  vo_key : ekey (pv_peer v) = key;
  vo_plain : Forall plain (inbox v);
  vo_bound : (length (inbox v) <= kMaxQueued)%nat
}.

Definition views_ok (vs : Views) : Prop := map_Forall view_ok vs.

Lemma view_ok_new p : view_ok (ekey p) (mkView p []).
Proof. split; [done|constructor|simpl; unfold kMaxQueued; lia]. Qed.

Lemma views_ok_view p vs : views_ok vs -> views_ok (view p vs).
Proof.
  intros H. unfold view. case_match; [done|]. apply map_Forall_insert_2; [apply view_ok_new|done].
Qed.

Lemma views_ok_drop p vs : views_ok vs -> views_ok (drop_view p vs).
Proof. apply map_Forall_delete. Qed.

Lemma is_hello_total d : is_hello d = Val true \/ plain d.
Proof.
  unfold plain, is_hello. case_decide; [auto|].
  rewrite get_u8_spec, decide_True by lia. cbn [res_bind]. case_match; [auto|].
  rewrite get_u8_spec, decide_True by lia. cbn [res_bind]. case_match; [auto|].
  rewrite get_u8_spec, decide_True by lia. cbn [res_bind].
  destruct (_ =? kHelloMagic2); auto.
Qed.

Lemma views_ok_push key v d vs :
  views_ok vs -> vs !! key = Some v -> plain d -> (length (inbox v) < kMaxQueued)%nat ->
  views_ok (<[key := mkView (pv_peer v) (inbox v ++ [d])]> vs).
Proof.
  intros H Hv Hd Hl. apply map_Forall_insert_2; [|done]. destruct (H _ _ Hv) as [Hk Hp Hb].
  split; simpl; [done| |rewrite length_app; simpl; lia]. apply Forall_app. auto.
Qed.

(** ** The pump *)

Section pump_facts.
Context {X : Type} (views : X -> Views) (set_views : Views -> X -> X).
Context (on_hello : Endpoint -> Hello -> X -> X) (on_stranger : Endpoint -> X -> X).
Hypothesis views_set : forall vs x, views (set_views vs x) = vs.

Local Abbreviation pump1 := (pump_one views set_views on_hello on_stranger).
Local Abbreviation pump_all := (pump views set_views on_hello on_stranger).

Lemma pump_views_ok r x :
  (forall f h x, views_ok (views x) -> views_ok (views (on_hello f h x))) ->
  (forall f x, views_ok (views x) -> views_ok (views (on_stranger f x))) ->
  views_ok (views x) -> views_ok (views (pump_all r x)).
Proof.
  intros Hh Hs. revert x. induction r as [|[f d] r IH]; intros x Hx; [done|]. simpl. apply IH.
  unfold pump_one. destruct (is_hello_total d) as [->|Hd]; [case_match; auto|]. rewrite Hd.
  destruct (views x !! ekey f) as [v|] eqn:Ev; [|auto].
  destruct (Nat.ltb_spec (length (inbox v)) kMaxQueued); [|done].
  rewrite views_set. by apply views_ok_push.
Qed.

(** The datagrams of [p] among those received, HELLOs aside. *)
Definition of_peer (p : Endpoint) (r : list (Endpoint * bytes)) : list bytes :=
  snd <$> filter (fun x => ekey (fst x) = ekey p /\ plain (snd x)) r.

(** While the callbacks leave the views alone, [p]'s inbox gains exactly its own
    datagrams, in order, up to the bound. *)
Lemma pump_inbox r x p v :
  (forall f h x, views (on_hello f h x) = views x) ->
  (forall f x, views (on_stranger f x) = views x) ->
  views x !! ekey p = Some v -> (length (inbox v) <= kMaxQueued)%nat ->
  views (pump_all r x) !! ekey p =
  Some (mkView (pv_peer v) (take kMaxQueued (inbox v ++ of_peer p r))).
Proof.
  intros Hh Hs. revert x v. induction r as [|[f d] r IH]; intros x v Hv Hl.
  { simpl. rewrite Hv, app_nil_r, take_ge by done. by destruct v. }
  change (pump_all ((f, d) :: r) x) with (pump_all r (pump1 x (f, d))).
  destruct (decide (ekey f = ekey p /\ plain d)) as [[Ef Hd]|Hn].
  - assert (E : of_peer p ((f, d) :: r) = d :: of_peer p r)
      by (unfold of_peer; by rewrite filter_cons_True).
    rewrite E. unfold pump_one at 1. rewrite Hd, Ef, Hv.
    destruct (Nat.ltb_spec (length (inbox v)) kMaxQueued).
    + rewrite (IH _ (mkView (pv_peer v) (inbox v ++ [d]))).
      * simpl. by rewrite <- (assoc_L (++)).
      * rewrite views_set. by rewrite lookup_insert_eq.
      * simpl. rewrite length_app. simpl. lia.
    + rewrite (IH _ v) by done. rewrite !take_app_le by lia. done.
  - assert (E : of_peer p ((f, d) :: r) = of_peer p r)
      by (unfold of_peer; by rewrite filter_cons_False).
    rewrite E. apply IH; [|done].
    unfold pump_one. destruct (is_hello_total d) as [->|Hd]; [case_match; by rewrite ?Hh|]. rewrite Hd.
    destruct (views x !! ekey f) as [v'|] eqn:Ev; [|by rewrite Hs].
    case_match; [|done]. rewrite views_set, lookup_insert_ne; [done|]. intros E'. by apply Hn.
Qed.
End pump_facts.
