(* ===== verification/Rpc.v ===== *)
(** * Rpc: requests, responses and the boot handshake (src/src/rpc.h, rpc.cc)

    The state and operations of class RpcNode.  taut::Session is an external
    library: a peer either has a session or not, a send is taken or refused as an
    outcome list says, and what a session delivers is an event.  Callbacks are data
    of a type [K]: running one is an output.  [finish_call] erases a call before it
    runs its callback and the loops collect ids first, so callbacks that re-enter
    [call] do so after the step. *)

From Stdlib Require Import ZArith Lia.
From stdpp Require Import base tactics list numbers gmap.
From S2P Require Import Prelude Bytes Wire Demux NodeState.

Definition kHelloRetry : Z := 200.
Definition kStrangerInterval : Z := 1000.
Definition kUnknownMethod : Z := 0xFFFFFFFF.

Record Peer := mkPeer {
  p_addr : Endpoint; p_session : bool; p_remote_boot : Z; p_acked : bool;
  p_next_hello : Z; p_pending : list bytes
}.

Definition set_addr (x : Endpoint) (p : Peer) : Peer :=
  mkPeer x (p_session p) (p_remote_boot p) (p_acked p) (p_next_hello p) (p_pending p).
Definition set_session (x : bool) (p : Peer) : Peer :=
  mkPeer (p_addr p) x (p_remote_boot p) (p_acked p) (p_next_hello p) (p_pending p).
Definition set_remote_boot (x : Z) (p : Peer) : Peer :=
  mkPeer (p_addr p) (p_session p) x (p_acked p) (p_next_hello p) (p_pending p).
Definition set_acked (x : bool) (p : Peer) : Peer :=
  mkPeer (p_addr p) (p_session p) (p_remote_boot p) x (p_next_hello p) (p_pending p).
Definition set_next_hello (x : Z) (p : Peer) : Peer :=
  mkPeer (p_addr p) (p_session p) (p_remote_boot p) (p_acked p) x (p_pending p).
Definition set_pending (x : list bytes) (p : Peer) : Peer :=
  mkPeer (p_addr p) (p_session p) (p_remote_boot p) (p_acked p) (p_next_hello p) x.

Definition is_established (p : Peer) : bool :=
  negb (p_remote_boot p =? 0) && p_acked p && p_session p.

Section rpc.
Context {K : Type}.

Record PendingCall := mkPendingCall { pc_key : Z; pc_deadline : Z; pc_cb : K }.

Inductive RpcOut :=
  | SendHello (to : Endpoint) (h : Hello)
  | SendFrame (to : Endpoint) (frame : bytes)
  | RunCallback (k : K) (st : Z) (body : bytes)
  | RunHandler (ctx : ReqCtx) (body : bytes).

Record RpcNode := mkRpc {
  r_views : Views;
  r_boot : Z;
  r_peers : gmap Z Peer;
  r_calls : gmap Z PendingCall;
  r_handlers : list Z;
  r_stranger_next : gmap Z Z;
  r_next_req : Z;
  r_now : Z;
  r_full : list bool;      (* outcomes of the next session sends: true is refused *)
  r_out : list RpcOut
}.

Definition set_views (x : Views) (r : RpcNode) : RpcNode :=
  mkRpc x (r_boot r) (r_peers r) (r_calls r) (r_handlers r) (r_stranger_next r) (r_next_req r)
    (r_now r) (r_full r) (r_out r).
Definition set_peers (x : gmap Z Peer) (r : RpcNode) : RpcNode :=
  mkRpc (r_views r) (r_boot r) x (r_calls r) (r_handlers r) (r_stranger_next r) (r_next_req r)
    (r_now r) (r_full r) (r_out r).
Definition set_calls (x : gmap Z PendingCall) (r : RpcNode) : RpcNode :=
  mkRpc (r_views r) (r_boot r) (r_peers r) x (r_handlers r) (r_stranger_next r) (r_next_req r)
    (r_now r) (r_full r) (r_out r).
Definition set_handlers (x : list Z) (r : RpcNode) : RpcNode :=
  mkRpc (r_views r) (r_boot r) (r_peers r) (r_calls r) x (r_stranger_next r) (r_next_req r)
    (r_now r) (r_full r) (r_out r).
Definition set_stranger_next (x : gmap Z Z) (r : RpcNode) : RpcNode :=
  mkRpc (r_views r) (r_boot r) (r_peers r) (r_calls r) (r_handlers r) x (r_next_req r)
    (r_now r) (r_full r) (r_out r).
Definition set_next_req (x : Z) (r : RpcNode) : RpcNode :=
  mkRpc (r_views r) (r_boot r) (r_peers r) (r_calls r) (r_handlers r) (r_stranger_next r) x
    (r_now r) (r_full r) (r_out r).
Definition set_full (x : list bool) (r : RpcNode) : RpcNode :=
  mkRpc (r_views r) (r_boot r) (r_peers r) (r_calls r) (r_handlers r) (r_stranger_next r)
    (r_next_req r) (r_now r) x (r_out r).
Definition output (o : RpcOut) (r : RpcNode) : RpcNode :=
  mkRpc (r_views r) (r_boot r) (r_peers r) (r_calls r) (r_handlers r) (r_stranger_next r)
    (r_next_req r) (r_now r) (r_full r) (r_out r ++ [o]).
Definition set_rpc_env (now : Z) (full : list bool) (r : RpcNode) : RpcNode :=
  mkRpc (r_views r) (r_boot r) (r_peers r) (r_calls r) (r_handlers r) (r_stranger_next r)
    (r_next_req r) now full (r_out r).

Definition new_rpc (boot : Z) : RpcNode := mkRpc ∅ boot ∅ ∅ [] ∅ 1 0 [] [].

(** [RpcNode::on_request] *)
Definition register (m : Method) (r : RpcNode) : RpcNode :=
  set_handlers (u8_of_method m :: r_handlers r) r.

(** [RpcNode::peer]: the entry is created on first use. *)
Definition peer (addr : Endpoint) (r : RpcNode) : Peer * RpcNode :=
  let p := default (mkPeer no_endpoint false 0 false 0 []) (r_peers r !! ekey addr) in
  let p := if decide (p_addr p = no_endpoint) then set_addr addr p else p in
  (p, set_peers (<[ekey addr := p]> (r_peers r)) r).

(** Writes through the [Peer&] of an entry. *)
Definition put (key : Z) (p : Peer) (r : RpcNode) : RpcNode :=
  set_peers (<[key := p]> (r_peers r)) r.

(** [session->send]. *)
Definition session_send (p : Peer) (frame : bytes) (r : RpcNode) : bool * RpcNode :=
  match r_full r with
  | true :: fs => (false, set_full fs r)
  | false :: fs => (true, output (SendFrame (p_addr p) frame) (set_full fs r))
  | [] => (true, output (SendFrame (p_addr p) frame) r)
  end.

Definition send_hello (key : Z) (p : Peer) (r : RpcNode) : Peer * RpcNode :=
  let p' := set_next_hello (r_now r + kHelloRetry) p in
  (p', put key p' (output (SendHello (p_addr p) (mkHello false (r_boot r) 0)) r)).

Definition call (to : Endpoint) (m : Method) (body : bytes) (timeout : Z) (cb : K) (r : RpcNode)
  : RpcNode :=
  if (kMaxRpcBody <? length body)%nat then output (RunCallback cb rpcstatus.kTooLarge []) r else
  let id := r_next_req r in
  let r := set_next_req (u64 (id + 1)) r in
  let frame := encode_rpc Request m id 0 body in
  let '(p, r) := peer to r in
  let now := r_now r in
  let pending := mkPendingCall (ekey to) (now + timeout) cb in
  if is_established p then
    let '(ok, r) := session_send p frame r in
    if negb ok then output (RunCallback cb rpcstatus.kBusy []) r
    else set_calls (<[id := pending]> (r_calls r)) r
  else
    let p := set_pending (p_pending p ++ [frame]) p in
    let r := put (ekey to) p r in
    let r := if p_next_hello p <=? now then snd (send_hello (ekey to) p r) else r in
    set_calls (<[id := pending]> (r_calls r)) r.

Definition finish_call (req_id st : Z) (body : bytes) (r : RpcNode) : RpcNode :=
  match r_calls r !! req_id with
  | None => r
  | Some c => output (RunCallback (pc_cb c) st body) (set_calls (delete req_id (r_calls r)) r)
  end.

Definition fail_calls_to (key st : Z) (r : RpcNode) : RpcNode :=
  let ids := fst <$> filter (fun p => pc_key (snd p) = key) (map_to_list (r_calls r)) in
  foldl (fun r id => finish_call id st [] r) r ids.

(** [teardown] of the entry at [key]; the entry is returned as it is left. *)
Definition teardown (key : Z) (p : Peer) (fail_calls : bool) (r : RpcNode) : Peer * RpcNode :=
  let p' := set_next_hello 0 (set_pending [] (set_session false p)) in
  let r := put key p' (set_views (drop_view (p_addr p) (r_views r)) r) in
  (p', if fail_calls then fail_calls_to (ekey (p_addr p)) rpcstatus.kPeerDown r else r).

(** [flush_pending]: queued frames go out until the session refuses one. *)
Fixpoint flush (p : Peer) (frames : list bytes) (r : RpcNode) : list bytes * RpcNode :=
  match frames with
  | [] => ([], r)
  | f :: rest =>
      let '(ok, r) := session_send p f r in
      if ok then flush p rest r else (frames, r)
  end.

Definition flush_pending (key : Z) (p : Peer) (r : RpcNode) : Peer * RpcNode :=
  let '(rest, r) := flush p (p_pending p) r in
  let p := set_pending rest p in (p, put key p r).

Definition establish (key : Z) (p : Peer) (r : RpcNode) : Peer * RpcNode :=
  let r := set_views (view (p_addr p) (r_views r)) r in
  flush_pending key (set_session true p) r.

Definition handle_hello (from : Endpoint) (h : Hello) (r : RpcNode) : RpcNode :=
  let key := ekey from in
  let '(p, r) := peer from r in
  let now := r_now r in
  let restarted := negb (p_remote_boot p =? 0) && negb (p_remote_boot p =? sender_boot h) in
  if negb (is_ack h) then
    let '(p, r) := if restarted then let '(p, r) := teardown key p true r in (set_acked false p, r)
                   else (p, r) in
    let p := set_remote_boot (sender_boot h) p in
    let r := put key p r in
    let r := output (SendHello from (mkHello true (r_boot r) (sender_boot h))) r in
    let '(p, r) := if negb (p_acked p) && (p_next_hello p <=? now) then send_hello key p r
                   else (p, r) in
    if negb (p_remote_boot p =? 0) && p_acked p && negb (p_session p)
    then snd (establish key p r) else r
  else if negb (echo_boot h =? r_boot r) then r
  else
    let '(p, r) := if restarted then teardown key p true r else (p, r) in
    let p := set_acked true (set_remote_boot (sender_boot h) p) in
    let r := put key p r in
    if negb (p_session p) then snd (establish key p r) else r.

Definition handle_stranger (from : Endpoint) (r : RpcNode) : RpcNode :=
  let now := r_now r in
  let next := default 0 (r_stranger_next r !! ekey from) in
  if now <? next then set_stranger_next (<[ekey from := next]> (r_stranger_next r)) r else
  let r := set_stranger_next (<[ekey from := now + kStrangerInterval]> (r_stranger_next r)) r in
  let '(p, r) := peer from r in
  snd (send_hello (ekey from) p r).

Definition peer_dead (ep : Endpoint) (r : RpcNode) : RpcNode :=
  match r_peers r !! ekey ep with
  | Some p =>
      let r := snd (teardown (ekey ep) p true r) in
      set_peers (delete (ekey ep) (r_peers r)) r
  | None => fail_calls_to (ekey ep) rpcstatus.kPeerDown r
  end.

Definition rpc_respond (ctx : ReqCtx) (st : Z) (body : bytes) (r : RpcNode) : RpcNode :=
  match r_peers r !! ekey (from ctx) with
  | Some p =>
      if is_established p
      then snd (session_send p (encode_rpc Response (method ctx) (req_id ctx) st body) r) else r
  | None => r
  end.

(** [dispatch]: what the session of [from] delivers. *)
Definition dispatch (from : Endpoint) (payload : bytes) (r : RpcNode) : RpcNode :=
  match decode_rpc payload with
  | Val msg =>
      match m_kind msg with
      | Response => finish_call (m_req_id msg) (m_status msg) (m_body msg) r
      | Request =>
          let ctx := mkCtx from (m_req_id msg) (m_method msg) in
          if bool_decide (u8_of_method (m_method msg) ∈ r_handlers r)
          then output (RunHandler ctx (m_body msg)) r
          else rpc_respond ctx kUnknownMethod [] r
      end
  | _ => r
  end.

(** [poll]: the socket is drained, then the peers' sessions deliver [payloads]. *)
Definition rpc_pump (received : list (Endpoint * bytes)) (r : RpcNode) : RpcNode :=
  pump r_views set_views handle_hello handle_stranger received r.

Definition deliver_to (key : Z) (payloads : list bytes) (r : RpcNode) : RpcNode :=
  match r_peers r !! key with
  | Some p => if p_session p then foldl (fun r d => dispatch (p_addr p) d r) r payloads else r
  | None => r
  end.

Definition rpc_poll (received : list (Endpoint * bytes)) (payloads : list (Z * list bytes))
    (r : RpcNode) : RpcNode :=
  foldl (fun r kp => deliver_to (fst kp) (snd kp) r) (rpc_pump received r) payloads.

Definition tick_peer (now key : Z) (r : RpcNode) : RpcNode :=
  match r_peers r !! key with
  | None => r
  | Some p =>
      if p_session p then snd (flush_pending key p r)
      else if negb (bool_decide (p_pending p = [])) && (p_next_hello p <=? now)
      then snd (send_hello key p r) else r
  end.

Definition rpc_tick (r : RpcNode) : RpcNode :=
  let now := r_now r in
  let r := foldl (fun r key => tick_peer now key r) r (fst <$> map_to_list (r_peers r)) in
  let expired := fst <$> filter (fun c => pc_deadline (snd c) <= now) (map_to_list (r_calls r)) in
  foldl (fun r id => finish_call id rpcstatus.kTimeout [] r) r expired.

(** ** Events *)

Inductive RpcEvent :=
  | RCall (to : Endpoint) (m : Method) (body : bytes) (timeout : Z) (cb : K)
  | RRespond (ctx : ReqCtx) (st : Z) (body : bytes)
  | RPoll (received : list (Endpoint * bytes)) (payloads : list (Z * list bytes))
  | RTick
  | RPeerDead (ep : Endpoint)
  | REnv (now : Z) (full : list bool).

Definition rpc_step (e : RpcEvent) (r : RpcNode) : RpcNode :=
  match e with
  | RCall to m body t cb => call to m body t cb r
  | RRespond ctx st body => rpc_respond ctx st body r
  | RPoll rc ps => rpc_poll rc ps r
  | RTick => rpc_tick r
  | RPeerDead ep => peer_dead ep r
  | REnv now full => set_rpc_env now full r
  end.

Definition rpc_run (es : list RpcEvent) (r : RpcNode) : RpcNode := foldl (fun r e => rpc_step e r) r es.
End rpc.
Arguments RpcNode : clear implicits.
Arguments RpcOut : clear implicits.
Arguments RpcEvent : clear implicits.
Arguments PendingCall : clear implicits.
