(* ===== verification/RpcSafety.v ===== *)
(** * RpcSafety: every callback runs once, frames wait for the handshake

    [quiet] relates the states between which callbacks are neither created nor
    lost; [hs_ok] is the invariant of the boot handshake. *)

From Stdlib Require Import ZArith Lia.
From stdpp Require Import base tactics list numbers gmap.
From S2P Require Import Prelude Bytes Wire Demux NodeState Rpc.

Section accounts.
Context {K : Type}.
Implicit Types (r : RpcNode K) (o : RpcOut K).

(** ** Callbacks that ran, and that wait *)

Definition ran_of o : option K := match o with RunCallback k _ _ => Some k | _ => None end.
Definition ran r : list K := omap ran_of (r_out r).
Definition waiting r : list K := (pc_cb ∘ snd) <$> map_to_list (r_calls r).
Definition account r : list K := ran r ++ waiting r.

Record quiet r r' : Prop := {
  qu_account : account r' ≡ₚ account r;
  qu_next : r_next_req r' = r_next_req r;
  qu_ids : forall id, is_Some (r_calls r' !! id) -> is_Some (r_calls r !! id);
  qu_out : r_out r `prefix_of` r_out r'
}.

#[local] Instance quiet_preorder : PreOrder quiet.
Proof.
  split.
  - intros r. by split.
  - intros r1 r2 r3 [A1 N1 I1 O1] [A2 N2 I2 O2]. split; [by etrans|congruence|auto|by etrans].
Qed.

Lemma quiet_same r r' :
  r_out r' = r_out r -> r_calls r' = r_calls r -> r_next_req r' = r_next_req r -> quiet r r'.
Proof. intros E1 E2 E3. split; unfold account, ran, waiting; by rewrite ?E1, ?E2. Qed.

Lemma quiet_output o r : ran_of o = None -> quiet r (output o r).
Proof.
  intros H. split; try done; [|by apply prefix_app_r]. unfold account, ran, waiting. simpl.
  rewrite omap_app. simpl. by rewrite H, app_nil_r.
Qed.

Lemma finish_call_quiet id st body r : quiet r (finish_call id st body r).
Proof.
  unfold finish_call. destruct (r_calls r !! id) as [c|] eqn:Ec; [|done].
  split; simpl; [|done| |by apply prefix_app_r].
  - unfold account, ran, waiting. simpl. rewrite omap_app. simpl.
    rewrite <- (map_to_list_delete (r_calls r) id c Ec). simpl.
    by rewrite <- (assoc_L (++)).
  - intros i [c' Hc']. apply lookup_delete_Some in Hc' as [_ ?]. eauto.
Qed.

Lemma quiet_foldl {A} (f : RpcNode K -> A -> RpcNode K) l r :
  (forall r x, quiet r (f r x)) -> quiet r (foldl f r l).
Proof. intros Hf. revert r. induction l as [|x l IH]; intros r; [done|]. simpl. etrans; [apply Hf|apply IH]. Qed.

Lemma fail_calls_quiet key st r : quiet r (fail_calls_to key st r).
Proof. apply quiet_foldl. intros. apply finish_call_quiet. Qed.

Lemma session_send_quiet p f r : quiet r (session_send p f r).2.
Proof.
  unfold session_send. destruct (r_full r) as [|[] fs]; simpl; [by apply quiet_output|by apply quiet_same|].
  etrans; [|by apply quiet_output]. by apply quiet_same.
Qed.

Lemma peer_quiet a r : quiet r (peer a r).2.
Proof. by apply quiet_same. Qed.
Lemma put_quiet key p r : quiet r (put key p r).
Proof. by apply quiet_same. Qed.
Lemma views_quiet v r : quiet r (set_views v r).
Proof. by apply quiet_same. Qed.
Lemma send_hello_quiet key p r : quiet r (send_hello key p r).2.
Proof. simpl. etrans; [|apply put_quiet]. by apply quiet_output. Qed.

Lemma flush_quiet p fs r : quiet r (flush p fs r).2.
Proof.
  revert r. induction fs as [|f fs IH]; intros r; [done|]. simpl.
  pose proof (session_send_quiet p f r) as H. destruct (session_send p f r) as [[] r1]; simpl in *; [|done].
  by etrans.
Qed.

Lemma flush_pending_quiet key p r : quiet r (flush_pending key p r).2.
Proof.
  unfold flush_pending. pose proof (flush_quiet p (p_pending p) r) as H.
  destruct (flush p (p_pending p) r) as [rest r1]. simpl in *. etrans; [exact H|apply put_quiet].
Qed.

Lemma establish_quiet key p r : quiet r (establish key p r).2.
Proof. unfold establish. etrans; [apply views_quiet|apply flush_pending_quiet]. Qed.

Lemma teardown_quiet key p b r : quiet r (teardown key p b r).2.
Proof.
  unfold teardown. simpl. assert (quiet r (put key (set_next_hello 0 (set_pending [] (set_session false p)))
    (set_views (drop_view (p_addr p) (r_views r)) r))) by (etrans; [apply views_quiet|apply put_quiet]).
  destruct b; [|done]. etrans; [done|apply fail_calls_quiet].
Qed.

Lemma handle_hello_quiet f h r : quiet r (handle_hello f h r).
Proof.
  unfold handle_hello. pose proof (peer_quiet f r) as H0. destruct (peer f r) as [p r0]. simpl in H0.
  etrans; [exact H0|]. clear H0. set (rs := negb _ && negb _). destruct (is_ack h); cbn [negb].
  - case_match; [done|].
    assert (H1 : quiet r0 (if rs then teardown (ekey f) p true r0 else (p, r0)).2)
      by (destruct rs; [apply teardown_quiet|done]).
    destruct (if rs then _ else _) as [p1 r1]. simpl in H1. etrans; [exact H1|].
    case_match; [|apply put_quiet]. etrans; [apply put_quiet|apply establish_quiet].
  - assert (H1 : quiet r0 (if rs then let '(p, r) := teardown (ekey f) p true r0 in (set_acked false p, r)
                           else (p, r0)).2).
    { destruct rs; [|done]. pose proof (teardown_quiet (ekey f) p true r0).
      by destruct (teardown (ekey f) p true r0). }
    destruct (if rs then _ else _) as [p1 r1]. simpl in H1. etrans; [exact H1|].
    set (r2 := output _ _). assert (H2 : quiet r1 r2).
    { etrans; [apply put_quiet|by apply quiet_output]. }
    etrans; [exact H2|]. set (p2 := set_remote_boot _ p1).
    assert (H3 : quiet r2 (if negb (p_acked p2) && (p_next_hello p2 <=? r_now r0)
                           then send_hello (ekey f) p2 r2 else (p2, r2)).2)
      by (case_match; [apply send_hello_quiet|done]).
    destruct (if negb (p_acked p2) && _ then _ else _) as [p3 r3]. simpl in H3.
    etrans; [exact H3|]. case_match; [apply establish_quiet|done].
Qed.

Lemma handle_stranger_quiet f r : quiet r (handle_stranger f r).
Proof.
  unfold handle_stranger. case_match; [by apply quiet_same|].
  etrans; [by apply (quiet_same _ (set_stranger_next
    (<[ekey f:=r_now r + kStrangerInterval]> (r_stranger_next r)) r))|].
  match goal with |- context [peer f ?x] => pose proof (peer_quiet f x) as H1; destruct (peer f x) end.
  simpl in H1. etrans; [exact H1|apply send_hello_quiet].
Qed.

Lemma respond_quiet ctx st b r : quiet r (rpc_respond ctx st b r).
Proof. unfold rpc_respond. repeat case_match; try done. apply session_send_quiet. Qed.

Lemma dispatch_quiet f d r : quiet r (dispatch f d r).
Proof.
  unfold dispatch. repeat case_match; try done; [by apply quiet_output|apply respond_quiet|apply finish_call_quiet].
Qed.

Lemma pump_quiet rc r : quiet r (rpc_pump rc r).
Proof.
  apply quiet_foldl. intros r1 [f d]. unfold pump_one.
  repeat case_match; try done; try apply handle_hello_quiet; try apply handle_stranger_quiet; apply views_quiet.
Qed.

Lemma poll_quiet rc ps r : quiet r (rpc_poll rc ps r).
Proof.
  unfold rpc_poll. etrans; [apply pump_quiet|]. apply quiet_foldl. intros r1 [key pl].
  unfold deliver_to. simpl. repeat case_match; try done. apply quiet_foldl. intros. apply dispatch_quiet.
Qed.

Lemma tick_peer_quiet now key r : quiet r (tick_peer now key r).
Proof. unfold tick_peer. repeat case_match; try done; [apply flush_pending_quiet|apply send_hello_quiet]. Qed.

Lemma tick_quiet r : quiet r (rpc_tick r).
Proof.
  unfold rpc_tick. etrans; [|apply quiet_foldl; intros; apply finish_call_quiet].
  apply quiet_foldl. intros. apply tick_peer_quiet.
Qed.

Lemma peer_dead_quiet ep r : quiet r (peer_dead ep r).
Proof.
  unfold peer_dead. case_match; [|apply fail_calls_quiet].
  etrans; [apply (teardown_quiet (ekey ep) p true r)|]. by apply quiet_same.
Qed.

(** Ids of waiting calls are below the next one. *)
Definition ids_below r : Prop := forall id, is_Some (r_calls r !! id) -> id < r_next_req r.

Definition issued (e : RpcEvent K) : list K :=
  match e with RCall _ _ _ _ cb => [cb] | _ => [] end.

Lemma account_output k st b r : account (output (RunCallback k st b) r) ≡ₚ k :: account r.
Proof.
  unfold account, ran, waiting. simpl. rewrite omap_app. simpl.
  rewrite <- (assoc_L (++)). simpl. by rewrite <- Permutation_middle.
Qed.

Lemma account_call id c r :
  r_calls r !! id = None -> account (set_calls (<[id := c]> (r_calls r)) r) ≡ₚ pc_cb c :: account r.
Proof.
  intros H. unfold account, ran, waiting. simpl. rewrite (map_to_list_insert _ _ _ H). simpl.
  by rewrite <- Permutation_middle.
Qed.

(** A call adds its callback to the account, once. *)
Lemma call_account to m body t cb r :
  ids_below r -> 0 < r_next_req r < 2 ^ 64 - 1 ->
  account (call to m body t cb r) ≡ₚ cb :: account r /\
  r_next_req r <= r_next_req (call to m body t cb r) <= r_next_req r + 1 /\
  ids_below (call to m body t cb r).
Proof.
  intros Hid Hn. unfold call. case_match.
  { split; [apply account_output|]. split; [simpl; lia|]. done. }
  set (r1 := set_next_req _ r). assert (En : r_next_req r1 = r_next_req r + 1).
  { unfold r1. simpl. apply wrap_id. unfold fits. lia. }
  assert (A1 : account r1 = account r) by done.
  assert (Hnone : r_calls r !! r_next_req r = None).
  { destruct (r_calls r !! r_next_req r) eqn:E; [|done].
    assert (r_next_req r < r_next_req r) by (apply Hid; eauto). lia. }
  pose proof (peer_quiet to r1) as Hp. destruct (peer to r1) as [p r2]. simpl in Hp.
  assert (Hgo : forall r3 c, quiet r1 r3 -> pc_cb c = cb ->
    account (set_calls (<[r_next_req r := c]> (r_calls r3)) r3) ≡ₚ cb :: account r /\
    r_next_req r <= r_next_req (set_calls (<[r_next_req r := c]> (r_calls r3)) r3) <= r_next_req r + 1 /\
    ids_below (set_calls (<[r_next_req r := c]> (r_calls r3)) r3)).
  { intros r3 c [Ha Hnx Hi _] Hc. split; [|split; [simpl; lia|]].
    - rewrite account_call; [by rewrite Hc, Ha|].
      destruct (r_calls r3 !! r_next_req r) eqn:E; [|done].
      destruct (Hi (r_next_req r)) as [x Hx]; [eauto|]. change (r_calls r !! r_next_req r = Some x) in Hx.
      congruence.
    - intros id Hsome. simpl in *. rewrite Hnx, En.
      apply lookup_insert_is_Some in Hsome as [<-|[_ Hs]]; [lia|].
      apply Hi, Hid in Hs. lia. }
  case_match.
  - pose proof (session_send_quiet p (encode_rpc Request m (r_next_req r) 0 body) r2) as Hs.
    destruct (session_send _ _ r2) as [ok r3]. simpl in Hs.
    assert (H13 : quiet r1 r3) by (by etrans). destruct ok; simpl; [by apply Hgo|].
    destruct H13 as [Ha Hnx Hi _]. split; [rewrite account_output; by rewrite Ha|].
    rewrite Hnx, En. split; [lia|]. intros id Hs'. simpl in *. rewrite Hnx, En.
    apply Hi, Hid in Hs'. lia.
  - apply Hgo; [|done]. etrans; [exact Hp|]. etrans; [apply put_quiet|].
    case_match; [apply send_hello_quiet|done].
Qed.

Lemma step_account e r :
  ids_below r -> 0 < r_next_req r < 2 ^ 64 - 1 ->
  account (rpc_step e r) ≡ₚ issued e ++ account r /\
  r_next_req r <= r_next_req (rpc_step e r) <= r_next_req r + 1 /\ ids_below (rpc_step e r).
Proof.
  intros Hid Hn.
  assert (Hq : forall r', quiet r r' -> account r' ≡ₚ account r /\
    r_next_req r <= r_next_req r' <= r_next_req r + 1 /\ ids_below r').
  { intros r' [Ha Hnx Hi _]. split; [done|]. split; [lia|]. intros id Hs. rewrite Hnx. auto. }
  destruct e; simpl; [by apply call_account|..];
    match goal with |- account ?r' ≡ₚ _ /\ _ => apply (Hq r') end;
    auto using respond_quiet, poll_quiet, tick_quiet, peer_dead_quiet. by apply quiet_same.
Qed.

Lemma run_account es r :
  ids_below r -> 0 < r_next_req r -> r_next_req r + Z.of_nat (length es) < 2 ^ 64 ->
  account (rpc_run es r) ≡ₚ mbind issued es ++ account r.
Proof.
  revert r. induction es as [|e es IH]; intros r Hid H0 Hn; [done|]. simpl in *.
  destruct (step_account e r Hid) as (Ha & Hx & Hi); [lia|].
  unfold rpc_run in *. simpl. rewrite IH by (try done; lia). rewrite Ha.
  rewrite !(assoc_L (++)). apply Permutation_app_tail, Permutation_app_comm.
Qed.

(** ** Deadlines *)

Lemma finish_calls_lookup st ids r id c :
  r_calls (foldl (fun r id => finish_call id st [] r) r ids) !! id = Some c ->
  r_calls r !! id = Some c /\ id ∉ ids.
Proof.
  revert r. induction ids as [|i ids IH]; intros r; simpl; [by split; [|apply not_elem_of_nil]|].
  intros [Hc Hn]%IH. unfold finish_call in Hc.
  destruct (r_calls r !! i) eqn:Ei; simpl in Hc.
  - apply lookup_delete_Some in Hc as [? ?]. split; [done|]. by apply not_elem_of_cons.
  - split; [done|]. apply not_elem_of_cons. split; [congruence|done].
Qed.
End accounts.

(** ** The handshake *)

Section handshake.
Context {K : Type} (A : Z -> Prop) (b : Z).
Implicit Types (r : RpcNode K).

(** [A key]: an acknowledgement of the current boot has come from [key]. *)
Record peer_ok (key : Z) (p : Peer) : Prop := {
  po_addr : ekey (p_addr p) = key;
  po_acked : p_acked p = true -> A key;
  po_session : p_session p = true -> p_acked p = true
}.

Definition frame_ok (o : RpcOut K) : Prop :=
  match o with SendFrame to _ => A (ekey to) | _ => True end.

Record hs_ok r : Prop := {
  hs_peers : map_Forall peer_ok (r_peers r);
  hs_views : forall key, is_Some (r_views r !! key) ->
    exists p, r_peers r !! key = Some p /\ p_session p = true;
  hs_queues : views_ok (r_views r);
  hs_out : Forall frame_ok (r_out r);
  hs_boot : r_boot r = b
}.

Lemma hs_same r r' :
  r_peers r' = r_peers r -> r_views r' = r_views r -> r_out r' = r_out r -> r_boot r' = r_boot r ->
  hs_ok r -> hs_ok r'.
Proof. intros E1 E2 E3 E4 [H1 H2 H3 H4 H5]. split; rewrite ?E1, ?E2, ?E3, ?E4; done. Qed.

Lemma hs_output o r : frame_ok o -> hs_ok r -> hs_ok (output o r).
Proof. intros Ho [H1 H2 H3 H4 H5]. split; simpl; try done. apply Forall_app. auto. Qed.

(** Writing an entry back keeps the invariant when its session is kept or is there. *)
Lemma hs_put key p p' r :
  hs_ok r -> r_peers r !! key = Some p -> peer_ok key p' ->
  (p_session p = true -> p_session p' = true) ->
  hs_ok (put key p' r) /\ r_peers (put key p' r) !! key = Some p'.
Proof.
  intros [H1 H2 H3 H4 H5] Hp Hp' Hs. split; [|simpl; by rewrite lookup_insert_eq].
  split; simpl; try done; [by apply map_Forall_insert_2|].
  intros k Hk. destruct (decide (k = key)) as [->|].
  - rewrite lookup_insert_eq. exists p'. split; [done|]. destruct (H2 _ Hk) as (q & Hq & Hqs).
    simplify_eq. auto.
  - rewrite lookup_insert_ne by done. auto.
Qed.

Lemma hs_peer a r :
  hs_ok r -> hs_ok (peer a r).2 /\ r_peers (peer a r).2 !! ekey a = Some (peer a r).1.
Proof.
  intros [H1 H2 H3 H4 H5]. unfold peer. simpl. split; [|by rewrite lookup_insert_eq].
  set (p := if decide _ then _ else _).
  assert (Hp : peer_ok (ekey a) p /\ (forall q, r_peers r !! ekey a = Some q -> p_session p = p_session q)).
  { unfold p. destruct (r_peers r !! ekey a) as [q|] eqn:Eq; simpl.
    - destruct (H1 _ _ Eq) as [E1 E2 E3]. case_decide; (split; [split; done|]); intros q' ?; by simplify_eq.
    - split; [|done]. split; done. }
  destruct Hp as [Hp Hs]. split; simpl; try done; [by apply map_Forall_insert_2|].
  intros k Hk. destruct (decide (k = ekey a)) as [->|].
  - rewrite lookup_insert_eq. exists p. split; [done|]. destruct (H2 _ Hk) as (q & Hq & Hqs).
    by rewrite (Hs q Hq).
  - rewrite lookup_insert_ne by done. auto.
Qed.

(** Session sends touch nothing but the trace. *)
Record sends r r' : Prop := {
  sd_peers : r_peers r' = r_peers r;
  sd_views : r_views r' = r_views r;
  sd_boot : r_boot r' = r_boot r;
  sd_out : Forall frame_ok (r_out r) -> Forall frame_ok (r_out r')
}.

Lemma session_send_sends p f r : A (ekey (p_addr p)) -> sends r (session_send p f r).2.
Proof.
  intros Ha. unfold session_send.
  destruct (r_full r) as [|[] fs]; split; simpl; try done; intros; apply Forall_app; auto.
Qed.

Lemma flush_sends p fs r : A (ekey (p_addr p)) -> sends r (flush p fs r).2.
Proof.
  intros Ha. revert r. induction fs as [|f fs IH]; intros r; [by split|]. simpl.
  pose proof (session_send_sends p f r Ha) as [E1 E2 E3 H1].
  destruct (session_send p f r) as [[] r1]; simpl in *; [|by split].
  destruct (IH r1) as [F1 F2 F3 H2]. split; try congruence. auto.
Qed.

Lemma hs_sends r r' : sends r r' -> hs_ok r -> hs_ok r'.
Proof. intros [E1 E2 E3 Ho] [H1 H2 H3 H4 H5]. split; rewrite ?E1, ?E2, ?E3; auto. Qed.

Lemma hs_flush_pending key p r :
  hs_ok r -> r_peers r !! key = Some p -> p_session p = true -> hs_ok (flush_pending key p r).2.
Proof.
  intros H Hp Hs. destruct (hs_peers _ H _ _ Hp) as [E1 E2 E3]. unfold flush_pending.
  assert (Hs1 : sends r (flush p (p_pending p) r).2) by (apply flush_sends; rewrite E1; auto).
  destruct (flush p (p_pending p) r) as [rest r1]. simpl in *.
  apply (hs_put key p); [by eapply hs_sends|by rewrite (sd_peers _ _ Hs1)| |done]. by split.
Qed.

Lemma hs_establish key p r :
  hs_ok r -> r_peers r !! key = Some p -> p_acked p = true -> hs_ok (establish key p r).2.
Proof.
  intros H Hp Ha. destruct (hs_peers _ H _ _ Hp) as [E1 E2 E3]. unfold establish, flush_pending.
  set (p' := set_session true p). set (r0 := set_views _ r).
  assert (Hs : sends r0 (flush p' (p_pending p') r0).2)
    by (apply flush_sends; simpl; rewrite E1; auto).
  destruct (flush p' (p_pending p') r0) as [rest r1]. simpl in *.
  destruct Hs as [F2 F3 F4 F1].
  destruct H as [H1 H2 H3 H4 H5]. split; simpl; rewrite ?F2, ?F3, ?F4; simpl; auto.
  - apply map_Forall_insert_2; [|done]. split; simpl; [done|auto|done].
  - intros k Hk. destruct (decide (k = key)) as [->|]; [rewrite lookup_insert_eq; eauto|].
    rewrite lookup_insert_ne by done. apply H2. unfold view in Hk. case_match; [done|].
    rewrite lookup_insert_ne in Hk by congruence. done.
  - by apply views_ok_view.
Qed.

Lemma hs_finish id st bd r :
  hs_ok r -> hs_ok (finish_call id st bd r) /\ r_peers (finish_call id st bd r) = r_peers r.
Proof.
  intros H. unfold finish_call. case_match; [|done]. split; [|done].
  apply hs_output; [done|]. by eapply hs_same; [..|exact H].
Qed.

Lemma hs_foldl {B} (f : RpcNode K -> B -> RpcNode K) l r :
  (forall r x, hs_ok r -> hs_ok (f r x)) -> hs_ok r -> hs_ok (foldl f r l).
Proof. intros Hf. revert r. induction l as [|x l IH]; intros r H; simpl; auto. Qed.

Lemma hs_finishes st ids r :
  hs_ok r -> hs_ok (foldl (fun r id => finish_call id st [] r) r ids) /\
  r_peers (foldl (fun r id => finish_call id st [] r) r ids) = r_peers r.
Proof.
  revert r. induction ids as [|id ids IH]; intros r H; [done|]. simpl.
  destruct (hs_finish id st [] r H) as [H1 E1]. rewrite <- E1. by apply IH.
Qed.

Lemma hs_teardown key p r :
  hs_ok r -> r_peers r !! key = Some p ->
  hs_ok (teardown key p true r).2 /\
  r_peers (teardown key p true r).2 !! key = Some (teardown key p true r).1.
Proof.
  intros H Hp. unfold teardown. cbn [fst snd]. set (p' := set_next_hello 0 _).
  destruct (hs_peers _ H _ _ Hp) as [E1 E2 E3].
  assert (H1 : hs_ok (put key p' (set_views (drop_view (p_addr p) (r_views r)) r))).
  { destruct H as [H1 H2 H3 H4 H5]. split; simpl; try done.
    - apply map_Forall_insert_2; [|done]. by split.
    - intros k Hk. unfold drop_view in Hk. rewrite E1 in Hk.
      apply lookup_delete_is_Some in Hk as [Hne Hk]. rewrite lookup_insert_ne by done. auto.
    - by apply views_ok_drop. }
  unfold fail_calls_to. destruct (hs_finishes rpcstatus.kPeerDown
    (fst <$> filter (fun q => pc_key (snd q) = ekey (p_addr p)) (map_to_list
      (r_calls (put key p' (set_views (drop_view (p_addr p) (r_views r)) r)))))
    _ H1) as [H2 E]. split; [exact H2|]. rewrite E. simpl. by rewrite lookup_insert_eq.
Qed.

Lemma hs_send_hello key p r :
  hs_ok r -> r_peers r !! key = Some p ->
  hs_ok (send_hello key p r).2 /\ r_peers (send_hello key p r).2 !! key = Some (send_hello key p r).1.
Proof.
  intros H Hp. unfold send_hello. cbn [fst snd]. destruct (hs_peers _ H _ _ Hp).
  apply (hs_put key p); [by apply hs_output|done|by split|done].
Qed.

(** The one place where an acknowledgement is believed. *)
Lemma hs_hello f h r :
  (is_ack h = true -> echo_boot h = b -> A (ekey f)) -> hs_ok r -> hs_ok (handle_hello f h r).
Proof.
  intros Hack H. unfold handle_hello. destruct (hs_peer f r H) as [H0 P0].
  destruct (peer f r) as [p r0]. cbn [fst snd] in *. set (rs := negb _ && negb _).
  destruct (is_ack h) eqn:Eh; cbn [negb].
  - destruct (Z.eqb_spec (echo_boot h) (r_boot r0)) as [Eb|]; cbn [negb]; [|done].
    rewrite (hs_boot _ H0) in Eb.
    assert (H1 : hs_ok (if rs then teardown (ekey f) p true r0 else (p, r0)).2 /\
      r_peers (if rs then teardown (ekey f) p true r0 else (p, r0)).2 !! ekey f =
      Some (if rs then teardown (ekey f) p true r0 else (p, r0)).1)
      by (destruct rs; [by apply hs_teardown|done]).
    destruct (if rs then _ else _) as [p1 r1]. cbn [fst snd] in H1. destruct H1 as [H1 P1].
    destruct (hs_peers _ H1 _ _ P1) as [A1 A2 A3].
    destruct (hs_put (ekey f) p1 (set_acked true (set_remote_boot (sender_boot h) p1)) r1)
      as [H2 P2]; [done|done|split; simpl; auto|done|].
    case_match; [by apply hs_establish|done].
  - assert (H1 : let x := (if rs then let '(p, r) := teardown (ekey f) p true r0 in (set_acked false p, r)
                           else (p, r0)) in
      hs_ok x.2 /\ exists q, r_peers x.2 !! ekey f = Some q /\ p_session q = p_session x.1 /\
        (p_acked x.1 = p_acked q \/ p_acked x.1 = false /\ p_session x.1 = false) /\ p_addr x.1 = p_addr q).
    { destruct rs; [|cbn; eauto 10]. destruct (hs_teardown (ekey f) p r0 H0 P0) as [H1 P1].
      destruct (teardown (ekey f) p true r0) as [p1 r1] eqn:Et. cbn in *.
      assert (p_session p1 = false) as Es by (unfold teardown in Et; by simplify_eq).
      split; [done|]. exists p1. eauto 10. }
    destruct (if rs then _ else _) as [p1 r1]. cbn in H1. destruct H1 as (H1 & q & Pq & Es & Ea & Ead).
    destruct (hs_peers _ H1 _ _ Pq) as [A1 A2 A3].
    destruct (hs_put (ekey f) q (set_remote_boot (sender_boot h) p1) r1) as [H2 P2]; try done.
    { split; simpl; [congruence|..].
      - destruct Ea as [->|[-> _]]; [done|discriminate].
      - destruct Ea as [->|[_ ->]]; [rewrite <- Es; auto|discriminate]. }
    { simpl. congruence. }
    set (p2 := set_remote_boot _ p1) in *. set (r2 := output _ _).
    assert (H3 : hs_ok r2) by (by apply hs_output).
    assert (P3 : r_peers r2 !! ekey f = Some p2) by done.
    assert (H4 : let x := (if negb (p_acked p2) && (p_next_hello p2 <=? r_now r0)
                           then send_hello (ekey f) p2 r2 else (p2, r2)) in
      hs_ok x.2 /\ r_peers x.2 !! ekey f = Some x.1)
      by (case_match; [by apply hs_send_hello|done]).
    destruct (if negb (p_acked p2) && _ then _ else _) as [p3 r3]. cbn in H4. destruct H4 as [H4 P4].
    destruct (negb (p_remote_boot p3 =? 0)); [|done]. destruct (p_acked p3) eqn:E3; [|done].
    destruct (p_session p3); [done|]. by apply hs_establish.
Qed.

Lemma hs_stranger f r : hs_ok r -> hs_ok (handle_stranger f r).
Proof.
  intros H. unfold handle_stranger. case_match; [by eapply hs_same; [..|exact H]|].
  match goal with |- context [peer f ?x] => assert (Hx : hs_ok x) by (by eapply hs_same; [..|exact H]) end.
  destruct (hs_peer f _ Hx) as [H1 P1]. destruct (peer f _) as [p r1]. by apply hs_send_hello.
Qed.

Lemma established_acked key p r :
  hs_ok r -> r_peers r !! key = Some p -> is_established p = true -> A (ekey (p_addr p)).
Proof.
  intros H Hp. destruct (hs_peers _ H _ _ Hp) as [-> E2 _]. unfold is_established.
  intros [[_ Ha]%andb_prop _]%andb_prop. auto.
Qed.

Lemma hs_respond ctx st bd r : hs_ok r -> hs_ok (rpc_respond ctx st bd r).
Proof.
  intros H. unfold rpc_respond. destruct (r_peers r !! _) as [p|] eqn:Ep; [|done].
  destruct (is_established p) eqn:Ee; [|done].
  eapply hs_sends; [apply session_send_sends; by eapply established_acked|done].
Qed.

Lemma hs_dispatch f d r : hs_ok r -> hs_ok (dispatch f d r).
Proof.
  intros H. unfold dispatch. repeat case_match; try done;
    [by apply hs_output|by apply hs_respond|by apply hs_finish].
Qed.

(** The acknowledgements among the datagrams received. *)
Definition acks_in (rc : list (Endpoint * bytes)) : Prop :=
  forall f d h, (f, d) ∈ rc -> decode_hello d = Val h -> is_ack h = true -> echo_boot h = b -> A (ekey f).

Lemma hs_pump rc r : acks_in rc -> hs_ok r -> hs_ok (rpc_pump rc r).
Proof.
  unfold rpc_pump, pump. revert r. induction rc as [|[f d] rc IH]; intros r Ha H; [done|].
  simpl. apply IH.
  { intros f' d' h Hin. apply Ha. by right. }
  destruct (is_hello_total d) as [Hd|Hd]; rewrite Hd.
  - destruct (decode_hello d) as [h| |] eqn:Ed; [|done..]. apply hs_hello; [|done].
    intros. apply (Ha f d h); try done. left.
  - destruct (r_views r !! ekey f) as [v|] eqn:Ev; [|by apply hs_stranger].
    destruct (Nat.ltb_spec (length (inbox v)) kMaxQueued); [|done].
    destruct H as [H1 H2 H3 H4 H5]. split; simpl; try done; [|by apply views_ok_push].
    intros k Hk. apply H2. apply lookup_insert_is_Some in Hk as [<-|[_ Hk]]; [by eexists|done].
Qed.

Lemma hs_poll rc ps r : acks_in rc -> hs_ok r -> hs_ok (rpc_poll rc ps r).
Proof.
  intros Ha H. apply hs_foldl; [|by apply hs_pump]. intros r1 [key pl] H1. unfold deliver_to. simpl.
  repeat case_match; try done. apply hs_foldl; [|done]. intros. by apply hs_dispatch.
Qed.

Lemma hs_tick r : hs_ok r -> hs_ok (rpc_tick r).
Proof.
  intros H. unfold rpc_tick. apply hs_finishes. apply hs_foldl; [|done]. intros r1 key H1.
  unfold tick_peer. destruct (r_peers r1 !! key) as [p|] eqn:Ep; [|done].
  destruct (p_session p) eqn:Es; [by apply hs_flush_pending|].
  case_match; [by apply hs_send_hello|done].
Qed.

Lemma hs_peer_dead ep r : hs_ok r -> hs_ok (peer_dead ep r).
Proof.
  intros H. unfold peer_dead. destruct (r_peers r !! ekey ep) as [p|] eqn:Ep; [|by apply hs_finishes].
  destruct (hs_teardown (ekey ep) p r H Ep) as [H1 P1].
  assert (Es : p_session (teardown (ekey ep) p true r).1 = false) by done.
  destruct (teardown (ekey ep) p true r) as [p1 r1]. cbn [fst snd] in *.
  destruct H1 as [H1 H2 H3 H4 H5]. split; simpl; try done; [by apply map_Forall_delete|].
  intros k Hk. destruct (H2 k Hk) as (q & Hq & Hqs). exists q. split; [|done].
  rewrite lookup_delete_ne; [done|]. intros <-. congruence.
Qed.

Lemma hs_call to m body t cb r : hs_ok r -> hs_ok (call to m body t cb r).
Proof.
  intros H. unfold call. destruct (_ <? _)%nat; [by apply hs_output|].
  set (r0 := set_next_req _ r). assert (H0 : hs_ok r0) by (by eapply hs_same; [..|exact H]).
  destruct (hs_peer to r0 H0) as [H1 P1]. destruct (peer to r0) as [p r1]. cbn [fst snd] in *.
  destruct (is_established p) eqn:Ee.
  - assert (Hs : sends r1 (session_send p (encode_rpc Request m (r_next_req r) 0 body) r1).2)
      by (apply session_send_sends; by eapply established_acked).
    destruct (session_send _ _ r1) as [ok r2]. simpl in Hs. pose proof (hs_sends _ _ Hs H1) as H2.
    destruct ok; simpl; [by eapply hs_same; [..|exact H2]|by apply hs_output].
  - set (p' := set_pending _ p). destruct (hs_peers _ H1 _ _ P1).
    destruct (hs_put (ekey to) p p' r1) as [H2 P2]; [done|done|by split|done|].
    assert (H3 : hs_ok (if p_next_hello p' <=? r_now r1
      then (send_hello (ekey to) p' (put (ekey to) p' r1)).2 else put (ekey to) p' r1))
      by (case_match; [by apply hs_send_hello|done]).
    by eapply hs_same; [..|exact H3].
Qed.

Definition event_acks (e : RpcEvent K) : Prop :=
  match e with RPoll rc _ => acks_in rc | _ => True end.

Lemma hs_step e r : event_acks e -> hs_ok r -> hs_ok (rpc_step e r).
Proof.
  intros Ha H. destruct e; simpl in *;
    auto using hs_call, hs_respond, hs_poll, hs_tick, hs_peer_dead.
  by eapply hs_same; [..|exact H].
Qed.

Lemma hs_run es r : Forall event_acks es -> hs_ok r -> hs_ok (rpc_run es r).
Proof.
  intros Ha. revert r. induction Ha as [|e es He _ IH]; intros r H; [done|]. simpl.
  apply IH. by apply hs_step.
Qed.
End handshake.

(** ** Properties *)

(** C10: the callback of every call runs exactly once: at any point the callbacks
    handed to [call] are those that have run and those of the calls still
    waiting, whatever datagrams, responses (duplicate, late or forged), restarts
    and deaths of peers occur. *)
Theorem callbacks_exactly_once {K} boot (es : list (RpcEvent K)) :
  Z.of_nat (length es) < 2 ^ 64 - 1 ->
  let r := rpc_run es (new_rpc boot) in
  mbind issued es ≡ₚ ran r ++ waiting r.
Proof.
  intros Hn. cbv zeta. pose proof (run_account es (new_rpc boot)) as H. unfold account in H.
  rewrite H.
  - unfold ran, waiting. simpl. by rewrite map_to_list_empty, app_nil_r.
  - intros id [c Hc]. simpl in Hc. by rewrite lookup_empty in Hc.
  - simpl. lia.
  - simpl. lia.
Qed.

(** C27: no call outlives its deadline: a tick leaves only calls whose deadline is
    still ahead, so every callback has run by the first tick after it. *)
Theorem tick_ends_overdue_calls {K} (r : RpcNode K) id c :
  r_calls (rpc_tick r) !! id = Some c -> r_now r < pc_deadline c.
Proof.
  unfold rpc_tick. intros [Hc Hn]%finish_calls_lookup.
  destruct (Z.lt_ge_cases (r_now r) (pc_deadline c)) as [|Hle]; [done|]. destruct Hn.
  apply list_elem_of_fmap. exists (id, c). split; [done|]. apply list_elem_of_filter.
  split; [simpl; lia|]. by apply elem_of_map_to_list.
Qed.

(** An acknowledgement of boot [b] came from [key] during the run. *)
Definition acknowledged {K} (es : list (RpcEvent K)) (b key : Z) : Prop :=
  exists rc ps f d h, RPoll rc ps ∈ es /\ (f, d) ∈ rc /\ ekey f = key /\
    decode_hello d = Val h /\ is_ack h = true /\ echo_boot h = b.

Lemma hs_new {K} A b : hs_ok (K := K) A b (new_rpc b).
Proof.
  split; simpl; try done.
  intros key [v Hv]. by rewrite lookup_empty in Hv.
Qed.


(** The per-peer queues are isolated: at any time each holds only non-HELLO
    datagrams, at most 1024, under the key of its own peer, and exists only while that peer
    has a session, so strangers' datagrams never reach one. *)
Theorem demux_isolates_peers {K} b (es : list (RpcEvent K)) :
  let r := rpc_run es (new_rpc b) in
  views_ok (r_views r) /\
  forall key, is_Some (r_views r !! key) -> exists p, r_peers r !! key = Some p /\ p_session p = true.
Proof.
  cbv zeta. assert (H : hs_ok (fun _ => True) b (rpc_run es (new_rpc b))).
  { apply hs_run; [|apply hs_new]. apply Forall_forall. intros [] _; done. }
  split; apply H.
Qed.

(** ** A restarted requester *)
Module RestartSample.
Definition nx : Endpoint := mkEndpoint 16779786 10275.
Definition ny : Endpoint := mkEndpoint 33557002 10275.
Definition nz : Endpoint := mkEndpoint 50334218 10275.

Definition hello_from (x : Endpoint) (boot : Z) : Endpoint * bytes :=
  (x, encode_hello (mkHello false boot 0)).
Definition ack_from (x : Endpoint) (boot echo : Z) : Endpoint * bytes :=
  (x, encode_hello (mkHello true boot echo)).

(** Node y serves a request of x's first boot; x restarts and shakes hands again
    before y answers. *)
Definition y : RpcNode nat :=
  rpc_run [RPoll [hello_from nx 1; ack_from nx 1 7] [];
           RPoll [] [(ekey nx, [encode_rpc Request FwdSubmit 1 0 [Byte.x01]])];
           RPoll [hello_from nx 2; ack_from nx 2 7] [];
           RRespond (mkCtx nx 1 FwdSubmit) 0 [Byte.x02]]
    (register FwdSubmit (new_rpc 7)).

(** x's second boot has one call out, to z, and it has the number y answers. *)
Definition x_calling : RpcNode nat :=
  rpc_run [RPoll [hello_from ny 7; ack_from ny 7 2; hello_from nz 9; ack_from nz 9 2] [];
           RCall nz Apply [Byte.x03] 1000 42%nat] (new_rpc 2).
Definition x_after : RpcNode nat :=
  rpc_run [RPoll [] [(ekey ny, [encode_rpc Response FwdSubmit 1 0 [Byte.x02]])]] x_calling.
End RestartSample.

(** A response is matched by number alone, and numbers start over with each
    boot.  Here y answers a request of x's previous boot over the new session, and
    x takes it for z's answer to the first call of its new boot: the callback of
    the call to z runs with y's status, and z's own answer will be ignored. *)
Theorem response_of_old_boot_completes_new_call :
  last (r_out RestartSample.y) =
    Some (SendFrame RestartSample.nx (encode_rpc Response FwdSubmit 1 0 [Byte.x02])) /\
  (pc_key <$> r_calls RestartSample.x_calling !! 1) = Some (ekey RestartSample.nz) /\
  r_calls RestartSample.x_after !! 1 = None /\
  last (r_out RestartSample.x_after) = Some (RunCallback 42%nat 0 [Byte.x02]).
Proof.
  split_and!; vm_compute; reflexivity.
Qed.

Lemma callbacks_exactly_once_witness :
  let es := [RPoll [RestartSample.hello_from RestartSample.nz 9;
                    RestartSample.ack_from RestartSample.nz 9 2] [];
             RCall RestartSample.nz Apply [Byte.x03] 1000 42%nat; RTick] in
  mbind issued es ≡ₚ ran (rpc_run es (new_rpc 2)) ++ waiting (rpc_run es (new_rpc 2)).
Proof. intros es. apply (callbacks_exactly_once 2 es). vm_compute. reflexivity. Defined.

Lemma tick_ends_overdue_calls_witness : r_now RestartSample.x_calling < 1000.
Proof.
  apply (tick_ends_overdue_calls RestartSample.x_calling 1
    (mkPendingCall (ekey RestartSample.nz) 1000 42%nat)).
  vm_compute. reflexivity.
Defined.

