(* ===== verification/Stack.v ===== *)
(** * Stack: the queue node on its RPC layer

    A QueueNode owns an RpcNode (queue_node.h): its calls and responses go down to the
    RPC layer, and the callbacks and requests of the RPC layer come up as its events.
    The composition is a relation, because what a session takes and refuses is the
    environment's.  The theorem is the one a client relies on: nobody is answered twice,
    and when no call is under way everybody has been answered. *)

From Stdlib Require Import ZArith Lia.
From stdpp Require Import base tactics list numbers gmap.
From S2P Require Import Prelude Bytes Wire Records Table StoreApi Ring NodeState QueueNode NodeSteps NodeRules NodeSafety.
From S2P Require Import Demux Rpc RpcSafety Answers.

Section stack.
Context {S M : Type} `{!StoreOps S} `{!StoreLaws S} `{!Membership M}.
Implicit Types (n : Node S M) (r : RpcNode Kont).

Record Stack := mkStack { sk_node : Node S M; sk_rpc : RpcNode Kont }.

(** The handlers that the constructor of QueueNode registers. *)
Definition register_handlers r : RpcNode Kont :=
  foldl (fun r m => register m r) r [FwdSubmit; Replicate; Apply; FwdAck; FwdStatus; Claim; Resync; DrainHandoff].

(** ** Down: what the node hands to the RPC layer *)

(** [call] runs its callback at once: the body is too large, or the session is full. *)
Definition refused (to : Endpoint) (body : bytes) r : bool :=
  (kMaxRpcBody <? length body)%nat ||
  (is_established (fst (peer to r)) && bool_decide (head (r_full r) = Some true)).

(** The outputs of a node reach the RPC layer in order.  A refused call has run its
    callback inside the node and is no output of it.  Request ids have not run out. *)
Inductive feeds (timeout : Z) : list Out -> RpcNode Kont -> RpcNode Kont -> Prop :=
  | feeds_nil r : feeds timeout [] r r
  | feeds_refused to m body k os r r' :
      refused to body r = true -> r_next_req r < 2 ^ 64 - 1 ->
      feeds timeout os (call to m body timeout k r) r' -> feeds timeout os r r'
  | feeds_call to m body k os r r' :
      refused to body r = false -> r_next_req r < 2 ^ 64 - 1 ->
      feeds timeout os (call to m body timeout k r) r' -> feeds timeout (OCall to m body k :: os) r r'
  | feeds_respond ctx st body os r r' :
      feeds timeout os (rpc_respond ctx st body r) r' -> feeds timeout (ORespond ctx st body :: os) r r'
  | feeds_client o os r r' :
      match o with OCall _ _ _ _ | ORespond _ _ _ => False | _ => True end ->
      feeds timeout os r r' -> feeds timeout (o :: os) r r'.

(** The node handles [e]. *)
Definition outs_of (e : Event M) n : list Out := drop (length (n_out n)) (n_out (node_step e n)).

Definition node_does (e : Event M) (s s' : Stack) : Prop :=
  sk_node s' = node_step e (sk_node s) /\
  feeds (rpc_timeout (n_cfg (sk_node s))) (outs_of e (sk_node s)) (sk_rpc s) (sk_rpc s').

(** ** Up: what the RPC layer runs *)

Definition news r r' : list (RpcOut Kont) := drop (length (r_out r)) (r_out r').

Inductive reacts : list (RpcOut Kont) -> Stack -> list (Event M) -> Stack -> Prop :=
  | reacts_nil s : reacts [] s [] s
  | reacts_callback k st body os s s1 es s' :
      node_does (EvResponse k st body) s s1 -> reacts os s1 es s' ->
      reacts (RunCallback k st body :: os) s (EvResponse k st body :: es) s'
  | reacts_handler ctx body os s s1 es s' :
      node_does (EvRequest ctx body) s s1 -> reacts os s1 es s' ->
      reacts (RunHandler ctx body :: os) s (EvRequest ctx body :: es) s'
  | reacts_sent o os s es s' :
      match o with SendHello _ _ | SendFrame _ _ => True | _ => False end ->
      reacts os s es s' -> reacts (o :: os) s es s'.

(** ** Steps: the client, [poll], [tick], [on_peer_dead], and the environment *)

(** Events that do not come from the RPC layer. *)
Definition own_event (e : Event M) : bool :=
  match e with
  | EvSubmit (_) (SubmitClient _) | EvStatus _ _ | EvLease _ _ | EvAck _ _ _ _ (AckClient _)
  | EvDrain | EvPeerAlive _ => true
  | _ => false
  end.

Inductive stack_step : Stack -> list (Event M) -> Stack -> Prop :=
  | ss_own e s s' : own_event e = true -> node_does e s s' -> stack_step s [e] s'
  | ss_poll received payloads n r es s' :
      let r1 := rpc_poll received payloads r in
      reacts (news r r1) (mkStack n r1) es s' -> stack_step (mkStack n r) es s'
  | ss_tick n r s' :
      let r1 := rpc_tick r in let e := EvTick (omap ran_of (news r r1)) in
      node_does e (mkStack n r1) s' -> stack_step (mkStack n r) [e] s'
  | ss_dead ep n r s' :
      let r1 := peer_dead ep r in let e := EvPeerDead (omap ran_of (news r r1)) in
      node_does e (mkStack n r1) s' -> stack_step (mkStack n r) [e] s'
  | ss_env mem now busy full n r :
      stack_step (mkStack n r) [EvEnv mem now busy] (mkStack (set_env mem now busy n) (set_rpc_env now full r)).

Inductive stack_run : Stack -> list (Event M) -> Stack -> Prop :=
  | sr_nil s : stack_run s [] s
  | sr_step s es s1 es' s' : stack_step s es s1 -> stack_run s1 es' s' -> stack_run s (es ++ es') s'.

(** The state after [QueueNode::open]. *)
Definition stack_start (mem : M) (cfg : NodeConfig) (store : S) (boot now : Z) (busy full : list bool)
    (s : Stack) : Prop :=
  sk_node s = node_open (set_env mem now busy (new_node mem cfg store boot)) /\
  feeds (rpc_timeout cfg) (n_out (sk_node s)) (set_rpc_env now full (register_handlers (new_rpc boot))) (sk_rpc s).

(** ** The RPC layer holds what the node has placed *)

Record rpc_ok r : Prop := { rk_ids : ids_below r; rk_next : 0 < r_next_req r }.

Lemma ran_app o1 o2 : omap (ran_of (K := Kont)) (o1 ++ o2) = omap ran_of o1 ++ omap ran_of o2.
Proof. apply omap_app. Qed.

(** A call runs its callback at once exactly when it is refused. *)
Lemma call_ran to m body t k r :
  ran (call to m body t k r) = ran r ++ (if refused to body r then [k] else []).
Proof.
  unfold ran, call, refused.
  destruct (kMaxRpcBody <? length body)%nat; cbn [orb]; [unfold output; cbn [r_out]; by rewrite ran_app|]. cbv zeta.
  assert (Ep : forall x, peer to (set_next_req x r) = (fst (peer to r), set_next_req x (snd (peer to r)))) by done.
  assert (Eo : r_out (snd (peer to r)) = r_out r /\ r_full (snd (peer to r)) = r_full r) by done.
  rewrite Ep. destruct (peer to r) as [p r2]. cbn [fst snd] in *. destruct Eo as [<- <-].
  destruct (is_established p); cbn [andb].
  - unfold session_send. cbn [r_full set_next_req].
    destruct (r_full r2) as [|[] fs]; cbn [head]; case_bool_decide; try done; simpl;
      rewrite ?ran_app; simpl; rewrite ?app_nil_r; done.
  - case_match; simpl; rewrite ?ran_app; simpl; rewrite ?app_nil_r; done.
Qed.

Lemma waiting_of_account r r' ws : ran r' = ran r ++ ws -> account r' ≡ₚ ws ++ account r -> waiting r' ≡ₚ waiting r.
Proof.
  unfold account. intros -> H. apply (Permutation_app_inv_l (ran r ++ ws)). rewrite H. solve_Permutation.
Qed.

Lemma call_holds to m body t k r :
  rpc_ok r -> r_next_req r < 2 ^ 64 - 1 ->
  waiting (call to m body t k r) ≡ₚ (if refused to body r then [] else [k]) ++ waiting r /\ rpc_ok (call to m body t k r).
Proof.
  intros [Hi Hn] Hb. destruct (call_account to m body t k r Hi) as (A & N & I); [lia|].
  split; [|split; [done|lia]]. pose proof (call_ran to m body t k r) as Hr. destruct (refused to body r).
  - by apply (waiting_of_account _ _ [k]).
  - unfold account in A. rewrite Hr, app_nil_r in A. apply (Permutation_app_inv_l (ran r)). rewrite A. solve_Permutation.
Qed.

(** Operations that only run callbacks. *)
Lemma quiet_holds r r' :
  quiet r r' -> rpc_ok r ->
  waiting r ≡ₚ omap ran_of (news r r') ++ waiting r' /\ rpc_ok r'.
Proof.
  intros [A N I [os E]] [Hi Hn]. assert (En : news r r' = os) by (unfold news; by rewrite E, drop_app_length).
  rewrite En. split.
  - unfold account, ran in A. rewrite E, ran_app, <- app_assoc in A. by apply Permutation_app_inv_l in A.
  - split; [|lia]. intros id H. rewrite N. auto.
Qed.

Lemma respond_holds ctx st body r : rpc_ok r -> waiting (rpc_respond ctx st body r) = waiting r /\ rpc_ok (rpc_respond ctx st body r).
Proof.
  intros Hk. unfold rpc_respond. destruct (r_peers r !! _) as [p|]; [|done]. destruct (is_established p); [|done].
  unfold session_send. destruct (r_full r) as [|[] fs]; simpl; split; try done; destruct Hk; by split.
Qed.

Lemma feeds_holds t os r r' :
  feeds t os r r' -> rpc_ok r -> waiting r' ≡ₚ calls os ++ waiting r /\ rpc_ok r'.
Proof.
  induction 1 as [r|to m b k os r r' Hr Hn _ IH|to m b k os r r' Hr Hn _ IH|ctx st b os r r' _ IH|o os r r' Ho _ IH];
    intros Hk; [done|..].
  - destruct (call_holds to m b t k r Hk Hn) as [W K]. rewrite Hr in W. destruct (IH K) as [W' K'].
    split; [by rewrite W', W|done].
  - destruct (call_holds to m b t k r Hk Hn) as [W K]. rewrite Hr in W. destruct (IH K) as [W' K'].
    split; [|done]. rewrite W', W. unfold calls. csimpl. solve_Permutation.
  - destruct (respond_holds ctx st b r Hk) as [W K]. destruct (IH K) as [W' K']. split; [|done].
    rewrite W'. unfold calls. csimpl. by rewrite W.
  - destruct (IH Hk) as [W K]. split; [|done]. rewrite W. unfold calls. csimpl. by destruct o.
Qed.

(** ** Runs of the stack are exchanges of the node *)

(** The node handles [e], with its continuations taken from the RPC layer. *)
Lemma node_does_exchange e fl s s1 es n' fl' :
  node_does e s s1 -> rpc_ok (sk_rpc s) ->
  exchange es (sk_node s1) (fl ++ waiting (sk_rpc s1)) n' fl' ->
  exchange (e :: es) (sk_node s) (resumed e ++ fl ++ waiting (sk_rpc s)) n' fl'.
Proof.
  intros [En Hf] Hk X. destruct (feeds_holds _ _ _ _ Hf Hk) as [W _].
  apply (ex_step _ _ _ _ (fl ++ waiting (sk_rpc s))); [done|]. rewrite <- En. eapply exchange_perm; [|exact X].
  rewrite W. unfold placed, outs_of. solve_Permutation.
Qed.

Lemma node_does_ok e s s' : node_does e s s' -> rpc_ok (sk_rpc s) -> rpc_ok (sk_rpc s').
Proof. intros [_ Hf] Hk. by destruct (feeds_holds _ _ _ _ Hf Hk). Qed.

Lemma node_does_only e s s' :
  node_does e s s' -> rpc_ok (sk_rpc s) ->
  exchange [e] (sk_node s) (resumed e ++ waiting (sk_rpc s)) (sk_node s') (waiting (sk_rpc s')) /\ rpc_ok (sk_rpc s').
Proof.
  intros Hd Hk. split; [|by eapply node_does_ok]. apply (node_does_exchange e [] _ _ _ _ _ Hd Hk). by apply ex_nil.
Qed.

Lemma reacts_exchange os s es s' :
  reacts os s es s' -> rpc_ok (sk_rpc s) ->
  exchange es (sk_node s) (omap ran_of os ++ waiting (sk_rpc s)) (sk_node s') (waiting (sk_rpc s')) /\
  rpc_ok (sk_rpc s').
Proof.
  induction 1 as [s|k st b os s s1 es s' Hd _ IH|ctx b os s s1 es s' Hd _ IH|o os s es s' Ho _ IH]; intros Hk.
  - split; [by apply ex_nil|done].
  - destruct (IH (node_does_ok _ _ _ Hd Hk)) as [X K]. split; [|done]. exact (node_does_exchange _ _ _ _ _ _ _ Hd Hk X).
  - destruct (IH (node_does_ok _ _ _ Hd Hk)) as [X K]. split; [|done]. exact (node_does_exchange _ _ _ _ _ _ _ Hd Hk X).
  - destruct (IH Hk) as [X K]. split; [|done]. by destruct o.
Qed.

Lemma stack_step_exchange s es s' :
  stack_step s es s' -> rpc_ok (sk_rpc s) ->
  exchange es (sk_node s) (waiting (sk_rpc s)) (sk_node s') (waiting (sk_rpc s')) /\ rpc_ok (sk_rpc s').
Proof.
  intros [e s0 s1 He Hd|rc ps n r es0 s1 r1 Hr|n r s1 r1 e Hd|ep n r s1 r1 e Hd|mem now busy full n r] Hk; simpl in *.
  - destruct (node_does_only _ _ _ Hd Hk) as [X K]. split; [|done].
    assert (Er : resumed e = []) by (by destruct e). by rewrite Er in X.
  - destruct (quiet_holds r r1 (poll_quiet rc ps r) Hk) as [W K]. destruct (reacts_exchange _ _ _ _ Hr K) as [X K'].
    split; [|done]. eapply exchange_perm; [|exact X]. by rewrite W.
  - destruct (quiet_holds r r1 (tick_quiet r) Hk) as [W K].
    destruct (node_does_only e _ _ Hd K) as [X K']. split; [|done].
    eapply exchange_perm; [|exact X]. by rewrite W.
  - destruct (quiet_holds r r1 (peer_dead_quiet ep r) Hk) as [W K].
    destruct (node_does_only e _ _ Hd K) as [X K']. split; [|done].
    eapply exchange_perm; [|exact X]. by rewrite W.
  - split; [|destruct Hk; by split]. apply (ex_step _ _ _ _ (waiting r)); [done|]. apply ex_nil. unfold placed. simpl.
    by rewrite drop_all.
Qed.

Lemma stack_run_exchange s es s' :
  stack_run s es s' -> rpc_ok (sk_rpc s) ->
  exchange es (sk_node s) (waiting (sk_rpc s)) (sk_node s') (waiting (sk_rpc s')) /\ rpc_ok (sk_rpc s').
Proof.
  induction 1 as [s|s es s1 es' s' H1 _ IH]; intros Hk; [split; [by apply ex_nil|done]|].
  destruct (stack_step_exchange _ _ _ H1 Hk) as [X K]. destruct (IH K) as [X' K']. split; [|done].
  by eapply exchange_app.
Qed.

Lemma open_wf n : node_wf n -> node_wf (node_open n).
Proof.
  intros Hw. assert (He : evolves (fun _ _ _ => True) (grant_rule False False) n (node_open n))
    by (by apply (node_open_steps (fun _ => False) (fun _ => False))).
  by eapply evolves_wf.
Qed.

Lemma register_ok boot now full : rpc_ok (set_rpc_env now full (register_handlers (new_rpc boot))) /\
  waiting (set_rpc_env now full (register_handlers (new_rpc boot))) = [].
Proof.
  split; [split; [|done]|done]. intros id [c Hc]. simpl in Hc. by rewrite lookup_empty in Hc.
Qed.

End stack.
Arguments Stack : clear implicits.

(** ** The property *)

(** C4: over any run of a queue node on its RPC layer, from the opening of its store on,
    whatever clients ask, peers send, time out or refuse, and commits fail: the answers
    given are exactly those asked for, each once, less the ones still held by a pending
    submit, a quorum or a call; and when no call is under way, every client call and every
    request of a peer has been answered exactly once. *)
Theorem requests_answered_once {S M} `{!StoreOps S} `{!StoreLaws S} `{!Membership M}
    (mem : M) cfg (store : S) boot now busy full s0 es s :
  ids_ok (st_table store) -> Z.of_nat (length es) < 2 ^ 32 - 1 ->
  stack_start mem cfg store boot now busy full s0 -> stack_run s0 es s ->
  answers (n_out (sk_node s)) ++ waits (sk_node s) ++ kept (waiting (sk_rpc s)) ≡ₚ mbind asked es /\
  (r_calls (sk_rpc s) = ∅ -> answers (n_out (sk_node s)) ≡ₚ mbind asked es).
Proof.
  intros Hids Hlen [En Hf] Hrun. set (n0 := set_env mem now busy (new_node mem cfg store boot)) in En.
  assert (Hw0 : node_wf n0) by (split; [constructor|exact Hids|by apply (bool_decide_unpack _)]).
  destruct (register_ok boot now full) as [K0 W0]. destruct (feeds_holds _ _ _ _ Hf K0) as [W1 K1].
  rewrite W0, app_nil_r, En in W1.
  destruct (open_ledger n0) as (Ha & Hk & Hb & Hq); [done|done|].
  destruct (stack_run_exchange _ _ _ Hrun K1) as [X K2]. rewrite En in X.
  apply (exchange_perm _ _ _ _ _ _ W1) in X.
  destruct (exchange_ledger _ _ _ _ _ X Hb (open_wf _ Hw0)) as (os & O & A & B);
    [rewrite Hq; simpl; lia|rewrite Hq; simpl; lia|].
  apply app_eq_nil in Ha as [Ha Hn]. rewrite Hn, Hk in A. simpl in A. rewrite app_nil_r in A.
  assert (Ho : answers (n_out (sk_node s)) = answers os) by (by rewrite O, answers_of_app, Ha).
  rewrite Ho. split; [exact A|]. intros Hc.
  assert (Hz : waiting (sk_rpc s) = []) by (unfold waiting; by rewrite Hc, map_to_list_empty).
  rewrite Hz in A, B. rewrite (backed_nothing _ B) in A. simpl in A. by rewrite app_nil_r in A.
Qed.

(** ** A run *)

(** Sessions take everything: the calls and responses of [os] in turn. *)
Fixpoint feed_all (timeout : Z) (os : list Out) (r : RpcNode Kont) : option (RpcNode Kont) :=
  match os with
  | [] => Some r
  | OCall to m body k :: os =>
      if refused to body r || (2 ^ 64 - 1 <=? r_next_req r) then None
      else feed_all timeout os (call to m body timeout k r)
  | ORespond ctx st body :: os => feed_all timeout os (rpc_respond ctx st body r)
  | _ :: os => feed_all timeout os r
  end.

Lemma feed_all_feeds t os r r' : feed_all t os r = Some r' -> feeds t os r r'.
Proof.
  revert r. induction os as [|o os IH]; intros r; simpl; [intros [= <-]; constructor|].
  destruct o; try (intros H; apply feeds_client; [done|by apply IH]).
  - destruct (refused to body r) eqn:Hr; [done|]. simpl. destruct (Z.leb_spec (2 ^ 64 - 1) (r_next_req r)); [done|].
    intros H'. apply feeds_call; [done|lia|by apply IH].
  - intros H. apply feeds_respond. by apply IH.
Qed.

Module StackSample.
Import Sample.
Definition params : SubmitParams := mkParams key1 url1 [Byte.x78] 0 0.
Definition owner : Endpoint := owner_for key1 [node_a; node_b; node_c].
Definition others : list Endpoint := filter (fun e => e <> owner) [node_a; node_b; node_c].
Definition cfg : NodeConfig := default_config owner.
Definition run1 (e : Event StaticMembership) (s : Stack MemStore StaticMembership) : Stack MemStore StaticMembership :=
  mkStack (node_step e (sk_node s))
    (default (sk_rpc s) (feed_all 1000 (outs_of e (sk_node s)) (sk_rpc s))).
Definition s0 : Stack MemStore StaticMembership :=
  mkStack (node_open (set_env NodeSample.members3 10 [] (new_node NodeSample.members3 cfg (mkMem empty_table []) 1)))
    (set_rpc_env 10 [] (register_handlers (new_rpc 1))).
Definition submitted : Event StaticMembership := EvSubmit params (SubmitClient 7).
Definition s1 := run1 submitted s0.
(** The first of the other nodes dies. *)
Definition dead_rpc (i : nat) (s : Stack MemStore StaticMembership) : RpcNode Kont :=
  peer_dead (default no_endpoint (others !! i)) (sk_rpc s).
Definition dead (i : nat) (s : Stack MemStore StaticMembership) : Event StaticMembership :=
  EvPeerDead (omap ran_of (news (sk_rpc s) (dead_rpc i s))).
Definition s2 := run1 (dead 0 s1) (mkStack (sk_node s1) (dead_rpc 0 s1)).
Definition s3 := run1 (dead 1 s2) (mkStack (sk_node s2) (dead_rpc 1 s2)).
Definition events : list (Event StaticMembership) := [submitted; dead 0 s1; dead 1 s2].
End StackSample.

Lemma requests_answered_once_witness :
  answers (n_out (sk_node StackSample.s3)) ≡ₚ [WSubmit 7].
Proof.
  change [WSubmit 7] with (mbind (M := list) asked StackSample.events).
  apply (requests_answered_once NodeSample.members3 StackSample.cfg (mkMem empty_table []) 1 10 [] []
    StackSample.s0).
  - intros id j H. vm_compute in H. discriminate H.
  - vm_compute. reflexivity.
  - split; [reflexivity|]. apply feed_all_feeds. vm_compute. reflexivity.
  - apply (sr_step _ [StackSample.submitted] StackSample.s1 [StackSample.dead 0 StackSample.s1; StackSample.dead 1 StackSample.s2]).
    { apply ss_own; [reflexivity|]. split; [reflexivity|]. apply feed_all_feeds. vm_compute. reflexivity. }
    apply (sr_step _ [StackSample.dead 0 StackSample.s1] StackSample.s2 [StackSample.dead 1 StackSample.s2]).
    { apply (ss_dead (default no_endpoint (StackSample.others !! 0%nat)) (sk_node StackSample.s1) (sk_rpc StackSample.s1)).
      split; [reflexivity|]. apply feed_all_feeds. vm_compute. reflexivity. }
    apply (sr_step _ [StackSample.dead 1 StackSample.s2] StackSample.s3 []); [|constructor].
    apply (ss_dead (default no_endpoint (StackSample.others !! 1%nat)) (sk_node StackSample.s2) (sk_rpc StackSample.s2)).
    split; [reflexivity|]. apply feed_all_feeds. vm_compute. reflexivity.
  - vm_compute. reflexivity.
Defined.
