(* ===== verification/Text.v ===== *)
(** * Text: the std::string operations the text parsers use

    Searching, cutting, lower-casing and number parsing of [std::string], as the
    HTTP code (src/src/http.cc, src/src/http_client.cc), the node process
    (src/src/node_main.cc) and the history checker (src/src/verify_main.cc) use
    them, with the lemmas their round trips need. *)

From Stdlib Require Import ZArith Lia String.
From stdpp Require Import base tactics list numbers gmap.
From S2P Require Import Prelude Bytes Disk.

(** A double quote, and a string between two. *)
Definition dq : bytes := [Byte.x22].
Definition quoted (s : bytes) : bytes := dq ++ s ++ dq.

(** ** Searching and cutting *)

(** [s.find(p)]; [None] is [npos]. *)
Fixpoint find_sub (p s : bytes) : option nat :=
  if starts_with p s then Some 0%nat
  else match s with [] => None | _ :: s' => S <$> find_sub p s' end.

(** [s.find(p, pos)] for a non-empty [p]. *)
Definition find_from (p s : bytes) (pos : nat) : option nat :=
  Nat.add pos <$> find_sub p (drop pos s).

(** [s.rfind(c)] *)
Fixpoint rfind_char (c : byte) (s : bytes) : option nat :=
  match s with
  | [] => None
  | x :: s' =>
      match rfind_char c s' with
      | Some i => Some (S i)
      | None => if decide (x = c) then Some 0%nat else None
      end
  end.

(** [s.substr(off, n)] for [off <= s.size()]. *)
Definition substr (s : bytes) (off n : nat) : bytes := take n (drop off s).

Definition sp : byte := Byte.x20.
Definition cr : byte := Byte.x0d.
Definition lf : byte := Byte.x0a.
Definition comma : byte := Byte.x2c.
Definition crlf : bytes := [cr; lf].

(** [std::tolower] of the C locale on each character. *)
Definition tolower (c : byte) : byte :=
  let z := Z_of_byte c in if (65 <=? z) && (z <=? 90) then byte_of_Z (z + 32) else c.

Definition lower (s : bytes) : bytes := tolower <$> s.

(** ** Numbers *)

(** White space, an optional sign, digits: the sign and the magnitude. *)
Definition scan_number (s : bytes) : option (bool * Z) :=
  let s := skip_space s in
  let '(neg, s) :=
    match s with
    | c :: s' => if decide (c = Byte.x2d) then (true, s')
                 else if decide (c = Byte.x2b) then (false, s') else (false, s)
    | [] => (false, [])
    end in
  pair neg <$> read_digits s 0 false.

(** [strtoul(s, nullptr, 10)]: 0 without a digit, [ULONG_MAX] out of range. *)
Definition strtoul (s : bytes) : Z :=
  match scan_number s with
  | None => 0
  | Some (neg, v) => if 2 ^ 64 <=? v then 2 ^ 64 - 1 else if neg then u64 (- v) else v
  end.

(** [std::stoul(s)]: [None] is the exception it throws in both cases. *)
Definition stoul (s : bytes) : option Z :=
  match scan_number s with
  | None => None
  | Some (neg, v) => if 2 ^ 64 <=? v then None else Some (if neg then u64 (- v) else v)
  end.

(** ** Streams *)

(** [std::getline(in, out, sep)]: the text up to [sep] and what follows it;
    [None] when the stream has nothing left. *)
Fixpoint break_at (sep : byte) (s : bytes) : bytes * bytes :=
  match s with
  | [] => ([], [])
  | x :: s' => if decide (x = sep) then ([], s') else
               let '(a, b) := break_at sep s' in (x :: a, b)
  end.

Definition getline (sep : byte) (s : bytes) : option (bytes * bytes) :=
  match s with [] => None | _ => Some (break_at sep s) end.

(** [while (std::getline(in, line))] *)
Fixpoint lines_loop (fuel : nat) (s : bytes) : list bytes :=
  match fuel, getline lf s with
  | S fuel', Some (l, s') => l :: lines_loop fuel' s'
  | _, _ => []
  end.

Definition lines (s : bytes) : list bytes := lines_loop (length s) s.

(** The loop over a list with separators, [find] from [pos] on: the pieces, empty
    ones included. *)
Fixpoint split_loop (fuel : nat) (sep : byte) (s : bytes) (pos : nat) : list bytes :=
  match fuel with
  | O => []
  | S fuel' =>
      if (pos <? length s)%nat then
        let c := default (length s) (find_from [sep] s pos) in
        substr s pos (c - pos) :: split_loop fuel' sep s (c + 1)
      else []
  end.

Definition split (sep : byte) (s : bytes) : list bytes := split_loop (length s) sep s 0.

(** [in >> word]: skip white space, read up to the next. *)
Fixpoint break_space (s : bytes) : bytes * bytes :=
  match s with
  | [] => ([], [])
  | x :: s' => if is_space x then ([], s) else
               let '(a, b) := break_space s' in (x :: a, b)
  end.

Definition read_word (s : bytes) : option (bytes * bytes) :=
  match skip_space s with [] => None | s' => Some (break_space s') end.

(** ** Lemmas *)

Lemma starts_with_app p s : starts_with p (p ++ s) = true.
Proof. induction p as [|x p IH]; simpl; [done|]. by rewrite bool_decide_true, IH. Qed.

Lemma starts_with_spec p s : starts_with p s = true <-> exists r, s = p ++ r.
Proof.
  split; [|intros [r ->]; apply starts_with_app]. revert s.
  induction p as [|x p IH]; intros s; [by exists s|]. destruct s as [|y s]; [done|]. simpl.
  intros [->%bool_decide_eq_true Hs]%andb_true_iff. destruct (IH _ Hs) as [r ->]. by exists r.
Qed.

(** Text without the first character of the pattern is skipped as a whole. *)
Lemma find_sub_skip c p l s :
  c ∉ l -> find_sub (c :: p) (l ++ s) = Nat.add (length l) <$> find_sub (c :: p) s.
Proof.
  induction l as [|x l IH]; intros Hc.
  - change ([] ++ s) with s. by destruct (find_sub (c :: p) s) eqn:E.
  - apply not_elem_of_cons in Hc as [Hx Hl].
    change ((x :: l) ++ s) with (x :: (l ++ s)). cbn [find_sub starts_with].
    rewrite bool_decide_false by done. cbn [andb].
    rewrite (IH Hl). by destruct (find_sub (c :: p) s).
Qed.

Lemma find_sub_here p s : find_sub p (p ++ s) = Some 0%nat.
Proof. destruct (p ++ s) eqn:E; unfold find_sub; rewrite <- E, starts_with_app; done. Qed.

Lemma find_sub_first c p l s :
  c ∉ l -> find_sub (c :: p) (l ++ (c :: p) ++ s) = Some (length l).
Proof. intros H. rewrite find_sub_skip, find_sub_here by done. simpl. f_equal. lia. Qed.

Lemma find_sub_None c p l : c ∉ l -> find_sub (c :: p) l = None.
Proof. intros H. rewrite <- (app_nil_r l), find_sub_skip by done. done. Qed.

Lemma find_sub_bound p s i : find_sub p s = Some i -> (i + length p <= length s)%nat.
Proof.
  revert i. induction s as [|x s IH]; intros i; cbn [find_sub].
  - destruct (starts_with p []) eqn:E; [|done]. apply starts_with_spec in E as [r E].
    apply (f_equal length) in E. rewrite length_app in E. simpl in E. intros [= <-]. simpl. lia.
  - destruct (starts_with p (x :: s)) eqn:E.
    + apply starts_with_spec in E as [r ->]. rewrite length_app. intros [= <-]. lia.
    + intros H. apply fmap_Some in H as (k & Hk & ->). apply IH in Hk. simpl. lia.
Qed.

Lemma find_sub_split p s i :
  find_sub p s = Some i -> exists r, s = take i s ++ p ++ r /\ length (take i s) = i.
Proof.
  revert i. induction s as [|x s IH]; intros i; cbn [find_sub].
  - destruct (starts_with p []) eqn:E; [|done]. apply starts_with_spec in E as [r E].
    intros [= <-]. by exists r.
  - destruct (starts_with p (x :: s)) eqn:E.
    + apply starts_with_spec in E as [r ->]. intros [= <-]. by exists r.
    + intros H. apply fmap_Some in H as (k & Hk & ->). destruct (IH _ Hk) as (r & Hr & Hl).
      exists r. simpl. split; [by f_equal|]. by f_equal.
Qed.

Lemma rfind_char_last c l s : c ∉ s -> rfind_char c (l ++ c :: s) = Some (length l).
Proof.
  intros Hs. assert (H0 : rfind_char c s = None).
  { induction s as [|x s IH]; [done|]. apply not_elem_of_cons in Hs as [Hx Hs]. simpl.
    rewrite IH by done. by rewrite decide_False. }
  induction l as [|x l IH]; simpl; [|by rewrite IH]. by rewrite H0, decide_True.
Qed.

Lemma substr_mid (p x s : bytes) n m :
  n = length p -> m = length x -> substr (p ++ x ++ s) n m = x.
Proof. intros -> ->. unfold substr. by rewrite drop_app_length, take_app_length. Qed.

Lemma substr_front (x s : bytes) : substr (x ++ s) 0 (length x) = x.
Proof. unfold substr. by rewrite drop_0, take_app_length. Qed.

Lemma scan_digits s r :
  Forall is_digit s -> s <> [] -> scan_number (s ++ r) = pair false <$> read_digits (s ++ r) 0 false.
Proof.
  intros Hd Hne. destruct s as [|c s]; [done|]. inversion_clear Hd as [|? ? Hc _].
  unfold scan_number. unfold is_digit in Hc.
  assert (Hsp : skip_space ((c :: s) ++ r) = (c :: s) ++ r).
  { simpl. unfold is_space. rewrite (proj2 (Z.eqb_neq _ _)), (proj2 (Z.leb_gt _ 13)) by lia.
    by rewrite andb_false_r. }
  rewrite Hsp. simpl app. cbn beta iota. rewrite !decide_False by (intros ->; destruct Hc as [Hc _]; by apply Hc).
  done.
Qed.

(** A printed number is followed by something that is no digit. *)
Definition ends_number (r : bytes) : Prop := forall v seen, read_digits r v seen = if seen then Some v else None.

Lemma ends_number_nil : ends_number [].
Proof. done. Qed.

Lemma ends_number_cons c r : ~ is_digit c -> ends_number (c :: r).
Proof.
  unfold is_digit. intros H v seen. simpl.
  destruct (0 <=? _) eqn:E1, (_ <=? 9) eqn:E2; try done. lia.
Qed.

Lemma to_string_digits v : Forall is_digit (to_string v) /\ to_string v <> [].
Proof.
  unfold to_string. destruct (strip_zeros_spec (dec_digits 20 v)) as (Hs & Hne & _).
  - apply dec_digits_digits.
  - intros E. by apply (f_equal length) in E; rewrite length_dec_digits in E.
  - done.
Qed.

Lemma scan_to_string v r :
  fits 64 v -> ends_number r -> scan_number (to_string v ++ r) = Some (false, v).
Proof.
  intros Hv Hr. pose proof (u64_20_digits v Hv) as H20.
  destruct (to_string_digits v) as [Hd Hne]. rewrite scan_digits by done.
  unfold to_string. destruct (strip_zeros_spec (dec_digits 20 v)) as (_ & _ & Hs).
  - apply dec_digits_digits.
  - intros E. by apply (f_equal length) in E; rewrite length_dec_digits in E.
  - rewrite Hs, read_dec_digits, Hr by done. simpl. do 2 f_equal.
Qed.

Lemma stoul_to_string v : fits 64 v -> stoul (to_string v) = Some v.
Proof.
  intros Hv. unfold stoul. rewrite <- (app_nil_r (to_string v)), scan_to_string
    by (done || apply ends_number_nil).
  unfold fits in Hv. by rewrite (proj2 (Z.leb_gt _ _)) by lia.
Qed.

Lemma strtoul_to_string v r : fits 64 v -> ends_number r -> strtoul (to_string v ++ r) = v.
Proof.
  intros Hv Hr. unfold strtoul. rewrite scan_to_string by done.
  unfold fits in Hv. by rewrite (proj2 (Z.leb_gt _ _)) by lia.
Qed.

(** Digits and hexadecimal digits are none of the separators of the formats. *)
Lemma digits_not_in (c : byte) v : ~ is_digit c -> c ∉ to_string v.
Proof.
  intros Hc Hin. destruct (to_string_digits v) as [Hd _].
  by apply (proj1 (Forall_forall _ _) Hd) in Hin.
Qed.

Lemma length_to_string v : (length (to_string v) <= 20)%nat.
Proof.
  unfold to_string. rewrite <- (length_dec_digits 20 v) at 2.
  induction (dec_digits 20 v) as [|c s IH]; [done|]. destruct s as [|c' s]; [done|].
  rewrite strip_zeros_cons. case_decide; simpl in *; lia.
Qed.

(** ** Splitting a joined list *)

Fixpoint join (sep : byte) (xs : list bytes) : bytes :=
  match xs with
  | [] => []
  | [x] => x
  | x :: rest => x ++ sep :: join sep rest
  end.

Definition piece_ok (sep : byte) (x : bytes) : Prop := (sep ∉ x) /\ x <> [].

Lemma split_loop_join sep xs : forall fuel p,
  Forall (piece_ok sep) xs -> (length xs <= fuel)%nat ->
  split_loop fuel sep (p ++ join sep xs) (length p) = xs.
Proof.
  induction xs as [|x xs IH]; intros fuel p Hok Hf.
  - destruct fuel; [done|]. cbn [split_loop join]. rewrite app_nil_r.
    by rewrite (proj2 (Nat.ltb_ge _ _)) by lia.
  - destruct fuel as [|fuel]; [simpl in Hf; lia|]. inversion_clear Hok as [|? ? [Hx Hne] Hok'].
    assert (1 <= length x)%nat by (destruct x; [done|simpl; lia]).
    destruct xs as [|y xs]; cbn [split_loop]; unfold find_from; rewrite drop_app_length.
    + cbn [join]. rewrite find_sub_None by done. cbn [fmap option_fmap option_map default].
      rewrite length_app, (proj2 (Nat.ltb_lt _ _)) by lia.
      unfold substr. rewrite drop_app_length, take_ge by lia. f_equal.
      destruct fuel; [done|]. cbn [split_loop]. rewrite (proj2 (Nat.ltb_ge _ _)); [done|].
      rewrite length_app. lia.
    + change (join sep (x :: y :: xs)) with (x ++ [sep] ++ join sep (y :: xs)).
      rewrite (find_sub_first sep []) by done. cbn [fmap option_fmap option_map default]. unfold id.
      rewrite !length_app, (proj2 (Nat.ltb_lt _ _)) by (simpl; lia).
      rewrite (substr_mid p x) by lia. f_equal.
      specialize (IH fuel (p ++ x ++ [sep]) Hok' ltac:(simpl in Hf |- *; lia)).
      rewrite !length_app, <- !app_assoc in IH. simpl length in IH. rewrite <- IH at 2. f_equal. lia.
Qed.

Lemma split_join sep xs : Forall (piece_ok sep) xs -> split sep (join sep xs) = xs.
Proof.
  intros Hok. unfold split. apply (split_loop_join sep xs _ [] Hok).
  induction Hok as [|x xs [_ Hne] Hok IH]; [simpl; lia|].
  assert (1 <= length x)%nat by (destruct x; [done|simpl; lia]).
  destruct xs as [|y xs]; [simpl; lia|].
  change (join sep (x :: y :: xs)) with (x ++ [sep] ++ join sep (y :: xs)).
  rewrite !length_app. simpl length in *. lia.
Qed.
