(* ===== verification/Demo.v ===== *)
(** * Demo: the browser demonstration of the store (src/wasm/public.cc)

    [run_store] submits, leases and completes jobs in a JobStore over an empty
    directory, compacts it if asked, opens it again and counts what is there.  The
    theorem says that the counts are the ones the demonstration promises. *)

From Stdlib Require Import ZArith Lia String.
From stdpp Require Import base tactics list numbers gmap.
From S2P Require Import Prelude Bytes Wire Records Table WalFrame Disk Wal WalRecovery WalCompact WalSpec WalProgress.
From S2P Require Import Store Text.

(** ** The program *)

(** The records committed for job [i]. *)
Definition demo_job (i : nat) : Job :=
  mkJob (mkJobId 1 (u64 (Z.of_nat i + 1))) (lit "synthetic-" ++ to_string (Z.of_nat i))
    (lit "https://unused.synthetic.invalid") (replicate 32 (byte_of_Z 42)) 30000 12
    (mkReplicas no_endpoint no_endpoint no_endpoint) Ready no_endpoint 1 0 0.

Definition demo_records (done cycles i : nat) : list Rec :=
  let id := j_id (demo_job i) in
  SubmitRec (demo_job i) ::
  ((fun grant => LeaseRec id 1 (u32 (Z.of_nat grant)) 7) <$> seq 1 cycles) ++
  (if (i <? done)%nat
   then [DoneRec id 1 (u32 (Z.of_nat cycles)); LeaseRec id 1 (u32 (Z.of_nat cycles + 1)) 8]
   else []).

(** [bytes()]: the sizes of the regular files below the directory. *)
Definition dir_bytes (x : Dir) : Z :=
  foldr (fun p n => Z.of_nat (length (f_data (snd p))) + n) 0 (map_to_list (d_files x)).
Definition disk_bytes (k : Disk) : Z :=
  dir_bytes (k_root k) + foldr (fun p n => dir_bytes (snd p) + n) 0 (map_to_list (k_gens k)).

Definition count_state (s : JobState) (t : Table) : Z :=
  Z.of_nat (length (filter (fun p => j_state (snd p) = s) (map_to_list (jobs t)))).

Definition count_keys (count : nat) (t : Table) : Z :=
  Z.of_nat (length (filter (fun i => is_Some (find_by_idem t (j_idem_key (demo_job i)))) (seq 0 count))).

Record DemoReport := mkReport {
  r_jobs : Z; r_completed : Z; r_leased : Z; r_keys : Z; r_before : Z; r_after : Z; r_compacted : bool }.

Inductive DemoOutput := InvalidInputs | RunFailed | Reported (r : DemoReport).

Section demo.
Context (crc32c : bytes -> Z).

(** The commits in order; a commit that returns false throws. *)
Fixpoint commit_all (rs : list Rec) (ios : list (list Io)) (st : JobStore) : bool * JobStore :=
  match rs with
  | [] => (true, st)
  | r :: rs =>
      let '(ok, st) := commit crc32c r true (with_io (default [] (head ios)) st) in
      if negb ok then (false, st) else commit_all rs (tail ios) st
  end.

(** [run_store]; the system calls of the first [open], of the commits, of [compact]
    and of the second [open] answer as the environment says. *)
Definition run_store (io_open : list Io) (ios : list (list Io)) (io_compact io_reopen : list Io)
    (count done cycles compact : Z) : DemoOutput :=
  if (count <? 1) || (12 <? count) || (done <? 0) || (count <? done) || (cycles <? 1) || (8 <? cycles) ||
     (negb (compact =? 0) && negb (compact =? 1))
  then InvalidInputs else
  let '(ok, st) := store_open crc32c empty_disk io_open kSegmentBytes in
  if negb ok then RunFailed else
  let '(ok, st) := commit_all
    (mjoin (demo_records (Z.to_nat done) (Z.to_nat cycles) <$> seq 0 (Z.to_nat count))) ios st in
  if negb ok then RunFailed else
  let before := disk_bytes (w_disk (s_wal st)) in
  let '(ok, st) :=
    if compact =? 1 then store_compact crc32c (fun _ => true) (with_io io_compact st) else (true, st) in
  if negb ok then RunFailed else
  let after := disk_bytes (w_disk (s_wal st)) in
  let '(ok, recovered) := store_open crc32c (w_disk (s_wal st)) io_reopen kSegmentBytes in
  if negb ok then RunFailed else
  let t := s_table recovered in
  Reported (mkReport count (count_state Done t) (count_state Leased t) (count_keys (Z.to_nat count) t)
              before after (compact =? 1)).
End demo.

(** The text handed to the page. *)
Definition json_field (name : string) (v : bytes) : bytes := quoted (lit name) ++ lit ":" ++ v.

Definition demo_text (o : DemoOutput) : bytes :=
  match o with
  | InvalidInputs => lit "{" ++ json_field "error" (quoted (lit "Invalid bounded store inputs")) ++ lit "}"
  | RunFailed =>
      lit "{" ++ json_field "error" (quoted (lit "Store run failed; no result is available")) ++ lit "}"
  | Reported r =>
      lit "{" ++ json_field "jobs" (to_string (r_jobs r)) ++ lit "," ++
      json_field "completed_after_reopen" (to_string (r_completed r)) ++ lit "," ++
      json_field "leased_after_reopen" (to_string (r_leased r)) ++ lit "," ++
      json_field "idempotency_keys_after_reopen" (to_string (r_keys r)) ++ lit "," ++
      json_field "virtual_wal_bytes_before" (to_string (r_before r)) ++ lit "," ++
      json_field "virtual_wal_bytes_after" (to_string (r_after r)) ++ lit "," ++
      json_field "compacted" (lit (if r_compacted r then "true" else "false")) ++ lit "}"
  end.

(** ** The table the records leave *)

(** Job [i] at the end. *)
Definition demo_final (done cycles i : nat) : Job :=
  let c := u32 (Z.of_nat cycles) in
  let leased := set_attempts c (set_lease_seq c (set_state Leased (demo_job i))) in
  if (i <? done)%nat then set_body [] (set_state Done leased) else leased.

Lemma lease_again id grants j :
  j_id j = id -> j_epoch j = 1 -> (j_state j = Ready \/ j_state j = Leased) -> grants <> [] ->
  forall t, find t id = Some j ->
  jobs (apply_all t ((fun g => LeaseRec id 1 (u32 (Z.of_nat g)) 7) <$> grants)) =
  <[id := let c := u32 (Z.of_nat (List.last grants 0%nat)) in
          set_attempts c (set_lease_seq c (set_state Leased j))]> (jobs t).
Proof.
  revert j. induction grants as [|g grants IH]; intros j Hid He Hs Hne t Ht; [done|].
  set (c := u32 (Z.of_nat g)).
  assert (E1 : apply t (LeaseRec id 1 c 7) =
    store_job t id (set_attempts c (set_lease_seq c (set_state Leased j)))).
  { unfold apply. rewrite Ht, He. simpl.
    rewrite !bool_decide_eq_true_2 by (destruct Hs as [-> | ->]; done). simpl.
    f_equal. destruct j; simpl in *; subst; done. }
  cbn [fmap list_fmap]. change (apply_all t (?r :: ?rs)) with (apply_all (apply t r) rs).
  fold c. rewrite E1. destruct grants as [|g' grants]; [done|].
  rewrite (IH (set_attempts c (set_lease_seq c (set_state Leased j)))); try done; [|by right|].
  - unfold store_job. simpl. rewrite insert_insert_eq. done.
  - unfold find, store_job. simpl. by rewrite lookup_insert_eq.
Qed.

Lemma apply_all_app t a b : apply_all t (a ++ b) = apply_all (apply_all t a) b.
Proof. unfold apply_all. by rewrite foldl_app. Qed.

Lemma job_records_table done cycles i t :
  (1 <= cycles)%nat ->
  jobs (apply_all t (demo_records done cycles i)) =
  <[j_id (demo_job i) := demo_final done cycles i]> (jobs t).
Proof.
  intros Hc. unfold demo_records. set (id := j_id (demo_job i)).
  change (apply_all t (?r :: ?rs)) with (apply_all (apply t r) rs). rewrite apply_all_app.
  set (t1 := apply t (SubmitRec (demo_job i))).
  assert (Hf1 : find t1 id = Some (demo_job i)) by (unfold find, t1; simpl; by rewrite lookup_insert_eq).
  pose proof (lease_again id (seq 1 cycles) (demo_job i) eq_refl eq_refl (or_introl eq_refl)
    ltac:(destruct cycles; [lia|done]) t1 Hf1) as Ht2.
  assert (Hlast : List.last (seq 1 cycles) 0%nat = cycles).
  { destruct cycles as [|c]; [lia|]. rewrite seq_S. by rewrite last_last. }
  rewrite Hlast in Ht2. cbv zeta in Ht2. set (t2 := apply_all t1 _) in *.
  set (c := u32 (Z.of_nat cycles)) in *.
  set (leased := set_attempts c (set_lease_seq c (set_state Leased (demo_job i)))) in *.
  assert (Hj2 : jobs t2 = <[id := leased]> (jobs t)) by (rewrite Ht2; simpl; by rewrite insert_insert_eq).
  unfold demo_final. fold c leased. destruct (i <? done)%nat; [|exact Hj2].
  assert (Hf2 : find t2 id = Some leased) by (unfold find; by rewrite Hj2, lookup_insert_eq).
  assert (E3 : apply t2 (DoneRec id 1 c) = store_job t2 id (set_body [] (set_state Done leased))).
  { unfold apply. rewrite Hf2. done. }
  change (apply_all t2 [?r; ?r']) with (apply (apply t2 r) r'). rewrite E3.
  assert (E4 : forall q w, apply (store_job t2 id (set_body [] (set_state Done leased))) (LeaseRec id 1 q w) =
    store_job t2 id (set_body [] (set_state Done leased))).
  { intros q w. unfold apply, find. simpl. by rewrite lookup_insert_eq. }
  rewrite E4. simpl. by rewrite Hj2, insert_insert_eq.
Qed.

Section table.
Context (done cycles : nat) (Hcycles : (1 <= cycles)%nat).

Definition demo_log (count : nat) : list Rec := mjoin (demo_records done cycles <$> seq 0 count).
Definition demo_table (count : nat) : Table := apply_all empty_table (demo_log count).

Lemma demo_log_S count : demo_log (S count) = demo_log count ++ demo_records done cycles count.
Proof. unfold demo_log. rewrite seq_S, fmap_app, join_app. simpl. by rewrite app_nil_r. Qed.

Lemma demo_table_S count :
  jobs (demo_table (S count)) =
  <[j_id (demo_job count) := demo_final done cycles count]> (jobs (demo_table count)).
Proof. unfold demo_table. rewrite demo_log_S, apply_all_app. by apply job_records_table. Qed.

Lemma demo_id_inj i k :
  (i < 12)%nat -> (k < 12)%nat -> j_id (demo_job i) = j_id (demo_job k) -> i = k.
Proof. intros Hi Hk [= H]. rewrite !wrap_id in H by (unfold fits; lia). lia. Qed.

Lemma demo_lookup count i :
  (count <= 12)%nat -> (i < 12)%nat ->
  jobs (demo_table count) !! j_id (demo_job i) =
  if (i <? count)%nat then Some (demo_final done cycles i) else None.
Proof.
  intros Hc Hi. induction count as [|count IH]; [done|].
  rewrite demo_table_S. destruct (decide (i = count)) as [->|Hne].
  - rewrite lookup_insert_eq. rewrite (proj2 (Nat.ltb_lt _ _)) by lia. done.
  - rewrite lookup_insert_ne by (intros E%demo_id_inj; lia). rewrite IH by lia.
    destruct (Nat.ltb_spec i count), (Nat.ltb_spec i (S count)); try done; lia.
Qed.

Lemma demo_final_state i : j_state (demo_final done cycles i) = if (i <? done)%nat then Done else Leased.
Proof. unfold demo_final. by destruct (i <? done)%nat. Qed.

Lemma count_state_S s count :
  (count < 12)%nat ->
  count_state s (demo_table (S count)) =
  count_state s (demo_table count) + (if decide ((if (count <? done)%nat then Done else Leased) = s) then 1 else 0).
Proof.
  intros Hc. unfold count_state. rewrite demo_table_S.
  rewrite (map_to_list_insert (jobs (demo_table count))).
  2: { rewrite demo_lookup by lia. by rewrite (proj2 (Nat.ltb_ge _ _)) by lia. }
  rewrite filter_cons. cbn [snd]. rewrite demo_final_state. repeat case_decide; try congruence; simpl; lia.
Qed.

Lemma count_demo count :
  (count <= 12)%nat ->
  count_state Done (demo_table count) = Z.of_nat (Nat.min done count) /\
  count_state Leased (demo_table count) = Z.of_nat (count - done).
Proof.
  intros Hc. induction count as [|count IH].
  - split; [|done]. by rewrite Nat.min_0_r.
  - destruct IH as [IH1 IH2]; [lia|]. rewrite !count_state_S, IH1, IH2 by lia.
    destruct (Nat.ltb_spec count done); case_decide; try congruence; case_decide; try congruence; lia.
Qed.
End table.

(** ** The commits succeed *)

(** Records the store may be given, one after the other. *)
Fixpoint admissible (t : Table) (rs : list Rec) : Prop :=
  match rs with
  | [] => True
  | r :: rs => rec_wf r /\ key_agrees t r /\ admissible (apply t r) rs
  end.

Lemma admissible_app t a b : admissible t a -> admissible (apply_all t a) b -> admissible t (a ++ b).
Proof. revert t. induction a as [|r a IH]; intros t; simpl; [done|]. intros (? & ? & ?) Hb. auto. Qed.

(** Transition records need only their widths. *)
Lemma admissible_transitions t rs :
  Forall (fun r => rec_wf r /\ rec_copy r = None) rs -> admissible t rs.
Proof.
  intros H. revert t. induction H as [|r rs [Hw Hc] _ IH]; intros t; simpl; [done|].
  split_and!; [done| |done]. intros c j E. congruence.
Qed.

Lemma demo_job_wf i : job_wf (demo_job i).
Proof.
  assert (Hn : endpoint_wf no_endpoint) by (by apply (bool_decide_unpack _); vm_compute).
  constructor; cbn [demo_job j_id j_idem_key j_url j_body j_visibility_ms j_max_attempts j_replicas rep0 rep1
    rep2 j_state j_owner j_epoch j_lease_seq j_attempts]; try done; try (unfold fits; lia).
  - split; cbn [origin nonce]; [unfold fits; lia|apply wrap_fits; lia].
  - rewrite length_app. pose proof (length_to_string (Z.of_nat i)).
    change (length (lit "synthetic-")) with 10%nat. unfold kMaxIdemKey. lia.
  - vm_compute. lia.
  - rewrite length_replicate. unfold kMaxJobBody. lia.
Qed.

Lemma demo_records_admissible done cycles i t :
  find t (j_id (demo_job i)) = None -> admissible t (demo_records done cycles i).
Proof.
  intros Hf. unfold demo_records. split; [apply demo_job_wf|]. split.
  { intros c j [= <-] Hj. congruence. }
  pose proof (demo_job_wf i) as Hw. assert (Hid : job_id_wf (j_id (demo_job i))) by apply Hw.
  assert (H32 : forall z, fits 32 (u32 z)) by (intros; apply wrap_fits; lia).
  assert (H1 : fits 32 1) by (unfold fits; lia).
  assert (H7 : fits 64 7 /\ fits 64 8) by (unfold fits; lia).
  apply admissible_transitions, Forall_app. split.
  - apply Forall_fmap, Forall_forall. intros g _. split; [|done]. simpl. by destruct H7.
  - destruct (i <? done)%nat; [|constructor]. constructor; [|constructor; [|constructor]];
      (split; [|done]); simpl; by destruct H7.
Qed.

Lemma demo_log_admissible done cycles count :
  (1 <= cycles)%nat -> (count <= 12)%nat -> admissible empty_table (demo_log done cycles count).
Proof.
  intros Hcy Hc. induction count as [|count IH]; [done|]. rewrite demo_log_S. apply admissible_app; [auto with lia|].
  apply demo_records_admissible. unfold find.
  change (apply_all empty_table (demo_log done cycles count)) with (demo_table done cycles count).
  rewrite demo_lookup by lia. by rewrite (proj2 (Nat.ltb_ge _ _)) by lia.
Qed.

Section commits.
Context (crc32c : bytes -> Z) (crc_fits : forall b, fits 32 (crc32c b)).

(** A healthy store takes every well-formed record when the system calls succeed. *)
Lemma commit_progress rs n st r :
  store_inv crc32c rs None n st -> w_failed (s_wal st) = false -> rec_wf r ->
  key_agrees (s_table st) r -> Z.of_nat n < 2 ^ 64 - 1 ->
  exists st', commit crc32c r true (with_io [] st) = (true, st') /\
    store_inv crc32c (rs ++ [r]) None (S n) st' /\ w_failed (s_wal st') = false /\
    same_gens (s_wal st) (s_wal st').
Proof.
  intros Hi Hf Hr Hk Hn. destruct (si_live _ _ _ _ _ Hi Hf) as (log & Hw & Hlen & _).
  destruct (append_ok crc32c (set_io [] (s_wal st)) log (length log)
    (encode_record r (w_next_lsn (s_wal st))) true Hw) as (ok & w' & log' & a' & E & _ & _ & Hok & Hp); [lia|].
  destruct (Hp eq_refl Hf) as [-> _]; [by apply snapshot_body_ok|].
  assert (Ec : commit crc32c r true (with_io [] st) = (true, mkStore w' (apply (s_table st) r))).
  { unfold commit. simpl. by rewrite E. }
  eexists. split; [exact Ec|].
  destruct (commit_inv crc32c _ _ _ _ _ _ _ _ Hi Hr Hk Hn Ec) as [_ Hi'].
  split_and!; [done|by destruct Hok as (_ & _ & _ & ? & _)|].
  apply append_gens in E. exact E.
Qed.

Lemma commit_all_progress rs acc n st :
  store_inv crc32c acc None n st -> w_failed (s_wal st) = false -> admissible (s_table st) rs ->
  Z.of_nat (n + length rs) < 2 ^ 64 - 1 ->
  exists st', commit_all crc32c rs [] st = (true, st') /\
    store_inv crc32c (acc ++ rs) None (n + length rs) st' /\ w_failed (s_wal st') = false /\
    same_gens (s_wal st) (s_wal st').
Proof.
  revert acc n st. induction rs as [|r rs IH]; intros acc n st Hi Hf Ha Hn; simpl in *.
  { exists st. rewrite app_nil_r, Nat.add_0_r. by split_and!. }
  destruct Ha as (Hr & Hk & Ha).
  destruct (commit_progress acc n st r Hi Hf Hr Hk ltac:(lia)) as (st1 & E & Hi1 & Hf1 & Hg1).
  rewrite E. cbn [negb]. pose proof (commit_table _ _ _ _ _ _ E) as Et. simpl in Et.
  destruct (IH (acc ++ [r]) (S n) st1 Hi1 Hf1) as (st' & E' & Hi' & Hf' & Hg');
    [by rewrite Et|lia|].
  exists st'. rewrite <- app_assoc in Hi'. replace (n + S (length rs))%nat with (S n + length rs)%nat by lia.
  split_and!; try done. by etrans.
Qed.
End commits.

(** ** The run *)

Section run.
Context (crc32c : bytes -> Z) (crc_fits : forall b, fits 32 (crc32c b)).

Lemma first_open :
  exists st, store_open crc32c empty_disk [] kSegmentBytes = (true, st) /\
    store_inv crc32c [] None 0 st /\ w_failed (s_wal st) = false /\
    w_generation (s_wal st) = 0 /\ size (k_gens (w_disk (s_wal st))) = 0%nat.
Proof.
  destruct (store_open crc32c empty_disk [] kSegmentBytes) as [ok st] eqn:E.
  assert (Eok : ok = true) by (change ok with (fst (ok, st)); rewrite <- E; vm_compute; reflexivity).
  assert (Est : st = snd (store_open crc32c empty_disk [] kSegmentBytes)) by (by rewrite E).
  subst ok. exists st. split; [done|]. split.
  - apply (store_open_inv crc32c crc_fits empty_disk [] kSegmentBytes []); try done;
      first [apply empty_disk_holds|apply empty_table_wf|apply empty_indexed].
  - rewrite Est. split_and!; vm_compute; reflexivity.
Qed.

(** What [compact] and the second [open] find. *)
Lemma demo_compact_progress rs n st :
  store_inv crc32c rs None n st -> w_failed (s_wal st) = false ->
  Z.of_nat (n + size (jobs (s_table st))) < 2 ^ 64 ->
  w_generation (s_wal st) + 1 + Z.of_nat (size (k_gens (w_disk (s_wal st)))) < 2 ^ 64 - 1 ->
  exists st', store_compact crc32c (fun _ => true) (with_io [] st) = (true, st') /\
    store_inv crc32c rs None (n + size (jobs (s_table st))) st' /\ w_failed (s_wal st') = false.
Proof.
  intros Hi Hf Hn Hlim. destruct (si_live _ _ _ _ _ Hi Hf) as (log & Hw & _ & _).
  assert (Hb : Forall body_ok (snapshot (s_table st))).
  { apply Forall_lookup_2. intros i b Hl. unfold snapshot in Hl. rewrite list_lookup_imap in Hl.
    destruct (retained (s_table st) !! i) as [j|] eqn:Ej; [|done]. injection Hl as <-.
    apply (snapshot_body_ok (ReplicateRec j)). apply list_elem_of_lookup_2, elem_of_retained in Ej; [|apply Hi].
    exact (tw_job _ (si_wf _ _ _ _ _ Hi) _ _ Ej). }
  pose proof (length_snapshot (s_table st)) as Hlen.
  destruct (compact_progress crc32c (set_io [] (s_wal st)) log (length log) (snapshot (s_table st)))
    as (w' & E); try done; [lia|].
  assert (Ec : store_compact crc32c (fun _ => true) (with_io [] st) = (true, mkStore w' (s_table st)))
    by (unfold store_compact; simpl; by rewrite E).
  eexists. split; [exact Ec|]. split; [by eapply compact_inv|].
  destruct (compact_ok crc32c (set_io [] (s_wal st)) log (length log) (snapshot (s_table st))
    (fun _ => true) true w' Hw) as [[=]|_ Hfl|[=]]; [lia|done|]. auto.
Qed.

Lemma demo_reopen rs n st :
  store_inv crc32c rs None n st -> w_failed (s_wal st) = false -> Z.of_nat n < 2 ^ 64 ->
  exists st', store_open crc32c (w_disk (s_wal st)) [] kSegmentBytes = (true, st') /\
    store_inv crc32c rs None n st'.
Proof.
  intros Hi Hf Hn. destruct (si_live _ _ _ _ _ Hi Hf) as (log & Hw & Hlen & _).
  destruct (wal_ok_reopen crc32c crc_fits (s_wal st) log (length log) [] kSegmentBytes Hw Hf)
    as (ok & seen & w & E & Hok & _); [lia|].
  assert (Eo : store_open crc32c (w_disk (s_wal st)) [] kSegmentBytes = (true, mkStore w (replay seen)))
    by (unfold store_open; by rewrite E, (Hok eq_refl)).
  eexists. split; [exact Eo|]. by eapply store_reopen_inv.
Qed.

Lemma filter_all {A} (P : A -> Prop) `{forall x, Decision (P x)} (l : list A) :
  Forall P l -> filter P l = l.
Proof. induction 1 as [|x l Hx _ IH]; [done|]. rewrite filter_cons, decide_True by done. by f_equal. Qed.

Lemma count_keys_all done cycles count t :
  (1 <= cycles)%nat -> (count <= 12)%nat -> t = demo_table done cycles count ->
  table_wf t -> indexed t -> count_keys count t = Z.of_nat count.
Proof.
  intros Hcy Hc -> Hw Hx. unfold count_keys. rewrite filter_all; [by rewrite length_seq|].
  apply Forall_forall. intros i Hi%elem_of_seq.
  assert (Hf : find (demo_table done cycles count) (j_id (demo_job i)) = Some (demo_final done cycles i)).
  { unfold find. rewrite demo_lookup by lia. by rewrite (proj2 (Nat.ltb_lt _ _)) by lia. }
  destruct (ix_job _ Hx _ _ Hf) as [id Hid].
  assert (Ek : j_idem_key (demo_final done cycles i) = j_idem_key (demo_job i))
    by (unfold demo_final; by destruct (i <? done)%nat).
  rewrite Ek in Hid. unfold find_by_idem. rewrite Hid. by apply (tw_index _ Hw) in Hid.
Qed.

(** What is left to do once the commits are made. *)
Lemma demo_finish count done cycles compact st n :
  (1 <= cycles)%nat -> (count <= 12)%nat -> (done <= count)%nat -> Z.of_nat n < 2 ^ 32 ->
  store_inv crc32c (demo_log done cycles count) None n st -> w_failed (s_wal st) = false ->
  w_generation (s_wal st) + 1 + Z.of_nat (size (k_gens (w_disk (s_wal st)))) < 2 ^ 64 - 1 ->
  exists st1 st2,
    (if compact =? 1 then store_compact crc32c (fun _ => true) (with_io [] st) else (true, st)) = (true, st1) /\
    store_open crc32c (w_disk (s_wal st1)) [] kSegmentBytes = (true, st2) /\
    count_state Done (s_table st2) = Z.of_nat done /\
    count_state Leased (s_table st2) = Z.of_nat (count - done) /\
    count_keys count (s_table st2) = Z.of_nat count.
Proof.
  intros Hcy Hc Hd Hn Hi Hf Hlim.
  assert (Hsize : (size (jobs (s_table st)) <= count)%nat).
  { rewrite (si_table _ _ _ _ _ Hi). fold (demo_table done cycles count). clear -Hcy.
    induction count as [|count IH]; [done|]. rewrite demo_table_S by done.
    rewrite map_size_insert. case_match; simpl; lia. }
  assert (H1 : exists st1 n1,
    (if compact =? 1 then store_compact crc32c (fun _ => true) (with_io [] st) else (true, st)) = (true, st1) /\
    store_inv crc32c (demo_log done cycles count) None n1 st1 /\ w_failed (s_wal st1) = false /\
    Z.of_nat n1 < 2 ^ 64).
  { destruct (compact =? 1); [|exists st, n; split_and!; [done..|lia]].
    destruct (demo_compact_progress _ _ _ Hi Hf) as (st1 & E & Hi1 & Hf1); [lia|done|].
    exists st1, (n + size (jobs (s_table st)))%nat. split_and!; [done..|lia]. }
  destruct H1 as (st1 & n1 & E1 & Hi1 & Hf1 & Hn1).
  destruct (demo_reopen _ _ _ Hi1 Hf1 Hn1) as (st2 & E2 & Hi2).
  exists st1, st2. split; [done|]. split; [done|].
  pose proof (si_table _ _ _ _ _ Hi2) as Ht. fold (demo_table done cycles count) in Ht.
  destruct (count_demo done cycles Hcy count Hc) as [C1 C2].
  split_and!; [by rewrite Ht, C1, Nat.min_l by lia|by rewrite Ht, C2|].
  apply (count_keys_all done cycles); try done; apply Hi2.
Qed.

Lemma length_demo_log done cycles count :
  (length (demo_log done cycles count) <= count * (cycles + 3))%nat.
Proof.
  induction count as [|count IH]; [done|]. rewrite demo_log_S, length_app. unfold demo_records.
  simpl length. rewrite length_app, length_fmap, length_seq.
  destruct (count <? done)%nat; simpl; lia.
Qed.
End run.

(** ** Property *)

(** C36: the demonstration shows what it promises.  For every input it accepts, when
    the virtual file system answers every call, the reopened store has all the keys,
    the completed jobs completed, late leases or not, and the others leased, whether
    the log was compacted or not. *)
Theorem demo_counts (crc32c : bytes -> Z) count done cycles compact :
  (forall b, fits 32 (crc32c b)) ->
  1 <= count <= 12 -> 0 <= done <= count -> 1 <= cycles <= 8 -> compact = 0 \/ compact = 1 ->
  exists before after, run_store crc32c [] [] [] [] count done cycles compact =
    Reported (mkReport count done (count - done) count before after (compact =? 1)).
Proof.
  intros Hcrc Hc Hd Hcy Hk. unfold run_store.
  repeat match goal with |- context [?a <? ?b] => rewrite (proj2 (Z.ltb_ge a b)) by lia end.
  assert (Ek : negb (compact =? 0) && negb (compact =? 1) = false) by (by destruct Hk as [-> | ->]).
  rewrite Ek. cbn [orb].
  destruct (first_open crc32c Hcrc) as (st0 & E0 & Hi0 & Hf0 & Hg0 & Hs0). rewrite E0. cbn [negb].
  set (c := Z.to_nat count). set (d := Z.to_nat done). set (y := Z.to_nat cycles).
  fold (demo_log d y c).
  pose proof (length_demo_log d y c) as Hl.
  assert (Hl' : (length (demo_log d y c) <= 132)%nat) by (unfold c, y in *; nia).
  destruct (commit_all_progress crc32c (demo_log d y c) [] 0 st0 Hi0 Hf0) as (st & E & Hi & Hf & [Hg Hs]).
  { rewrite (si_table _ _ _ _ _ Hi0). apply demo_log_admissible; unfold c, y; lia. }
  { lia. }
  rewrite E. cbn [negb].
  destruct (demo_finish crc32c Hcrc c d y compact st (length (demo_log d y c))) as (st1 & st2 & E1 & E2 & C1 & C2 & C3);
    [unfold y; lia|unfold c; lia|unfold c, d; lia|lia|done|done|rewrite Hg, Hs, Hg0, Hs0; lia|].
  rewrite E1. cbn [negb]. rewrite E2. cbn [negb]. eexists _, _. rewrite C1, C2, C3.
  unfold c, d. f_equal. f_equal; lia.
Qed.

Lemma demo_counts_witness :
  exists before after, run_store WalSample.sum32 [] [] [] [] 4 3 2 1 =
    Reported (mkReport 4 3 (4 - 3) 4 before after (1 =? 1)).
Proof.
  apply (demo_counts WalSample.sum32 4 3 2 1 WalSample.sum32_fits); lia.
Defined.
