(* ===== verification/Verify.v ===== *)
(** * Verify: the history checker, src/src/verify_main.cc

    [tautq-verify] replays the log of every node, folds the records into facts per
    job, and compares them with the submitter's and the sink's files.  [verify]
    is its [main] after the argument loop; the log directories are disks opened by
    the log of [Wal.v].  The theorems say what its exit code 0 means in terms of
    the records on disk, which of its checks depend on the order of the logs, and
    which does. *)

From Stdlib Require Import ZArith Lia String.
From stdpp Require Import base tactics list numbers gmap sets.
From S2P Require Import Prelude Bytes Wire Records Disk WalFrame Wal Text.

(** ** Facts *)

Record JobFacts := mkFacts {
  merged : Job; have_copy : bool; done_seqs : gset Z; max_lease_seq : Z; max_epoch : Z }.

Definition no_facts : JobFacts := mkFacts default_job false ∅ 0 1.

(** [jobs] by hexadecimal id, [key_ids] by idempotency key. *)
Record History := mkHistory {
  h_jobs : gmap bytes JobFacts; h_key_ids : gmap bytes (gset bytes) }.

Definition no_history : History := mkHistory ∅ ∅.

(** [jobs[id]]: a missing entry is created with its default. *)
Definition facts (h : History) (id : bytes) : JobFacts := default no_facts (h_jobs h !! id).

Definition set_facts (id : bytes) (f : JobFacts) (h : History) : History :=
  mkHistory (<[id := f]> (h_jobs h)) (h_key_ids h).

Definition fold_job (h : History) (j : Job) : History :=
  let id := to_hex (j_id j) in
  let f := facts h id in
  let m := if negb (have_copy f) || job_advances (merged f) j then j else merged f in
  let h := set_facts id (mkFacts m true (done_seqs f) (Z.max (max_lease_seq f) (j_lease_seq j))
                                 (Z.max (max_epoch f) (j_epoch j))) h in
  mkHistory (h_jobs h)
    (<[j_idem_key j := {[id]} ∪ default ∅ (h_key_ids h !! j_idem_key j)]> (h_key_ids h)).

Definition set_id (i : JobId) (j : Job) : Job :=
  mkJob i (j_idem_key j) (j_url j) (j_body j) (j_visibility_ms j) (j_max_attempts j)
        (j_replicas j) (j_state j) (j_owner j) (j_epoch j) (j_lease_seq j) (j_attempts j).

(** The replay lambda on one decoded record. *)
Definition fold_rec (h : History) (r : Rec) : History :=
  match r with
  | SubmitRec j => fold_job h j
  | ReplicateRec j => fold_job h j
  | LeaseRec id epoch lease_seq _ =>
      let f := facts h (to_hex id) in
      set_facts (to_hex id)
        (mkFacts (merged f) (have_copy f) (done_seqs f) (Z.max (max_lease_seq f) lease_seq)
                 (Z.max (max_epoch f) epoch)) h
  | DoneRec id epoch lease_seq =>
      let f := facts h (to_hex id) in
      let seqs := {[lease_seq]} ∪ done_seqs f in
      let done_marker :=
        set_epoch (Z.max (max_epoch f) epoch) (set_state Done (set_id id (merged f))) in
      set_facts (to_hex id)
        (if negb (have_copy f) || job_advances (merged f) done_marker
         then mkFacts done_marker true seqs (max_lease_seq f) (max_epoch f)
         else mkFacts (merged f) (have_copy f) seqs (max_lease_seq f) (max_epoch f)) h
  | TakeoverRec id new_epoch _ =>
      let f := facts h (to_hex id) in
      set_facts (to_hex id)
        (mkFacts (merged f) (have_copy f) (done_seqs f) (max_lease_seq f)
                 (Z.max (max_epoch f) new_epoch)) h
  | DeadLetterRec id epoch =>
      let f := facts h (to_hex id) in
      let m := set_epoch (Z.max (max_epoch f) epoch) (set_state DeadLetter (merged f)) in
      set_facts (to_hex id)
        (if have_copy f && job_advances (merged f) m
         then mkFacts m (have_copy f) (done_seqs f) (max_lease_seq f) (max_epoch f) else f) h
  | ExpireRec _ _ _ => h
  end.

Definition fold_body (h : History) (body : bytes) : History :=
  match decode_record body with Val (r, _) => fold_rec h r | _ => h end.

(** ** The other inputs *)

Definition code_ok (code : bytes) : bool :=
  bool_decide (code = lit "200") || bool_decide (code = lit "201").

(** One line [key,id,code] of the submits file. *)
Definition submit_line (accepted : gmap bytes bytes) (line : bytes) : gmap bytes bytes :=
  match getline comma line with
  | Some (key, s) =>
      match getline comma s with
      | Some (id, s) =>
          match getline comma s with
          | Some (code, _) => if code_ok code then <[key := id]> accepted else accepted
          | None => accepted
          end
      | None => accepted
      end
  | None => accepted
  end.

Definition read_submits (file : bytes) : gmap bytes bytes := foldl submit_line ∅ (lines file).

(** One line of the receipt log: [ss >> ms >> key]. *)
Definition sink_line (deliveries : gmap bytes Z) (line : bytes) : gmap bytes Z :=
  match read_word line with
  | Some (_, s) =>
      match read_word s with
      | Some (key, _) => <[key := default 0 (deliveries !! key) + 1]> deliveries
      | None => deliveries
      end
  | None => deliveries
  end.

Definition read_sink (file : bytes) : gmap bytes Z := foldl sink_line ∅ (lines file).

(** ** The three assertions *)

Definition is_lost (h : History) (allow_dlq : bool) (id : bytes) : bool :=
  let st := (fun f => j_state (merged f)) <$> h_jobs h !! id in
  let dn := bool_decide (st = Some Done) in
  let dead := bool_decide (st = Some DeadLetter) in
  negb dn && negb (allow_dlq && dead).

Definition lost (h : History) (allow_dlq : bool) (accepted : gmap bytes bytes) : nat :=
  length (filter (fun a => is_lost h allow_dlq (snd a) = true) (map_to_list accepted)).

Definition double_done (h : History) : nat :=
  length (filter (fun x => (1 < size (done_seqs (snd x)))%nat) (map_to_list (h_jobs h))).

Definition fallback_twin (h : History) (key : bytes) : bool :=
  match h_key_ids h !! key with Some ids => (1 <? size ids)%nat | None => false end.

Definition attributable (h : History) (accepted : gmap bytes bytes) (key : bytes) : bool :=
  fallback_twin h key ||
  match accepted !! key with
  | Some id =>
      match h_jobs h !! id with
      | Some f => (1 <? max_lease_seq f) || (1 <? max_epoch f)
      | None => false
      end
  | None => false
  end.

Definition unexplained_dupes (h : History) (accepted : gmap bytes bytes) (deliveries : gmap bytes Z)
  : nat :=
  length (filter (fun d => 1 < snd d /\ attributable h accepted (fst d) = false)
                 (map_to_list deliveries)).

Section verify.
Context (crc32c : bytes -> Z).

(** The loop over the log directories; opening a log may repair it, so a directory
    named twice is opened in the state the first opening left. *)
Fixpoint read_logs (dirs : list bytes) (fs : gmap bytes Disk) (io : list Io) (h : History)
  : option History :=
  match dirs with
  | [] => Some h
  | dir :: rest =>
      let '(ok, seen, w) :=
        open crc32c (new_wal (default empty_disk (fs !! dir)) io default_segment_bytes) in
      if ok then read_logs rest (<[dir := w_disk w]> fs) (w_io w) (foldl fold_body h seen)
      else None
  end.

(** The exit code.  [None] for a file that cannot be read. *)
Definition verify (allow_dlq : bool) (logs_csv : bytes) (fs : gmap bytes Disk) (io : list Io)
  (submits sink : option bytes) : Z :=
  match read_logs (filter (fun d => d <> []) (split comma logs_csv)) fs io no_history with
  | None => 1
  | Some h =>
      match submits, sink with
      | Some s, Some k =>
          let accepted := read_submits s in
          let deliveries := read_sink k in
          let failures := ((if decide (lost h allow_dlq accepted <> 0) then 1 else 0) +
                           (if decide (double_done h <> 0) then 1 else 0) +
                           (if decide (unexplained_dupes h accepted deliveries <> 0) then 1 else 0))%nat in
          if decide (failures = 0%nat) then 0 else 1
      | _, _ => 1
      end
  end.

(** The records the logs hold, in the order they are replayed. *)
Fixpoint logged (dirs : list bytes) (fs : gmap bytes Disk) (io : list Io) : option (list Rec) :=
  match dirs with
  | [] => Some []
  | dir :: rest =>
      let '(ok, seen, w) :=
        open crc32c (new_wal (default empty_disk (fs !! dir)) io default_segment_bytes) in
      if ok then
        app (omap (fun b => fst <$> res_value (decode_record b)) seen) <$>
          logged rest (<[dir := w_disk w]> fs) (w_io w)
      else None
  end.

Lemma fold_bodies h seen :
  foldl fold_body h seen = foldl fold_rec h (omap (fun b => fst <$> res_value (decode_record b)) seen).
Proof.
  revert h. induction seen as [|b seen IH]; intros h; simpl; [done|]. unfold fold_body at 2.
  destruct (decode_record b) as [[r lsn]| |]; simpl; apply IH.
Qed.

Lemma read_logs_logged dirs fs io h :
  read_logs dirs fs io h = foldl fold_rec h <$> logged dirs fs io.
Proof.
  revert fs io h. induction dirs as [|d dirs IH]; intros fs io h; simpl; [done|].
  destruct (open _ _) as [[[] seen] w]; [|done]. rewrite IH, fold_bodies.
  destruct (logged _ _ _); simpl; [|done]. by rewrite foldl_app.
Qed.
End verify.

(** ** What the fold computes

    Per job entry [id] and per key, the completions, lease numbers, epochs and job
    ids a record contributes. *)

Definition rec_job (r : Rec) : option JobId :=
  match r with
  | SubmitRec j | ReplicateRec j => Some (j_id j)
  | LeaseRec i _ _ _ | DoneRec i _ _ | TakeoverRec i _ _ | DeadLetterRec i _ => Some i
  | ExpireRec _ _ _ => None
  end.

Definition is_about (id : bytes) (r : Rec) : bool := bool_decide (to_hex <$> rec_job r = Some id).

Definition done_at (id : bytes) (r : Rec) : list Z :=
  if is_about id r then match r with DoneRec _ _ q => [q] | _ => [] end else [].

Definition seq_at (id : bytes) (r : Rec) : list Z :=
  if is_about id r then
    match r with
    | SubmitRec j | ReplicateRec j => [j_lease_seq j]
    | LeaseRec _ _ q _ => [q]
    | _ => []
    end
  else [].

Definition epoch_at (id : bytes) (r : Rec) : list Z :=
  if is_about id r then
    match r with
    | SubmitRec j | ReplicateRec j => [j_epoch j]
    | LeaseRec _ e _ _ | TakeoverRec _ e _ => [e]
    | _ => []
    end
  else [].

Definition ids_at (key : bytes) (r : Rec) : list bytes :=
  match r with
  | SubmitRec j | ReplicateRec j => if decide (j_idem_key j = key) then [to_hex (j_id j)] else []
  | _ => []
  end.

Lemma facts_set id id' f h :
  facts (set_facts id' f h) id = if decide (id' = id) then f else facts h id.
Proof.
  unfold facts, set_facts. simpl. destruct (decide (id' = id)) as [->|Hne].
  - by rewrite lookup_insert_eq.
  - by rewrite lookup_insert_ne.
Qed.

Lemma is_about_Some id i r :
  rec_job r = Some i -> is_about id r = bool_decide (to_hex i = id).
Proof.
  intros H. unfold is_about. rewrite H. simpl. apply bool_decide_ext. naive_solver.
Qed.

(** Splits a goal on one fold step into the entry that changed and the others. *)
Ltac fold_step :=
  intros; unfold done_at, seq_at, epoch_at;
  match goal with |- context [is_about ?id ?r] =>
    destruct r; try (erewrite (is_about_Some id) by reflexivity); simpl fold_rec; unfold fold_job;
    unfold facts at 1; cbn [h_jobs]; try fold (facts (fold_rec no_history r) id)
  end;
  cbn [set_facts h_jobs];
  repeat match goal with
  | |- context [bool_decide (?a = ?b)] =>
      destruct (decide (a = b)) as [<-|?];
      [rewrite (bool_decide_true (a = a)) by done; rewrite lookup_insert_eq
      |rewrite (bool_decide_false (a = b)) by done; rewrite lookup_insert_ne by done]
  end; cbn [default]; unfold facts.

Lemma fold_rec_dones h r id :
  done_seqs (facts (fold_rec h r) id) = list_to_set (done_at id r) ∪ done_seqs (facts h id).
Proof.
  fold_step; simpl; try set_solver; repeat case_match; simpl; set_solver.
Qed.

Lemma fold_rec_seq h r id :
  max_lease_seq (facts (fold_rec h r) id) = foldr Z.max (max_lease_seq (facts h id)) (seq_at id r).
Proof. fold_step; simpl; repeat case_match; simpl; lia. Qed.

Lemma fold_rec_epoch h r id :
  max_epoch (facts (fold_rec h r) id) = foldr Z.max (max_epoch (facts h id)) (epoch_at id r).
Proof. fold_step; simpl; repeat case_match; simpl; lia. Qed.

Definition ids_of (h : History) (key : bytes) : gset bytes := default ∅ (h_key_ids h !! key).

Lemma fold_rec_ids h r key :
  ids_of (fold_rec h r) key = list_to_set (ids_at key r) ∪ ids_of h key.
Proof.
  unfold ids_of. destruct r; cbn -[job_advances]; try set_solver.
  all: match goal with |- context [<[?k := _]> _ !! _] =>
         destruct (decide (k = key)) as [<-|];
         [rewrite lookup_insert_eq | rewrite lookup_insert_ne by done] end; simpl; set_solver.
Qed.

Lemma fold_rec_dom h r id :
  is_Some (h_jobs (fold_rec h r) !! id) <-> is_about id r = true \/ is_Some (h_jobs h !! id).
Proof.
  destruct (rec_job r) as [i|] eqn:E.
  - rewrite (is_about_Some id i r E), bool_decide_eq_true.
    assert (Hf : exists f, h_jobs (fold_rec h r) = <[to_hex i := f]> (h_jobs h)).
    { destruct r; simpl in E; simplify_eq; simpl; eauto. }
    destruct Hf as [f ->]. rewrite lookup_insert_is_Some. destruct (decide (to_hex i = id)); naive_solver.
  - destruct r; simplify_eq. simpl. unfold is_about. simpl. naive_solver.
Qed.

Lemma foldr_max_shift a m l : foldr Z.max (Z.max a m) l = Z.max a (foldr Z.max m l).
Proof. induction l as [|x l IH]; simpl; lia. Qed.

Lemma foldr_max_app m l l' : foldr Z.max (foldr Z.max m l) l' = foldr Z.max m (l ++ l').
Proof.
  rewrite foldr_app. induction l as [|x l IH]; simpl; [done|]. by rewrite foldr_max_shift, IH, <- foldr_max_shift.
Qed.

Section fold.
Context (h : History).

Lemma fold_dones recs id :
  done_seqs (facts (foldl fold_rec h recs) id) =
  list_to_set (recs ≫= done_at id) ∪ done_seqs (facts h id).
Proof.
  induction recs as [|r recs IH] using rev_ind; [simpl; set_solver|].
  rewrite foldl_app. simpl. rewrite fold_rec_dones, IH, bind_app. simpl. set_solver.
Qed.

Lemma fold_seq recs id :
  max_lease_seq (facts (foldl fold_rec h recs) id) =
  foldr Z.max (max_lease_seq (facts h id)) (recs ≫= seq_at id).
Proof.
  induction recs as [|r recs IH] using rev_ind; [done|].
  rewrite foldl_app, bind_app. simpl. by rewrite fold_rec_seq, IH, foldr_max_app, app_nil_r.
Qed.

Lemma fold_epoch recs id :
  max_epoch (facts (foldl fold_rec h recs) id) =
  foldr Z.max (max_epoch (facts h id)) (recs ≫= epoch_at id).
Proof.
  induction recs as [|r recs IH] using rev_ind; [done|].
  rewrite foldl_app, bind_app. simpl. by rewrite fold_rec_epoch, IH, foldr_max_app, app_nil_r.
Qed.

Lemma fold_ids recs key :
  ids_of (foldl fold_rec h recs) key = list_to_set (recs ≫= ids_at key) ∪ ids_of h key.
Proof.
  induction recs as [|r recs IH] using rev_ind; [simpl; set_solver|].
  rewrite foldl_app. simpl. rewrite fold_rec_ids, IH, bind_app. simpl. set_solver.
Qed.

Lemma fold_dom recs id :
  is_Some (h_jobs (foldl fold_rec h recs) !! id) <->
  (exists r, r ∈ recs /\ is_about id r = true) \/ is_Some (h_jobs h !! id).
Proof.
  induction recs as [|r recs IH] using rev_ind; [simpl; set_solver|].
  rewrite foldl_app. simpl. rewrite fold_rec_dom, IH. setoid_rewrite elem_of_app. set_solver.
Qed.
End fold.

(** A job judged done, or dead, has a record that says so. *)
Definition says (st : JobState) (id : bytes) (r : Rec) : Prop :=
  is_about id r = true /\
  match r with
  | SubmitRec j | ReplicateRec j => j_state j = st
  | DoneRec _ _ _ => st = Done
  | DeadLetterRec _ _ => st = DeadLetter
  | _ => False
  end.

Lemma fold_rec_state h r id st :
  st <> Ready -> j_state (merged (facts (fold_rec h r) id)) = st ->
  says st id r \/ j_state (merged (facts h id)) = st.
Proof.
  unfold says. destruct (rec_job r) as [i|] eqn:E.
  2: { destruct r; naive_solver. }
  rewrite (is_about_Some id i r E), bool_decide_eq_true. intros Hst.
  destruct (decide (to_hex i = id)) as [<-|Hne].
  - destruct r; simpl in E; simplify_eq; simpl; unfold fold_job;
      unfold facts at 1; simpl; rewrite lookup_insert_eq; simpl; repeat case_match; simpl; naive_solver.
  - destruct r; simpl in E; simplify_eq; simpl; unfold fold_job;
      unfold facts at 1; simpl; rewrite lookup_insert_ne by done; eauto.
Qed.

Lemma fold_state recs id st :
  st <> Ready -> j_state (merged (facts (foldl fold_rec no_history recs) id)) = st ->
  exists r, r ∈ recs /\ says st id r.
Proof.
  intros Hst. induction recs as [|r recs IH] using rev_ind; [done|].
  rewrite foldl_app. simpl. intros [H|H]%fold_rec_state; [| |done].
  - exists r. set_solver.
  - destruct (IH H) as (r' & ? & ?). exists r'. set_solver.
Qed.

(** ** The counters *)

Lemma filter_none {A} (P : A -> Prop) `{forall x, Decision (P x)} (l : list A) :
  length (filter P l) = 0%nat -> forall x, x ∈ l -> ~ P x.
Proof.
  intros Hl x Hx Hp. apply nil_length_inv in Hl.
  assert (Hin : x ∈ filter P l) by by apply list_elem_of_filter. rewrite Hl in Hin. set_solver.
Qed.

Lemma fallback_twin_ids h key : fallback_twin h key = (1 <? size (ids_of h key))%nat.
Proof. unfold fallback_twin, ids_of. by destruct (h_key_ids h !! key). Qed.

(** The records contributing to the max are among the list. *)
Lemma foldr_max_gt k m l : m <= k -> k < foldr Z.max m l -> exists x, x ∈ l /\ k < x.
Proof.
  intros Hm. induction l as [|x l IH]; simpl; [lia|]. intros Hk.
  destruct (Z.lt_ge_cases k x) as [Hx|Hx]; [exists x; set_solver|].
  destruct IH as (y & Hy & ?); [lia|]. exists y. set_solver.
Qed.

Lemma facts_lookup h id f : h_jobs h !! id = Some f -> facts h id = f.
Proof. unfold facts. by intros ->. Qed.

Lemma size_gt_1 `{Countable A} (X : gset A) :
  (1 < size X)%nat -> exists x y, x ∈ X /\ y ∈ X /\ x <> y.
Proof.
  intros Hs. destruct (set_choose_or_empty X) as [[x Hx]|HX].
  2: { rewrite (leibniz_equiv _ _ HX), size_empty in Hs. lia. }
  destruct (set_choose_or_empty (X ∖ {[x]})) as [[y Hy]|HX].
  - exists x, y. set_solver.
  - assert (size X <= size ({[x]} : gset A))%nat 
      by (apply subseteq_size; intros z Hz; destruct (decide (z = x)); set_solver).
    rewrite size_singleton in *. lia.
Qed.

Lemma size_two `{Countable A} (X : gset A) x y : x ∈ X -> y ∈ X -> x <> y -> (1 < size X)%nat.
Proof.
  intros Hx Hy Hne. assert (Hsub : ({[x; y]} : gset A) ⊆ X) by set_solver.
  apply subseteq_size in Hsub. rewrite size_union, !size_singleton in Hsub by set_solver. lia.
Qed.

(** What explains a duplicate delivery of [key]: two jobs submitted under it, or a
    second lease or a second epoch of the job its submitter was told. *)
Definition explained (recs : list Rec) (accepted : gmap bytes bytes) (key : bytes) : Prop :=
  (exists r1 r2 i1 i2, r1 ∈ recs /\ r2 ∈ recs /\ i1 ∈ ids_at key r1 /\ i2 ∈ ids_at key r2 /\ i1 <> i2) \/
  (exists id r, accepted !! key = Some id /\ r ∈ recs /\
     ((exists q, q ∈ seq_at id r /\ 1 < q) \/ (exists e, e ∈ epoch_at id r /\ 1 < e))).

Lemma attributable_explained recs accepted key :
  attributable (foldl fold_rec no_history recs) accepted key = true -> explained recs accepted key.
Proof.
  unfold attributable. rewrite orb_true_iff, fallback_twin_ids, fold_ids.
  change (ids_of no_history key) with (∅ : gset bytes). rewrite union_empty_r_L. intros [Ht|Hf].
  - left. apply Nat.ltb_lt, size_gt_1 in Ht as (x & y & Hx & Hy & Hne).
    rewrite elem_of_list_to_set, list_elem_of_bind in Hx, Hy.
    destruct Hx as (r1 & ? & ?), Hy as (r2 & ? & ?). by exists r1, r2, x, y.
  - right. destruct (accepted !! key) as [id|] eqn:Ea; [|done].
    destruct (h_jobs _ !! id) as [f|] eqn:Ej; [|done]. apply facts_lookup in Ej. subst f.
    rewrite fold_seq, fold_epoch, orb_true_iff, !Z.ltb_lt in Hf.
    change (facts no_history id) with no_facts in Hf.
    destruct Hf as [H|H]; (apply foldr_max_gt in H as (x & Hx & Hgt); [|simpl; lia]).
    all: apply list_elem_of_bind in Hx as (r & ? & ?); exists id, r; eauto 8.
Qed.

Lemma is_lost_says recs allow_dlq id :
  is_lost (foldl fold_rec no_history recs) allow_dlq id = false ->
  exists r, r ∈ recs /\ (says Done id r \/ allow_dlq = true /\ says DeadLetter id r).
Proof.
  unfold is_lost. destruct (h_jobs _ !! id) as [f|] eqn:E; simpl; [|by destruct allow_dlq].
  apply facts_lookup in E. subst f.
  rewrite andb_false_iff, !negb_false_iff, andb_true_iff, !bool_decide_eq_true.
  intros [[= H]|[Ha [= H]]]; apply fold_state in H as (r & ? & ?); eauto.
Qed.

Lemma no_double_done recs i e1 q1 e2 q2 :
  double_done (foldl fold_rec no_history recs) = 0%nat ->
  DoneRec i e1 q1 ∈ recs -> DoneRec i e2 q2 ∈ recs -> q1 = q2.
Proof.
  intros Hd H1 H2. destruct (decide (q1 = q2)) as [|Hne]; [done|]. exfalso.
  set (id := to_hex i). set (h := foldl fold_rec no_history recs) in *.
  assert (Hab : forall e q, is_about id (DoneRec i e q) = true)
    by (intros; rewrite (is_about_Some id i) by done; by apply bool_decide_eq_true).
  assert (Hin : forall e q, DoneRec i e q ∈ recs -> q ∈ done_seqs (facts h id)).
  { intros e q Hq. unfold h. rewrite fold_dones. apply elem_of_union_l, elem_of_list_to_set.
    apply list_elem_of_bind. exists (DoneRec i e q). split; [|done]. unfold done_at. rewrite Hab. by left. }
  destruct (proj2 (fold_dom no_history recs id)) as [f Hf]; [left; eauto|].
  apply (filter_none _ _ Hd (id, f)); [by apply elem_of_map_to_list|]. simpl.
  rewrite <- (facts_lookup h id f Hf). eauto using size_two.
Qed.

(** ** Order of the logs *)

Lemma foldr_max_perm m l l' : l ≡ₚ l' -> foldr Z.max m l = foldr Z.max m l'.
Proof. induction 1; simpl; lia. Qed.

Lemma facts_perm recs recs' id :
  recs ≡ₚ recs' ->
  let f := facts (foldl fold_rec no_history recs) id in
  let f' := facts (foldl fold_rec no_history recs') id in
  done_seqs f = done_seqs f' /\ max_lease_seq f = max_lease_seq f' /\ max_epoch f = max_epoch f'.
Proof.
  intros Hp. cbv zeta. rewrite !fold_dones, !fold_seq, !fold_epoch. split_and!.
  - by rewrite Hp.
  - apply foldr_max_perm. by rewrite Hp.
  - apply foldr_max_perm. by rewrite Hp.
Qed.

Lemma dom_perm recs recs' id :
  recs ≡ₚ recs' ->
  is_Some (h_jobs (foldl fold_rec no_history recs) !! id) <->
  is_Some (h_jobs (foldl fold_rec no_history recs') !! id).
Proof. intros Hp. rewrite !fold_dom. by setoid_rewrite Hp. Qed.

Lemma double_done_fmap h :
  double_done h =
  length (filter (fun x => (1 < size (snd x))%nat) (map_to_list (done_seqs <$> h_jobs h))).
Proof.
  unfold double_done. rewrite map_to_list_fmap.
  induction (map_to_list (h_jobs h)) as [|[id f] l IH]; [done|]. simpl.
  rewrite !filter_cons. simpl. repeat case_decide; simpl; try done. by rewrite IH.
Qed.

Lemma double_done_perm recs recs' :
  recs ≡ₚ recs' ->
  double_done (foldl fold_rec no_history recs) = double_done (foldl fold_rec no_history recs').
Proof.
  intros Hp. rewrite !double_done_fmap. do 3 f_equal. apply map_eq. intros id.
  rewrite !lookup_fmap. pose proof (dom_perm _ _ id Hp) as Hd.
  destruct (facts_perm _ _ id Hp) as [Hs _]. unfold facts in Hs.
  destruct (h_jobs _ !! id) eqn:E1, (h_jobs (foldl _ _ recs') !! id) eqn:E2; simpl in *.
  - by rewrite Hs.
  - destruct (proj1 Hd) as [? [=]]; eauto.
  - destruct (proj2 Hd) as [? [=]]; eauto.
  - done.
Qed.

Lemma attributable_perm recs recs' accepted key :
  recs ≡ₚ recs' ->
  attributable (foldl fold_rec no_history recs) accepted key =
  attributable (foldl fold_rec no_history recs') accepted key.
Proof.
  intros Hp. unfold attributable. rewrite !fallback_twin_ids, !fold_ids. f_equal; [by rewrite Hp|].
  destruct (accepted !! key) as [id|]; [|done].
  pose proof (dom_perm _ _ id Hp) as Hd.
  destruct (facts_perm _ _ id Hp) as (_ & Hs & He). unfold facts in Hs, He.
  destruct (h_jobs _ !! id) eqn:E1, (h_jobs (foldl _ _ recs') !! id) eqn:E2; simpl in *.
  - by rewrite Hs, He.
  - destruct (proj1 Hd) as [? [=]]; eauto.
  - destruct (proj2 Hd) as [? [=]]; eauto.
  - done.
Qed.

(** ** Theorems *)

(** C15: exit code 0 means what the tool promises, in terms of the records on disk:
    every log could be replayed; every accepted submit has a completion record (or,
    when that is allowed, a dead-letter record) in some log; all completion records
    of one job carry the same lease number, so a second completion is always
    reported; and every key delivered twice has two jobs under it, a second lease
    or a second epoch. *)
Theorem verify_pass_sound crc32c allow_dlq logs_csv fs io submits sink :
  verify crc32c allow_dlq logs_csv fs io submits sink = 0 ->
  exists recs s k,
    logged crc32c (filter (fun d => d <> []) (split comma logs_csv)) fs io = Some recs /\
    submits = Some s /\ sink = Some k /\
    (forall key id, read_submits s !! key = Some id ->
       exists r, r ∈ recs /\ (says Done id r \/ allow_dlq = true /\ says DeadLetter id r)) /\
    (forall i e1 q1 e2 q2, DoneRec i e1 q1 ∈ recs -> DoneRec i e2 q2 ∈ recs -> q1 = q2) /\
    (forall key n, read_sink k !! key = Some n -> 1 < n -> explained recs (read_submits s) key).
Proof.
  unfold verify. rewrite read_logs_logged. destruct (logged _ _ _ _) as [recs|]; simpl; [|done].
  destruct submits as [s|], sink as [k|]; try done.
  repeat case_decide; try done; try lia. intros _. exists recs, s, k. split_and!; try done.
  - intros key id Hk. apply is_lost_says.
    assert (Hl : lost (foldl fold_rec no_history recs) allow_dlq (read_submits s) = 0%nat) by lia.
    apply not_true_iff_false. apply (filter_none _ _ Hl (key, id)). by apply elem_of_map_to_list.
  - intros i e1 q1 e2 q2. apply no_double_done. lia.
  - intros key n Hk Hn. apply attributable_explained.
    assert (Hu : unexplained_dupes (foldl fold_rec no_history recs) (read_submits s) (read_sink k) = 0%nat)
      by lia.
    apply not_false_iff_true. intros Hf. apply (filter_none _ _ Hu (key, n)); [|done].
    by apply elem_of_map_to_list.
Qed.

(** The checks for double completions and for unexplained duplicates do not
    depend on the order in which the logs, or the records, are read. *)
Theorem checks_order_independent recs recs' accepted deliveries :
  recs ≡ₚ recs' ->
  double_done (foldl fold_rec no_history recs) = double_done (foldl fold_rec no_history recs') /\
  unexplained_dupes (foldl fold_rec no_history recs) accepted deliveries =
  unexplained_dupes (foldl fold_rec no_history recs') accepted deliveries.
Proof.
  intros Hp. split; [by apply double_done_perm|]. unfold unexplained_dupes. f_equal.
  apply list_filter_iff. intros d. by rewrite (attributable_perm _ _ _ _ Hp).
Qed.

(** ** Two logs *)
Module VerifySample.
Definition crc (_ : bytes) : Z := 0.

(** The disk of a node that logged [recs]. *)
Definition disk_of (recs : list Rec) : Disk :=
  let '(_, _, w) := open crc (new_wal empty_disk [] default_segment_bytes) in
  w_disk (foldl (fun w r => snd (append crc (encode_record r (w_next_lsn w)) true w)) w recs).

(** Node a completed the job in epoch 1; node b took it over in epoch 2 and has
    not heard of the completion. *)
Definition log_a : list Rec := [SubmitRec Sample.job1; LeaseRec Sample.id1 1 1 7; DoneRec Sample.id1 1 1].
Definition log_b : list Rec := [ReplicateRec (set_epoch 2 Sample.job1)].
Definition fs : gmap bytes Disk := {[lit "a" := disk_of log_a; lit "b" := disk_of log_b]}.
Definition submits : bytes := lit "k1," ++ to_hex Sample.id1 ++ lit ",201" ++ [lf].
Definition sink : bytes := lit "12 k1 1 / 0" ++ [lf] ++ lit "40 k1 2 / 0" ++ [lf].
End VerifySample.

(** Whether an accepted job counts as lost does depend on the order of the logs:
    a completion read before a copy of a higher epoch is forgotten, one read after it
    is taken to be of that epoch.  The same two logs fail as [a,b] and pass as [b,a]. *)
Theorem lost_depends_on_log_order :
  verify VerifySample.crc false (lit "a,b") VerifySample.fs []
    (Some VerifySample.submits) (Some VerifySample.sink) = 1 /\
  verify VerifySample.crc false (lit "b,a") VerifySample.fs []
    (Some VerifySample.submits) (Some VerifySample.sink) = 0.
Proof. split; vm_compute; reflexivity. Qed.

Lemma verify_pass_sound_witness :
  exists recs s k,
    logged VerifySample.crc (filter (fun d => d <> []) (split comma (lit "b,a"))) VerifySample.fs [] = Some recs /\
    Some VerifySample.submits = Some s /\ Some VerifySample.sink = Some k /\
    (forall key id, read_submits s !! key = Some id ->
       exists r, r ∈ recs /\ (says Done id r \/ false = true /\ says DeadLetter id r)) /\
    (forall i e1 q1 e2 q2, DoneRec i e1 q1 ∈ recs -> DoneRec i e2 q2 ∈ recs -> q1 = q2) /\
    (forall key n, read_sink k !! key = Some n -> 1 < n -> explained recs (read_submits s) key).
Proof. apply verify_pass_sound. vm_compute. reflexivity. Defined.

Lemma checks_order_independent_witness :
  double_done (foldl fold_rec no_history (VerifySample.log_a ++ VerifySample.log_b)) =
  double_done (foldl fold_rec no_history (VerifySample.log_b ++ VerifySample.log_a)) /\
  unexplained_dupes (foldl fold_rec no_history (VerifySample.log_a ++ VerifySample.log_b)) ∅ ∅ =
  unexplained_dupes (foldl fold_rec no_history (VerifySample.log_b ++ VerifySample.log_a)) ∅ ∅.
Proof. apply checks_order_independent. apply Permutation_app_comm. Defined.
