(* ===== verification/Http.v ===== *)
(** * Http: the HTTP server, src/src/http.cc and src/src/http.h

    [HttpServer] as state passing: connections by generation, the request parser,
    routing, responses and the reads and writes of the sockets.  What the kernel
    returns (chunks read, bytes written, errors) and what the handlers answer are
    inputs; a handler answers at once or keeps its [Respond] for later. *)

From Stdlib Require Import ZArith Lia String.
From stdpp Require Import base tactics list numbers gmap sorting.
From S2P Require Import Prelude Bytes Disk Text.

(** ** Requests *)

Definition kMaxRequestBytes : Z := Z.shiftl 256 10.

Record Request := mkRequest {
  rq_method : bytes; rq_path : bytes; rq_query : gmap bytes bytes; rq_headers : gmap bytes bytes;
  rq_body : bytes }.

(** The lambda [hex] of [url_decode]. *)
Definition url_hex (c : byte) : Z :=
  let c := Z_of_byte c in
  if (48 <=? c) && (c <=? 57) then c - 48
  else if (97 <=? c) && (c <=? 102) then c - 97 + 10
  else if (65 <=? c) && (c <=? 70) then c - 65 + 10
  else -1.

Definition plus_to_space (c : byte) : byte := if decide (c = Byte.x2b) then sp else c.

Fixpoint url_decode (s : bytes) : bytes :=
  match s with
  | [] => []
  | c :: s' =>
      match s' with
      | h :: l :: rest =>
          if bool_decide (c = Byte.x25) && (0 <=? url_hex h) && (0 <=? url_hex l)
          then byte_of_Z (url_hex h * 16 + url_hex l) :: url_decode rest
          else plus_to_space c :: url_decode s'
      | _ => plus_to_space c :: url_decode s'
      end
  end.

(** One piece of the query string. *)
Definition query_pair (q : gmap bytes bytes) (kv : bytes) : gmap bytes bytes :=
  match find_sub [Byte.x3d] kv with
  | Some eq => <[url_decode (take eq kv) := url_decode (drop (eq + 1) kv)]> q
  | None => if bool_decide (kv = []) then q else <[url_decode kv := []]> q
  end.

Definition parse_query (qs : bytes) : gmap bytes bytes := foldl query_pair ∅ (split Byte.x26 qs).

(** Path and query of the request target. *)
Definition parse_target (target : bytes) : bytes * gmap bytes bytes :=
  match find_sub [Byte.x3f] target with
  | Some q => (url_decode (take q target), parse_query (drop (q + 1) target))
  | None => (url_decode target, ∅)
  end.

Fixpoint skip_sp (s : bytes) : bytes :=
  match s with c :: s' => if decide (c = sp) then skip_sp s' else s | [] => [] end.

Definition header_line (hs : gmap bytes bytes) (line : bytes) : gmap bytes bytes :=
  match find_sub [Byte.x3a] line with
  | Some colon => <[lower (take colon line) := skip_sp (drop (colon + 1) line)]> hs
  | None => hs
  end.

(** The loop over the header lines from [pos] up to [hdr_end]; the client's loop
    (src/src/http_client.cc) is the same. *)
Fixpoint header_loop (fuel : nat) (text : bytes) (pos hdr_end : nat) (hs : gmap bytes bytes)
  : gmap bytes bytes :=
  match fuel with
  | O => hs
  | S fuel' =>
      if (pos <? hdr_end)%nat then
        let eol := match find_from crlf text pos with
                   | Some e => if (hdr_end <? e)%nat then hdr_end else e
                   | None => hdr_end
                   end in
        header_loop fuel' text (eol + 2) hdr_end (header_line hs (substr text pos (eol - pos)))
      else hs
  end.

Definition parse_headers (text : bytes) (pos hdr_end : nat) : gmap bytes bytes :=
  header_loop hdr_end text pos hdr_end ∅.

(** [None]: longer than the server accepts. *)
Definition content_length (hs : gmap bytes bytes) : option nat :=
  match hs !! lit "content-length" with
  | Some v => let n := strtoul v in if kMaxRequestBytes <? n then None else Some (Z.to_nat n)
  | None => Some 0%nat
  end.

Definition is_keep_alive (hs : gmap bytes bytes) : bool :=
  negb (bool_decide (lower (default (lit "keep-alive") (hs !! lit "connection")) = lit "close")).

Inductive Parse :=
  | Incomplete
  | Reject
  | Parsed (req : Request) (rest : bytes) (keep_alive : bool).

(** The parsing half of [try_parse]: what it makes of the buffered input. *)
Definition parse_request (inb : bytes) : Parse :=
  match find_sub (crlf ++ crlf) inb with
  | None => Incomplete
  | Some hdr_end =>
      let line_end := default 0%nat (find_sub crlf inb) in
      let line := substr inb 0 line_end in
      match find_sub [sp] line, rfind_char sp line with
      | Some sp1, Some sp2 =>
          if (sp2 =? sp1)%nat then Reject else
          let method := substr line 0 sp1 in
          let '(path, query) := parse_target (substr line (sp1 + 1) (sp2 - sp1 - 1)) in
          let headers := parse_headers inb (line_end + 2) hdr_end in
          match content_length headers with
          | None => Reject
          | Some content_len =>
              let total := (hdr_end + 4 + content_len)%nat in
              if (length inb <? total)%nat then Incomplete else
              Parsed (mkRequest method path query headers (substr inb (hdr_end + 4) content_len))
                     (drop total inb) (is_keep_alive headers)
          end
      | _, _ => Reject
      end
  end.

(** ** Responses *)

Record Response := mkResponse {
  rs_code : Z; rs_type : bytes; rs_body : bytes; rs_extra : list (bytes * bytes) }.

Definition reason (code : Z) : bytes :=
  lit (if code =? 200 then "OK" else if code =? 201 then "Created" else
       if code =? 202 then "Accepted" else if code =? 204 then "No Content" else
       if code =? 400 then "Bad Request" else if code =? 404 then "Not Found" else
       if code =? 409 then "Conflict" else if code =? 429 then "Too Many Requests" else
       if code =? 500 then "Internal Server Error" else
       if code =? 503 then "Service Unavailable" else "OK").

(** [s.c_str()] as a C string. *)
Fixpoint c_str (s : bytes) : bytes :=
  match s with c :: s' => if decide (c = Byte.x00) then [] else c :: c_str s' | [] => [] end.

(** [snprintf] into [head[256]]. *)
Definition response_head (keep_alive : bool) (r : Response) : bytes :=
  take 255 (lit "HTTP/1.1 " ++ to_string (rs_code r) ++ lit " " ++ reason (rs_code r) ++ crlf ++
            lit "Content-Type: " ++ c_str (rs_type r) ++ crlf ++
            lit "Content-Length: " ++ to_string (Z.of_nat (length (rs_body r))) ++ crlf ++
            lit "Connection: " ++ lit (if keep_alive then "keep-alive" else "close") ++ crlf).

Definition header_text (kv : bytes * bytes) : bytes := fst kv ++ lit ": " ++ snd kv ++ crlf.

(** The text [send_response] appends to the output buffer. *)
Definition response_text (keep_alive : bool) (r : Response) : bytes :=
  response_head keep_alive r ++ mjoin (header_text <$> rs_extra r) ++ crlf ++ rs_body r.

(** ** The server *)

(** A connection in [conns_]; its file descriptor is open as long as it is there.
    [c_pollout] is the EPOLLOUT interest registered with the loop. *)
Record Conn := mkConn {
  c_in : bytes; c_out : bytes; close_after_write : bool; awaiting_handler : bool; c_pollout : bool }.

Definition new_conn : Conn := mkConn [] [] false false false.

Definition set_in (x : bytes) (c : Conn) : Conn :=
  mkConn x (c_out c) (close_after_write c) (awaiting_handler c) (c_pollout c).
Definition set_outbuf (x : bytes) (c : Conn) : Conn :=
  mkConn (c_in c) x (close_after_write c) (awaiting_handler c) (c_pollout c).
Definition set_close (x : bool) (c : Conn) : Conn :=
  mkConn (c_in c) (c_out c) x (awaiting_handler c) (c_pollout c).
Definition set_awaiting (x : bool) (c : Conn) : Conn :=
  mkConn (c_in c) (c_out c) (close_after_write c) x (c_pollout c).
Definition set_pollout (x : bool) (c : Conn) : Conn :=
  mkConn (c_in c) (c_out c) (close_after_write c) (awaiting_handler c) x.

(** Results of [write(2)]: a positive count, EAGAIN, anything else.  An exhausted
    list stands for writes that take everything. *)
Inductive WriteIo := Wrote (n : nat) | WAgain | WFail.

Inductive Drained := DAll | DAgain | DFail.

(** The loop of [flush]: bytes written, bytes left, how it ended. *)
Fixpoint write_all (io : list WriteIo) (out : bytes) : bytes * bytes * Drained * list WriteIo :=
  match out with
  | [] => ([], [], DAll, io)
  | _ :: _ =>
      match io with
      | [] => (out, [], DAll, [])
      | Wrote n :: io' =>
          let k := Nat.min (S n) (length out) in
          let '(w, kept, d, io') := write_all io' (drop k out) in (take k out ++ w, kept, d, io')
      | WAgain :: io' => ([], out, DAgain, io')
      | WFail :: io' => ([], out, DFail, io')
      end
  end.

(** What happens on a connection, in order. *)
Inductive HEvent :=
  | HRequest (gen : Z) (req : Request)      (* a request is handed to its handler *)
  | HResponse (gen : Z) (text : bytes)      (* a response is queued *)
  | HWrite (gen : Z) (data : bytes)         (* bytes go out *)
  | HClose (gen : Z).

Section server.
(** Handlers and the state they work on: a handler gets the connection's
    generation and the keep-alive flag its [Respond] captures, and answers now or
    not yet. *)
Context {H A : Type} (handle : H -> Z -> bool -> Request -> A -> option Response * A).

Record Server := mkServer {
  s_conns : gmap Z Conn; s_next_gen : Z; s_routes : list (bytes * H); s_app : A;
  s_io : list WriteIo; s_log : list HEvent }.

Definition set_conns (x : gmap Z Conn) (s : Server) : Server :=
  mkServer x (s_next_gen s) (s_routes s) (s_app s) (s_io s) (s_log s).
Definition set_app (x : A) (s : Server) : Server :=
  mkServer (s_conns s) (s_next_gen s) (s_routes s) x (s_io s) (s_log s).
Definition set_wio (x : list WriteIo) (s : Server) : Server :=
  mkServer (s_conns s) (s_next_gen s) (s_routes s) (s_app s) x (s_log s).
Definition log (e : HEvent) (s : Server) : Server :=
  mkServer (s_conns s) (s_next_gen s) (s_routes s) (s_app s) (s_io s) (s_log s ++ [e]).

Definition put_conn (gen : Z) (c : Conn) (s : Server) : Server := set_conns (<[gen := c]> (s_conns s)) s.

Definition new_server (app : A) : Server := mkServer ∅ 1 [] app [] [].

(** Longest prefix first; [std::sort] may order routes of one length either way. *)
Definition longer (a b : bytes * H) : Prop := (length (fst b) <= length (fst a))%nat.

#[global] Instance longer_dec a b : Decision (longer a b).
Proof. unfold longer. apply _. Defined.

Definition route (method prefix : bytes) (h : H) (s : Server) : Server :=
  mkServer (s_conns s) (s_next_gen s)
           (merge_sort longer (s_routes s ++ [(method ++ lit " " ++ prefix, h)]))
           (s_app s) (s_io s) (s_log s).

(** The routing loop of [try_parse]. *)
Fixpoint find_route (key : bytes) (routes : list (bytes * H)) : option H :=
  match routes with
  | [] => None
  | (prefix, h) :: rest => if starts_with prefix key then Some h else find_route key rest
  end.

Definition close_conn (gen : Z) (s : Server) : Server :=
  match s_conns s !! gen with
  | None => s
  | Some _ => log (HClose gen) (set_conns (delete gen (s_conns s)) s)
  end.

(** A connection that is gone has no descriptor to write to. *)
Definition flush_conn (gen : Z) (s : Server) : Server :=
  match s_conns s !! gen with
  | None => s
  | Some c =>
      let '(w, kept, d, io) := write_all (s_io s) (c_out c) in
      let s := set_wio io s in
      let s := if bool_decide (w = []) then s else log (HWrite gen w) s in
      let c := set_outbuf kept c in
      match d with
      | DAgain => put_conn gen (set_pollout true c) s
      | DFail => close_conn gen (put_conn gen c s)
      | DAll =>
          let s := put_conn gen (set_pollout false c) s in
          if close_after_write c then close_conn gen s else s
      end
  end.

(** [send_response] up to and including its [flush]. *)
Definition queue_response (gen : Z) (keep_alive : bool) (r : Response) (s : Server) : Server :=
  match s_conns s !! gen with
  | None => s
  | Some c =>
      let text := response_text keep_alive r in
      let c := set_awaiting false (set_close (negb keep_alive) (set_outbuf (c_out c ++ text) c)) in
      flush_conn gen (log (HResponse gen text) (put_conn gen c s))
  end.

(** [send_response]; [parse] is [try_parse] on the next buffered request. *)
Definition send_response_with (parse : Z -> Server -> Server) (gen : Z) (keep_alive : bool)
  (r : Response) (s : Server) : Server :=
  let s := queue_response gen keep_alive r s in
  match s_conns s !! gen with
  | None => s
  | Some c => if negb (awaiting_handler c) && negb (bool_decide (c_in c = [])) then parse gen s else s
  end.

Definition not_found : Response := mkResponse 404 (lit "text/plain") (lit "not found" ++ [lf]) [].

(** [try_parse]; each round takes a request off the input, so the input's length
    bounds the rounds. *)
Fixpoint try_parse_fuel (fuel : nat) (gen : Z) (s : Server) : Server :=
  match fuel with
  | O => s
  | S fuel' =>
      match s_conns s !! gen with
      | None => s
      | Some c =>
          match parse_request (c_in c) with
          | Incomplete => s
          | Reject => close_conn gen s
          | Parsed req rest keep_alive =>
              let s := put_conn gen (set_awaiting true (set_in rest c)) s in
              let s := log (HRequest gen req) s in
              match find_route (rq_method req ++ lit " " ++ rq_path req) (s_routes s) with
              | None => send_response_with (try_parse_fuel fuel') gen keep_alive not_found s
              | Some h =>
                  let '(answer, app) := handle h gen keep_alive req (s_app s) in
                  let s := set_app app s in
                  match answer with
                  | Some r => send_response_with (try_parse_fuel fuel') gen keep_alive r s
                  | None => s
                  end
              end
          end
      end
  end.

Definition buffered (gen : Z) (s : Server) : nat :=
  match s_conns s !! gen with Some c => length (c_in c) | None => 0%nat end.

Definition try_parse (gen : Z) (s : Server) : Server := try_parse_fuel (S (buffered gen s)) gen s.

Definition send_response (gen : Z) (keep_alive : bool) (r : Response) (s : Server) : Server :=
  send_response_with try_parse gen keep_alive r s.

(** The [Respond] a handler kept: nothing when the client has gone. *)
Definition respond_later (gen : Z) (keep_alive : bool) (r : Response) (s : Server) : Server :=
  match s_conns s !! gen with None => s | Some _ => send_response gen keep_alive r s end.

(** ** Socket events *)

(** [accept_ready]: one connection per descriptor accepted; [false] where the loop
    refuses it. *)
Definition accept_one (s : Server) (added : bool) : Server :=
  let gen := s_next_gen s in
  let s := mkServer (s_conns s) (u64 (gen + 1)) (s_routes s) (s_app s) (s_io s) (s_log s) in
  if added then put_conn gen new_conn s else s.

Definition accept_ready (accepted : list bool) (s : Server) : Server := foldl accept_one s accepted.

(** The read loop: [false] when the connection was closed, because the input grew
    too long or the peer ended it. *)
Fixpoint read_all (gen : Z) (chunks : list bytes) (eof : bool) (s : Server) : bool * Server :=
  match chunks with
  | [] => if eof then (false, close_conn gen s) else (true, s)
  | d :: rest =>
      match s_conns s !! gen with
      | None => (false, s)
      | Some c =>
          let inb := c_in c ++ d in
          let s := put_conn gen (set_in inb c) s in
          if kMaxRequestBytes <? Z.of_nat (length inb) then (false, close_conn gen s)
          else read_all gen rest eof s
      end
  end.

(** One call of [conn_ready]: the error bits, what the reads return when EPOLLIN is
    set, and EPOLLOUT. *)
Record ConnEvents := mkEvents { ev_error : bool; ev_in : option (list bytes * bool); ev_out : bool }.

Definition conn_ready (gen : Z) (ev : ConnEvents) (s : Server) : Server :=
  match s_conns s !! gen with
  | None => s
  | Some _ =>
      if ev_error ev then close_conn gen s else
      let '(go, s) :=
        match ev_in ev with
        | None => (true, s)
        | Some (chunks, eof) =>
            let '(go, s) := read_all gen chunks eof s in
            if go then
              (true, match s_conns s !! gen with
                     | Some c => if awaiting_handler c then s else try_parse gen s
                     | None => s
                     end)
            else (false, s)
        end in
      if go && ev_out ev then flush_conn gen s else s
  end.
End server.

Arguments Server : clear implicits.
