(* ===== verification/HttpClient.v ===== *)
(** * HttpClient: the text of the blocking client

    src/src/http_client.cc ([http_fetch]): the URL, the request and the parsing of the
    answer, and what src/src/worker_main.cc makes of a lease.  The sockets are a parameter
    of a call here: the bytes the server sent until it closed, or nothing on any failure
    or timeout; HttpSocket models them. *)

From Stdlib Require Import ZArith Lia String.
From stdpp Require Import base tactics list numbers gmap.
From S2P Require Import Prelude Bytes Disk Text Http.

(** ** [http_fetch] *)

Record HttpResponse := mkHttpResponse {
  hr_code : Z; hr_headers : gmap bytes bytes; hr_body : bytes }.

(** [HttpResponse r;], returned on every failure. *)
Definition no_response : HttpResponse := mkHttpResponse 0 ∅ [].

Record Url := mkUrl { u_hostport : bytes; u_path : bytes; u_host : bytes; u_port : Z }.

Definition parse_url (url : bytes) : option Url :=
  if negb (starts_with (lit "http://") url) then None else
  let rest := drop 7 url in
  let slash := find_sub [Byte.x2f] rest in
  let hostport := match slash with None => rest | Some i => take i rest end in
  let path := match slash with None => lit "/" | Some i => drop i rest end in
  let colon := find_sub [Byte.x3a] hostport in
  let host := match colon with None => hostport | Some i => take i hostport end in
  let port := u16 (match colon with None => 80 | Some i => strtoul (drop (i + 1) hostport) end) in
  Some (mkUrl hostport path host port).

(** The request text. *)
Definition request_text (method path hostport : bytes) (headers : list (bytes * bytes)) (body : bytes)
  : bytes :=
  method ++ lit " " ++ path ++ lit " HTTP/1.1" ++ crlf ++ lit "Host: " ++ hostport ++
  crlf ++ lit "Connection: close" ++ crlf ++ lit "Content-Length: " ++
  to_string (Z.of_nat (length body)) ++ crlf ++
  mjoin (header_text <$> headers) ++ crlf ++ body.

(** [atoi] *)
Definition atoi (s : bytes) : Z :=
  match scan_number s with None => 0 | Some (neg, v) => if neg then - v else v end.

(** What [http_fetch] makes of the bytes received. *)
Definition parse_response (resp : bytes) : HttpResponse :=
  match find_sub (crlf ++ crlf) resp with
  | None => no_response
  | Some hdr_end =>
      if (length resp <? 12)%nat then no_response else
      let pos := (default 0 (find_sub crlf resp) + 2)%nat in
      mkHttpResponse (atoi (drop 9 resp)) (parse_headers resp pos hdr_end) (drop (hdr_end + 4) resp)
  end.

(** [net host port request]: the bytes received, [None] for a failure or timeout. *)
Definition http_fetch (net : bytes -> Z -> bytes -> option bytes) (method url : bytes)
  (headers : list (bytes * bytes)) (body : bytes) : HttpResponse :=
  match parse_url url with
  | None => no_response
  | Some u =>
      match net (u_host u) (u_port u) (request_text method (u_path u) (u_hostport u) headers body) with
      | None => no_response
      | Some resp => parse_response resp
      end
  end.

(** ** One round of the worker *)

(** The lease as the worker holds it: strings out of the response headers. *)
Record WorkerLease := mkLease {
  wl_id : bytes; wl_url : bytes; wl_key : bytes; wl_epoch : bytes; wl_seq : bytes;
  wl_attempt : bytes; wl_body : bytes }.

Definition hdr (r : HttpResponse) (k : string) : bytes := default [] (hr_headers r !! lit k).

(** [None]: sleep or skip. *)
Definition worker_lease (lease : HttpResponse) : option WorkerLease :=
  if negb (hr_code lease =? 200) then None else
  let id := hdr lease "x-tautq-id" in
  let url := hdr lease "x-tautq-url" in
  if bool_decide (id = []) || bool_decide (url = []) then None else
  Some (mkLease id url (hdr lease "x-tautq-key") (hdr lease "x-tautq-epoch")
                (hdr lease "x-tautq-seq") (hdr lease "x-tautq-attempt") (hr_body lease)).

Definition lease_url (node worker_id : bytes) : bytes := node ++ lit "/v1/lease?worker=" ++ worker_id.

Definition delivery_headers (l : WorkerLease) : list (bytes * bytes) :=
  [(lit "Idempotency-Key", wl_key l); (lit "X-Tautq-Attempt", wl_attempt l)].

Definition delivered (r : HttpResponse) : bool := (200 <=? hr_code r) && (hr_code r <? 300).

Definition ack_url (node : bytes) (l : WorkerLease) (ok : bool) : bytes :=
  node ++ lit "/v1/ack?id=" ++ wl_id l ++ lit "&epoch=" ++ wl_epoch l ++ lit "&seq=" ++ wl_seq l ++
  lit "&result=" ++ lit (if ok then "ok" else "fail").

(** The retry loop: the answers of the node to successive attempts, and how many
    were made.  [g_stop] stays 0. *)
Fixpoint ack_loop (attempts : nat) (answers : list HttpResponse) : nat :=
  match attempts, answers with
  | S attempts', a :: answers' =>
      if negb (hr_code a =? 0) && negb (hr_code a =? 503) then 1%nat
      else S (ack_loop attempts' answers')
  | _, _ => 0%nat
  end.

Definition kAckAttempts : nat := 50.
