(* ===== verification/HttpFraming.v ===== *)
(** * HttpFraming: messages survive the wire

    The header block of a message as lines; what the parsers of the server and of
    the client make of it; round trips of requests and responses. *)

From Stdlib Require Import ZArith Lia String.
From stdpp Require Import base tactics list numbers gmap.
From S2P Require Import Prelude Bytes Disk Text Http HttpClient.

(** ** Blocks of lines *)

Definition block (ls : list bytes) : bytes := mjoin ((fun l => l ++ crlf) <$> ls).

(** A line of a header block: not empty, no carriage return. *)
Definition line_ok (l : bytes) : Prop := l <> [] /\ cr ∉ l.

Lemma block_cons l ls : block (l :: ls) = l ++ crlf ++ block ls.
Proof. unfold block. simpl. by rewrite <- app_assoc. Qed.

Lemma length_block_cons l ls : (length l + 2 <= length (block (l :: ls)))%nat.
Proof. rewrite block_cons, !length_app. change (length crlf) with 2%nat. lia. Qed.

Lemma find_blank ls x :
  Forall line_ok ls -> ls <> [] ->
  find_sub (crlf ++ crlf) (block ls ++ crlf ++ x) = Some (length (block ls) - 2)%nat.
Proof.
  induction ls as [|l ls IH]; [done|]. intros Hok _. inversion_clear Hok as [|? ? [Hne Hcr] Hok'].
  change (crlf ++ crlf) with (cr :: lf :: crlf) in *.
  rewrite block_cons, <- !app_assoc, find_sub_skip by done. destruct ls as [|l' ls].
  - change (block []) with ([] : bytes). change (crlf ++ [] ++ crlf ++ x) with ((cr :: lf :: crlf) ++ x).
    rewrite find_sub_here, !length_app. simpl. f_equal. lia.
  - inversion Hok' as [|? ? [Hne' Hcr'] _]; subst.
    assert (Hst : starts_with crlf (block (l' :: ls) ++ crlf ++ x) = false).
    { rewrite block_cons. destruct l' as [|c r]; [done|]. simpl.
      by rewrite bool_decide_false by set_solver. }
    change (crlf ++ block (l' :: ls) ++ crlf ++ x) with (cr :: lf :: (block (l' :: ls) ++ crlf ++ x)).
    cbn [find_sub starts_with]. rewrite Hst, !andb_false_r.
    rewrite (bool_decide_false (cr = lf)) by done. cbn [andb].
    rewrite IH by done. rewrite !length_app. change (length crlf) with 2%nat.
    pose proof (length_block_cons l' ls).
    cbn [fmap option_fmap option_map]. f_equal. lia.
Qed.

Lemma find_line l ls x : cr ∉ l -> find_sub crlf (block (l :: ls) ++ x) = Some (length l).
Proof. intros H. rewrite block_cons, <- !app_assoc. by apply (find_sub_first cr [lf]). Qed.

Lemma header_loop_block ls : forall fuel p x hs,
  Forall line_ok ls -> (length ls <= fuel)%nat ->
  header_loop fuel (p ++ block ls ++ crlf ++ x) (length p) (length p + length (block ls) - 2) hs =
  foldl header_line hs ls.
Proof.
  induction ls as [|l ls IH]; intros fuel p x hs Hok Hf.
  - destruct fuel; [done|]. cbn [header_loop]. by rewrite (proj2 (Nat.ltb_ge _ _)) by (simpl; lia).
  - destruct fuel as [|fuel]; [simpl in Hf; lia|]. inversion_clear Hok as [|? ? [Hne Hcr] Hok'].
    assert (1 <= length l)%nat by (destruct l; [done|simpl; lia]).
    cbn [header_loop]. unfold find_from. rewrite drop_app_length.
    rewrite (find_line l ls (crlf ++ x) Hcr). rewrite block_cons.
    rewrite !length_app. change (length crlf) with 2%nat.
    rewrite (proj2 (Nat.ltb_lt _ _)) by lia. simpl fmap. cbn [fmap option_fmap option_map].
    rewrite (proj2 (Nat.ltb_ge _ _)) by lia.
    rewrite <- !app_assoc, (substr_mid p l) by lia.
    specialize (IH fuel (p ++ l ++ crlf) x (header_line hs l) Hok' ltac:(simpl in Hf; lia)).
    rewrite !length_app, <- !app_assoc in IH. change (length crlf) with 2%nat in IH.
    cbn [foldl]. rewrite <- IH. f_equal; lia.
Qed.

Lemma length_block ls : Forall line_ok ls -> (length ls <= length (block ls))%nat.
Proof.
  induction 1 as [|l ls [Hne _] _ IH]; [simpl; lia|]. rewrite block_cons, !length_app. simpl. lia.
Qed.

(** The headers of a block behind its first line. *)
Lemma parse_headers_block l ls x :
  Forall line_ok (l :: ls) ->
  parse_headers (block (l :: ls) ++ crlf ++ x) (length l + 2) (length (block (l :: ls)) - 2) =
  foldl header_line ∅ ls.
Proof.
  intros Hok. inversion_clear Hok as [|? ? [Hne _] Hls]. pose proof (length_block ls Hls).
  assert (1 <= length l)%nat by (destruct l; [done|simpl; lia]).
  unfold parse_headers.
  pose proof (header_loop_block ls (length (block (l :: ls)) - 2) (l ++ crlf) x ∅ Hls) as E.
  rewrite block_cons, <- !app_assoc. rewrite block_cons in E. rewrite !length_app in *.
  change (length crlf) with 2%nat in *. rewrite <- !app_assoc in E. rewrite <- E by lia.
  f_equal; lia.
Qed.

(** ** Requests *)

(** The text of header [k] with value [v], and the entry the parsers make of it. *)
Definition header_entry (hs : gmap bytes bytes) (kv : bytes * bytes) : gmap bytes bytes :=
  <[lower (fst kv) := skip_sp (snd kv)]> hs.

Definition field_line (kv : bytes * bytes) : bytes := fst kv ++ lit ": " ++ snd kv.

Definition field_ok (kv : bytes * bytes) : Prop :=
  (cr ∉ fst kv) /\ (Byte.x3a ∉ fst kv) /\ (cr ∉ snd kv).

Lemma field_line_ok kv : field_ok kv -> line_ok (field_line kv).
Proof.
  intros (Hk & _ & Hv). unfold field_line. split; [by destruct (fst kv)|].
  rewrite !not_elem_of_app. split_and!; [done| |done]. by apply (bool_decide_unpack _).
Qed.

Lemma field_line_entry hs kv : field_ok kv -> header_line hs (field_line kv) = header_entry hs kv.
Proof.
  intros (_ & Hc & _). unfold header_line, field_line, header_entry.
  change (lit ": ") with ([Byte.x3a] ++ [sp]). rewrite <- app_assoc.
  rewrite (find_sub_first Byte.x3a []) by done. rewrite take_app_length. f_equal.
  rewrite drop_app_add. done.
Qed.

Lemma fields_entries fs hs :
  Forall field_ok fs -> foldl header_line hs (field_line <$> fs) = foldl header_entry hs fs.
Proof.
  intros H. revert hs. induction H as [|kv fs Hkv _ IH]; intros hs; simpl; [done|].
  by rewrite field_line_entry, IH.
Qed.

Lemma fields_lines_ok fs : Forall field_ok fs -> Forall line_ok (field_line <$> fs).
Proof. intros H. apply Forall_fmap. eapply Forall_impl; [exact H|]. apply field_line_ok. Qed.

(** The parser on a well-formed head followed by any input. *)
Lemma parse_request_head m target fs x :
  sp ∉ m -> cr ∉ m -> cr ∉ target -> Forall field_ok fs ->
  parse_request (block ((m ++ lit " " ++ target ++ lit " HTTP/1.1") :: (field_line <$> fs)) ++ crlf ++ x) =
  let hs := foldl header_entry ∅ fs in
  match content_length hs with
  | None => Reject
  | Some n => if (length x <? n)%nat then Incomplete else
              Parsed (mkRequest m (fst (parse_target target)) (snd (parse_target target)) hs (take n x))
                     (drop n x) (is_keep_alive hs)
  end.
Proof.
  intros Hsp Hm Ht Hf. set (line := m ++ lit " " ++ target ++ lit " HTTP/1.1").
  assert (Hl : line_ok line).
  { split; [by destruct m|]. unfold line. rewrite !not_elem_of_app.
    split_and!; try done; by apply (bool_decide_unpack _). }
  assert (Hok : Forall line_ok (line :: (field_line <$> fs)))
    by (constructor; [done|by apply fields_lines_ok]).
  unfold parse_request. rewrite find_blank by done. rewrite find_line by apply Hl.
  cbn [default]. rewrite parse_headers_block, fields_entries by done.
  set (hs := foldl header_entry ∅ fs).
  assert (Hline : forall y, substr (block (line :: (field_line <$> fs)) ++ y) 0 (length line) = line).
  { intros y. rewrite block_cons, <- app_assoc. apply substr_front. }
  rewrite Hline.
  assert (Hs1 : find_sub [sp] line = Some (length m)) by by apply (find_sub_first sp []).
  assert (Hs2 : rfind_char sp line = Some (length m + 1 + length target)%nat).
  { change line with (m ++ [sp] ++ target ++ sp :: lit "HTTP/1.1"). rewrite !app_assoc.
    rewrite rfind_char_last by by apply (bool_decide_unpack _). by rewrite !length_app. }
  rewrite Hs1, Hs2, (proj2 (Nat.eqb_neq _ _)) by lia.
  assert (Hm' : substr line 0 (length m) = m) by apply substr_front.
  assert (Ht' : substr line (length m + 1) (length m + 1 + length target - length m - 1) = target).
  { change line with (m ++ [sp] ++ target ++ lit " HTTP/1.1"). rewrite app_assoc.
    apply substr_mid; rewrite ?length_app; simpl; lia. }
  rewrite Hm', Ht'.
  destruct (parse_target target) as [path query]. cbn [fst snd].
  destruct (content_length hs) as [n|]; [|done].
  set (b := block _).
  pose proof (length_block_cons line (field_line <$> fs) : (_ <= length b)%nat) as Hb.
  assert (E : (length b - 2 + 4 = length (b ++ crlf))%nat) by (rewrite length_app; simpl; lia).
  rewrite E. assert (Ex : b ++ crlf ++ x = (b ++ crlf) ++ x) by by rewrite app_assoc.
  rewrite Ex. rewrite (length_app (b ++ crlf) x).
  destruct (Nat.ltb_spec (length x) n).
  - by rewrite (proj2 (Nat.ltb_lt _ _)) by lia.
  - rewrite (proj2 (Nat.ltb_ge _ _)) by lia. unfold substr. rewrite drop_app_length, drop_app_add. done.
Qed.

(** What is found in a prefix is found in the whole. *)
Lemma find_sub_prefix pat p q i : find_sub pat p = Some i -> find_sub pat (p ++ q) = Some i.
Proof.
  revert i. induction p as [|c p IH]; intros i H.
  - cbn [find_sub] in H. destruct (starts_with pat []) eqn:E; [|done].
    apply starts_with_spec in E as [r E]. destruct pat; [|done]. simplify_eq. by destruct q.
  - change ((c :: p) ++ q) with (c :: (p ++ q)). cbn [find_sub] in H |- *.
    destruct (starts_with pat (c :: p)) eqn:E.
    + apply starts_with_spec in E as [r E]. change (c :: (p ++ q)) with ((c :: p) ++ q).
      rewrite E, <- app_assoc, starts_with_app. done.
    + destruct (starts_with pat (c :: p ++ q)) eqn:E'.
      * apply fmap_Some in H as (j & Hj & ->). apply find_sub_bound in Hj.
        apply starts_with_spec in E' as [r E'].
        assert (Hp : starts_with pat (c :: p) = true); [|congruence].
        apply starts_with_spec. exists (drop (length pat) (c :: p)).
        assert (Ht : take (length pat) (c :: p ++ q) = take (length pat) (c :: p)).
        { change (c :: p ++ q) with ((c :: p) ++ q). rewrite take_app_le; [done|]. simpl. lia. }
        rewrite E', take_app_length in Ht. rewrite Ht at 1. by rewrite take_drop.
      * apply fmap_Some in H as (j & Hj & ->). by rewrite (IH _ Hj).
Qed.

Lemma entries_lookup_ne fs hs k :
  Forall (fun kv => lower (fst kv) <> k) fs -> foldl header_entry hs fs !! k = hs !! k.
Proof.
  intros H. revert hs. induction H as [|kv fs Hk _ IH]; intros hs; simpl; [done|].
  rewrite IH. unfold header_entry. by rewrite lookup_insert_ne.
Qed.

Lemma skip_sp_to_string v : skip_sp (to_string v) = to_string v.
Proof.
  destruct (to_string_digits v) as [Hd Hne]. destruct (to_string v) as [|c s]; [done|].
  inversion_clear Hd as [|? ? Hc _]. simpl. rewrite decide_False; [done|].
  intros ->. destruct Hc as [Hc _]. by apply Hc.
Qed.

(** The fields [http_fetch] sends ahead of the caller's. *)
Definition request_fields (hostport : bytes) (headers : list (bytes * bytes)) (body : bytes)
  : list (bytes * bytes) :=
  [(lit "Host", hostport); (lit "Connection", lit "close");
   (lit "Content-Length", to_string (Z.of_nat (length body)))] ++ headers.

Lemma fields_block fs : mjoin (header_text <$> fs) = block (field_line <$> fs).
Proof.
  induction fs as [|kv fs IH]; [done|].
  change (field_line <$> kv :: fs) with (field_line kv :: (field_line <$> fs)).
  change (mjoin (header_text <$> kv :: fs)) with (header_text kv ++ mjoin (header_text <$> fs)).
  rewrite block_cons, <- IH, app_assoc. f_equal. unfold header_text, field_line.
  by rewrite <- !app_assoc.
Qed.

Lemma request_text_block m path hp headers body :
  request_text m path hp headers body =
  block ((m ++ lit " " ++ path ++ lit " HTTP/1.1") ::
         (field_line <$> request_fields hp headers body)) ++ crlf ++ body.
Proof.
  unfold request_text, request_fields. rewrite fields_block. cbn [fmap list_fmap app].
  rewrite !block_cons. unfold field_line at 1 2 3. cbn [fst snd].
  by rewrite <- !app_assoc.
Qed.

(** A header of the caller's that is none of those the framing depends on. *)
Definition extra_ok (kv : bytes * bytes) : Prop :=
  field_ok kv /\ lower (fst kv) <> lit "content-length" /\ lower (fst kv) <> lit "connection".

Record sendable (m path hp : bytes) (headers : list (bytes * bytes)) (body : bytes) : Prop := {
  sn_method : (sp ∉ m) /\ (cr ∉ m);
  sn_path : cr ∉ path;
  sn_host : cr ∉ hp;
  sn_headers : Forall extra_ok headers;
  sn_body : Z.of_nat (length body) <= kMaxRequestBytes }.

Lemma request_fields_ok m path hp headers body :
  sendable m path hp headers body -> Forall field_ok (request_fields hp headers body).
Proof.
  intros [_ _ Hhp Hh _]. unfold request_fields. apply Forall_app. split.
  - rewrite !Forall_cons. split_and!; [..|constructor]; (split_and!; cbn [fst snd];
      [by apply (bool_decide_unpack _)|by apply (bool_decide_unpack _)|]).
    + done.
    + by apply (bool_decide_unpack _).
    + apply digits_not_in. intros [Hc _]. by apply Hc.
  - eapply Forall_impl; [exact Hh|]. by intros kv [? _].
Qed.

Lemma request_fields_framing m path hp headers body :
  sendable m path hp headers body ->
  let hs := foldl header_entry ∅ (request_fields hp headers body) in
  content_length hs = Some (length body) /\ is_keep_alive hs = false.
Proof.
  intros [_ _ _ Hh Hb]. cbv zeta. unfold content_length, is_keep_alive, request_fields.
  rewrite foldl_app.
  rewrite (entries_lookup_ne headers _ (lit "content-length")),
    (entries_lookup_ne headers _ (lit "connection"))
    by (eapply Forall_impl; [exact Hh|]; by intros kv (_ & ? & ?)).
  split; [|by vm_compute].
  assert (E : foldl header_entry ∅
    [(lit "Host", hp); (lit "Connection", lit "close");
     (lit "Content-Length", to_string (Z.of_nat (length body)))] !! lit "content-length"
    = Some (skip_sp (to_string (Z.of_nat (length body))))) by apply lookup_insert_eq.
  rewrite E, skip_sp_to_string. rewrite <- (app_nil_r (to_string _)), strtoul_to_string.
  - change kMaxRequestBytes with 262144 in *. rewrite (proj2 (Z.ltb_ge _ _)) by lia.
    by rewrite Nat2Z.id.
  - change kMaxRequestBytes with 262144 in *. unfold fits. lia.
  - apply ends_number_nil.
Qed.

Lemma request_parses m path hp headers body rest :
  sendable m path hp headers body ->
  parse_request (request_text m path hp headers body ++ rest) =
  Parsed (mkRequest m (fst (parse_target path)) (snd (parse_target path))
                    (foldl header_entry ∅ (request_fields hp headers body)) body)
         rest false.
Proof.
  intros Hs. pose proof (sn_method _ _ _ _ _ Hs) as [Hsp Hcr].
  destruct (request_fields_framing _ _ _ _ _ Hs) as [Hc Hk].
  rewrite request_text_block, <- !app_assoc, parse_request_head;
    [|done|done|apply Hs|by eapply request_fields_ok].
  cbv zeta. rewrite Hc, Hk, length_app, (proj2 (Nat.ltb_ge _ _)) by lia.
  by rewrite take_app_length, drop_app_length.
Qed.

(** A request that is not all there is not acted on. *)
Lemma request_prefix_incomplete m path hp headers body p q :
  sendable m path hp headers body -> q <> [] ->
  request_text m path hp headers body = p ++ q -> parse_request p = Incomplete.
Proof.
  intros Hs Hq E. rewrite request_text_block in E.
  pose proof (request_fields_ok _ _ _ _ _ Hs) as Hf.
  pose proof (sn_method _ _ _ _ _ Hs) as [Hsp Hcr].
  set (line := m ++ lit " " ++ path ++ lit " HTTP/1.1") in *.
  set (b := block (line :: (field_line <$> request_fields hp headers body))) in *.
  destruct (Nat.lt_ge_cases (length p) (length b + 2)) as [Hlt|Hge].
  - unfold parse_request. destruct (find_sub (crlf ++ crlf) p) as [i|] eqn:Ei; [|done].
    pose proof (find_sub_bound _ _ _ Ei) as Hb. apply (find_sub_prefix _ _ q) in Ei.
    rewrite <- E in Ei. unfold b in Ei. rewrite find_blank in Ei.
    + exfalso. fold b in Ei. apply (inj Some) in Ei.
      pose proof (length_block_cons line (field_line <$> request_fields hp headers body)) as H2.
      fold b in H2.
      change (length (crlf ++ crlf)) with 4%nat in Hb. lia.
    + constructor; [|by apply fields_lines_ok]. split; [by destruct m|]. unfold line.
      rewrite !not_elem_of_app. split_and!; try done; [by apply (bool_decide_unpack _)|apply Hs|by apply (bool_decide_unpack _)].
    + done.
  - rewrite app_assoc in E.
    assert (Hx : exists x, p = (b ++ crlf) ++ x /\ body = x ++ q).
    { exists (drop (length (b ++ crlf)) p).
      assert (Hp : take (length (b ++ crlf)) p = b ++ crlf).
      { rewrite <- (take_app_le p q) by (rewrite length_app; simpl; lia). by rewrite <- E, take_app_length. }
      rewrite <- Hp at 1. rewrite take_drop. split; [done|].
      apply (f_equal (drop (length (b ++ crlf)))) in E. rewrite drop_app_length in E.
      rewrite E, drop_app_le; [done|]. rewrite length_app; simpl; lia. }
    destruct Hx as (x & -> & ->). rewrite <- app_assoc. unfold b, line.
    rewrite parse_request_head; [|done|done|apply Hs|done]. cbv zeta.
    destruct (request_fields_framing _ _ _ _ _ Hs) as [-> _].
    rewrite (proj2 (Nat.ltb_lt _ _)); [done|]. rewrite length_app. destruct q; [done|]. simpl. lia.
Qed.

(** ** Responses *)

Definition response_fields (keep_alive : bool) (r : Response) : list (bytes * bytes) :=
  [(lit "Content-Type", c_str (rs_type r));
   (lit "Content-Length", to_string (Z.of_nat (length (rs_body r))));
   (lit "Connection", lit (if keep_alive then "keep-alive" else "close"))] ++ rs_extra r.

(** A response whose head fits the buffer of [send_response] and whose fields do
    not break their lines. *)
Record renderable (r : Response) : Prop := {
  rn_code : fits 64 (rs_code r);
  rn_type : (length (rs_type r) <= 100)%nat /\ (cr ∉ rs_type r);
  rn_extra : Forall field_ok (rs_extra r) }.

Lemma reason_ok code : (length (reason code) <= 21)%nat /\ (cr ∉ reason code).
Proof. unfold reason. repeat case_match; (split; [vm_compute; lia|by apply (bool_decide_unpack _)]). Qed.

Lemma c_str_sub s : (length (c_str s) <= length s)%nat /\ (cr ∉ s -> cr ∉ c_str s).
Proof.
  induction s as [|c s [IH1 IH2]]; [done|]. simpl. case_decide; simpl; [split; [lia|set_solver]|].
  split; [lia|]. rewrite !not_elem_of_cons. naive_solver.
Qed.

Definition status_line (code : Z) : bytes := lit "HTTP/1.1 " ++ to_string code ++ lit " " ++ reason code.

Lemma to_string_no_cr v : cr ∉ to_string v.
Proof. apply digits_not_in. intros [Hc _]. by apply Hc. Qed.

Lemma status_line_ok code : line_ok (status_line code).
Proof.
  split; [done|]. unfold status_line. rewrite !not_elem_of_app. split_and!.
  - by apply (bool_decide_unpack _).
  - apply to_string_no_cr.
  - by apply (bool_decide_unpack _).
  - apply reason_ok.
Qed.

Lemma response_text_block keep_alive r :
  renderable r ->
  response_text keep_alive r =
  block (status_line (rs_code r) :: (field_line <$> response_fields keep_alive r)) ++ crlf ++ rs_body r.
Proof.
  intros [_ [Ht _] _]. unfold response_text, response_head, response_fields.
  rewrite take_ge.
  - rewrite fields_block. cbn [fmap list_fmap app]. rewrite !block_cons.
    unfold field_line at 1 2 3, status_line. cbn [fst snd]. by rewrite <- !app_assoc.
  - pose proof (length_to_string (rs_code r)). pose proof (length_to_string (Z.of_nat (length (rs_body r)))).
    destruct (reason_ok (rs_code r)) as [? _]. destruct (c_str_sub (rs_type r)) as [? _].
    assert (length (lit (if keep_alive then "keep-alive" else "close")) <= 10)%nat
      by (destruct keep_alive; vm_compute; lia).
    rewrite !length_app. change (length (lit "HTTP/1.1 ")) with 9%nat.
    change (length (lit " ")) with 1%nat. change (length crlf) with 2%nat.
    change (length (lit "Content-Type: ")) with 14%nat.
    change (length (lit "Content-Length: ")) with 16%nat.
    change (length (lit "Connection: ")) with 12%nat. lia.
Qed.

Lemma response_fields_ok keep_alive r : renderable r -> Forall field_ok (response_fields keep_alive r).
Proof.
  intros [_ [_ Ht] He]. unfold response_fields. apply Forall_app. split; [|done].
  rewrite !Forall_cons. split_and!; [..|constructor]; (split_and!; cbn [fst snd];
    [by apply (bool_decide_unpack _)|by apply (bool_decide_unpack _)|]).
  - by apply c_str_sub.
  - apply to_string_no_cr.
  - destruct keep_alive; by apply (bool_decide_unpack _).
Qed.

Lemma response_parses keep_alive r :
  renderable r ->
  parse_response (response_text keep_alive r) =
  mkHttpResponse (rs_code r) (foldl header_entry ∅ (response_fields keep_alive r)) (rs_body r).
Proof.
  intros Hr. rewrite response_text_block by done.
  pose proof (response_fields_ok keep_alive r Hr) as Hf.
  set (line := status_line (rs_code r)). set (fs := response_fields keep_alive r) in *.
  assert (Hok : Forall line_ok (line :: (field_line <$> fs)))
    by (constructor; [apply status_line_ok|by apply fields_lines_ok]).
  unfold parse_response. rewrite find_blank by done.
  pose proof (length_block_cons line (field_line <$> fs)) as Hl.
  assert (11 <= length line)%nat.
  { unfold line, status_line. rewrite !length_app. change (length (lit "HTTP/1.1 ")) with 9%nat.
    change (length (lit " ")) with 1%nat. destruct (to_string_digits (rs_code r)) as [_ Hne].
    destruct (to_string (rs_code r)); [done|]. simpl length. lia. }
  rewrite (proj2 (Nat.ltb_ge _ _)) by (rewrite !length_app; lia).
  rewrite find_line by apply status_line_ok. cbn [default].
  rewrite parse_headers_block, fields_entries by done. f_equal.
  - rewrite block_cons. unfold line, status_line. rewrite <- !app_assoc.
    rewrite drop_app_length' by done. unfold atoi.
    rewrite scan_to_string; [done|apply Hr|]. apply ends_number_cons. intros [Hc _]. by apply Hc.
  - replace (length (block (line :: (field_line <$> fs))) - 2 + 4)%nat
      with (length (block (line :: (field_line <$> fs)) ++ crlf))
      by (rewrite length_app; change (length crlf) with 2%nat; lia).
    by rewrite app_assoc, drop_app_length.
Qed.

(** ** Theorems *)

(** C34: a request the client sends is read back as sent: method, path and query,
    every header and the body, and the bytes behind it stay in the buffer; and no
    proper prefix of it is ever acted on, so it does not matter how the transport
    cuts it into pieces. *)
Theorem request_roundtrip m path hp headers body :
  sendable m path hp headers body ->
  (forall rest,
     parse_request (request_text m path hp headers body ++ rest) =
     Parsed (mkRequest m (fst (parse_target path)) (snd (parse_target path))
                       (foldl header_entry ∅ (request_fields hp headers body)) body) rest false) /\
  (forall p q, request_text m path hp headers body = p ++ q -> q <> [] -> parse_request p = Incomplete).
Proof.
  intros Hs. split; [intros rest; by apply request_parses|].
  intros p q E Hq. by eapply request_prefix_incomplete.
Qed.

(** A response is read back by the client as the handler gave it: code, headers
    and body, as long as the fields do not break their lines. *)
Theorem response_roundtrip keep_alive r :
  renderable r ->
  parse_response (response_text keep_alive r) =
  mkHttpResponse (rs_code r) (foldl header_entry ∅ (response_fields keep_alive r)) (rs_body r).
Proof. apply response_parses. Qed.

Lemma request_roundtrip_witness :
  parse_request (request_text (lit "POST") (lit "/v1/lease?worker=7") (lit "10.9.0.1:8080") [] [] ++ lit "GET") =
  Parsed (mkRequest (lit "POST") (lit "/v1/lease") (snd (parse_target (lit "/v1/lease?worker=7")))
            (foldl header_entry ∅ (request_fields (lit "10.9.0.1:8080") [] [])) []) (lit "GET") false.
Proof.
  refine (proj1 (request_roundtrip (lit "POST") (lit "/v1/lease?worker=7") (lit "10.9.0.1:8080") [] [] _) (lit "GET")).
  split; [split| | | |]; by apply (bool_decide_unpack _).
Defined.

Lemma response_roundtrip_witness :
  hr_body (parse_response (response_text true not_found)) = lit "not found" ++ [lf].
Proof.
  rewrite response_roundtrip; [reflexivity|].
  split; [by apply (bool_decide_unpack _)|split; [vm_compute; lia|by apply (bool_decide_unpack _)]|constructor].
Defined.
