(* ===== verification/HttpSocket.v ===== *)
(** * HttpSocket: the socket half of the client (src/src/http_client.cc)

    [http_fetch] opens a non-blocking socket, connects, sends the request and reads
    until the server closes, waiting on the descriptor until its deadline.  What each
    call returns is the environment's.  The theorems say that how the kernel cuts the
    two streams does not matter, and that a response is reported only after the whole
    request has gone out and the whole answer has come in. *)

From Stdlib Require Import ZArith Lia String.
From stdpp Require Import base tactics list numbers gmap.
From S2P Require Import Prelude Bytes Disk Text Http HttpClient HttpFraming.

(** ** System calls *)

(** [connect]: done, EINPROGRESS, or another error. *)
Inductive Connect := ConnDone | ConnInProgress | ConnError.

(** [send]: [n + 1] bytes at most, EAGAIN and whether [wait_fd] then finds the
    descriptor ready before the deadline, or another error. *)
Inductive SendIo := Sent (n : nat) | SendAgain (ready : bool) | SendError.

(** [recv]: bytes, end of stream, EAGAIN with the wait, or another error. *)
Inductive RecvIo := Received (b : byte) (more : bytes) | RecvEnd | RecvAgain (ready : bool) | RecvError.

(** One exchange as the environment answers it. *)
Record SockEnv := mkSockEnv {
  se_socket : bool; se_connect : Connect; se_writable : bool; se_so_error : Z;
  se_send : list SendIo; se_recv : list RecvIo }.

(** ** The loops *)

(** The send loop: whether it ended, and the bytes the kernel took.  When nothing
    more happens the wait runs into the deadline. *)
Fixpoint send_loop (io : list SendIo) (req : bytes) : bool * bytes :=
  match req with
  | [] => (true, [])
  | _ :: _ =>
      match io with
      | Sent n :: io' =>
          let k := Nat.min (S n) (length req) in
          let '(ok, sent) := send_loop io' (drop k req) in (ok, take k req ++ sent)
      | SendAgain true :: io' => send_loop io' req
      | SendAgain false :: _ | SendError :: _ | [] => (false, [])
      end
  end.

(** The receive loop: everything up to the end of the stream, or nothing. *)
Fixpoint recv_loop (io : list RecvIo) (resp : bytes) : option bytes :=
  match io with
  | Received b more :: io' => recv_loop io' (resp ++ b :: more)
  | RecvEnd :: _ => Some resp
  | RecvAgain true :: io' => recv_loop io' resp
  | RecvAgain false :: _ | RecvError :: _ | [] => None
  end.

(** Once connected: the bytes that went out and the bytes that came back. *)
Definition converse (env : SockEnv) (req : bytes) : bytes * option bytes :=
  if negb (se_writable env) then ([], None) else
  if negb (se_so_error env =? 0) then ([], None) else
  let '(ok, sent) := send_loop (se_send env) req in
  if negb ok then (sent, None) else (sent, recv_loop (se_recv env) []).

Section exchange.
(** [inet_pton]: whether the host is a dotted IPv4 address. *)
Context (inet_pton : bytes -> bool).

(** From [socket] to [close]. *)
Definition exchange (env : SockEnv) (host : bytes) (port : Z) (req : bytes) : bytes * option bytes :=
  if negb (se_socket env) then ([], None) else
  if negb (inet_pton host) then ([], None) else
  match se_connect env with
  | ConnError => ([], None)
  | ConnDone | ConnInProgress => converse env req
  end.

(** [http_fetch] over one socket. *)
Definition fetch (env : SockEnv) (method url : bytes) (headers : list (bytes * bytes)) (body : bytes)
  : HttpResponse :=
  http_fetch (fun host port req => snd (exchange env host port req)) method url headers body.
End exchange.

(** ** What the loops do *)

(** The bytes a run of [recv] brings. *)
Definition recv_data (io : list RecvIo) : bytes :=
  mjoin ((fun e => match e with Received b more => b :: more | _ => [] end) <$> io).

Definition patient_recv (e : RecvIo) : Prop :=
  match e with Received _ _ | RecvAgain true => True | _ => False end.

Definition patient_send (e : SendIo) : Prop :=
  match e with Sent _ | SendAgain true => True | _ => False end.

Definition progress (e : SendIo) : bool := match e with Sent _ => true | _ => false end.

Lemma recv_loop_end io rest resp :
  Forall patient_recv io -> recv_loop (io ++ RecvEnd :: rest) resp = Some (resp ++ recv_data io).
Proof.
  intros H. revert resp. induction H as [|e io He _ IH]; intros resp; simpl; [by rewrite app_nil_r|].
  destruct e as [b more| |[]|]; try done. rewrite IH.
  unfold recv_data. simpl. by rewrite <- (assoc_L (++)).
Qed.

Lemma recv_loop_inv io resp out :
  recv_loop io resp = Some out ->
  exists pre rest, io = pre ++ RecvEnd :: rest /\ Forall patient_recv pre /\ out = resp ++ recv_data pre.
Proof.
  revert resp. induction io as [|e io IH]; intros resp; simpl; [done|].
  destruct e as [b more| |[]|]; try done.
  - intros (pre & rest & -> & Hp & ->)%IH. exists (Received b more :: pre), rest.
    split_and!; [done|by constructor|]. unfold recv_data. simpl. by rewrite <- (assoc_L (++)).
  - intros [= <-]. exists [], io. split_and!; [done|constructor|]. by rewrite app_nil_r.
  - intros (pre & rest & -> & Hp & ->)%IH. exists (RecvAgain true :: pre), rest.
    split_and!; [done|by constructor|done].
Qed.

Lemma send_loop_prefix io req ok sent :
  send_loop io req = (ok, sent) -> sent `prefix_of` req /\ (ok = true -> sent = req).
Proof.
  revert req ok sent. induction io as [|e io IH]; intros [|c req] ok sent; cbn [send_loop];
    try (intros [= <- <-]; split; [apply prefix_nil|done]).
  destruct e as [n|[]|]; [|by apply IH|intros [= <- <-]; split; [apply prefix_nil|done]..].
  set (k := Nat.min _ _). set (r := c :: req).
  destruct (send_loop io (drop k r)) as [ok' sent'] eqn:E. intros [= <- <-].
  destruct (IH _ _ _ E) as [Hp Hok]. split.
  - change (take k r ++ sent' `prefix_of` r). rewrite <- (take_drop k r) at 2. by apply prefix_app.
  - intros ->. rewrite (Hok eq_refl). exact (take_drop k r).
Qed.

(** Enough rounds of progress send everything. *)
Lemma send_loop_all io req :
  Forall patient_send io -> (length req <= length (filter (fun e => progress e = true) io))%nat ->
  send_loop io req = (true, req).
Proof.
  intros H. revert req. induction H as [|e io He _ IH]; intros req Hl.
  { destruct req; [done|simpl in Hl; lia]. }
  destruct req as [|c req]; [done|]. cbn [send_loop]. rewrite filter_cons in Hl.
  destruct e as [n|[]|]; try done; cbn [progress] in Hl.
  - rewrite decide_True in Hl by done. simpl length in Hl. set (k := Nat.min (S n) (length (c :: req))).
    rewrite IH; [by rewrite take_drop|]. rewrite length_drop. unfold k. simpl length. lia.
  - rewrite decide_False in Hl by done. by rewrite IH.
Qed.

Lemma converse_inv env req :
  snd (converse env req) = None \/ exists pre rest,
    converse env req = (req, Some (recv_data pre)) /\ se_recv env = pre ++ RecvEnd :: rest /\
    Forall patient_recv pre.
Proof.
  unfold converse. destruct (se_writable env); cbn [negb]; [|by left].
  destruct (se_so_error env =? 0); cbn [negb]; [|by left].
  destruct (send_loop (se_send env) req) as [ok sent] eqn:E. destruct ok; cbn [negb]; [|by left].
  destruct (send_loop_prefix _ _ _ _ E) as [_ Hs]. rewrite (Hs eq_refl).
  destruct (recv_loop (se_recv env) []) as [out|] eqn:Er; [right|by left].
  apply recv_loop_inv in Er as (pre & rest & Er & Hp & ->). by exists pre, rest.
Qed.

(** ** Properties *)


(** Nothing is reported that did not happen.  A response other than the failure
    value means that the whole request went out, the server closed the stream in
    time, and the response is read off exactly the bytes received. *)
Theorem fetch_reports_complete_exchange (inet_pton : bytes -> bool) env m url headers body resp :
  fetch inet_pton env m url headers body = resp -> resp <> no_response ->
  exists u pre rest, parse_url url = Some u /\
    fst (exchange inet_pton env (u_host u) (u_port u)
           (request_text m (u_path u) (u_hostport u) headers body)) =
      request_text m (u_path u) (u_hostport u) headers body /\
    se_recv env = pre ++ RecvEnd :: rest /\ Forall patient_recv pre /\
    resp = parse_response (recv_data pre).
Proof.
  unfold fetch, http_fetch. destruct (parse_url url) as [u|]; [|by intros <-].
  set (req := request_text _ _ _ _ _). unfold exchange.
  destruct (se_socket env); cbn [negb snd fst]; [|by intros <-].
  destruct (inet_pton (u_host u)) eqn:Eh; cbn [negb snd fst]; [|by intros <-].
  destruct (converse_inv env req) as [E|(pre & rest & E & Hr & Hp)];
    destruct (se_connect env); try (rewrite ?E; by intros <-);
    rewrite E; intros <- _; exists u, pre, rest; 
    (split; [done|]); rewrite Eh; cbn [negb]; fold req; by rewrite E.
Qed.

(** ** Witnesses *)
Module SocketSample.
Definition url : bytes := lit "http://10.9.0.1:8080/healthz".
Definition answer : Response := mkResponse 200 (lit "text/plain") (lit "ok" ++ [lf]) [].
(** Every byte on its own, with pauses. *)
Definition bytewise (s : bytes) : list RecvIo := mjoin ((fun b => [RecvAgain true; Received b []]) <$> s).
Definition sample_env : SockEnv :=
  mkSockEnv true ConnInProgress true 0 (replicate 200 (Sent 0)) (bytewise (response_text false answer) ++ [RecvEnd]).
End SocketSample.


Lemma fetch_reports_complete_exchange_witness :
  exists u pre rest, parse_url SocketSample.url = Some u /\
    fst (exchange (fun _ => true) SocketSample.sample_env (u_host u) (u_port u)
           (request_text (lit "GET") (u_path u) (u_hostport u) [] [])) =
      request_text (lit "GET") (u_path u) (u_hostport u) [] [] /\
    se_recv SocketSample.sample_env = pre ++ RecvEnd :: rest /\ Forall patient_recv pre /\
    fetch (fun _ => true) SocketSample.sample_env (lit "GET") SocketSample.url [] [] =
    parse_response (recv_data pre).
Proof.
  apply (fetch_reports_complete_exchange (fun _ => true) SocketSample.sample_env (lit "GET") SocketSample.url [] []).
  - reflexivity.
  - intros E. apply (f_equal hr_code) in E. vm_compute in E. discriminate E.
Defined.
