(* ===== verification/HttpSafety.v ===== *)
(** * HttpSafety: what holds of the server in every execution

    Events of the server and their runs; per connection, the bytes that went out
    are a prefix of the responses in the order they were given, requests and
    responses alternate, and the input buffer is bounded.  [try_parse] needs no
    more rounds than there is input. *)

From Stdlib Require Import ZArith Lia String.
From stdpp Require Import base tactics list numbers gmap sorting.
From S2P Require Import Prelude Bytes Disk Text Http.

(** ** What the log says of one connection *)

Definition gen_of (e : HEvent) : Z :=
  match e with HRequest g _ | HResponse g _ | HWrite g _ | HClose g => g end.

Definition mine (gen : Z) (l : list HEvent) : list HEvent := filter (fun e => gen_of e = gen) l.

Definition written (l : list HEvent) : bytes := l ≫= (fun e => match e with HWrite _ d => d | _ => [] end).
Definition replies (l : list HEvent) : bytes := l ≫= (fun e => match e with HResponse _ t => t | _ => [] end).

Definition is_request (e : HEvent) : bool := match e with HRequest _ _ => true | _ => false end.
Definition is_response (e : HEvent) : bool := match e with HResponse _ _ => true | _ => false end.
Definition requests (l : list HEvent) : nat := length (filter (fun e => is_request e = true) l).
Definition answers (l : list HEvent) : nat := length (filter (fun e => is_response e = true) l).

Lemma mine_app g l l' : mine g (l ++ l') = mine g l ++ mine g l'.
Proof. apply filter_app. Qed.
Lemma written_app l l' : written (l ++ l') = written l ++ written l'.
Proof. apply bind_app. Qed.
Lemma replies_app l l' : replies (l ++ l') = replies l ++ replies l'.
Proof. apply bind_app. Qed.
Lemma requests_app l l' : requests (l ++ l') = (requests l + requests l')%nat.
Proof. unfold requests. by rewrite filter_app, length_app. Qed.
Lemma answers_app l l' : answers (l ++ l') = (answers l + answers l')%nat.
Proof. unfold answers. by rewrite filter_app, length_app. Qed.

Create Rewrite HintDb http_log.
Hint Rewrite mine_app written_app replies_app requests_app answers_app : http_log.

Section safety.
Context {H A : Type} (handle : H -> Z -> bool -> Request -> A -> option Response * A).
Implicit Types s : Server H A.

(** An open connection: what went out and what is buffered are the responses given;
    one request is unanswered exactly while a handler is awaited; the input is
    bounded.  A closed one: the same, with the buffered bytes lost. *)
Definition conn_ok (o : option Conn) (l : list HEvent) : Prop :=
  match o with
  | Some c =>
      written l ++ c_out c = replies l /\
      requests l = (answers l + (if awaiting_handler c then 1 else 0))%nat /\
      Z.of_nat (length (c_in c)) <= kMaxRequestBytes
  | None => written l `prefix_of` replies l /\ (answers l <= requests l <= answers l + 1)%nat
  end.

Definition good (gen : Z) s : Prop := conn_ok (s_conns s !! gen) (mine gen (s_log s)).

(** Generations not given out yet are unused. *)
Definition server_ok s : Prop :=
  (forall gen, good gen s) /\
  (forall gen, s_next_gen s <= gen -> s_conns s !! gen = None /\ mine gen (s_log s) = []).

(** [s'] differs from [s] in connection [gen] only. *)
Definition local (gen : Z) s s' : Prop :=
  s_next_gen s' = s_next_gen s /\
  forall g, g <> gen -> s_conns s' !! g = s_conns s !! g /\ mine g (s_log s') = mine g (s_log s).

Lemma local_refl gen s : local gen s s.
Proof. done. Qed.

Lemma local_trans gen s1 s2 s3 : local gen s1 s2 -> local gen s2 s3 -> local gen s1 s3.
Proof.
  intros [E1 H1] [E2 H2]. split; [congruence|]. intros g Hg.
  destruct (H1 g Hg), (H2 g Hg). split; congruence.
Qed.

Lemma local_put gen c s : local gen s (put_conn gen c s).
Proof. split; [done|]. intros g Hg. simpl. by rewrite lookup_insert_ne. Qed.

Lemma local_log e s : local (gen_of e) s (log e s).
Proof.
  split; [done|]. intros g Hg. simpl. rewrite mine_app. unfold mine at 2.
  rewrite filter_cons_False by done. by rewrite filter_nil, app_nil_r.
Qed.

Lemma local_app gen x s : local gen s (set_app x s).
Proof. done. Qed.

Lemma local_wio gen x s : local gen s (set_wio x s).
Proof. done. Qed.

Lemma local_close gen s : local gen s (close_conn gen s).
Proof.
  unfold close_conn. destruct (s_conns s !! gen); [|done].
  eapply local_trans; [|apply (local_log (HClose gen))].
  split; [done|]. intros g Hg. simpl. by rewrite lookup_delete_ne.
Qed.

Lemma local_ok gen s s' :
  server_ok s -> local gen s s' -> gen < s_next_gen s -> good gen s' -> server_ok s'.
Proof.
  intros [Hg Hf] [En Hl] Hlt Hgood. split.
  - intros g. destruct (decide (g = gen)) as [->|Hne]; [done|]. unfold good.
    destruct (Hl g Hne) as [-> ->]. apply Hg.
  - intros g Hle. rewrite En in Hle. destruct (Hl g) as [-> ->]; [lia|]. by apply Hf.
Qed.

(** ** The operations on one connection *)

Lemma mine_snoc gen l e : gen_of e = gen -> mine gen (l ++ [e]) = mine gen l ++ [e].
Proof. intros He. rewrite mine_app. unfold mine at 2. by rewrite filter_cons_True. Qed.

Lemma written_snoc l e : written (l ++ [e]) = written l ++ match e with HWrite _ d => d | _ => [] end.
Proof. rewrite written_app. unfold written at 2. simpl. by rewrite app_nil_r. Qed.

Lemma replies_snoc l e : replies (l ++ [e]) = replies l ++ match e with HResponse _ d => d | _ => [] end.
Proof. rewrite replies_app. unfold replies at 2. simpl. by rewrite app_nil_r. Qed.

Lemma requests_snoc l e : requests (l ++ [e]) = (requests l + if is_request e then 1 else 0)%nat.
Proof. rewrite requests_app. by destruct e. Qed.

Lemma answers_snoc l e : answers (l ++ [e]) = (answers l + if is_response e then 1 else 0)%nat.
Proof. rewrite answers_app. by destruct e. Qed.

Lemma good_close gen s : good gen s -> good gen (close_conn gen s).
Proof.
  unfold close_conn, good. destruct (s_conns s !! gen) as [c|] eqn:E; [|by rewrite E].
  intros (Hw & Hr & _). simpl. rewrite lookup_delete_eq, mine_snoc by done. cbn [conn_ok].
  rewrite written_snoc, replies_snoc, requests_snoc, answers_snoc, !app_nil_r, <- Hw.
  split; [by eexists|]. simpl. destruct (awaiting_handler c); lia.
Qed.

Lemma write_all_split io out :
  let '(w, kept, d, _) := write_all io out in out = w ++ kept /\ (d = DAll -> kept = []).
Proof.
  revert out. induction io as [|[n| |] io IH]; intros [|x out]; cbn [write_all]; try done.
  - by rewrite app_nil_r.
  - specialize (IH (drop (S n `min` length (x :: out)) (x :: out))).
    destruct (write_all io _) as [[[w kept] d] io']. destruct IH as [E Hd]. split; [|done].
    by rewrite <- app_assoc, <- E, take_drop.
Qed.

Lemma good_flush gen s : good gen s -> good gen (flush_conn gen s).
Proof.
  unfold flush_conn. destruct (s_conns s !! gen) as [c|] eqn:E; [|done].
  pose proof (write_all_split (s_io s) (c_out c)) as Hs.
  destruct (write_all (s_io s) (c_out c)) as [[[w kept] d] io]. destruct Hs as [Hout Hd].
  intros Hg. set (s1 := if bool_decide (w = []) then _ else _).
  assert (Hput : forall p, good gen (put_conn gen (set_pollout p (set_outbuf kept c)) s1)).
  { intros p. unfold good in *. rewrite E in Hg. destruct Hg as (Hw & Hr & Hi).
    simpl. rewrite lookup_insert_eq. cbn [conn_ok]. unfold s1. case_bool_decide as Hb; simpl.
    - subst w. by rewrite Hout in Hw.
    - rewrite mine_snoc by done.
      rewrite written_snoc, replies_snoc, requests_snoc, answers_snoc, app_nil_r, <- Hw, Hout.
      simpl. rewrite <- app_assoc. split_and!; [done|lia|done]. }
  destruct d; [|apply Hput|].
  - destruct (close_after_write _); [apply good_close|]; apply Hput.
  - apply good_close. specialize (Hput (c_pollout c)).
    by replace (set_pollout (c_pollout c) (set_outbuf kept c)) with (set_outbuf kept c) in Hput by by destruct c.
Qed.

Lemma local_flush gen s : local gen s (flush_conn gen s).
Proof.
  unfold flush_conn. destruct (s_conns s !! gen) as [c|]; [|done].
  destruct (write_all (s_io s) (c_out c)) as [[[w kept] d] io].
  set (s1 := if bool_decide (w = []) then _ else _).
  assert (H1 : local gen s s1).
  { unfold s1. case_bool_decide; [done|].
    eapply local_trans; [apply (local_wio gen io)|apply (local_log (HWrite gen w))]. }
  destruct d; [case_match|..]; eauto using local_trans, local_put, local_close.
Qed.

(** The connection waits for its handler. *)
Definition waits (gen : Z) s : Prop :=
  exists c, s_conns s !! gen = Some c /\ awaiting_handler c = true.

Definition idle (gen : Z) s : Prop :=
  forall c, s_conns s !! gen = Some c -> awaiting_handler c = false.

Lemma good_queue gen ka r s : good gen s -> waits gen s -> good gen (queue_response gen ka r s).
Proof.
  intros Hg (c & Hc & Ha). unfold queue_response. rewrite Hc. apply good_flush.
  unfold good in *. rewrite Hc in Hg. destruct Hg as (Hw & Hr & Hi). simpl.
  rewrite lookup_insert_eq, mine_snoc by done. cbn [conn_ok].
  rewrite written_snoc, replies_snoc, requests_snoc, answers_snoc.
  rewrite Ha in Hr. simpl. rewrite app_nil_r, <- Hw. split_and!; [by rewrite app_assoc|lia|done].
Qed.

Lemma local_queue gen ka r s : local gen s (queue_response gen ka r s).
Proof.
  unfold queue_response. destruct (s_conns s !! gen) as [c|]; [|done].
  eapply local_trans; [apply local_put|]. eapply local_trans; [|apply local_flush].
  apply (local_log (HResponse gen (response_text ka r))).
Qed.

(** What holds before and after a round on connection [gen]. *)
Definition keeps (gen : Z) (f : Server H A -> Server H A) : Prop :=
  forall s, good gen s -> idle gen s -> good gen (f s) /\ local gen s (f s).

Lemma keeps_send gen parse ka r s :
  keeps gen (parse gen) -> good gen s -> waits gen s ->
  good gen (send_response_with parse gen ka r s) /\ local gen s (send_response_with parse gen ka r s).
Proof.
  intros Hp Hg Hw. pose proof (good_queue gen ka r s Hg Hw) as Hq.
  pose proof (local_queue gen ka r s) as Hl. unfold send_response_with.
  destruct (s_conns (queue_response gen ka r s) !! gen) as [c|] eqn:E; [|done].
  destruct (awaiting_handler c) eqn:Ea; simpl; [done|].
  case_bool_decide; simpl; [done|].
  destruct (Hp _ Hq) as [H1 H2]; [intros c' Hc'; congruence|]. split; [done|].
  by eapply local_trans.
Qed.

Lemma parse_rest inb req rest ka :
  parse_request inb = Parsed req rest ka -> (length rest + 4 <= length inb)%nat.
Proof.
  unfold parse_request. destruct (find_sub (crlf ++ crlf) inb) as [i|]; [|done].
  repeat (case_match; try done). intros [= <- <- <-]. rewrite length_drop.
  match goal with Hl : (_ <? _)%nat = false |- _ => apply Nat.ltb_ge in Hl end. lia.
Qed.

Lemma keeps_try_parse fuel gen : keeps gen (try_parse_fuel handle fuel gen).
Proof.
  induction fuel as [|fuel IH]; intros s Hg Hi; simpl; [done|].
  destruct (s_conns s !! gen) as [c|] eqn:E; [|done].
  destruct (parse_request (c_in c)) as [| |req rest ka] eqn:Ep; [done|by split; [apply good_close|apply local_close]|].
  set (s1 := log (HRequest gen req) _).
  assert (Hl1 : local gen s s1) by (eapply local_trans; [apply local_put|apply (local_log (HRequest gen req))]).
  assert (Hc1 : s_conns s1 !! gen = Some (set_awaiting true (set_in rest c))) by apply lookup_insert_eq.
  assert (Hg1 : good gen s1).
  { unfold good in *. rewrite Hc1. rewrite E in Hg. destruct Hg as (Hw & Hr & Hb).
    pose proof (Hi c E) as Ha. rewrite Ha in Hr. apply parse_rest in Ep. unfold s1. cbn [conn_ok s_log log]. rewrite mine_snoc by done.
    rewrite written_snoc, replies_snoc, requests_snoc, answers_snoc. simpl.
    rewrite !app_nil_r. split_and!; [done|lia|lia]. }
  assert (Hw : forall a, waits gen (set_app a s1)) by (intros a; eexists; split; [apply Hc1|done]).
  destruct (find_route _ _) as [h|].
  - destruct (handle h gen ka req (s_app s)) as [[r|] app]; [|done].
    destruct (keeps_send gen _ ka r (set_app app s1) IH Hg1 (Hw app)) as [? Hl].
    split; [done|]. eapply local_trans; [exact Hl1|exact Hl].
  - destruct (keeps_send gen _ ka not_found s1 IH Hg1 (Hw (s_app s1))) as [? Hl].
    split; [done|]. eapply local_trans; [exact Hl1|exact Hl].
Qed.

(** ** Rounds of the parser

    With as much fuel as input, more makes no difference: [try_parse] is the loop of
    the code, which ends because every round takes a request off the input. *)

Lemma flush_input gen s c' :
  s_conns (flush_conn gen s) !! gen = Some c' ->
  exists c, s_conns s !! gen = Some c /\ c_in c' = c_in c /\ awaiting_handler c' = awaiting_handler c.
Proof.
  unfold flush_conn. destruct (s_conns s !! gen) as [c|] eqn:E; [|by rewrite E].
  destruct (write_all (s_io s) (c_out c)) as [[[w kept] d] io].
  set (s1 := if bool_decide (w = []) then _ else _).
  assert (Hcl : forall x, s_conns (close_conn gen (put_conn gen x s1)) !! gen = None).
  { intros x. unfold close_conn. simpl. rewrite lookup_insert_eq. simpl. by rewrite lookup_delete_eq. }
  destruct d; [case_match|..]; rewrite ?Hcl; try done; simpl; rewrite lookup_insert_eq;
    intros [= <-]; by exists c.
Qed.

Lemma queue_input gen ka r s c' :
  s_conns (queue_response gen ka r s) !! gen = Some c' ->
  exists c, s_conns s !! gen = Some c /\ c_in c' = c_in c.
Proof.
  unfold queue_response. destruct (s_conns s !! gen) as [c|] eqn:E; [|by rewrite E].
  intros (c1 & Hc1 & Hi & _)%flush_input. simpl in Hc1. rewrite lookup_insert_eq in Hc1.
  simplify_eq. by exists c.
Qed.

Lemma send_fuel parse parse' gen ka r s n :
  (forall s', (buffered gen s' < n)%nat -> parse gen s' = parse' gen s') ->
  (buffered gen s < n)%nat ->
  send_response_with parse gen ka r s = send_response_with parse' gen ka r s.
Proof.
  intros Hp Hn. unfold send_response_with.
  destruct (s_conns (queue_response gen ka r s) !! gen) as [c|] eqn:E; [|done].
  destruct (_ && _); [|done]. apply Hp. unfold buffered in *. rewrite E.
  destruct (queue_input _ _ _ _ _ E) as (c0 & Hc0 & ->). by rewrite Hc0 in Hn.
Qed.

Lemma try_parse_more fuel fuel' gen s :
  (buffered gen s < fuel)%nat -> (fuel <= fuel')%nat ->
  try_parse_fuel handle fuel' gen s = try_parse_fuel handle fuel gen s.
Proof.
  revert fuel' s. induction fuel as [|fuel IH]; intros fuel' s Hb Hf; [lia|].
  destruct fuel' as [|fuel']; [lia|]. cbn [try_parse_fuel]. unfold buffered in Hb.
  destruct (s_conns s !! gen) as [c|]; [|done].
  destruct (parse_request (c_in c)) as [| |req rest ka] eqn:Ep; [done..|].
  apply parse_rest in Ep. set (s1 := log (HRequest gen req) _).
  assert (Hb1 : forall a, (buffered gen (set_app a s1) < fuel)%nat).
  { intros a. unfold buffered, s1. simpl. rewrite lookup_insert_eq. simpl. lia. }
  destruct (find_route _ _) as [h|].
  - destruct (handle _ _ _ _ _) as [[r|] app]; [|done].
    apply (send_fuel _ _ _ _ _ _ fuel); [|apply Hb1]. intros s' Hs'. apply IH; lia.
  - apply (send_fuel _ _ _ _ _ _ fuel); [|apply (Hb1 (s_app s1))]. intros s' Hs'. apply IH; lia.
Qed.

(** ** Events and runs *)

Inductive SEvent :=
  | SAccept (accepted : list bool)
  | SConn (gen : Z) (ev : ConnEvents)
  | SRespond (gen : Z) (keep_alive : bool) (r : Response)
  | SWrites (io : list WriteIo).

Definition server_step (e : SEvent) s : Server H A :=
  match e with
  | SAccept l => accept_ready l s
  | SConn gen ev => conn_ready handle gen ev s
  | SRespond gen ka r => respond_later handle gen ka r s
  | SWrites io => set_wio io s
  end.

Definition server_run (es : list SEvent) s : Server H A := foldl (fun s e => server_step e s) s es.

(** The contract of a handler that answers later: only for a request it was given. *)
Fixpoint obeys (es : list SEvent) s : Prop :=
  match es with
  | [] => True
  | e :: es' =>
      match e with
      | SRespond gen _ _ => s_conns s !! gen = None \/ waits gen s
      | _ => True
      end /\ obeys es' (server_step e s)
  end.

Definition accepts (e : SEvent) : nat := match e with SAccept l => length l | _ => 0%nat end.

Lemma keeps_parse gen : keeps gen (try_parse handle gen).
Proof. intros s Hg Hi. by apply keeps_try_parse. Qed.

Lemma good_set_in gen c inb s :
  good gen s -> s_conns s !! gen = Some c -> Z.of_nat (length inb) <= kMaxRequestBytes ->
  good gen (put_conn gen (set_in inb c) s).
Proof.
  unfold good. intros Hg E Hb. rewrite E in Hg. destruct Hg as (? & ? & _). simpl.
  by rewrite lookup_insert_eq.
Qed.

Lemma close_put gen c c' s :
  s_conns s !! gen = Some c -> close_conn gen (put_conn gen c' s) = close_conn gen s.
Proof.
  intros E. unfold close_conn. rewrite E. simpl. rewrite lookup_insert_eq.
  unfold put_conn, set_conns, log. simpl. by rewrite delete_insert_eq.
Qed.

Lemma read_all_keeps gen eof chunks : forall s,
  good gen s -> good gen (snd (read_all gen chunks eof s)) /\ local gen s (snd (read_all gen chunks eof s)).
Proof.
  induction chunks as [|d chunks IH]; intros s Hg; simpl.
  - destruct eof; [|done]. simpl. split; [by apply good_close|apply local_close].
  - destruct (s_conns s !! gen) as [c|] eqn:E; [|done].
    destruct (Z.ltb_spec kMaxRequestBytes (Z.of_nat (length (c_in c ++ d)))) as [Hlt|Hge].
    + simpl. erewrite close_put by done. split; [by apply good_close|apply local_close].
    + destruct (IH (put_conn gen (set_in (c_in c ++ d) c) s)) as [H1 H2]; [by apply good_set_in|].
      split; [done|]. eapply local_trans; [apply local_put|exact H2].
Qed.

Lemma conn_ready_keeps gen ev s :
  good gen s -> good gen (conn_ready handle gen ev s) /\ local gen s (conn_ready handle gen ev s).
Proof.
  intros Hg. unfold conn_ready. destruct (s_conns s !! gen) as [c|] eqn:E; [|done].
  destruct (ev_error ev); [split; [by apply good_close|apply local_close]|].
  set (step := match ev_in ev with None => _ | Some _ => _ end).
  assert (Hs : good gen (snd step) /\ local gen s (snd step)).
  { unfold step. destruct (ev_in ev) as [[chunks eof]|]; [|done].
    pose proof (read_all_keeps gen eof chunks s Hg) as [Hg1 Hl1].
    destruct (read_all gen chunks eof s) as [go s1]. simpl in *.
    destruct go; [|done]. simpl. destruct (s_conns s1 !! gen) as [c1|] eqn:E1; [|done].
    destruct (awaiting_handler c1) eqn:Ea; [done|].
    destruct (keeps_parse gen s1 Hg1) as [? Hl2]; [intros c2 Hc2; congruence|].
    split; [done|]. by eapply local_trans. }
  destruct step as [go s1]. simpl in Hs. destruct Hs as [Hg1 Hl1].
  destruct (go && ev_out ev); [|done]. split; [by apply good_flush|].
  eapply local_trans; [exact Hl1|apply local_flush].
Qed.

Lemma accept_ok b s :
  1 <= s_next_gen s < 2 ^ 64 - 1 -> server_ok s ->
  server_ok (accept_one s b) /\ s_next_gen (accept_one s b) = s_next_gen s + 1.
Proof.
  intros Hn [Hg Hf]. destruct (Hf (s_next_gen s) ltac:(lia)) as [Hc Hm].
  assert (Hw : u64 (s_next_gen s + 1) = s_next_gen s + 1) by (apply wrap_id; unfold fits; lia).
  unfold accept_one. rewrite Hw. destruct b; simpl; (split; [|done]).
  - split.
    + intros g. unfold good. simpl. destruct (decide (g = s_next_gen s)) as [->|Hne].
      * rewrite lookup_insert_eq, Hm. by vm_compute.
      * rewrite lookup_insert_ne by done. apply Hg.
    + intros g Hle. simpl in *. rewrite lookup_insert_ne by lia. apply Hf. lia.
  - split; [apply Hg|]. intros g Hle. simpl in *. apply Hf. lia.
Qed.

Lemma accepts_ok l : forall s,
  1 <= s_next_gen s -> s_next_gen s + Z.of_nat (length l) < 2 ^ 64 -> server_ok s ->
  server_ok (accept_ready l s) /\ s_next_gen (accept_ready l s) = s_next_gen s + Z.of_nat (length l).
Proof.
  induction l as [|b l IH]; intros s H1 H2 Hs; simpl; [split; [done|lia]|]. simpl in H2.
  destruct (accept_ok b s) as [Hs' Hn]; [lia|done|].
  destruct (IH (accept_one s b)) as [? Hn']; [lia..|done|]. split; [done|].
  rewrite Hn', Hn. lia.
Qed.

Lemma step_ok e s :
  1 <= s_next_gen s -> s_next_gen s + Z.of_nat (accepts e) < 2 ^ 64 -> obeys [e] s -> server_ok s ->
  server_ok (server_step e s) /\ s_next_gen (server_step e s) = s_next_gen s + Z.of_nat (accepts e).
Proof.
  intros H1 H2 [Ho _] Hs. destruct e as [l|gen ev|gen ka r|io]; simpl in *.
  - by apply accepts_ok.
  - destruct (decide (s_next_gen s <= gen)) as [Hle|Hgt].
    { destruct (proj2 Hs gen Hle) as [Hc _]. unfold conn_ready. rewrite Hc. split; [done|lia]. }
    destruct (conn_ready_keeps gen ev s (proj1 Hs gen)) as [Hg Hl].
    split; [by apply (local_ok gen s); [done|done|lia|]|]. destruct Hl as [-> _]. lia.
  - unfold respond_later. destruct Ho as [Hc|Hw]; [rewrite Hc; split; [done|lia]|].
    pose proof Hw as (c & Hc & _). rewrite Hc.
    destruct (keeps_send gen (try_parse handle) ka r s (keeps_parse gen) (proj1 Hs gen) Hw) as [Hg Hl].
    unfold send_response. split; [|destruct Hl as [-> _]; lia].
    apply (local_ok gen s); [done|done| |done].
    destruct (Z.lt_ge_cases gen (s_next_gen s)) as [|Hge]; [done|].
    destruct (proj2 Hs gen Hge) as [Hn _]. congruence.
  - split; [done|lia].
Qed.

Lemma run_ok es : forall s,
  1 <= s_next_gen s -> s_next_gen s + Z.of_nat (sum_list (accepts <$> es)) < 2 ^ 64 ->
  obeys es s -> server_ok s -> server_ok (server_run es s).
Proof.
  induction es as [|e es IH]; intros s H1 H2 Ho Hs; [done|]. destruct Ho as [Ho Ho'].
  change (sum_list (accepts <$> e :: es)) with (accepts e + sum_list (accepts <$> es))%nat in H2.
  destruct (step_ok e s) as [Hs' Hn]; [done|lia|done|done|].
  apply IH; [lia|lia|done|done].
Qed.
End safety.

(** A server with its routes, before the first connection. *)
Definition fresh_server {H A} (routes : list (bytes * H)) (app : A) : Server H A :=
  mkServer ∅ 1 routes app [] [].

Lemma fresh_ok {H A} (routes : list (bytes * H)) (app : A) : server_ok (fresh_server routes app).
Proof.
  split; [|done]. intros gen. unfold good. simpl. rewrite lookup_empty. simpl.
  split; [done|]. unfold requests, answers. simpl. lia.
Qed.


(** The parser loop ends after as many rounds as there are buffered bytes: more
    rounds would not change anything. *)
Theorem try_parse_terminates {H A} (handle : H -> Z -> bool -> Request -> A -> option Response * A)
  gen (s : Server H A) fuel :
  (buffered gen s < fuel)%nat -> try_parse_fuel handle fuel gen s = try_parse handle gen s.
Proof. intros Hf. unfold try_parse. apply try_parse_more; lia. Qed.

(** ** Routing *)

Lemma find_route_Some {H} key (routes : list (bytes * H)) h :
  StronglySorted longer routes -> find_route key routes = Some h ->
  exists p, (p, h) ∈ routes /\ starts_with p key = true /\
    forall p' h', (p', h') ∈ routes -> starts_with p' key = true -> (length p' <= length p)%nat.
Proof.
  induction 1 as [|[p0 h0] routes Hs IH Hall]; simpl; [done|].
  destruct (starts_with p0 key) eqn:E.
  - intros [= <-]. exists p0. split_and!; [set_solver|done|]. intros p' h' [[= -> ->]|Hin]%elem_of_cons _; [done|].
    rewrite Forall_forall in Hall. by apply (Hall (p', h')).
  - intros (p & Hin & Hp & Hmax)%IH. exists p. split_and!; [set_solver|done|].
    intros p' h' [[= -> ->]|Hin']%elem_of_cons Hp'; [congruence|eauto].
Qed.

#[global] Instance longer_total {H} : Total (@longer H).
Proof. intros a b. unfold longer. lia. Qed.
#[global] Instance longer_trans {H} : Transitive (@longer H).
Proof. intros a b c. unfold longer. lia. Qed.

Lemma find_route_None {H} key (routes : list (bytes * H)) :
  find_route key routes = None <-> forall p h, (p, h) ∈ routes -> starts_with p key = false.
Proof.
  induction routes as [|[p0 h0] routes IH]; simpl; [set_solver|].
  destruct (starts_with p0 key) eqn:E.
  - split; [done|]. intros Hn. specialize (Hn p0 h0). rewrite E in Hn. by discriminate Hn; set_solver.
  - rewrite IH. set_solver.
Qed.

(** Routing picks the longest registered prefix of the request, whatever the order
    of registration, and fails only if no registered prefix matches. *)
Theorem route_longest_prefix {H A} (s : Server H A) method prefix (h : H) key :
  let s' := route method prefix h s in
  (forall x, find_route key (s_routes s') = Some x ->
     exists p, (p, x) ∈ (method ++ lit " " ++ prefix, h) :: s_routes s /\ starts_with p key = true /\
       forall p' h', (p', h') ∈ (method ++ lit " " ++ prefix, h) :: s_routes s ->
         starts_with p' key = true -> (length p' <= length p)%nat) /\
  (find_route key (s_routes s') = None <->
     forall p h', (p, h') ∈ (method ++ lit " " ++ prefix, h) :: s_routes s -> starts_with p key = false).
Proof.
  cbv zeta. simpl.
  assert (Hp : merge_sort longer (s_routes s ++ [(method ++ lit " " ++ prefix, h)]) ≡ₚ
               (method ++ lit " " ++ prefix, h) :: s_routes s)
    by (rewrite merge_sort_Permutation; apply Permutation_app_comm).
  split.
  - intros x Hx. apply find_route_Some in Hx.
    + setoid_rewrite Hp in Hx. done.
    + apply StronglySorted_merge_sort; apply _.
  - rewrite find_route_None. by setoid_rewrite Hp.
Qed.
