(* ===== verification/Metrics.v ===== *)
(** * Metrics: counters, gauges and the latency histogram

    src/src/metrics.cc and src/src/metrics.h.  A latency is a [double] in the
    source; the model takes the type, its comparison with a bucket bound, its sum
    and its text as parameters, and the bounds in milliseconds. *)

From Stdlib Require Import ZArith Lia String.
From stdpp Require Import base tactics list numbers gmap.
From S2P Require Import Prelude Bytes Disk Text.

Definition kBuckets : nat := 17.

(** [bucket_bound(i)] in milliseconds. *)
Definition bucket_bound (i : nat) : Z := Z.shiftl 1 (Z.of_nat i).

(** The helper [append]: [vsnprintf] into 256 bytes. *)
Definition append_text (out text : bytes) : bytes := out ++ take 255 text.

(** [%.3f] of a bound, [%.6f] of a whole number. *)
Definition seconds_text (ms : Z) : bytes := to_string (ms / 1000) ++ lit "." ++ dec_digits 3 (ms mod 1000).
Definition whole_text (v : Z) : bytes := to_string v ++ lit "." ++ dec_digits 6 0.

Definition render_counter (name labels : bytes) (v : Z) (out : bytes) : bytes :=
  append_text out (name ++ labels ++ lit " " ++ to_string v ++ [lf]).

(** The gauges of the node are counts. *)
Definition render_gauge (name labels : bytes) (v : Z) (out : bytes) : bytes :=
  append_text out (name ++ labels ++ lit " " ++ whole_text v ++ [lf]).

Section histogram.
Context {D : Type} (le_ms : D -> Z -> bool) (add : D -> D -> D) (zero : D) (text : D -> bytes).

Record Histogram := mkHist { h_counts : list Z; h_sum : D; h_total : Z }.

Definition new_histogram : Histogram := mkHist (replicate (S kBuckets) 0) zero 0.

(** The first bucket whose bound is not below [d], the last one if there is none. *)
Fixpoint bucket_from (n i : nat) (d : D) : nat :=
  match n with
  | O => i
  | S n' => if le_ms d (bucket_bound i) then i else bucket_from n' (S i) d
  end.

Definition bucket (d : D) : nat := bucket_from kBuckets 0 d.

Definition observe (d : D) (h : Histogram) : Histogram :=
  mkHist (alter (fun c => u64 (c + 1)) (bucket d) (h_counts h)) (add (h_sum h) d) (u64 (h_total h + 1)).

(** [cum] after bucket [i]. *)
Definition cumulative (h : Histogram) (i : nat) : Z := foldl (fun c x => u64 (c + x)) 0 (take (S i) (h_counts h)).

Definition bucket_line (name le : bytes) (cum : Z) : bytes :=
  name ++ lit "_bucket{le=" ++ dq ++ le ++ dq ++ lit "} " ++ to_string cum ++ [lf].

Definition render (name : bytes) (h : Histogram) (out : bytes) : bytes :=
  let out := foldl (fun out i => append_text out (bucket_line name (seconds_text (bucket_bound i)) (cumulative h i)))
                   out (seq 0 kBuckets) in
  let out := append_text out (bucket_line name (lit "+Inf") (cumulative h kBuckets)) in
  let out := append_text out (name ++ lit "_sum " ++ text (h_sum h) ++ [lf]) in
  append_text out (name ++ lit "_count " ++ to_string (h_total h) ++ [lf]).

(** ** The cumulative counts are counts of observations *)

Context (le_mono : forall d b b', b <= b' -> le_ms d b = true -> le_ms d b' = true).

(** Observations at most the bound of bucket [i]; all of them for the last. *)
Definition within (i : nat) (ds : list D) : nat :=
  length (filter (fun d => (bucket d <= i)%nat) ds).

Lemma bucket_from_spec n i d :
  (i <= bucket_from n i d <= i + n)%nat /\
  forall k, (i <= k < i + n)%nat -> (bucket_from n i d <= k)%nat <-> le_ms d (bucket_bound k) = true.
Proof.
  revert i. induction n as [|n IH]; intros i; cbn [bucket_from]; [split; [lia|lia]|].
  assert (Hm : forall a b : nat, (a <= b)%nat -> bucket_bound a <= bucket_bound b).
  { intros a b Hab. unfold bucket_bound. rewrite !Z.shiftl_1_l. apply Z.pow_le_mono_r; lia. }
  destruct (le_ms d (bucket_bound i)) eqn:E.
  - split; [lia|]. intros k Hk. split; [|lia]. intros _. eapply le_mono; [|exact E]. apply Hm. lia.
  - destruct (IH (S i)) as [Hr Hk]. split; [lia|]. intros k Hk'.
    destruct (decide (k = i)) as [->|Hne].
    + rewrite E. split; [lia|done].
    + apply Hk. lia.
Qed.

Lemma bucket_le d i : (i < kBuckets)%nat -> (bucket d <= i)%nat <-> le_ms d (bucket_bound i) = true.
Proof. intros Hi. apply (bucket_from_spec kBuckets 0 d). lia. Qed.

Lemma bucket_max d : (bucket d <= kBuckets)%nat.
Proof. destruct (bucket_from_spec kBuckets 0 d) as [H _]. unfold bucket. lia. Qed.

Lemma foldl_u64 (l : list Z) : forall c, 0 <= c -> Forall (fun x => 0 <= x) l ->
  c + foldr Z.add 0 l < 2 ^ 64 -> foldl (fun c x => u64 (c + x)) c l = c + foldr Z.add 0 l.
Proof.
  induction l as [|x l IH]; intros c Hc Hl Hb; simpl in *; [lia|].
  inversion_clear Hl as [|? ? Hx Hl'].
  assert (0 <= foldr Z.add 0 l) by (clear -Hl'; induction Hl'; simpl; lia).
  rewrite wrap_id by (unfold fits; lia). rewrite IH by (done || lia). lia.
Qed.

Lemma sum_take_alter (l : list Z) k i :
  (k < length l)%nat ->
  foldr Z.add 0 (take i (alter (fun c => c + 1) k l)) =
  foldr Z.add 0 (take i l) + (if decide (k < i)%nat then 1 else 0).
Proof.
  revert k i. induction l as [|x l IH]; intros k i Hk; [simpl in Hk; lia|].
  destruct i as [|i]; [rewrite decide_False by lia; done|]. destruct k as [|k].
  - rewrite decide_True by lia. change (alter (fun c => c + 1) 0%nat (x :: l)) with (x + 1 :: l).
    simpl. lia.
  - cbn [alter list_alter take foldr]. change (list_alter (fun c => c + 1) k l) with (alter (fun c => c + 1) k l).
    rewrite IH by (simpl in Hk; lia). repeat case_decide; lia.
Qed.

(** Observing [ds] one after the other. *)
Definition observe_all (ds : list D) : Histogram := foldl (fun h d => observe d h) new_histogram ds.

Definition hist_ok (ds : list D) (h : Histogram) : Prop :=
  length (h_counts h) = S kBuckets /\ Forall (fun x => 0 <= x) (h_counts h) /\
  h_total h = Z.of_nat (length ds) /\
  forall i, foldr Z.add 0 (take (S i) (h_counts h)) = Z.of_nat (within i ds).

Lemma le_sum (l : list Z) k x :
  Forall (fun x => 0 <= x) l -> l !! k = Some x -> x <= foldr Z.add 0 (take (S k) l).
Proof.
  intros Hl. revert k. induction Hl as [|y l Hy Hl IH]; intros [|k]; simpl; [done..| |].
  - intros [= ->]. lia.
  - intros Hk. specialize (IH _ Hk). simpl in IH. lia.
Qed.

Lemma within_le i ds : (within i ds <= length ds)%nat.
Proof. apply length_filter. Qed.

Lemma observe_ok ds d h :
  Z.of_nat (S (length ds)) < 2 ^ 64 -> hist_ok ds h -> hist_ok (ds ++ [d]) (observe d h).
Proof.
  intros Hb (Hl & Hp & Ht & Hs). pose proof (bucket_max d) as Hm.
  assert (Ha : alter (fun c => u64 (c + 1)) (bucket d) (h_counts h) = alter (fun c => c + 1) (bucket d) (h_counts h)).
  { apply list_eq. intros k. destruct (decide (k = bucket d)) as [->|Hne].
    - rewrite !list_lookup_alter_eq. destruct (h_counts h !! bucket d) as [x|] eqn:E; [|done]. simpl. f_equal.
      pose proof (le_sum _ _ _ Hp E) as Hle. rewrite Hs in Hle. pose proof (within_le (bucket d) ds).
      assert (0 <= x) by exact (proj1 (Forall_lookup _ _) Hp _ _ E). apply wrap_id. unfold fits. lia.
    - by rewrite !list_lookup_alter_ne. }
  unfold observe, hist_ok. cbn [h_counts h_total]. rewrite Ha, length_alter. split_and!; [done| | |].
  - apply Forall_lookup. intros k x. destruct (decide (k = bucket d)) as [->|Hne].
    + rewrite list_lookup_alter_eq. intros (y & Hy & ->)%fmap_Some.
      assert (0 <= y) by exact (proj1 (Forall_lookup _ _) Hp _ _ Hy). lia.
    + rewrite list_lookup_alter_ne by done. apply Forall_lookup, Hp.
  - rewrite Ht, length_app, wrap_id; simpl; [lia|]. unfold fits. lia.
  - intros i. rewrite sum_take_alter by lia. rewrite Hs. unfold within. rewrite filter_app, length_app.
    rewrite filter_cons, filter_nil. repeat case_decide; simpl; lia.
Qed.

Lemma observe_all_ok ds : Z.of_nat (length ds) < 2 ^ 64 -> hist_ok ds (observe_all ds).
Proof.
  induction ds as [|d ds IH] using rev_ind; intros Hb.
  - split_and!; [done|by apply (bool_decide_unpack _)|done|]. intros i.
    change (within i []) with 0%nat. cbn [observe_all foldl new_histogram h_counts].
    rewrite take_replicate. generalize (S i `min` S kBuckets)%nat. intros n.
    induction n as [|n IH]; simpl; lia.
  - rewrite length_app in Hb. simpl in Hb. unfold observe_all. rewrite foldl_app. simpl.
    apply observe_ok; [lia|]. apply IH. lia.
Qed.

Lemma within_all ds : within kBuckets ds = length ds.
Proof.
  unfold within. induction ds as [|d ds IH]; [done|]. rewrite filter_cons_True by apply bucket_max.
  simpl. by rewrite IH.
Qed.

(** The rendered counts of a histogram. *)
Lemma cumulative_within ds i :
  Z.of_nat (length ds) < 2 ^ 64 -> cumulative (observe_all ds) i = Z.of_nat (within i ds).
Proof.
  intros Hb. destruct (observe_all_ok ds Hb) as (_ & Hp & _ & Hs).
  unfold cumulative. rewrite foldl_u64; [rewrite Hs; lia|lia|by apply Forall_take|].
  rewrite Hs. pose proof (within_le i ds). lia.
Qed.

Lemma total_observed ds : Z.of_nat (length ds) < 2 ^ 64 -> h_total (observe_all ds) = Z.of_nat (length ds).
Proof. intros Hb. apply (observe_all_ok ds Hb). Qed.

Lemma within_spec i ds : (i < kBuckets)%nat ->
  within i ds = length (filter (fun d => le_ms d (bucket_bound i) = true) ds).
Proof. intros Hi. unfold within. f_equal. apply list_filter_iff. intros d. by apply bucket_le. Qed.
End histogram.

(** Every rendered bucket counts exactly the observations at most its bound, and
    the [+Inf] bucket and [_count] both count all of them. *)
Theorem histogram_counts_observations {D} (le_ms : D -> Z -> bool) add (zero : D) ds :
  (forall d b b', b <= b' -> le_ms d b = true -> le_ms d b' = true) ->
  Z.of_nat (length ds) < 2 ^ 64 ->
  let h := observe_all le_ms add zero ds in
  (forall i, (i < kBuckets)%nat ->
     cumulative h i = Z.of_nat (length (filter (fun d => le_ms d (bucket_bound i) = true) ds))) /\
  cumulative h kBuckets = Z.of_nat (length ds) /\ h_total h = Z.of_nat (length ds).
Proof.
  intros Hm Hb. cbv zeta. split_and!.
  - intros i Hi. by rewrite cumulative_within, within_spec.
  - rewrite cumulative_within by done. f_equal. by apply within_all.
  - by apply total_observed.
Qed.

Lemma histogram_counts_observations_witness :
  cumulative (observe_all (fun d b => d <=? b) Z.add 0 [3; 1; 70000]) 2 = 2.
Proof.
  destruct (histogram_counts_observations (fun d b => d <=? b) Z.add 0 [3; 1; 70000]) as [Hc _].
  - intros d b b' Hb Hd. apply Z.leb_le. apply Z.leb_le in Hd. lia.
  - reflexivity.
  - rewrite Hc by (unfold kBuckets; lia). reflexivity.
Defined.
