(* ===== verification/Api.v ===== *)
(** * Api: the HTTP endpoints of a node, src/src/node_main.cc

    The route handlers of [main] over a [QueueNode]: what a request makes the node
    do, how its callbacks become responses, and the process state they share.  A
    callback is tagged with the connection's generation and keep-alive flag, which
    is what the [Respond] it captures holds. *)

From Stdlib Require Import ZArith Lia String.
From stdpp Require Import base tactics list numbers gmap.
From S2P Require Import Prelude Bytes Wire Records Table StoreApi Ring.
From S2P Require Import NodeState QueueNode NodeSteps Membership.
From S2P Require Import Disk Text Http Metrics.

(** ** Text *)

(** ntohl on a little-endian host. *)
Definition bswap32 (x : Z) : Z :=
  Z.lor (Z.shiftl (bswap16 (Z.land x 0xFFFF)) 16) (bswap16 (Z.shiftr x 16)).

Definition ep_str (e : Endpoint) : bytes :=
  let a := bswap32 (addr_be e) in
  to_string (Z.land (Z.shiftr a 24) 0xFF) ++ lit "." ++ to_string (Z.land (Z.shiftr a 16) 0xFF) ++ lit "." ++
  to_string (Z.land (Z.shiftr a 8) 0xFF) ++ lit "." ++ to_string (Z.land a 0xFF) ++ lit ":" ++
  to_string (bswap16 (port_be e)).

Definition state_str (s : JobState) : bytes :=
  lit (match s with
       | Ready => "ready" | Leased => "leased" | Done => "done" | DeadLetter => "dead_letter"
       | OtherState _ => "?" end).

Definition json : bytes := lit "application/json".
Definition plain_text : bytes := lit "text/plain".

(** ** Parameters *)

(** [qnum]: the parameter as a 32-bit number; [None] when [std::stoul] throws. *)
Definition qnum (r : Request) (k : string) (dflt : Z) : option Z :=
  match rq_query r !! lit k with
  | None => Some dflt
  | Some v => (fun n => u32 n) <$> stoul v
  end.

Definition qstr (r : Request) (k : string) : bytes := default [] (rq_query r !! lit k).

Definition http_code (st : Z) : Z :=
  if st =? qstatus.kCreated then 200
  else if st =? qstatus.kDuplicate then 200
  else if st =? qstatus.kInvalid then 400
  else if st =? qstatus.kUnknownJob then 404
  else if (st =? qstatus.kNotLeased) || (st =? qstatus.kNotOwner) || (st =? qstatus.kStaleEpoch) then 409
  else 503.

(** ** Routes *)

Inductive Route := RSubmit | RLease | RAck | RStatus | RNodes | RDrain | RHealth | RMetrics.

(** [http.route(...)] in the order of [main]. *)
Definition api_routes : list (string * string * Route) :=
  [("POST", "/v1/jobs", RSubmit); ("POST", "/v1/lease", RLease); ("POST", "/v1/ack", RAck);
   ("GET", "/v1/jobs/", RStatus); ("GET", "/v1/nodes", RNodes); ("POST", "/v1/drain", RDrain);
   ("GET", "/healthz", RHealth); ("GET", "/metrics", RMetrics)]%string.

Definition register_routes {A} (s : Server Route A) : Server Route A :=
  foldl (fun s '(m, p, r) => route (lit m) (lit p) r s) s api_routes.

(** ** Responses of the callbacks *)

Definition submit_response (st : Z) (id : JobId) : Response :=
  let created := st =? qstatus.kCreated in
  let dup := st =? qstatus.kDuplicate in
  if created || dup then
    mkResponse (if created then 201 else 200) json
      (lit "{" ++ quoted (lit "id") ++ lit ":" ++ quoted (to_hex id) ++ lit "," ++
       quoted (lit "status") ++ lit ":" ++ quoted (lit (if created then "created" else "duplicate")) ++
       lit "}" ++ [lf]) []
  else
    mkResponse (http_code st) json
      (lit "{" ++ quoted (lit "error") ++ lit ":" ++ to_string st ++ lit "}" ++ [lf]) [].

Definition lease_headers (g : LeaseGrant) : list (bytes * bytes) :=
  [(lit "X-Tautq-Id", to_hex (g_id g)); (lit "X-Tautq-Epoch", to_string (g_epoch g));
   (lit "X-Tautq-Seq", to_string (g_lease_seq g)); (lit "X-Tautq-Url", g_url g);
   (lit "X-Tautq-Key", g_idem_key g); (lit "X-Tautq-Attempt", to_string (g_attempt g));
   (lit "X-Tautq-Visibility-Ms", to_string (g_visibility_ms g))].

Definition lease_response (st : Z) (g : LeaseGrant) : Response :=
  if st =? qstatus.kCreated then
    mkResponse 200 (lit "application/octet-stream") (g_body g) (lease_headers g)
  else if st =? qstatus.kNoJob then mkResponse 204 plain_text [] []
  else mkResponse (http_code st) plain_text (lit "unavailable" ++ [lf]) [].

Definition ack_response (st : Z) : Response :=
  mkResponse (http_code st) json
    (lit "{" ++ quoted (lit "status") ++ lit ":" ++ to_string st ++ lit "}" ++ [lf]) [].

Definition status_response (id : JobId) (st : Z) (job : option Job) : Response :=
  match job with
  | Some j =>
      if st =? qstatus.kCreated then
        mkResponse 200 json
          (lit "{" ++ quoted (lit "id") ++ lit ":" ++ quoted (to_hex id) ++ lit "," ++
           quoted (lit "state") ++ lit ":" ++ quoted (state_str (j_state j)) ++ lit "," ++
           quoted (lit "epoch") ++ lit ":" ++ to_string (j_epoch j) ++ lit "," ++
           quoted (lit "attempts") ++ lit ":" ++ to_string (j_attempts j) ++ lit "," ++
           quoted (lit "owner") ++ lit ":" ++ quoted (ep_str (j_owner j)) ++ lit "}" ++ [lf]) []
      else mkResponse 404 json (lit "{" ++ quoted (lit "error") ++ lit ":" ++ quoted (lit "unknown") ++ lit "}" ++ [lf]) []
  | None => mkResponse 404 json (lit "{" ++ quoted (lit "error") ++ lit ":" ++ quoted (lit "unknown") ++ lit "}" ++ [lf]) []
  end.

Definition bad_id : Response := mkResponse 400 plain_text (lit "bad id" ++ [lf]) [].

(** The list of alive nodes. *)
Definition nodes_json (alive : list Endpoint) : bytes :=
  lit "[" ++
  snd (foldl (fun '(first, out) e =>
         (false, out ++ (if first : bool then [] else lit ",") ++
                 lit "{" ++ quoted (lit "node") ++ lit ":" ++ quoted (ep_str e) ++ lit "}"))
       (true, []) alive) ++ lit "]" ++ [lf].

Section api.
Context {S M D : Type} `{!StoreOps S} `{!Membership M}.
Context (le_ms : D -> Z -> bool) (add : D -> D -> D) (text : D -> bytes) (of_ms : Z -> D).

(** The process: the node, the ids captured by pending status callbacks, the
    latency histogram, the churn counter, whether an exception ended the process,
    what the node has handed to the RPC layer, responses not delivered yet, and the
    events the node has handled. *)
Record Proc := mkProc {
  pr_node : Node S M; pr_ids : gmap Z JobId; pr_latency : @Histogram D; pr_churn : Z;
  pr_crashed : bool; pr_rpc : list Out;
  pr_late : list (Z * Response);
  pr_events : list (Event M) }.

(** A handler answers, starts an operation of the node, or throws. *)
Inductive Action :=
  | Answer (r : Response)
  | Run (e : Event M)
  | Throw.

Definition tag_of (gen : Z) (keep_alive : bool) : Z := 2 * gen + (if keep_alive then 1 else 0).

(** Jobs of this node in a state, for the gauges. *)
Definition depth (n : Node S M) (st : JobState) : Z :=
  Z.of_nat (length (filter (fun x => j_owner (snd x) = me n /\ j_state (snd x) = st)
                           (map_to_list (jobs (st_table (n_store n)))))).

Definition label (k v : string) : bytes := lit "{" ++ lit k ++ lit "=" ++ quoted (lit v) ++ lit "}".

Definition metrics_text (p : Proc) : bytes :=
  let n := pr_node p in
  let c := n_counters n in
  let out := render_gauge (lit "tautq_queue_depth") (label "state" "ready") (depth n Ready) [] in
  let out := render_gauge (lit "tautq_queue_depth") (label "state" "dead_letter") (depth n DeadLetter) out in
  let out := render_gauge (lit "tautq_jobs_done") [] (depth n Done) out in
  let out := render_gauge (lit "tautq_inflight_leases") [] (depth n Leased) out in
  let out := render_gauge (lit "tautq_replication_backlog") [] (Z.of_nat (size (n_repair n))) out in
  let out := render_counter (lit "tautq_submits_total") [] (c_submits c) out in
  let out := render_counter (lit "tautq_duplicates_total") [] (c_duplicates c) out in
  let out := render_counter (lit "tautq_leases_granted_total") [] (c_leases_granted c) out in
  let out := render_counter (lit "tautq_completions_total") (label "result" "ok") (c_completions_ok c) out in
  let out := render_counter (lit "tautq_completions_total") (label "result" "fail") (c_completions_failed c) out in
  let out := render_counter (lit "tautq_expirations_total") [] (c_expirations c) out in
  let out := render_counter (lit "tautq_deadletters_total") [] (c_deadletters c) out in
  let out := render_counter (lit "tautq_takeovers_total") [] (c_takeovers c) out in
  let out := render_counter (lit "tautq_fenced_stale_total") [] (c_fenced_stale c) out in
  let out := render_counter (lit "tautq_membership_churn_total") [] (pr_churn p) out in
  render text (lit "tautq_job_latency_seconds") (pr_latency p) out.

(** What each route does with a request. *)
Definition submit_action (tag : Z) (r : Request) : Action :=
  match qnum r "visibility_ms" 0, qnum r "max_attempts" 0 with
  | Some v, Some m =>
      Run (EvSubmit (mkParams (qstr r "key") (qstr r "url") (rq_body r) v m) (SubmitClient tag))
  | _, _ => Throw
  end.

Definition lease_action (tag : Z) (r : Request) : Action :=
  match qnum r "worker" 0 with Some w => Run (EvLease w tag) | None => Throw end.

Definition ack_action (tag : Z) (r : Request) : Action :=
  match rq_query r !! lit "id" with
  | None => Answer bad_id
  | Some h =>
      match from_hex h with
      | None => Answer bad_id
      | Some id =>
          let ok := bool_decide (rq_query r !! lit "result" = Some (lit "ok")) in
          match qnum r "epoch" 0, qnum r "seq" 0 with
          | Some e, Some q => Run (EvAck id e q ok (AckClient tag))
          | _, _ => Throw
          end
      end
  end.

Definition status_action (tag : Z) (r : Request) : Action :=
  match from_hex (drop (String.length "/v1/jobs/") (rq_path r)) with
  | None => Answer bad_id
  | Some id => Run (EvStatus id tag)
  end.

Definition api_action (rt : Route) (tag : Z) (r : Request) (p : Proc) : Action :=
  match rt with
  | RSubmit => submit_action tag r
  | RLease => lease_action tag r
  | RAck => ack_action tag r
  | RStatus => status_action tag r
  | RNodes => Answer (mkResponse 200 json (nodes_json (alive (n_mem (pr_node p)))) [])
  | RDrain => Answer (mkResponse 202 json
                (lit "{" ++ quoted (lit "status") ++ lit ":" ++ quoted (lit "draining") ++ lit "}" ++ [lf]) [])
  | RHealth => Answer (mkResponse 200 plain_text (lit "ok" ++ [lf]) [])
  | RMetrics => Answer (mkResponse 200 (lit "text/plain; version=0.0.4") (metrics_text p) [])
  end.

(** The response a callback of the node produces, with the tag of its request. *)
Definition callback_response (ids : gmap Z JobId) (o : Out) : option (Z * Response) :=
  match o with
  | OSubmit tag st id => Some (tag, submit_response st id)
  | OLease tag st g => Some (tag, lease_response st g)
  | OAck tag st => Some (tag, ack_response st)
  | OStatus tag st job => Some (tag, status_response (default no_job_id (ids !! tag)) st job)
  | _ => None
  end.

Definition set_node (x : Node S M) (p : Proc) : Proc :=
  mkProc x (pr_ids p) (pr_latency p) (pr_churn p) (pr_crashed p) (pr_rpc p) (pr_late p) (pr_events p).
Definition set_ids (x : gmap Z JobId) (p : Proc) : Proc :=
  mkProc (pr_node p) x (pr_latency p) (pr_churn p) (pr_crashed p) (pr_rpc p) (pr_late p) (pr_events p).
Definition set_latency (x : @Histogram D) (p : Proc) : Proc :=
  mkProc (pr_node p) (pr_ids p) x (pr_churn p) (pr_crashed p) (pr_rpc p) (pr_late p) (pr_events p).
Definition set_churn (x : Z) (p : Proc) : Proc :=
  mkProc (pr_node p) (pr_ids p) (pr_latency p) x (pr_crashed p) (pr_rpc p) (pr_late p) (pr_events p).
Definition set_crashed (p : Proc) : Proc :=
  mkProc (pr_node p) (pr_ids p) (pr_latency p) (pr_churn p) true (pr_rpc p) (pr_late p) (pr_events p).
Definition set_rpc (x : list Out) (p : Proc) : Proc :=
  mkProc (pr_node p) (pr_ids p) (pr_latency p) (pr_churn p) (pr_crashed p) x (pr_late p) (pr_events p).
Definition set_late (x : list (Z * Response)) (p : Proc) : Proc :=
  mkProc (pr_node p) (pr_ids p) (pr_latency p) (pr_churn p) (pr_crashed p) (pr_rpc p) x (pr_events p).
Definition set_events (x : list (Event M)) (p : Proc) : Proc :=
  mkProc (pr_node p) (pr_ids p) (pr_latency p) (pr_churn p) (pr_crashed p) (pr_rpc p) (pr_late p) x.

(** Takes one output of the node: responses go back, latencies are observed, the
    rest is for the RPC layer.  The end of a drain is only printed. *)
Definition take_out (p : Proc) (o : Out) : Proc :=
  match callback_response (pr_ids p) o with
  | Some tr => set_late (pr_late p ++ [tr]) p
  | None =>
      match o with
      | OLatency ms => set_latency (observe le_ms add (of_ms ms) (pr_latency p)) p
      | ODrained => p
      | _ => set_rpc (pr_rpc p ++ [o]) p
      end
  end.

(** One event of the node, with its callbacks. *)
Definition proc_step (e : Event M) (p : Proc) : Proc :=
  let n := node_step e (set_out [] (pr_node p)) in
  let p := match e with EvStatus id tag => set_ids (<[tag := id]> (pr_ids p)) p | _ => p end in
  foldl take_out (set_events (pr_events p ++ [e]) (set_node (set_out [] n) p)) (n_out n).

(** The first response to [tag], and the others. *)
Fixpoint take_response (tag : Z) (rs : list (Z * Response)) : option Response * list (Z * Response) :=
  match rs with
  | [] => (None, [])
  | (t, r) :: rest =>
      if t =? tag then (Some r, rest)
      else let '(a, rest) := take_response tag rest in (a, (t, r) :: rest)
  end.

(** The handler of a route as the server runs it: the response to its own request if
    it is ready when the handler returns; an exception is never caught. *)
Definition api_handle (rt : Route) (gen : Z) (keep_alive : bool) (r : Request) (p : Proc)
  : option Response * Proc :=
  if pr_crashed p then (None, p) else
  let p := match rt with RDrain => proc_step EvDrain p | _ => p end in
  match api_action rt (tag_of gen keep_alive) r p with
  | Answer a => (Some a, p)
  | Throw => (None, set_crashed p)
  | Run e =>
      let p := proc_step e p in
      let '(a, late) := take_response (tag_of gen keep_alive) (pr_late p) in (a, set_late late p)
  end.

(** [swim_ep] and [data_ep] of node_main.cc: the failure detector of a node listens one
    port above its data socket. *)
Definition swim_ep (data : Endpoint) : Endpoint :=
  mkEndpoint (addr_be data) (bswap16 (u16 (bswap16 (port_be data) + 1))).
Definition data_ep (swim : Endpoint) : Endpoint :=
  mkEndpoint (addr_be swim) (bswap16 (u16 (bswap16 (port_be swim) - 1))).

(** [swim.on_state_change]: dead, alive, or another state.  [failed] are the calls
    the RPC layer gives up on when the peer is dead. *)
Definition swim_change (ep : Endpoint) (st : option bool) (failed : list Kont) (p : Proc) : Proc :=
  let p := set_churn (u64 (pr_churn p + 1)) p in
  match st with
  | Some false => proc_step (EvPeerDead failed) p
  | Some true => proc_step (EvPeerAlive (data_ep ep)) p
  | None => p
  end.

(** The callbacks that come later, answered over the connections they belong to. *)
Definition deliver_late (s : Server Route Proc) : Server Route Proc :=
  let rs := pr_late (s_app s) in
  foldl (fun s tr => respond_later api_handle (fst tr / 2) (Z.odd (fst tr)) (snd tr) s)
        (set_app (set_late [] (s_app s)) s) rs.

(** An event of the node in the running process. *)
Definition process_event (e : Event M) (s : Server Route Proc) : Server Route Proc :=
  deliver_late (set_app (proc_step e (s_app s)) s).
End api.
