(* ===== verification/Fence.v ===== *)
(** * Fence: a lease travels to the worker and back

    End to end over src/src/node_main.cc, http.cc, http_client.cc and
    worker_main.cc: the fence of a granted lease goes out in response headers, the
    worker copies it into the query string of its acknowledgement, and the node
    gets back the job id, epoch and lease number it granted. *)

From Stdlib Require Import ZArith Lia String.
From stdpp Require Import base tactics list numbers gmap.
From S2P Require Import Prelude Bytes Wire Records Table StoreApi Ring.
From S2P Require Import NodeState QueueNode NodeSteps Membership.
From S2P Require Import Disk Text Http HttpClient HttpFraming HttpSafety Metrics Api.

(** ** Characters of hexadecimal and decimal numbers *)

Lemma hex_digits_value n v c : 0 <= v -> c ∈ hex_digits n v -> hex_value c <> None.
Proof.
  revert v. induction n as [|n IH]; intros v Hv; simpl; [set_solver|].
  rewrite elem_of_app, list_elem_of_singleton. intros [Hc| ->].
  - apply (IH (Z.shiftr v 4)); [by apply Z.shiftr_nonneg|done].
  - rewrite hex_value_char; [done|]. change 15 with (Z.ones 4).
    rewrite Z.land_ones by lia. apply Z.mod_pos_bound. lia.
Qed.

Lemma hex_not_in c i : job_id_wf i -> hex_value c = None -> c ∉ to_hex i.
Proof.
  unfold job_id_wf, fits. intros [Ho Hn] Hc. unfold to_hex. rewrite elem_of_app.
  intros [Hin|Hin]; eapply hex_digits_value in Hin; try done; lia.
Qed.

Lemma to_hex_ne i : to_hex i <> [].
Proof. intros E. by apply (f_equal length) in E; rewrite length_to_hex in E. Qed.

Lemma skip_sp_id s : sp ∉ s -> skip_sp s = s.
Proof. destruct s as [|c s]; [done|]. intros Hs. simpl. rewrite decide_False; [done|]. set_solver. Qed.

Lemma url_decode_id s : Byte.x25 ∉ s -> Byte.x2b ∉ s -> url_decode s = s.
Proof.
  induction s as [|c s IH]; [done|]. rewrite !not_elem_of_cons. intros [H1 H2] [H3 H4].
  cbn [url_decode]. rewrite (bool_decide_false (c = Byte.x25)) by congruence.
  unfold plus_to_space. rewrite decide_False by congruence. rewrite IH by done. cbn [andb].
  by destruct s as [|? [|? ?]].
Qed.

#[local] Instance is_digit_dec c : Decision (is_digit c).
Proof. unfold is_digit. apply _. Defined.

(** A query parameter whose name and value need no escapes. *)
Lemma query_pair_plain q (k : string) v :
  Byte.x3d ∉ lit k -> url_decode (lit k) = lit k -> Byte.x25 ∉ v -> Byte.x2b ∉ v ->
  query_pair q (lit k ++ [Byte.x3d] ++ v) = <[lit k := v]> q.
Proof.
  intros Hk Hd H1 H2. unfold query_pair. rewrite (find_sub_first Byte.x3d []) by done.
  rewrite take_app_length, drop_app_add, Hd. simpl. by rewrite url_decode_id.
Qed.

(** ** The two messages *)

(** What the submit handler lets through and the headers can carry. *)
Record grant_ok (g : LeaseGrant) : Prop := {
  go_id : job_id_wf (g_id g);
  go_epoch : fits 32 (g_epoch g);
  go_seq : fits 32 (g_lease_seq g);
  go_url : (cr ∉ g_url g) /\ skip_sp (g_url g) <> [];
  go_key : cr ∉ g_idem_key g }.

(** The lease as the worker should hold it. *)
Definition lease_of (g : LeaseGrant) : WorkerLease :=
  mkLease (to_hex (g_id g)) (skip_sp (g_url g)) (skip_sp (g_idem_key g)) (to_string (g_epoch g))
          (to_string (g_lease_seq g)) (to_string (g_attempt g)) (g_body g).

Lemma fits_32_64 z : fits 32 z -> fits 64 z.
Proof. apply fits_weaken. lia. Qed.

(** Closes [c ∉ s] for a concrete separator [c] and a number or literal [s]. *)
Ltac not_in :=
  lazymatch goal with
  | |- _ ∉ to_string _ => apply digits_not_in; apply (bool_decide_unpack _); vm_compute; exact I
  | |- _ ∉ to_hex _ => apply hex_not_in; [assumption|reflexivity]
  | |- _ => first [assumption | by apply (bool_decide_unpack _)]
  end.

Lemma field_named (k : string) v :
  bool_decide ((cr ∉ lit k) /\ (Byte.x3a ∉ lit k)) = true -> cr ∉ v -> field_ok (lit k, v).
Proof. intros [H1 H2]%bool_decide_eq_true Hv. done. Qed.

Lemma lease_renderable g : grant_ok g -> renderable (lease_response qstatus.kCreated g).
Proof.
  intros [Hi _ _ [Hu _] Hk]. split.
  - by apply (bool_decide_unpack _).
  - split; [vm_compute; lia|by apply (bool_decide_unpack _)].
  - unfold lease_response. change (qstatus.kCreated =? qstatus.kCreated) with true.
    cbn [rs_extra]. unfold lease_headers.
    repeat (apply Forall_cons_2; [apply field_named; [reflexivity|not_in]|]). constructor.
Qed.

(** Lookups among the fields of a lease response, with the values abstract. *)
Lemma lease_fields_lookup (t n c i e q u k a v : bytes) :
  let hs := foldl header_entry ∅
    [(lit "Content-Type", t); (lit "Content-Length", n); (lit "Connection", c);
     (lit "X-Tautq-Id", i); (lit "X-Tautq-Epoch", e); (lit "X-Tautq-Seq", q); (lit "X-Tautq-Url", u);
     (lit "X-Tautq-Key", k); (lit "X-Tautq-Attempt", a); (lit "X-Tautq-Visibility-Ms", v)] in
  hs !! lit "x-tautq-id" = Some (skip_sp i) /\ hs !! lit "x-tautq-url" = Some (skip_sp u) /\
  hs !! lit "x-tautq-key" = Some (skip_sp k) /\ hs !! lit "x-tautq-epoch" = Some (skip_sp e) /\
  hs !! lit "x-tautq-seq" = Some (skip_sp q) /\ hs !! lit "x-tautq-attempt" = Some (skip_sp a).
Proof. cbv zeta. split_and!; vm_compute; reflexivity. Qed.

Lemma worker_gets_lease ka g :
  grant_ok g ->
  worker_lease (parse_response (response_text ka (lease_response qstatus.kCreated g))) = Some (lease_of g).
Proof.
  intros Hg. rewrite response_parses by by apply lease_renderable.
  destruct (lease_fields_lookup (c_str (lit "application/octet-stream"))
    (to_string (Z.of_nat (length (g_body g)))) (lit (if ka then "keep-alive" else "close"))
    (to_hex (g_id g)) (to_string (g_epoch g)) (to_string (g_lease_seq g)) (g_url g) (g_idem_key g)
    (to_string (g_attempt g)) (to_string (g_visibility_ms g))) as (H1 & H2 & H3 & H4 & H5 & H6).
  set (hs := foldl header_entry ∅ _) in H1, H2, H3, H4, H5, H6.
  change (foldl header_entry ∅ (response_fields ka (lease_response qstatus.kCreated g))) with hs.
  change (rs_body (lease_response qstatus.kCreated g)) with (g_body g).
  change (rs_code (lease_response qstatus.kCreated g)) with 200.
  unfold worker_lease, hdr. cbn [hr_code hr_headers hr_body].
  rewrite H1, H2, H3, H4, H5, H6. cbn [default]. unfold id.
  pose proof (go_id _ Hg) as Hi. rewrite !skip_sp_to_string, (skip_sp_id (to_hex _)) by not_in.
  rewrite !bool_decide_false by (apply to_hex_ne || apply Hg). done.
Qed.

(** The path of the acknowledgement. *)
Definition ack_path (l : WorkerLease) (ok : bool) : bytes :=
  lit "/v1/ack" ++ [Byte.x3f] ++
  join Byte.x26 [lit "id" ++ [Byte.x3d] ++ wl_id l; lit "epoch" ++ [Byte.x3d] ++ wl_epoch l;
                 lit "seq" ++ [Byte.x3d] ++ wl_seq l; lit "result" ++ [Byte.x3d] ++ lit (if ok then "ok" else "fail")].

Lemma ack_url_path hp l ok :
  ack_url (lit "http://" ++ hp) l ok = lit "http://" ++ hp ++ ack_path l ok.
Proof. unfold ack_url, ack_path. cbn [join]. rewrite <- !app_assoc. done. Qed.

Lemma ack_url_parses hp l ok :
  Byte.x2f ∉ hp ->
  exists u, parse_url (ack_url (lit "http://" ++ hp) l ok) = Some u /\
    u_hostport u = hp /\ u_path u = ack_path l ok.
Proof.
  intros Hh. rewrite ack_url_path. unfold parse_url. rewrite starts_with_app. cbn [negb].
  rewrite drop_app_length' by done.
  assert (E : find_sub [Byte.x2f] (hp ++ ack_path l ok) = Some (length hp)).
  { unfold ack_path. change (lit "/v1/ack") with ([Byte.x2f] ++ lit "v1/ack"). rewrite <- app_assoc.
    by apply (find_sub_first Byte.x2f []). }
  rewrite E. eexists. split; [done|]. cbn [u_hostport u_path].
  by rewrite take_app_length, drop_app_length.
Qed.

Lemma ack_target l ok :
  (forall x, x ∈ [wl_id l; wl_epoch l; wl_seq l] ->
     (Byte.x26 ∉ x) /\ (Byte.x25 ∉ x) /\ (Byte.x2b ∉ x)) ->
  parse_target (ack_path l ok) =
  (lit "/v1/ack",
   <[lit "result" := lit (if ok then "ok" else "fail")]>
     (<[lit "seq" := wl_seq l]> (<[lit "epoch" := wl_epoch l]> (<[lit "id" := wl_id l]> ∅)))).
Proof.
  intros Hp. destruct (Hp (wl_id l)) as (I1 & I2 & I3); [set_solver|].
  destruct (Hp (wl_epoch l)) as (E1 & E2 & E3); [set_solver|].
  destruct (Hp (wl_seq l)) as (Q1 & Q2 & Q3); [set_solver|].
  unfold parse_target, ack_path. rewrite (find_sub_first Byte.x3f []) by by apply (bool_decide_unpack _).
  rewrite take_app_length, drop_app_add. f_equal. set (ps := [_; _; _; _]).
  change (drop 1 ([Byte.x3f] ++ join Byte.x26 ps)) with (join Byte.x26 ps).
  unfold parse_query. rewrite split_join; unfold ps.
  - cbn [foldl]. rewrite !query_pair_plain; try done; try by apply (bool_decide_unpack _).
    all: destruct ok; by apply (bool_decide_unpack _).
  - rewrite !Forall_cons. split_and!; [..|constructor]; (split; [|done]);
      rewrite !not_elem_of_app; split_and!; try done; try by apply (bool_decide_unpack _).
    destruct ok; by apply (bool_decide_unpack _).
Qed.

Lemma lease_values_plain g x :
  grant_ok g -> x ∈ [wl_id (lease_of g); wl_epoch (lease_of g); wl_seq (lease_of g)] ->
  (Byte.x26 ∉ x) /\ (Byte.x25 ∉ x) /\ (Byte.x2b ∉ x) /\ (cr ∉ x).
Proof.
  intros Hg. pose proof (go_id _ Hg) as Hi. cbn [lease_of wl_id wl_epoch wl_seq].
  rewrite !elem_of_cons. intros [-> | [-> | [-> | []%not_elem_of_nil]]]; split_and!; not_in.
Qed.

Lemma ack_sendable g hp ok :
  grant_ok g -> cr ∉ hp -> sendable (lit "POST") (ack_path (lease_of g) ok) hp [] [].
Proof.
  intros Hg Hh. split; [split; by apply (bool_decide_unpack _)| |done|constructor|by apply (bool_decide_unpack _)].
  unfold ack_path. cbn [join].
  repeat first [rewrite not_elem_of_app | rewrite not_elem_of_cons].
  assert (Hv : forall x, x ∈ [wl_id (lease_of g); wl_epoch (lease_of g); wl_seq (lease_of g)] -> cr ∉ x)
    by (intros x Hx; apply (lease_values_plain g x Hg Hx)).
  assert (Hr : cr ∉ lit (if ok then "ok" else "fail")) by (destruct ok; by apply (bool_decide_unpack _)).
  split_and!;
    lazymatch goal with
    | |- _ <> _ => done
    | |- _ ∉ lit (if _ then _ else _) => exact Hr
    | |- _ ∉ lit _ => by apply (bool_decide_unpack _)
    | |- _ ∉ [] => apply not_elem_of_nil
    | |- _ => apply Hv; set_solver
    end.
Qed.

(** The routing table [main] builds. *)
Definition api_table : list (bytes * Route) := s_routes (register_routes (fresh_server [] tt)).

Section fence.
Context {S M D : Type} `{!StoreOps S} `{!Membership M} (text : D -> bytes).

Lemma ack_request_runs (p : @Proc S M D) g tag (ok : bool) hs b :
  grant_ok g ->
  api_action text RAck tag
    (mkRequest (lit "POST") (lit "/v1/ack")
       (<[lit "result" := lit (if ok then "ok" else "fail")]>
         (<[lit "seq" := wl_seq (lease_of g)]> (<[lit "epoch" := wl_epoch (lease_of g)]>
           (<[lit "id" := wl_id (lease_of g)]> ∅)))) hs b) p =
  Run (EvAck (g_id g) (g_epoch g) (g_lease_seq g) ok (AckClient tag)).
Proof.
  intros [Hi He Hq _ _]. cbn [api_action]. unfold ack_action, qnum. cbn [rq_query lease_of wl_id wl_seq wl_epoch].
  set (q := <[lit "result" := _]> _).
  assert (E1 : q !! lit "id" = Some (to_hex (g_id g))) by (unfold q; do 3 rewrite lookup_insert_ne by done; apply lookup_insert_eq).
  assert (E2 : q !! lit "epoch" = Some (to_string (g_epoch g)))
    by (unfold q; do 2 rewrite lookup_insert_ne by done; apply lookup_insert_eq).
  assert (E3 : q !! lit "seq" = Some (to_string (g_lease_seq g)))
    by (unfold q; rewrite lookup_insert_ne by done; apply lookup_insert_eq).
  assert (E4 : q !! lit "result" = Some (lit (if ok then "ok" else "fail"))) by apply lookup_insert_eq.
  rewrite E1, E2, E3, E4, from_hex_to_hex, !stoul_to_string by (done || by apply fits_32_64).
  cbn [fmap option_fmap option_map]. rewrite !wrap_id by done. destruct ok; done.
Qed.
End fence.


(** ** Where it goes wrong *)
Module FenceSample.
Definition grant (url : bytes) : LeaseGrant :=
  mkGrant Sample.id1 url [Byte.x78] Sample.key1 1 1 30000 1.
Definition proc : @Proc MemStore StaticMembership Z :=
  mkProc (NodeSample.node_at Sample.node_a NodeSample.table1) ∅ (new_histogram 0) 0 false [] [] [].

(** A line break in a job's URL: [http://h/%0d%0aX-Tautq-Seq:%2099] in the query of
    the submit. *)
Definition submit_target : bytes :=
  lit "/v1/jobs?key=k1&url=http://h/%0d%0aX-Tautq-Seq:%2099".
Definition split_url : bytes := default [] (snd (parse_target submit_target) !! lit "url").

Definition handler := api_handle (fun d b => d <=? b) Z.add (fun v => to_string v) (fun ms => ms)
  : Route -> Z -> bool -> Request -> @Proc MemStore StaticMembership Z -> option Response * @Proc MemStore StaticMembership Z.
Definition get (target : bytes) : ConnEvents :=
  mkEvents false (Some ([lit "GET " ++ target ++ lit " HTTP/1.1" ++ crlf ++ crlf], false)) false.
Definition post (target : bytes) : ConnEvents :=
  mkEvents false (Some ([lit "POST " ++ target ++ lit " HTTP/1.1" ++ crlf ++ crlf], false)) false.
End FenceSample.

(** A URL with an escaped line break passes the checks of [submit], and the lease
    response then carries a header of the submitter's choosing: the worker of lease 1
    acknowledges lease 99 instead, so this job is never completed. *)
Theorem url_line_break_forges_fence :
  params_invalid (mkParams Sample.key1 FenceSample.split_url [] 0 0) = false /\
  exists l, worker_lease (parse_response (response_text true
      (lease_response qstatus.kCreated (FenceSample.grant FenceSample.split_url)))) = Some l /\
    wl_seq l = lit "99" /\ g_lease_seq (FenceSample.grant FenceSample.split_url) = 1.
Proof. split; [reflexivity|]. eexists. split_and!; vm_compute; reflexivity. Qed.

(** A query parameter that is not a number ends the process: the exception of
    [std::stoul] is caught nowhere, and no request is answered after it, while a
    numeric one gets both requests answered. *)
Theorem malformed_number_ends_process :
  let run target := server_run FenceSample.handler
             [SAccept [true; true]; SConn 1 (FenceSample.post target);
              SConn 2 (FenceSample.get (lit "/healthz"))]
             (fresh_server api_table FenceSample.proc) in
  pr_crashed (s_app (run (lit "/v1/lease?worker=seven"))) = true /\
  written (s_log (run (lit "/v1/lease?worker=seven"))) = [] /\
  pr_crashed (s_app (run (lit "/v1/lease?worker=7"))) = false /\
  answers (s_log (run (lit "/v1/lease?worker=7"))) = 2%nat.
Proof. cbv zeta. split_and!; vm_compute; reflexivity. Qed.

(** ** Retries *)

(** What [ack] can report and the worker should not retry. *)
Definition settled (st : Z) : Prop :=
  st ∈ [qstatus.kCreated; qstatus.kDuplicate; qstatus.kInvalid; qstatus.kUnknownJob; qstatus.kNotLeased;
        qstatus.kNotOwner; qstatus.kStaleEpoch].

Lemma http_code_settled st : http_code st <> 503 <-> settled st.
Proof.
  unfold http_code, settled. rewrite !elem_of_cons, elem_of_nil.
  unfold qstatus.kCreated, qstatus.kDuplicate, qstatus.kInvalid, qstatus.kUnknownJob, qstatus.kNotLeased,
    qstatus.kNotOwner, qstatus.kStaleEpoch.
  repeat match goal with |- context [?a =? ?b] => destruct (Z.eqb_spec a b) end; simpl; lia.
Qed.

Lemma http_code_range st : 200 <= http_code st <= 503.
Proof. unfold http_code. repeat case_match; lia. Qed.

Lemma ack_renderable st : renderable (ack_response st).
Proof.
  split; [|split; [vm_compute; lia|by apply (bool_decide_unpack _)]|constructor].
  pose proof (http_code_range st). unfold fits. simpl. lia.
Qed.

Lemma ack_loop_retries n st ka rest :
  ack_loop (S n) (parse_response (response_text ka (ack_response st)) :: rest) = 1%nat <->
  settled st \/ (n = 0%nat \/ rest = []).
Proof.
  rewrite response_parses by apply ack_renderable. rewrite <- http_code_settled.
  pose proof (http_code_range st) as Hr. cbn [ack_loop hr_code ack_response rs_code].
  rewrite (proj2 (Z.eqb_neq (http_code st) 0)) by lia. cbn [negb andb].
  destruct (Z.eqb_spec (http_code st) 503) as [E|E]; simpl.
  - destruct n as [|n]; simpl; [naive_solver|]. destruct rest as [|a rest]; simpl; [naive_solver|].
    split; [|naive_solver]. destruct (_ && _); [lia|]. lia.
  - naive_solver.
Qed.

Lemma ack_loop_bound n answers : (ack_loop n answers <= n)%nat.
Proof.
  revert answers. induction n as [|n IH]; intros [|a answers]; simpl; try lia.
  specialize (IH answers). case_match; lia.
Qed.

(** The worker asks again exactly while the node reports that the outcome is
    open (no quorum, or a failure between the nodes), gives up on any verdict, and
    makes at most 50 attempts. *)
Theorem worker_retries_open_outcomes ka st a rest answers :
  (ack_loop kAckAttempts (parse_response (response_text ka (ack_response st)) :: a :: rest) = 1%nat <->
   settled st) /\
  (ack_loop kAckAttempts answers <= 50)%nat.
Proof.
  split; [|apply ack_loop_bound]. change kAckAttempts with (S 49). rewrite ack_loop_retries.
  naive_solver lia.
Qed.



Lemma try_parse_terminates_witness :
  let s := put_conn 1 (set_in (lit "GET /healthz HTTP/1.1" ++ crlf ++ crlf) new_conn)
             (fresh_server api_table FenceSample.proc) in
  try_parse_fuel FenceSample.handler 60 1 s = try_parse FenceSample.handler 1 s.
Proof. cbv zeta. apply try_parse_terminates. vm_compute. lia. Defined.
