(* ===== verification/Sink.v ===== *)
(** * Sink: the webhook receiver, src/src/sink_main.cc

    The handler of [tautq-sink] that writes one receipt per accepted delivery, and
    what the history checker ([Verify.v]) reads out of the file. *)

From Stdlib Require Import ZArith Lia String.
From stdpp Require Import base tactics list numbers gmap.
From S2P Require Import Prelude Bytes Disk Text Verify Http.

(** One line of the receipt log, [%lld %s %s %s %zu]. *)
Definition receipt_line (ms : Z) (key attempt path : bytes) (size : nat) : bytes :=
  to_string ms ++ [sp] ++ c_str key ++ [sp] ++ c_str attempt ++ [sp] ++ c_str path ++ [sp] ++
  to_string (Z.of_nat size).

Definition header_or (r : Request) (k : string) : bytes := default (lit "-") (rq_headers r !! lit k).

(** The POST handler: [failed] is the outcome of the injected failure, [ms] the time
    since the start, [out] the file so far. *)
Definition sink_post (failed : bool) (ms : Z) (r : Request) (out : bytes) : Response * bytes :=
  if failed then (mkResponse 500 (lit "text/plain") (lit "injected failure" ++ [lf]) [], out) else
  let key := header_or r "idempotency-key" in
  let attempt := header_or r "x-tautq-attempt" in
  (mkResponse 200 (lit "text/plain") (lit "ok" ++ [lf]) [],
   out ++ receipt_line ms key attempt (rq_path r) (length (rq_body r)) ++ [lf]).

Record Delivery := mkDelivery { dl_failed : bool; dl_ms : Z; dl_request : Request }.

Definition dl_key (d : Delivery) : bytes := header_or (dl_request d) "idempotency-key".

Definition sink_file (ds : list Delivery) : bytes :=
  foldl (fun out d => snd (sink_post (dl_failed d) (dl_ms d) (dl_request d) out)) [] ds.

(** ** Reading the file back *)

(** A word: what [>>] reads as one piece; NUL ends it for [printf]. *)
Definition word_ok (s : bytes) : Prop :=
  s <> [] /\ Forall (fun c => is_space c = false /\ c <> Byte.x00) s.

#[global] Instance word_ok_dec s : Decision (word_ok s).
Proof. unfold word_ok. apply _. Defined.

Lemma c_str_id s : Forall (fun c => c <> Byte.x00) s -> c_str s = s.
Proof. induction 1 as [|c s Hc _ IH]; simpl; [done|]. rewrite decide_False by done. by rewrite IH. Qed.

Lemma word_c_str s : word_ok s -> c_str s = s.
Proof. intros [_ H]. apply c_str_id. eapply Forall_impl; [exact H|]. by intros c [_ ?]. Qed.

Lemma read_word_app s r : word_ok s -> read_word (s ++ sp :: r) = Some (s, sp :: r).
Proof.
  intros [Hne Hs]. destruct s as [|c s]; [done|]. inversion Hs as [|? ? [Hc _] Hs']; subst.
  unfold read_word. simpl. rewrite Hc. change (c :: s ++ sp :: r) with ((c :: s) ++ sp :: r).
  simpl. rewrite Hc. f_equal. clear Hne Hs Hc.
  assert (E : break_space (s ++ sp :: r) = (s, sp :: r)); [|by rewrite E].
  induction Hs' as [|d s [Hd _] _ IH]; [done|]. simpl. by rewrite Hd, IH.
Qed.

Lemma read_word_sp s : read_word (sp :: s) = read_word s.
Proof. done. Qed.

Lemma to_string_word v : word_ok (to_string v).
Proof.
  destruct (to_string_digits v) as [Hd Hne]. split; [done|]. eapply Forall_impl; [exact Hd|].
  intros c Hc. unfold is_digit in Hc. split.
  - unfold is_space. rewrite (proj2 (Z.eqb_neq _ _)), (proj2 (Z.leb_gt _ 13)) by lia. by rewrite andb_false_r.
  - intros ->. destruct Hc as [Hc _]. by apply Hc.
Qed.

Lemma sink_line_receipt m ms key attempt path size :
  word_ok key -> sink_line m (receipt_line ms key attempt path size) = <[key := default 0 (m !! key) + 1]> m.
Proof.
  intros Hk. unfold sink_line, receipt_line. rewrite (word_c_str key) by done.
  change (to_string ms ++ [sp] ++ ?x) with (to_string ms ++ sp :: x).
  rewrite read_word_app by apply to_string_word. rewrite read_word_sp.
  change (key ++ [sp] ++ ?x) with (key ++ sp :: x). by rewrite read_word_app.
Qed.

Lemma break_at_line l s : lf ∉ l -> break_at lf (l ++ lf :: s) = (l, s).
Proof.
  induction l as [|c l IH]; intros Hl; simpl; [done|]. apply not_elem_of_cons in Hl as [Hc Hl].
  rewrite decide_False by done. by rewrite IH.
Qed.

Lemma lines_loop_app ls : forall fuel,
  Forall (fun l => lf ∉ l) ls -> (length ls <= fuel)%nat ->
  lines_loop fuel (mjoin ((fun l => l ++ [lf]) <$> ls)) = ls.
Proof.
  induction ls as [|l ls IH]; intros fuel Hls Hf; [by destruct fuel|].
  destruct fuel as [|fuel]; [simpl in Hf; lia|]. inversion_clear Hls as [|? ? Hl Hls'].
  change (mjoin ((fun l => l ++ [lf]) <$> l :: ls))
    with ((l ++ [lf]) ++ mjoin ((fun l => l ++ [lf]) <$> ls)).
  set (rest := mjoin _). rewrite <- app_assoc.
  assert (E : getline lf (l ++ [lf] ++ rest) = Some (l, rest)).
  { unfold getline. destruct (l ++ [lf] ++ rest) as [|x y] eqn:Ex; [by destruct l|].
    rewrite <- Ex. change ([lf] ++ rest) with (lf :: rest). by rewrite break_at_line. }
  cbn [lines_loop]. rewrite E. f_equal. apply IH; [done|]. simpl in Hf. lia.
Qed.

Lemma lines_join ls :
  Forall (fun l => lf ∉ l) ls -> lines (mjoin ((fun l => l ++ [lf]) <$> ls)) = ls.
Proof.
  intros Hls. unfold lines. apply lines_loop_app; [done|]. clear Hls.
  induction ls as [|l ls IH]; [simpl; lia|].
  change (mjoin ((fun l => l ++ [lf]) <$> l :: ls))
    with ((l ++ [lf]) ++ mjoin ((fun l => l ++ [lf]) <$> ls)).
  rewrite !length_app. change (length [lf]) with 1%nat. simpl length at 1. lia.
Qed.

(** The receipts of the accepted deliveries. *)
Definition receipt (d : Delivery) : bytes :=
  receipt_line (dl_ms d) (dl_key d) (header_or (dl_request d) "x-tautq-attempt")
    (rq_path (dl_request d)) (length (rq_body (dl_request d))).

Definition receipts (ds : list Delivery) : list bytes :=
  receipt <$> filter (fun d => dl_failed d = false) ds.

Lemma receipts_one d : receipts [d] = if dl_failed d then [] else [receipt d].
Proof. unfold receipts. rewrite filter_cons, filter_nil. by destruct (dl_failed d). Qed.

Lemma receipts_app ds ds' : receipts (ds ++ ds') = receipts ds ++ receipts ds'.
Proof. unfold receipts. by rewrite filter_app, fmap_app. Qed.

Lemma sink_post_receipt d out :
  snd (sink_post (dl_failed d) (dl_ms d) (dl_request d) out) =
  out ++ mjoin ((fun l => l ++ [lf]) <$> receipts [d]).
Proof.
  rewrite receipts_one. unfold sink_post. fold (dl_key d). fold (receipt d).
  destruct (dl_failed d); cbn [snd]; [by rewrite app_nil_r|].
  change (out ++ receipt d ++ [lf] = out ++ (receipt d ++ [lf]) ++ []). by rewrite app_nil_r.
Qed.

Lemma sink_file_receipts ds : sink_file ds = mjoin ((fun l => l ++ [lf]) <$> receipts ds).
Proof.
  unfold sink_file. induction ds as [|d ds IH] using rev_ind; [done|].
  rewrite foldl_app, receipts_app, fmap_app, join_app, <- IH. apply sink_post_receipt.
Qed.

(** A delivery whose receipt is one line with the key as its second word. *)
Definition delivery_ok (d : Delivery) : Prop :=
  word_ok (dl_key d) /\ (lf ∉ header_or (dl_request d) "x-tautq-attempt") /\ (lf ∉ rq_path (dl_request d)).

Lemma c_str_not_in c s : c ∉ s -> c ∉ c_str s.
Proof.
  induction s as [|x s IH]; [done|]. simpl. case_decide; [set_solver|].
  rewrite !not_elem_of_cons. naive_solver.
Qed.

Lemma receipt_no_lf d : delivery_ok d -> Forall (fun l => lf ∉ l) (receipts [d]).
Proof.
  intros (Hk & Ha & Hp). rewrite receipts_one.
  destruct (dl_failed d); [constructor|]. constructor; [|constructor].
  unfold receipt, receipt_line. rewrite !not_elem_of_app.
  assert (Hn : forall v, lf ∉ to_string v).
  { intros v Hin. destruct (to_string_word v) as [_ Hw]. rewrite Forall_forall in Hw. by destruct (Hw lf Hin). }
  assert (Hs : lf ∉ [sp]) by by apply (bool_decide_unpack _).
  assert (Hkey : lf ∉ c_str (dl_key d)).
  { apply c_str_not_in. intros Hin. destruct Hk as [_ Hw]. rewrite Forall_forall in Hw. by destruct (Hw lf Hin). }
  split_and!; auto using c_str_not_in.
Qed.

Definition accepted_of (key : bytes) (ds : list Delivery) : nat :=
  length (filter (fun d => dl_failed d = false /\ dl_key d = key) ds).

Lemma count_receipts key ds :
  Forall delivery_ok ds ->
  default 0 (foldl sink_line ∅ (receipts ds) !! key) = Z.of_nat (accepted_of key ds).
Proof.
  induction ds as [|d ds IH] using rev_ind; intros Hds; [done|].
  apply Forall_app in Hds as [Hds Hd]. rewrite Forall_singleton in Hd. pose proof (proj1 Hd) as Hk.
  rewrite receipts_app, foldl_app. rewrite receipts_one.
  unfold accepted_of. rewrite filter_app, length_app, filter_cons, filter_nil.
  specialize (IH Hds). unfold accepted_of in IH.
  destruct (dl_failed d) eqn:Ef; cbn [foldl].
  - rewrite decide_False by naive_solver. simpl. rewrite IH. lia.
  - unfold receipt. rewrite sink_line_receipt by done. destruct (decide (dl_key d = key)) as [<-|Hne].
    + rewrite lookup_insert_eq, decide_True by done. simpl. rewrite IH. lia.
    + rewrite lookup_insert_ne by done. rewrite decide_False by naive_solver. simpl. rewrite IH. lia.
Qed.

(** The checker counts under each key exactly the deliveries the sink accepted
    with it, refused ones excepted, as long as keys are single words and nothing in
    a receipt breaks its line. *)
Theorem sink_receipts_counted key ds :
  Forall delivery_ok ds ->
  default 0 (read_sink (sink_file ds) !! key) = Z.of_nat (accepted_of key ds).
Proof.
  intros Hds. unfold read_sink. rewrite sink_file_receipts, lines_join; [by apply count_receipts|].
  induction Hds as [|d ds Hd _ IH]; [constructor|].
  change (d :: ds) with ([d] ++ ds). rewrite receipts_app. apply Forall_app. split; [by apply receipt_no_lf|done].
Qed.

Module SinkSample.
Definition request : Request :=
  mkRequest (lit "POST") (lit "/hook") ∅
    (<[lit "idempotency-key" := lit "k1"]> (<[lit "x-tautq-attempt" := lit "1"]> ∅)) (lit "x").
Definition deliveries : list Delivery :=
  [mkDelivery false 12 request; mkDelivery true 30 request; mkDelivery false 40 request].
End SinkSample.

Lemma sink_receipts_counted_witness :
  default 0 (read_sink (sink_file SinkSample.deliveries) !! lit "k1") = 2.
Proof.
  rewrite sink_receipts_counted; [reflexivity|].
  repeat constructor; by apply (bool_decide_unpack _).
Defined.
