(* ===== verification/Loop.v ===== *)
(** * Loop: the event loop, src/src/loop.h and src/src/loop.cc

    Class Loop over the kernel's interest list: [add], [mod], [del] and [run_once].
    The two maps of the model are the interest list of the epoll instance, which the
    kernel keeps, and [handlers_], which the object keeps.  Handlers are data of a type
    [K]; [call] says what running one does to the state of the process, of which the
    loop is a part, so that a handler may add and remove descriptors. *)

From Stdlib Require Import ZArith Lia.
From stdpp Require Import base tactics list numbers gmap.
From S2P Require Import Prelude.

Definition EPOLLIN : Z := 1.
Definition EPOLLOUT : Z := 4.
Definition EPOLLERR : Z := 8.
Definition EPOLLHUP : Z := 16.

(** ** The object *)

Record Loop (K : Type) := mkLoop { l_interest : gmap Z Z; l_handlers : gmap Z K }.
Arguments mkLoop {K} _ _.
Arguments l_interest {K} _.
Arguments l_handlers {K} _.

Definition new_loop {K} : Loop K := mkLoop ∅ ∅.

(** [Loop::add]: the kernel refuses a descriptor it already watches (EEXIST), and may
    refuse any for want of resources ([kernel = false]). *)
Definition loop_add {K} (fd events : Z) (h : K) (kernel : bool) (l : Loop K) : bool * Loop K :=
  if negb kernel || bool_decide (is_Some (l_interest l !! fd)) then (false, l)
  else (true, mkLoop (<[fd := events]> (l_interest l)) (<[fd := h]> (l_handlers l))).

(** [Loop::mod]: ENOENT for a descriptor that is not watched. *)
Definition loop_mod {K} (fd events : Z) (l : Loop K) : bool * Loop K :=
  match l_interest l !! fd with
  | Some _ => (true, mkLoop (<[fd := events]> (l_interest l)) (l_handlers l))
  | None => (false, l)
  end.

(** [Loop::del] *)
Definition loop_del {K} (fd : Z) (l : Loop K) : Loop K :=
  mkLoop (delete fd (l_interest l)) (delete fd (l_handlers l)).

(** What [epoll_wait] answers: descriptors with what happened on them, or an error,
    which may be EINTR. *)
Inductive EpollWait (I : Type) := WaitReady (events : list (Z * I)) | WaitError (eintr : bool).
Arguments WaitReady {I} _.
Arguments WaitError {I} _.

Section run.
Context {W K I : Type} (loop_of : W -> Loop K) (call : K -> I -> W -> W).

(** One event: the handler is looked up when its turn comes, and copied. *)
Definition dispatch_event (w : W) (ev : Z * I) : W :=
  match l_handlers (loop_of w) !! fst ev with
  | Some h => call h (snd ev) w
  | None => w
  end.

(** [Loop::run_once] *)
Definition run_once (r : EpollWait I) (w : W) : bool * W :=
  match r with
  | WaitError eintr => (eintr, w)
  | WaitReady events => (true, foldl dispatch_event w events)
  end.

(** The loop of a main function: rounds until a signal has set [g_stop] (the list
    ends) or [run_once] reports a fatal error; [after] is the rest of the body. *)
Inductive LoopEnd := Signalled | Fatal.

Fixpoint main_loop {P} (after : P -> W -> W) (rounds : list (EpollWait I * P)) (w : W) : LoopEnd * W :=
  match rounds with
  | [] => (Signalled, w)
  | (r, p) :: rest =>
      let '(ok, w) := run_once r w in
      if negb ok then (Fatal, w) else main_loop after rest (after p w)
  end.

(** ** Invariants of the process

    What holds at the start and is kept, at a bounded cost, by every handler that the
    loop may call and by the rest of the body, holds throughout. *)

Section invariant.
Context {P : Type} (after : P -> W -> W) (Inv : nat -> W -> Prop) (cost : I -> nat) (cost_after : P -> nat).
Hypothesis call_inv : forall n fd h i w,
  Inv (cost i + n) w -> l_handlers (loop_of w) !! fd = Some h -> Inv n (call h i w).
Hypothesis after_inv : forall n p w, Inv (cost_after p + n) w -> Inv n (after p w).
Hypothesis weaken : forall m n w, (m <= n)%nat -> Inv n w -> Inv m w.

Definition wait_cost (r : EpollWait I) : nat :=
  match r with WaitReady evs => sum_list ((fun ev => cost (snd ev)) <$> evs) | WaitError _ => 0%nat end.
Definition round_cost (rp : EpollWait I * P) : nat := (wait_cost (fst rp) + cost_after (snd rp))%nat.

Lemma dispatch_inv n w ev : Inv (cost (snd ev) + n) w -> Inv n (dispatch_event w ev).
Proof.
  intros H. unfold dispatch_event. destruct (l_handlers (loop_of w) !! fst ev) as [h|] eqn:E.
  - by apply (call_inv n (fst ev)).
  - apply (weaken n (cost (snd ev) + n)); [lia|done].
Qed.

Lemma dispatch_all_inv evs : forall n w,
  Inv (sum_list ((fun ev => cost (snd ev)) <$> evs) + n) w -> Inv n (foldl dispatch_event w evs).
Proof.
  induction evs as [|ev evs IH]; intros n w Hi; simpl in *; [done|].
  apply IH, dispatch_inv. by rewrite Nat.add_assoc.
Qed.

Lemma run_once_inv n r w : Inv (wait_cost r + n) w -> Inv n (snd (run_once r w)).
Proof. destruct r as [evs|b]; simpl; [apply dispatch_all_inv|done]. Qed.

Lemma main_loop_inv rounds : forall n w,
  Inv (sum_list (round_cost <$> rounds) + n) w -> Inv n (snd (main_loop after rounds w)).
Proof.
  induction rounds as [|[r p] rest IH]; intros n w Hi; simpl in *; [done|].
  unfold round_cost in Hi at 1. simpl in Hi. rewrite <- !Nat.add_assoc in Hi.
  apply run_once_inv in Hi. destruct (run_once r w) as [ok w1]. simpl in Hi. destruct ok; simpl.
  - apply IH, after_inv. done.
  - eapply weaken; [|exact Hi]. lia.
Qed.
End invariant.
End run.

(** ** Lookups after the operations *)

Lemma del_handlers {K} fd (l : Loop K) g :
  l_handlers (loop_del fd l) !! g = if decide (g = fd) then None else l_handlers l !! g.
Proof. simpl. case_decide as E; [subst; by rewrite lookup_delete_eq|by rewrite lookup_delete_ne]. Qed.

Lemma del_interest {K} fd (l : Loop K) g :
  l_interest (loop_del fd l) !! g = if decide (g = fd) then None else l_interest l !! g.
Proof. simpl. case_decide as E; [subst; by rewrite lookup_delete_eq|by rewrite lookup_delete_ne]. Qed.

Lemma mod_handlers {K} fd ev (l : Loop K) : l_handlers (snd (loop_mod fd ev l)) = l_handlers l.
Proof. unfold loop_mod. by destruct (l_interest l !! fd). Qed.

Lemma mod_interest {K} fd ev (l : Loop K) g :
  is_Some (l_interest l !! fd) ->
  l_interest (snd (loop_mod fd ev l)) !! g = if decide (g = fd) then Some ev else l_interest l !! g.
Proof.
  intros [x Hx]. unfold loop_mod. rewrite Hx. simpl.
  case_decide as E; [subst; by rewrite lookup_insert_eq|by rewrite lookup_insert_ne].
Qed.
