(* ===== verification/HttpLoop.v ===== *)
(** * HttpLoop: the HTTP server on its event loop (http.cc over loop.cc)

    The server of [Http] knows its connections by generation; here they get their
    descriptors back.  [Net] is the process as the loop sees it: the server, the loop,
    the descriptor of each connection and the descriptors that are open.  Handlers of
    the loop are [accept_ready], [conn_ready] of a connection, or the socket of another
    component (the datagram sockets of a node), whose work may answer waiting requests.
    The theorems say that the loop mirrors the connections in every run, and what
    happens to an event whose connection is closed within the batch. *)

From Stdlib Require Import ZArith Lia String.
From stdpp Require Import base tactics list numbers gmap.
From S2P Require Import Prelude Bytes Disk Text Http HttpSafety Loop.

(** ** The process *)

Inductive FdHandler := FdListen | FdConn (gen : Z) | FdOther (n : nat).

(** One descriptor off the listen queue: [set_nonblock] fails, or it becomes a
    connection if the kernel agrees to watch it. *)
Inductive Accept := AcceptBlocking (fd : Z) | Accepted (fd : Z) (kernel : bool).

(** A [Respond] that is called later, by the work of another component. *)
Record Later := mkLater { lt_gen : Z; lt_keep_alive : bool; lt_response : Response }.

(** The events of a descriptor and what the calls of its handler meet. *)
Record FdInput (A : Type) := mkInput {
  fi_events : Z;                        (* the bits epoll_wait reports *)
  fi_reads : list bytes * bool;         (* read: chunks, then end of file or EAGAIN *)
  fi_writes : list WriteIo;             (* write *)
  fi_accepts : list Accept;             (* accept *)
  fi_work : A -> A * list Later }.      (* another component's work, and what it answers *)
Arguments mkInput {A} _ _ _ _ _.
Arguments fi_events {A} _.
Arguments fi_reads {A} _.
Arguments fi_writes {A} _.
Arguments fi_accepts {A} _.
Arguments fi_work {A} _.

(** The bits as [conn_ready] tests them. *)
Definition has_bit (events mask : Z) : bool := negb (Z.land events mask =? 0).

Definition conn_events {A} (i : FdInput A) : ConnEvents :=
  mkEvents (has_bit (fi_events i) (Z.lor EPOLLERR EPOLLHUP))
    (if has_bit (fi_events i) EPOLLIN then Some (fi_reads i) else None)
    (has_bit (fi_events i) EPOLLOUT).

(** The interest [flush] leaves registered. *)
Definition conn_interest (c : Conn) : Z := if c_pollout c then Z.lor EPOLLIN EPOLLOUT else EPOLLIN.

Section net.
Context {H A : Type} (handle : H -> Z -> bool -> Request -> A -> option Response * A).

Record Net := mkNet {
  n_server : Server H A; n_loop : Loop FdHandler;
  n_fds : gmap Z Z;            (* Conn::fd, by generation *)
  n_open : gset Z;             (* descriptors of the server and the loop that are open *)
  n_listen : option Z }.       (* listen_fd_ *)

Definition set_server (s : Server H A) (n : Net) : Net :=
  mkNet s (n_loop n) (n_fds n) (n_open n) (n_listen n).

(** [loop_.del(fd); ::close(fd)] of connection [gen] *)
Definition close_fd (gen fd : Z) (n : Net) : Net :=
  mkNet (n_server n) (loop_del fd (n_loop n)) (delete gen (n_fds n)) (n_open n ∖ {[fd]}) (n_listen n).

(** The calls an operation on connection [gen] makes to the loop, given the server it
    leaves: [close_conn] removes the descriptor, [flush] sets the interest. *)
Definition settle (gen : Z) (s : Server H A) (n : Net) : Net :=
  let n := set_server s n in
  match n_fds n !! gen with
  | None => n
  | Some fd =>
      match s_conns s !! gen with
      | None => close_fd gen fd n
      | Some c =>
          mkNet (n_server n) (snd (loop_mod fd (conn_interest c) (n_loop n))) (n_fds n) (n_open n) (n_listen n)
      end
  end.

(** One round of [accept_ready].  [accept] never answers with an open descriptor. *)
Definition accept_fd (n : Net) (a : Accept) : Net :=
  match a with
  | AcceptBlocking _ => n
  | Accepted fd kernel =>
      if decide (fd ∈ n_open n) then n else
      let gen := s_next_gen (n_server n) in
      let '(added, l) := loop_add fd EPOLLIN (FdConn gen) kernel (n_loop n) in
      let s := accept_one (n_server n) added in
      if added then mkNet s l (<[gen := fd]> (n_fds n)) ({[fd]} ∪ n_open n) (n_listen n)
      else set_server s n
  end.

Definition later (n : Net) (x : Later) : Net :=
  settle (lt_gen x) (respond_later handle (lt_gen x) (lt_keep_alive x) (lt_response x) (n_server n)) n.

(** The work of another component, with the answers it gives. *)
Definition work (i : FdInput A) (n : Net) : Net :=
  let '(app, answers) := fi_work i (s_app (n_server n)) in
  foldl later (set_server (set_wio (fi_writes i) (set_app app (n_server n))) n) answers.

(** Running a handler of the loop. *)
Definition run_handler (k : FdHandler) (i : FdInput A) (n : Net) : Net :=
  match k with
  | FdListen => foldl accept_fd n (fi_accepts i)
  | FdConn gen => settle gen (conn_ready handle gen (conn_events i) (set_wio (fi_writes i) (n_server n))) n
  | FdOther _ => work i n
  end.

(** [HttpServer::listen]: the descriptor [socket] gives, and the calls on it. *)
Definition listen (sock : option Z) (pton bind lst nonblock kernel : bool) (n : Net) : bool * Net :=
  match sock with
  | None => (false, n)
  | Some fd =>
      let n := mkNet (n_server n) (n_loop n) (n_fds n) ({[fd]} ∪ n_open n) (Some fd) in
      if negb pton then (false, n) else
      if negb bind || negb lst || negb nonblock then (false, n) else
      let '(added, l) := loop_add fd EPOLLIN FdListen kernel (n_loop n) in
      (added, mkNet (n_server n) l (n_fds n) (n_open n) (n_listen n))
  end.

(** [HttpServer::~HttpServer] *)
Definition destroy (n : Net) : Net :=
  let n := foldl (fun n p => close_fd (fst p) (snd p) n) n (map_to_list (n_fds n)) in
  match n_listen n with
  | None => n
  | Some fd => mkNet (n_server n) (loop_del fd (n_loop n)) (n_fds n) (n_open n ∖ {[fd]}) (n_listen n)
  end.

(** A node before its loop: [listen], then [loop.add] of the other sockets. *)
Definition add_other (n : Net) (p : nat * Z) : Net :=
  let '(added, l) := loop_add (snd p) EPOLLIN (FdOther (fst p)) true (n_loop n) in
  mkNet (n_server n) l (n_fds n) (if added then {[snd p]} ∪ n_open n else n_open n) (n_listen n).

Definition new_net (routes : list (bytes * H)) (app : A) : Net :=
  mkNet (fresh_server routes app) new_loop ∅ ∅ None.

Definition start (routes : list (bytes * H)) (app : A) (listen_fd : Z) (others : list Z) : Net :=
  foldl add_other (snd (listen (Some listen_fd) true true true true true (new_net routes app)))
    (imap pair others).

(** ** One connection at a time

    An operation on connection [gen] leaves the others alone, does not bring a closed
    one back, and keeps EPOLLOUT registered exactly while output is waiting. *)

Implicit Types s : Server H A.

Definition watched (o : option Conn) : Prop :=
  match o with Some c => c_pollout c = true <-> c_out c <> [] | None => True end.

Definition steady (gen : Z) s : Prop := watched (s_conns s !! gen).

Definition moves (gen : Z) s s' : Prop := local gen s s' /\ (steady gen s -> steady gen s').

Lemma moves_refl gen s : moves gen s s.
Proof. done. Qed.

Lemma moves_trans gen s1 s2 s3 : moves gen s1 s2 -> moves gen s2 s3 -> moves gen s1 s3.
Proof. intros [L1 S1] [L2 S2]. split; [by eapply local_trans|auto]. Qed.

Lemma moves_log e s : moves (gen_of e) s (log e s).
Proof. split; [apply local_log|done]. Qed.

Lemma moves_put gen c c' s :
  s_conns s !! gen = Some c -> c_pollout c' = c_pollout c -> c_out c' = c_out c ->
  moves gen s (put_conn gen c' s).
Proof.
  intros E Hp Ho. split; [apply local_put|]. unfold steady. simpl. rewrite lookup_insert_eq, E. simpl.
  by rewrite Hp, Ho.
Qed.

Lemma moves_close gen s : moves gen s (close_conn gen s).
Proof.
  split; [apply local_close|]. unfold steady, close_conn.
  destruct (s_conns s !! gen) eqn:E; [|by rewrite E]. intros _. simpl. by rewrite lookup_delete_eq.
Qed.

Lemma write_all_end io out :
  let '(w, kept, d, _) := write_all io out in
  match d with DAll => kept = [] | DAgain | DFail => kept <> [] end.
Proof.
  revert out. induction io as [|[n| |] io IH]; intros [|x out]; cbn [write_all]; try done.
  specialize (IH (drop (S n `min` length (x :: out)) (x :: out))).
  by destruct (write_all io _) as [[[w kept] d] io'].
Qed.

(** [flush] leaves the connection steady whatever it was. *)
Lemma flush_steady gen s : steady gen (flush_conn gen s).
Proof.
  unfold flush_conn. destruct (s_conns s !! gen) as [c|] eqn:E; [|unfold steady; by rewrite E].
  pose proof (write_all_end (s_io s) (c_out c)) as He.
  destruct (write_all (s_io s) (c_out c)) as [[[w kept] d] io].
  set (s1 := if bool_decide (w = []) then _ else _).
  assert (Hcl : forall x, steady gen (close_conn gen (put_conn gen x s1))).
  { intros x. unfold steady, close_conn. simpl. rewrite lookup_insert_eq. simpl. by rewrite lookup_delete_eq. }
  assert (Hput : forall x, watched (Some x) -> steady gen (put_conn gen x s1)).
  { intros x Hx. unfold steady. simpl. by rewrite lookup_insert_eq. }
  destruct d; [case_match; [apply Hcl|]|..|apply Hcl]; apply Hput; simpl; [by subst kept|done].
Qed.

Lemma moves_flush gen s : moves gen s (flush_conn gen s).
Proof. split; [apply local_flush|intros _; apply flush_steady]. Qed.

Lemma moves_queue gen ka r s : moves gen s (queue_response gen ka r s).
Proof.
  split; [apply local_queue|]. intros Hs. unfold queue_response.
  destruct (s_conns s !! gen) as [c|]; [apply flush_steady|done].
Qed.

Lemma moves_send parse gen ka r s :
  (forall s, moves gen s (parse gen s)) -> moves gen s (send_response_with parse gen ka r s).
Proof.
  intros Hp. unfold send_response_with. pose proof (moves_queue gen ka r s) as Hq.
  destruct (s_conns (queue_response gen ka r s) !! gen) as [c|]; [|done].
  destruct (_ && _); [|done]. by eapply moves_trans.
Qed.

Lemma moves_parse fuel gen : forall s, moves gen s (try_parse_fuel handle fuel gen s).
Proof.
  induction fuel as [|fuel IH]; intros s; simpl; [done|].
  destruct (s_conns s !! gen) as [c|] eqn:E; [|done].
  destruct (parse_request (c_in c)) as [| |req rest ka]; [done|apply moves_close|].
  set (s1 := log (HRequest gen req) _).
  assert (M1 : moves gen s s1)
    by (eapply (moves_trans gen s (put_conn gen (set_awaiting true (set_in rest c)) s));
        [by apply (moves_put gen c)|apply (moves_log (HRequest gen req))]).
  destruct (find_route _ _) as [h|]; [|by eapply moves_trans; [exact M1|apply moves_send]].
  destruct (handle h gen ka req (s_app s)) as [[r|] app]; [|done].
  eapply moves_trans; [exact M1|]. by apply (moves_send _ gen ka r (set_app app s1)).
Qed.

Lemma moves_read gen eof chunks : forall s, moves gen s (snd (read_all gen chunks eof s)).
Proof.
  induction chunks as [|d chunks IH]; intros s; simpl.
  - destruct eof; [apply moves_close|done].
  - destruct (s_conns s !! gen) as [c|] eqn:E; [|done].
    destruct (kMaxRequestBytes <? _);
      (eapply (moves_trans gen s (put_conn gen (set_in (c_in c ++ d) c) s)); [by apply (moves_put gen c)|]);
      [apply moves_close|apply IH].
Qed.

Lemma moves_conn gen ev s : moves gen s (conn_ready handle gen ev s).
Proof.
  unfold conn_ready. destruct (s_conns s !! gen) as [c|]; [|done].
  destruct (ev_error ev); [apply moves_close|].
  set (step := match ev_in ev with None => _ | Some _ => _ end).
  assert (Hs : moves gen s (snd step)).
  { unfold step. destruct (ev_in ev) as [[chunks eof]|]; [|done].
    pose proof (moves_read gen eof chunks s) as Hr. destruct (read_all gen chunks eof s) as [go s1].
    simpl in Hr. destruct go; [|done]. simpl. destruct (s_conns s1 !! gen) as [c1|]; [|done].
    destruct (awaiting_handler c1); [done|]. eapply moves_trans; [exact Hr|apply moves_parse]. }
  destruct step as [go s1]. simpl in Hs.
  destruct (go && ev_out ev); [|done]. eapply moves_trans; [exact Hs|apply moves_flush].
Qed.

Lemma moves_later gen ka r s : moves gen s (respond_later handle gen ka r s).
Proof.
  unfold respond_later. destruct (s_conns s !! gen); [|done].
  apply moves_send. intros s'. apply moves_parse.
Qed.

(** ** The loop mirrors the connections *)

Implicit Types n : Net.

(** What a registered handler should be watched for. *)
Definition handler_interest n (k : FdHandler) : Z :=
  match k with
  | FdConn gen => match s_conns (n_server n) !! gen with Some c => conn_interest c | None => 0 end
  | FdListen | FdOther _ => EPOLLIN
  end.

(** Live connections and registered descriptors correspond one to one, each watched for
    what it needs; a connection with unsent output is watched for writability; nothing
    else is open. *)
Record mirrors n : Prop := mkMirrors {
  mi_conns : forall gen, is_Some (n_fds n !! gen) <-> is_Some (s_conns (n_server n) !! gen);
  mi_handler : forall gen fd, n_fds n !! gen = Some fd <-> l_handlers (n_loop n) !! fd = Some (FdConn gen);
  mi_interest : forall fd, l_interest (n_loop n) !! fd = handler_interest n <$> l_handlers (n_loop n) !! fd;
  mi_open : forall fd, fd ∈ n_open n <-> is_Some (l_handlers (n_loop n) !! fd);
  mi_listen : forall fd, n_listen n = Some fd <-> l_handlers (n_loop n) !! fd = Some FdListen;
  mi_steady : forall gen, steady gen (n_server n) }.

(** With room for [k] more connections. *)
Definition net_ok (k : nat) n : Prop :=
  mirrors n /\ 1 <= s_next_gen (n_server n) /\ s_next_gen (n_server n) + Z.of_nat k < 2 ^ 64 /\
  forall gen, s_next_gen (n_server n) <= gen -> s_conns (n_server n) !! gen = None.

Lemma handler_eq n fd : mirrors n -> forall g1 g2, n_fds n !! g1 = Some fd -> n_fds n !! g2 = Some fd -> g1 = g2.
Proof. intros M g1 g2 H1%(mi_handler n M) H2%(mi_handler n M). congruence. Qed.

Lemma settle_closed gen fd s n :
  mirrors n -> moves gen (n_server n) s -> n_fds n !! gen = Some fd -> s_conns s !! gen = None ->
  mirrors (close_fd gen fd (set_server s n)).
Proof.
  intros M [[En Hl] Hs] Hfd Hc. pose proof (mi_handler n M) as Hh.
  assert (Hother : forall g, g <> gen -> n_fds n !! g <> Some fd)
    by (intros g Hg Hx; apply Hg; by eapply handler_eq).
  split.
  - intros g. simpl. destruct (decide (g = gen)) as [->|Hne].
    + rewrite lookup_delete_eq, Hc. split; by intros [].
    + rewrite lookup_delete_ne by done. rewrite (mi_conns n M), (proj1 (Hl g Hne)). done.
  - intros g f. unfold close_fd. cbn [n_fds n_loop set_server]. rewrite del_handlers.
    destruct (decide (g = gen)) as [->|Hne].
    + rewrite lookup_delete_eq. split; [done|]. case_decide as Ef; [done|]. rewrite <- Hh. congruence.
    + rewrite lookup_delete_ne by done. case_decide as Ef; [|apply Hh].
      subst f. split; [intros Hx; by destruct (Hother g Hne)|done].
  - intros f. unfold close_fd. cbn [n_loop set_server n_server]. rewrite del_handlers, del_interest.
    case_decide as Ef; [done|]. rewrite (mi_interest n M).
    destruct (l_handlers (n_loop n) !! f) as [[|g|]|] eqn:Ek; try done. simpl. f_equal.
    assert (g <> gen) by (intros ->; apply Hh in Ek; congruence). by rewrite (proj1 (Hl g ltac:(done))).
  - intros f. unfold close_fd. cbn [n_loop set_server n_open]. rewrite del_handlers.
    rewrite elem_of_difference, elem_of_singleton, (mi_open n M). case_decide; [|tauto].
    split; [tauto|by intros []].
  - intros f. unfold close_fd. cbn [n_loop set_server n_listen]. rewrite del_handlers, (mi_listen n M).
    case_decide as Ef; [|done]. subst f. apply Hh in Hfd. rewrite Hfd. done.
  - intros g. unfold steady. simpl. destruct (decide (g = gen)) as [->|Hne].
    + apply Hs, (mi_steady n M).
    + rewrite (proj1 (Hl g Hne)). apply (mi_steady n M).
Qed.

Lemma settle_live gen fd c s n :
  mirrors n -> moves gen (n_server n) s -> n_fds n !! gen = Some fd -> s_conns s !! gen = Some c ->
  mirrors (mkNet s (snd (loop_mod fd (conn_interest c) (n_loop n))) (n_fds n) (n_open n) (n_listen n)).
Proof.
  intros M [[En Hl] Hs] Hfd Hc. pose proof (mi_handler n M) as Hh.
  split; cbn [n_server n_loop n_fds n_open n_listen]; rewrite ?mod_handlers;
    [|done| |apply (mi_open n M)|apply (mi_listen n M)|].
  - intros g. destruct (decide (g = gen)) as [->|Hne]; [rewrite Hfd, Hc; split; by eexists|].
    by rewrite (mi_conns n M), (proj1 (Hl g Hne)).
  - intros f. rewrite mod_interest.
    2:{ rewrite (mi_interest n M). apply Hh in Hfd. rewrite Hfd. by eexists. }
    case_decide as Ef; [subst f; apply Hh in Hfd; rewrite Hfd; simpl; by rewrite Hc|].
    rewrite (mi_interest n M). destruct (l_handlers (n_loop n) !! f) as [[|g|]|] eqn:Ek; try done.
    simpl. f_equal. apply Hh in Ek. assert (g <> gen) by congruence.
    by rewrite (proj1 (Hl g ltac:(done))).
  - intros g. unfold steady. simpl. destruct (decide (g = gen)) as [->|Hne].
    + apply Hs, (mi_steady n M).
    + rewrite (proj1 (Hl g Hne)). apply (mi_steady n M).
Qed.

Lemma mirrors_conns s n : s_conns s = s_conns (n_server n) -> mirrors n -> mirrors (set_server s n).
Proof.
  intros E [M1 M2 M3 M4 M5 M6]. split; simpl; try done.
  - intros gen. by rewrite E.
  - intros fd. rewrite M3. destruct (l_handlers (n_loop n) !! fd) as [[|g|]|]; try done. simpl. by rewrite E.
  - intros gen. unfold steady. rewrite E. apply M6.
Qed.

Lemma settle_ok k gen s n :
  net_ok k n -> moves gen (n_server n) s ->
  (s_conns (n_server n) !! gen = None -> s_conns s = s_conns (n_server n)) -> net_ok k (settle gen s n).
Proof.
  intros (M & H1 & H2 & H3) Hm Hnone. pose proof (proj1 (proj1 Hm)) as En.
  assert (Hser : n_server (settle gen s n) = s) by (unfold settle; simpl; repeat case_match; done).
  split; [|rewrite Hser, En; split_and!; [done..|]].
  - unfold settle. cbn [set_server n_fds n_server n_loop n_open n_listen].
    destruct (n_fds n !! gen) as [fd|] eqn:Ef.
    + destruct (s_conns s !! gen) as [c|] eqn:Ec; [by apply (settle_live gen)|by apply settle_closed].
    + apply mirrors_conns; [|done]. apply Hnone, eq_None_not_Some. rewrite <- (mi_conns n M), Ef. by intros [].
  - intros g Hg. destruct (decide (g = gen)) as [->|Hne].
    + rewrite Hnone by auto. auto.
    + rewrite (proj1 (proj2 (proj1 Hm) g Hne)). auto.
Qed.

Lemma accept_mirrors fd n :
  mirrors n -> (fd ∉ n_open n) -> n_fds n !! s_next_gen (n_server n) = None ->
  mirrors (mkNet (accept_one (n_server n) true)
             (mkLoop (<[fd := EPOLLIN]> (l_interest (n_loop n)))
                     (<[fd := FdConn (s_next_gen (n_server n))]> (l_handlers (n_loop n))))
             (<[s_next_gen (n_server n) := fd]> (n_fds n)) ({[fd]} ∪ n_open n) (n_listen n)).
Proof.
  intros M Hfd Hg. set (gen := s_next_gen (n_server n)) in *. pose proof (mi_handler n M) as Hh.
  assert (Hk : l_handlers (n_loop n) !! fd = None) by (apply eq_None_not_Some; by rewrite <- (mi_open n M)).
  split; unfold accept_one; cbn [n_server n_loop n_fds n_open n_listen l_handlers l_interest].
  - intros g. simpl. fold gen. destruct (decide (g = gen)) as [->|Hne].
    + rewrite !lookup_insert_eq. split; by eexists.
    + rewrite !lookup_insert_ne by done. apply (mi_conns n M).
  - intros g f. destruct (decide (g = gen)) as [->|Hne], (decide (f = fd)) as [->|Hf];
      rewrite ?lookup_insert_eq, ?(lookup_insert_ne (n_fds n)), ?(lookup_insert_ne (l_handlers _)) by done.
    + done.
    + rewrite <- Hh, Hg. split; [by intros [= ->]|done].
    + rewrite Hh, Hk. split; [done|by intros [= ->]].
    + apply Hh.
  - intros f. destruct (decide (f = fd)) as [->|Hf].
    + rewrite !lookup_insert_eq. simpl. fold gen. by rewrite lookup_insert_eq.
    + rewrite !lookup_insert_ne by done. rewrite (mi_interest n M).
      destruct (l_handlers (n_loop n) !! f) as [[|g|]|] eqn:Ek; try done. simpl. fold gen.
      rewrite lookup_insert_ne; [done|]. intros <-. apply Hh in Ek. congruence.
  - intros f. rewrite elem_of_union, elem_of_singleton, (mi_open n M).
    destruct (decide (f = fd)) as [->|Hf]; [rewrite lookup_insert_eq|rewrite lookup_insert_ne by done; naive_solver].
    split; [by eexists|by left].
  - intros f. rewrite (mi_listen n M). destruct (decide (f = fd)) as [->|Hf].
    + by rewrite lookup_insert_eq, Hk.
    + by rewrite lookup_insert_ne.
  - intros g. unfold steady. simpl. fold gen. destruct (decide (g = gen)) as [->|Hne].
    + by rewrite lookup_insert_eq.
    + rewrite lookup_insert_ne by done. apply (mi_steady n M).
Qed.

Lemma accept_fd_ok k a n : net_ok (S k) n -> net_ok k (accept_fd n a).
Proof.
  intros (M & H1 & H2 & H3). assert (Hk : net_ok k n) by (split_and!; [done|done|lia|done]).
  destruct a as [fd|fd kernel]; [done|]. simpl. case_decide as Hfd; [done|].
  assert (Hw : u64 (s_next_gen (n_server n) + 1) = s_next_gen (n_server n) + 1)
    by (apply wrap_id; unfold fits; lia).
  assert (Hg : forall b gen, s_next_gen (accept_one (n_server n) b) <= gen ->
    s_conns (accept_one (n_server n) b) !! gen = None).
  { intros [] gen; simpl; rewrite Hw; intros Hle; [rewrite lookup_insert_ne by lia|]; apply H3; lia. }
  assert (Hn : forall b, s_next_gen (accept_one (n_server n) b) = s_next_gen (n_server n) + 1)
    by (intros []; simpl; by rewrite Hw).
  unfold loop_add. destruct (_ || _); cbn [set_server].
  - split; [by apply mirrors_conns|]. cbn [n_server set_server]. rewrite !Hn. split_and!; [lia..|].
    intros g Hle. apply (Hg false). rewrite Hn. lia.
  - split; [apply accept_mirrors; [done|done|]|].
    + apply eq_None_not_Some. rewrite (mi_conns n M), H3 by lia. by intros [].
    + cbn [n_server set_server]. rewrite !Hn. split_and!; [lia..|]. intros g Hle. apply (Hg true). rewrite Hn. lia.
Qed.

Lemma accepts_fd_ok l : forall k n, net_ok (length l + k) n -> net_ok k (foldl accept_fd n l).
Proof. induction l as [|a l IH]; intros k n Hn; [done|]. simpl in *. by apply IH, accept_fd_ok. Qed.

Lemma later_ok k n x : net_ok k n -> net_ok k (later n x).
Proof.
  intros Hn. apply settle_ok; [done|apply moves_later|]. intros Hc. unfold respond_later. by rewrite Hc.
Qed.

Lemma work_ok k i n : net_ok k n -> net_ok k (work i n).
Proof.
  intros Hn. unfold work. destruct (fi_work i _) as [app answers]. set (n1 := set_server _ n).
  assert (H1 : net_ok k n1) by (destruct Hn as (M & ? & ? & ?); split; [by apply mirrors_conns|done]).
  clearbody n1. revert n1 H1. induction answers as [|x l IH]; intros n1 H1; [done|].
  simpl. by apply IH, later_ok.
Qed.

(** What a call may use up of the generations. *)
Definition accept_cost (i : FdInput A) : nat := length (fi_accepts i).

Lemma net_ok_weaken m k n : (m <= k)%nat -> net_ok k n -> net_ok m n.
Proof. intros Hle (M & ? & ? & ?). split_and!; [done|done|lia|done]. Qed.

Lemma call_ok k fd h i n :
  net_ok (accept_cost i + k) n -> l_handlers (n_loop n) !! fd = Some h -> net_ok k (run_handler h i n).
Proof.
  intros Hn _. destruct h as [|gen|m]; simpl.
  - by apply accepts_fd_ok.
  - apply (net_ok_weaken k) in Hn; [|lia].
    apply settle_ok; [done|apply (moves_conn gen (conn_events i) (set_wio (fi_writes i) (n_server n)))|].
    intros Hc. unfold conn_ready. simpl. by rewrite Hc.
  - apply work_ok. by eapply net_ok_weaken; [|exact Hn]; lia.
Qed.

Lemma add_other_ok k n p : net_ok k n -> net_ok k (add_other n p).
Proof.
  intros (M & Hr). destruct p as [m fd]. unfold add_other, loop_add. simpl.
  case_bool_decide as Hi; [by split; [destruct n|]|]. split; [|exact Hr].
  assert (Hk : l_handlers (n_loop n) !! fd = None).
  { rewrite (mi_interest n M) in Hi. destruct (_ !! fd); [|done]. destruct Hi. by eexists. }
  split; cbn [n_server n_loop n_fds n_open n_listen l_handlers l_interest];
    [apply (mi_conns n M)| | | | |apply (mi_steady n M)].
  - intros g f. rewrite (mi_handler n M). destruct (decide (f = fd)) as [->|Hf];
      [by rewrite lookup_insert_eq, Hk|by rewrite lookup_insert_ne].
  - intros f. destruct (decide (f = fd)) as [->|Hf]; [by rewrite !lookup_insert_eq|].
    rewrite !lookup_insert_ne by done. apply (mi_interest n M).
  - intros f. rewrite elem_of_union, elem_of_singleton, (mi_open n M).
    destruct (decide (f = fd)) as [->|Hf]; [rewrite lookup_insert_eq|rewrite lookup_insert_ne by done; naive_solver].
    split; [by eexists|by left].
  - intros f. rewrite (mi_listen n M). destruct (decide (f = fd)) as [->|Hf];
      [by rewrite lookup_insert_eq, Hk|by rewrite lookup_insert_ne].
Qed.

Lemma start_ok k routes app fd others : Z.of_nat k < 2 ^ 64 - 1 -> net_ok k (start routes app fd others).
Proof.
  intros Hk. unfold start. generalize (imap pair others). intros l.
  assert (H0 : net_ok k (snd (listen (Some fd) true true true true true (new_net routes app)))).
  { unfold listen, loop_add. simpl. rewrite lookup_empty. simpl.
    split; [|simpl; split_and!; [lia|lia|done]].
    split; cbn [n_server n_loop n_fds n_open n_listen l_handlers l_interest new_net new_loop fresh_server s_conns snd].
    - intros g. rewrite !lookup_empty. done.
    - intros g f. rewrite lookup_empty. rewrite lookup_insert. case_decide; [done|by rewrite lookup_empty].
    - intros f. rewrite !lookup_insert. case_decide; [done|by rewrite !lookup_empty].
    - intros f. rewrite lookup_insert, lookup_empty. case_decide as E; [subst; split; [by eexists|set_solver]|].
      split; [set_solver|by intros []].
    - intros f. rewrite lookup_insert, lookup_empty. case_decide as E; [by subst|]. split; [congruence|done].
    - intros g. unfold steady. simpl. by rewrite lookup_empty. }
  revert H0. generalize (snd (listen (Some fd) true true true true true (new_net routes app))).
  induction l as [|p l IH]; intros n Hn; [done|]. simpl. by apply IH, add_other_ok.
Qed.

(** ** Who an event may reach *)

(** Since [n], handlers have only been removed, except for connections accepted since. *)
Definition since n n' : Prop :=
  s_next_gen (n_server n) <= s_next_gen (n_server n') /\
  forall fd k, l_handlers (n_loop n') !! fd = Some k ->
    l_handlers (n_loop n) !! fd = Some k \/ exists gen, k = FdConn gen /\ s_next_gen (n_server n) <= gen.

Lemma since_refl n : since n n.
Proof. split; [done|auto]. Qed.

Lemma since_trans n1 n2 n3 : since n1 n2 -> since n2 n3 -> since n1 n3.
Proof.
  intros [L1 H1] [L2 H2]. split; [lia|]. intros fd k Hk.
  destruct (H2 fd k Hk) as [Hk2|(gen & -> & Hg)]; [auto|]. right. exists gen. split; [done|lia].
Qed.

Lemma since_settle gen s n : moves gen (n_server n) s -> since n (settle gen s n).
Proof.
  intros [[En _] _]. unfold settle. simpl. destruct (n_fds n !! gen) as [fd|]; [|split; [simpl; lia|auto]].
  destruct (s_conns s !! gen) as [c|]; (split; [simpl; lia|]); intros f k; cbn [n_loop close_fd set_server].
  - rewrite mod_handlers. auto.
  - rewrite del_handlers. case_decide; [done|auto].
Qed.

Lemma since_accept k n a : net_ok (S k) n -> since n (accept_fd n a).
Proof.
  intros (M & H1 & H2 & H3). destruct a as [fd|fd kernel]; [apply since_refl|]. simpl.
  case_decide as Hfd; [apply since_refl|].
  assert (Hw : u64 (s_next_gen (n_server n) + 1) = s_next_gen (n_server n) + 1)
    by (apply wrap_id; unfold fits; lia).
  unfold loop_add. destruct (_ || _); cbn [set_server].
  - split; [simpl; rewrite Hw; lia|auto].
  - split; [simpl; rewrite Hw; lia|]. intros f h. cbn [n_loop l_handlers]. rewrite lookup_insert.
    case_decide; [|auto]. intros [= <-]. right. eexists. split; [done|lia].
Qed.

Lemma since_call k fd h i n :
  net_ok (accept_cost i + k) n -> l_handlers (n_loop n) !! fd = Some h -> since n (run_handler h i n).
Proof.
  intros Hn _. destruct h as [|gen|m]; simpl.
  - unfold accept_cost in Hn. revert n Hn. induction (fi_accepts i) as [|a l IH]; intros n Hn; [apply since_refl|].
    simpl in *. eapply since_trans; [by eapply since_accept|]. by apply IH, accept_fd_ok.
  - apply since_settle. apply (moves_conn gen (conn_events i) (set_wio (fi_writes i) (n_server n))).
  - unfold work. destruct (fi_work i _) as [app answers]. set (n1 := set_server _ n). assert (H1 : since n n1) by (split; [done|auto]).
    clearbody n1. revert n1 H1. induction answers as [|x l IH]; intros n1 H1; [done|].
    simpl. apply IH. eapply since_trans; [exact H1|]. apply since_settle, moves_later.
Qed.

Lemma since_dispatch evs : forall k n,
  net_ok (sum_list ((fun ev => accept_cost (snd ev)) <$> evs) + k) n ->
  since n (foldl (dispatch_event n_loop run_handler) n evs).
Proof.
  induction evs as [|ev evs IH]; intros k n Hn; simpl in *; [apply since_refl|].
  rewrite <- Nat.add_assoc in Hn.
  assert (Hd : net_ok (sum_list ((fun ev => accept_cost (snd ev)) <$> evs) + k) (dispatch_event n_loop run_handler n ev))
    by (apply (dispatch_inv n_loop run_handler net_ok accept_cost); eauto using call_ok, net_ok_weaken).
  eapply since_trans; [|by eapply IH].
  unfold dispatch_event. destruct (l_handlers (n_loop n) !! fst ev) as [h|] eqn:E; [|apply since_refl].
  by eapply since_call.
Qed.

(** ** The destructor *)

Lemma close_all_loop l : forall n fd,
  let n' := foldl (fun n p => close_fd (fst p) (snd p) n) n l in
  l_handlers (n_loop n') !! fd = (if decide (fd ∈ l.*2) then None else l_handlers (n_loop n) !! fd) /\
  (fd ∈ n_open n' <-> fd ∈ n_open n /\ (fd ∉ l.*2)) /\ n_listen n' = n_listen n.
Proof.
  induction l as [|[g f] l IH]; intros n fd; cbv zeta; simpl foldl.
  - rewrite decide_False by set_solver. set_solver.
  - destruct (IH (close_fd g f n) fd) as (E1 & E2 & E3). rewrite E1, E2, E3. clear IH E1 E2 E3.
    unfold close_fd. cbn [n_loop n_open n_listen]. rewrite del_handlers, fmap_cons. cbn [snd fst].
    rewrite elem_of_difference, elem_of_singleton.
    split_and!; [|set_solver|done]. repeat case_decide; set_solver.
Qed.

Lemma destroy_ok n :
  mirrors n -> forall fd,
    l_handlers (n_loop (destroy n)) !! fd =
      (match l_handlers (n_loop n) !! fd with Some (FdOther m) => Some (FdOther m) | _ => None end) /\
    (fd ∈ n_open (destroy n) <-> is_Some (l_handlers (n_loop (destroy n)) !! fd)).
Proof.
  intros M fd. unfold destroy.
  destruct (close_all_loop (map_to_list (n_fds n)) n fd) as (E1 & E2 & E3).
  set (n1 := foldl _ n _) in *.
  assert (Hin : fd ∈ (map_to_list (n_fds n)).*2 <-> exists gen, l_handlers (n_loop n) !! fd = Some (FdConn gen)).
  { rewrite list_elem_of_fmap. split.
    - intros ([gen f] & -> & Hi%elem_of_map_to_list). exists gen. by apply (mi_handler n M).
    - intros [gen Hk%(mi_handler n M)]. exists (gen, fd). split; [done|by apply elem_of_map_to_list]. }
  pose proof (mi_open n M fd) as Ho. pose proof (mi_listen n M fd) as Hl. rewrite E3.
  destruct (decide (fd ∈ (map_to_list (n_fds n)).*2)) as [Hi|Hi]; rewrite Hin in Hi.
  - destruct Hi as [gen Hk]. rewrite Hk in *.
    assert (Hno : ~ (fd ∈ n_open n1)) by (rewrite E2, Hin; naive_solver).
    destruct (n_listen n) as [lf|]; cbn [n_loop n_open]; rewrite ?del_handlers, E1;
      repeat case_decide; (split; [done|]); (split; [set_solver|by intros []]).
  - assert (Hop : fd ∈ n_open n1 <-> is_Some (l_handlers (n_loop n) !! fd)) by (rewrite E2, Hin, Ho; tauto).
    destruct (n_listen n) as [lf|]; cbn [n_loop n_open];
      rewrite ?del_handlers, ?elem_of_difference, ?elem_of_singleton, E1, Hop;
      destruct (l_handlers (n_loop n) !! fd) as [[|g|m]|] eqn:Ek; try case_decide;
      try (destruct Hi; by eexists); unfold is_Some; naive_solver.
Qed.
End net.

Arguments Net : clear implicits.

(** ** Properties *)

(** The main loop of a node or a sink: batches of events, and [poll] and [tick] of the
    other components after each. *)
Definition serve {H A} (handle : H -> Z -> bool -> Request -> A -> option Response * A)
    (rounds : list (EpollWait (FdInput A) * FdInput A)) (n : Net H A) : LoopEnd * Net H A :=
  main_loop n_loop (run_handler handle) (work handle) rounds n.

(** Connections accepted in a run, at most. *)
Definition serve_cost {A} (rounds : list (EpollWait (FdInput A) * FdInput A)) : nat :=
  sum_list (round_cost accept_cost (fun _ => 0%nat) <$> rounds).

Lemma serve_ok {H A} (handle : H -> Z -> bool -> Request -> A -> option Response * A) rounds n k :
  net_ok (serve_cost rounds + k) n -> net_ok k (snd (serve handle rounds n)).
Proof.
  apply (main_loop_inv n_loop (run_handler handle) (work handle) net_ok accept_cost (fun _ => 0%nat));
    eauto using call_ok, work_ok, net_ok_weaken.
Qed.

(** C19: the loop mirrors the connections.  After any batches of events, accepts, reads,
    partial and failing writes, interrupted waits and late answers, every live
    connection has one open descriptor, registered with its own handler, watched for
    input, and for output exactly while bytes are waiting to be sent; no descriptor is
    registered or left open for a connection that is gone; and when the server is
    destroyed, only the other components' descriptors remain. *)
Theorem loop_mirrors_connections {H A} (handle : H -> Z -> bool -> Request -> A -> option Response * A)
  routes app listen_fd others rounds :
  Z.of_nat (serve_cost rounds) < 2 ^ 64 - 1 ->
  let n := snd (serve handle rounds (start routes app listen_fd others)) in
  mirrors n /\
  (forall gen c, s_conns (n_server n) !! gen = Some c ->
     exists fd, l_handlers (n_loop n) !! fd = Some (FdConn gen) /\ fd ∈ n_open n /\
       l_interest (n_loop n) !! fd =
         Some (if bool_decide (c_out c = []) then EPOLLIN else Z.lor EPOLLIN EPOLLOUT)) /\
  (forall fd, fd ∈ n_open (destroy n) <-> exists m, l_handlers (n_loop n) !! fd = Some (FdOther m)).
Proof.
  intros Hc n.
  assert (M : mirrors n) by (eapply (serve_ok handle rounds _ 0), start_ok; lia).
  split_and!; [done| |].
  - intros gen c E. destruct (proj2 (mi_conns n M gen)) as [fd Hfd]; [by eexists|].
    apply (mi_handler n M) in Hfd as Hk. exists fd. split_and!; [done|apply (mi_open n M); by eexists|].
    rewrite (mi_interest n M), Hk. simpl. rewrite E. f_equal. unfold conn_interest.
    pose proof (mi_steady n M gen) as Hs. unfold steady in Hs. rewrite E in Hs. simpl in Hs.
    case_bool_decide; destruct (c_pollout c); naive_solver.
  - intros fd. destruct (destroy_ok n M fd) as [Ek ->]. rewrite Ek.
    destruct (l_handlers (n_loop n) !! fd) as [[]|]; unfold is_Some; naive_solver.
Qed.

(** An event reported for a descriptor is handled by the handler registered when
    [epoll_wait] returned, or by none, or by a connection accepted since in the same
    batch on the same number. *)
Theorem event_reaches_owner_or_newcomer {H A} (handle : H -> Z -> bool -> Request -> A -> option Response * A)
  routes app listen_fd others rounds before fd k :
  Z.of_nat (serve_cost rounds + sum_list ((fun ev => accept_cost (snd ev)) <$> before)) < 2 ^ 64 - 1 ->
  let n := snd (serve handle rounds (start routes app listen_fd others)) in
  l_handlers (n_loop (foldl (dispatch_event n_loop (run_handler handle)) n before)) !! fd = Some k ->
  l_handlers (n_loop n) !! fd = Some k \/
  exists gen, k = FdConn gen /\ s_next_gen (n_server n) <= gen.
Proof.
  intros Hc n Hk.
  assert (Hn : net_ok (sum_list ((fun ev => accept_cost (snd ev)) <$> before) + 0) n)
    by (apply serve_ok, start_ok; lia).
  by apply (proj2 (since_dispatch handle before 0 n Hn)).
Qed.

(** ** An execution *)
Module LoopSample.
(** A handler that answers later. *)
Definition park (h : unit) (gen : Z) (keep_alive : bool) (req : Request) (a : unit) : option Response * unit :=
  (None, a).
Definition n0 : Net unit unit := start [(lit "POST /v1/lease", tt)] tt 5 [3; 4].
Definition idle_work (a : unit) : unit * list Later := (a, []).
Definition blank : FdInput unit := mkInput 0 ([], false) [] [] idle_work.
Definition incoming (fds : list Z) : FdInput unit :=
  mkInput EPOLLIN ([], false) [] ((fun fd => Accepted fd true) <$> fds) idle_work.
Definition request : bytes := lit "POST /v1/lease?worker=1 HTTP/1.1" ++ crlf ++ crlf.
Definition data (b : bytes) : FdInput unit := mkInput EPOLLIN ([b], false) [] [] idle_work.
(** A client connects on descriptor 7 and asks for a lease. *)
Definition first_rounds : list (EpollWait (FdInput unit) * FdInput unit) :=
  [(WaitReady [(5, incoming [7])], blank); (WaitError true, blank); (WaitReady [(7, data request)], blank)].
Definition waiting : Net unit unit := snd (serve park first_rounds n0).
(** The client resets its connection while the answer is being made: the answer's write
    fails, another client is accepted on the freed number, and then the reset is
    reported. *)
Definition answer : FdInput unit :=
  mkInput EPOLLIN ([], false) [WFail] [] (fun a => (a, [mkLater 1 true (mkResponse 204 (lit "text/plain") [] [])])).
Definition reset : FdInput unit := mkInput (Z.lor EPOLLIN EPOLLHUP) ([], false) [] [] idle_work.
Definition batch : list (Z * FdInput unit) := [(3, answer); (5, incoming [7]); (7, reset)].
End LoopSample.

(** An event of a closed connection ends a new one.  In one batch, an answer closes a
    connection whose client has gone, a new client is accepted on the same descriptor
    number, and the hang-up of the old connection, reported by the same [epoll_wait],
    closes the connection of the new client, which has done nothing. *)
Theorem stale_event_closes_new_connection :
  n_fds LoopSample.waiting !! 1 = Some 7 /\
  (let n := foldl (dispatch_event n_loop (run_handler LoopSample.park)) LoopSample.waiting (take 2 LoopSample.batch) in
   n_fds n !! 1 = None /\ n_fds n !! 2 = Some 7 /\ s_conns (n_server n) !! 2 = Some new_conn) /\
  (let n := snd (run_once n_loop (run_handler LoopSample.park) (WaitReady LoopSample.batch) LoopSample.waiting) in
   s_conns (n_server n) !! 2 = None /\ mine 2 (s_log (n_server n)) = [HClose 2]).
Proof. vm_compute. repeat split; reflexivity. Qed.

Lemma loop_mirrors_connections_witness :
  exists fd, l_handlers (n_loop LoopSample.waiting) !! fd = Some (FdConn 1) /\ fd ∈ n_open LoopSample.waiting /\
    l_interest (n_loop LoopSample.waiting) !! fd = Some EPOLLIN.
Proof.
  destruct (loop_mirrors_connections LoopSample.park [(lit "POST /v1/lease", tt)] tt 5 [3; 4]
    LoopSample.first_rounds) as (_ & Hw & _); [vm_compute; reflexivity|].
  apply (Hw 1 (mkConn [] [] false true false)). vm_compute. reflexivity.
Defined.

Lemma event_reaches_owner_or_newcomer_witness :
  l_handlers (n_loop LoopSample.waiting) !! 7 = Some (FdConn 2) \/
  exists gen, FdConn 2 = FdConn gen /\ s_next_gen (n_server LoopSample.waiting) <= gen.
Proof.
  apply (event_reaches_owner_or_newcomer LoopSample.park [(lit "POST /v1/lease", tt)] tt 5 [3; 4]
    LoopSample.first_rounds (take 2 LoopSample.batch) 7 (FdConn 2)); vm_compute; reflexivity.
Defined.
