(* ===== verification/Worker.v ===== *)
(** * Worker: tautq-worker, and its deliveries to tautq-sink

    The loop of src/src/worker_main.cc: lease, one delivery, the acknowledgement with
    its retries.  The second half runs deliveries over HTTP against the handler of
    src/src/sink_main.cc, with requests and answers that may be lost on the way, and
    compares what the worker reports with what the history checker counts. *)

From Stdlib Require Import ZArith Lia String.
From stdpp Require Import base tactics list numbers gmap.
From S2P Require Import Prelude Bytes Disk Text Verify Http HttpClient HttpFraming Sink Args.

(** ** The loop *)

(** What the worker does, in order. *)
Inductive WorkerAct :=
  | Fetch (method url : bytes) (headers : list (bytes * bytes)) (body : bytes) (timeout_ms : Z)
  | Sleep (ms : Z).

(** What one round meets: the answers to its requests, and for each attempt to
    acknowledge whether a signal has come before it. *)
Record RoundEnv := mkRound {
  re_lease : HttpResponse; re_delivery : HttpResponse; re_acks : list (bool * HttpResponse) }.

(** The attempts to acknowledge. *)
Fixpoint ack_attempts (attempts : nat) (url : bytes) (acks : list (bool * HttpResponse)) : list WorkerAct :=
  match attempts, acks with
  | S attempts', (g_stop, ack) :: acks' =>
      if g_stop then [] else
      Fetch (lit "POST") url [] [] 2000 ::
      (if negb (hr_code ack =? 0) && negb (hr_code ack =? 503) then []
       else Sleep 200 :: ack_attempts attempts' url acks')
  | _, _ => []
  end.

(** One round of [while (g_stop == 0)]. *)
Definition worker_round (a : WorkerArgs) (env : RoundEnv) : list WorkerAct :=
  Fetch (lit "POST") (lease_url (wa_node a) (wa_worker_id a)) [] [] 2000 ::
  match worker_lease (re_lease env) with
  | None => if negb (hr_code (re_lease env) =? 200) then [Sleep (wa_poll_ms a)] else []
  | Some l =>
      Fetch (lit "POST") (wl_url l) (delivery_headers l) (wl_body l) (wa_deliver_timeout_ms a) ::
      ack_attempts kAckAttempts (ack_url (wa_node a) l (delivered (re_delivery env))) (re_acks env)
  end.

(** [main]: rounds until a signal, or exit code 2 for an unknown option. *)
Definition worker_main (args : list bytes) (rounds : list RoundEnv) : Z * list WorkerAct :=
  match parse_args worker_opt args worker_defaults with
  | Args a => (0, mjoin (worker_round a <$> rounds))
  | UnknownArg _ | ArgThrow => (2, [])
  end.

(** ** Deliveries to the sink *)

Inductive SinkRoute := SinkHealth | SinkPost.

(** The routes of the sink, as [HttpServer::route] sorts them. *)
Definition sink_routes : list (bytes * SinkRoute) :=
  s_routes (route (lit "POST") (lit "/") SinkPost
              (route (lit "GET") (lit "/healthz") SinkHealth (new_server tt))).

(** What the handlers answer, and the receipt file they leave. *)
Definition sink_handle (rt : SinkRoute) (failed : bool) (ms : Z) (r : Request) (out : bytes) : Response * bytes :=
  match rt with
  | SinkHealth => (mkResponse 200 (lit "text/plain") (lit "ok" ++ [lf]) [], out)
  | SinkPost => sink_post failed ms r out
  end.

(** The sink's end of a connection: a request is parsed, routed and answered. *)
Definition sink_serve (failed : bool) (ms : Z) (req out : bytes) : option bytes * bytes :=
  match parse_request req with
  | Parsed r _ keep_alive =>
      match find_route (rq_method r ++ lit " " ++ rq_path r) sink_routes with
      | Some rt => let '(a, out) := sink_handle rt failed ms r out in (Some (response_text keep_alive a), out)
      | None => (Some (response_text keep_alive not_found), out)
      end
  | Incomplete | Reject => (None, out)
  end.

(** What becomes of a delivery: it never arrives, or it is handled (an injected failure
    or not, at a time) and its answer arrives or is lost. *)
Inductive Link := Unreached | Handled (failed : bool) (ms : Z) (answered : bool).

Definition link_net (k : Link) (out : bytes) (req : bytes) : option bytes * bytes :=
  match k with
  | Unreached => (None, out)
  | Handled failed ms answered =>
      let '(resp, out) := sink_serve failed ms req out in (if answered then resp else None, out)
  end.

(** One delivery of the worker over the link: what [http_fetch] returns, and the file. *)
Definition deliver (k : Link) (l : WorkerLease) (out : bytes) : HttpResponse * bytes :=
  let call (req : bytes) := link_net k out req in
  (http_fetch (fun _ _ req => fst (call req)) (lit "POST") (wl_url l) (delivery_headers l) (wl_body l),
   match parse_url (wl_url l) with
   | None => out
   | Some u => snd (call (request_text (lit "POST") (u_path u) (u_hostport u) (delivery_headers l) (wl_body l)))
   end).

(** Deliveries in order: for each the key and whether the worker acknowledges it as
    done, and the receipts at the end. *)
Fixpoint deliver_all (vs : list (WorkerLease * Link)) (out : bytes) : list (bytes * bool) * bytes :=
  match vs with
  | [] => ([], out)
  | (l, k) :: rest =>
      let '(resp, out) := deliver k l out in
      let '(acks, out) := deliver_all rest out in
      ((wl_key l, delivered resp) :: acks, out)
  end.

(** ** What the sink makes of a delivery *)

(** A lease whose delivery is one readable request: the url parses, nothing in the
    fields breaks a line, the key is a word, the body is within the limits. *)
Record lease_ok (l : WorkerLease) (u : Url) : Prop := {
  lo_url : parse_url (wl_url l) = Some u;
  lo_path : cr ∉ u_path u;
  lo_lf : lf ∉ fst (parse_target (u_path u));
  lo_host : cr ∉ u_hostport u;
  lo_key : word_ok (wl_key l) /\ (cr ∉ wl_key l) /\ skip_sp (wl_key l) = wl_key l;
  lo_attempt : (lf ∉ wl_attempt l) /\ (cr ∉ wl_attempt l) /\ skip_sp (wl_attempt l) = wl_attempt l;
  lo_body : Z.of_nat (length (wl_body l)) <= kMaxRequestBytes }.

(** The request the sink parses. *)
Definition sink_request (l : WorkerLease) (u : Url) : Request :=
  mkRequest (lit "POST") (fst (parse_target (u_path u))) (snd (parse_target (u_path u)))
    (foldl header_entry ∅ (request_fields (u_hostport u) (delivery_headers l) (wl_body l))) (wl_body l).

Lemma lease_sendable l u :
  lease_ok l u -> sendable (lit "POST") (u_path u) (u_hostport u) (delivery_headers l) (wl_body l).
Proof.
  intros []. split; [split; by apply (bool_decide_unpack _)|done..| |done].
  unfold delivery_headers. rewrite !Forall_cons. split_and!; [..|constructor];
    (split; [split_and!; cbn [fst snd]; [by apply (bool_decide_unpack _)|by apply (bool_decide_unpack _)|tauto]|]);
    split; by apply (bool_decide_unpack _).
Qed.

Lemma sink_header l u (k : string) v :
  (lit k = lit "idempotency-key" /\ v = skip_sp (wl_key l)) \/
  (lit k = lit "x-tautq-attempt" /\ v = skip_sp (wl_attempt l)) ->
  header_or (sink_request l u) k = v.
Proof.
  intros Hk. unfold header_or, sink_request, request_fields, delivery_headers.
  cbn [rq_headers]. rewrite foldl_app. cbn [foldl]. unfold header_entry at 1 2. cbn [fst snd].
  change (lower (lit "X-Tautq-Attempt")) with (lit "x-tautq-attempt").
  change (lower (lit "Idempotency-Key")) with (lit "idempotency-key").
  destruct Hk as [[-> ->]|[-> ->]]; [|by rewrite lookup_insert_eq].
  rewrite lookup_insert_ne by by apply (bool_decide_unpack _). by rewrite lookup_insert_eq.
Qed.

Lemma rooted_path u url : parse_url url = Some u -> exists t, u_path u = Byte.x2f :: t.
Proof.
  unfold parse_url. destruct (negb _); [done|]. intros [= <-]. cbn [u_path].
  destruct (find_sub [Byte.x2f] (drop 7 url)) as [i|] eqn:E; [|by exists []].
  destruct (find_sub_split _ _ _ E) as (r & Hr & Hl). exists r. rewrite Hr. by apply drop_app_length'.
Qed.

Lemma rooted_target t : exists t', fst (parse_target (Byte.x2f :: t)) = Byte.x2f :: t'.
Proof.
  assert (Hd : forall s, exists s', url_decode (Byte.x2f :: s) = Byte.x2f :: s').
  { intros [|h [|l s]]; eexists; reflexivity. }
  unfold parse_target. destruct (find_sub [Byte.x3f] (Byte.x2f :: t)) as [[|q]|] eqn:E.
  - cbn [find_sub] in E. destruct (starts_with [Byte.x3f] (Byte.x2f :: t)) eqn:Es; [done|].
    by destruct (find_sub _ t).
  - cbn [take fst]. apply Hd.
  - apply Hd.
Qed.

Lemma sink_route_post u url :
  parse_url url = Some u ->
  find_route (lit "POST" ++ lit " " ++ fst (parse_target (u_path u))) sink_routes = Some SinkPost.
Proof.
  intros Hu. destruct (rooted_path _ _ Hu) as [t ->]. destruct (rooted_target t) as [t' ->].
  change sink_routes with [(lit "GET /healthz", SinkHealth); (lit "POST /", SinkPost)].
  reflexivity.
Qed.

Lemma sink_serves l u failed ms out :
  lease_ok l u ->
  sink_serve failed ms (request_text (lit "POST") (u_path u) (u_hostport u) (delivery_headers l) (wl_body l)) out =
  (Some (response_text false (fst (sink_post failed ms (sink_request l u) out))),
   snd (sink_post failed ms (sink_request l u) out)).
Proof.
  intros Hl. unfold sink_serve. rewrite <- (app_nil_r (request_text _ _ _ _ _)).
  rewrite request_parses by (by apply lease_sendable). fold (sink_request l u).
  cbn [rq_method rq_path sink_request]. rewrite (sink_route_post u (wl_url l)) by apply Hl.
  cbn [sink_handle]. by destruct (sink_post _ _ _ _).
Qed.

Lemma sink_answer_read failed ms r out :
  delivered (parse_response (response_text false (fst (sink_post failed ms r out)))) = negb failed.
Proof.
  rewrite response_parses by (destruct failed; (split; [by apply (bool_decide_unpack _)|
    split; [vm_compute; lia|by apply (bool_decide_unpack _)]|constructor])).
  by destruct failed.
Qed.

(** The delivery as the sink's file records it. *)
Definition visit_delivery (l : WorkerLease) (u : Url) (k : Link) : list Delivery :=
  match k with Unreached => [] | Handled failed ms _ => [mkDelivery failed ms (sink_request l u)] end.

Definition answered_ok (k : Link) : bool :=
  match k with Handled false _ true => true | _ => false end.

Lemma deliver_spec k l u ds :
  lease_ok l u ->
  deliver k l (sink_file ds) = (fst (deliver k l (sink_file ds)), sink_file (ds ++ visit_delivery l u k)) /\
  delivered (fst (deliver k l (sink_file ds))) = answered_ok k.
Proof.
  intros Hl. unfold deliver, http_fetch. rewrite (lo_url _ _ Hl). cbn [fst].
  destruct k as [|failed ms answered]; cbn [link_net visit_delivery]; [by rewrite app_nil_r|].
  rewrite sink_serves by done. cbn [fst snd]. split.
  - f_equal. unfold sink_file. by rewrite foldl_app.
  - destruct answered; [|by destruct failed]. rewrite sink_answer_read. by destruct failed.
Qed.

Lemma visit_delivery_ok l u k : lease_ok l u -> Forall delivery_ok (visit_delivery l u k).
Proof.
  intros Hl. destruct k as [|failed ms answered]; constructor; [|constructor].
  destruct Hl as [_ _ Hlf _ (Hw & _ & Hk) (Ha & _ & Hs) _].
  split_and!; cbn [dl_request]; [|by rewrite (sink_header l u _ (skip_sp (wl_attempt l))), Hs by auto|done].
  unfold dl_key. cbn [dl_request]. by rewrite (sink_header l u _ (skip_sp (wl_key l))), Hk by auto.
Qed.

Lemma visit_accepted key l u k :
  lease_ok l u ->
  (length (filter (fun a => a = (key, true)) [(wl_key l, answered_ok k)]) <= accepted_of key (visit_delivery l u k))%nat.
Proof.
  intros Hl. rewrite filter_cons, filter_nil. destruct (decide _) as [[= E1 E2]|]; [|simpl; lia].
  destruct k as [|[] ms []]; try done. simpl. unfold accepted_of. rewrite filter_cons, filter_nil, decide_True; [done|].
  split; [done|]. unfold dl_key. cbn [dl_request].
  rewrite (sink_header l u _ (skip_sp (wl_key l))) by auto. by rewrite (proj2 (proj2 (lo_key _ _ Hl))).
Qed.

Lemma accepted_app key ds ds' : accepted_of key (ds ++ ds') = (accepted_of key ds + accepted_of key ds')%nat.
Proof. unfold accepted_of. by rewrite filter_app, length_app. Qed.

Lemma deliveries_spec key vs : forall ds acks file,
  Forall delivery_ok ds -> Forall (fun v => exists u, lease_ok (fst v) u) vs ->
  deliver_all vs (sink_file ds) = (acks, file) ->
  exists ds', file = sink_file (ds ++ ds') /\ Forall delivery_ok ds' /\
    (length (filter (fun a => a = (key, true)) acks) <= accepted_of key ds')%nat.
Proof.
  induction vs as [|[l k] vs IH]; intros ds acks file Hd Hv; cbn [deliver_all].
  - intros [= <- <-]. exists []. rewrite app_nil_r. split_and!; [done|constructor|done].
  - inversion_clear Hv as [|? ? [u Hu] Hv']. cbn [fst] in Hu.
    destruct (deliver_spec k l u ds Hu) as [E Ed]. rewrite E. rewrite Ed.
    pose proof (visit_delivery_ok l u k Hu) as Hok.
    destruct (deliver_all vs _) as [acks' file'] eqn:Er. intros [= <- <-].
    destruct (IH _ _ _ (Forall_app_2 _ _ _ Hd Hok) Hv' Er) as (ds' & -> & Hd' & Hle).
    exists (visit_delivery l u k ++ ds'). split_and!; [by rewrite app_assoc|by apply Forall_app|].
    change ((wl_key l, answered_ok k) :: acks') with ([(wl_key l, answered_ok k)] ++ acks').
    rewrite filter_app, length_app, accepted_app. pose proof (visit_accepted key l u k Hu). lia.
Qed.

(** ** Properties *)


(** The requests among the acts. *)
Definition is_fetch (x : WorkerAct) : bool := match x with Fetch _ _ _ _ _ => true | Sleep _ => false end.
Definition fetches (acts : list WorkerAct) : list WorkerAct := filter (fun x => is_fetch x = true) acts.

(** The attempts to acknowledge are one request repeated while the outcome is open. *)
Lemma ack_attempts_shape n url acks :
  exists k, (k <= n)%nat /\ fetches (ack_attempts n url acks) = replicate k (Fetch (lit "POST") url [] [] 2000) /\
    (forall i, (S i < k)%nat -> exists ack, acks !! i = Some (false, ack) /\ (hr_code ack = 0 \/ hr_code ack = 503)) /\
    ((k < n)%nat -> length acks = n ->
       (exists ack, acks !! k = Some (true, ack)) \/
       exists i ack, k = S i /\ acks !! i = Some (false, ack) /\ hr_code ack <> 0 /\ hr_code ack <> 503).
Proof.
  revert acks. induction n as [|n IH]; intros acks; [exists 0%nat; split_and!; [done|done|lia|lia]|].
  destruct acks as [|[stop ack] acks]; [exists 0%nat; split_and!; [lia|done|lia|done]|].
  cbn [ack_attempts]. destruct stop.
  { exists 0%nat. split_and!; [lia|done|lia|]. intros _ _. left. by exists ack. }
  destruct (Z.eqb_spec (hr_code ack) 0) as [E0|N0]; [|destruct (Z.eqb_spec (hr_code ack) 503) as [E5|N5]];
    cbn [negb andb]; [| |exists 1%nat; split_and!; [lia|done|lia|]; intros _ _; right; by exists 0%nat, ack].
  all: destruct (IH acks) as (k & Hk & Ef & Hi & He); exists (S k); split_and!; [lia| | |].
  all: try (unfold fetches in *; rewrite !filter_cons; repeat (case_decide; try done); simpl; by rewrite Ef).
  all: try (intros [|i] Hlt; [exists ack; tauto|apply Hi; lia]).
  all: intros Hlt [= Hlen]; destruct (He ltac:(lia) Hlen) as [?|(i & x & -> & ?)]; [by left|right; by exists (S i), x].
Qed.

(** A round of the worker.  A lease is delivered by exactly one request, to its url
    with its key, attempt and body; then that outcome, success exactly for a 2xx
    answer, is acknowledged under the lease's fence, again only while the answer is
    open (503 or none), until it is settled, a signal comes, or 50 attempts are made. *)
Theorem round_reports_its_delivery a env l :
  worker_lease (re_lease env) = Some l -> length (re_acks env) = kAckAttempts ->
  exists k, (k <= 50)%nat /\
    fetches (worker_round a env) =
      [Fetch (lit "POST") (lease_url (wa_node a) (wa_worker_id a)) [] [] 2000;
       Fetch (lit "POST") (wl_url l) [(lit "Idempotency-Key", wl_key l); (lit "X-Tautq-Attempt", wl_attempt l)]
         (wl_body l) (wa_deliver_timeout_ms a)] ++
      replicate k (Fetch (lit "POST")
        (ack_url (wa_node a) l (bool_decide (200 <= hr_code (re_delivery env) < 300))) [] [] 2000) /\
    (forall i, (S i < k)%nat ->
       exists ack, re_acks env !! i = Some (false, ack) /\ (hr_code ack = 0 \/ hr_code ack = 503)) /\
    ((k < 50)%nat ->
       (exists ack, re_acks env !! k = Some (true, ack)) \/
       exists i ack, k = S i /\ re_acks env !! i = Some (false, ack) /\ hr_code ack <> 0 /\ hr_code ack <> 503).
Proof.
  intros El Hlen. unfold worker_round. rewrite El.
  assert (Ed : delivered (re_delivery env) = bool_decide (200 <= hr_code (re_delivery env) < 300)).
  { unfold delivered. apply eq_true_iff_eq. rewrite andb_true_iff, bool_decide_eq_true, Z.leb_le, Z.ltb_lt. lia. }
  rewrite Ed. destruct (ack_attempts_shape kAckAttempts
    (ack_url (wa_node a) l (bool_decide (200 <= hr_code (re_delivery env) < 300))) (re_acks env))
    as (k & Hk & Ef & Hi & He).
  exists k. split_and!; [exact Hk| |exact Hi|by auto].
  unfold fetches in *. rewrite filter_cons_True, filter_cons_True by done. by rewrite Ef.
Qed.

(** ** Witnesses *)
Module WorkerSample.
Definition sample_lease : WorkerLease :=
  mkLease (lit "00") (lit "http://10.9.0.2:8090/hook") (lit "k1") (lit "1") (lit "2") (lit "1") (lit "x").
Definition url : Url := mkUrl (lit "10.9.0.2:8090") (lit "/hook") (lit "10.9.0.2") 8090.
Lemma lease_is_ok : lease_ok sample_lease url.
Proof.
  split; [vm_compute; reflexivity|by apply (bool_decide_unpack _)..| | |by vm_compute];
    (split_and!; [by apply (bool_decide_unpack _)..|reflexivity]).
Qed.
(** Lost on the way, failed, recorded without an answer, recorded and answered. *)
Definition visits : list (WorkerLease * Link) :=
  pair sample_lease <$> [Unreached; Handled true 5 true; Handled false 9 false; Handled false 12 true].
Definition granted : HttpResponse :=
  mkHttpResponse 200 (<[lit "x-tautq-id" := lit "00"]> (<[lit "x-tautq-url" := lit "http://h/"]> ∅)) (lit "x").
Definition round : RoundEnv :=
  mkRound granted (mkHttpResponse 204 ∅ [])
    ((false, no_response) :: (false, mkHttpResponse 503 ∅ []) :: replicate 48 (false, mkHttpResponse 200 ∅ [])).
End WorkerSample.


Lemma round_reports_its_delivery_witness :
  exists k, (k <= 50)%nat /\
    length (fetches (worker_round worker_defaults WorkerSample.round)) = (2 + k)%nat.
Proof.
  destruct (round_reports_its_delivery worker_defaults WorkerSample.round
    (mkLease (lit "00") (lit "http://h/") [] [] [] [] (lit "x"))) as (k & Hk & E & _);
    [vm_compute; reflexivity|reflexivity|].
  exists k. split; [exact Hk|]. rewrite E, length_app, length_replicate. reflexivity.
Defined.
