(* ===== verification/Main.v ===== *)
(** * Main: the server processes, from their arguments to their exit codes

    src/src/node_main.cc and src/src/sink_main.cc.  [main] of a node puts the components
    together: arguments, sockets, the store on its disk, the queue node, the HTTP server
    with its routes on the event loop, and the loop that polls them all.  The RPC layer
    runs only continuations it holds ([rpc_holds]), each once, as RpcSafety proves of
    it.  The theorem says that the process, whatever its clients, peers and system calls
    do, is a run of the queue node over the log it opened, served by a
    server whose loop mirrors its connections; the sink, likewise, serves and leaves one
    receipt for each delivery it accepted. *)

From Stdlib Require Import ZArith Lia String.
From stdpp Require Import base tactics list numbers gmap relations.
From S2P Require Import Prelude Bytes Wire Records Table Disk Wal WalSpec Store StoreApi Ring Membership.
From S2P Require Import NodeState QueueNode NodeSteps NodeRules NodeSafety DurableNode Text Http HttpSafety Loop HttpLoop.
From S2P Require Import Answers HttpClient Metrics Api Args Verify Sink Worker.

(** ** What a server does to its application *)

Section app.
Context {H A : Type} (handle : H -> Z -> bool -> Request -> A -> option Response * A).
Context (R : relation A) `{!PreOrder R} (handle_R : forall h gen ka req a, R a (snd (handle h gen ka req a))).
Implicit Types s : Server H A.

Definition drives s s' : Prop := R (s_app s) (s_app s').

Lemma drives_refl s : drives s s.
Proof. unfold drives. reflexivity. Qed.

Lemma close_app gen s : s_app (close_conn gen s) = s_app s.
Proof. unfold close_conn. by destruct (s_conns s !! gen). Qed.

Lemma flush_app gen s : s_app (flush_conn gen s) = s_app s.
Proof.
  unfold flush_conn. destruct (s_conns s !! gen) as [c|]; [|done].
  destruct (write_all (s_io s) (c_out c)) as [[[w kept] d] io].
  destruct d; [case_match|..]; rewrite ?close_app; simpl; by case_bool_decide.
Qed.

Lemma queue_app gen ka r s : s_app (queue_response gen ka r s) = s_app s.
Proof. unfold queue_response. destruct (s_conns s !! gen); [by rewrite flush_app|done]. Qed.

Lemma drives_send parse gen ka r s :
  (forall s, drives s (parse gen s)) -> drives s (send_response_with parse gen ka r s).
Proof.
  intros Hp. unfold send_response_with, drives. rewrite <- (queue_app gen ka r s).
  destruct (s_conns _ !! gen); [|reflexivity]. destruct (_ && _); [apply Hp|reflexivity].
Qed.

Lemma drives_parse fuel gen : forall s, drives s (try_parse_fuel handle fuel gen s).
Proof.
  induction fuel as [|fuel IH]; intros s; simpl; [apply drives_refl|].
  destruct (s_conns s !! gen) as [c|]; [|apply drives_refl].
  destruct (parse_request (c_in c)) as [| |req rest ka]; [apply drives_refl| |].
  { unfold drives. rewrite close_app. reflexivity. }
  set (s1 := log (HRequest gen req) _). destruct (find_route _ _) as [h|].
  2:{ change (drives s1 (send_response_with (try_parse_fuel handle fuel) gen ka not_found s1)). by apply drives_send. }
  pose proof (handle_R h gen ka req (s_app s)) as Hh.
  destruct (handle h gen ka req (s_app s)) as [[r|] app]; [|exact Hh].
  unfold drives. transitivity app; [exact Hh|].
  change (drives (set_app app s1) (send_response_with (try_parse_fuel handle fuel) gen ka r (set_app app s1))).
  by apply drives_send.
Qed.

Lemma read_app gen eof chunks : forall s, s_app (snd (read_all gen chunks eof s)) = s_app s.
Proof.
  induction chunks as [|d chunks IH]; intros s; simpl.
  - destruct eof; [apply close_app|done].
  - destruct (s_conns s !! gen); [|done].
    destruct (kMaxRequestBytes <? _); cbn [snd]; [by rewrite close_app|by rewrite IH].
Qed.

Lemma drives_conn gen ev s : drives s (conn_ready handle gen ev s).
Proof.
  unfold conn_ready. destruct (s_conns s !! gen) as [c|]; [|apply drives_refl].
  destruct (ev_error ev); [unfold drives; rewrite close_app; reflexivity|].
  set (step := match ev_in ev with None => _ | Some _ => _ end).
  assert (Hs : drives s (snd step)).
  { unfold step. destruct (ev_in ev) as [[chunks eof]|]; [|apply drives_refl].
    pose proof (read_app gen eof chunks s) as Hr. destruct (read_all gen chunks eof s) as [go s1].
    simpl in Hr. unfold drives. rewrite <- Hr. destruct go; [|reflexivity]. simpl.
    destruct (s_conns s1 !! gen) as [c1|]; [|reflexivity].
    destruct (awaiting_handler c1); [reflexivity|apply drives_parse]. }
  destruct step as [go s1]. simpl in Hs.
  destruct (go && ev_out ev); [|done]. unfold drives. by rewrite flush_app.
Qed.

Lemma drives_later gen ka r s : drives s (respond_later handle gen ka r s).
Proof.
  unfold respond_later. destruct (s_conns s !! gen); [|apply drives_refl].
  apply drives_send. intros s'. apply drives_parse.
Qed.

(** The application of a process. *)
Definition app_of (n : Net H A) : A := s_app (n_server n).

Lemma settle_server gen s (n : Net H A) : n_server (settle gen s n) = s.
Proof. unfold settle. simpl. repeat case_match; done. Qed.

Lemma accept_app (n : Net H A) a : app_of (accept_fd n a) = app_of n.
Proof.
  unfold app_of. destruct a as [fd|fd kernel]; [done|]. simpl. case_decide; [done|].
  unfold loop_add. destruct (_ || _); simpl; done.
Qed.

Lemma start_app (routes : list (bytes * H)) app fd others : app_of (start routes app fd others) = app.
Proof.
  unfold start. generalize (imap pair others). intros l.
  assert (H0 : app_of (snd (listen (Some fd) true true true true true (new_net routes app))) = app).
  { unfold listen, loop_add. by destruct (_ || _). }
  revert H0. generalize (snd (listen (Some fd) true true true true true (new_net routes app))).
  induction l as [|[m f] l IH]; intros n Hn; [done|]. simpl. apply IH. unfold add_other, loop_add.
  by destruct (_ || _).
Qed.

(** A component whose work keeps to [R]. *)
Definition work_ok_for (i : FdInput A) : Prop := forall a, R a (fst (fi_work i a)).

Lemma drives_work i (n : Net H A) : work_ok_for i -> R (app_of n) (app_of (work handle i n)).
Proof.
  intros Hi. unfold work. specialize (Hi (s_app (n_server n))).
  destruct (fi_work i (s_app (n_server n))) as [app answers]. simpl in Hi.
  set (n1 := set_server _ n). assert (H1 : R (app_of n) (app_of n1)) by exact Hi. clearbody n1.
  revert n1 H1. induction answers as [|x l IH]; intros n1 H1; [done|]. simpl. apply IH.
  transitivity (app_of n1); [done|]. unfold later, app_of. rewrite settle_server. apply drives_later.
Qed.

Lemma drives_call k i (n : Net H A) : work_ok_for i -> R (app_of n) (app_of (run_handler handle k i n)).
Proof.
  intros Hi. destruct k as [|gen|m]; simpl; [| |by apply drives_work].
  - assert (E : app_of (foldl accept_fd n (fi_accepts i)) = app_of n); [|rewrite E; reflexivity].
    generalize (fi_accepts i). intros l. revert n. induction l as [|a l IH]; intros n; [done|].
    simpl. by rewrite IH, accept_app.
  - unfold app_of. rewrite settle_server. apply (drives_conn gen (conn_events i) (set_wio (fi_writes i) (n_server n))).
Qed.

Definition round_ok (rp : EpollWait (FdInput A) * FdInput A) : Prop :=
  match fst rp with WaitReady evs => Forall (fun ev => work_ok_for (snd ev)) evs | WaitError _ => True end /\
  work_ok_for (snd rp).

Lemma drives_serve rounds : forall n : Net H A,
  Forall round_ok rounds -> R (app_of n) (app_of (snd (serve handle rounds n))).
Proof.
  unfold serve. induction rounds as [|[r p] rounds IH]; intros n Hr; simpl; [reflexivity|].
  inversion_clear Hr as [|? ? [Hw Hp] Hr']. simpl in Hw, Hp.
  assert (H1 : R (app_of n) (app_of (snd (run_once n_loop (run_handler handle) r n)))).
  { destruct r as [evs|e]; simpl; [|reflexivity]. clear -Hw handle_R PreOrder0. revert n.
    induction Hw as [|ev evs He _ IH]; intros n; simpl; [reflexivity|].
    transitivity (app_of (dispatch_event n_loop (run_handler handle) n ev)); [|apply IH].
    unfold dispatch_event. destruct (l_handlers _ !! _); [by apply drives_call|reflexivity]. }
  destruct (run_once n_loop (run_handler handle) r n) as [ok n1]. simpl in H1. destruct ok; simpl; [|done].
  transitivity (app_of n1); [done|]. transitivity (app_of (work handle p n1)); [by apply drives_work|by apply IH].
Qed.
End app.

(** The answer of [epoll_wait] with what a program's handlers meet. *)
Definition wait_map {I J} (f : I -> J) (r : EpollWait I) : EpollWait J :=
  match r with
  | WaitReady evs => WaitReady ((fun ev => (fst ev, f (snd ev))) <$> evs)
  | WaitError b => WaitError b
  end.

Lemma round_map_ok {I A} (R : relation A) (f : I -> FdInput A) r p :
  (forall i, work_ok_for R (f i)) -> work_ok_for R p -> round_ok R (wait_map f r, p).
Proof.
  intros Hf Hp. split; [|exact Hp]. destruct r as [evs|b]; simpl; [|done].
  apply Forall_fmap, Forall_true. intros ev. apply Hf.
Qed.

(** ** The node process *)

Section node.
Context (crc32c : bytes -> Z) (make_endpoint : bytes -> Z -> option Endpoint).
Context {D : Type} (le_ms : D -> Z -> bool) (add : D -> D -> D) (zero : D) (text : D -> bytes) (of_ms : Z -> D).

Abbreviation DNode := (Node (DurableStore crc32c) SwimMembership).
Abbreviation NProc := (@Proc (DurableStore crc32c) SwimMembership D).

(** What [queue.poll], [queue.tick], [swim.poll] and [swim.tick] bring: requests of
    peers, callbacks of calls, the timeouts of a tick, a new view of the outside, and
    changes of state that SWIM reports. *)
Inductive Work :=
  | WRequest (ctx : ReqCtx) (body : bytes)
  | WResponse (k : Kont) (code : Z) (resp : bytes)
  | WTick (timeouts : list Kont)
  | WEnv (mem : SwimMembership) (now : Z) (busy : list bool)
  | WSwim (ep : Endpoint) (st : option bool) (failed : list Kont).

(** The RPC layer runs the continuations that it holds: those handed to it and not run
    yet. *)
Definition rpc_holds (p : NProc) (ks : list Kont) : bool :=
  bool_decide (mbind resumed (pr_events p) ++ ks ⊆+ calls (pr_rpc p)).

Definition work_konts (w : Work) : list Kont :=
  match w with
  | WResponse k _ _ => [k]
  | WTick ks | WSwim _ (Some false) ks => ks
  | _ => []
  end.

Definition do_work (p : NProc) (w : Work) : NProc :=
  if negb (rpc_holds p (work_konts w)) then p else
  match w with
  | WRequest ctx body => proc_step le_ms add of_ms (EvRequest ctx body) p
  | WResponse k code resp => proc_step le_ms add of_ms (EvResponse k code resp) p
  | WTick ks => proc_step le_ms add of_ms (EvTick ks) p
  | WEnv mem now busy => proc_step le_ms add of_ms (EvEnv mem now busy) p
  | WSwim ep st failed => swim_change le_ms add of_ms ep st failed p
  end.

(** The work of one call, and the answers it leaves for waiting connections.  A process
    that an exception has ended does nothing more. *)
Definition node_work (ws : list Work) (p : NProc) : NProc * list Later :=
  if pr_crashed p then (p, []) else
  let p := foldl do_work p ws in
  (set_late [] p, (fun tr => mkLater (fst tr / 2) (Z.odd (fst tr)) (snd tr)) <$> pr_late p).

(** What happens on a descriptor of the node. *)
Record NodeInput := mkNodeInput {
  ni_events : Z; ni_reads : list bytes * bool; ni_writes : list WriteIo; ni_accepts : list Accept;
  ni_work : list Work }.

Definition fd_input (i : NodeInput) : FdInput NProc :=
  mkInput (ni_events i) (ni_reads i) (ni_writes i) (ni_accepts i) (node_work (ni_work i)).

(** The system as [main] finds it: results of the calls, the disk, the random boot id,
    what SWIM reports first, and the rounds of the loop until a signal. *)
Record NodeEnv := mkNodeEnv {
  ne_bind_data : bool; ne_bind_swim : bool; ne_boot : Z;
  ne_disk : Disk; ne_open_io : list Io; ne_commit_io : list (list Io);
  ne_swim : SwimView; ne_now : Z; ne_busy : list bool;
  ne_epoll : bool; ne_socket : option Z; ne_bind : bool; ne_listen : bool; ne_nonblock : bool; ne_add : bool;
  ne_data_fd : Z; ne_swim_fd : Z;
  ne_rounds : list (EpollWait NodeInput * NodeInput) }.

Inductive MainEnd := Exit (code : Z) | Uncaught.

(** The node opened over the store, and the process around it. *)
Definition main_node (env : NodeEnv) (su : NodeSetup) (st : JobStore) : DNode :=
  opened crc32c (setup_membership (ne_swim env) su) (su_cfg su) (ne_now env) (ne_boot env) (ne_busy env)
    (mkDurable st (ne_commit_io env) []).

Definition main_proc (n : DNode) : NProc :=
  foldl (take_out le_ms add of_ms) (mkProc (set_out [] n) ∅ (new_histogram zero) 0 false [] [] []) (n_out n).

Definition node_routes : list (bytes * Route) := s_routes (register_routes (new_server tt)).

Definition node_rounds (env : NodeEnv) : list (EpollWait (FdInput NProc) * FdInput NProc) :=
  (fun rp => (wait_map fd_input (fst rp), fd_input (snd rp))) <$> ne_rounds env.

(** From the store on: the HTTP server, the loop, the exit code. *)
Definition main_serve (env : NodeEnv) (p : NProc) : MainEnd * option (Net Route NProc) :=
  let '(ok, net) := listen (ne_socket env) true (ne_bind env) (ne_listen env) (ne_nonblock env) (ne_add env)
                      (new_net node_routes p) in
  if negb (ne_epoll env) || negb ok then (Exit 1, None) else
  let net := foldl add_other net (imap pair [ne_data_fd env; ne_swim_fd env]) in
  let net := snd (serve (api_handle le_ms add text of_ms) (node_rounds env) net) in
  (if pr_crashed (app_of net) then Uncaught else Exit 0, Some net).

(** [main]: how the process ends, and the state of one that has served. *)
Definition node_main (args : list bytes) (env : NodeEnv) : MainEnd * option (Net Route NProc) :=
  match node_startup make_endpoint args with
  | None => (Uncaught, None)
  | Some None => (Exit 2, None)
  | Some (Some su) =>
      if negb (ne_bind_data env) || negb (ne_bind_swim env) then (Exit 1, None) else
      let '(ok, st) := store_open crc32c (ne_disk env) (ne_open_io env) kSegmentBytes in
      if negb ok then (Exit 1, None) else main_serve env (main_proc (main_node env su st))
  end.

(** ** The process runs the node *)

(** One operation of the node, its outputs taken. *)
Definition served (n n' : DNode) : Prop := exists e, n' = set_out [] (node_step e (set_out [] n)).

Definition runs (p p' : NProc) : Prop := rtc served (pr_node p) (pr_node p').

#[global] Instance runs_preorder : PreOrder runs.
Proof. split; [intros p; apply rtc_refl|]. intros p q r H1 H2. unfold runs in *. by etrans. Qed.

Lemma take_outs_node os : forall p : NProc, pr_node (foldl (take_out le_ms add of_ms) p os) = pr_node p.
Proof.
  induction os as [|o os IH]; intros p; [done|]. simpl. rewrite IH. unfold take_out.
  destruct (callback_response (pr_ids p) o); [done|]. by destruct o.
Qed.

Lemma proc_step_runs e p : runs p (proc_step le_ms add of_ms e p).
Proof.
  unfold runs. apply rtc_once. exists e. unfold proc_step. rewrite take_outs_node. by destruct e.
Qed.

Lemma api_handle_runs rt gen ka req p : runs p (snd (api_handle le_ms add text of_ms rt gen ka req p)).
Proof.
  unfold api_handle. destruct (pr_crashed p); [apply rtc_refl|].
  set (p1 := match rt with RDrain => _ | _ => _ end).
  assert (H1 : runs p p1) by (destruct rt; try apply rtc_refl; apply proc_step_runs).
  destruct (api_action text rt _ req p1) as [r|e|]; [exact H1| |exact H1].
  pose proof (proc_step_runs e p1) as H2.
  destruct (take_response _ (pr_late (proc_step le_ms add of_ms e p1))) as [a late].
  etransitivity; [exact H1|exact H2].
Qed.

Lemma do_work_runs p w : runs p (do_work p w).
Proof.
  unfold do_work. destruct (negb _); [apply rtc_refl|].
  destruct w as [ctx b|k c b|ks|mem now busy|ep st failed]; try apply proc_step_runs. unfold swim_change.
  destruct st as [[]|]; [apply (proc_step_runs _ (set_churn _ p))..|apply rtc_refl].
Qed.

Lemma node_work_runs ws p : runs p (fst (node_work ws p)).
Proof.
  unfold node_work. destruct (pr_crashed p); [apply rtc_refl|]. cbn [fst]. unfold runs. cbn [pr_node set_late].
  change (runs p (foldl do_work p ws)). revert p. induction ws as [|w ws IH]; intros p; [apply rtc_refl|].
  simpl. etransitivity; [apply do_work_runs|apply IH].
Qed.

Lemma node_rounds_ok env : Forall (round_ok runs) (node_rounds env).
Proof.
  unfold node_rounds. apply Forall_fmap, Forall_true. intros [r p].
  apply round_map_ok; [intros i|]; intros a; apply node_work_runs.
Qed.

Lemma served_wf n n' : rtc served n n' -> node_wf n -> node_wf n' /\ me n' = me n.
Proof.
  induction 1 as [n|n n1 n2 [e ->] _ IH]; intros Hw; [done|].
  assert (Hw0 : node_wf (set_out [] n)) by (by destruct Hw).
  pose proof (node_step_wf e _ Hw0) as Hw1. pose proof (node_step_me e _ Hw0) as Hm.
  destruct IH as [Hw2 Hm2]; [by destruct Hw1|]. split; [done|]. rewrite Hm2. exact Hm.
Qed.

(** A process that serves has its server on the loop with the two sockets. *)
Lemma main_serve_starts env p e net :
  main_serve env p = (e, Some net) ->
  exists fd, net = snd (serve (api_handle le_ms add text of_ms) (node_rounds env)
                        (start node_routes p fd [ne_data_fd env; ne_swim_fd env])) /\
    e = (if pr_crashed (app_of net) then Uncaught else Exit 0).
Proof.
  unfold main_serve.
  destruct (listen _ _ _ _ _ _ _) as [ok net0] eqn:El. destruct (negb (ne_epoll env) || negb ok) eqn:Eo; [done|].
  apply orb_false_iff in Eo as [_ Eo]. apply negb_false_iff in Eo as ->.
  assert (Es : exists fd, foldl add_other net0 (imap pair [ne_data_fd env; ne_swim_fd env]) =
    start node_routes p fd [ne_data_fd env; ne_swim_fd env]).
  { unfold listen in El. destruct (ne_socket env) as [fd|]; [|done]. exists fd. cbn [negb] in El.
    unfold start, listen. cbn [negb orb].
    destruct (negb (ne_bind env) || negb (ne_listen env) || negb (ne_nonblock env)); [done|].
    destruct (ne_add env); [|unfold loop_add in El; cbn [negb orb] in El; done].
    destruct (loop_add _ _ _ _ _) as [added l]. injection El as -> <-. done. }
  destruct Es as [fd ->]. intros E. injection E as <- <-. by exists fd.
Qed.

Lemma main_serve_spec env p e net :
  Z.of_nat (serve_cost (node_rounds env)) < 2 ^ 64 - 1 ->
  main_serve env p = (e, Some net) ->
  runs p (app_of net) /\ mirrors net /\ e = (if pr_crashed (app_of net) then Uncaught else Exit 0).
Proof.
  intros Hc (fd & -> & ->)%main_serve_starts. split_and!; [| |done].
  - rewrite <- (start_app node_routes p fd [ne_data_fd env; ne_swim_fd env]) at 1.
    apply (drives_serve (api_handle le_ms add text of_ms) runs api_handle_runs), node_rounds_ok.
  - eapply (serve_ok (api_handle le_ms add text of_ms) _ _ 0), start_ok. lia.
Qed.

Lemma startup_self args su : node_startup make_endpoint args = Some (Some su) -> self (su_cfg su) = su_self su.
Proof.
  unfold node_startup, node_setup. destruct (parse_args _ _ _) as [a|o|]; [|done..].
  destruct (parse_ep _ _) as [[e|]|]; [|done..]. destruct (parse_peers _ _); [|done]. by intros [= <-].
Qed.

Lemma main_node_wf env su st :
  ids_ok (s_table st) -> node_wf (main_node env su st) /\ me (main_node env su st) = self (su_cfg su).
Proof.
  intros Hid. unfold main_node. split; [by apply opened_wf|]. unfold opened. set (n := set_env _ _ _ _).
  assert (Hw : node_wf n) by (split; [constructor|exact Hid|by apply (bool_decide_unpack _)]).
  assert (He : evolves (fun _ _ _ => True) (grant_rule False False) n (node_open n))
    by (by apply (node_open_steps (fun _ => False) (fun _ => False))).
  unfold me. by rewrite (evo_cfg _ _ _ _ (evolves_evolution _ _ _ _ He)).
Qed.

Lemma main_serve_none env p e : main_serve env p = (e, None) -> e = Exit 1.
Proof.
  unfold main_serve. destruct (listen _ _ _ _ _ _ _) as [ok net0]. destruct (_ || _); [|done]. by intros [= <-].
Qed.
End node.

(** ** The sink process *)

Section sink.
Context {D : Type} (stod : bytes -> option D) (zero : D).

(** What the handlers share: for each delivery to come whether the generator injects a
    failure and the time, and the receipt file. *)
Definition SinkState : Type := list (bool * Z) * bytes.

Definition sink_handler (rt : SinkRoute) (gen : Z) (keep_alive : bool) (r : Request) (a : SinkState)
  : option Response * SinkState :=
  match rt with
  | SinkHealth => (Some (fst (sink_handle SinkHealth false 0 r (snd a))), a)
  | SinkPost =>
      let '(failed, ms) := default (false, 0) (head (fst a)) in
      let '(resp, out) := sink_handle SinkPost failed ms r (snd a) in (Some resp, (tail (fst a), out))
  end.

(** The sockets of the sink are its server's only. *)
Record SinkInput := mkSinkInput {
  si_events : Z; si_reads : list bytes * bool; si_writes : list WriteIo; si_accepts : list Accept }.

Definition sink_input (i : SinkInput) : FdInput SinkState :=
  mkInput (si_events i) (si_reads i) (si_writes i) (si_accepts i) (fun a => (a, [])).

Record SinkEnv := mkSinkEnv {
  sk_file : option bytes;               (* the file as fopen finds it, or its failure *)
  sk_draws : list (bool * Z);
  sk_epoll : bool; sk_socket : option Z; sk_bind : bool; sk_listen : bool; sk_nonblock : bool; sk_add : bool;
  sk_rounds : list (EpollWait SinkInput) }.

(** Nothing follows [run_once] in the loop of the sink. *)
Definition sink_rounds (env : SinkEnv) : list (EpollWait (FdInput SinkState) * FdInput SinkState) :=
  (fun r => (wait_map sink_input r, sink_input (mkSinkInput 0 ([], false) [] []))) <$> sk_rounds env.

(** [main] of the sink: how it ends, and the receipt file. *)
Definition sink_main (args : list bytes) (env : SinkEnv) : MainEnd * option bytes :=
  match parse_args (sink_opt stod) args (sink_defaults zero) with
  | ArgThrow => (Uncaught, None)
  | UnknownArg _ => (Exit 2, None)
  | Args _ =>
      match sk_file env with
      | None => (Exit 1, None)
      | Some file =>
          let '(ok, net) := listen (sk_socket env) true (sk_bind env) (sk_listen env) (sk_nonblock env) (sk_add env)
                              (new_net sink_routes (sk_draws env, file)) in
          if negb (sk_epoll env) || negb ok then (Exit 1, Some file) else
          (Exit 0, Some (snd (app_of (snd (serve sink_handler (sink_rounds env) net)))))
      end
  end.

(** Deliveries handled one after the other. *)
Definition records (a a' : SinkState) : Prop :=
  exists ds, snd a' = snd a ++ mjoin ((fun l => l ++ [lf]) <$> receipts ds).

#[global] Instance records_preorder : PreOrder records.
Proof.
  split; [intros a; exists []; by rewrite app_nil_r|].
  intros a b c [ds E] [ds' E']. exists (ds ++ ds'). by rewrite E', E, receipts_app, fmap_app, join_app, app_assoc.
Qed.

Lemma sink_handler_records rt gen ka r a : records a (snd (sink_handler rt gen ka r a)).
Proof.
  destruct rt; [reflexivity|]. unfold sink_handler. destruct (default (false, 0) (head (fst a))) as [failed ms].
  cbn [sink_handle]. destruct (sink_post failed ms r (snd a)) as [resp out] eqn:E. exists [mkDelivery failed ms r].
  rewrite <- sink_post_receipt. cbn [dl_failed dl_ms dl_request snd]. by rewrite E.
Qed.
End sink.

(** ** Property *)

(** C14: a node process is a run of the queue node.  A process that does not get to serve
    does not report success.  One that serves has read its endpoint from its arguments
    and opened its log, and from then on, whatever clients, peers, the failure detector
    and the kernel do, its node moves only by operations of the queue node, stays well
    formed and keeps its identity, while the event loop mirrors the connections; it
    ends with exit code 0 exactly when no handler threw. *)
Theorem process_runs_the_node (crc32c : bytes -> Z) (make_endpoint : bytes -> Z -> option Endpoint)
  {D : Type} (le_ms : D -> Z -> bool) (add : D -> D -> D) (zero : D) (text : D -> bytes) (of_ms : Z -> D)
  args (env : NodeEnv) :
  Z.of_nat (serve_cost (node_rounds crc32c le_ms add of_ms env)) < 2 ^ 64 - 1 ->
  let r := node_main crc32c make_endpoint le_ms add zero text of_ms args env in
  (snd r = None -> fst r <> Exit 0) /\
  forall net, snd r = Some net ->
    exists su st, node_startup make_endpoint args = Some (Some su) /\
      store_open crc32c (ne_disk env) (ne_open_io env) kSegmentBytes = (true, st) /\
      rtc (served crc32c) (set_out [] (main_node crc32c env su st)) (pr_node (app_of net)) /\
      node_wf (pr_node (app_of net)) /\ me (pr_node (app_of net)) = su_self su /\ mirrors net /\
      (fst r = Exit 0 <-> pr_crashed (app_of net) = false).
Proof.
  intros Hc. cbv zeta. unfold node_main.
  destruct (node_startup make_endpoint args) as [[su|]|] eqn:Es; [|done..].
  destruct (_ || _); [done|].
  destruct (store_open crc32c (ne_disk env) (ne_open_io env) kSegmentBytes) as [[] st] eqn:Eo; [|done].
  cbn [negb]. set (p := main_proc crc32c le_ms add zero of_ms (main_node crc32c env su st)).
  destruct (main_serve crc32c le_ms add text of_ms env p) as [e o] eqn:Em. cbn [fst snd]. split.
  - intros ->. by rewrite (main_serve_none _ _ _ _ _ _ _ _ Em).
  - intros net ->. apply main_serve_spec in Em as (Hr & Hm & ->); [|done].
    assert (Hp : pr_node p = set_out [] (main_node crc32c env su st)) by apply take_outs_node.
    unfold runs in Hr. rewrite Hp in Hr.
    destruct (main_node_wf crc32c env su st) as [Hw Hme]; [by eapply store_open_ids_ok|].
    destruct (served_wf _ _ _ Hr) as [Hw' Hme']; [by destruct Hw|].
    exists su, st. split_and!; try done.
    + rewrite Hme'. etransitivity; [exact Hme|]. by eapply startup_self.
    + by destruct (pr_crashed _).
Qed.

(** ** Witness: three nodes' command line, an empty disk, two clients *)
Module MainSample.
Definition args : list bytes := command_line Sample.node_a 8080 (lit "d") [Sample.node_b; Sample.node_c].
Definition quiet : NodeInput := mkNodeInput 0 ([], false) [] [] [].
Definition lease_request : bytes := lit "POST /v1/lease?worker=7 HTTP/1.1" ++ crlf ++ crlf.
Definition env : NodeEnv :=
  mkNodeEnv true true 1 empty_disk [] [] ArgsSample.no_swim 0 [] true (Some 5) true true true true 3 4
    [(WaitReady [(5, mkNodeInput EPOLLIN ([], false) [] [Accepted 7 true; Accepted 8 true] [])], quiet);
     (WaitError true, quiet);
     (WaitReady [(7, mkNodeInput EPOLLIN ([lease_request], false) [] [] []);
                 (8, mkNodeInput EPOLLHUP ([], false) [] [] [])],
      mkNodeInput 0 ([], false) [] [] [WTick []; WSwim (swim_ep Sample.node_b) (Some true) []])].
Definition outcome : MainEnd * option (Net Route (@Proc (DurableStore WalSample.sum32) SwimMembership Z)) :=
  node_main WalSample.sum32 ArgsSample.make_endpoint (fun d b => d <=? b) Z.add 0 (fun v => to_string v)
    (fun ms => ms) args env.
End MainSample.

Lemma process_runs_the_node_witness :
  exists net, snd MainSample.outcome = Some net /\ fst MainSample.outcome = Exit 0 /\ mirrors net /\
    me (pr_node (app_of net)) = Sample.node_a.
Proof.
  destruct (process_runs_the_node WalSample.sum32 ArgsSample.make_endpoint (fun d b => d <=? b) Z.add 0
    (fun v => to_string v) (fun ms => ms) MainSample.args MainSample.env) as [_ Hp]; [vm_compute; reflexivity|].
  fold MainSample.outcome in Hp.
  assert (Ee : fst MainSample.outcome = Exit 0) by (vm_compute; reflexivity).
  assert (Eo : match snd MainSample.outcome with Some _ => true | None => false end = true)
    by (vm_compute; reflexivity).
  destruct (snd MainSample.outcome) as [net|]; [|discriminate].
  destruct (Hp net eq_refl) as (su & st & Es & _ & _ & _ & Hm & Hmi & _).
  exists net. split; [reflexivity|]. split; [exact Ee|]. split; [exact Hmi|]. rewrite Hm. clear -Es.
  vm_compute in Es. injection Es as <-. reflexivity.
Defined.

(** The receipt file of a sink process.  Whatever arrives on its connections, the
    process, when it serves, leaves the file it found followed by one line for each
    delivery it accepted and nothing else; before that it leaves the file alone. *)
Theorem sink_process_appends_receipts {D} (stod : bytes -> option D) (zero : D) args env file e out :
  sk_file env = Some file -> sink_main stod zero args env = (e, Some out) ->
  exists ds, out = file ++ mjoin ((fun l => l ++ [lf]) <$> receipts ds).
Proof.
  intros Hf. unfold sink_main. rewrite Hf. destruct (parse_args _ _ _); [|done..].
  destruct (listen _ _ _ _ _ _ _) as [ok net] eqn:El.
  destruct (_ || _); [intros [= <- <-]; exists []; by rewrite app_nil_r|]. intros E. injection E as <- <-.
  assert (En : app_of net = (sk_draws env, file)).
  { unfold listen in El. destruct (sk_socket env) as [fd|]; [|by injection El as <- <-]. cbn [negb] in El.
    destruct (_ || _ || _); [by injection El as <- <-|]. destruct (loop_add _ _ _ _ _). by injection El as <- <-. }
  change file with (snd (sk_draws env, file)). rewrite <- En.
  apply (drives_serve sink_handler records sink_handler_records).
  unfold sink_rounds. apply Forall_fmap, Forall_true. intros r.
  apply round_map_ok; [intros i|]; intros x; reflexivity.
Qed.

Module SinkProcess.
Definition post : bytes :=
  lit "POST /hook HTTP/1.1" ++ crlf ++ lit "Idempotency-Key: k1" ++ crlf ++ crlf.
Definition env : SinkEnv :=
  mkSinkEnv (Some (lit "1 k0 1 /hook 0" ++ [lf])) [(true, 3); (false, 9)] true (Some 5) true true true true
    [WaitReady [(5, mkSinkInput EPOLLIN ([], false) [] [Accepted 7 true])];
     WaitReady [(7, mkSinkInput EPOLLIN ([post ++ take 10 post; drop 10 post], false) [] [])]].
Definition outcome : MainEnd * option bytes :=
  sink_main (fun v => Some (strtoul v)) 0 [lit "--port"; lit "8090"; lit "--fail-rate"; lit "0.5"] env.
End SinkProcess.

Lemma sink_process_appends_receipts_witness :
  exists ds, lit "1 k0 1 /hook 0" ++ [lf] ++ lit "9 k1 - /hook 0" ++ [lf] =
    (lit "1 k0 1 /hook 0" ++ [lf]) ++ mjoin ((fun l => l ++ [lf]) <$> receipts ds).
Proof.
  apply (sink_process_appends_receipts (fun v => Some (strtoul v)) 0
    [lit "--port"; lit "8090"; lit "--fail-rate"; lit "0.5"] SinkProcess.env _ (Exit 0)); vm_compute; reflexivity.
Defined.
