(* ===== verification/Waiting.v ===== *)
(** * Waiting: no HTTP request is left behind

    A request whose handler has not answered keeps its connection waiting
    ([awaiting_handler] of http.h).  The first half says, for any application of the HTTP
    server on its event loop, what the application must keep so that every waiting
    connection is owed an answer; the second half discharges it for the node process of
    node_main.cc, down to the calls that the RPC layer holds. *)

From Stdlib Require Import ZArith Lia String.
From stdpp Require Import base tactics list numbers gmap relations.
From S2P Require Import Prelude Bytes Wire Records Table Disk Wal WalSpec Store StoreApi Ring Membership.
From S2P Require Import NodeState QueueNode NodeSteps NodeRules NodeSafety DurableNode.
From S2P Require Import Text Http HttpSafety Loop HttpLoop HttpClient Metrics Api Args Main Answers.

(** ** The server owes its waiting connections *)

Section owing.
Context {H A : Type} (handle : H -> Z -> bool -> Request -> A -> option Response * A).
Context (ok : A -> Prop).
Implicit Types s : Server H A.

Definition waiting_for s (g : Z) : Prop := exists c, s_conns s !! g = Some c /\ awaiting_handler c = true.

(** The application is fine, and every waiting connection is owed an answer. *)
Definition owed (owes : A -> Z -> Prop) s : Prop :=
  ok (s_app s) /\ forall g, waiting_for s g -> owes (s_app s) g.
Definition owed_but (owes : A -> Z -> Prop) (gen : Z) s : Prop :=
  ok (s_app s) /\ forall g, g <> gen -> waiting_for s g -> owes (s_app s) g.

(** What a handler must keep: the debts to the other connections, and a debt to its own
    unless it answers. *)
Definition handler_keeps (owes : A -> Z -> Prop) : Prop :=
  forall h gen ka req a o a', ok a -> handle h gen ka req a = (o, a') ->
    ok a' /\ (forall g, g <> gen -> owes a g -> owes a' g) /\ (o = None -> owes a' gen).

(** Steps of the server that make nobody wait. *)
Definition calmer s s' : Prop := s_app s' = s_app s /\ forall g, waiting_for s' g -> waiting_for s g.

#[local] Instance calmer_preorder : PreOrder calmer.
Proof.
  split; [done|]. intros s1 s2 s3 [A1 W1] [A2 W2]. split; [congruence|auto].
Qed.

Lemma calmer_put gen c c' s :
  s_conns s !! gen = Some c -> (awaiting_handler c' = true -> awaiting_handler c = true) -> calmer s (put_conn gen c' s).
Proof.
  intros Hc Ha. split; [done|]. intros g (x & Hx & Hw). simpl in Hx.
  apply lookup_insert_Some in Hx as [[<- <-]|[_ Hx]]; eexists; eauto.
Qed.

Lemma calmer_conns s s' : s_app s' = s_app s -> s_conns s' = s_conns s -> calmer s s'.
Proof. intros E1 E2. split; [done|]. intros g (c & Hc & Hw). rewrite E2 in Hc. by exists c. Qed.

Lemma calmer_close gen s : calmer s (close_conn gen s).
Proof.
  unfold close_conn. destruct (s_conns s !! gen) as [c0|]; [|done]. split; [done|]. intros g (c & Hc & Hw). simpl in Hc.
  apply lookup_delete_Some in Hc as [_ Hc]. by exists c.
Qed.

Lemma calmer_flush gen s : calmer s (flush_conn gen s).
Proof.
  unfold flush_conn. destruct (s_conns s !! gen) as [c|] eqn:E; [|done].
  destruct (write_all (s_io s) (c_out c)) as [[[w k] d] io].
  set (s1 := if bool_decide (w = []) then _ else _).
  assert (H1 : calmer s s1) by (unfold s1; case_bool_decide; by apply calmer_conns).
  assert (E1 : s_conns s1 !! gen = Some c) by (unfold s1; by case_bool_decide).
  assert (Hp : forall x, awaiting_handler x = awaiting_handler c -> calmer s (put_conn gen x s1)).
  { intros x Hx. etransitivity; [exact H1|]. apply (calmer_put gen c); [done|congruence]. }
  destruct d; [case_match|..]; try (etransitivity; [|apply calmer_close]); by apply Hp.
Qed.

Lemma calmer_queue gen ka r s :
  calmer s (queue_response gen ka r s) /\ ~ waiting_for (queue_response gen ka r s) gen.
Proof.
  unfold queue_response. destruct (s_conns s !! gen) as [c|] eqn:E.
  2:{ split; [done|]. intros (c & Hc & _). congruence. }
  set (c1 := set_awaiting false _). set (s1 := log _ (put_conn gen c1 s)).
  assert (H1 : calmer s s1).
  { etransitivity; [apply (calmer_put gen c c1 s E); done|]. by apply calmer_conns. }
  pose proof (calmer_flush gen s1) as [A2 W2]. split; [etransitivity; [exact H1|by split]|].
  intros Hw. apply W2 in Hw as (x & Hx & Hw). simpl in Hx. rewrite lookup_insert_eq in Hx. by injection Hx as <-.
Qed.

Lemma calmer_read gen eof chunks : forall s, calmer s (snd (read_all gen chunks eof s)).
Proof.
  induction chunks as [|d chunks IH]; intros s; simpl.
  - destruct eof; [apply calmer_close|done].
  - destruct (s_conns s !! gen) as [c|] eqn:E; [|done].
    assert (H1 : calmer s (put_conn gen (set_in (c_in c ++ d) c) s)) by (by apply (calmer_put gen c)).
    destruct (kMaxRequestBytes <? _); (etransitivity; [exact H1|]); [apply calmer_close|apply IH].
Qed.

Lemma calmer_accept s b : calmer s (accept_one s b).
Proof.
  unfold accept_one. destruct b; [|by apply calmer_conns]. split; [done|]. intros g (c & Hc & Hw). simpl in Hc.
  apply lookup_insert_Some in Hc as [[<- <-]|[_ Hc]]; [done|by exists c].
Qed.

Section keeps.
Context (owes : A -> Z -> Prop) (Hh : handler_keeps owes).

Lemma owed_calmer s s' : calmer s s' -> owed owes s -> owed owes s'.
Proof. intros [E W] [Hk Ho]. split; rewrite E; [done|]. auto. Qed.

Lemma owed_queue gen ka r s : owed_but owes gen s -> owed owes (queue_response gen ka r s).
Proof.
  intros [Hk Ho]. destruct (calmer_queue gen ka r s) as [[E W] Hn]. split; rewrite E; [done|].
  intros g Hg. apply Ho; [|auto]. intros ->. done.
Qed.

Lemma owed_send parse gen ka r s :
  (forall s, owed owes s -> owed owes (parse gen s)) -> owed_but owes gen s ->
  owed owes (send_response_with parse gen ka r s).
Proof.
  intros Hp Hs. unfold send_response_with. apply (owed_queue gen ka r) in Hs.
  destruct (s_conns _ !! gen); [|done]. destruct (_ && _); [by apply Hp|done].
Qed.

Lemma owed_parse fuel gen : forall s, owed owes s -> owed owes (try_parse_fuel handle fuel gen s).
Proof.
  induction fuel as [|fuel IH]; intros s Hs; simpl; [done|].
  destruct (s_conns s !! gen) as [c|]; [|done].
  destruct (parse_request (c_in c)) as [| |req rest ka]; [done|by eapply owed_calmer, Hs; apply calmer_close|].
  set (s1 := log (HRequest gen req) _).
  assert (Hothers : forall g, g <> gen -> waiting_for s1 g -> waiting_for s g).
  { intros g Hg (x & Hx & Hw). simpl in Hx. rewrite lookup_insert_ne in Hx by done. by exists x. }
  destruct Hs as [Hk Ho]. destruct (find_route _ _) as [h|].
  - destruct (handle h gen ka req (s_app s)) as [o a'] eqn:E. destruct (Hh _ _ _ _ _ _ _ Hk E) as (Hk' & Hg & Hn).
    destruct o as [r|].
    + apply owed_send; [exact IH|]. split; [done|]. intros g Hne Hw. apply Hg; [done|]. apply Ho. by apply Hothers.
    + split; [done|]. intros g Hw. destruct (decide (g = gen)) as [->|Hne]; [by apply Hn|].
      apply Hg; [done|]. apply Ho. by apply Hothers.
  - apply owed_send; [exact IH|]. split; [done|]. intros g Hne Hw. apply Ho. by apply Hothers.
Qed.

Lemma owed_conn gen ev s : owed owes s -> owed owes (conn_ready handle gen ev s).
Proof.
  intros Hs. unfold conn_ready. destruct (s_conns s !! gen) as [c|]; [|done].
  destruct (ev_error ev); [by eapply owed_calmer, Hs; apply calmer_close|].
  set (step := match ev_in ev with None => _ | Some _ => _ end).
  assert (H1 : owed owes (snd step)).
  { unfold step. destruct (ev_in ev) as [[chunks eof]|]; [|done].
    pose proof (calmer_read gen eof chunks s) as Hr. destruct (read_all gen chunks eof s) as [go s1]. simpl in Hr.
    apply (owed_calmer _ _ Hr) in Hs. destruct go; [|done]. simpl. destruct (s_conns s1 !! gen) as [c1|]; [|done].
    destruct (awaiting_handler c1); [done|by apply owed_parse]. }
  destruct step as [go s1]. simpl in H1. destruct (go && ev_out ev); [|done]. by eapply owed_calmer, H1; apply calmer_flush.
Qed.

(** An answer that comes later pays the debt to its connection. *)
Lemma owed_later gen ka r s : owed_but owes gen s -> owed owes (respond_later handle gen ka r s).
Proof.
  intros Hs. unfold respond_later. destruct (s_conns s !! gen) as [c|] eqn:E.
  - apply owed_send; [|done]. intros s'. apply owed_parse.
  - destruct Hs as [Hk Ho]. split; [done|]. intros g Hg. apply Ho; [|done]. intros ->.
    destruct Hg as (c & Hc & _). congruence.
Qed.
End keeps.

(** ** On the event loop *)

Implicit Types n : Net H A.

(** The work of another component: a debt stays, or an answer comes with it. *)
Definition work_pays (owes : A -> Z -> Prop) (i : FdInput A) : Prop :=
  forall a, ok a -> ok (fst (fi_work i a)) /\
    forall g, owes a g -> owes (fst (fi_work i a)) g \/ g ∈ lt_gen <$> snd (fi_work i a).

(** Debts of which some are about to be paid. *)
Definition owes_or (owes : A -> Z -> Prop) (gens : list Z) (a : A) (g : Z) : Prop := owes a g \/ g ∈ gens.

Lemma handler_keeps_or owes gens : handler_keeps owes -> handler_keeps (owes_or owes gens).
Proof.
  intros Hh h gen ka req a o a' Hk E. destruct (Hh _ _ _ _ _ _ _ Hk E) as (Hk' & Hg & Hn).
  split; [done|]. split; [|intros; left; auto]. intros g Hne [Ho|Hi]; [left; auto|by right].
Qed.

Section loop.
Context (owes : A -> Z -> Prop) (Hh : handler_keeps owes).

Definition owed_net n : Prop := owed owes (n_server n).

Lemma laters_owed l : forall n,
  owed (owes_or owes (lt_gen <$> l)) (n_server n) -> owed_net (foldl (later handle) n l).
Proof.
  induction l as [|x l IH]; intros n [Hk Ho]; simpl.
  - split; [done|]. intros g Hg. destruct (Ho g Hg) as [?|Hi]; [done|]. by apply not_elem_of_nil in Hi.
  - apply IH. unfold later. rewrite settle_server. apply owed_later; [by apply handler_keeps_or|].
    split; [done|]. intros g Hne Hg. destruct (Ho g Hg) as [?|Hi]; [by left|].
    apply elem_of_cons in Hi as [?|?]; [done|by right].
Qed.

Lemma work_owed i n : work_pays owes i -> owed_net n -> owed_net (work handle i n).
Proof.
  intros Hi [Hk Ho]. unfold work. destruct (Hi _ Hk) as [Hk' Hp].
  destruct (fi_work i (s_app (n_server n))) as [app l]. simpl in *. apply laters_owed. split; [done|].
  intros g Hg. apply Hp, Ho, Hg.
Qed.

Lemma run_handler_owed k i n : work_pays owes i -> owed_net n -> owed_net (run_handler handle k i n).
Proof.
  intros Hi Hn. destruct k as [|gen|m]; simpl; [| |by apply work_owed].
  - clear Hi. revert n Hn. induction (fi_accepts i) as [|a l IH]; intros n Hn; [done|]. simpl. apply IH.
    destruct a as [fd|fd kernel]; [done|]. simpl. case_decide; [done|].
    unfold loop_add. destruct (_ || _); (eapply owed_calmer; [|exact Hn]);
      [apply (calmer_accept _ false)|apply (calmer_accept _ true)].
  - unfold owed_net. rewrite settle_server. apply owed_conn; [done|].
    eapply owed_calmer; [|exact Hn]. by apply calmer_conns.
Qed.

Lemma serve_owed rounds : forall n,
  Forall (fun rp => match fst rp with WaitReady evs => Forall (fun ev => work_pays owes (snd ev)) evs
                    | WaitError _ => True end /\ work_pays owes (snd rp)) rounds ->
  owed_net n -> owed_net (snd (serve handle rounds n)).
Proof.
  unfold serve. induction rounds as [|[r p] rounds IH]; intros n Hr Hn; simpl; [done|].
  inversion_clear Hr as [|? ? [Hw Hp] Hr']. simpl in Hw, Hp.
  assert (H1 : owed_net (snd (run_once n_loop (run_handler handle) r n))).
  { destruct r as [evs|e]; simpl; [|done]. clear -Hw Hh Hn. revert n Hn.
    induction Hw as [|ev evs He _ IH]; intros n Hn; simpl; [done|]. apply IH. unfold dispatch_event.
    destruct (l_handlers _ !! _); [by apply run_handler_owed|done]. }
  destruct (run_once n_loop (run_handler handle) r n) as [go n1]. simpl in H1. destruct go; simpl; [|done].
  apply IH; [done|]. by apply work_owed.
Qed.
End loop.
End owing.

(** ** The node process *)

Definition client_tag (w : Waiter) : option Z :=
  match w with WSubmit t | WStatus t | WLease t | WAck t => Some t | WPeer _ => None end.

Section proc.
Context {S M D : Type} `{!StoreOps S} `{!StoreLaws S} `{!Membership M}.
Context (le_ms : D -> Z -> bool) (add : D -> D -> D) (text : D -> bytes) (of_ms : Z -> D).
Abbreviation P := (@Proc S M D).
Implicit Types p : P.

(** The continuations that the RPC layer holds. *)
Definition in_flight p (fl : list Kont) : Prop := calls (pr_rpc p) ≡ₚ mbind resumed (pr_events p) ++ fl.

(** The client behind [tag] waits in the node or behind a call. *)
Definition held p (tag : Z) : Prop :=
  exists fl w, in_flight p fl /\ w ∈ waits (pr_node p) ++ kept fl /\ client_tag w = Some tag.

(** Job numbers have not run out. *)
Definition young p : Prop := Z.of_nat (length (pr_events p)) < 2 ^ 32 - 2.

#[global] Instance young_dec p : Decision (young p).
Proof. unfold young. apply _. Defined.

Definition sound p : Prop :=
  young p -> exists fl, in_flight p fl /\ backed fl (pr_node p) /\ node_wf (pr_node p) /\
    0 <= n_next_job_seq (pr_node p) <= 1 + Z.of_nat (length (pr_events p)).

(** Connection [g] is owed an answer, unless an exception has ended the process. *)
Definition owes p (g : Z) : Prop :=
  young p -> pr_crashed p = false ->
  exists ka, tag_of g ka ∈ (fst <$> pr_late p) \/ held p (tag_of g ka).

(** What taking the outputs of a node does to the process. *)
Lemma take_outs_spec os : forall p,
  let p' := foldl (take_out le_ms add of_ms) p os in
  pr_node p' = pr_node p /\ pr_events p' = pr_events p /\ pr_crashed p' = pr_crashed p /\
  calls (pr_rpc p') = calls (pr_rpc p) ++ calls os /\
  fst <$> pr_late p' = (fst <$> pr_late p) ++ omap client_tag (answers os).
Proof.
  induction os as [|o os IH]; intros p; simpl; [by rewrite !app_nil_r|].
  destruct (IH (take_out le_ms add of_ms p o)) as (E1 & E2 & E3 & E4 & E5).
  rewrite E1, E2, E3, E4, E5. unfold take_out, calls, answers.
  destruct o; simpl; rewrite ?omap_app, ?fmap_app, <- ?app_assoc; simpl; done.
Qed.

Lemma backed_set_out os fl (n : Node S M) : backed fl n -> backed fl (set_out os n).
Proof. intros [? ?]. by split. Qed.

Lemma wf_set_out os (n : Node S M) : node_wf n -> node_wf (set_out os n).
Proof. intros [? ? ?]. by split. Qed.

Abbreviation step := (proc_step le_ms add of_ms).

Lemma step_spec e p :
  let n' := node_step e (set_out [] (pr_node p)) in
  pr_node (step e p) = set_out [] n' /\ pr_events (step e p) = pr_events p ++ [e] /\
  pr_crashed (step e p) = pr_crashed p /\ calls (pr_rpc (step e p)) = calls (pr_rpc p) ++ calls (n_out n') /\
  fst <$> pr_late (step e p) = (fst <$> pr_late p) ++ omap client_tag (answers (n_out n')).
Proof.
  unfold proc_step. set (n' := node_step e _).
  match goal with |- context [foldl _ ?q (n_out n')] => destruct (take_outs_spec (n_out n') q) as (-> & -> & -> & -> & ->) end.
  by destruct e.
Qed.

Lemma young_step e p : young (step e p) -> young p.
Proof. unfold young. destruct (step_spec e p) as (_ & -> & _). rewrite length_app. simpl. lia. Qed.

(** The client behind [tag] has been asked for and not been answered over HTTP yet. *)
Definition open_tag p (tag : Z) : Prop := tag ∈ (fst <$> pr_late p) \/ held p tag.

(** An event keeps everybody who waits, and those it is asked for. *)
Lemma step_keeps e p :
  (young p -> mbind resumed (pr_events p) ++ resumed e ⊆+ calls (pr_rpc p)) -> sound p ->
  sound (step e p) /\
  (young (step e p) -> forall tag,
    open_tag p tag \/ (exists w, w ∈ asked e /\ client_tag w = Some tag) -> open_tag (step e p) tag).
Proof.
  intros Hsub Hs. destruct (decide (young (step e p))) as [Hy|Hy]; [|by split; intros ?].
  pose proof (young_step e p Hy) as Hy0. specialize (Hsub Hy0). destruct (Hs Hy0) as (fl & Hfl & Hb & Hw & Hq).
  assert (Hfl1 : exists fl1, fl ≡ₚ resumed e ++ fl1).
  { unfold in_flight in Hfl. rewrite Hfl in Hsub. apply submseteq_app_inv_l in Hsub.
    apply submseteq_Permutation in Hsub as [fl1 H1]. by exists fl1. }
  destruct Hfl1 as [fl1 Hfl1]. rewrite Hfl1 in Hb. unfold young in Hy0.
  destruct (step_ledger e fl1 (set_out [] (pr_node p))) as (os & O & A & B & Q);
    [by apply backed_set_out|by apply wf_set_out|simpl; lia|]. simpl in O.
  destruct (step_spec e p) as (En & Ee & Ec & Er & El). rewrite O in Er, El.
  assert (Hf' : in_flight (step e p) (calls os ++ fl1)).
  { unfold in_flight in *. rewrite Er, Ee, bind_app, Hfl, Hfl1. simpl. rewrite app_nil_r. solve_Permutation. }
  split.
  - intros _. exists (calls os ++ fl1). split; [exact Hf'|]. rewrite En, Ee.
    split; [by apply backed_set_out|]. split; [by apply wf_set_out, node_step_wf, wf_set_out|].
    rewrite length_app. simpl in *. lia.
  - intros _ tag Ht.
    assert (Hin : forall w, w ∈ asked e ++ waits (pr_node p) ++ kept fl -> client_tag w = Some tag -> open_tag (step e p) tag).
    { intros w Hwi Hwt.
      assert (Hw' : w ∈ answers os ++ waits (node_step e (set_out [] (pr_node p))) ++ kept (calls os ++ fl1)).
      { rewrite Hfl1, !kept_app in Hwi. rewrite kept_app.
        assert (Hx : w ∈ (asked e ++ kept (resumed e) ++ waits (set_out [] (pr_node p))) ++ kept fl1)
          by (rewrite !elem_of_app in *; naive_solver).
        rewrite <- A in Hx. rewrite !elem_of_app in *. naive_solver. }
      apply elem_of_app in Hw' as [Ha|Hh].
      - left. rewrite El. apply elem_of_app. right. apply list_elem_of_omap. by exists w.
      - right. exists (calls os ++ fl1), w. split; [exact Hf'|]. split; [|done]. rewrite En. exact Hh. }
    destruct Ht as [[Hl|(fl2 & w & Hf2 & Hwi & Hwt)]|(w & Hwi & Hwt)].
    + left. rewrite El. apply elem_of_app. by left.
    + apply (Hin w); [|done]. unfold in_flight in Hfl, Hf2. rewrite Hfl in Hf2. apply Permutation_app_inv_l in Hf2.
      rewrite Hf2. apply elem_of_app. by right.
    + apply (Hin w); [|done]. apply elem_of_app. by left.
Qed.

Lemma step_owes e p g :
  (young p -> mbind resumed (pr_events p) ++ resumed e ⊆+ calls (pr_rpc p)) -> sound p ->
  owes p g -> owes (step e p) g.
Proof.
  intros Hsub Hs Ho Hy Hc. destruct (step_keeps e p Hsub Hs) as [_ Hk].
  destruct (step_spec e p) as (_ & _ & Ec & _). rewrite Ec in Hc.
  destruct (Ho (young_step e p Hy) Hc) as [ka Ht]. exists ka. apply Hk; [done|]. by left.
Qed.

(** An event of a client runs no continuation. *)
Lemma step_client (e : Event M) p : resumed e = [] -> sound p ->
  young p -> mbind resumed (pr_events p) ++ resumed e ⊆+ calls (pr_rpc p).
Proof.
  intros -> Hs Hy. rewrite app_nil_r. destruct (Hs Hy) as (fl & Hf & _). unfold in_flight in Hf. rewrite Hf.
  by apply submseteq_inserts_r.
Qed.

Lemma take_response_spec tag rs a rest :
  take_response tag rs = (a, rest) ->
  (a = None -> (tag ∉ (fst <$> rs)) /\ rest = rs) /\
  forall t, t <> tag -> t ∈ (fst <$> rs) -> t ∈ (fst <$> rest).
Proof.
  revert a rest. induction rs as [|[t r] rs IH]; intros a rest; simpl.
  { intros [= <- <-]. split; [intros _; split; [apply not_elem_of_nil|done]|done]. }
  destruct (Z.eqb_spec t tag) as [->|Hne].
  - intros [= <- <-]. split; [done|]. intros t Ht Hi. apply elem_of_cons in Hi as [->|Hi]; [done|exact Hi].
  - destruct (take_response tag rs) as [a' rest'] eqn:E. intros [= <- <-]. destruct (IH _ _ eq_refl) as [I1 I2].
    split.
    + intros Ha. destruct (I1 Ha) as [Hn ->]. split; [|done]. apply not_elem_of_cons. done.
    + intros t' Ht Hi. simpl. apply elem_of_cons in Hi as [->|Hi]; [apply elem_of_cons; by left|].
      apply elem_of_cons. right. auto.
Qed.

Lemma tag_of_inj g ka g' ka' : tag_of g ka = tag_of g' ka' -> g = g'.
Proof. unfold tag_of. destruct ka, ka'; lia. Qed.

Lemma action_asks rt tag req p e :
  api_action text rt tag req p = Run e ->
  resumed e = [] /\ exists w, w ∈ asked e /\ client_tag w = Some tag.
Proof.
  assert (Hw : forall (x : Waiter) t, client_tag x = Some t -> exists w, w ∈ [x] /\ client_tag w = Some t)
    by (intros x t Hx; exists x; split; [by apply list_elem_of_singleton|done]).
  destruct rt; simpl; try done.
  - unfold submit_action. repeat case_match; try done. intros [= <-]. split; [done|]. by apply Hw.
  - unfold lease_action. case_match; [|done]. intros [= <-]. split; [done|]. by apply Hw.
  - unfold ack_action. repeat case_match; try done; intros [= <-]; split; try done; by apply Hw.
  - unfold status_action. case_match; [|done]. intros [= <-]. split; [done|]. by apply Hw.
Qed.

Lemma api_keeps : handler_keeps (api_handle le_ms add text of_ms) sound owes.
Proof.
  intros rt gen ka req p o p' Hs. unfold api_handle. destruct (pr_crashed p) eqn:Hc.
  { intros [= <- <-]. split_and!; [done|done|]. intros _ _ Hc'. congruence. }
  set (p1 := match rt with RDrain => _ | _ => _ end).
  assert (H1 : sound p1 /\ forall g, owes p g -> owes p1 g).
  { destruct rt; try done. split; [by apply step_keeps; [apply step_client|]|].
    intros g. apply step_owes; [by apply step_client|done]. }
  destruct H1 as [Hs1 Ho1]. destruct (api_action text rt (tag_of gen ka) req p1) as [r|e|] eqn:Ea.
  - intros [= <- <-]. split_and!; [done|auto|done].
  - apply action_asks in Ea as (Hr & w & Hw & Ht). pose proof (step_client e p1 Hr Hs1) as Hsub.
    destruct (step_keeps e p1 Hsub Hs1) as [Hs2 Hk2].
    destruct (take_response (tag_of gen ka) (pr_late (step e p1))) as [a late] eqn:Et.
    destruct (take_response_spec _ _ _ _ Et) as [Hnone Hrest]. intros [= <- <-]. split_and!; [done| |].
    + intros g Hne Hg Hy Hcr. destruct (step_owes e p1 g Hsub Hs1 (Ho1 g Hg) Hy Hcr) as (k & [Hl|Hh]);
        exists k; [left|by right]. simpl. apply Hrest; [|done]. intros E. by apply tag_of_inj in E.
    + intros Ha Hy Hcr. exists ka. destruct (Hnone Ha) as [Hn ->]. destruct (Hk2 Hy (tag_of gen ka)) as [Hl|Hh].
      * right. by exists w.
      * done.
      * by right.
  - intros [= <- <-]. split_and!; [done|..]; by intros.
Qed.
End proc.

(** ** From the arguments to the end *)

Section main.
Context (crc32c : bytes -> Z) (make_endpoint : bytes -> Z -> option Endpoint).
Context {D : Type} (le_ms : D -> Z -> bool) (add : D -> D -> D) (zero : D) (text : D -> bytes) (of_ms : Z -> D).
Abbreviation NP := (@Proc (DurableStore crc32c) SwimMembership D).
Implicit Types p : NP.

Lemma do_work_keeps w p :
  sound p -> sound (do_work crc32c le_ms add of_ms p w) /\
  forall g, owes p g -> owes (do_work crc32c le_ms add of_ms p w) g.
Proof.
  intros Hs. unfold do_work. destruct (rpc_holds _ p (work_konts w)) eqn:Eh; [|done]. cbn [negb].
  unfold rpc_holds in Eh. apply bool_decide_eq_true in Eh.
  assert (Hstep : forall e (q : NP), sound q -> pr_events q = pr_events p -> pr_rpc q = pr_rpc p -> resumed e = work_konts w ->
    sound (proc_step le_ms add of_ms e q) /\ forall g, owes q g -> owes (proc_step le_ms add of_ms e q) g).
  { intros e q Hq E1 E2 Er.
    assert (Hsub : young q -> mbind resumed (pr_events q) ++ resumed e ⊆+ calls (pr_rpc q)) by (by rewrite E1, E2, Er).
    split; [by apply step_keeps|]. intros g. by apply step_owes. }
  destruct w as [ctx b|k c b|ks|mem now busy|ep st failed]; try (by apply Hstep).
  unfold swim_change. destruct st as [[]|]; [..|done].
  - exact (Hstep (EvPeerAlive (data_ep ep)) (set_churn (u64 (pr_churn p + 1)) p) Hs eq_refl eq_refl eq_refl).
  - exact (Hstep (EvPeerDead failed) (set_churn (u64 (pr_churn p + 1)) p) Hs eq_refl eq_refl eq_refl).
Qed.

Lemma do_works_keep ws : forall p,
  sound p -> sound (foldl (do_work crc32c le_ms add of_ms) p ws) /\
  forall g, owes p g -> owes (foldl (do_work crc32c le_ms add of_ms) p ws) g.
Proof.
  induction ws as [|w ws IH]; intros p Hs; [done|]. simpl. destruct (do_work_keeps w p Hs) as [H1 O1].
  destruct (IH _ H1) as [H2 O2]. split; [done|]. auto.
Qed.

Lemma node_work_pays i : work_pays sound owes (fd_input crc32c le_ms add of_ms i).
Proof.
  intros p Hs. simpl. unfold node_work. destruct (pr_crashed p) eqn:Hc; [by split; [|left]|].
  destruct (do_works_keep (ni_work i) p Hs) as [H1 O1]. set (q := foldl _ p _) in *. split; [exact H1|].
  intros g Ho. cbn [fst snd]. destruct (decide (young q)) as [Hy|Hy]; [|left; intros Hy'; by destruct (Hy Hy')].
  destruct (pr_crashed q) eqn:Hq; [left; intros _ Hq'; simpl in Hq'; congruence|].
  destruct (O1 g Ho Hy Hq) as (ka & [Hl|Hh]).
  - right. apply list_elem_of_fmap in Hl as (tr & Et & Hi). rewrite <- list_fmap_compose. apply list_elem_of_fmap.
    exists tr. split; [|done]. simpl. rewrite <- Et. unfold tag_of.
    apply (Z.div_unique _ 2 _ (if ka then 1 else 0)); destruct ka; lia.
  - left. intros _ _. exists ka. by right.
Qed.

(** The process when it begins to serve. *)
Lemma main_proc_sound env su st :
  ids_ok (s_table st) -> sound (main_proc crc32c le_ms add zero of_ms (main_node crc32c env su st)).
Proof.
  intros Hid _. set (n := main_node crc32c env su st).
  destruct (main_node_wf crc32c env su st Hid) as [Hw _].
  assert (Hn : exists n0, n = node_open n0 /\ nothing_waits n0 /\ n_out n0 = [] /\ n_next_job_seq n0 = 1)
    by (eexists; split; [reflexivity|done]).
  destruct Hn as (n0 & En0 & H0 & Ho & Hs). destruct (open_ledger n0 H0 Ho) as (_ & _ & Hb & Hq).
  rewrite <- En0, Hs in *.
  unfold main_proc. fold n.
  match goal with |- context [foldl _ ?q (n_out n)] => destruct (take_outs_spec le_ms add of_ms (n_out n) q) as (En & Ee & _ & Er & _) end.
  exists (calls (n_out n)). unfold in_flight. rewrite En, Ee, Er. simpl.
  split_and!; [done|by apply backed_set_out|by apply wf_set_out|simpl; lia|simpl; lia].
Qed.
End main.

Lemma start_conns {H A} (routes : list (bytes * H)) (app : A) fd others :
  s_conns (n_server (start routes app fd others)) = ∅.
Proof.
  unfold start. generalize (imap pair others). intros l.
  assert (H0 : s_conns (n_server (snd (listen (Some fd) true true true true true (new_net routes app)))) = ∅)
    by (unfold listen, loop_add; by destruct (_ || _)).
  revert H0. generalize (snd (listen (Some fd) true true true true true (new_net routes app))).
  induction l as [|[m f] l IH]; intros n Hn; [done|]. simpl. apply IH. unfold add_other, loop_add.
  by destruct (_ || _).
Qed.

(** ** The property *)

(** C5: no HTTP request is left behind.  Whatever clients, peers, sessions and system
    calls do to a node process, from its command line to a signal: while no exception has
    ended it, a connection whose request has not been answered either has its answer ready
    to be written, or its callback is held by a pending submit, a quorum or a call that the
    RPC layer still has to end; and once the RPC layer holds no call and no answer is to be
    written, no connection waits. *)
Theorem no_request_left_behind (crc32c : bytes -> Z) (make_endpoint : bytes -> Z -> option Endpoint)
  {D : Type} (le_ms : D -> Z -> bool) (add : D -> D -> D) (zero : D) (text : D -> bytes) (of_ms : Z -> D)
  args (env : NodeEnv) net :
  snd (node_main crc32c make_endpoint le_ms add zero text of_ms args env) = Some net ->
  let p := app_of net in
  pr_crashed p = false -> young p ->
  (forall gen c, s_conns (n_server net) !! gen = Some c -> awaiting_handler c = true ->
     exists ka, tag_of gen ka ∈ (fst <$> pr_late p) \/ held p (tag_of gen ka)) /\
  (pr_late p = [] -> calls (pr_rpc p) ≡ₚ mbind resumed (pr_events p) ->
     forall gen c, s_conns (n_server net) !! gen = Some c -> awaiting_handler c = false).
Proof.
  intros Hm p Hc Hy. unfold node_main in Hm.
  destruct (node_startup make_endpoint args) as [[su|]|]; [|done..]. destruct (_ || _); [done|].
  destruct (store_open crc32c (ne_disk env) (ne_open_io env) kSegmentBytes) as [[] st] eqn:Eo; [|done].
  cbn [negb] in Hm. set (p0 := main_proc _ _ _ _ _ _) in Hm.
  destruct (main_serve _ _ _ _ _ env p0) as [e o] eqn:Em. simpl in Hm. subst o.
  apply main_serve_starts in Em as (fd & En & _).
  assert (Hn : owed_net sound owes net).
  { rewrite En. apply serve_owed; [apply api_keeps| |].
    - unfold node_rounds. apply Forall_fmap, Forall_true. intros [r i]. simpl. split; [|apply node_work_pays].
      destruct r as [evs|b]; [|done]. simpl. apply Forall_fmap, Forall_true. intros ev. apply node_work_pays.
    - split.
      + change (sound (app_of (start node_routes p0 fd [ne_data_fd env; ne_swim_fd env]))). rewrite start_app.
        apply main_proc_sound. by eapply store_open_ids_ok.
      + intros g (c & Hg & _). by rewrite start_conns, lookup_empty in Hg. }
  destruct Hn as [Hs Ho].
  assert (H1 : forall gen c, s_conns (n_server net) !! gen = Some c -> awaiting_handler c = true ->
    exists ka, tag_of gen ka ∈ (fst <$> pr_late p) \/ held p (tag_of gen ka)).
  { intros gen c Hg Ha. by apply (Ho gen (ex_intro _ c (conj Hg Ha))). }
  split; [exact H1|]. intros Hl Hr gen c Hg. destruct (awaiting_handler c) eqn:Ha; [|done].
  destruct (H1 gen c Hg Ha) as (ka & [Hi|(fl & w & Hf & Hw & _)]).
  { rewrite Hl in Hi. by apply not_elem_of_nil in Hi. }
  destruct (Hs Hy) as (fl' & Hf' & Hb & _). unfold in_flight in Hf, Hf'.
  assert (Hnil : forall l, calls (pr_rpc p) ≡ₚ mbind resumed (pr_events p) ++ l -> l = []).
  { intros l Hp. rewrite Hr in Hp. apply Permutation_nil_r. apply (Permutation_app_inv_l (mbind resumed (pr_events p))).
    by rewrite app_nil_r. }
  apply Hnil in Hf as ->. apply Hnil in Hf' as ->. pose proof (backed_nothing _ Hb) as Hz.
  change (waits (pr_node p) = []) in Hz.
  rewrite Hz in Hw. by apply not_elem_of_nil in Hw.
Qed.

(** ** Witness: a submit that waits for its replicas, and the replicas' answers *)
Module WaitingSample.
Definition swim : SwimView := mkSwimView [(swim_ep Sample.node_b, true); (swim_ep Sample.node_c, true)] (fun _ => true).
Definition submit_request : bytes :=
  lit "POST /v1/jobs?key=k1&url=http HTTP/1.1" ++ crlf ++ crlf.
Definition id : JobId := mkJobId 1099680065571 4294967297.
Definition replicas_answer : list Work :=
  [WResponse (KReplicate id 1) 0 []; WResponse (KReplicate id 2) 0 []].

(** A client connects, submits a job, and the RPC layer does [last]. *)
Definition env (last : list Work) : NodeEnv :=
  mkNodeEnv true true 1 empty_disk [] [] swim 0 [] true (Some 5) true true true true 3 4
    [(WaitReady [(5, mkNodeInput EPOLLIN ([], false) [] [Accepted 7 true] [])], MainSample.quiet);
     (WaitReady [(7, mkNodeInput EPOLLIN ([submit_request], false) [] [] [])], MainSample.quiet);
     (WaitReady [], mkNodeInput 0 ([], false) [] [] last)].

Abbreviation SampleNet := (Net Route (@Proc (DurableStore WalSample.sum32) SwimMembership Z)).

Definition outcome (last : list Work) : MainEnd * option SampleNet :=
  node_main WalSample.sum32 ArgsSample.make_endpoint (fun d b => d <=? b) Z.add 0 (fun v => to_string v)
    (fun ms => ms) MainSample.args (env last).

(** The process runs, is [young], and leaves no answer to be written. *)
Definition settled (net : SampleNet) : bool :=
  let p := app_of net in
  negb (pr_crashed p) && bool_decide (young p) && bool_decide (length (pr_late p) = 0%nat).
Definition first_waits (net : SampleNet) : bool :=
  match s_conns (n_server net) !! 1 with Some c => awaiting_handler c | None => false end.
Definition first_open (net : SampleNet) : bool :=
  match s_conns (n_server net) !! 1 with Some c => true | None => false end.
Definition calls_ended (net : SampleNet) : bool :=
  bool_decide (calls (pr_rpc (app_of net)) = mbind resumed (pr_events (app_of net))).

Lemma settled_spec net : settled net = true ->
  pr_crashed (app_of net) = false /\ young (app_of net) /\ pr_late (app_of net) = [].
Proof.
  unfold settled. rewrite !andb_true_iff, negb_true_iff, !bool_decide_eq_true.
  intros [[Hc Hy] Hl]. split_and!; [done..|by apply nil_length_inv].
Qed.
End WaitingSample.

Lemma no_request_left_behind_witness :
  (exists net ka, snd (WaitingSample.outcome []) = Some net /\ held (app_of net) (tag_of 1 ka)) /\
  (exists net, snd (WaitingSample.outcome WaitingSample.replicas_answer) = Some net /\
     WaitingSample.first_open net = true /\ WaitingSample.first_waits net = false).
Proof.
  pose proof (fun last net => no_request_left_behind WalSample.sum32 ArgsSample.make_endpoint (fun d b => d <=? b)
    Z.add 0 (fun v => to_string v) (fun ms => ms) MainSample.args (WaitingSample.env last) net) as Hp.
  split.
  - specialize (Hp []). fold (WaitingSample.outcome []) in Hp.
    assert (Eo : match snd (WaitingSample.outcome []) with
      | Some net => WaitingSample.settled net && WaitingSample.first_waits net | None => false end = true)
      by (vm_compute; reflexivity).
    destruct (snd (WaitingSample.outcome [])) as [net|]; [|discriminate].
    apply andb_true_iff in Eo as [Es Ew]. apply WaitingSample.settled_spec in Es as (Hc & Hy & Hl).
    destruct (Hp net eq_refl Hc Hy) as [H1 _]. unfold WaitingSample.first_waits in Ew.
    destruct (s_conns (n_server net) !! 1) as [c|] eqn:Eg; [|discriminate].
    destruct (H1 1 c Eg Ew) as (ka & [Hi|Hh]).
    { rewrite Hl in Hi. by apply not_elem_of_nil in Hi. }
    exists net, ka. split; [reflexivity|exact Hh].
  - specialize (Hp WaitingSample.replicas_answer). fold (WaitingSample.outcome WaitingSample.replicas_answer) in Hp.
    assert (Eo : match snd (WaitingSample.outcome WaitingSample.replicas_answer) with
      | Some net => WaitingSample.settled net && WaitingSample.calls_ended net && WaitingSample.first_open net
      | None => false end = true) by (vm_compute; reflexivity).
    destruct (snd (WaitingSample.outcome WaitingSample.replicas_answer)) as [net|]; [|discriminate].
    apply andb_true_iff in Eo as [[Es Ec]%andb_true_iff Ef]. apply WaitingSample.settled_spec in Es as (Hc & Hy & Hl).
    apply bool_decide_eq_true in Ec. destruct (Hp net eq_refl Hc Hy) as [_ H2].
    assert (Er : calls (pr_rpc (app_of net)) ≡ₚ mbind resumed (pr_events (app_of net))) by (by rewrite Ec).
    exists net. split; [reflexivity|]. split; [exact Ef|]. unfold WaitingSample.first_waits.
    destruct (s_conns (n_server net) !! 1) as [c|] eqn:Eg; [|reflexivity]. exact (H2 Hl Er 1 c Eg).
Defined.
