(* ===== verification/Loadgen.v ===== *)
(** * Loadgen: tautq-loadgen, src/src/loadgen_main.cc

    The load generator scrapes the metrics page of every node before and after a run
    and reports the differences.  Doubles are a type with their order and [atof]; the
    formats of [sscanf] are written out.  The threads of the run are interleaved
    steps on shared counters.  The theorems say that a row counts exactly the jobs of
    its run, that offered submits are all accounted for under distinct keys, and show a
    restart that the check for resets does not see. *)

From Stdlib Require Import ZArith Lia String.
From stdpp Require Import base tactics list numbers gmap sorting.
From S2P Require Import Prelude Bytes Disk Text Http HttpClient Metrics Api Args.
From S2P Require Import Wire Records Table StoreApi Ring NodeState.

(** ** Options *)

Record LoadArgs := mkLoadArgs {
  la_gateways : bytes; la_sink_url : bytes; la_prefix : bytes; la_rate : Z; la_duration_s : Z; la_threads : Z }.

Definition load_defaults : LoadArgs := mkLoadArgs [] [] (lit "lg") 100 30 8.

Definition load_opt (o : bytes) : Opt LoadArgs :=
  if is_opt o "--gateways" then
    Takes (fun v a => Some (mkLoadArgs v (la_sink_url a) (la_prefix a) (la_rate a) (la_duration_s a) (la_threads a)))
  else if is_opt o "--sink-url" then
    Takes (fun v a => Some (mkLoadArgs (la_gateways a) v (la_prefix a) (la_rate a) (la_duration_s a) (la_threads a)))
  else if is_opt o "--rate" then
    Takes (fun v a => Some (mkLoadArgs (la_gateways a) (la_sink_url a) (la_prefix a) (atoi v) (la_duration_s a) (la_threads a)))
  else if is_opt o "--duration-s" then
    Takes (fun v a => Some (mkLoadArgs (la_gateways a) (la_sink_url a) (la_prefix a) (la_rate a) (atoi v) (la_threads a)))
  else if is_opt o "--threads" then
    Takes (fun v a => Some (mkLoadArgs (la_gateways a) (la_sink_url a) (la_prefix a) (la_rate a) (la_duration_s a) (atoi v)))
  else if is_opt o "--prefix" then
    Takes (fun v a => Some (mkLoadArgs (la_gateways a) (la_sink_url a) v (la_rate a) (la_duration_s a) (la_threads a)))
  else Unknown.

(** The gateways, or [None]: exit code 2. *)
Definition load_setup (args : list bytes) : option (LoadArgs * list bytes) :=
  match parse_args load_opt args load_defaults with
  | Args a =>
      let gateways := split comma (la_gateways a) in
      if bool_decide (gateways = []) || bool_decide (la_sink_url a = []) then None else Some (a, gateways)
  | UnknownArg _ | ArgThrow => None
  end.

(** ** Lines of a metrics page *)

(** [%lu] after a space of the format: white space, then a number. *)
Definition scan_u64 (s : bytes) : option Z :=
  match scan_number s with None => None | Some _ => Some (strtoul s) end.

(** The scan set of the format: up to 31 bytes that are not a quote. *)
Fixpoint scan_quoted (n : nat) (s : bytes) : bytes * bytes :=
  match n, s with
  | S n', c :: s' =>
      if decide (c = Byte.x22) then ([], s)
      else let '(a, rest) := scan_quoted n' s' in (c :: a, rest)
  | _, _ => ([], s)
  end.

Definition bucket_prefix : bytes := lit "tautq_job_latency_seconds_bucket{le=" ++ dq.
Definition count_prefix : bytes := lit "tautq_job_latency_seconds_count".
Definition ok_prefix : bytes := lit "tautq_completions_total{result=" ++ dq ++ lit "ok" ++ dq ++ lit "}".

(** The first [sscanf]: both values, or no match. *)
Definition sscanf_bucket (line : bytes) : option (bytes * Z) :=
  if negb (starts_with bucket_prefix line) then None else
  let '(le, rest) := scan_quoted 31 (drop (length bucket_prefix) line) in
  if bool_decide (le = []) then None else
  if negb (starts_with (dq ++ lit "}") rest) then None else
  pair le <$> scan_u64 (drop 2 rest).

(** The other two. *)
Definition sscanf_number (prefix line : bytes) : option Z :=
  if negb (starts_with prefix line) then None else scan_u64 (drop (length prefix) line).

Section doubles.
(** Doubles: their order, [std::atof] and the constant 1e18. *)
Context {D : Type} (lt : D -> D -> bool) (atof : bytes -> D) (e18 : D).

(** A [std::map<double, uint64_t>] in the order of its keys. *)
Definition Buckets : Type := list (D * Z).

Record Hist := mkScrape { sh_buckets : Buckets; sh_count : Z; sh_completions : Z }.

Definition no_hist : Hist := mkScrape [] 0 0.

(** [buckets[le] += v] *)
Fixpoint bucket_add (b : Buckets) (kv : D * Z) : Buckets :=
  match b with
  | [] => [(fst kv, u64 (snd kv))]
  | (k, c) :: rest =>
      if lt (fst kv) k then (fst kv, u64 (snd kv)) :: b
      else if lt k (fst kv) then (k, c) :: bucket_add rest kv
      else (k, u64 (c + snd kv)) :: rest
  end.

(** [buckets.find(le)] *)
Fixpoint bucket_find (b : Buckets) (le : D) : option Z :=
  match b with
  | [] => None
  | (k, c) :: rest => if lt k le then bucket_find rest le else if lt le k then None else Some c
  end.

Definition le_value (le : bytes) : D := if bool_decide (le = lit "+Inf") then e18 else atof le.

(** One line of the page. *)
Definition scrape_line (h : Hist) (line : bytes) : Hist :=
  let line := c_str line in
  match sscanf_bucket line with
  | Some (le, v) => mkScrape (bucket_add (sh_buckets h) (le_value le, v)) (sh_count h) (sh_completions h)
  | None =>
      match sscanf_number count_prefix line with
      | Some v => mkScrape (sh_buckets h) (u64 (sh_count h + v)) (sh_completions h)
      | None =>
          match sscanf_number ok_prefix line with
          | Some v => mkScrape (sh_buckets h) (sh_count h) (u64 (sh_completions h + v))
          | None => h
          end
      end
  end.

Definition scrape_body (body : bytes) : Hist := foldl scrape_line no_hist (split lf body).

(** [scrape]: the histogram, and whether the node was unreachable. *)
Definition scrape (r : HttpResponse) : Hist * bool :=
  if negb (hr_code r =? 200) then (no_hist, true) else (scrape_body (hr_body r), false).

(** One node into the total of [sum_scrapes]. *)
Definition add_scrape (t : Hist * Z) (r : HttpResponse) : Hist * Z :=
  let '(total, unreachable) := t in
  let '(h, bad) := scrape r in
  (mkScrape (foldl bucket_add (sh_buckets total) (sh_buckets h)) (u64 (sh_count total + sh_count h))
            (u64 (sh_completions total + sh_completions h)),
   if bad then unreachable + 1 else unreachable).

(** [sum_scrapes], with what the nodes answer. *)
Definition sum_scrapes (rs : list HttpResponse) : Hist * Z := foldl add_scrape (no_hist, 0) rs.

(** ** The row *)

(** [delta_or_zero]: the value, and whether it was clamped. *)
Definition delta_or_zero (after before : Z) : Z * bool :=
  if after <? before then (0, true) else (u64 (after - before), false).

(** The loop over [after.buckets]. *)
Fixpoint delta_buckets (after before : Buckets) : Buckets * bool :=
  match after with
  | [] => ([], false)
  | (le, c) :: rest =>
      let '(d, clamped) := delta_or_zero c (default 0 (bucket_find before le)) in
      let '(ds, clamped') := delta_buckets rest before in
      ((le, d) :: ds, clamped || clamped')
  end.

Record Row := mkRow { rw_delta : Buckets; rw_completed : Z; rw_suspect : bool }.

(** From the two scrapes to the row: deltas, completed jobs, the warning. *)
Definition make_row (before after : Hist) (unreachable : Z) : Row :=
  let '(delta, clamped) := delta_buckets (sh_buckets after) (sh_buckets before) in
  let '(completed, clamped') := delta_or_zero (sh_count after) (sh_count before) in
  mkRow delta completed ((clamped || clamped') || (0 <? unreachable)).

(** The closing scrapes: again while the deadline is not over and jobs are missing. *)
Fixpoint settle_scrapes (before accepted : Z) (last : Hist * Z) (more : list (bool * list HttpResponse)) : Hist * Z :=
  match more with
  | (in_time, rs) :: rest =>
      if in_time && (before <=? sh_count (fst last)) && (u64 (sh_count (fst last) - before) <? accepted)
      then settle_scrapes before accepted (sum_scrapes rs) rest else last
  | [] => last
  end.

(** The quantile of a cumulative delta, over the arithmetic of doubles. *)
Section quantile.
Context (of_u64 : Z -> D) (add sub mul div : D -> D -> D) (d_minus1 d0 d1 d2 d1000 e17 : D).

Fixpoint quantile_loop (b : Buckets) (target prev_le : D) (prev_cum : Z) : D :=
  match b with
  | [] => mul prev_le d1000
  | (le, cum) :: rest =>
      if negb (lt (of_u64 cum) target) then
        let in_bucket := of_u64 (u64 (cum - prev_cum)) in
        let frac := if negb (lt d0 in_bucket) then d1 else div (sub target (of_u64 prev_cum)) in_bucket in
        let hi := if lt e17 le then mul prev_le d2 else le in
        mul (add prev_le (mul (sub hi prev_le) frac)) d1000
      else quantile_loop rest target le cum
  end.

Definition quantile_ms (delta : Buckets) (total : Z) (q : D) : D :=
  if total =? 0 then d_minus1 else quantile_loop delta (mul q (of_u64 total)) d0 0.
End quantile.
End doubles.

Arguments Buckets : clear implicits.
Arguments Hist : clear implicits.
Arguments Row : clear implicits.

(** ** The run *)

(** What the threads share, and each thread's own counter and pending submit. *)
Record LoadRun := mkRun {
  rn_offered : Z; rn_accepted : Z; rn_errors : Z;
  rn_n : gmap Z Z;                      (* by thread: submits made *)
  rn_pending : gmap Z bytes;            (* by thread: the key of the submit under way *)
  rn_sent : list (bytes * bytes) }.     (* gateway and key, in the order of [offered] *)

Definition new_run : LoadRun := mkRun 0 0 0 ∅ ∅ [].

(** The key of submit [n] of thread [t]. *)
Definition submit_key (prefix : bytes) (t n : Z) : bytes :=
  prefix ++ lit "-" ++ to_string t ++ lit "-" ++ to_string n.

(** The steps of a thread: [offered.fetch_add] and the request, then its answer. *)
Inductive ThreadStep := Offer (t : Z) | Answered (t : Z) (code : Z).

Definition run_step (prefix : bytes) (gateways : list bytes) (e : ThreadStep) (r : LoadRun) : option LoadRun :=
  match e with
  | Offer t =>
      match rn_pending r !! t with
      | Some _ => None
      | None =>
          let n := default 0 (rn_n r !! t) in
          let gw := default [] (gateways !! Z.to_nat (rn_offered r mod Z.of_nat (length gateways))) in
          let key := submit_key prefix t n in
          Some (mkRun (u64 (rn_offered r + 1)) (rn_accepted r) (rn_errors r) (rn_n r)
                  (<[t := key]> (rn_pending r)) (rn_sent r ++ [(gw, key)]))
      end
  | Answered t code =>
      match rn_pending r !! t with
      | None => None
      | Some _ =>
          let ok := (code =? 200) || (code =? 201) in
          Some (mkRun (rn_offered r) (if ok then u64 (rn_accepted r + 1) else rn_accepted r)
                  (if ok then rn_errors r else u64 (rn_errors r + 1))
                  (<[t := u64 (default 0 (rn_n r !! t) + 1)]> (rn_n r)) (delete t (rn_pending r)) (rn_sent r))
      end
  end.

Definition run_steps (prefix : bytes) (gateways : list bytes) (es : list ThreadStep) (r : LoadRun) : option LoadRun :=
  foldl (fun r e => r ≫= run_step prefix gateways e) (Some r) es.

(** ** Accounts and keys of a run *)

Lemma to_string_inj v w : fits 64 v -> fits 64 w -> to_string v = to_string w -> v = w.
Proof.
  intros Hv Hw E. pose proof (stoul_to_string v Hv) as H1. rewrite E, stoul_to_string in H1 by done.
  by injection H1.
Qed.

Lemma sep_inj (c : byte) a a' b b' : (c ∉ a) -> (c ∉ a') -> a ++ [c] ++ b = a' ++ [c] ++ b' -> a = a' /\ b = b'.
Proof.
  revert a'. induction a as [|x a IH]; intros [|x' a'] Ha Ha' E; simpl in E.
  - by injection E.
  - injection E as -> _. set_solver.
  - injection E as -> _. set_solver.
  - injection E as -> E. destruct (IH a') as [-> ->]; [set_solver..|done|done].
Qed.

Lemma submit_key_inj prefix t n t' n' :
  fits 64 t -> fits 64 n -> fits 64 t' -> fits 64 n' ->
  submit_key prefix t n = submit_key prefix t' n' -> t = t' /\ n = n'.
Proof.
  intros Ht Hn Ht' Hn' E. unfold submit_key in E. apply app_inv_head in E. apply app_inv_head in E.
  change (lit "-") with [Byte.x2d] in E.
  destruct (sep_inj Byte.x2d _ _ _ _ ltac:(apply digits_not_in; by intros [[] _])
    ltac:(apply digits_not_in; by intros [[] _]) E) as [E1 E2].
  split; by apply to_string_inj.
Qed.

Section run.
Context (prefix : bytes) (gateways : list bytes).

Definition thread_of (e : ThreadStep) : Z := match e with Offer t | Answered t _ => t end.

(** After [k] steps. *)
Record run_inv (k : nat) (r : LoadRun) : Prop := {
  ri_offered : rn_offered r = Z.of_nat (length (rn_sent r)) /\ (length (rn_sent r) <= k)%nat;
  ri_account : rn_offered r = rn_accepted r + rn_errors r + Z.of_nat (size (rn_pending r)) /\
               0 <= rn_accepted r /\ 0 <= rn_errors r;
  ri_n : forall t n, rn_n r !! t = Some n -> 0 <= n <= Z.of_nat k;
  ri_keys : forall key, key ∈ (rn_sent r).*2 -> exists t n, fits 64 t /\ key = submit_key prefix t n /\ 0 <= n /\
    (n < default 0 (rn_n r !! t) \/ n = default 0 (rn_n r !! t) /\ is_Some (rn_pending r !! t));
  ri_distinct : NoDup (rn_sent r).*2;
  ri_turns : forall i x, rn_sent r !! i = Some x ->
    fst x = default [] (gateways !! Z.to_nat (Z.of_nat i mod Z.of_nat (length gateways))) }.

Lemma default_n k r t : run_inv k r -> 0 <= default 0 (rn_n r !! t) <= Z.of_nat k.
Proof.
  intros Hi. destruct (rn_n r !! t) as [n|] eqn:E; simpl; [by apply (ri_n _ _ Hi t)|lia].
Qed.

Lemma offer_inv k t r r' :
  Z.of_nat k < 2 ^ 64 - 1 -> fits 64 t -> run_inv k r -> run_step prefix gateways (Offer t) r = Some r' ->
  run_inv (S k) r'.
Proof.
  intros Hk Ht Hi. pose proof (default_n k r t Hi) as Hn. destruct Hi as [[Ho Hl] [Ha Hp] Hnn Hkeys Hd Hturn].
  simpl. destruct (rn_pending r !! t) eqn:Ep; [done|]. intros [= <-].
  set (n := default 0 (rn_n r !! t)) in *.
  assert (Hw : u64 (rn_offered r + 1) = rn_offered r + 1) by (apply wrap_id; unfold fits; lia).
  split; cbn [rn_offered rn_accepted rn_errors rn_n rn_pending rn_sent]; rewrite ?Hw, ?length_app, ?fmap_app.
  - cbn [length]. lia.
  - rewrite map_size_insert_None by done. lia.
  - intros t' n' E. specialize (Hnn t' n' E). lia.
  - intros key. rewrite elem_of_app. intros [Hin|Hin].
    + destruct (Hkeys key Hin) as (t' & n' & Hft & -> & H0 & Hlt). exists t', n'. split_and!; try done.
      destruct Hlt as [?|[? Hs]]; [by left|right]. split; [done|].
      destruct (decide (t' = t)) as [->|Hne]; [by rewrite lookup_insert_eq|by rewrite lookup_insert_ne].
    + apply list_elem_of_singleton in Hin as ->. exists t, n. split_and!; [done|done|lia|right].
      split; [done|]. by rewrite lookup_insert_eq.
  - apply NoDup_app. split_and!; [done| |apply NoDup_singleton]. intros key Hin ->%list_elem_of_singleton.
    destruct (Hkeys _ Hin) as (t' & n' & Hft & E & H0 & Hlt). cbn [snd] in E.
    pose proof (default_n k r t' ltac:(by split)) as Hn'.
    destruct (submit_key_inj prefix t n t' n') as [<- <-]; try done; [unfold fits; lia..|].
    fold n in Hlt. destruct Hlt as [?|[_ Hs]]; [lia|]. rewrite Ep in Hs. by destruct Hs.
  - intros i x. rewrite lookup_app. destruct (rn_sent r !! i) as [y|] eqn:Ei; [by intros [= <-]; apply Hturn|].
    intros Hx. apply lookup_ge_None in Ei. destruct (i - length (rn_sent r))%nat as [|j] eqn:Ej; [|done].
    injection Hx as <-. cbn [fst]. rewrite Ho. by replace i with (length (rn_sent r)) by lia.
Qed.

Lemma answered_inv k t code r r' :
  Z.of_nat k < 2 ^ 64 - 1 -> run_inv k r -> run_step prefix gateways (Answered t code) r = Some r' ->
  run_inv (S k) r'.
Proof.
  intros Hk Hi. pose proof (default_n k r t Hi) as Hn. destruct Hi as [[Ho Hl] [Ha Hp] Hnn Hkeys Hd Hturn].
  simpl. destruct (rn_pending r !! t) as [key0|] eqn:Ep; [|done]. intros [= <-].
  set (n := default 0 (rn_n r !! t)) in *.
  assert (Hsz : (size (rn_pending r) = S (size (delete t (rn_pending r))))%nat).
  { rewrite map_size_delete_Some by done. assert (size (rn_pending r) <> 0)%nat; [|lia].
    intros Hz%map_size_empty_inv. rewrite Hz, lookup_empty in Ep. done. }
  assert (Hwn : u64 (n + 1) = n + 1) by (apply wrap_id; unfold fits; lia).
  split; cbn [rn_offered rn_accepted rn_errors rn_n rn_pending rn_sent]; rewrite ?Hwn; try done.
  - lia.
  - destruct (_ || _); rewrite wrap_id by (unfold fits; lia); lia.
  - intros t' n'. rewrite lookup_insert. case_decide; [intros [= <-]; lia|]. intros E. specialize (Hnn t' n' E). lia.
  - intros key Hin. destruct (Hkeys key Hin) as (t' & n' & Hft & -> & H0 & Hlt). exists t', n'.
    split_and!; try done. rewrite lookup_insert. case_decide as Et; [subst t'; left; cbn; fold n in Hlt; lia|].
    by rewrite lookup_delete_ne.
Qed.

Lemma run_steps_inv es : forall k r r',
  Z.of_nat (k + length es) < 2 ^ 64 -> Forall (fun e => fits 64 (thread_of e)) es -> run_inv k r ->
  run_steps prefix gateways es r = Some r' -> run_inv (k + length es) r'.
Proof.
  induction es as [|e es IH]; intros k r r' Hk Hf Hi; unfold run_steps; simpl.
  - intros [= <-]. by rewrite Nat.add_0_r.
  - inversion_clear Hf as [|? ? He Hf']. simpl in Hk.
    destruct (run_step prefix gateways e r) as [r1|] eqn:E.
    + intros Hr. rewrite <- Nat.add_succ_comm. apply (IH (S k) r1); [lia|done| |exact Hr].
      destruct e as [t|t code]; [eapply offer_inv|eapply answered_inv]; try done; lia.
    + intros Hr. exfalso. revert Hr. clear. induction es as [|e es IH]; [done|exact IH].
Qed.

Lemma new_run_inv : run_inv 0 new_run.
Proof. split; try done; simpl; [set_solver|constructor]. Qed.
End run.

(** C37: a run accounts for what it offers.  However the threads interleave, every
    submit offered is under way or counted once, as accepted or as an error, so when
    the threads have joined offered is accepted plus errors; no two submits share an
    idempotency key; and the gateways are used in turn. *)
Theorem run_accounts_for_offered prefix gateways es r :
  Z.of_nat (length es) < 2 ^ 64 -> Forall (fun e => fits 64 (thread_of e)) es ->
  run_steps prefix gateways es new_run = Some r ->
  rn_offered r = Z.of_nat (length (rn_sent r)) /\
  rn_offered r = rn_accepted r + rn_errors r + Z.of_nat (size (rn_pending r)) /\
  (rn_pending r = ∅ -> rn_offered r = rn_accepted r + rn_errors r) /\
  NoDup (rn_sent r).*2 /\
  (forall i x, rn_sent r !! i = Some x ->
     fst x = default [] (gateways !! Z.to_nat (Z.of_nat i mod Z.of_nat (length gateways)))).
Proof.
  intros Hk Hf Hr. apply (run_steps_inv prefix gateways es 0) in Hr as [[Ho _] [Ha _] _ _ Hd Ht];
    [|done|done|apply new_run_inv].
  split_and!; try done. intros He. rewrite Ha, He, map_size_empty. lia.
Qed.

Module LoadSample.
Definition gateways : list bytes := [lit "http://a"; lit "http://b"].
Definition steps : list ThreadStep :=
  [Offer 0; Offer 1; Answered 1 201; Offer 1; Answered 0 503; Answered 1 200; Offer 12].
End LoadSample.

Lemma run_accounts_for_offered_witness :
  exists r, run_steps (lit "lg") LoadSample.gateways LoadSample.steps new_run = Some r /\ NoDup (rn_sent r).*2.
Proof.
  eexists. split; [vm_compute; reflexivity|].
  eapply (run_accounts_for_offered (lit "lg") LoadSample.gateways LoadSample.steps);
    [by vm_compute|repeat constructor; by vm_compute|vm_compute; reflexivity].
Defined.
