(* ===== verification/Scrape.v ===== *)
(** * Scrape: what the load generator reads off the nodes

    The metrics page of node_main.cc and metrics.cc as loadgen_main.cc reads it: the page
    is a list of lines, each is matched by the formats as meant, and the totals and
    differences over the nodes are those of their histograms. *)

From Stdlib Require Import ZArith Lia String.
From stdpp Require Import base tactics list numbers gmap sorting.
From S2P Require Import Prelude Bytes Disk Text Http HttpClient Metrics Api Args Sink Loadgen.
From S2P Require Import Wire Records Table StoreApi Ring NodeState QueueNode Fence.

(** ** The metrics page is its lines *)

(** Lengths of literals are computed, those of numbers are not. *)
Ltac lit_length :=
  rewrite ?length_app, ?length_dec_digits;
  repeat match goal with
  | |- context [length (lit ?s)] =>
      let n := eval vm_compute in (length (lit s)) in change (length (lit s)) with n
  end;
  change (length dq) with 1%nat; change (length [lf]) with 1%nat; lia.

Definition text_of_lines (ls : list bytes) : bytes := mjoin ((fun l => l ++ [lf]) <$> ls).

Lemma text_of_lines_app ls ls' : text_of_lines (ls ++ ls') = text_of_lines ls ++ text_of_lines ls'.
Proof. unfold text_of_lines. by rewrite fmap_app, join_app. Qed.

Lemma append_line out l : (length l <= 254)%nat -> append_text out (l ++ [lf]) = out ++ text_of_lines [l].
Proof.
  intros Hl. unfold append_text, text_of_lines. cbn [fmap list_fmap]. rewrite take_ge by lit_length.
  change (mjoin [l ++ [lf]]) with ((l ++ [lf]) ++ []). by rewrite app_nil_r.
Qed.

Definition counter_line (name labels : bytes) (v : Z) : bytes := name ++ labels ++ lit " " ++ to_string v.
Definition gauge_line (name labels : bytes) (v : Z) : bytes := name ++ labels ++ lit " " ++ whole_text v.
Definition bucket_text (name le : bytes) (cum : Z) : bytes :=
  name ++ lit "_bucket{le=" ++ dq ++ le ++ dq ++ lit "} " ++ to_string cum.

Lemma counter_appends name labels v out :
  (length name + length labels <= 200)%nat ->
  render_counter name labels v out = out ++ text_of_lines [counter_line name labels v].
Proof.
  intros Hl. unfold render_counter. rewrite <- append_line.
  - unfold counter_line. by rewrite <- !app_assoc.
  - unfold counter_line. pose proof (length_to_string v). lit_length.
Qed.

Lemma gauge_appends name labels v out :
  (length name + length labels <= 200)%nat ->
  render_gauge name labels v out = out ++ text_of_lines [gauge_line name labels v].
Proof.
  intros Hl. unfold render_gauge. rewrite <- append_line.
  - unfold gauge_line. by rewrite <- !app_assoc.
  - unfold gauge_line, whole_text. pose proof (length_to_string v). lit_length.
Qed.

Lemma length_seconds ms : (length (seconds_text ms) <= 24)%nat.
Proof.
  unfold seconds_text. pose proof (length_to_string (ms / 1000)). lit_length.
Qed.

Lemma bucket_appends name le cum out :
  (length name + length le <= 200)%nat ->
  append_text out (bucket_line name le cum) = out ++ text_of_lines [bucket_text name le cum].
Proof.
  intros Hl. rewrite <- append_line.
  - unfold bucket_line, bucket_text. by rewrite <- !app_assoc.
  - unfold bucket_text. pose proof (length_to_string cum). lit_length.
Qed.

Lemma buckets_append {D} name (h : @Histogram D) ns out :
  (length name <= 100)%nat ->
  foldl (fun out i => append_text out (bucket_line name (seconds_text (bucket_bound i)) (cumulative h i))) out ns =
  out ++ text_of_lines ((fun i => bucket_text name (seconds_text (bucket_bound i)) (cumulative h i)) <$> ns).
Proof.
  intros Hn. revert out. induction ns as [|i ns IH]; intros out; simpl foldl; [by rewrite app_nil_r|].
  rewrite IH, bucket_appends by (pose proof (length_seconds (bucket_bound i)); lia).
  cbn [fmap list_fmap]. change (?x :: ?l) with ([x] ++ l) at 2. by rewrite text_of_lines_app, app_assoc.
Qed.

Definition latency_name : bytes := lit "tautq_job_latency_seconds".

(** The lines of the histogram. *)
Definition latency_lines {D} (text : D -> bytes) (h : @Histogram D) : list bytes :=
  ((fun i => bucket_text latency_name (seconds_text (bucket_bound i)) (cumulative h i)) <$> seq 0 kBuckets) ++
  [bucket_text latency_name (lit "+Inf") (cumulative h kBuckets);
   latency_name ++ lit "_sum " ++ text (h_sum h);
   latency_name ++ lit "_count " ++ to_string (h_total h)].

Lemma render_lines {D} (text : D -> bytes) (h : @Histogram D) out :
  (length (text (h_sum h)) <= 200)%nat ->
  render text latency_name h out = out ++ text_of_lines (latency_lines text h).
Proof.
  intros Hs. unfold render. rewrite buckets_append by (vm_compute; lia).
  rewrite bucket_appends by (vm_compute; lia).
  assert (E1 : forall o, append_text o (latency_name ++ lit "_sum " ++ text (h_sum h) ++ [lf]) =
    o ++ text_of_lines [latency_name ++ lit "_sum " ++ text (h_sum h)]).
  { intros o. rewrite <- append_line; [by rewrite <- !app_assoc|]. unfold latency_name. lit_length. }
  assert (E2 : forall o, append_text o (latency_name ++ lit "_count " ++ to_string (h_total h) ++ [lf]) =
    o ++ text_of_lines [latency_name ++ lit "_count " ++ to_string (h_total h)]).
  { intros o. rewrite <- append_line; [by rewrite <- !app_assoc|]. pose proof (length_to_string (h_total h)).
    unfold latency_name. lit_length. }
  rewrite E1, E2. unfold latency_lines. rewrite text_of_lines_app, <- !app_assoc, <- !text_of_lines_app. done.
Qed.

Section page.
Context {S M D : Type} `{!StoreOps S} `{!Membership M} (text : D -> bytes).

(** The page of [metrics_text]: gauges and counters, then the histogram. *)
Definition page_lines (p : @Proc S M D) : list bytes :=
  let n := pr_node p in
  let c := n_counters n in
  [gauge_line (lit "tautq_queue_depth") (label "state" "ready") (depth n Ready);
   gauge_line (lit "tautq_queue_depth") (label "state" "dead_letter") (depth n DeadLetter);
   gauge_line (lit "tautq_jobs_done") [] (depth n Done);
   gauge_line (lit "tautq_inflight_leases") [] (depth n Leased);
   gauge_line (lit "tautq_replication_backlog") [] (Z.of_nat (size (n_repair n)));
   counter_line (lit "tautq_submits_total") [] (c_submits c);
   counter_line (lit "tautq_duplicates_total") [] (c_duplicates c);
   counter_line (lit "tautq_leases_granted_total") [] (c_leases_granted c);
   counter_line (lit "tautq_completions_total") (label "result" "ok") (c_completions_ok c);
   counter_line (lit "tautq_completions_total") (label "result" "fail") (c_completions_failed c);
   counter_line (lit "tautq_expirations_total") [] (c_expirations c);
   counter_line (lit "tautq_deadletters_total") [] (c_deadletters c);
   counter_line (lit "tautq_takeovers_total") [] (c_takeovers c);
   counter_line (lit "tautq_fenced_stale_total") [] (c_fenced_stale c);
   counter_line (lit "tautq_membership_churn_total") [] (pr_churn p)] ++
  latency_lines text (pr_latency p).

Lemma metrics_page p :
  (length (text (h_sum (pr_latency p))) <= 200)%nat -> metrics_text text p = text_of_lines (page_lines p).
Proof.
  intros Hs. unfold metrics_text. rewrite render_lines by done.
  rewrite !counter_appends, !gauge_appends by (vm_compute; lia).
  unfold page_lines. rewrite text_of_lines_app. f_equal.
  cbn [app]. rewrite <- !app_assoc, <- !text_of_lines_app. done.
Qed.
End page.

(** ** Reading the lines *)

Lemma split_loop_lines sep ls : forall fuel p,
  Forall (fun l => sep ∉ l) ls -> (length ls <= fuel)%nat ->
  split_loop fuel sep (p ++ mjoin ((fun l => l ++ [sep]) <$> ls)) (length p) = ls.
Proof.
  induction ls as [|l ls IH]; intros fuel p Hls Hf.
  - change (mjoin _) with (@nil byte). rewrite app_nil_r. destruct fuel; [done|]. cbn [split_loop].
    by rewrite (proj2 (Nat.ltb_ge _ _)) by lia.
  - destruct fuel as [|fuel]; [simpl in Hf; lia|]. inversion_clear Hls as [|? ? Hl Hls'].
    change (mjoin ((fun l => l ++ [sep]) <$> l :: ls))
      with ((l ++ [sep]) ++ mjoin ((fun l => l ++ [sep]) <$> ls)).
    set (rest := mjoin _). cbn [split_loop]. unfold find_from. rewrite drop_app_length, <- (app_assoc l).
    rewrite (find_sub_first sep []) by done. cbn [fmap option_fmap option_map default]. unfold id.
    rewrite !length_app, (proj2 (Nat.ltb_lt _ _)) by (cbn [length]; lia).
    rewrite (substr_mid p l) by lia. f_equal.
    specialize (IH fuel (p ++ l ++ [sep]) Hls' ltac:(simpl in Hf |- *; lia)).
    fold rest in IH. rewrite !length_app, <- !app_assoc in IH. cbn [length] in IH.
    etransitivity; [|exact IH]. f_equal. lia.
Qed.

Lemma split_lines ls : Forall (fun l => lf ∉ l) ls -> split lf (text_of_lines ls) = ls.
Proof.
  intros Hls. unfold split. apply (split_loop_lines lf ls _ [] Hls). clear Hls.
  induction ls as [|l ls IH]; [cbn; lia|]. change (l :: ls) with ([l] ++ ls).
  rewrite text_of_lines_app, !length_app. unfold text_of_lines at 1. cbn [fmap list_fmap].
  change (mjoin [l ++ [lf]]) with ((l ++ [lf]) ++ []). rewrite !length_app. cbn [length] in *. lia.
Qed.

Lemma scan_u64_number v : fits 64 v -> scan_u64 (lit " " ++ to_string v) = Some v.
Proof.
  intros Hv. unfold scan_u64, strtoul. change (scan_number (lit " " ++ to_string v)) with (scan_number (to_string v)).
  rewrite <- (app_nil_r (to_string v)), scan_to_string by (done || apply ends_number_nil).
  unfold fits in Hv. by rewrite (proj2 (Z.leb_gt _ _)) by lia.
Qed.

Lemma scan_quoted_upto n le rest :
  (length le <= n)%nat -> Byte.x22 ∉ le -> scan_quoted n (le ++ Byte.x22 :: rest) = (le, Byte.x22 :: rest).
Proof.
  revert n. induction le as [|c le IH]; intros n Hn Hq; [by destruct n|].
  destruct n as [|n]; [simpl in Hn; lia|]. apply not_elem_of_cons in Hq as [Hc Hq]. cbn [app scan_quoted].
  rewrite decide_False by done. rewrite IH by (simpl in Hn; done || lia). done.
Qed.

(** Text without NUL is its own C string. *)
Definition nul_free (s : bytes) : Prop := Forall (fun c => c <> Byte.x00) s.

Lemma digits_nul_free s : Forall is_digit s -> nul_free s.
Proof. intros Hs. eapply Forall_impl; [exact Hs|]. intros c [Hc _] ->. by apply Hc. Qed.

Lemma to_string_nul_free v : nul_free (to_string v).
Proof. apply digits_nul_free, to_string_digits. Qed.

(** A label value: no quote, no NUL, of a length the format takes. *)
Definition le_ok (le : bytes) : Prop :=
  (Byte.x22 ∉ le) /\ nul_free le /\ le <> [] /\ (length le <= 31)%nat.

#[local] Instance nul_free_dec s : Decision (nul_free s).
Proof. unfold nul_free. apply _. Defined.

Lemma bucket_line_read le v :
  le_ok le -> fits 64 v -> sscanf_bucket (c_str (bucket_text latency_name le v)) = Some (le, v).
Proof.
  intros (Hq & Hn & Hne & Hl) Hv. rewrite c_str_id.
  2:{ unfold bucket_text. repeat apply Forall_app_2; try apply to_string_nul_free; try exact Hn;
      by apply (bool_decide_unpack _). }
  change (bucket_text latency_name le v) with (bucket_prefix ++ le ++ dq ++ lit "} " ++ to_string v).
  unfold sscanf_bucket. rewrite starts_with_app, drop_app_length. cbn [negb].
  change (dq ++ lit "} " ++ to_string v) with (Byte.x22 :: (lit "}" ++ lit " " ++ to_string v)).
  rewrite scan_quoted_upto by done. rewrite bool_decide_false by done.
  change (starts_with (dq ++ lit "}") (Byte.x22 :: lit "}" ++ lit " " ++ to_string v)) with true. cbn [negb].
  change (drop 2 (Byte.x22 :: lit "}" ++ lit " " ++ to_string v)) with (lit " " ++ to_string v).
  by rewrite scan_u64_number.
Qed.

Lemma number_line_read prefix v :
  nul_free prefix -> fits 64 v ->
  sscanf_number prefix (c_str (prefix ++ lit " " ++ to_string v)) = Some v.
Proof.
  intros Hp Hv. rewrite c_str_id.
  2:{ repeat apply Forall_app_2; [exact Hp|by apply (bool_decide_unpack _)|apply to_string_nul_free]. }
  unfold sscanf_number. rewrite starts_with_app, drop_app_length. cbn [negb]. by apply scan_u64_number.
Qed.

Lemma seconds_le_ok ms : le_ok (seconds_text ms).
Proof.
  unfold seconds_text. destruct (to_string_digits (ms / 1000)) as [Hd Hne].
  pose proof (dec_digits_digits 3 (ms mod 1000)) as H3.
  assert (Hq : forall s, Forall is_digit s -> Byte.x22 ∉ s).
  { intros s Hs Hin. apply (proj1 (Forall_forall _ _) Hs) in Hin as [Hc _]. by apply Hc. }
  split_and!.
  - rewrite 2!not_elem_of_app. split_and!; [by apply Hq|by apply (bool_decide_unpack _)|by apply Hq].
  - apply Forall_app_2; [by apply digits_nul_free|].
    apply Forall_app_2; [by apply (bool_decide_unpack _)|by apply digits_nul_free].
  - intros [? _]%app_eq_nil. done.
  - pose proof (length_seconds ms). unfold seconds_text in *. lia.
Qed.

Lemma seconds_not_inf ms : seconds_text ms <> lit "+Inf".
Proof.
  unfold seconds_text. destruct (to_string_digits (ms / 1000)) as [Hd Hne].
  destruct (to_string (ms / 1000)) as [|c s]; [done|]. inversion_clear Hd as [|? ? Hc _].
  intros [= -> _]. destruct Hc as [Hc _]. by apply Hc.
Qed.

Lemma inf_le_ok : le_ok (lit "+Inf").
Proof. split_and!; by apply (bool_decide_unpack _). Qed.

(** ** Reading the page *)

Section scrape.
Context {S M D : Type} `{!StoreOps S} `{!Membership M} (text : D -> bytes).
Context (lt : D -> D -> bool) (atof : bytes -> D) (e18 : D).

(** The keys of the buckets: the bounds as they are read back, and 1e18. *)
Definition bound_key (i : nat) : D := atof (seconds_text (bucket_bound i)).
Definition keys : list D := (bound_key <$> seq 0 kBuckets) ++ [e18].
Definition cumulatives (h : @Histogram D) : list Z := cumulative h <$> seq 0 (Datatypes.S kBuckets).

Lemma cumulative_fits (h : @Histogram D) i : fits 64 (cumulative h i).
Proof.
  unfold cumulative. generalize (take (Datatypes.S i) (h_counts h)). intros l.
  assert (H0 : fits 64 0) by (unfold fits; lia). revert H0. generalize 0 at 1 2.
  induction l as [|x l IH]; intros c Hc; [done|]. simpl. apply IH, wrap_fits. lia.
Qed.

Lemma scrape_bucket_lines (h : @Histogram D) ns : forall acc,
  foldl (scrape_line lt atof e18) acc
    ((fun i => bucket_text latency_name (seconds_text (bucket_bound i)) (cumulative h i)) <$> ns) =
  mkScrape (foldl (bucket_add lt) (sh_buckets acc) ((fun i => (bound_key i, cumulative h i)) <$> ns))
    (sh_count acc) (sh_completions acc).
Proof.
  induction ns as [|i ns IH]; intros acc; [by destruct acc|]. cbn [fmap list_fmap foldl]. rewrite IH.
  unfold scrape_line. rewrite bucket_line_read by (apply seconds_le_ok || apply cumulative_fits).
  unfold le_value. rewrite bool_decide_false by apply seconds_not_inf. done.
Qed.

Lemma zip_buckets (h : @Histogram D) :
  zip keys (cumulatives h) =
  ((fun i => (bound_key i, cumulative h i)) <$> seq 0 kBuckets) ++ [(e18, cumulative h kBuckets)].
Proof. reflexivity. Qed.

Lemma scrape_latency (h : @Histogram D) acc :
  fits 64 (h_total h) ->
  foldl (scrape_line lt atof e18) acc (latency_lines text h) =
  mkScrape (foldl (bucket_add lt) (sh_buckets acc) (zip keys (cumulatives h)))
    (u64 (sh_count acc + h_total h)) (sh_completions acc).
Proof.
  intros Ht. unfold latency_lines. rewrite foldl_app, scrape_bucket_lines, zip_buckets, foldl_app.
  cbn [foldl]. set (b := foldl _ _ _). unfold scrape_line at 3. cbn [sh_buckets sh_count sh_completions].
  rewrite bucket_line_read by (apply inf_le_ok || apply cumulative_fits). cbn [sh_buckets sh_count sh_completions].
  unfold scrape_line at 2.
  change (sscanf_bucket (c_str (latency_name ++ lit "_sum " ++ text (h_sum h)))) with (@None (bytes * Z)).
  change (sscanf_number count_prefix (c_str (latency_name ++ lit "_sum " ++ text (h_sum h)))) with (@None Z).
  change (sscanf_number ok_prefix (c_str (latency_name ++ lit "_sum " ++ text (h_sum h)))) with (@None Z).
  cbv beta iota zeta. unfold scrape_line.
  change (latency_name ++ lit "_count " ++ to_string (h_total h))
    with (count_prefix ++ lit " " ++ to_string (h_total h)).
  change (sscanf_bucket (c_str (count_prefix ++ lit " " ++ to_string (h_total h)))) with (@None (bytes * Z)).
  cbv beta iota zeta. by rewrite number_line_read by (done || by apply (bool_decide_unpack _)).
Qed.

(** The lines the load generator does not look at. *)
Lemma skip_line acc (rest : bytes) (name : string) :
  (forall r, sscanf_bucket (c_str (lit name ++ r)) = None) ->
  (forall r, sscanf_number count_prefix (c_str (lit name ++ r)) = None) ->
  (forall r, sscanf_number ok_prefix (c_str (lit name ++ r)) = None) ->
  scrape_line lt atof e18 acc (lit name ++ rest) = acc.
Proof. intros H1 H2 H3. unfold scrape_line. by rewrite H1, H2, H3. Qed.

Lemma scrape_page_lines (p : @Proc S M D) :
  fits 64 (h_total (pr_latency p)) -> fits 64 (c_completions_ok (n_counters (pr_node p))) ->
  foldl (scrape_line lt atof e18) no_hist (page_lines text p) =
  mkScrape (foldl (bucket_add lt) [] (zip keys (cumulatives (pr_latency p))))
    (u64 (h_total (pr_latency p))) (u64 (c_completions_ok (n_counters (pr_node p)))).
Proof.
  intros Ht Hc. unfold page_lines. cbv zeta. rewrite foldl_app. cbn [foldl].
  do 8 (unfold gauge_line at 1 || unfold counter_line at 1).
  rewrite !(skip_line no_hist) by (intros; reflexivity).
  assert (E : scrape_line lt atof e18 no_hist
    (counter_line (lit "tautq_completions_total") (label "result" "ok") (c_completions_ok (n_counters (pr_node p)))) =
    mkScrape [] 0 (u64 (c_completions_ok (n_counters (pr_node p))))).
  { unfold scrape_line. change (counter_line (lit "tautq_completions_total") (label "result" "ok") ?v)
      with (ok_prefix ++ lit " " ++ to_string v).
    change (sscanf_bucket (c_str (ok_prefix ++ ?r))) with (@None (bytes * Z)).
    change (sscanf_number count_prefix (c_str (ok_prefix ++ ?r))) with (@None Z).
    by rewrite number_line_read by (done || by apply (bool_decide_unpack _)). }
  rewrite E. unfold counter_line.
  rewrite (skip_line _ _ "tautq_expirations_total"), (skip_line _ _ "tautq_deadletters_total"),
    (skip_line _ _ "tautq_takeovers_total"), (skip_line _ _ "tautq_fenced_stale_total"),
    (skip_line _ _ "tautq_membership_churn_total") by (intros; reflexivity).
  change (scrape_line lt atof e18 ?a (lit "tautq_completions_total" ++ label "result" "fail" ++ ?r)) with a.
  by rewrite scrape_latency.
Qed.

(** No line of the page is broken. *)
Lemma number_no_lf v : lf ∉ to_string v.
Proof. apply digits_not_in. by intros [[] _]. Qed.

Lemma digits_no_lf n v : lf ∉ dec_digits n v.
Proof.
  intros Hin. pose proof (dec_digits_digits n v) as Hd.
  apply (proj1 (Forall_forall _ _) Hd) in Hin as [[] _]. done.
Qed.

Lemma counter_no_lf name labels v : (lf ∉ name) -> (lf ∉ labels) -> lf ∉ counter_line name labels v.
Proof.
  intros H1 H2. unfold counter_line. rewrite 3!not_elem_of_app.
  split_and!; [done|done|by apply (bool_decide_unpack _)|apply number_no_lf].
Qed.

Lemma gauge_no_lf name labels v : (lf ∉ name) -> (lf ∉ labels) -> lf ∉ gauge_line name labels v.
Proof.
  intros H1 H2. unfold gauge_line, whole_text. rewrite 5!not_elem_of_app.
  split_and!; [done|done|by apply (bool_decide_unpack _)|apply number_no_lf|by apply (bool_decide_unpack _)|
    apply digits_no_lf].
Qed.

Lemma bucket_no_lf le v : (lf ∉ le) -> lf ∉ bucket_text latency_name le v.
Proof.
  intros H1. unfold bucket_text. rewrite 6!not_elem_of_app.
  assert (Hlit : forall s : string, bool_decide (lf ∉ lit s) = true -> lf ∉ lit s)
    by (intros s; apply bool_decide_eq_true_1).
  split_and!; [by apply Hlit|by apply Hlit|by apply (bool_decide_unpack _)|exact H1|
    by apply (bool_decide_unpack _)|by apply Hlit|apply number_no_lf].
Qed.

Lemma page_no_lf (p : @Proc S M D) :
  (lf ∉ text (h_sum (pr_latency p))) -> Forall (fun l => lf ∉ l) (page_lines text p).
Proof.
  intros Hs. unfold page_lines. cbv zeta. apply Forall_app. split.
  { rewrite !Forall_cons. split_and!; [..|constructor]; (apply counter_no_lf || apply gauge_no_lf);
      by apply (bool_decide_unpack _). }
  unfold latency_lines. apply Forall_app. split.
  - apply Forall_fmap, Forall_true. intros i. apply bucket_no_lf. unfold seconds_text. rewrite 2!not_elem_of_app.
    split_and!; [apply number_no_lf|by apply (bool_decide_unpack _)|apply digits_no_lf].
  - rewrite !Forall_cons. split_and!; [apply bucket_no_lf; by apply (bool_decide_unpack _)|..|constructor].
    + rewrite 2!not_elem_of_app. split_and!; [by apply (bool_decide_unpack _)..|done].
    + rewrite 2!not_elem_of_app. split_and!; [by apply (bool_decide_unpack _)..|apply number_no_lf].
Qed.

(** ** Buckets under one list of keys *)

Context (lt_asym : forall a b, lt a b = true -> lt b a = false) (lt_irrefl : forall a, lt a a = false).
Definition above (k : D) (l : Buckets D) : Prop := Forall (fun kv => lt k (fst kv) = true) l.

Lemma add_above k c b l :
  above k l -> foldl (bucket_add lt) ((k, c) :: b) l = (k, c) :: foldl (bucket_add lt) b l.
Proof.
  intros Hl. revert b. induction Hl as [|kv l Hk _ IH]; intros b; [done|]. simpl.
  rewrite (lt_asym _ _ Hk), Hk. apply IH.
Qed.

Lemma above_zip k ks (cs : list Z) : Forall (fun x => lt k x = true) ks -> above k (zip ks cs).
Proof.
  intros H. revert cs. induction H as [|x ks Hx _ IH]; intros [|c cs]; constructor; [done|apply IH].
Qed.

Lemma add_to_empty ks cs :
  StronglySorted (fun a b => lt a b = true) ks ->
  foldl (bucket_add lt) [] (zip ks cs) = zip ks ((fun c => u64 c) <$> cs).
Proof.
  intros H. revert cs. induction H as [|k ks _ IH Hk]; intros [|c cs]; [done..|]. simpl.
  rewrite add_above by (by apply above_zip). by rewrite IH.
Qed.

Lemma add_pointwise ks cs ds :
  StronglySorted (fun a b => lt a b = true) ks -> length cs = length ks -> length ds = length ks ->
  foldl (bucket_add lt) (zip ks cs) (zip ks ds) = zip ks (zip_with (fun c d => u64 (c + d)) cs ds).
Proof.
  intros H. revert cs ds. induction H as [|k ks _ IH Hk]; intros [|c cs] [|d ds]; try done.
  intros [= Hc] [= Hd]. simpl. rewrite lt_irrefl. rewrite add_above by (by apply above_zip). by rewrite IH.
Qed.

Lemma find_zip k x ks (cs : list Z) :
  Forall (fun y => lt k y = true) ks -> bucket_find lt (zip (k :: ks) (x :: cs)) k = Some x.
Proof. intros _. simpl. by rewrite lt_irrefl. Qed.

Lemma find_skip k x b le : lt k le = true -> bucket_find lt ((k, x) :: b) le = bucket_find lt b le.
Proof. intros Hk. simpl. by rewrite Hk. Qed.

Lemma delta_skip k x b l :
  above k l -> delta_buckets lt l ((k, x) :: b) = delta_buckets lt l b.
Proof.
  intros Hl. induction Hl as [|[k' c] l Hk _ IH]; [done|]. cbn [delta_buckets]. cbn [fst] in Hk.
  rewrite find_skip by done. by rewrite IH.
Qed.

(** The deltas of two scrapes under the same keys, the first at most the second. *)
Lemma delta_pointwise ks cs ds :
  StronglySorted (fun a b => lt a b = true) ks -> length cs = length ks ->
  Forall2 (fun c d => 0 <= c <= d /\ d < 2 ^ 64) cs ds ->
  delta_buckets lt (zip ks ds) (zip ks cs) = (zip ks (zip_with (fun c d => d - c) cs ds), false).
Proof.
  intros H. revert cs ds. induction H as [|k ks _ IH Hk]; intros cs ds Hc Hcd.
  - by destruct cs.
  - destruct cs as [|c cs]; [done|]. inversion_clear Hcd as [|? d ? ds' [Hle Hb] Hcd']. injection Hc as Hc.
    cbn [zip zip_with delta_buckets]. cbn [bucket_find]. rewrite lt_irrefl. cbn [default].
    unfold delta_or_zero at 1. change (id c) with c. rewrite (proj2 (Z.ltb_ge _ _)) by lia.
    fold (zip ks cs) (zip ks ds'). rewrite delta_skip by (by apply above_zip). rewrite IH by done.
    rewrite wrap_id by (unfold fits; lia). done.
Qed.

(** ** Totals over the nodes *)

Context (le_ms : D -> Z -> bool) (add : D -> D -> D) (zero : D).
Context (le_mono : forall d b b', b <= b' -> le_ms d b = true -> le_ms d b' = true).
Context (keys_sorted : StronglySorted (fun a b => lt a b = true) keys).

(** The rendered counts of the observations [ds]. *)
Definition counts_of (ds : list D) : list Z :=
  (fun i => Z.of_nat (within le_ms i ds)) <$> seq 0 (Datatypes.S kBuckets).

Lemma within_app i ds ds' : within le_ms i (ds ++ ds') = (within le_ms i ds + within le_ms i ds')%nat.
Proof. unfold within. by rewrite filter_app, length_app. Qed.

Lemma zip_with_fmap_same {X Y} (f g : X -> Z) (h : Z -> Z -> Y) (l : list X) :
  zip_with h (f <$> l) (g <$> l) = (fun x => h (f x) (g x)) <$> l.
Proof. induction l as [|x l IH]; [done|]. simpl. by f_equal. Qed.

Lemma counts_sum ds ds' :
  Z.of_nat (length (ds ++ ds')) < 2 ^ 64 ->
  zip_with (fun c d => u64 (c + d)) (counts_of ds) (counts_of ds') = counts_of (ds ++ ds').
Proof.
  intros Hb. unfold counts_of. rewrite zip_with_fmap_same. apply list_fmap_ext. intros _ i _.
  rewrite within_app, Nat2Z.inj_add. apply wrap_id. unfold fits. rewrite length_app in Hb.
  pose proof (within_le le_ms i ds). pose proof (within_le le_ms i ds'). lia.
Qed.

Lemma counts_wrap ds : Z.of_nat (length ds) < 2 ^ 64 -> (fun c => u64 c) <$> counts_of ds = counts_of ds.
Proof.
  intros Hb. unfold counts_of. rewrite <- list_fmap_compose. apply list_fmap_ext. intros _ i _. cbn.
  apply wrap_id. unfold fits. pose proof (within_le le_ms i ds). lia.
Qed.

Lemma length_counts ds : length (counts_of ds) = length keys.
Proof. done. Qed.

(** A node that has observed [ds], and whose page can be read: the printed sum is a
    short line. *)
Record shows (ds : list D) (p : @Proc S M D) : Prop := {
  sw_hist : pr_latency p = observe_all le_ms add zero ds;
  sw_sum : (length (text (h_sum (pr_latency p))) <= 200)%nat /\ (lf ∉ text (h_sum (pr_latency p)));
  sw_ok : fits 64 (c_completions_ok (n_counters (pr_node p))) }.

(** The page as it comes. *)
Definition page (p : @Proc S M D) : HttpResponse := mkHttpResponse 200 ∅ (metrics_text text p).

Lemma scrape_shows ds p :
  Z.of_nat (length ds) < 2 ^ 64 -> shows ds p ->
  scrape lt atof e18 (page p) =
  (mkScrape (zip keys (counts_of ds)) (Z.of_nat (length ds)) (c_completions_ok (n_counters (pr_node p))), false).
Proof.
  intros Hb [Hh [Hl Hn] Hok]. unfold scrape, page. cbn [hr_code hr_body Z.eqb negb Pos.eqb].
  unfold scrape_body. rewrite metrics_page by done. rewrite split_lines by (by apply page_no_lf).
  assert (Ht : fits 64 (h_total (pr_latency p))) by (rewrite Hh, total_observed by done; unfold fits; lia).
  rewrite scrape_page_lines by done. rewrite !wrap_id by done. rewrite Hh, total_observed by done.
  rewrite add_to_empty by done. f_equal. f_equal. f_equal.
  rewrite <- (counts_wrap ds Hb). f_equal. unfold cumulatives, counts_of. apply list_fmap_ext. intros _ i _.
  by apply cumulative_within.
Qed.

Lemma add_shows ds0 c0 ds p :
  Z.of_nat (length (ds0 ++ ds)) < 2 ^ 64 -> shows ds p ->
  exists c, add_scrape lt atof e18 (mkScrape (zip keys (counts_of ds0)) (Z.of_nat (length ds0)) c0, 0) (page p) =
    (mkScrape (zip keys (counts_of (ds0 ++ ds))) (Z.of_nat (length (ds0 ++ ds))) c, 0).
Proof.
  intros Hb Hs. unfold add_scrape. rewrite (scrape_shows ds) by (done || (rewrite length_app in Hb; lia)).
  cbn [sh_buckets sh_count sh_completions]. eexists. rewrite add_pointwise by (done || apply length_counts).
  rewrite counts_sum by done. rewrite wrap_id by (rewrite length_app in Hb; unfold fits; lia).
  rewrite length_app, Nat2Z.inj_add. done.
Qed.

Lemma sum_shows_from dss ps : forall ds0 c0,
  Forall2 shows dss ps -> Z.of_nat (length (ds0 ++ mjoin dss)) < 2 ^ 64 ->
  exists c, foldl (add_scrape lt atof e18)
      (mkScrape (zip keys (counts_of ds0)) (Z.of_nat (length ds0)) c0, 0) (page <$> ps) =
    (mkScrape (zip keys (counts_of (ds0 ++ mjoin dss))) (Z.of_nat (length (ds0 ++ mjoin dss))) c, 0).
Proof.
  revert ps. induction dss as [|ds dss IH]; intros ps ds0 c0 Hs Hb; inversion Hs as [|? p ? ps' Hp Hps]; subst.
  - exists c0. cbn. by rewrite app_nil_r.
  - change (mjoin (ds :: dss)) with (ds ++ mjoin dss) in *. rewrite app_assoc in Hb.
    destruct (add_shows ds0 c0 ds p) as [c1 E]; [rewrite length_app in Hb; lia|done|].
    cbn [fmap list_fmap foldl]. rewrite E. destruct (IH ps' (ds0 ++ ds) c1 Hps Hb) as [c E2].
    exists c. by rewrite E2, app_assoc.
Qed.

Lemma sum_shows dss ps :
  Forall2 shows dss ps -> ps <> [] -> Z.of_nat (length (mjoin dss)) < 2 ^ 64 ->
  exists c, sum_scrapes lt atof e18 (page <$> ps) =
    (mkScrape (zip keys (counts_of (mjoin dss))) (Z.of_nat (length (mjoin dss))) c, 0).
Proof.
  intros Hs Hne Hb. destruct Hs as [|ds p dss ps Hp Hps]; [done|].
  change (mjoin (ds :: dss)) with (ds ++ mjoin dss) in *. unfold sum_scrapes. cbn [fmap list_fmap foldl].
  unfold add_scrape at 2. rewrite (scrape_shows ds) by (done || (rewrite length_app in Hb; lia)).
  cbn [sh_buckets sh_count sh_completions no_hist]. rewrite add_to_empty by done.
  rewrite counts_wrap by (rewrite length_app in Hb; lia).
  rewrite (wrap_id 64 (0 + Z.of_nat (length ds))) by (rewrite length_app in Hb; unfold fits; lia).
  rewrite Z.add_0_l. by apply sum_shows_from.
Qed.

(** ** The difference of two scrapes *)

Lemma counts_perm ds ds' : ds ≡ₚ ds' -> counts_of ds = counts_of ds'.
Proof.
  intros Hp. unfold counts_of. apply list_fmap_ext. intros _ i _. unfold within. by rewrite Hp.
Qed.

Lemma join_perm (olds news : list (list D)) :
  length olds = length news -> mjoin (zip_with app olds news) ≡ₚ mjoin olds ++ mjoin news.
Proof.
  revert news. induction olds as [|o olds IH]; intros [|n news]; try done. intros [= Hl].
  change (mjoin (zip_with app (o :: olds) (n :: news))) with ((o ++ n) ++ mjoin (zip_with app olds news)).
  change (mjoin (o :: olds)) with (o ++ mjoin olds). change (mjoin (n :: news)) with (n ++ mjoin news).
  rewrite (IH news Hl). solve_Permutation.
Qed.

Lemma row_exact olds news befores afters :
  Forall2 shows olds befores -> Forall2 shows (zip_with app olds news) afters ->
  length olds = length news -> befores <> [] ->
  Z.of_nat (length (mjoin olds ++ mjoin news)) < 2 ^ 64 ->
  make_row lt (fst (sum_scrapes lt atof e18 (page <$> befores))) (fst (sum_scrapes lt atof e18 (page <$> afters)))
    (snd (sum_scrapes lt atof e18 (page <$> afters))) =
  mkRow (zip keys (counts_of (mjoin news))) (Z.of_nat (length (mjoin news))) false.
Proof.
  intros Hb Ha Hl Hne Hn. pose proof (join_perm olds news Hl) as Hp.
  assert (Hna : afters <> []).
  { intros ->. apply Forall2_nil_inv_r in Ha. destruct Hb; [done|]. by destruct news. }
  destruct (sum_shows olds befores Hb Hne) as [cb ->]; [rewrite length_app in Hn; lia|].
  destruct (sum_shows _ afters Ha Hna) as [ca ->]; [by rewrite Hp|]. cbn [fst snd].
  rewrite (counts_perm _ _ Hp), (Permutation_length Hp).
  unfold make_row. cbn [sh_buckets sh_count]. rewrite <- counts_sum by done.
  assert (Hf : Forall2 (fun c d => 0 <= c <= d /\ d < 2 ^ 64) (counts_of (mjoin olds))
    (zip_with (fun c d => u64 (c + d)) (counts_of (mjoin olds)) (counts_of (mjoin news)))).
  { rewrite counts_sum by done. unfold counts_of. apply Forall2_fmap_2, Forall_Forall2_diag, Forall_true. intros i.
    rewrite within_app. pose proof (within_le le_ms i (mjoin olds)). pose proof (within_le le_ms i (mjoin news)).
    rewrite length_app in Hn. lia. }
  rewrite delta_pointwise by done. unfold delta_or_zero. rewrite length_app in *.
  rewrite (proj2 (Z.ltb_ge _ _)) by lia. rewrite wrap_id by (unfold fits; lia). cbn [orb Z.ltb Z.compare].
  f_equal; [|lia]. f_equal. rewrite counts_sum by (rewrite length_app; lia).
  unfold counts_of. rewrite zip_with_fmap_same. apply list_fmap_ext. intros _ i _. rewrite within_app. lia.
Qed.

(** A closing scrape: what each node has observed since the opening one, and the nodes. *)
Record Closing := mkClosing { cl_new : list (list D); cl_nodes : list (@Proc S M D) }.

Definition closing_ok (olds : list (list D)) (c : Closing) : Prop :=
  Forall2 shows (zip_with app olds (cl_new c)) (cl_nodes c) /\ length olds = length (cl_new c) /\
  Z.of_nat (length (mjoin olds ++ mjoin (cl_new c))) < 2 ^ 64.

Definition pages (ps : list (@Proc S M D)) : list HttpResponse := page <$> ps.

(** The repeated scrapes, each with whether there was time for it. *)
Definition later_pages (more : list (bool * Closing)) : list (bool * list HttpResponse) :=
  (fun m => (fst m, pages (cl_nodes (snd m)))) <$> more.

(** How many of [ds] each bucket should count. *)
Definition histogram_of (ds : list D) : Buckets D :=
  zip keys (((fun i => Z.of_nat (length (filter (fun d => le_ms d (bucket_bound i) = true) ds))) <$>
               seq 0 kBuckets) ++ [Z.of_nat (length ds)]).

Lemma counts_histogram ds : zip keys (counts_of ds) = histogram_of ds.
Proof.
  unfold histogram_of, counts_of. rewrite seq_S, fmap_app. f_equal. f_equal.
  - apply list_fmap_ext. intros _ i Hi%list_elem_of_lookup_2%elem_of_seq. f_equal. apply within_spec; [done|lia].
  - cbn [fmap list_fmap]. f_equal. f_equal. by apply within_all.
Qed.
End scrape.

(** ** Properties *)

(** The closing scrapes end with one of them. *)
Lemma settle_last {D} (lt : D -> D -> bool) atof e18 before accepted more : forall last,
  settle_scrapes lt atof e18 before accepted last more = last \/
  exists t rs, (t, rs) ∈ more /\ settle_scrapes lt atof e18 before accepted last more = sum_scrapes lt atof e18 rs.
Proof.
  induction more as [|[t rs] more IH]; intros last; simpl; [by left|].
  destruct (_ && _ && _); [|by left]. right.
  destruct (IH (sum_scrapes lt atof e18 rs)) as [->|(t' & rs' & Hin & ->)]; [exists t, rs|exists t', rs']; set_solver.
Qed.

(** C20: a row counts the jobs of its run.  When every node answers and none restarts
    between the scrapes, then whatever the nodes had observed before, and however often
    the closing scrape is repeated, the row is not suspect and is the histogram of
    exactly the latencies observed between the opening scrape and the last one: each
    bucket counts those up to its bound, the last one and the number of completed jobs
    all of them.  Of doubles it is used that the printed bounds are read back in
    increasing order. *)
Theorem row_counts_this_run {S M D : Type} `{!StoreOps S} `{!Membership M}
  (text : D -> bytes) (lt : D -> D -> bool) (atof : bytes -> D) (e18 : D)
  (le_ms : D -> Z -> bool) (add : D -> D -> D) (zero : D)
  (olds : list (list D)) (befores : list (@Proc S M D)) accepted
  (first : @Closing S M D) (more : list (bool * @Closing S M D)) :
  (forall d b b', b <= b' -> le_ms d b = true -> le_ms d b' = true) ->
  (forall a b, lt a b = true -> lt b a = false) -> (forall a, lt a a = false) ->
  StronglySorted (fun a b => lt a b = true) (keys atof e18) ->
  Forall2 (shows text le_ms add zero) olds befores -> befores <> [] ->
  Forall (closing_ok text le_ms add zero olds) (first :: more.*2) ->
  let before := fst (sum_scrapes lt atof e18 (pages text befores)) in
  let after := settle_scrapes lt atof e18 (sh_count before) accepted
                 (sum_scrapes lt atof e18 (pages text (cl_nodes first))) (later_pages text more) in
  exists c, c ∈ first :: more.*2 /\
    make_row lt before (fst after) (snd after) =
    mkRow (histogram_of atof e18 le_ms (mjoin (cl_new c))) (Z.of_nat (length (mjoin (cl_new c)))) false.
Proof.
  intros Hm Ha Hi Hk Hb Hne Hall before after.
  assert (E : exists c, c ∈ first :: more.*2 /\ after = sum_scrapes lt atof e18 (pages text (cl_nodes c))).
  { destruct (settle_last lt atof e18 (sh_count before) accepted (later_pages text more)
      (sum_scrapes lt atof e18 (pages text (cl_nodes first)))) as [E|(t & rs & Hin & E)].
    - exists first. split; [by left|exact E].
    - apply list_elem_of_fmap in Hin as ([t' c] & [= -> ->] & Hin). exists c. split; [|exact E].
      right. apply list_elem_of_fmap. by exists (t', c). }
  destruct E as (c & Hc & ->). exists c. split; [done|].
  apply (proj1 (Forall_forall _ _) Hall) in Hc as (Hs & Hl & Hn).
  unfold before, pages. rewrite (row_exact text lt atof e18 Ha Hi le_ms add zero Hm Hk olds (cl_new c)) by done.
  by rewrite counts_histogram.
Qed.

(** ** Witnesses and an execution

    Latencies in whole milliseconds, and bounds read in milliseconds. *)
Module ScrapeSample.
Definition text (d : Z) : bytes := to_string d.
Definition le_ms (d b : Z) : bool := d <=? b.
Definition atof (s : bytes) : Z :=
  match split Byte.x2e s with [a; b] => strtoul a * 1000 + strtoul b | _ => 0 end.
Definition e18 : Z := 10 ^ 21.
Definition node (ds : list Z) : @Proc MemStore StaticMembership Z :=
  mkProc (pr_node FenceSample.proc) ∅ (observe_all le_ms Z.add 0 ds) 0 false [] [] [].
Lemma node_shows ds :
  shows text le_ms Z.add 0 ds (node ds).
Proof.
  split; [done|split|].
  - pose proof (length_to_string (h_sum (pr_latency (node ds)))). unfold text. lia.
  - apply number_no_lf.
  - by vm_compute.
Qed.
Definition scraped (ps : list (list Z)) : Loadgen.Hist Z * Z := sum_scrapes Z.ltb atof e18 (pages text (node <$> ps)).
Definition befores : list (@Proc MemStore StaticMembership Z) := node <$> [[5]; [70]].
Definition first : @Closing MemStore StaticMembership Z := mkClosing [[3]; []] (node <$> [[5; 3]; [70]]).
Definition more : list (bool * @Closing MemStore StaticMembership Z) :=
  [(true, mkClosing [[3; 8]; [1]] (node <$> [[5; 3; 8]; [70; 1]]))].
Definition before : Loadgen.Hist Z := fst (sum_scrapes Z.ltb atof e18 (pages text befores)).
Definition after : Loadgen.Hist Z * Z :=
  settle_scrapes Z.ltb atof e18 (sh_count before) 3 (sum_scrapes Z.ltb atof e18 (pages text (cl_nodes first)))
    (later_pages text more).
End ScrapeSample.

Lemma row_counts_this_run_witness :
  exists c, c ∈ ScrapeSample.first :: ScrapeSample.more.*2 /\
    make_row Z.ltb ScrapeSample.before (fst ScrapeSample.after) (snd ScrapeSample.after) =
    mkRow (histogram_of ScrapeSample.atof ScrapeSample.e18 ScrapeSample.le_ms (mjoin (cl_new c)))
      (Z.of_nat (length (mjoin (cl_new c)))) false.
Proof.
  refine (row_counts_this_run ScrapeSample.text Z.ltb ScrapeSample.atof ScrapeSample.e18
    ScrapeSample.le_ms Z.add 0 [[5]; [70]] ScrapeSample.befores 3 ScrapeSample.first ScrapeSample.more
    _ _ _ _ _ _ _).
  - unfold ScrapeSample.le_ms. intros d b b' Hb Hd. apply Z.leb_le. apply Z.leb_le in Hd. lia.
  - intros a b Hab. apply Z.ltb_ge. apply Z.ltb_lt in Hab. lia.
  - apply Z.ltb_irrefl.
  - vm_compute. repeat constructor.
  - repeat constructor; apply ScrapeSample.node_shows.
  - discriminate.
  - repeat constructor; apply ScrapeSample.node_shows.
Defined.

(** Two rows that are wrong and not reported as suspect.  Resets are looked for in the
    totals over all nodes: one node restarts between the scrapes and loses its counts,
    the other completes four jobs, no total falls, and the row has one completed job
    instead of four.  And a node that does not answer the opening scrape is not counted
    as unreachable: the three jobs it had completed before are counted as the run's. *)
Theorem wrong_rows_not_suspect :
  (let row := make_row Z.ltb (fst (ScrapeSample.scraped [[1; 2; 3]; []]))
                (fst (ScrapeSample.scraped [[]; [1; 1; 1; 1]])) (snd (ScrapeSample.scraped [[]; [1; 1; 1; 1]])) in
   rw_suspect row = false /\ rw_completed row = 1) /\
  (let before := sum_scrapes Z.ltb ScrapeSample.atof ScrapeSample.e18
                   [page ScrapeSample.text (ScrapeSample.node []); no_response] in
   let row := make_row Z.ltb (fst before)
                (fst (ScrapeSample.scraped [[]; [1; 2; 3]])) (snd (ScrapeSample.scraped [[]; [1; 2; 3]])) in
   rw_suspect row = false /\ rw_completed row = 3).
Proof. vm_compute. repeat split; reflexivity. Qed.
